(* ===== verification/_CoqProject ===== *)
-Q . S2P
Prelude.v
StableSort.v
FloatModel.v
Text.v
Json.v
Role.v
Quota.v
Resilience.v
Routing.v
RoutingDb.v
JobQueue.v
WaitQueue.v
Capacity.v
Backend.v
Pool.v
Chunker.v
Blob.v
Envelope.v
ColumnCrypt.v
Schema.v
PgStore.v
StoreInvariant.v
StoreReads.v
StoreIngest.v
Search.v
Tags.v
Auth.v
Sessions.v
Billing.v
Guards.v
SourceFetch.v
Archive.v
DocBuilder.v
IngestText.v
Ingest.v
Retag.v
RequestGate.v
Backpressure.v
SourceSync.v
LocalBlob.v
BlobCache.v
Refetch.v
Staging.v
Upload.v
Retrieval.v
Maintenance.v
