(* ===== verification/Prelude.v ===== *)
(** * TagsMaxxing: a verification development of the knowledge-base core

    TagsMaxxing is a multi-tenant document knowledge base.  Uploads become
    jobs in a Postgres queue; workers extract, chunk, tag and embed them with
    models served by a pool of backends; blobs go to a content-addressed
    store; quotas, plans and budgets gate what a tenant may do.  This library
    models the parts that carry the program's own logic and proves what makes
    them correct.  Paths below are relative to [src/crates/].

    ** How the parts fit together

    - An upload is gated by [Quota] (storage and token quotas, budgets).
      [Upload] puts its bytes into the blob store, stages a pending document
      with [Staging] and enqueues an ingest in [JobQueue]; a failure on the
      way deletes the blobs again.
    - A worker claims a job, chunks the text with [Chunker] and calls models
      through the scheduler: [Pool.acquire] picks a backend, either by the
      flat priority list of the configuration or by the tiers of a [Routing]
      table that [RoutingDb] builds from the administrator's rows and
      [Backend.sync_backends] turns into live backends.
    - A backend is guarded by a [Capacity]; a caller that finds none free
      waits in the [WaitQueue], which a dropped lease notifies.
    - The worker runs [Ingest.ingest]: [DocBuilder] makes the file records,
      the bytes go to the blob store, extractors (among them [Archive], or
      [SourceFetch] for an address) give text, [IngestText] cuts it to the
      model's window, [Tags] canonicalizes the tags it proposed, [Chunker]
      cuts the text to embed, and document, files, chunks and tags are
      written in one transaction ([PgStore.transactional_ingest]); [Retag]
      proposes tags anew, and [Search] answers queries over the tables;
      [Retrieval] embeds the query, reranks the answer and falls back to
      keywords when the models are down or the budget is spent.
    - [Guards] holds what an upload and an outgoing address must pass.
    - A document may follow an address: the scanner claims the due documents
      and queues a job for each, and the job ([Refetch]) composes the fetch,
      the ingest and the version statements of [SourceSync].
    - A request passes [RequestGate] (token or session, e-mail verification,
      rate limits, the idempotency key) before its handler runs, and an
      upload also a permit of [Backpressure].
    - [Auth] keeps tenants, users and passwords, [Sessions] the cookies and
      API tokens they sign in with; [Billing] turns Stripe's webhooks into
      the plan and status columns that gate an upload.
    - [Resilience] holds the circuit breaker, the health debounce and the
      degradation report around external services.

    ** Files

    - [Prelude]: machine integers at their width, the result type and its
      bind, case-analysis tactics, the hint database [kb], list lemmas.
    - [StableSort]: the stable sorts the Rust code calls ([sort_by_key] with
      one or two keys), with permutation, order, minimality and determinism.
    - [FloatModel]: IEEE binary32 and binary64 by the Standard Library's
      executable specification ([SpecFloat]).
    - [Text], [Json]: Rust strings as lists of code points with their UTF-8
      bytes, the string functions the code calls, and JSON values with
      ordered keys.
    - [Role]: core/src/macros.rs ([str_enum!] as the class [StrEnum] with its
      laws), the enumerations generated with it, core/src/capability.rs.
    - [Quota]: core/src/quota.rs, core/src/budget.rs and the enforcement
      gates of store/src/plan_enforcement.rs, plans.rs and budget.rs over a
      record of the tables they read.
    - [Resilience]: core/src/circuit_breaker.rs, scheduler/src/health.rs,
      core/src/degradation.rs.
    - [Routing]: core/src/routing.rs, the table and its lookups.
    - [RoutingDb]: store/src/db_routing.rs, the administrator's operations on
      providers, models and routes, and the joined query.
    - [JobQueue]: pipeline/src/job_queue.rs, job_lease.rs and job_aging.rs,
      the job operations of store/src/admin_queries.rs and the ingest retry
      of store/src/ingest_staging.rs; one function per SQL statement.
      [Staging]: the rest of ingest_staging.rs.
    - [WaitQueue]: scheduler/src/priority_wait.rs.
    - [Capacity]: scheduler/src/capacity.rs, bandwidth.rs, time_window.rs.
    - [Backend]: scheduler/src/backend.rs and materialize.rs; backends are
      pointers into a heap because clones share their live state.
    - [Pool]: scheduler/src/pool.rs, tiered.rs, lease.rs, error.rs.
    - [Chunker]: pipeline/src/chunker.rs on UTF-8 bytes.
    - [Blob]: the trait of core/src/blob.rs as a class, and the contract
      [BlobLaws] that callers rely on.
    - [Envelope]: core/src/kek.rs and store/src/encrypted_blob.rs.
    - [ColumnCrypt]: the column encryption of core/src/envelope.rs,
      core/src/data_key.rs and core/src/provider_key.rs.
    - [Schema]: the tenant-scoped tables, their constraints, row-level
      security and the transaction monad; [PgStore]: the statements of
      store/src/pg_store.rs on documents, files, chunks, tags and data keys,
      and [transactional_ingest]; [StoreInvariant], [StoreReads] and
      [StoreIngest]: their theorems.
    - [Search]: core/src/query.rs and store/src/hybrid_search.rs.
    - [Tags]: pipeline/src/tag_canonicalizer.rs over the interface of
      pipeline/src/tag_store.rs, which [PgStore] implements.
    - [Auth]: core/src/auth.rs and the users and tenants of pg_store.rs.
    - [Sessions]: core/src/session.rs and api_token.rs with the stores of
      store/src/session_store.rs and api_token_store.rs.
    - [Billing]: api/src/handlers/webhook.rs, store/src/stripe_events.rs,
      subscription_lifecycle.rs and the plan updates of plans.rs.
    - [Guards]: extract/src/security.rs, with the address parser of Rust's
      standard library; [SourceFetch]: extract/src/source_fetch.rs;
      [Archive]: extract/src/archive.rs.
    - [DocBuilder]: pipeline/src/document_builder.rs and metadata_merge.rs;
      [IngestText]: the token budgets, text cuts, context retries and name
      sanitizing of pipeline/src/ingest.rs; [Ingest]: the ingest itself with
      pipeline/src/embedder.rs, and the queued job of ingest_worker.rs;
      [Retag]: the retag job.
    - [RequestGate]: the middleware of api/src/middleware.rs with
      api/src/billing_cache.rs; [Backpressure]: api/src/backpressure.rs.
    - [SourceSync]: core/src/source_sync.rs and store/src/document_versions.rs;
      [Refetch]: pipeline/src/refetch_worker.rs with llm/src/diff_summary.rs
      and a tick of api/src/source_sync_scanner.rs.
    - [Upload]: the upload paths of api/src/handlers/ingest.rs.
    - [Retrieval]: pipeline/src/retrieval.rs, llm/src/reranker.rs and
      api/src/handlers/search.rs; [Maintenance]: pipeline/src/maintenance.rs,
      orphan_gc.rs and integrity_scan.rs, one Module each.
    - [LocalBlob]: store/src/blob.rs over a model of the file system.
    - [BlobCache]: store/src/blob_cache.rs over any store of the class, and
      the whole storage stack.

    ** What the theorems show

    - Invariants over all histories: [JobQueue.job_lifecycle_invariant],
      [RoutingDb.routing_db_invariant], [Capacity.permits_conserved],
      [JobQueue.ready_never_downgraded], [StoreInvariant.store_invariant],
      [Auth.accounts_invariant], [Billing.plan_quotas_invariant].
    - Isolation: no operation of a tenant touches another tenant's rows, and
      what it reads depends on its own rows alone
      ([StoreInvariant.tenant_isolation], [StoreReads.reads_own_rows_only],
      [Search.search_sound]).
    - Ingest: what is stored is what was uploaded, a repeated upload changes
      nothing more, and it reads back through column encryption.  The whole
      pipeline composes these: [Ingest.ingest_end_to_end] from files to rows,
      proved against a blob contract, the tag interface and the document
      store, [Ingest.failed_ingest_keeps_documents] for every failure, and
      [Ingest.ingest_errors] and [Ingest.queued_ingest_outcomes] for what is
      reported and what is retried.
    - Uploads: what is accepted is staged, queued within the caps and loaded
      again by the worker as it was sent ([Upload.upload_accepted], over
      [Staging.staging_exact]); staging twice is staging once
      ([Staging.staging_idempotent]); what a refusal leaves behind is exactly
      described ([Upload.upload_errors]).
    - Guards against hostile input: the internal addresses are exactly the
      listed blocks ([Guards.internal_host_exact]), a fetch never connects to
      one on any hop ([SourceFetch.fetch_never_internal]), an archive is read
      within its limits whatever it claims ([Archive.archive_bounded]).
    - The gate: a request is refused, replayed or handed to its handler
      exactly as its credential, the e-mail flag and the two limits say
      ([RequestGate.gate_admits_only]), at most as often as the plan allows
      ([RequestGate.limiter_exact], [RequestGate.rate_caps_hold]), once per
      idempotency key after a success ([RequestGate.idempotent_uploads]), and
      no tenant can take another's share of the pool
      ([Backpressure.backpressure_fair]).
    - Search: a reply holds only live documents of the tenant, survives an
      outage of the models, is never refused for a spent budget, and reaches
      no remote model on a plan without them ([Retrieval.retrieve_sound],
      [search_survives_outage], [over_budget_search], [free_plan_stays_local]).
    - Maintenance: jobs run when they are due and not oftener
      ([Maintenance.Scheduler.maintenance_on_schedule]), the collector deletes
      orphans and nothing else ([Maintenance.OrphanGc.orphan_gc_exact]), a scan
      fails exactly when a blob it looked at is damaged
      ([Maintenance.IntegrityScan.integrity_scan_exact]).
    - Source sync: versions are never changed and read back without a gap
      ([SourceSync.version_history]), a claim takes what is due and not
      twice within the interval ([SourceSync.claims_spaced]), failures back
      off and pause ([SourceSync.failures_pause]), and the job leaves what it
      reports ([Refetch.refetch_outcomes]).
    - Refinement of a specification: the wait queue is one ordered list per
      role, the circuit breaker a function of the event history, the blob
      cache an LRU list ([BlobCache.cache_lru_refines]); the storage stack
      keeps the contract of a content-addressed store under failing calls
      ([BlobCache.blob_stack_sound], composed from three instances of one
      interface); the API-token maps are a list of issued tokens; a webhook
      delivery is one atomic change ([Billing.webhook_refines]), made at most
      once whatever fails.
    - Equivalence: rank fusion with its formula, the two session stores with
      each other where callers keep to the protocol, binary search with
      membership.
    - Exact behaviour of operations: claims take the best eligible job, the
      routing query and the table lookup return exactly the effective
      entries, a routing snapshot is applied exactly, quota gates accept
      exactly what fits, [open] accepts exactly sealed envelopes.
    - Safety under every schedule: leases respect data residency and come
      from the routed or registered backends, embeddings stay in the first
      tier, a claimed job is not claimed again, blob paths stay inside the
      store.
    - Bounds and progress: retry budgets and backoff, bounded overtaking by
      aging, immediate grants when a backend is ready, coverage of the text
      by its chunks, the cap of the cache.
    - Some theorems record behaviour that differs from the documentation
      (for instance [RoutingDb.override_starves_other_tenants],
      [JobQueue.crash_loop_never_dead], [Capacity.rpm_limit_refunded],
      [Retrieval.cached_across_tenants], [Maintenance.OrphanGc.grace_period_vacuous],
      [LocalBlob.interrupted_put_sticks], [Billing.interrupted_upgrade_sticks],
      [Sessions.pg_create_token_always_fails]).

    ** Modelling decisions

    - Time is an argument: every operation that reads a clock takes its
      value, in microseconds for the database and nanoseconds for
      [Instant]s.
    - Integers are [Z] with the width's wrap-around, saturation or overflow
      check written out where the code can reach it.
    - A database is a record of its tables; constraints that the schema
      enforces are part of the operations.  Each statement is atomic, and
      interleavings are lists of events.  Row locks of concurrent
      transactions are the argument [locked].
    - Await points of the scheduler take a schedule that says what the caller
      finds when it resumes; theorems quantify over schedules.
    - Failing I/O is a list of outcomes in the state, one per call; a failing
      file write keeps a prefix of its data.
    - Fuel: the chunk loop takes the length of the text, the wake-up loop one
      more than the number of waiters and buckets; [Chunker.chunk_text_sound]
      and [WaitQueue.wait_queue_refines] show they suffice; the redirect loop
      of [SourceFetch] recurses on the hops left and the retry loop of
      [IngestText] on the shrinks left, as the source counts them.  All
      other recursion is structural.
    - A transaction of [Schema] runs on a copy of the tables and is dropped
      when a statement fails; [Billing] opens none, as its source, so a
      failed statement leaves the earlier ones in place.
    - Parameters: AES-256-GCM with the laws of an authenticated cipher,
      SHA-256 idealised as free of collisions, HMAC and the JSON parser of
      the webhook, the vector and full-text indexes (a list of live rows of
      the tenant), the iteration order of hash maps and table scans, the
      Unicode tables with their ASCII laws, the embedding replies of a
      model server, what the query builder makes of an empty list, the type
      detection by magic bytes, the URL parser, the resolver and the replies
      of web servers, the entries zip, tar and gzip readers yield, the
      extractor, tagger, captioning and embedding calls of an ingest,
      the header values and bodies of the HTTP library, and the model's chat
      call with the JSON reading of its reply.

    ** Not modelled

    Not modelled: the HTTP layer, templates, wiring and most handlers of api/
    (the webhook, the request gate, the upload paths and the search are), the
    clients of model servers in llm/ but for the reading of rerank replies,
    the extractors that wrap external tools, the object store client and
    [streaming_put], and Vault, all of which are I/O whose results are
    parameters here; the assistant, chat and dashboard pages, exports,
    thumbnails and watched folders; configuration loading, metrics and tests;
    the shredding of a tenant and usage rollups, sequences of statements on
    tables that are modelled only in part.

    Limits of the models.  Statements and transactions run one after the
    other; where the code holds no lock between two statements of one
    transaction the interleaving is treated apart
    ([SourceSync.raced_advances_skip_a_number]).  Concurrent acquires are
    those of the schedules of [Pool], on a snapshot of the registry that the
    code reads again for each tier.  The histories of [RequestGate] are of
    requests handled one after the other; [Backpressure] interleaves theirs.
    Row-level security is always enforced: the single-role mode of
    pg_store.rs, in which policies do not apply, is not modelled.  A fetch
    connects to the addresses it validated; a proxy of the system is not
    modelled.  The theorems on uploads assume files of different contents:
    equal ones collapse to one row ([StoreIngest.duplicate_pages_never_match],
    [Staging.duplicate_pages_stage_twice]). *)

From stdpp Require Import base gmap list strings sorting relations.
From Stdlib Require Import ZArith Lia.

(** ** Machine integers

    A Rust integer is a [Z] together with the [int_ty] whose range the code
    relies on; the arithmetic of the standard library is written out per
    operation, so that overflow behaviour is part of the model. *)

Record int_ty := IntTy { ity_min : Z; ity_max : Z }.

Definition i32 : int_ty := IntTy (- 2 ^ 31) (2 ^ 31 - 1).
Definition i64 : int_ty := IntTy (- 2 ^ 63) (2 ^ 63 - 1).
Definition u8 : int_ty := IntTy 0 (2 ^ 8 - 1).
Definition u32 : int_ty := IntTy 0 (2 ^ 32 - 1).
Definition u64 : int_ty := IntTy 0 (2 ^ 64 - 1).
(** The targets of the repository are 64-bit: [usize] is [u64]. *)
Definition usize : int_ty := u64.

Definition in_ty (t : int_ty) (z : Z) : Prop := (ity_min t <= z <= ity_max t)%Z.

#[global] Instance in_ty_dec t z : Decision (in_ty t z).
Proof. unfold in_ty. apply _. Defined.

Definition ty_width (t : int_ty) : Z := (ity_max t - ity_min t + 1)%Z.

(** Two's-complement reduction: [as] casts and release-mode arithmetic. *)
Definition wrap (t : int_ty) (z : Z) : Z :=
  ((z - ity_min t) mod ty_width t + ity_min t)%Z.

Definition checked_add (t : int_ty) (a b : Z) : option Z :=
  if decide (in_ty t (a + b)%Z) then Some (a + b)%Z else None.

Definition saturate (t : int_ty) (z : Z) : Z :=
  Z.max (ity_min t) (Z.min z (ity_max t)).

Definition saturating_add (t : int_ty) (a b : Z) : Z := saturate t (a + b)%Z.
Definition saturating_sub (t : int_ty) (a b : Z) : Z := saturate t (a - b)%Z.
Definition saturating_mul (t : int_ty) (a b : Z) : Z := saturate t (a * b)%Z.
Definition wrapping_add (t : int_ty) (a b : Z) : Z := wrap t (a + b)%Z.

(** Well-formed ranges, so that the generic lemmas need no case analysis. *)
Class IntTyOk (t : int_ty) : Prop := int_ty_ok : (ity_min t <= 0 < ity_max t)%Z.
#[global] Instance i32_ok : IntTyOk i32. Proof. done. Qed.
#[global] Instance i64_ok : IntTyOk i64. Proof. done. Qed.
#[global] Instance u8_ok : IntTyOk u8. Proof. done. Qed.
#[global] Instance u32_ok : IntTyOk u32. Proof. done. Qed.
#[global] Instance u64_ok : IntTyOk u64. Proof. done. Qed.

Section int_lemmas.
Context (t : int_ty) `{!IntTyOk t}.

Lemma saturate_in_ty z : in_ty t (saturate t z).
Proof using All. unfold in_ty, saturate. pose proof int_ty_ok. lia. Qed.

Lemma saturate_id z : in_ty t z -> saturate t z = z.
Proof using Type. unfold in_ty, saturate. lia. Qed.

Lemma wrap_in_ty z : in_ty t (wrap t z).
Proof using All.
  unfold in_ty, wrap, ty_width. pose proof int_ty_ok.
  pose proof (Z.mod_pos_bound (z - ity_min t) (ity_max t - ity_min t + 1)). lia.
Qed.

Lemma wrap_id z : in_ty t z -> wrap t z = z.
Proof using Type. unfold in_ty, wrap, ty_width. intros. rewrite Z.mod_small; lia. Qed.

Lemma checked_add_Some a b c :
  checked_add t a b = Some c <-> c = (a + b)%Z /\ in_ty t (a + b)%Z.
Proof using Type. unfold checked_add. case_decide; naive_solver. Qed.

Lemma checked_add_None a b : checked_add t a b = None <-> ~ in_ty t (a + b)%Z.
Proof using Type. unfold checked_add. case_decide; naive_solver. Qed.
End int_lemmas.

(** ** Results

    [Result<T, E>] with the [?] operator as a bind. *)

Inductive result (A E : Type) : Type :=
| Ok (a : A)
| Err (e : E).
Arguments Ok {A E} a.
Arguments Err {A E} e.

#[global] Instance result_eq_dec {A E} `{EqDecision A, EqDecision E} :
  EqDecision (result A E).
Proof. solve_decision. Defined.

Definition is_ok {A E} (r : result A E) : bool :=
  match r with Ok _ => true | Err _ => false end.

Definition result_bind {A B E} (r : result A E) (k : A -> result B E) : result B E :=
  match r with Ok a => k a | Err e => Err e end.

(** [Option::ok_or]. *)
Definition ok_or {A E} (o : option A) (e : E) : result A E :=
  match o with Some a => Ok a | None => Err e end.

Declare Scope kb_scope.
Delimit Scope kb_scope with kb.
Notation "'let?' x := r 'in' k" := (result_bind r (fun x => k))
  (at level 10, x pattern, r at level 100, k at level 200,
   format "'let?'  x  :=  r  'in' '//' k") : kb_scope.
Open Scope kb_scope.

(** ** Automation

    [case_all] splits on every boolean test, option or result the goal or a
    hypothesis still branches on, and closes the contradictory cases. *)

Ltac case_step :=
  match goal with
  | H : Ok _ = Ok _ |- _ => injection H as H; subst
  | H : Err _ = Err _ |- _ => injection H as H; subst
  | H : Ok _ = Err _ |- _ => discriminate H
  | H : Err _ = Ok _ |- _ => discriminate H
  | H : Some _ = Some _ |- _ => injection H as H; subst
  | H : Some _ = None |- _ => discriminate H
  | H : None = Some _ |- _ => discriminate H
  | H : context [match ?x with _ => _ end] |- _ => destruct x eqn:?; simpl in H
  | |- context [match ?x with _ => _ end] => destruct x eqn:?; simpl
  end.
Ltac case_all := repeat (case_step; try congruence).

(** Boolean comparisons on [Z] to propositions. *)
Ltac bool_to_prop :=
  repeat match goal with
  | H : (_ && _)%bool = true |- _ => apply andb_true_iff in H as [??]
  | H : (_ && _)%bool = false |- _ => apply andb_false_iff in H
  | H : (_ || _)%bool = false |- _ => apply orb_false_iff in H as [??]
  | H : (_ || _)%bool = true |- _ => apply orb_true_iff in H
  | H : (_ <=? _)%Z = true |- _ => apply Z.leb_le in H
  | H : (_ <=? _)%Z = false |- _ => apply Z.leb_gt in H
  | H : (_ <? _)%Z = true |- _ => apply Z.ltb_lt in H
  | H : (_ <? _)%Z = false |- _ => apply Z.ltb_ge in H
  | H : (_ =? _)%Z = true |- _ => apply Z.eqb_eq in H
  | H : (_ =? _)%Z = false |- _ => apply Z.eqb_neq in H
  | H : bool_decide _ = true |- _ => apply bool_decide_eq_true in H
  | H : bool_decide _ = false |- _ => apply bool_decide_eq_false in H
  | H : negb _ = true |- _ => apply negb_true_iff in H
  | H : negb _ = false |- _ => apply negb_false_iff in H
  end.

Create HintDb kb discriminated.
#[export] Hint Resolve saturate_in_ty wrap_in_ty : kb.

(** ** Lists *)

Fixpoint sum_Z (l : list Z) : Z :=
  match l with [] => 0 | x :: l => (x + sum_Z l)%Z end.

Lemma sum_Z_perm l l' : l ≡ₚ l' -> sum_Z l = sum_Z l'.
Proof. induction 1; simpl in *; lia. Qed.

Lemma sum_Z_app l l' : sum_Z (l ++ l') = (sum_Z l + sum_Z l')%Z.
Proof. induction l; simpl; lia. Qed.

Lemma filter_none {A} (P : A -> Prop) `{!∀ x, Decision (P x)} (l : list A) :
  (∀ x, x ∈ l -> ~ P x) -> filter P l = [].
Proof.
  induction l as [|x l IH]; intros Hn; [done|]. rewrite filter_cons_False; [|apply Hn; set_solver].
  apply IH. set_solver.
Qed.

Lemma filter_Forall {A} (P Q : A -> Prop) `{!∀ x, Decision (P x)} (l : list A) :
  Forall Q l -> Forall Q (filter P l).
Proof. rewrite !Forall_forall. intros HQ x [_ ?]%list_elem_of_filter. auto. Qed.

Lemma filter_keep {A} (P : A -> Prop) `{!∀ x, Decision (P x)} (l : list A) :
  (∀ x, x ∈ l -> P x) -> filter P l = l.
Proof.
  induction l as [|x l IH]; intros Hp; [done|]. rewrite filter_cons_True by (apply Hp; set_solver).
  f_equal. apply IH. set_solver.
Qed.

Lemma submseteq_NoDup {A} (l k : list A) : l ⊆+ k -> NoDup k -> NoDup l.
Proof. intros [k' ->]%submseteq_Permutation. rewrite NoDup_app. naive_solver. Qed.
