(* ===== verification/StableSort.v ===== *)
(** * Stable sorting

    [slice::sort_by] and [slice::sort_by_key] of the Rust standard library are
    stable sorts by a comparator.  For a comparator that is a total preorder a
    stable sort has exactly one result, so a stable insertion sort computes it.
    The components use this file through [sort_by] and its four laws: the
    result is a permutation, it is ordered, equal elements keep their order,
    and the input order is irrelevant when no two elements are equivalent. *)

From stdpp Require Import base list sorting sets.
From Stdlib Require Import ZArith Lia.
From S2P Require Import Prelude.

Section sort.
Context {A : Type} (leb : A -> A -> bool).

Fixpoint insert_by (x : A) (l : list A) : list A :=
  match l with
  | [] => [x]
  | y :: l' => if leb x y then x :: y :: l' else y :: insert_by x l'
  end.

Fixpoint sort_by (l : list A) : list A :=
  match l with
  | [] => []
  | x :: l' => insert_by x (sort_by l')
  end.

Lemma insert_by_perm x l : insert_by x l ≡ₚ x :: l.
Proof.
  induction l as [|y l IH]; simpl; [done|].
  destruct (leb x y); [done|]. rewrite IH. apply Permutation_swap.
Qed.

Lemma sort_by_perm l : sort_by l ≡ₚ l.
Proof. induction l as [|x l IH]; simpl; [done|]. by rewrite insert_by_perm, IH. Qed.

Lemma sort_by_elem_of x l : x ∈ sort_by l <-> x ∈ l.
Proof. by rewrite sort_by_perm. Qed.

Lemma sort_by_length l : length (sort_by l) = length l.
Proof. by rewrite sort_by_perm. Qed.

(** A single element or none needs no comparison. *)
Lemma sort_by_nil_inv l : sort_by l = [] -> l = [].
Proof. intros H. apply Permutation_nil_r. by rewrite <-H, sort_by_perm. Qed.

Section ordered.
Hypothesis leb_total : ∀ x y, leb x y = true ∨ leb y x = true.
Hypothesis leb_trans : ∀ x y z, leb x y = true -> leb y z = true -> leb x z = true.

Definition ordered (l : list A) : Prop :=
  StronglySorted (λ x y, leb x y = true) l.

Lemma leb_refl x : leb x x = true.
Proof using leb_total. by destruct (leb_total x x). Qed.

Lemma insert_by_ordered x l : ordered l -> ordered (insert_by x l).
Proof using All.
  induction l as [|y l IH]; simpl; intros Hs; [repeat constructor|].
  apply StronglySorted_inv in Hs as [Hs Hy].
  destruct (leb x y) eqn:E.
  - constructor; [by constructor|]. constructor; [done|].
    eapply Forall_impl; [exact Hy|]. simpl. eauto.
  - constructor; [by apply IH|]. rewrite insert_by_perm. constructor; [|done].
    destruct (leb_total x y); congruence.
Qed.

Lemma sort_by_ordered l : ordered (sort_by l).
Proof using All. induction l; simpl; [constructor|]. by apply insert_by_ordered. Qed.

(** The head of the result is a minimum. *)
Lemma sort_by_head_min x xs l :
  sort_by l = x :: xs -> ∀ y, y ∈ l -> leb x y = true.
Proof using All.
  intros E y Hy. pose proof (sort_by_ordered l) as Hs. rewrite E in Hs.
  apply StronglySorted_inv in Hs as [_ Hx]. rewrite <-(sort_by_elem_of y), E in Hy.
  apply elem_of_cons in Hy as [->|Hy]; [apply leb_refl|].
  rewrite Forall_forall in Hx. auto.
Qed.

(** Stability: the elements of one equivalence class keep their order. *)
Lemma insert_by_filter_class (P : A -> bool) x l :
  (∀ y z, P y = true -> P z = true -> leb y z = true) ->
  List.filter P (insert_by x l) = List.filter P (x :: l).
Proof using Type.
  intros HP. induction l as [|y l IH]; simpl; [done|].
  destruct (leb x y) eqn:E; simpl; [done|]. rewrite IH. simpl.
  destruct (P x) eqn:Hx, (P y) eqn:Hy; try done.
  rewrite HP in E by done. done.
Qed.

Lemma sort_by_stable (P : A -> bool) l :
  (∀ y z, P y = true -> P z = true -> leb y z = true) ->
  List.filter P (sort_by l) = List.filter P l.
Proof using Type.
  intros HP. induction l as [|x l IH]; simpl; [done|].
  rewrite insert_by_filter_class by done. simpl. by rewrite IH.
Qed.

(** When no two elements of the input are equivalent the input order, for
    instance a hash map's iteration order, does not matter. *)
Lemma sort_by_deterministic l1 l2 :
  l1 ≡ₚ l2 ->
  (∀ x y, x ∈ l1 -> y ∈ l1 -> leb x y = true -> leb y x = true -> x = y) ->
  sort_by l1 = sort_by l2.
Proof using All.
  intros HP Hanti.
  apply (StronglySorted_unique_strong (λ x y, leb x y = true)).
  - intros x y Hx Hy. rewrite sort_by_elem_of in Hx. rewrite sort_by_elem_of in Hy.
    apply Hanti; [done|by rewrite HP].
  - apply sort_by_ordered.
  - apply sort_by_ordered.
  - by rewrite !sort_by_perm.
Qed.
End ordered.
End sort.

(** Comparators that agree on the elements sort alike. *)
Lemma sort_by_ext {A} (leb leb' : A -> A -> bool) l :
  (∀ x y, x ∈ l -> y ∈ l -> leb x y = leb' x y) -> sort_by leb l = sort_by leb' l.
Proof.
  induction l as [|x l IH]; intros He; simpl; [done|].
  rewrite <-IH by (intros; apply He; by right).
  assert (Hx : ∀ y, y ∈ sort_by leb l -> leb x y = leb' x y).
  { intros y Hy%sort_by_elem_of. apply He; [by left|by right]. }
  revert Hx. generalize (sort_by leb l) as k. induction k as [|y k IHk]; intros Hx; simpl; [done|].
  rewrite <-Hx by (by left). destruct (leb x y); [done|]. f_equal. apply IHk. intros. apply Hx. by right.
Qed.

(** ** Comparators by key *)

Definition leb_by_key {A} (f : A -> Z) (x y : A) : bool := (f x <=? f y)%Z.

(** Lexicographic comparison of the tuples a [sort_by_key] closure builds. *)
Definition leb_by_key2 {A} (f g : A -> Z) (x y : A) : bool :=
  (f x <? f y)%Z || ((f x =? f y)%Z && (g x <=? g y)%Z).

Definition sort_by_key {A} (f : A -> Z) : list A -> list A := sort_by (leb_by_key f).
Definition sort_by_key2 {A} (f g : A -> Z) : list A -> list A := sort_by (leb_by_key2 f g).

Section keys.
Context {A : Type} (f g : A -> Z).

Lemma leb_by_key_total x y : leb_by_key f x y = true ∨ leb_by_key f y x = true.
Proof. unfold leb_by_key. lia. Qed.
Lemma leb_by_key_trans x y z :
  leb_by_key f x y = true -> leb_by_key f y z = true -> leb_by_key f x z = true.
Proof. unfold leb_by_key. lia. Qed.

Lemma leb_by_key2_total x y :
  leb_by_key2 f g x y = true ∨ leb_by_key2 f g y x = true.
Proof. unfold leb_by_key2. lia. Qed.
Lemma leb_by_key2_trans x y z :
  leb_by_key2 f g x y = true -> leb_by_key2 f g y z = true ->
  leb_by_key2 f g x z = true.
Proof. unfold leb_by_key2. lia. Qed.
End keys.

(** The first element with a property of a list sorted by itself is the least
    one that has it ([ORDER BY x LIMIT 1]). *)
Lemma head_sorted_min (P : Z -> Prop) `{!∀ x, Decision (P x)} (l : list Z) (d : Z) :
  head (filter P (sort_by_key id l)) = Some d <-> d ∈ l ∧ P d ∧ ∀ d', d' ∈ l -> P d' -> (d <= d')%Z.
Proof.
  assert (Hs : ordered (leb_by_key id) (sort_by_key id l))
    by (apply sort_by_ordered; [apply leb_by_key_total|apply leb_by_key_trans]).
  assert (Hin : ∀ x, x ∈ sort_by_key id l <-> x ∈ l) by (intros; apply sort_by_elem_of).
  assert (Hhead : ∀ d, head (filter P (sort_by_key id l)) = Some d ->
            d ∈ l ∧ P d ∧ ∀ d', d' ∈ l -> P d' -> (d <= d')%Z).
  { intros e. setoid_rewrite <-Hin. clear Hin.
    induction Hs as [|x xs Hs IH Hx]; simpl; [done|]. destruct (decide (P x)) as [HP|HP].
    - rewrite filter_cons_True by done. intros [= ->]. split_and!; [set_solver|done|].
      intros d' [->|Hd']%elem_of_cons _; [lia|]. rewrite Forall_forall in Hx. specialize (Hx _ Hd').
      unfold leb_by_key, id in Hx. lia.
    - rewrite filter_cons_False by done. intros (He & Hp & Hmin)%IH. split_and!; [set_solver|done|].
      intros d' [->|Hd']%elem_of_cons Hp'; [done|auto]. }
  split; [apply Hhead|]. intros (Hd & HP & Hmin). destruct (head _) as [e|] eqn:E.
  - destruct (Hhead e eq_refl) as (He & HPe & Hmin'). f_equal.
    apply Z.le_antisymm; [by apply Hmin'|by apply Hmin].
  - assert (Hf : d ∈ filter P (sort_by_key id l)) by (apply list_elem_of_filter; by rewrite Hin).
    destruct (filter _ _); [by apply elem_of_nil in Hf|done].
Qed.

#[export] Hint Resolve leb_by_key_total leb_by_key_trans leb_by_key2_total
  leb_by_key2_trans : kb.
