(* ===== verification/FloatModel.v ===== *)
(** * IEEE 754 numbers

    [f32] and [f64] as the code uses them: binary32 and binary64 with rounding
    to nearest, ties to even.  The operations are those of the Standard
    Library's executable specification of floating-point arithmetic. *)

From stdpp Require Import base list sorting.
From Stdlib Require Import ZArith Lia.
From Stdlib Require Import SpecFloat.
From S2P Require Import Prelude StableSort.
Open Scope Z_scope.

#[global] Instance spec_float_eq_dec : EqDecision spec_float.
Proof. solve_decision. Defined.

Definition f64 : Type := spec_float.
Definition f32 : Type := spec_float.

Definition f64_add : f64 -> f64 -> f64 := SFadd 53 1024.
Definition f64_sub : f64 -> f64 -> f64 := SFsub 53 1024.
Definition f64_mul : f64 -> f64 -> f64 := SFmul 53 1024.
Definition f64_div : f64 -> f64 -> f64 := SFdiv 53 1024.
Definition f32_add : f32 -> f32 -> f32 := SFadd 24 128.
Definition f32_sub : f32 -> f32 -> f32 := SFsub 24 128.
Definition f32_mul : f32 -> f32 -> f32 := SFmul 24 128.
Definition f32_div : f32 -> f32 -> f32 := SFdiv 24 128.

(** [n as f64], [f64::from(n)]: the nearest representable number. *)
Definition f64_of_Z (n : Z) : f64 := binary_normalize 53 1024 n 0 false.
Definition f32_of_Z (n : Z) : f32 := binary_normalize 24 128 n 0 false.

(** [a <= b], [a < b], [a == b] and [partial_cmp] ([None] on a NaN). *)
Definition f_le (a b : spec_float) : bool := SFleb a b.
Definition f_lt (a b : spec_float) : bool := SFltb a b.
Definition f_eq (a b : spec_float) : bool := SFeqb a b.
Definition partial_cmp (a b : spec_float) : option comparison := SFcompare a b.

(** [f64::min]: the other operand when one is a NaN. *)
Definition f_min (a b : spec_float) : spec_float :=
  match partial_cmp a b with
  | Some Gt => b
  | Some _ => a
  | None => if decide (a = S754_nan) then b else a
  end.

(** [f32::max], likewise. *)
Definition f_max (a b : spec_float) : spec_float :=
  match partial_cmp a b with
  | Some Lt => b
  | Some _ => a
  | None => if decide (a = S754_nan) then b else a
  end.

(** [f64 as u64]: truncation towards zero, saturating; NaN is 0. *)
Definition f64_to_u64 (x : f64) : Z :=
  match x with
  | S754_nan | S754_zero _ => 0
  | S754_infinity true => 0
  | S754_infinity false => ity_max u64
  | S754_finite s m e =>
      let v := if Z.leb 0 e then Z.pos m * 2 ^ e else Z.pos m / 2 ^ (- e) in
      saturate u64 (if s then - v else v)
  end.

(** ** Comparison lemmas *)

Lemma SFcompare_refl x : x <> S754_nan -> SFcompare x x = Some Eq.
Proof.
  destruct x as [[]|[]| |[] m e]; simpl; try done; intros _;
    rewrite Z.compare_refl; rewrite Pos.compare_cont_refl; done.
Qed.

Lemma f_le_refl x : x <> S754_nan -> f_le x x = true.
Proof. intros. unfold f_le, SFleb. by rewrite SFcompare_refl. Qed.

(** [f_min] returns one of its operands and is below both. *)
Lemma f_min_cases a b : f_min a b = a ∨ f_min a b = b.
Proof. unfold f_min. case_all; auto. Qed.

Lemma f_min_le_r a b : b <> S754_nan -> f_le (f_min a b) b = true.
Proof.
  intros Hb. unfold f_min, partial_cmp, f_le, SFleb.
  destruct (SFcompare a b) as [[]|] eqn:E; [by rewrite E|by rewrite E|by rewrite SFcompare_refl|].
  case_decide; [by rewrite SFcompare_refl|].
  destruct a, b; simpl in *; case_all; done.
Qed.

#[global] Arguments f_le : simpl never.
#[global] Arguments f_lt : simpl never.
#[global] Arguments f_eq : simpl never.
#[global] Arguments f_min : simpl never.
#[global] Arguments f64_of_Z : simpl never.
#[global] Arguments f32_of_Z : simpl never.
#[global] Arguments f64_add : simpl never.
#[global] Arguments f64_sub : simpl never.
#[global] Arguments f64_mul : simpl never.
#[global] Arguments f64_div : simpl never.
#[global] Arguments f32_add : simpl never.
#[global] Arguments f32_div : simpl never.
#[global] Arguments f32_sub : simpl never.
#[global] Arguments f32_mul : simpl never.
#[global] Arguments f_max : simpl never.

(** ** The order of numbers

    Away from NaN the comparison is the lexicographic order of a key, hence a
    total preorder. *)

Definition f_key (x : spec_float) : Z * Z * Z :=
  match x with
  | S754_nan => (3, 0, 0)
  | S754_infinity s => (if s then -2 else 2, 0, 0)
  | S754_zero _ => (0, 0, 0)
  | S754_finite s m e => if s then (-1, - e, - Z.pos m) else (1, e, Z.pos m)
  end.

Definition lex3 (a b : Z * Z * Z) : comparison :=
  let '(a1, a2, a3) := a in let '(b1, b2, b3) := b in
  match a1 ?= b1 with Eq => match a2 ?= b2 with Eq => a3 ?= b3 | c => c end | c => c end.

Lemma SFcompare_key a b :
  a <> S754_nan -> b <> S754_nan -> SFcompare a b = Some (lex3 (f_key a) (f_key b)).
Proof.
  intros. destruct a as [?|[]| |[] m1 e1], b as [?|[]| |[] m2 e2]; try done; unfold lex3, f_key; simpl.
  rewrite Z.compare_opp, (Z.compare_antisym e1 e2). by destruct (e1 ?= e2).
Qed.

Lemma f_lt_key a b :
  a <> S754_nan -> b <> S754_nan ->
  f_lt a b = match lex3 (f_key a) (f_key b) with Lt => true | _ => false end.
Proof. intros. unfold f_lt, SFltb. by rewrite SFcompare_key by done. Qed.

Ltac lex3_cases :=
  repeat match goal with
  | H : context [(?a ?= ?b)%Z] |- _ => destruct (Z.compare_spec a b); simpl in *
  | |- context [(?a ?= ?b)%Z] => destruct (Z.compare_spec a b); simpl in *
  end.

Lemma lex3_refl k : lex3 k k = Eq.
Proof. destruct k as [[k1 k2] k3]. simpl. by rewrite !Z.compare_refl. Qed.

Lemma lex3_antisym a b : lex3 b a = CompOpp (lex3 a b).
Proof.
  destruct a as [[a1 a2] a3], b as [[b1 b2] b3]. simpl.
  rewrite (Z.compare_antisym a1 b1), (Z.compare_antisym a2 b2), (Z.compare_antisym a3 b3).
  by destruct (a1 ?= b1), (a2 ?= b2), (a3 ?= b3).
Qed.

Lemma lex3_eq a b : lex3 a b = Eq <-> a = b.
Proof.
  destruct a as [[a1 a2] a3], b as [[b1 b2] b3]. split; [|by intros [= -> -> ->]; apply lex3_refl].
  simpl. lex3_cases; try done; congruence.
Qed.

Lemma lex3_lt_trans a b c : lex3 a b = Lt -> lex3 b c = Lt -> lex3 a c = Lt.
Proof.
  destruct a as [[a1 a2] a3], b as [[b1 b2] b3], c as [[c1 c2] c3]. simpl.
  intros H1 H2. lex3_cases; try done; lia.
Qed.

(** Numbers that are neither negative nor NaN. *)
Definition f_nonneg (x : spec_float) : bool :=
  match x with
  | S754_nan => false
  | S754_infinity s | S754_zero s | S754_finite s _ _ => negb s
  end.

Lemma f_nonneg_not_nan x : f_nonneg x = true -> x <> S754_nan.
Proof. by destruct x. Qed.

Section rounding.
Context (prec emax : Z).

Lemma iter_pos_inv {A} (f : A -> A) (P : A -> Prop) n x :
  (∀ y, P y -> P (f y)) -> P x -> P (SpecFloat.iter_pos f n x).
Proof. intros Hf. revert x. induction n; simpl; auto. Qed.

Lemma shr_1_nonneg r : 0 <= shr_m r -> 0 <= shr_m (shr_1 r).
Proof. destruct r as [[|[]|[]] ? ?]; simpl; lia. Qed.

Lemma shr_nonneg r e n : 0 <= shr_m r -> 0 <= shr_m (shr r e n).1.
Proof.
  intros. destruct n; simpl; try done. apply iter_pos_inv; [|done]. apply shr_1_nonneg.
Qed.

Lemma shr_fexp_nonneg m e l : 0 <= m -> 0 <= shr_m (shr_fexp prec emax m e l).1.
Proof. intros. apply shr_nonneg. by destruct l as [|[]]. Qed.

Lemma round_nearest_even_nonneg m l : 0 <= m -> 0 <= round_nearest_even m l.
Proof. destruct l as [|[]]; simpl; try case_match; lia. Qed.

Lemma binary_round_aux_nonneg m e l :
  0 <= m -> f_nonneg (binary_round_aux prec emax false m e l) = true.
Proof.
  intros Hm. unfold binary_round_aux.
  pose proof (shr_fexp_nonneg m e l Hm) as H1. destruct (shr_fexp prec emax m e l) as [r1 e1].
  pose proof (shr_fexp_nonneg _ e1 loc_Exact (round_nearest_even_nonneg _ (loc_of_shr_record r1) H1)) as H2.
  destruct (shr_fexp _ _ _ e1 _) as [r2 e2]. simpl in H2.
  destruct (shr_m r2); [done| |lia]. by case_match.
Qed.

Lemma binary_normalize_nonneg m e :
  0 <= m -> f_nonneg (binary_normalize prec emax m e false) = true.
Proof.
  intros. destruct m; simpl; [done| |lia]. unfold binary_round.
  destruct (shl_align _ _ _). apply binary_round_aux_nonneg. lia.
Qed.

Lemma SFadd_nonneg x y :
  f_nonneg x = true -> f_nonneg y = true -> f_nonneg (SFadd prec emax x y) = true.
Proof.
  destruct x as [[]|[]| |[] m1 e1], y as [[]|[]| |[] m2 e2]; try done.
  intros _ _. apply binary_normalize_nonneg. simpl. lia.
Qed.

(** A positive finite number over a number that is not negative. *)
Lemma SFdiv_nonneg m e y :
  f_nonneg y = true -> f_nonneg (SFdiv prec emax (S754_finite false m e) y) = true.
Proof.
  destruct y as [[]|[]| |[] m2 e2]; try done. intros _. simpl.
  unfold SFdiv_core_binary.
  set (m' := match _ with Z0 => _ | Z.pos _ => _ | Z.neg _ => _ end).
  assert (0 <= m').
  { subst m'. case_match; try lia. apply Z.shiftl_nonneg. lia. }
  pose proof (Z.div_pos m' (Z.pos m2)) as Hd. unfold Z.div in Hd.
  destruct (Z.div_eucl m' (Z.pos m2)). apply binary_round_aux_nonneg. lia.
Qed.
End rounding.

Lemma f32_of_Z_nonneg n : 0 <= n -> f_nonneg (f32_of_Z n) = true.
Proof. apply binary_normalize_nonneg. Qed.
Lemma f32_add_nonneg x y :
  f_nonneg x = true -> f_nonneg y = true -> f_nonneg (f32_add x y) = true.
Proof. apply SFadd_nonneg. Qed.
Lemma f32_inv_nonneg y : f_nonneg y = true -> f_nonneg (f32_div (f32_of_Z 1) y) = true.
Proof.
  assert (∃ m e, f32_of_Z 1 = S754_finite false m e) as (m & e & ->) by (eexists _, _; reflexivity).
  apply SFdiv_nonneg.
Qed.

(** ** Sorting by a score

    The comparator [b.score.partial_cmp(&a.score).unwrap_or(Equal)
    .then_with(|| a.id.cmp(&b.id))]: higher scores first, then lower ids. *)

Definition score_cmp {A} (score : A -> f32) (id : A -> Z) (a b : A) : comparison :=
  match default Eq (partial_cmp (score b) (score a)) with
  | Eq => id a ?= id b
  | c => c
  end.
Definition score_leb {A} (score : A -> f32) (id : A -> Z) (a b : A) : bool :=
  match score_cmp score id a b with Gt => false | _ => true end.

Section scores.
Context {A : Type} (score : A -> f32) (id : A -> Z).

(** [a] strictly before [b]. *)
Definition better (a b : A) : Prop :=
  f_lt (score b) (score a) = true ∨ (f_eq (score b) (score a) = true ∧ id a < id b).

(** The same order on keys; it is total on all numbers. *)
Definition key_leb (a b : A) : bool :=
  match lex3 (f_key (score b)) (f_key (score a)) with
  | Eq => id a <=? id b
  | Lt => true
  | Gt => false
  end.

Lemma score_leb_key a b :
  score a <> S754_nan -> score b <> S754_nan -> score_leb score id a b = key_leb a b.
Proof.
  intros. unfold score_leb, score_cmp, partial_cmp, key_leb. rewrite SFcompare_key by done. simpl.
  by destruct (lex3 _ _).
Qed.

Lemma key_leb_total a b : key_leb a b = true ∨ key_leb b a = true.
Proof.
  unfold key_leb. rewrite (lex3_antisym (f_key (score b))). destruct (lex3 _ _); simpl; auto; lia.
Qed.

Lemma key_leb_trans a b c : key_leb a b = true -> key_leb b c = true -> key_leb a c = true.
Proof.
  unfold key_leb.
  destruct (lex3 (f_key (score b)) (f_key (score a))) eqn:E1; try done;
  destruct (lex3 (f_key (score c)) (f_key (score b))) eqn:E2; try done.
  - apply lex3_eq in E1, E2. rewrite E2, E1, lex3_refl. lia.
  - apply lex3_eq in E1. by rewrite <-E1, E2.
  - apply lex3_eq in E2. by rewrite E2, E1.
  - by rewrite (lex3_lt_trans _ _ _ E2 E1).
Qed.

Lemma key_leb_antisym a b : key_leb a b = true -> key_leb b a = true -> id a = id b.
Proof.
  unfold key_leb. rewrite (lex3_antisym (f_key (score b))). destruct (lex3 _ _); simpl; lia || done.
Qed.

Lemma key_leb_better a b :
  score a <> S754_nan -> score b <> S754_nan -> id a <> id b -> key_leb a b = true -> better a b.
Proof.
  intros. unfold key_leb, better, f_lt, f_eq, SFltb, SFeqb in *. rewrite SFcompare_key by done.
  destruct (lex3 _ _); [|by left|done]. right. split; [done|lia].
Qed.

Lemma better_key_leb a b :
  score a <> S754_nan -> score b <> S754_nan -> better a b -> key_leb a b = true.
Proof.
  intros ?? Hb. unfold better, f_lt, f_eq, SFltb, SFeqb, key_leb in *.
  rewrite !SFcompare_key in Hb by done.
  destruct (lex3 _ _); [|done|naive_solver]. destruct Hb as [?|[_ ?]]; [done|lia].
Qed.

(** [result.sort_by(...)] with the comparator above. *)
Definition sort_scores (l : list A) : list A := sort_by (score_leb score id) l.

Lemma sort_scores_perm l : sort_scores l ≡ₚ l.
Proof. apply sort_by_perm. Qed.

Lemma sort_scores_key l :
  Forall (λ a, score a <> S754_nan) l -> sort_scores l = sort_by key_leb l.
Proof.
  intros Hl. apply sort_by_ext. rewrite Forall_forall in Hl.
  intros. apply score_leb_key; by apply Hl.
Qed.

(** Sorting elements with distinct ids and no NaN gives the strictly ordered
    list of them, the only one there is. *)
Lemma sort_scores_better l :
  Forall (λ a, score a <> S754_nan) l -> NoDup (id <$> l) -> StronglySorted better (sort_scores l).
Proof.
  intros Hl Hd. rewrite sort_scores_key by done.
  assert (Hs : StronglySorted (λ x y, key_leb x y = true) (sort_by key_leb l))
    by (apply sort_by_ordered; [apply key_leb_total|apply key_leb_trans]).
  rewrite <-(sort_by_perm key_leb l) in Hl, Hd. revert Hl Hd.
  induction Hs as [|x xs Hs IH Hx]; intros Hl Hd; [constructor|]. csimpl in Hd.
  apply NoDup_cons in Hd as [Hn Hd]. apply Forall_cons in Hl as [Hlx Hl].
  constructor; [by apply IH|]. rewrite Forall_forall in *. intros y Hy.
  apply key_leb_better; auto. intros E. apply Hn. rewrite E. by apply list_elem_of_fmap_2.
Qed.

Lemma sort_scores_unique l l' :
  Forall (λ a, score a <> S754_nan) l -> l' ≡ₚ l -> StronglySorted better l' ->
  NoDup (id <$> l) -> sort_scores l = l'.
Proof.
  intros Hl HP Hs Hd. rewrite sort_scores_key by done.
  apply (StronglySorted_unique_strong (λ x y, key_leb x y = true)).
  - intros x y Hx Hy Hxy Hyx. rewrite sort_by_perm in Hx. rewrite HP in Hy.
    pose proof (key_leb_antisym _ _ Hxy Hyx) as E.
    apply list_elem_of_lookup in Hx as [i Hi]. apply list_elem_of_lookup in Hy as [j Hj].
    assert (i = j) as ->; [|congruence].
    apply (NoDup_lookup (id <$> l) i j (id x)); [done|rewrite list_lookup_fmap, Hi; done|].
    rewrite list_lookup_fmap, Hj. simpl. congruence.
  - apply sort_by_ordered; [apply key_leb_total|apply key_leb_trans].
  - rewrite <-HP in Hl. clear HP Hd. induction Hs as [|x xs Hs IH Hx]; [constructor|].
    apply Forall_cons in Hl as [Hlx Hl]. constructor; [by apply IH|].
    rewrite Forall_forall in *. intros y Hy. apply better_key_leb; auto.
  - by rewrite sort_by_perm.
Qed.
End scores.
