(* ===== verification/Text.v ===== *)
(** * Strings

    A Rust [String] or [str] is the list of its [char]s, Unicode scalar values
    as integers; its bytes are their UTF-8 encoding, so that [len] and byte
    offsets are those of the code.  The file has the operations of the
    standard library the components use, and the lemmas about them.  Character
    tables that are Unicode data ([to_lowercase], [is_alphanumeric]) are the
    class [Unicode], fixed on ASCII. *)

From stdpp Require Import base list strings.
From Stdlib Require Import ZArith Lia Strings.Byte.
From S2P Require Import Prelude.
Open Scope Z_scope.

Notation chars := (list Z).

(** An ASCII literal. *)
Fixpoint str (s : string) : chars :=
  match s with
  | EmptyString => []
  | String a s => Z.of_N (Ascii.N_of_ascii a) :: str s
  end.
Coercion str : string >-> list.

(** ** UTF-8 *)

Definition is_scalar (c : Z) : bool :=
  (0 <=? c) && (c <=? 1114111) && negb ((55296 <=? c) && (c <=? 57343)).

Definition encode_char (c : Z) : list Z :=
  if c <? 128 then [c]
  else if c <? 2048 then [192 + c / 64; 128 + c mod 64]
  else if c <? 65536 then [224 + c / 4096; 128 + (c / 64) mod 64; 128 + c mod 64]
  else [240 + c / 262144; 128 + (c / 4096) mod 64; 128 + (c / 64) mod 64; 128 + c mod 64].

Definition as_bytes (s : chars) : list Z := s ≫= encode_char.

Definition is_trail (b : Z) : bool := (128 <=? b) && (b <? 192).

(** [String::from_utf8]. *)
Fixpoint from_utf8 (b : list Z) : option chars :=
  match b with
  | [] => Some []
  | b0 :: r =>
      if (0 <=? b0) && (b0 <? 128) then cons b0 <$> from_utf8 r
      else match r with
      | [] => None
      | b1 :: r1 =>
          if (194 <=? b0) && (b0 <? 224) && is_trail b1
          then cons ((b0 - 192) * 64 + (b1 - 128)) <$> from_utf8 r1
          else match r1 with
          | [] => None
          | b2 :: r2 =>
              let c := (b0 - 224) * 4096 + (b1 - 128) * 64 + (b2 - 128) in
              if (224 <=? b0) && (b0 <? 240) && is_trail b1 && is_trail b2
                 && (2048 <=? c) && is_scalar c
              then cons c <$> from_utf8 r2
              else match r2 with
              | [] => None
              | b3 :: r3 =>
                  let c := (b0 - 240) * 262144 + (b1 - 128) * 4096 + (b2 - 128) * 64 + (b3 - 128) in
                  if (240 <=? b0) && (b0 <? 248) && is_trail b1 && is_trail b2 && is_trail b3
                     && (65536 <=? c) && is_scalar c
                  then cons c <$> from_utf8 r3
                  else None
              end
          end
      end
  end.

(** [str::len]: bytes, not characters. *)
Definition char_len (c : Z) : nat := length (encode_char c).
Definition str_len (s : chars) : nat := length (as_bytes s).

Notation is_str := (Forall (λ c, is_scalar c = true)).

(** ** Whitespace *)

(** [char::is_whitespace]: the Unicode property White_Space. *)
Definition is_whitespace (c : Z) : bool :=
  ((9 <=? c) && (c <=? 13)) || (c =? 32) || (c =? 133) || (c =? 160) || (c =? 5760)
  || ((8192 <=? c) && (c <=? 8202)) || (c =? 8232) || (c =? 8233) || (c =? 8239)
  || (c =? 8287) || (c =? 12288).

Fixpoint trim_start (s : chars) : chars :=
  match s with
  | [] => []
  | c :: s' => if is_whitespace c then trim_start s' else s
  end.
Definition trim_end (s : chars) : chars := reverse (trim_start (reverse s)).
Definition trim (s : chars) : chars := trim_end (trim_start s).

(** [split_whitespace]; [cur] is the word being read, reversed. *)
Fixpoint split_ws (cur s : chars) : list chars :=
  match s with
  | [] => match cur with [] => [] | _ => [reverse cur] end
  | c :: s' =>
      if is_whitespace c
      then match cur with [] => split_ws [] s' | _ => reverse cur :: split_ws [] s' end
      else split_ws (c :: cur) s'
  end.
Definition split_whitespace (s : chars) : list chars := split_ws [] s.

(** [slice::join]. *)
Fixpoint join (sep : chars) (ws : list chars) : chars :=
  match ws with
  | [] => []
  | [w] => w
  | w :: ws' => w ++ sep ++ join sep ws'
  end.

(** [str::split(c)]: at least one piece. *)
Fixpoint split_char (sep : Z) (s : chars) : list chars :=
  match s with
  | [] => [[]]
  | c :: s' =>
      match split_char sep s' with
      | [] => [[c]]
      | w :: ws => if c =? sep then [] :: w :: ws else (c :: w) :: ws
      end
  end.

Definition starts_with (p s : chars) : bool := bool_decide (take (length p) s = p).
Definition ends_with (p s : chars) : bool :=
  bool_decide (drop (length s - length p) s = p).
Definition contains_char (c : Z) (s : chars) : bool := existsb (Z.eqb c) s.

(** [str::contains] of a string pattern. *)
Fixpoint contains (p s : chars) : bool :=
  starts_with p s || match s with [] => false | _ :: s' => contains p s' end.

(** [strip_prefix]. *)
Definition strip_prefix (p s : chars) : option chars :=
  if starts_with p s then Some (drop (length p) s) else None.

(** ** ASCII *)

Definition is_ascii_upper (c : Z) : bool := (65 <=? c) && (c <=? 90).
Definition is_ascii_lower (c : Z) : bool := (97 <=? c) && (c <=? 122).
Definition is_ascii_digit (c : Z) : bool := (48 <=? c) && (c <=? 57).
Definition is_ascii_alnum (c : Z) : bool := is_ascii_upper c || is_ascii_lower c || is_ascii_digit c.
Definition is_ascii (c : Z) : bool := (0 <=? c) && (c <? 128).
Definition to_ascii_lower (c : Z) : Z := if is_ascii_upper c then c + 32 else c.
Definition to_ascii_lowercase (s : chars) : chars := to_ascii_lower <$> s.
Definition eq_ignore_ascii_case (a b : chars) : bool :=
  bool_decide (to_ascii_lowercase a = to_ascii_lowercase b).

(** Unicode tables.  [to_lowercase] is the whole-string mapping of
    [str::to_lowercase], which looks at the context of a capital sigma. *)
Class Unicode := {
  to_lowercase : chars -> chars;
  is_alphanumeric : Z -> bool;
  is_uppercase : Z -> bool;
  is_lowercase : Z -> bool;
}.
Class UnicodeLaws `{Unicode} : Prop := {
  to_lowercase_ascii s :
    Forall (λ c, is_ascii c = true) s -> to_lowercase s = to_ascii_lowercase s;
  is_alphanumeric_ascii c : is_ascii c = true -> is_alphanumeric c = is_ascii_alnum c;
  is_uppercase_ascii c : is_ascii c = true -> is_uppercase c = is_ascii_upper c;
  is_lowercase_ascii c : is_ascii c = true -> is_lowercase c = is_ascii_lower c;
}.

Definition ascii_unicode : Unicode := {|
  to_lowercase := to_ascii_lowercase;
  is_alphanumeric := is_ascii_alnum;
  is_uppercase := is_ascii_upper;
  is_lowercase := is_ascii_lower;
|}.
Lemma ascii_unicode_laws : @UnicodeLaws ascii_unicode.
Proof. by split. Qed.

(** ** Lemmas *)

Lemma char_len_pos c : (1 <= char_len c <= 4)%nat.
Proof. unfold char_len, encode_char. repeat case_match; simpl; lia. Qed.

Lemma str_len_cons c s : str_len (c :: s) = (char_len c + str_len s)%nat.
Proof. unfold str_len, as_bytes. csimpl. by rewrite length_app. Qed.

Lemma str_len_app a b : str_len (a ++ b) = (str_len a + str_len b)%nat.
Proof. unfold str_len, as_bytes. by rewrite bind_app, length_app. Qed.

Lemma str_len_ge s : (length s <= str_len s)%nat.
Proof.
  induction s as [|c s IH]; [done|]. rewrite str_len_cons. pose proof (char_len_pos c). simpl. lia.
Qed.

Lemma char_len_ascii c : is_ascii c = true -> char_len c = 1%nat.
Proof.
  unfold is_ascii, char_len, encode_char. intros. bool_to_prop.
  by rewrite (proj2 (Z.ltb_lt _ _)) by lia.
Qed.

Lemma str_len_ascii s : Forall (λ c, is_ascii c = true) s -> str_len s = length s.
Proof.
  induction 1 as [|c s Hc _ IH]; [done|]. by rewrite str_len_cons, char_len_ascii, IH.
Qed.

Ltac decide_cmp :=
  repeat match goal with
  | |- context [(?a <=? ?b)%Z] =>
      first [rewrite (proj2 (Z.leb_le a b)) by lia | rewrite (proj2 (Z.leb_gt a b)) by lia]
  | |- context [(?a <? ?b)%Z] =>
      first [rewrite (proj2 (Z.ltb_lt a b)) by lia | rewrite (proj2 (Z.ltb_ge a b)) by lia]
  end.

Lemma from_utf8_encode c s : is_scalar c = true ->
  from_utf8 (encode_char c ++ s) = cons c <$> from_utf8 s.
Proof.
  intros Hc. pose proof Hc as Hs. unfold is_scalar in Hc. bool_to_prop.
  unfold encode_char, is_trail.
  destruct (Z.ltb_spec c 128); [|destruct (Z.ltb_spec c 2048); [|destruct (Z.ltb_spec c 65536)]];
    cbn [app from_utf8]; unfold is_trail.
  - by decide_cmp.
  - pose proof (Z.div_mod c 64). pose proof (Z.mod_pos_bound c 64).
    decide_cmp. simpl. do 2 f_equal. lia.
  - assert (Hd : c = c / 4096 * 4096 + (c / 64) mod 64 * 64 + c mod 64)
      by (Z.to_euclidean_division_equations; lia).
    pose proof (Z.mod_pos_bound c 64). pose proof (Z.mod_pos_bound (c / 64) 64).
    assert (0 <= c / 4096 < 16) by (Z.to_euclidean_division_equations; lia).
    replace ((224 + c / 4096 - 224) * 4096 + (128 + (c / 64) mod 64 - 128) * 64 + (128 + c mod 64 - 128))
      with c by lia.
    rewrite Hs. by decide_cmp.
  - assert (Hd : c = c / 262144 * 262144 + (c / 4096) mod 64 * 4096 + (c / 64) mod 64 * 64 + c mod 64)
      by (Z.to_euclidean_division_equations; lia).
    pose proof (Z.mod_pos_bound c 64). pose proof (Z.mod_pos_bound (c / 64) 64).
    pose proof (Z.mod_pos_bound (c / 4096) 64).
    assert (0 <= c / 262144 < 8) by (Z.to_euclidean_division_equations; lia).
    replace ((240 + c / 262144 - 240) * 262144 + (128 + (c / 4096) mod 64 - 128) * 4096
      + (128 + (c / 64) mod 64 - 128) * 64 + (128 + c mod 64 - 128)) with c by lia.
    rewrite Hs. by decide_cmp.
Qed.

(** Decoding the bytes of a string gives the string. *)
Lemma from_utf8_as_bytes s : is_str s -> from_utf8 (as_bytes s) = Some s.
Proof.
  induction 1 as [|c s Hc _ IH]; [done|]. unfold as_bytes. csimpl.
  rewrite from_utf8_encode by done. unfold as_bytes in IH. by rewrite IH.
Qed.

(** ** Words *)

Notation is_word := (λ w, w <> [] ∧ Forall (λ c, is_whitespace c = false) w).

Lemma reverse_nil_iff (s : chars) : reverse s = [] <-> s = [].
Proof.
  split; [|by intros ->]. intros E. by rewrite <-(reverse_involutive s), E.
Qed.

Lemma split_ws_word cur w s :
  Forall (λ c, is_whitespace c = false) w -> split_ws cur (w ++ s) = split_ws (reverse w ++ cur) s.
Proof.
  revert cur. induction w as [|c w IH]; intros cur Hw; [done|]. inv Hw.
  simpl. rewrite H1, IH by done. by rewrite reverse_cons, <-app_assoc.
Qed.

Lemma split_ws_words cur s : Forall (λ c, is_whitespace c = false) cur ->
  Forall is_word (split_ws cur s).
Proof.
  revert cur. induction s as [|c s IH]; intros cur Hc; simpl.
  - destruct cur; constructor; [|done]. split; [by rewrite reverse_nil_iff|by rewrite reverse_Permutation].
  - destruct (is_whitespace c) eqn:E; [|by apply IH; constructor].
    destruct cur; [by apply IH|]. constructor; [|by apply IH].
    split; [by rewrite reverse_nil_iff|by rewrite reverse_Permutation].
Qed.

Lemma split_whitespace_words s : Forall is_word (split_whitespace s).
Proof. by apply split_ws_words. Qed.

(** Joining words by a space and splitting gives them back. *)
Lemma split_join ws : Forall is_word ws -> split_whitespace (join (str " ") ws) = ws.
Proof.
  unfold split_whitespace. induction 1 as [|w ws [Hn Hw] Hws IH]; [done|].
  destruct ws as [|w' ws]; cbn [join].
  - rewrite <-(app_nil_r w) at 1. rewrite split_ws_word by done. simpl. rewrite app_nil_r.
    rewrite reverse_involutive. destruct (reverse w) eqn:E; [|done].
    by rewrite reverse_nil_iff in E.
  - rewrite split_ws_word, app_nil_r by done.
    destruct (reverse w) eqn:E; [by rewrite reverse_nil_iff in E|].
    change (reverse (z :: l) :: split_ws [] (join (str " ") (w' :: ws)) = w :: w' :: ws).
    by rewrite IH, <-E, reverse_involutive.
Qed.

(** ** Trimming *)

Lemma trim_start_app a b :
  Forall (λ c, is_whitespace c = true) a -> trim_start (a ++ b) = trim_start b.
Proof. induction 1 as [|c a Hc _ IH]; simpl; [done|by rewrite Hc]. Qed.

Lemma trim_start_nil s : trim_start s = [] <-> Forall (λ c, is_whitespace c = true) s.
Proof.
  induction s as [|c s IH]; simpl; [by split|].
  destruct (is_whitespace c) eqn:E; rewrite Forall_cons, E.
  - rewrite IH. tauto.
  - split; [done|by intros [? _]].
Qed.

Lemma trim_nil s : trim s = [] <-> Forall (λ c, is_whitespace c = true) s.
Proof.
  unfold trim, trim_end. rewrite reverse_nil_iff, trim_start_nil, reverse_Permutation.
  induction s as [|c s IH]; simpl; [done|]. destruct (is_whitespace c) eqn:E; [|done].
  rewrite IH, Forall_cons, E. tauto.
Qed.

Lemma trim_start_suffix s : ∃ a, s = a ++ trim_start s.
Proof.
  induction s as [|c s [a IH]]; [by exists []|]. simpl. destruct (is_whitespace c); [|by exists []].
  exists (c :: a). simpl. by rewrite <- IH.
Qed.

Lemma trim_end_prefix s : ∃ b, s = trim_end s ++ b.
Proof.
  unfold trim_end. destruct (trim_start_suffix (reverse s)) as [a Ha]. exists (reverse a).
  by rewrite <- reverse_app, <- Ha, reverse_involutive.
Qed.

Lemma trim_infix s : ∃ a b, s = a ++ trim s ++ b.
Proof.
  destruct (trim_start_suffix s) as [a Ha]. destruct (trim_end_prefix (trim_start s)) as [b Hb].
  exists a, b. unfold trim. by rewrite <- Hb.
Qed.

Lemma trim_start_idem s : trim_start (trim_start s) = trim_start s.
Proof. induction s as [|c s IH]; [done|]. simpl. destruct (is_whitespace c) eqn:E; [done|]. simpl. by rewrite E. Qed.

Lemma trim_idem s : trim (trim s) = trim s.
Proof.
  unfold trim at 1. assert (Hs : trim_start (trim s) = trim s).
  { unfold trim. pose proof (trim_start_idem s) as Hi. set (u := trim_start s) in *.
    destruct (trim_end_prefix u) as [b Hb]. destruct (trim_end u) as [|c t]; [done|].
    simpl in Hb. rewrite Hb in Hi. simpl in *. destruct (is_whitespace c) eqn:E; [|done].
    exfalso. apply (f_equal length) in Hi. destruct (trim_start_suffix (t ++ b)) as [a Ha].
    apply (f_equal length) in Ha. rewrite !length_app in Ha. simpl in Hi. rewrite !length_app in Hi. lia. }
  rewrite Hs. unfold trim, trim_end. by rewrite reverse_involutive, trim_start_idem.
Qed.

Lemma starts_with_spec p s : starts_with p s = true <-> ∃ t, s = p ++ t.
Proof.
  unfold starts_with. rewrite bool_decide_eq_true. split.
  - intros E. exists (drop (length p) s). by rewrite <-E at 1; rewrite take_drop.
  - intros [t ->]. by rewrite take_app_length.
Qed.

Lemma ends_with_spec p s : ends_with p s = true <-> ∃ t, s = t ++ p.
Proof.
  unfold ends_with. rewrite bool_decide_eq_true. split.
  - intros E. exists (take (length s - length p) s). by rewrite <-E at 2; rewrite take_drop.
  - intros [t ->]. rewrite length_app, Nat.add_sub. by rewrite drop_app_length.
Qed.

Lemma ends_with_app p t : ends_with p (t ++ p) = true.
Proof. apply ends_with_spec. eauto. Qed.

Lemma contains_spec p s : contains p s = true <-> ∃ a b, s = a ++ p ++ b.
Proof.
  induction s as [|c s IH]; cbn [contains]; rewrite orb_true_iff, starts_with_spec.
  - split.
    + intros [[t Ht]|]; [|done]. by exists [], t.
    + intros (a & b & E). left. symmetry in E. apply app_nil in E as [-> E]. by exists b.
  - rewrite IH. split.
    + intros [[t Ht]|(a & b & ->)]; [by exists [], t|by exists (c :: a), b].
    + intros ([|x a] & b & E); [left; by exists b|]. injection E as -> ->. right. by exists a, b.
Qed.

Lemma contains_infix p a s b : contains p s = true -> contains p (a ++ s ++ b) = true.
Proof.
  rewrite !contains_spec. intros (x & y & ->). exists (a ++ x), (y ++ b). by rewrite <- !app_assoc.
Qed.

Lemma contains_char_spec c s : contains_char c s = true <-> c ∈ s.
Proof.
  unfold contains_char. rewrite existsb_exists. setoid_rewrite Z.eqb_eq.
  setoid_rewrite <-list_elem_of_In. naive_solver.
Qed.

(** ** Bytes of a string *)

Definition byte_val (b : byte) : Z := Z.of_N (Byte.to_N b).
Definition byte_of (z : Z) : byte := default x00 (Byte.of_N (Z.to_N z)).

Lemma byte_of_val b : byte_of (byte_val b) = b.
Proof. unfold byte_of, byte_val. by rewrite N2Z.id, Byte.of_to_N. Qed.

Lemma byte_val_bound b : 0 <= byte_val b < 256.
Proof. unfold byte_val. pose proof (Byte.to_N_bounded b). lia. Qed.

Lemma byte_val_inj a b : byte_val a = byte_val b -> a = b.
Proof. intros H. by rewrite <- (byte_of_val a), <- (byte_of_val b), H. Qed.

Lemma byte_val_of z : 0 <= z < 256 -> byte_val (byte_of z) = z.
Proof.
  intros Hz. unfold byte_of, byte_val. destruct (Byte.of_N (Z.to_N z)) as [b|] eqn:E; simpl.
  - apply Byte.to_of_N in E. rewrite E. lia.
  - apply Byte.of_N_None_iff in E. lia.
Qed.

Lemma encode_char_range c : is_scalar c = true -> Forall (λ b, 0 <= b < 256) (encode_char c).
Proof.
  unfold is_scalar, encode_char. intros. bool_to_prop. clear H0.
  repeat case_match; bool_to_prop; repeat (apply Forall_cons; split); try apply Forall_nil_2;
    Z.to_euclidean_division_equations; lia.
Qed.

Definition str_bytes (s : chars) : list byte := byte_of <$> as_bytes s.
Definition bytes_str (b : list byte) : option chars := from_utf8 (byte_val <$> b).

Lemma bytes_str_bytes s : is_str s -> bytes_str (str_bytes s) = Some s.
Proof.
  intros Hs. unfold bytes_str, str_bytes. rewrite <-list_fmap_compose.
  etrans; [|by apply from_utf8_as_bytes]. f_equal.
  assert (Forall (λ b, 0 <= b < 256) (as_bytes s)) as Hb.
  { clear -Hs. unfold as_bytes. induction Hs as [|c s Hc _ IH]; [done|]. csimpl.
    apply Forall_app. split; [by apply encode_char_range|done]. }
  induction Hb as [|b l Hb _ IH]; csimpl; [done|]. by rewrite byte_val_of, IH.
Qed.
