(* ===== verification/Json.v ===== *)
(** * JSON values

    [serde_json::Value] without the [preserve_order] feature: an object is a
    [BTreeMap], an association list sorted by key.  String keys are ordered by
    their UTF-8 bytes, which is the order of their code points. *)

From stdpp Require Import base list strings.
From Stdlib Require Import ZArith Lia.
From S2P Require Import Prelude Text FloatModel.
Open Scope Z_scope.

Inductive json : Type :=
| JNull
| JBool (b : bool)
| JInt (n : Z)
| JFloat (x : f64)
| JString (s : chars)
| JArray (l : list json)
| JObject (m : list (chars * json)).

(** Lexicographic comparison of strings. *)
Fixpoint chars_cmp (a b : chars) : comparison :=
  match a, b with
  | [], [] => Eq
  | [], _ => Lt
  | _, [] => Gt
  | x :: a', y :: b' => match x ?= y with Eq => chars_cmp a' b' | c => c end
  end.

(** [Map::insert]. *)
Fixpoint obj_insert {V} (k : chars) (v : V) (m : list (chars * V)) : list (chars * V) :=
  match m with
  | [] => [(k, v)]
  | (k', v') :: m' =>
      match chars_cmp k k' with
      | Lt => (k, v) :: m
      | Eq => (k, v) :: m'
      | Gt => (k', v') :: obj_insert k v m'
      end
  end.

(** [Map::get]. *)
Fixpoint obj_get {V} (k : chars) (m : list (chars * V)) : option V :=
  match m with
  | [] => None
  | (k', v) :: m' => if decide (k = k') then Some v else obj_get k m'
  end.

(** [json!]: the keys are stored in order. *)
Definition jobj (kvs : list (string * json)) : json :=
  JObject (foldr (λ kv m, obj_insert (str kv.1) kv.2 m) [] kvs).

Lemma chars_cmp_eq a b : chars_cmp a b = Eq <-> a = b.
Proof.
  revert b. induction a as [|x a IH]; intros [|y b]; simpl; try done.
  destruct (Z.compare_spec x y) as [->|H|H].
  - rewrite IH. naive_solver.
  - split; [done|]. intros [= -> _]. lia.
  - split; [done|]. intros [= -> _]. lia.
Qed.

Lemma obj_get_insert {V} k k' (v : V) m :
  obj_get k (obj_insert k' v m) = if decide (k = k') then Some v else obj_get k m.
Proof.
  induction m as [|[k1 v1] m IH]; simpl; [by repeat case_decide|].
  destruct (chars_cmp k' k1) eqn:E; simpl.
  - apply chars_cmp_eq in E as ->. by repeat case_decide.
  - by repeat case_decide.
  - rewrite IH. repeat case_decide; try done. subst.
    by rewrite (proj2 (chars_cmp_eq k1 k1)) in E.
Qed.

Lemma obj_get_insert_eq {V} k (v : V) m : obj_get k (obj_insert k v m) = Some v.
Proof. rewrite obj_get_insert. by case_decide. Qed.

Lemma obj_get_insert_ne {V} k k' (v : V) m :
  k <> k' -> obj_get k (obj_insert k' v m) = obj_get k m.
Proof. rewrite obj_get_insert. by case_decide. Qed.
