(* ===== verification/Role.v ===== *)
(** * Domain enumerations and capability sets

    Models [core/src/macros.rs] (the [str_enum!] pattern every database and
    API enumeration is generated from), the enumerations the scheduler and
    the job queue use, and [core/src/capability.rs] ([CapSet], a bitset of
    roles in a [u8]). *)

From stdpp Require Import base gmap list strings.
From Stdlib Require Import ZArith Lia.
From S2P Require Import Prelude.
Open Scope Z_scope.

(** ** The [str_enum!] pattern

    One literal per variant drives [as_str] and [FromStr]; [all] lists the
    variants in declaration order.  [from_str] is the generated [match]: the
    first variant whose literal is the input, else [UnknownVariant]. *)

Inductive CoreError :=
| InvalidHash (s : string)
| UnknownVariant (kind value : string).

#[global] Instance CoreError_eq_dec : EqDecision CoreError.
Proof. solve_decision. Defined.

Class StrEnum (T : Type) := {
  enum_name : string;
  as_str : T -> string;
  all : list T;
}.
Arguments enum_name T {_}.
Arguments all T {_}.
Arguments as_str {T _} _ : simpl never.

Fixpoint match_variant {T} (as_s : T -> string) (s : string) (vs : list T) : option T :=
  match vs with
  | [] => None
  | v :: vs' => if decide (as_s v = s) then Some v else match_variant as_s s vs'
  end.

Definition from_str {T} `{StrEnum T} (s : string) : result T CoreError :=
  match match_variant as_str s (all T) with
  | Some v => Ok v
  | None => Err (UnknownVariant (enum_name T) s)
  end.

(** What the macro's shape guarantees: every variant is listed and no two
    variants share a literal. *)
Class StrEnumOk (T : Type) `{StrEnum T} : Prop := {
  enum_complete : ∀ v : T, v ∈ all T;
  enum_distinct : NoDup (as_str <$> all T);
}.

Section str_enum.
Context {T : Type} `{StrEnumOk T}.

Lemma match_variant_Some s vs (v : T) :
  match_variant as_str s vs = Some v -> v ∈ vs ∧ as_str v = s.
Proof.
  induction vs as [|w vs IH]; simpl; [done|]. case_decide; [|set_solver].
  intros [= ->]. set_solver.
Qed.

Lemma match_variant_elem vs (v : T) :
  NoDup (as_str <$> vs) -> v ∈ vs -> match_variant as_str (as_str v) vs = Some v.
Proof.
  induction vs as [|w vs IH]; simpl; intros Hnd Hv; [set_solver|].
  apply NoDup_cons in Hnd as [Hw Hnd]. case_decide as Hd.
  - apply elem_of_cons in Hv as [->|Hv]; [done|]. destruct Hw. rewrite Hd.
    by apply list_elem_of_fmap_2.
  - apply IH; [done|]. apply elem_of_cons in Hv as [->|Hv]; done.
Qed.

Lemma from_str_as_str (v : T) : from_str (as_str v) = Ok v.
Proof.
  unfold from_str. rewrite match_variant_elem; [done|apply enum_distinct|apply enum_complete].
Qed.

Lemma from_str_Ok s (v : T) : from_str s = Ok v -> as_str v = s.
Proof. unfold from_str. intros. case_all. by eapply match_variant_Some. Qed.

Lemma from_str_Err s e :
  from_str (T:=T) s = Err e ->
  e = UnknownVariant (enum_name T) s ∧ ∀ v : T, as_str v ≠ s.
Proof.
  intros He. assert (Hn : ∀ v : T, as_str v ≠ s).
  { intros v <-. by rewrite from_str_as_str in He. }
  unfold from_str in He. case_all. done.
Qed.
End str_enum.

(** Both laws of a generated instance are decided by computation. *)
Ltac solve_str_enum :=
  split; [by intros []; apply (bool_decide_unpack _); vm_compute
         |by apply (bool_decide_unpack _); vm_compute].

(** ** The enumerations *)

Inductive Role := Text | Vision | Code | Embed | Rerank.
#[global] Instance Role_eq_dec : EqDecision Role. Proof. solve_decision. Defined.

Definition role_as_str (r : Role) : string :=
  match r with
  | Text => "text" | Vision => "vision" | Code => "code" | Embed => "embed"
  | Rerank => "rerank"
  end.
#[global] Instance Role_enum : StrEnum Role :=
  {| enum_name := "Role"; as_str := role_as_str; all := [Text; Vision; Code; Embed; Rerank] |}.
#[global] Instance Role_enum_ok : StrEnumOk Role. Proof. solve_str_enum. Qed.

Definition role_index (r : Role) : nat :=
  match r with Text => 0 | Vision => 1 | Code => 2 | Embed => 3 | Rerank => 4 end%nat.
Definition role_of_index (n : nat) : option Role := all Role !! n.
#[global] Instance Role_countable : Countable Role.
Proof. apply (inj_countable role_index role_of_index). by intros []. Defined.

Inductive DataClass := Local | Remote.
#[global] Instance DataClass_eq_dec : EqDecision DataClass. Proof. solve_decision. Defined.
#[global] Instance DataClass_enum : StrEnum DataClass :=
  {| enum_name := "DataClass";
     as_str d := match d with Local => "local" | Remote => "remote" end;
     all := [Local; Remote] |}.
#[global] Instance DataClass_enum_ok : StrEnumOk DataClass. Proof. solve_str_enum. Qed.

Inductive ProviderKind := OpenAiCompat | Anthropic | GeminiNative | LocalProvider.
#[global] Instance ProviderKind_eq_dec : EqDecision ProviderKind. Proof. solve_decision. Defined.
#[global] Instance ProviderKind_enum : StrEnum ProviderKind :=
  {| enum_name := "ProviderKind";
     as_str k := match k with OpenAiCompat => "openai_compat" | Anthropic => "anthropic"
                 | GeminiNative => "gemini_native" | LocalProvider => "local" end;
     all := [OpenAiCompat; Anthropic; GeminiNative; LocalProvider] |}.
#[global] Instance ProviderKind_enum_ok : StrEnumOk ProviderKind. Proof. solve_str_enum. Qed.

Inductive RoutingStrategy := LeastLoaded | RoundRobin | CostAsc | Priority.
#[global] Instance RoutingStrategy_eq_dec : EqDecision RoutingStrategy.
Proof. solve_decision. Defined.
#[global] Instance RoutingStrategy_enum : StrEnum RoutingStrategy :=
  {| enum_name := "RoutingStrategy";
     as_str k := match k with LeastLoaded => "least_loaded" | RoundRobin => "round_robin"
                 | CostAsc => "cost_asc" | Priority => "priority" end;
     all := [LeastLoaded; RoundRobin; CostAsc; Priority] |}.
#[global] Instance RoutingStrategy_enum_ok : StrEnumOk RoutingStrategy.
Proof. solve_str_enum. Qed.

Inductive JobKind :=
| Ingest | Reembed | Export | Retag | RestoreTest | OrphanGc | IntegrityScan
| DeleteTenant | SendEmail | Refetch.
#[global] Instance JobKind_eq_dec : EqDecision JobKind. Proof. solve_decision. Defined.
#[global] Instance JobKind_enum : StrEnum JobKind :=
  {| enum_name := "JobKind";
     as_str k := match k with
       | Ingest => "ingest" | Reembed => "reembed" | Export => "export" | Retag => "retag"
       | RestoreTest => "restore_test" | OrphanGc => "orphan_gc"
       | IntegrityScan => "integrity_scan" | DeleteTenant => "delete_tenant"
       | SendEmail => "send_email" | Refetch => "refetch" end;
     all := [Ingest; Reembed; Export; Retag; RestoreTest; OrphanGc; IntegrityScan;
             DeleteTenant; SendEmail; Refetch] |}.
#[global] Instance JobKind_enum_ok : StrEnumOk JobKind. Proof. solve_str_enum. Qed.

Inductive JobStatus := Queued | Running | JobFailed | Dead | Done.
#[global] Instance JobStatus_eq_dec : EqDecision JobStatus. Proof. solve_decision. Defined.
#[global] Instance JobStatus_enum : StrEnum JobStatus :=
  {| enum_name := "JobStatus";
     as_str k := match k with Queued => "queued" | Running => "running"
       | JobFailed => "failed" | Dead => "dead" | Done => "done" end;
     all := [Queued; Running; JobFailed; Dead; Done] |}.
#[global] Instance JobStatus_enum_ok : StrEnumOk JobStatus. Proof. solve_str_enum. Qed.

Inductive ProcessingStatus := Pending | Ready | DocFailed.
#[global] Instance ProcessingStatus_eq_dec : EqDecision ProcessingStatus.
Proof. solve_decision. Defined.
#[global] Instance ProcessingStatus_enum : StrEnum ProcessingStatus :=
  {| enum_name := "ProcessingStatus";
     as_str k := match k with Pending => "pending" | Ready => "ready"
       | DocFailed => "failed" end;
     all := [Pending; Ready; DocFailed] |}.
#[global] Instance ProcessingStatus_enum_ok : StrEnumOk ProcessingStatus.
Proof. solve_str_enum. Qed.

Inductive UserRole := Owner | Admin | Member.
#[global] Instance UserRole_eq_dec : EqDecision UserRole. Proof. solve_decision. Defined.
#[global] Instance UserRole_enum : StrEnum UserRole :=
  {| enum_name := "UserRole";
     as_str k := match k with Owner => "owner" | Admin => "admin" | Member => "member" end;
     all := [Owner; Admin; Member] |}.
#[global] Instance UserRole_enum_ok : StrEnumOk UserRole. Proof. solve_str_enum. Qed.

(** ** [CapSet]: a set of roles in a [u8] *)

Definition role_to_bit (role : Role) : Z :=
  match role with
  | Text => 1 | Vision => 2 | Code => 4 | Embed => 8 | Rerank => 16
  end.

Definition CapSet := Z.

Definition capset_empty : CapSet := 0.
Definition capset_insert (s : CapSet) (role : Role) : CapSet := Z.lor s (role_to_bit role).
Definition capset_supports (s : CapSet) (role : Role) : bool :=
  negb (Z.land s (role_to_bit role) =? 0).
Definition capset_is_empty (s : CapSet) : bool := s =? 0.

(** [u8::count_ones]. *)
Definition capset_len (s : CapSet) : Z :=
  foldr (λ i n, if Z.testbit s i then n + 1 else n) 0 (seqZ 0 8).

Definition capset_from_slice (roles : list Role) : CapSet :=
  fold_left capset_insert roles capset_empty.

(** Only role bits are ever set. *)
Definition capset_wf (s : CapSet) : Prop := 0 <= s < 32.

Lemma role_to_bit_testbit r : role_to_bit r = 2 ^ Z.of_nat (role_index r).
Proof. by destruct r. Qed.

Lemma role_index_inj r r' : role_index r = role_index r' -> r = r'.
Proof. by destruct r, r'. Qed.

Lemma capset_supports_testbit s r :
  capset_supports s r = Z.testbit s (Z.of_nat (role_index r)).
Proof.
  unfold capset_supports. rewrite role_to_bit_testbit.
  destruct (Z.testbit s (Z.of_nat (role_index r))) eqn:E.
  - apply negb_true_iff, Z.eqb_neq. intros H0.
    apply (f_equal (λ z, Z.testbit z (Z.of_nat (role_index r)))) in H0.
    rewrite Z.land_spec, Z.bits_0, E, Z.pow2_bits_true in H0 by lia. done.
  - apply negb_false_iff, Z.eqb_eq. apply Z.bits_inj'. intros n Hn.
    rewrite Z.land_spec, Z.bits_0, Z.pow2_bits_eqb by lia.
    destruct (Z.eqb_spec (Z.of_nat (role_index r)) n) as [<-|]; [by rewrite E|].
    by rewrite andb_false_r.
Qed.

Lemma capset_supports_insert s r r' :
  capset_supports (capset_insert s r) r' = bool_decide (r = r') || capset_supports s r'.
Proof.
  rewrite !capset_supports_testbit. unfold capset_insert.
  rewrite Z.lor_spec, role_to_bit_testbit, Z.pow2_bits_eqb, orb_comm by lia. f_equal.
  case_bool_decide as Hd; [subst; lia|]. apply Z.eqb_neq. intros He. apply Hd.
  apply role_index_inj. lia.
Qed.

Lemma capset_insert_wf s r : capset_wf s -> capset_wf (capset_insert s r).
Proof.
  unfold capset_wf, capset_insert. intros Hs.
  assert (Hr : 0 <= role_to_bit r < 32) by (by destruct r).
  assert (He : Z.lor s (role_to_bit r) = Z.lor s (role_to_bit r) mod 2 ^ 5).
  { rewrite <-Z.land_ones by lia. rewrite Z.land_lor_distr_l, !Z.land_ones by lia.
    rewrite !Z.mod_small by lia. done. }
  rewrite He. apply Z.mod_pos_bound. lia.
Qed.

Lemma capset_fold_insert roles s r :
  capset_supports (fold_left capset_insert roles s) r
  = bool_decide (r ∈ roles) || capset_supports s r.
Proof.
  revert s. induction roles as [|r' roles IH]; intros s; simpl; [done|].
  rewrite IH, capset_supports_insert, orb_assoc. f_equal.
  repeat case_bool_decide; set_solver.
Qed.

Lemma capset_fold_wf roles s : capset_wf s -> capset_wf (fold_left capset_insert roles s).
Proof.
  revert s. induction roles; simpl; intros; [done|]. auto using capset_insert_wf.
Qed.

(** A well-formed set is determined by the roles it supports. *)
Lemma capset_ext s s' :
  capset_wf s -> capset_wf s' -> (∀ r, capset_supports s r = capset_supports s' r) -> s = s'.
Proof.
  intros Hs Hs' Heq. apply Z.bits_inj'. intros n Hn.
  destruct (decide (n < 5)) as [Hlt|Hge].
  - assert (∃ r, n = Z.of_nat (role_index r)) as [r ->].
    { assert (Hn' : n = 0 ∨ n = 1 ∨ n = 2 ∨ n = 3 ∨ n = 4) by lia.
      destruct Hn' as [->|[->|[->|[->| ->]]]];
        [by exists Text|by exists Vision|by exists Code|by exists Embed|by exists Rerank]. }
    by rewrite <-!capset_supports_testbit.
  - assert (Hhigh : ∀ z, capset_wf z -> Z.testbit z n = false).
    { intros z [??]. destruct (decide (z = 0)) as [->|]; [by rewrite Z.bits_0|].
      apply Z.bits_above_log2; [lia|]. apply Z.log2_lt_pow2; [lia|].
      assert (2 ^ 5 <= 2 ^ n) by (apply Z.pow_le_mono_r; lia). lia. }
    by rewrite !Hhigh.
Qed.

Lemma capset_len_wf s :
  capset_wf s -> capset_len s = Z.of_nat (length (List.filter (capset_supports s) (all Role))).
Proof.
  intros [H0 H1]. revert s H0 H1.
  assert (Hall : Forall (λ s, capset_len s
    = Z.of_nat (length (List.filter (capset_supports s) (all Role)))) (seqZ 0 32)).
  { by apply (bool_decide_unpack _); vm_compute. }
  intros s H0 H1. rewrite Forall_forall in Hall. apply Hall, elem_of_seqZ. lia.
Qed.

(** ** Properties *)

(** The capability set built from a list of roles supports exactly the
    roles of the list, it never leaves the five role bits, its [len] is the
    number of distinct roles, and two lists with the same roles give the same
    bits: [CapSet] is a faithful set of roles. *)
Theorem capset_from_slice_correct (roles : list Role) :
  (∀ r, capset_supports (capset_from_slice roles) r = bool_decide (r ∈ roles))
  ∧ capset_wf (capset_from_slice roles)
  ∧ capset_len (capset_from_slice roles)
    = Z.of_nat (length (List.filter (λ r, bool_decide (r ∈ roles)) (all Role)))
  ∧ (∀ roles', (∀ r, r ∈ roles' ↔ r ∈ roles)
       -> capset_from_slice roles' = capset_from_slice roles).
Proof.
  assert (Hsup : ∀ rs r, capset_supports (capset_from_slice rs) r = bool_decide (r ∈ rs)).
  { intros rs r. unfold capset_from_slice. rewrite capset_fold_insert.
    by destruct r; rewrite orb_false_r. }
  assert (Hwf : ∀ rs, capset_wf (capset_from_slice rs)).
  { intros rs. by apply capset_fold_wf. }
  split_and!; [apply Hsup|apply Hwf| |].
  - rewrite capset_len_wf by apply Hwf. f_equal. f_equal. apply List.filter_ext, Hsup.
  - intros roles' Hr. apply capset_ext; [apply Hwf..|]. intros r. rewrite !Hsup.
    by apply bool_decide_ext.
Qed.

(** Parsing the database or wire string of a variant gives the variant
    back, a successful parse came from exactly that variant's literal, and a
    failed parse reports the enumeration and the offending string, which is no
    variant's literal: for every enumeration generated by [str_enum!]. *)
Theorem str_enum_roundtrip (T : Type) `{Henum : StrEnum T} `{Hok : !StrEnumOk T} :
  (∀ v : T, from_str (as_str v) = Ok v)
  ∧ (∀ s (v : T), from_str s = Ok v -> as_str v = s)
  ∧ (∀ s e, from_str (T:=T) s = Err e ->
       e = UnknownVariant (enum_name T) s ∧ ∀ v : T, as_str v ≠ s).
Proof.
  split_and!; [apply from_str_as_str|apply from_str_Ok|apply from_str_Err].
Qed.

Lemma str_enum_roundtrip_witness :
  (∀ v : JobStatus, from_str (as_str v) = Ok v)
  ∧ from_str "running" = Ok Running
  ∧ from_str (T:=JobStatus) "paused" = Err (UnknownVariant "JobStatus" "paused").
Proof. split_and!; [apply (str_enum_roundtrip JobStatus)|reflexivity|reflexivity]. Defined.
