(* ===== verification/Quota.v ===== *)
(** * Quotas, plans and budgets

    Models [core/src/quota.rs] and [core/src/budget.rs] (the pure checks),
    [store/src/plan_enforcement.rs] (plan and override resolution, the four
    enforcement entry points) and [store/src/budget.rs].  Database rows are
    records, the usage aggregates the enforcement reads are fields of [db]. *)

From stdpp Require Import base gmap list strings.
From Stdlib Require Import ZArith Lia.
From S2P Require Import Prelude StableSort.
Open Scope Z_scope.

(** ** [core/src/quota.rs] *)

Inductive QuotaError :=
| StorageExceeded (current additional total limit : Z)
    (plan_code upsell_plan_code : option string)
| TokensExceeded (current additional total limit : Z)
    (plan_code upsell_plan_code : option string)
| UserLimitExceeded (current limit : Z) (plan_code upsell_plan_code : option string).

#[global] Instance QuotaError_eq_dec : EqDecision QuotaError.
Proof. solve_decision. Defined.

Definition upsell_message (e : QuotaError) : option string :=
  let '(plan_code, upsell_plan_code) :=
    match e with
    | StorageExceeded _ _ _ _ p u | TokensExceeded _ _ _ _ p u
    | UserLimitExceeded _ _ p u => (p, u)
    end in
  match plan_code, upsell_plan_code with
  | Some current, Some upgrade =>
      Some ("Upgrade from " +:+ current +:+ " to " +:+ upgrade +:+ " for more capacity")
  | Some _, None => Some "Consider upgrading your plan for more capacity"
  | None, Some upgrade => Some ("Upgrade to " +:+ upgrade +:+ " for more capacity")
  | None, None => None
  end.

Inductive UsageWarning := WarnNone | Warn | AtCap.
#[global] Instance UsageWarning_eq_dec : EqDecision UsageWarning.
Proof. solve_decision. Defined.

Definition USAGE_WARN_PERCENT : Z := 80.
Definition i128 : int_ty := IntTy (- 2 ^ 127) (2 ^ 127 - 1).

Definition usage_warning (used : Z) (cap : option Z) : UsageWarning :=
  match cap with
  | None => WarnNone
  | Some cap =>
      if cap <=? 0 then WarnNone
      else
        let used := Z.max used 0 in
        if cap <=? used then AtCap
        else
          let lhs := wrap i128 (used * 100) in
          let rhs := wrap i128 (cap * USAGE_WARN_PERCENT) in
          if rhs <=? lhs then Warn else WarnNone
  end.

Definition resolve_effective_quota (plan_quota override_quota : option Z) : option Z :=
  match override_quota with Some q => Some q | None => plan_quota end.

Definition check_bytes_quota (current : Z) (limit : option Z) (additional : Z)
    : result unit QuotaError :=
  match limit with
  | None => Ok tt
  | Some limit =>
      let? total := ok_or (checked_add i64 current additional)
        (StorageExceeded current additional (saturating_add i64 current additional)
           limit None None) in
      if limit <? total
      then Err (StorageExceeded current additional total limit None None)
      else Ok tt
  end.

Definition check_token_quota (current : Z) (limit : option Z) (additional : Z)
    : result unit QuotaError :=
  match limit with
  | None => Ok tt
  | Some limit =>
      let? total := ok_or (checked_add i64 current additional)
        (TokensExceeded current additional (saturating_add i64 current additional)
           limit None None) in
      if limit <? total
      then Err (TokensExceeded current additional total limit None None)
      else Ok tt
  end.

Definition check_user_limit (current : Z) (limit : option Z) (additional : Z)
    : result unit QuotaError :=
  match limit with
  | None => Ok tt
  | Some limit =>
      let? total := ok_or (checked_add i64 current additional)
        (UserLimitExceeded current limit None None) in
      if limit <? total
      then Err (UserLimitExceeded current limit None None)
      else Ok tt
  end.

Arguments check_bytes_quota : simpl never.
Arguments check_token_quota : simpl never.
Arguments check_user_limit : simpl never.

(** ** [store/src/plans.rs], [store/src/plan_enforcement.rs] *)

(** JSONB values, as far as the plan features look into them. *)
Inductive json :=
| JNull
| JBool (b : bool)
| JInt (z : Z)
| JFloat
| JStr (s : string)
| JArr (l : list json)
| JObj (kvs : list (string * json)).

Fixpoint assoc_get {V} (k : string) (kvs : list (string * V)) : option V :=
  match kvs with
  | [] => None
  | (k', v) :: kvs' => if decide (k' = k) then Some v else assoc_get k kvs'
  end.

Definition json_get (j : json) (k : string) : option json :=
  match j with JObj kvs => assoc_get k kvs | _ => None end.
Definition json_as_i64 (j : json) : option Z :=
  match j with JInt z => if decide (in_ty i64 z) then Some z else None | _ => None end.
Definition json_as_bool (j : json) : option bool :=
  match j with JBool b => Some b | _ => None end.

Record Plan := {
  plan_id : Z;
  plan_code : string;
  quota_bytes : Z;
  token_budget : option Z;
  features : json;
  price_cents : option Z;
}.

Definition max_users (p : Plan) : option Z :=
  (λ n, wrap i32 n) <$> (json_get (features p) "max_users" ≫= json_as_i64).
Definition remote_models_allowed (p : Plan) : bool :=
  default false (json_get (features p) "remote_models" ≫= json_as_bool).
Definition per_minute_rate_cap (p : Plan) : option Z :=
  rc ← json_get (features p) "rate_caps"; v ← json_get rc "per_minute"; json_as_i64 v.

Record TenantRow := {
  tenant_plan_id : option Z;
  quota_override_bytes : option Z;
  quota_override_tokens : option Z;
  budget_monthly_cents : option Z;
}.

(** The tables and aggregates the enforcement reads: [plans] in scan order,
    the tenant rows, and per tenant the stored bytes, the tokens of the month
    (as a sum and as the rollup), the user count and the month's cost. *)
Record db := {
  plans : list Plan;
  tenants : gmap Z TenantRow;
  storage_usage : Z -> Z;
  token_usage : Z -> Z;
  month_token_rollup : Z -> Z;
  user_count : Z -> Z;
  monthly_cost : Z -> Z;
}.

Inductive EnforceError :=
| TenantNotFound (tenant : Z)
| Quota (e : QuotaError).

Definition get_plan (d : db) (pid : Z) : option Plan :=
  list_find (λ p, plan_id p = pid) (plans d) ≫= (λ ip, Some ip.2).

(** [get_tenant_billing]: the plan of an existing tenant. *)
Definition get_tenant_billing (d : db) (tenant : Z) : option (option Plan) :=
  (λ r, tenant_plan_id r ≫= get_plan d) <$> (tenants d !! tenant).

Definition get_tenant_quota_overrides (d : db) (tenant : Z)
    : result (option Z * option Z) EnforceError :=
  match tenants d !! tenant with
  | Some r => Ok (quota_override_bytes r, quota_override_tokens r)
  | None => Err (TenantNotFound tenant)
  end.

(** [UPDATE tenants SET quota_override_bytes = .., quota_override_tokens = ..]. *)
Definition set_admin_quota_override (d : db) (tenant : Z) (bytes tokens : option Z) : db :=
  {| plans := plans d;
     tenants := alter (λ r, {| tenant_plan_id := tenant_plan_id r;
                               quota_override_bytes := bytes;
                               quota_override_tokens := tokens;
                               budget_monthly_cents := budget_monthly_cents r |})
                  tenant (tenants d);
     storage_usage := storage_usage d;
     token_usage := token_usage d;
     month_token_rollup := month_token_rollup d;
     user_count := user_count d;
     monthly_cost := monthly_cost d |}.

(** [SELECT code FROM plans WHERE price_cents > $1 ORDER BY price_cents LIMIT 1];
    a NULL price never satisfies the comparison. *)
Definition get_upsell_plan (d : db) (current : Plan) : option string :=
  let current_price := default 0 (price_cents current) in
  plan_code <$> head (sort_by_key (λ p, default 0 (price_cents p))
    (List.filter (λ p, match price_cents p with
                       | Some c => current_price <? c | None => false end) (plans d))).

Definition resolve_effective_quotas (d : db) (tenant : Z)
    : result (option Z * option Z * option string * option string) EnforceError :=
  let? (override_bytes, override_tokens) := get_tenant_quota_overrides d tenant in
  match get_tenant_billing d tenant with
  | None => Ok (None, None, None, None)
  | Some plan =>
      let eff_bytes := resolve_effective_quota (quota_bytes <$> plan) override_bytes in
      let eff_tokens := resolve_effective_quota (plan ≫= token_budget) override_tokens in
      Ok (eff_bytes, eff_tokens, plan_code <$> plan, plan ≫= get_upsell_plan d)
  end.

Definition enrich_quota_error (e : QuotaError) (plan upsell : option string) : QuotaError :=
  match e with
  | StorageExceeded c a t l _ _ => StorageExceeded c a t l plan upsell
  | TokensExceeded c a t l _ _ => TokensExceeded c a t l plan upsell
  | UserLimitExceeded c l _ _ => UserLimitExceeded c l plan upsell
  end.

Definition map_quota_err (r : result unit QuotaError) (plan upsell : option string)
    : result unit EnforceError :=
  match r with Ok u => Ok u | Err e => Err (Quota (enrich_quota_error e plan upsell)) end.

Definition check_plan_storage_quota (d : db) (tenant additional : Z)
    : result unit EnforceError :=
  let? (eff_bytes, _, plan, upsell) := resolve_effective_quotas d tenant in
  map_quota_err (check_bytes_quota (storage_usage d tenant) eff_bytes additional) plan upsell.

Definition check_plan_token_budget (d : db) (tenant additional : Z)
    : result unit EnforceError :=
  let? (_, eff_tokens, plan, upsell) := resolve_effective_quotas d tenant in
  map_quota_err (check_token_quota (token_usage d tenant) eff_tokens additional) plan upsell.

Definition check_plan_token_budget_rollup (d : db) (tenant : Z) : result unit EnforceError :=
  let? (_, eff_tokens, plan, upsell) := resolve_effective_quotas d tenant in
  match eff_tokens with
  | None => Ok tt
  | Some _ =>
      map_quota_err (check_token_quota (month_token_rollup d tenant) eff_tokens 1) plan upsell
  end.

Definition check_tenant_max_users (d : db) (tenant additional : Z) : result unit EnforceError :=
  match get_tenant_billing d tenant with
  | None => Ok tt
  | Some plan =>
      map_quota_err (check_user_limit (user_count d tenant) (plan ≫= max_users) additional)
        (plan_code <$> plan) (plan ≫= get_upsell_plan d)
  end.

Definition is_remote_models_allowed (d : db) (tenant : Z) : bool :=
  match get_tenant_billing d tenant with
  | Some (Some plan) => remote_models_allowed plan
  | _ => true
  end.

Definition resolve_rate_cap (d : db) (tenant : Z) : option Z :=
  match get_tenant_billing d tenant with
  | Some (Some plan) => per_minute_rate_cap plan
  | _ => None
  end.

(** ** [core/src/budget.rs], [store/src/budget.rs] *)

Inductive BudgetStatus :=
| WithinBudget
| OverBudget (current_micros budget_micros usage_pct : Z).
#[global] Instance BudgetStatus_eq_dec : EqDecision BudgetStatus.
Proof. solve_decision. Defined.

(** The release build's arithmetic: [budget_cents as u64 * 10_000] wraps.
    [None] is a panic, which the division raises when [budget_micros / 100]
    is zero. *)
Definition check_budget (monthly_cost_micros : Z) (budget : option Z)
    : option BudgetStatus :=
  match budget with
  | None => Some WithinBudget
  | Some budget_cents =>
      if budget_cents <=? 0 then Some WithinBudget
      else
        let budget_micros := wrap u64 (budget_cents * 10000) in
        if monthly_cost_micros <=? budget_micros then Some WithinBudget
        else if budget_micros / 100 =? 0 then None
        else Some (OverBudget monthly_cost_micros budget_micros
               (Z.min (monthly_cost_micros / (budget_micros / 100)) (2 ^ 32 - 1)))
  end.

Record BudgetExceeded := {
  current_micros : Z;
  budget_micros : Z;
  usage_pct : Z;
}.

Definition budget_exceeded_from_status (s : BudgetStatus) : option BudgetExceeded :=
  match s with
  | WithinBudget => None
  | OverBudget c b p => Some {| current_micros := c; budget_micros := b; usage_pct := p |}
  end.

(** [check_tenant_budget]: [None] is a panic inside [check_budget]. *)
Definition check_tenant_budget (d : db) (tenant : Z) (hard_cap : bool)
    : option (result unit BudgetExceeded) :=
  status ← check_budget (monthly_cost d tenant) (tenants d !! tenant ≫= budget_monthly_cents);
  Some match status with
       | WithinBudget => Ok tt
       | OverBudget c b p =>
           if hard_cap
           then Err {| current_micros := c; budget_micros := b; usage_pct := p |}
           else Ok tt
       end.

(** ** Lemmas *)

(** The three checks are one comparison: in range and not above the limit. *)
Definition fits (current limit additional : Z) : Prop :=
  in_ty i64 (current + additional) ∧ current + additional <= limit.

Lemma check_bytes_quota_spec current limit additional :
  check_bytes_quota current (Some limit) additional = Ok tt ↔ fits current limit additional.
Proof.
  unfold check_bytes_quota, fits, checked_add, ok_or. case_decide; simpl; [|naive_solver].
  destruct (Z.ltb_spec limit (current + additional)); naive_solver lia.
Qed.

Lemma check_token_quota_spec current limit additional :
  check_token_quota current (Some limit) additional = Ok tt ↔ fits current limit additional.
Proof.
  unfold check_token_quota, fits, checked_add, ok_or. case_decide; simpl; [|naive_solver].
  destruct (Z.ltb_spec limit (current + additional)); naive_solver lia.
Qed.

Lemma check_user_limit_spec current limit additional :
  check_user_limit current (Some limit) additional = Ok tt ↔ fits current limit additional.
Proof.
  unfold check_user_limit, fits, checked_add, ok_or. case_decide; simpl; [|naive_solver].
  destruct (Z.ltb_spec limit (current + additional)); naive_solver lia.
Qed.

(** A rejection reports the operands, the limit and the saturated total. *)
Lemma check_bytes_quota_err current limit additional e :
  check_bytes_quota current (Some limit) additional = Err e ->
  e = StorageExceeded current additional (saturating_add i64 current additional) limit None None.
Proof.
  unfold check_bytes_quota, checked_add, ok_or, saturating_add.
  case_decide; simpl; intros; case_all. by rewrite saturate_id.
Qed.

Lemma check_token_quota_err current limit additional e :
  check_token_quota current (Some limit) additional = Err e ->
  e = TokensExceeded current additional (saturating_add i64 current additional) limit None None.
Proof.
  unfold check_token_quota, checked_add, ok_or, saturating_add.
  case_decide; simpl; intros; case_all. by rewrite saturate_id.
Qed.

(** For an existing tenant the resolution is the override, else the plan. *)
Lemma resolve_effective_quotas_tenant d tenant row :
  tenants d !! tenant = Some row ->
  let plan := tenant_plan_id row ≫= get_plan d in
  resolve_effective_quotas d tenant
  = Ok (resolve_effective_quota (quota_bytes <$> plan) (quota_override_bytes row),
        resolve_effective_quota (plan ≫= token_budget) (quota_override_tokens row),
        plan_code <$> plan, plan ≫= get_upsell_plan d).
Proof.
  intros Hrow. unfold resolve_effective_quotas, get_tenant_quota_overrides, get_tenant_billing.
  by rewrite Hrow.
Qed.

Lemma usage_warning_no_overflow used cap :
  in_ty i64 used -> in_ty i64 cap -> 0 < cap -> used < cap ->
  wrap i128 (Z.max used 0 * 100) = Z.max used 0 * 100
  ∧ wrap i128 (cap * USAGE_WARN_PERCENT) = cap * USAGE_WARN_PERCENT.
Proof.
  unfold in_ty, i64, USAGE_WARN_PERCENT. simpl. intros.
  split; apply wrap_id; unfold in_ty, i128; simpl; lia.
Qed.

(** Below this bound [budget_cents * 10_000] fits in a [u64]. *)
Definition max_budget_cents : Z := (2 ^ 64 - 1) / 10000.

Lemma budget_micros_exact cents :
  0 < cents <= max_budget_cents -> wrap u64 (cents * 10000) = cents * 10000.
Proof.
  unfold max_budget_cents. intros [??]. apply wrap_id. unfold in_ty. simpl.
  change ((2 ^ 64 - 1) / 10000) with 1844674407370955 in *. lia.
Qed.

(** ** Properties *)

(** Storage enforcement is exact: for an existing tenant the upload is
    accepted iff the admin override, or else the plan's cap, is absent or is
    not exceeded by stored plus additional bytes, and a rejection carries the
    usage, the saturated total, the limit, the plan and the suggested plan. *)
Theorem plan_storage_quota_exact (d : db) (tenant additional : Z) (row : TenantRow) :
  tenants d !! tenant = Some row ->
  in_ty i64 (storage_usage d tenant) -> 0 <= storage_usage d tenant ->
  in_ty i64 additional -> 0 <= additional ->
  let used := storage_usage d tenant in
  let plan := tenant_plan_id row ≫= get_plan d in
  match resolve_effective_quota (quota_bytes <$> plan) (quota_override_bytes row) with
  | None => check_plan_storage_quota d tenant additional = Ok tt
  | Some limit =>
      in_ty i64 limit ->
      check_plan_storage_quota d tenant additional
      = if decide (used + additional <= limit) then Ok tt
        else Err (Quota (StorageExceeded used additional
               (Z.min (used + additional) (2 ^ 63 - 1)) limit
               (plan_code <$> plan) (plan ≫= get_upsell_plan d)))
  end.
Proof.
  intros Hrow Hu Hu0 Ha Ha0 used plan. unfold check_plan_storage_quota.
  rewrite (resolve_effective_quotas_tenant d tenant row Hrow). simpl. fold plan used.
  destruct (resolve_effective_quota _ _) as [limit|] ; [|done]. simpl.
  intros Hlim. unfold map_quota_err.
  unfold in_ty, i64 in Hu, Ha, Hlim. simpl in Hu, Ha, Hlim.
  destruct (check_bytes_quota used (Some limit) additional) as [[]|e] eqn:Hc.
  - apply check_bytes_quota_spec in Hc as [_ Hle]. case_decide; [done|lia].
  - case_decide as Hle.
    + assert (Hfit : fits used limit additional).
      { split; [|done]. unfold in_ty, i64. simpl. unfold used in *. lia. }
      apply check_bytes_quota_spec in Hfit. congruence.
    + apply check_bytes_quota_err in Hc. subst e. simpl.
      unfold saturating_add, saturate. simpl. do 3 f_equal. unfold used in *. lia.
Qed.

(** The hot-path token gate blocks exactly the tenants whose month rollup
    has reached the effective budget: without a budget it never blocks, with
    one it accepts iff the rollup is strictly below it. *)
Theorem token_rollup_gate_exact (d : db) (tenant : Z) (row : TenantRow) :
  tenants d !! tenant = Some row ->
  0 <= month_token_rollup d tenant < 2 ^ 63 - 1 ->
  let plan := tenant_plan_id row ≫= get_plan d in
  check_plan_token_budget_rollup d tenant = Ok tt
  ↔ match resolve_effective_quota (plan ≫= token_budget) (quota_override_tokens row) with
    | None => True
    | Some budget => month_token_rollup d tenant < budget
    end.
Proof.
  intros Hrow Hr plan. unfold check_plan_token_budget_rollup.
  rewrite (resolve_effective_quotas_tenant d tenant row Hrow). simpl. fold plan.
  destruct (resolve_effective_quota (plan ≫= token_budget) _) as [budget|]; [|done]. simpl.
  assert (Hs := check_token_quota_spec (month_token_rollup d tenant) budget 1).
  unfold fits, in_ty, i64 in Hs. simpl in Hs. unfold map_quota_err.
  destruct (check_token_quota _ _ _) as [[]|e].
  - split; [|done]. intros _. destruct (proj1 Hs eq_refl). lia.
  - split; [done|]. intros Hlt. assert (@Err unit QuotaError e = Ok tt); [|done].
    apply Hs. lia.
Qed.

(** The dashboard banner agrees with enforcement for every [i64] usage and
    positive cap: it says "at capacity" iff one more byte would be rejected,
    warns iff usage is at least 80% and below the cap, and the widened
    products never overflow. *)
Theorem usage_warning_agrees (used cap : Z) :
  in_ty i64 used -> 0 <= used -> in_ty i64 cap -> 0 < cap ->
  (usage_warning used (Some cap) = AtCap
     ↔ check_bytes_quota used (Some cap) 1 ≠ Ok tt)
  ∧ (usage_warning used (Some cap) = Warn ↔ 80 * cap <= 100 * used ∧ used < cap)
  ∧ (usage_warning used (Some cap) = WarnNone ↔ 100 * used < 80 * cap).
Proof.
  intros Hu Hu0 Hc Hc0. rewrite check_bytes_quota_spec. unfold usage_warning, fits.
  rewrite (proj2 (Z.leb_gt cap 0)) by lia. rewrite Z.max_l by lia.
  destruct (Z.leb_spec cap used) as [Hge|Hlt].
  - split_and!; split; try done; lia.
  - pose proof (usage_warning_no_overflow used cap Hu Hc Hc0 Hlt) as [E1 E2].
    rewrite Z.max_l in E1 by lia. rewrite E1, E2. unfold USAGE_WARN_PERCENT.
    assert (Hin : in_ty i64 (used + 1) ∧ used + 1 <= cap).
    { unfold in_ty, i64 in *. simpl in *. lia. }
    destruct (Z.leb_spec (cap * 80) (used * 100));
      split_and!; split; try done; lia.
Qed.

(** Up to the largest budget whose micro-dollar value fits in a [u64], the
    budget check never panics, is within budget iff the cost does not exceed
    the budget, and otherwise reports the integer percentage, rounded down. *)
Theorem check_budget_exact (cost cents : Z) :
  in_ty u64 cost -> 0 < cents <= max_budget_cents ->
  check_budget cost (Some cents)
  = Some (if decide (cost <= cents * 10000) then WithinBudget
          else OverBudget cost (cents * 10000)
                 (Z.min (100 * cost / (cents * 10000)) (2 ^ 32 - 1))).
Proof.
  intros Hcost Hc. unfold check_budget.
  rewrite (proj2 (Z.leb_gt cents 0)), budget_micros_exact by lia.
  destruct (Z.leb_spec cost (cents * 10000)).
  - by rewrite decide_True.
  - rewrite decide_False by lia.
    assert (E : cents * 10000 / 100 = cents * 100).
    { replace (cents * 10000) with (cents * 100 * 100) by lia. by rewrite Z.div_mul. }
    rewrite E. rewrite (proj2 (Z.eqb_neq (cents * 100) 0)) by lia.
    do 3 f_equal. replace (cents * 10000) with (100 * (cents * 100)) by lia.
    by rewrite Z.div_mul_cancel_l by lia.
Qed.

(** Beyond that bound the release build is wrong: there is an [i64] budget
    of over a quadrillion dollars for which a spend of one dollar panics (the
    wrapped budget is 16 micro-dollars, and the percentage divides by zero). *)
Theorem check_budget_overflow :
  ∃ cents, in_ty i64 cents ∧ 0 < cents ∧ check_budget 1000000 (Some cents) = None.
Proof. exists 182622766329724561. split_and!; [|lia|]; by vm_compute. Qed.

(** ** Witnesses *)

(** One tenant on a 1000-byte free plan with a 50-token budget. *)
Definition sample_free : Plan :=
  {| plan_id := 1; plan_code := "free"; quota_bytes := 1000; token_budget := Some 50;
     features := JObj [("max_users", JInt 2)]; price_cents := None |}.
Definition sample_pro : Plan :=
  {| plan_id := 2; plan_code := "pro"; quota_bytes := 9000; token_budget := None;
     features := JObj [("remote_models", JBool true)]; price_cents := Some 1900 |}.
Definition sample_row : TenantRow :=
  {| tenant_plan_id := Some 1; quota_override_bytes := None;
     quota_override_tokens := None; budget_monthly_cents := Some 1000 |}.
Definition sample_db : db :=
  {| plans := [sample_free; sample_pro]; tenants := {[7 := sample_row]};
     storage_usage := λ _, 990; token_usage := λ _, 50; month_token_rollup := λ _, 50;
     user_count := λ _, 2; monthly_cost := λ _, 12000000 |}.

Lemma plan_storage_quota_exact_witness :
  check_plan_storage_quota sample_db 7 20
  = Err (Quota (StorageExceeded 990 20 1010 1000 (Some "free") (Some "pro"))).
Proof.
  refine (plan_storage_quota_exact sample_db 7 20 sample_row _ _ _ _ _ _);
    try reflexivity; apply (bool_decide_unpack _); vm_compute; exact I.
Defined.

Lemma token_rollup_gate_exact_witness :
  check_plan_token_budget_rollup sample_db 7 ≠ Ok tt.
Proof.
  intros H. assert (Hlt : 50 < 50); [|lia].
  refine (proj1 (token_rollup_gate_exact sample_db 7 sample_row _ _) H).
  - reflexivity.
  - simpl. lia.
Defined.

Lemma usage_warning_agrees_witness :
  usage_warning 800 (Some 1000) = Warn ∧ usage_warning 799 (Some 1000) = WarnNone.
Proof.
  split.
  - apply (usage_warning_agrees 800 1000); unfold in_ty; simpl; lia.
  - apply (usage_warning_agrees 799 1000); unfold in_ty; simpl; lia.
Defined.

Lemma check_budget_exact_witness :
  check_budget 12000000 (Some 1000) = Some (OverBudget 12000000 10000000 120).
Proof.
  refine (check_budget_exact 12000000 1000 _ _).
  - unfold in_ty. simpl. lia.
  - change max_budget_cents with 1844674407370955. lia.
Defined.
