(* ===== verification/Resilience.v ===== *)
(** * Resilience: circuit breaker, health debounce, degradation flags

    Models [core/src/circuit_breaker.rs], the probe loop of
    [scheduler/src/health.rs] and [core/src/degradation.rs].  An [Instant] is a
    [Z] of nanoseconds; an operation that reads the clock takes the instant it
    read as an argument, so that a run is a list of timed events. *)

From stdpp Require Import base gmap list strings.
From Stdlib Require Import ZArith Lia.
From S2P Require Import Prelude.
Open Scope Z_scope.

(** ** [CircuitBreaker] *)

Record CircuitState := {
  cs_failures : Z;
  cooldown_until : option Z;
}.
Definition circuit_default : CircuitState := {| cs_failures := 0; cooldown_until := None |}.

Record CircuitBreaker := {
  threshold : Z;
  cooldown : Z;
  states : gmap string CircuitState;
}.

Definition cb_new (threshold cooldown : Z) : CircuitBreaker :=
  {| threshold := threshold; cooldown := cooldown; states := ∅ |}.

Definition with_states (cb : CircuitBreaker) (m : gmap string CircuitState) : CircuitBreaker :=
  {| threshold := threshold cb; cooldown := cooldown cb; states := m |}.

(** [guard.entry(key).or_default()]. *)
Definition cb_entry (cb : CircuitBreaker) (key : string) : CircuitState :=
  default circuit_default (states cb !! key).

Definition is_open (cb : CircuitBreaker) (key : string) (now : Z) : bool * CircuitBreaker :=
  if threshold cb =? 0 then (false, cb)
  else
    let entry := cb_entry cb key in
    match cooldown_until entry with
    | Some until =>
        if now <? until then (true, with_states cb (<[key := entry]> (states cb)))
        else (false, with_states cb
                (<[key := {| cs_failures := cs_failures entry; cooldown_until := None |}]>
                   (states cb)))
    | None => (false, with_states cb (<[key := entry]> (states cb)))
    end.

Definition record_success (cb : CircuitBreaker) (key : string) : CircuitBreaker :=
  if threshold cb =? 0 then cb else with_states cb (delete key (states cb)).

Definition record_failure (cb : CircuitBreaker) (key : string) (now : Z) : CircuitBreaker :=
  if threshold cb =? 0 then cb
  else
    let entry := cb_entry cb key in
    let failures := saturating_add u32 (cs_failures entry) 1 in
    let until := if threshold cb <=? failures then Some (now + cooldown cb)
                 else cooldown_until entry in
    with_states cb (<[key := {| cs_failures := failures; cooldown_until := until |}]>
                      (states cb)).

Definition failures (cb : CircuitBreaker) (key : string) : Z :=
  from_option cs_failures 0 (states cb !! key).

(** A run: the three calls a client makes, with the instants it made them. *)
Inductive cb_event :=
| Probe (key : string) (at_ : Z)
| Failure (key : string) (at_ : Z)
| Success (key : string) (at_ : Z).

Definition event_time (e : cb_event) : Z :=
  match e with Probe _ t | Failure _ t | Success _ t => t end.

Definition cb_step (cb : CircuitBreaker) (e : cb_event) : CircuitBreaker :=
  match e with
  | Probe k t => (is_open cb k t).2
  | Failure k t => record_failure cb k t
  | Success k _ => record_success cb k
  end.

Definition cb_run (cb : CircuitBreaker) (tr : list cb_event) : CircuitBreaker :=
  fold_left cb_step tr cb.

(** *** The specification: a function of the trace alone

    [failure_run key tr] is the number of failures of [key] since its last
    success (capped like the [u32] counter) and the time of the latest one. *)

Definition run_step (key : string) (acc : Z * Z) (e : cb_event) : Z * Z :=
  match e with
  | Failure k t => if decide (k = key) then (saturating_add u32 acc.1 1, t) else acc
  | Success k _ => if decide (k = key) then (0, acc.2) else acc
  | Probe _ _ => acc
  end.
Definition failure_run (key : string) (tr : list cb_event) : Z * Z :=
  fold_left (run_step key) tr (0, 0).

Definition spec_open (thr cool : Z) (key : string) (tr : list cb_event) (now : Z) : bool :=
  let '(n, last) := failure_run key tr in
  negb (thr =? 0) && (thr <=? n) && (now <? last + cool).

(** The clock of a run never goes back. *)
Fixpoint monotone_from (t0 : Z) (tr : list cb_event) : Prop :=
  match tr with
  | [] => True
  | e :: tr' => t0 <= event_time e ∧ monotone_from (event_time e) tr'
  end.

(** *** Simulation

    [sim] relates the stored state of one key to the run's summary: the
    counter is the run length, and the stored deadline either is the latest
    failure's deadline or was dropped because that deadline is over. *)

Definition sim (cb : CircuitBreaker) (key : string) (run : Z * Z) (now : Z) : Prop :=
  in_ty u32 run.1
  ∧ cs_failures (cb_entry cb key) = run.1
  ∧ match cooldown_until (cb_entry cb key) with
    | Some until => until = run.2 + cooldown cb ∧ threshold cb <= run.1
    | None => run.1 < threshold cb ∨ run.2 + cooldown cb <= now
    end.

Lemma cb_entry_insert cb key key' st :
  cb_entry (with_states cb (<[key := st]> (states cb))) key'
  = if decide (key = key') then st else cb_entry cb key'.
Proof. unfold cb_entry. simpl. rewrite lookup_insert. by case_decide. Qed.

Lemma cb_entry_delete cb key key' :
  cb_entry (with_states cb (delete key (states cb))) key'
  = if decide (key = key') then circuit_default else cb_entry cb key'.
Proof. unfold cb_entry. simpl. rewrite lookup_delete. by case_decide. Qed.

Lemma cb_step_params cb e :
  threshold (cb_step cb e) = threshold cb ∧ cooldown (cb_step cb e) = cooldown cb.
Proof.
  destruct e; simpl; unfold is_open, record_failure, record_success; case_all; done.
Qed.

Lemma sim_weaken cb key run now now' :
  now <= now' -> sim cb key run now -> sim cb key run now'.
Proof.
  unfold sim. intros Hle (Hin & Hf & Hu). split_and!; [done..|].
  destruct (cooldown_until _); [done|]. destruct Hu; [by left|right; lia].
Qed.

Lemma sim_step cb key run now e :
  0 < threshold cb -> now <= event_time e -> sim cb key run now ->
  sim (cb_step cb e) key (run_step key run e) (event_time e).
Proof.
  intros Hthr Hle Hsim. apply (sim_weaken _ _ _ _ _ Hle) in Hsim.
  assert (Hz : (threshold cb =? 0) = false) by lia.
  destruct Hsim as (Hin & Hf & Hu). destruct e as [k t|k t|k t]; simpl in *.
  - unfold is_open. rewrite Hz. unfold sim.
    destruct (cooldown_until (cb_entry cb k)) as [until|] eqn:Hc;
      [destruct (Z.ltb_spec t until)|]; simpl; rewrite !cb_entry_insert;
      case_decide; subst; simpl; (split_and!; [done..|]); rewrite ?Hc in *; try done.
    right. lia.
  - unfold record_failure. rewrite Hz. unfold sim. rewrite !cb_entry_insert. simpl.
    case_decide; subst; simpl; [|done].
    split_and!; [by apply saturate_in_ty, _|by rewrite Hf|]. rewrite <-Hf.
    destruct (Z.leb_spec (threshold cb) (saturating_add u32 (cs_failures (cb_entry cb key)) 1));
      [done|].
    destruct (cooldown_until _) as [until|]; [|by left].
    destruct Hu as [_ Hge]. unfold saturating_add, saturate, in_ty in *. simpl in *. lia.
  - unfold record_success. rewrite Hz. unfold sim. rewrite !cb_entry_delete. simpl.
    case_decide; subst; simpl; [|done]. split_and!; [done..|]. left. lia.
Qed.

Lemma sim_run tr cb key run now end_ :
  0 < threshold cb -> monotone_from now tr ->
  (∀ e, e ∈ tr -> event_time e <= end_) -> now <= end_ ->
  sim cb key run now ->
  sim (cb_run cb tr) key (fold_left (run_step key) tr run) end_.
Proof.
  revert cb run now. induction tr as [|e tr IH]; intros cb run now Hthr Hm Hend Hle Hsim.
  - by apply (sim_weaken _ _ _ now).
  - destruct Hm as [Hle' Hm]. pose proof (cb_step_params cb e) as [Ht _].
    apply (IH (cb_step cb e) _ (event_time e)); [lia|done|set_solver|set_solver|].
    by apply (sim_step _ _ _ now).
Qed.

Lemma sim_open cb key run now :
  0 < threshold cb -> sim cb key run now ->
  (is_open cb key now).1 = (threshold cb <=? run.1) && (now <? run.2 + cooldown cb).
Proof.
  intros Hthr (_ & Hf & Hu). unfold is_open. assert ((threshold cb =? 0) = false) as -> by lia.
  destruct (cooldown_until _) as [until|]; simpl.
  - destruct Hu as [-> Hge]. assert ((threshold cb <=? run.1) = true) as -> by lia.
    by destruct (now <? _).
  - symmetry. apply andb_false_iff. lia.
Qed.

Lemma cb_run_params cb tr :
  threshold (cb_run cb tr) = threshold cb ∧ cooldown (cb_run cb tr) = cooldown cb.
Proof.
  revert cb. induction tr as [|e tr IH]; intros cb; [done|]. simpl.
  destruct (IH (cb_step cb e)) as [-> ->]. apply cb_step_params.
Qed.

Lemma cb_run_disabled cb tr : threshold cb = 0 -> cb_run cb tr = cb.
Proof.
  intros H0. induction tr as [|e tr IH]; [done|]. simpl.
  assert (cb_step cb e = cb) as ->; [|done].
  destruct e; simpl; unfold is_open, record_failure, record_success; by rewrite H0.
Qed.

(** ** The health loop: debounced liveness *)

Definition DEFAULT_FAILURE_THRESHOLD : Z := 3.

Definition next_health (prev_healthy probe_ok : bool) (consecutive_failures threshold : Z)
    : bool * Z :=
  if probe_ok then (true, 0)
  else
    let failures := saturating_add u32 consecutive_failures 1 in
    let healthy := (failures <? Z.max threshold 1) && prev_healthy in
    (healthy, failures).

(** [poll_all] over the index-aligned backends and counters; [probe i] is the
    outcome of the HTTP probe of backend [i]. *)
Fixpoint poll_all (threshold : Z) (probe : nat -> bool) (i : nat)
    (backends : list bool) (counters : list Z) : list bool * list Z :=
  match backends, counters with
  | h :: backends', n :: counters' =>
      let '(h', n') := next_health h (probe i) n threshold in
      let '(hs, ns) := poll_all threshold probe (S i) backends' counters' in
      (h' :: hs, n' :: ns)
  | _, _ => (backends, counters)
  end.

(** One backend over several cycles; each cycle has its own (hot-swapped)
    threshold. *)
Definition health_run (cycles : list (bool * Z)) (st : bool * Z) : bool * Z :=
  fold_left (λ st c, next_health st.1 c.1 st.2 c.2) cycles st.

(** The failed cycles since the last successful probe, oldest first, and
    whether there was a successful probe at all. *)
Fixpoint failing_suffix (cycles : list (bool * Z)) : list Z :=
  match cycles with
  | [] => []
  | (ok, thr) :: rest =>
      if existsb fst rest then failing_suffix rest
      else if ok then snd <$> rest else thr :: (snd <$> rest)
  end.

(** The run of thresholds stays below its own trip point at every position. *)
Fixpoint below_from (n : Z) (thrs : list Z) : bool :=
  match thrs with
  | [] => true
  | thr :: rest => (saturating_add u32 n 1 <? Z.max thr 1) && below_from (saturating_add u32 n 1) rest
  end.

Lemma health_run_failing h n cycles :
  existsb fst cycles = false ->
  (health_run cycles (h, n)).1 = h && below_from n (snd <$> cycles).
Proof.
  revert h n. induction cycles as [|[ok thr] cycles IH]; simpl; intros h n Hno.
  - by rewrite andb_true_r.
  - apply orb_false_iff in Hno as [-> Hno]. unfold health_run in *. simpl. rewrite IH by done.
    by rewrite (andb_comm _ h), andb_assoc.
Qed.

Lemma health_run_app c1 c2 st : health_run (c1 ++ c2) st = health_run c2 (health_run c1 st).
Proof. unfold health_run. by rewrite fold_left_app. Qed.

Lemma health_run_suffix cycles :
  (health_run cycles (true, 0)).1 = below_from 0 (failing_suffix cycles).
Proof.
  assert (Hgen : ∀ cycles st, existsb fst cycles = true ->
    (health_run cycles st).1 = below_from 0 (failing_suffix cycles)).
  { clear. induction cycles as [|[ok thr] cycles IH]; intros st; simpl; [done|].
    destruct (existsb fst cycles) eqn:E.
    - intros _. unfold health_run in *. simpl. by apply IH.
    - rewrite orb_false_r. intros ->. unfold health_run. simpl.
      exact (health_run_failing true 0 cycles E). }
  destruct (existsb fst cycles) eqn:E; [by apply Hgen|].
  rewrite health_run_failing by done. simpl. destruct cycles as [|[ok thr] cycles]; [done|].
  simpl in *. apply orb_false_iff in E as [-> ->]. done.
Qed.

(** ** Degradation flags *)

Record DegradationState := {
  blob_store_degraded : bool;
  embed_degraded : bool;
  text_degraded : bool;
  vision_degraded : bool;
  code_degraded : bool;
  rerank_degraded : bool;
}.

Definition push_if (b : bool) (s : string) (out : list string) : list string :=
  if b then out ++ [s] else out.

Definition degraded_subsystems (st : DegradationState) : list string :=
  push_if (rerank_degraded st) "rerank"
  (push_if (code_degraded st) "code"
  (push_if (vision_degraded st) "vision"
  (push_if (text_degraded st) "text"
  (push_if (embed_degraded st) "embed"
  (push_if (blob_store_degraded st) "blob-store" []))))).

Definition is_degraded (st : DegradationState) : bool :=
  blob_store_degraded st || embed_degraded st || text_degraded st || vision_degraded st
  || code_degraded st || rerank_degraded st.

Definition degraded_header_value (st : DegradationState) : option string :=
  match degraded_subsystems st with
  | [] => None
  | subs => Some (String.concat ", " subs)
  end.

Definition set_role_degraded (st : DegradationState) (role : string) (degraded : bool)
    : DegradationState :=
  let upd e t v c r :=
    {| blob_store_degraded := blob_store_degraded st; embed_degraded := e;
       text_degraded := t; vision_degraded := v; code_degraded := c; rerank_degraded := r |} in
  if decide (role = "embed") then
    upd degraded (text_degraded st) (vision_degraded st) (code_degraded st) (rerank_degraded st)
  else if decide (role = "text") then
    upd (embed_degraded st) degraded (vision_degraded st) (code_degraded st) (rerank_degraded st)
  else if decide (role = "vision") then
    upd (embed_degraded st) (text_degraded st) degraded (code_degraded st) (rerank_degraded st)
  else if decide (role = "code") then
    upd (embed_degraded st) (text_degraded st) (vision_degraded st) degraded (rerank_degraded st)
  else if decide (role = "rerank") then
    upd (embed_degraded st) (text_degraded st) (vision_degraded st) (code_degraded st) degraded
  else st.

Definition is_role_degraded (st : DegradationState) (role : string) : bool :=
  if decide (role = "embed") then embed_degraded st
  else if decide (role = "text") then text_degraded st
  else if decide (role = "vision") then vision_degraded st
  else if decide (role = "code") then code_degraded st
  else if decide (role = "rerank") then rerank_degraded st
  else false.

Definition is_subsystem_degraded (st : DegradationState) (subsystem : string) : bool :=
  if decide (subsystem = "blob-store") then blob_store_degraded st
  else is_role_degraded st subsystem.

Definition known_roles : list string := ["embed"; "text"; "vision"; "code"; "rerank"].

Lemma elem_of_push_if b s out x : x ∈ push_if b s out ↔ x ∈ out ∨ (b = true ∧ x = s).
Proof. unfold push_if. destruct b; set_solver. Qed.

Lemma degraded_subsystems_iff st x :
  x ∈ degraded_subsystems st ↔ is_subsystem_degraded st x = true.
Proof.
  unfold degraded_subsystems. rewrite !elem_of_push_if.
  unfold is_subsystem_degraded, is_role_degraded.
  repeat case_decide; subst; set_solver.
Qed.

Lemma is_degraded_iff st : is_degraded st = true ↔ degraded_subsystems st ≠ [].
Proof.
  destruct st as [b e t v c r]. unfold is_degraded, degraded_subsystems, push_if. simpl.
  destruct b, e, t, v, c, r; simpl; split; done.
Qed.

(** ** Properties *)

(** The mutable breaker refines its specification: after any run of
    probes, failures and successes on any keys, with a clock that does not go
    back, [is_open] answers exactly whether the failures of that key since its
    last success have reached the threshold and the latest of them is less
    than [cooldown] ago; the counter is the length of that run.  (In
    particular an expired cooldown does not reset the count: one more failure
    re-opens the circuit.) *)
Theorem circuit_breaker_refines (thr cool t0 now : Z) (key : string) (tr : list cb_event) :
  0 <= thr -> monotone_from t0 tr -> t0 <= now ->
  (∀ e, e ∈ tr -> event_time e <= now) ->
  let cb := cb_run (cb_new thr cool) tr in
  (is_open cb key now).1 = spec_open thr cool key tr now
  ∧ (0 < thr -> cs_failures (cb_entry cb key) = (failure_run key tr).1).
Proof.
  intros Hthr Hm Ht0 Hend cb. unfold spec_open.
  destruct (failure_run key tr) as [n last] eqn:Hrun.
  destruct (decide (thr = 0)) as [->|Hne].
  - split; [|lia]. unfold cb. rewrite cb_run_disabled by done. done.
  - assert (Hsim : sim cb key (failure_run key tr) now).
    { apply (sim_run _ _ _ _ t0); [simpl; lia|done..|]. split_and!; [done..|]. left. simpl. lia. }
    destruct (cb_run_params (cb_new thr cool) tr) as [Ht Hc]. fold cb in Ht, Hc. simpl in Ht, Hc.
    rewrite Hrun in Hsim. split; [|intros _; by destruct Hsim as (_ & ? & _)].
    rewrite (sim_open cb key (n, last) now) by (done || lia). rewrite Ht, Hc. simpl.
    assert ((thr =? 0) = false) as -> by lia. done.
Qed.

(** Health debounce: starting healthy, after any cycles of probes with any
    hot-swapped thresholds a backend is healthy iff no cycle since the last
    successful probe brought the consecutive-failure count up to that cycle's
    threshold (clamped to at least one); a single success restores it. *)
Theorem health_debounce (cycles : list (bool * Z)) :
  (health_run cycles (true, 0)).1 = below_from 0 (failing_suffix cycles)
  ∧ ∀ thr, health_run (cycles ++ [(true, thr)]) (true, 0) = (true, 0).
Proof.
  split; [apply health_run_suffix|]. intros thr. by rewrite health_run_app.
Qed.

(** The degradation report is exact: [degraded_subsystems] lists precisely
    the subsystems whose flag is set, the summary flag and the [X-Degraded]
    header are present iff some flag is set, setting a role's flag is read back
    and leaves every other subsystem alone, and unknown roles change nothing. *)
Theorem degradation_report_exact (st : DegradationState) :
  (∀ x, x ∈ degraded_subsystems st ↔ is_subsystem_degraded st x = true)
  ∧ (is_degraded st = true ↔ degraded_subsystems st ≠ [])
  ∧ (degraded_header_value st = None ↔ is_degraded st = false)
  ∧ (∀ role b x, is_subsystem_degraded (set_role_degraded st role b) x
       = if decide (x = role ∧ role ∈ known_roles) then b else is_subsystem_degraded st x).
Proof.
  split_and!.
  - apply degraded_subsystems_iff.
  - apply is_degraded_iff.
  - rewrite <-not_true_iff_false, is_degraded_iff. unfold degraded_header_value.
    destruct (degraded_subsystems st); naive_solver.
  - intros role b x. unfold known_roles, set_role_degraded, is_subsystem_degraded, is_role_degraded.
    repeat (case_decide; subst; simpl); try done; set_solver.
Qed.

(** ** Witness *)

Definition sample_trace : list cb_event :=
  [Failure "b2" 1; Failure "b2" 2; Probe "b2" 3; Probe "b2" 20; Failure "b2" 21].

Lemma circuit_breaker_refines_witness :
  (is_open (cb_run (cb_new 2 10) sample_trace) "b2" 25).1 = true.
Proof.
  assert (Hend : ∀ e, e ∈ sample_trace -> event_time e <= 25).
  { apply Forall_forall. repeat constructor; simpl; lia. }
  rewrite (proj1 (circuit_breaker_refines 2 10 0 25 "b2" sample_trace
    ltac:(lia) ltac:(simpl; lia) ltac:(lia) Hend)).
  reflexivity.
Defined.
