(* ===== verification/Routing.v ===== *)
(** * Routing table

    Models [core/src/routing.rs]: the row types of the routing tables, the
    resolved routing entry and the in-memory [RoutingTable], a map from
    (tenant, role) to tiers. *)

From stdpp Require Import base gmap list strings.
From Stdlib Require Import ZArith Lia.
From S2P Require Import Prelude FloatModel Role Quota.
Open Scope Z_scope.

Record ProviderRow := mkProviderRow {
  p_id : Z;
  p_name : string;
  p_kind : ProviderKind;
  p_endpoint : option string;
  p_headers : json;
  p_enabled : bool;
  p_api_key_enc : option (list Z);
}.

Record ModelRow := mkModelRow {
  m_id : Z;
  m_provider_id : Z;
  m_model_id : string;
  m_caps : list string;
  m_ctx_tokens : option Z;
  m_max_conc : option Z;
  m_rpm : option Z;
  m_tpm : option Z;
  m_price_in : option f64;
  m_price_out : option f64;
  m_data_class : DataClass;
  m_enabled : bool;
}.

Record RouteRow := mkRouteRow {
  r_id : Z;
  r_tenant_id : option Z;
  r_role : Role;
  r_tier : Z;
  r_strategy : RoutingStrategy;
  r_spill_ms : Z;
  r_model_id : Z;
}.

Record RoutingEntry := mkRoutingEntry {
  re_tenant_id : option Z;
  re_role : Role;
  re_tier : Z;
  re_strategy : RoutingStrategy;
  re_spill_ms : Z;
  re_provider : ProviderRow;
  re_model : ModelRow;
}.

(** The [HashMap] key, and the table. *)
Notation route_key := (option Z * Role)%type.
Notation RoutingTable := (gmap route_key (list (list RoutingEntry))).

Definition entry_key (e : RoutingEntry) : route_key := (re_tenant_id e, re_role e).

(** ** [RoutingTable::from_entries]

    A [Vec] whose buffer would exceed [isize::MAX] bytes panics; an element
    of [tiers] is a [Vec] header of 24 bytes. *)
Definition MAX_TIERS : Z := (2 ^ 63 - 1) / 24.

(** [while tiers.len() <= tier_idx { tiers.push(Vec::new()) }]. *)
Fixpoint push_tiers (missing : nat) (tiers : list (list RoutingEntry)) : list (list RoutingEntry) :=
  match missing with
  | O => tiers
  | S n => push_tiers n (tiers ++ [[]])
  end.

(** One iteration of the grouping loop; [None] is the panic. *)
Definition place_entry (table : RoutingTable) (e : RoutingEntry) : option RoutingTable :=
  let key := entry_key e in
  let tiers := default [] (table !! key) in
  let tier_idx := wrap usize (re_tier e) in
  if MAX_TIERS <=? tier_idx then None
  else
    let i := Z.to_nat tier_idx in
    let tiers := push_tiers (S i - length tiers) tiers in
    Some (<[key := alter (λ tier, tier ++ [e]) i tiers]> table).

Fixpoint place_entries (table : RoutingTable) (es : list RoutingEntry) : option RoutingTable :=
  match es with
  | [] => Some table
  | e :: es => place_entry table e ≫= λ table', place_entries table' es
  end.

(** [while tiers.last().is_some_and(Vec::is_empty) { tiers.pop() }], on the
    reversed list. *)
Fixpoint drop_empty (rtiers : list (list RoutingEntry)) : list (list RoutingEntry) :=
  match rtiers with
  | [] :: rest => drop_empty rest
  | _ => rtiers
  end.
Definition strip_trailing (tiers : list (list RoutingEntry)) : list (list RoutingEntry) :=
  reverse (drop_empty (reverse tiers)).

Definition from_entries (es : list RoutingEntry) : option RoutingTable :=
  match place_entries ∅ es with
  | Some table => Some (fmap (M := gmap route_key) strip_trailing table)
  | None => None
  end.

Definition table_is_empty (t : RoutingTable) : bool := bool_decide (size t = 0%nat).
Definition group_count (t : RoutingTable) : nat := size t.

Definition tiers_for (t : RoutingTable) (tenant_id : option Z) (role : Role)
    : list (list RoutingEntry) :=
  match t !! (tenant_id, role) with
  | Some tiers => tiers
  | None => default [] (t !! (None, role))
  end.

(** ** Lemmas *)

(** What tier [i] of bucket [k] must hold. *)
Definition tier_of (k : route_key) (i : nat) (es : list RoutingEntry) : list RoutingEntry :=
  filter (λ e, entry_key e = k ∧ re_tier e = Z.of_nat i) es.

(** The bucket a lookup is answered from. *)
Definition effective_key (es : list RoutingEntry) (tenant_id : option Z) (role : Role) : route_key :=
  if decide (Exists (λ e, entry_key e = (tenant_id, role)) es)
  then (tenant_id, role) else (None, role).

(** No tier list ends in an empty tier. *)
Definition last_tier_nonempty (tiers : list (list RoutingEntry)) : Prop :=
  ∀ j, S j = length tiers -> default [] (tiers !! j) <> [].

Definition bucket_ok (es : list RoutingEntry) (k : route_key)
    (o : option (list (list RoutingEntry))) : Prop :=
  match o with
  | None => Forall (λ e, entry_key e <> k) es
  | Some tiers =>
      Exists (λ e, entry_key e = k) es ∧ last_tier_nonempty tiers ∧
      ∀ i, default [] (tiers !! i) = tier_of k i es
  end.
Definition grouped (es : list RoutingEntry) (t : RoutingTable) : Prop :=
  ∀ k, bucket_ok es k (t !! k).

Lemma push_tiers_app n tiers : push_tiers n tiers = tiers ++ replicate n [].
Proof.
  revert tiers. induction n as [|n IH]; intros tiers; simpl; [by rewrite app_nil_r|].
  rewrite IH, <-app_assoc. done.
Qed.

Lemma grow_lookup (tiers : list (list RoutingEntry)) n j :
  default [] ((tiers ++ replicate n []) !! j) = default [] (tiers !! j).
Proof.
  destruct (decide (j < length tiers)%nat) as [Hj|Hj].
  - by rewrite lookup_app_l.
  - rewrite lookup_app_r by lia. rewrite (lookup_ge_None_2 tiers) by lia.
    destruct (replicate n [] !! _) eqn:E; [|done]. apply lookup_replicate in E as [-> _]. done.
Qed.

Lemma MAX_TIERS_bounds : 2 ^ 31 < MAX_TIERS < 2 ^ 64 - 2 ^ 31.
Proof. vm_compute. done. Qed.

Lemma wrap_tier_neg z : in_ty i32 z -> z < 0 -> wrap usize z = z + 2 ^ 64.
Proof.
  intros Hz Hneg. unfold wrap. change (ty_width usize) with (2 ^ 64). change (ity_min usize) with 0.
  unfold in_ty in Hz. change (ity_min i32) with (- 2 ^ 31) in Hz.
  rewrite <-(Z.mod_unique (z - 0) (2 ^ 64) (-1) (z + 2 ^ 64)); lia.
Qed.

Lemma wrap_tier_pos z : in_ty i32 z -> 0 <= z -> wrap usize z = z.
Proof.
  intros [_ Hz] ?. apply wrap_id. change (ity_max i32) with (2 ^ 31 - 1) in Hz.
  split; [done|]. change (ity_max usize) with (2 ^ 64 - 1). lia.
Qed.

Lemma wrap_tier z : in_ty i32 z ->
  (MAX_TIERS <=? wrap usize z) = (z <? 0) ∧ (0 <= z -> wrap usize z = z).
Proof.
  intros Hz. pose proof MAX_TIERS_bounds. split; [|by apply wrap_tier_pos].
  destruct (z <? 0) eqn:E; bool_to_prop; destruct Hz as [Hlo Hhi].
  - rewrite wrap_tier_neg by done. apply Z.leb_le.
    change (ity_min i32) with (- 2 ^ 31) in Hlo. lia.
  - rewrite wrap_tier_pos by done. apply Z.leb_gt.
    change (ity_max i32) with (2 ^ 31 - 1) in Hhi. lia.
Qed.

Lemma tier_of_snoc k i es e :
  tier_of k i (es ++ [e]) =
    tier_of k i es ++ (if decide (entry_key e = k ∧ re_tier e = Z.of_nat i) then [e] else []).
Proof. unfold tier_of. rewrite filter_app, filter_cons, filter_nil. done. Qed.

Lemma place_entry_None t e : in_ty i32 (re_tier e) -> re_tier e < 0 -> place_entry t e = None.
Proof.
  intros H32 Hneg. unfold place_entry. destruct (wrap_tier _ H32) as [-> _].
  apply Z.ltb_lt in Hneg. by rewrite Hneg.
Qed.

(** The loop body files one entry at the end of its tier. *)
Lemma place_entry_grouped es t e :
  in_ty i32 (re_tier e) -> 0 <= re_tier e -> grouped es t ->
  ∃ t', place_entry t e = Some t' ∧ grouped (es ++ [e]) t'.
Proof.
  intros H32 Hpos Hg. unfold place_entry. destruct (wrap_tier _ H32) as [-> Hw].
  rewrite (proj2 (Z.ltb_ge _ _) Hpos), Hw by done. eexists; split; [done|].
  intros k. pose proof (Hg k) as Hk. destruct (decide (entry_key e = k)) as [<-|Hne].
  - rewrite lookup_insert_eq. set (i := Z.to_nat (re_tier e)).
    set (tiers := default [] (t !! entry_key e)) in *.
    assert (Hsame : ∀ j, default [] (tiers !! j) = tier_of (entry_key e) j es).
    { intros j. subst tiers. destruct (t !! entry_key e); simpl in *; [naive_solver|].
      unfold tier_of. symmetry. apply filter_none. intros. simpl.
      rewrite Forall_forall in Hk. intros [? _]. by eapply Hk. }
    assert (Hlast : last_tier_nonempty tiers).
    { subst tiers. destruct (t !! entry_key e); simpl in *; [naive_solver|]. intros ? [=]. }
    rewrite push_tiers_app. set (n := (S i - length tiers)%nat).
    assert (Hnew : ∀ j, default [] (alter (λ tier, tier ++ [e]) i (tiers ++ replicate n []) !! j)
                        = tier_of (entry_key e) j (es ++ [e])).
    { intros j. rewrite tier_of_snoc. destruct (decide (i = j)) as [<-|Hij].
      - rewrite list_lookup_alter_eq, decide_True by (split; [done|lia]).
        rewrite <-Hsame, <-(grow_lookup _ n).
        destruct ((tiers ++ replicate n []) !! i) eqn:E; [done|].
        apply lookup_ge_None in E. rewrite length_app, length_replicate in E. lia.
      - rewrite list_lookup_alter_ne, grow_lookup, Hsame, decide_False by (auto; lia).
        by rewrite app_nil_r. }
    split_and!; [apply Exists_app; right; by constructor| |done].
    intros j Hj. rewrite Hnew, tier_of_snoc.
    rewrite length_alter, length_app, length_replicate in Hj.
    destruct (decide (i = j)) as [<-|Hij].
    + rewrite decide_True by (split; [done|lia]). by destruct (tier_of _ _ _).
    + rewrite <-Hsame. intros [Hnil _]%app_eq_nil. apply (Hlast j); [lia|done].
  - rewrite lookup_insert_ne by done. destruct (t !! k); simpl in *.
    + destruct Hk as (?&?&Hk). split_and!; [apply Exists_app; auto|done|].
      intros i. rewrite tier_of_snoc, decide_False, app_nil_r by naive_solver. apply Hk.
    + apply Forall_app. auto.
Qed.

Lemma place_entries_grouped es' es t :
  Forall (λ e, in_ty i32 (re_tier e) ∧ 0 <= re_tier e) es' -> grouped es t ->
  ∃ t', place_entries t es' = Some t' ∧ grouped (es ++ es') t'.
Proof.
  revert es t. induction es' as [|e es' IH]; intros es t Hall Hg; simpl.
  - rewrite app_nil_r. eauto.
  - apply Forall_cons in Hall as [[??]?].
    destruct (place_entry_grouped es t e) as (t1&->&Hg1); [done..|]. simpl.
    destruct (IH (es ++ [e]) t1) as (t2&->&Hg2); [done..|].
    rewrite <-app_assoc in Hg2. eauto.
Qed.

Lemma strip_trailing_id tiers : last_tier_nonempty tiers -> strip_trailing tiers = tiers.
Proof.
  intros Hl. unfold strip_trailing. induction tiers as [|x l _] using rev_ind; [done|].
  rewrite reverse_snoc. destruct x as [|e x]; [|simpl; by rewrite reverse_cons, reverse_involutive].
  exfalso. apply (Hl (length l)); [rewrite length_app; simpl; lia|].
  by rewrite lookup_app_r, Nat.sub_diag.
Qed.

Lemma from_entries_grouped es :
  Forall (λ e, in_ty i32 (re_tier e) ∧ 0 <= re_tier e) es ->
  ∃ t, from_entries es = Some t ∧ grouped es t.
Proof.
  intros Hall. destruct (place_entries_grouped es [] ∅) as (t&Ht&Hg); [done| |].
  { intros k. rewrite lookup_empty. constructor. }
  unfold from_entries. rewrite Ht. eexists; split; [done|]. intros k. rewrite lookup_fmap.
  specialize (Hg k). destruct (t !! k); simpl in *; [|done].
  rewrite strip_trailing_id; naive_solver.
Qed.

Lemma place_entries_negative es t :
  Forall (λ e, in_ty i32 (re_tier e)) es -> Exists (λ e, re_tier e < 0) es ->
  place_entries t es = None.
Proof.
  intros Hall. revert t. induction Hall as [|e es He _ IH]; intros t Hex; [inversion Hex|]. simpl.
  apply Exists_cons in Hex as [?|?]; [by rewrite place_entry_None|].
  destruct (place_entry t e); simpl; auto.
Qed.

(** ** Properties *)

(** A routing lookup is exact.  Whenever every tier number is a
    non-negative [i32], building the table succeeds, and for every tenant and
    role the [i]-th tier returned holds exactly the entries of the effective
    bucket with that tier number, in the order of the join: the tenant's own
    bucket when it has any entry for the role, else the global one.  The last
    tier returned is never empty. *)
Theorem tiers_for_exact (es : list RoutingEntry) :
  Forall (λ e, in_ty i32 (re_tier e) ∧ 0 <= re_tier e) es ->
  ∃ t, from_entries es = Some t ∧
    ∀ tenant_id role,
      (∀ i, default [] (tiers_for t tenant_id role !! i)
            = tier_of (effective_key es tenant_id role) i es) ∧
      last_tier_nonempty (tiers_for t tenant_id role).
Proof.
  intros Hall. destruct (from_entries_grouped es Hall) as (t&Ht&Hg).
  exists t. split; [done|]. intros tenant role. unfold tiers_for, effective_key.
  pose proof (Hg (tenant, role)) as Hk. destruct (t !! (tenant, role)); simpl in *.
  - rewrite decide_True; naive_solver.
  - rewrite decide_False by (by rewrite <-Forall_Exists_neg).
    pose proof (Hg (None, role)) as Hn. destruct (t !! (None, role)); simpl in *; [naive_solver|].
    split; [|intros ? [=]]. intros i. symmetry. apply filter_none.
    intros e. rewrite Forall_forall in Hn. naive_solver.
Qed.

(** [from_entries] terminates normally exactly when no entry carries a
    negative tier: [entry.tier as usize] maps a negative [i32] to an index
    near [2^64], and growing the tier vector up to it cannot succeed. *)
Theorem from_entries_total_iff (es : list RoutingEntry) :
  Forall (λ e, in_ty i32 (re_tier e)) es ->
  is_Some (from_entries es) <-> Forall (λ e, 0 <= re_tier e) es.
Proof.
  intros Hall. split.
  - intros [t Ht]. apply not_Exists_Forall; [intros ?; apply _|]. intros Hex.
    unfold from_entries in Ht. rewrite place_entries_negative in Ht; [done|done|].
    eapply Exists_impl; [done|]. intros e. apply Z.compare_gt_iff.
  - intros Hpos. destruct (from_entries_grouped es) as (t&->&_); [|eauto].
    apply Forall_and; eauto.
Qed.

(** A table with one global and one tenant entry, and a fallback tier. *)
Definition demo_provider : ProviderRow :=
  mkProviderRow 1 "llama" LocalProvider None (JObj []) true None.
Definition demo_model (id : Z) : ModelRow :=
  mkModelRow id 1 "qwen" ["text"] None (Some 2) None None None None Local true.
Definition demo_entry (tenant : option Z) (tier id : Z) : RoutingEntry :=
  mkRoutingEntry tenant Text tier LeastLoaded 800 demo_provider (demo_model id).

Lemma tiers_for_exact_witness :
  let es := [demo_entry None 0 1; demo_entry None 2 2; demo_entry (Some 7) 0 3] in
  ∃ t, from_entries es = Some t ∧
    ∀ tenant_id role,
      (∀ i, default [] (tiers_for t tenant_id role !! i)
            = tier_of (effective_key es tenant_id role) i es) ∧
      last_tier_nonempty (tiers_for t tenant_id role).
Proof.
  apply (tiers_for_exact [demo_entry None 0 1; demo_entry None 2 2; demo_entry (Some 7) 0 3]).
  apply (bool_decide_unpack _). vm_compute. done.
Defined.

Lemma from_entries_total_iff_witness :
  is_Some (from_entries [demo_entry None 0 1; demo_entry None (-1) 2]) <->
  Forall (λ e, 0 <= re_tier e) [demo_entry None 0 1; demo_entry None (-1) 2].
Proof.
  apply (from_entries_total_iff [demo_entry None 0 1; demo_entry None (-1) 2]).
  apply (bool_decide_unpack _). vm_compute. done.
Defined.
