(* ===== verification/RoutingDb.v ===== *)
(** * Routing tables in the database

    Models [store/src/db_routing.rs]: the CRUD operations on [providers],
    [models] and [routes] as functions on a database state with the schema's
    constraints (migrations/0001_base_schema.sql), and [get_routing_table],
    the join with tenant overrides the scheduler loads.  Prices are kept as
    the [f64] the row conversion yields; the API-key columns are only read. *)

From stdpp Require Import base gmap list strings.
From Stdlib Require Import ZArith Lia.
From S2P Require Import Prelude StableSort FloatModel Role Quota Routing.
Open Scope Z_scope.

Record ProviderRowSql := mkProviderRowSql {
  sp_id : Z; sp_name : string; sp_kind : string; sp_endpoint : option string;
  sp_headers : json; sp_enabled : bool; sp_api_key_enc : option (list Z);
}.
Record ModelRowSql := mkModelRowSql {
  sm_id : Z; sm_provider_id : Z; sm_model_id : string; sm_caps : list string;
  sm_ctx_tokens : option Z; sm_max_conc : option Z; sm_rpm : option Z; sm_tpm : option Z;
  sm_price_in : option f64; sm_price_out : option f64; sm_data_class : string; sm_enabled : bool;
}.
Record RouteRowSql := mkRouteRowSql {
  sr_id : Z; sr_tenant_id : option Z; sr_role : string; sr_tier : Z;
  sr_strategy : string; sr_spill_ms : Z; sr_model_id : Z;
}.

(** [admin] is whether the privileged pool is connected; the [next_*] fields
    are the [BIGSERIAL] sequences. *)
Record RoutingDb := mkRoutingDb {
  admin : bool;
  providers : list ProviderRowSql; next_provider : Z;
  models : list ModelRowSql; next_model : Z;
  routes : list RouteRowSql; next_route : Z;
}.

Inductive DbError :=
| NotConnected
| NotFound (id : Z)
| ForeignKeyViolation
| UniqueViolation
| DuplicateRoute
| BadEnum (e : CoreError).

Definition dbr (A : Type) : Type := result A DbError.

Definition admin_pool (db : RoutingDb) : dbr unit :=
  if admin db then Ok tt else Err NotConnected.

Definition of_core {A} (r : result A CoreError) : dbr A :=
  match r with Ok a => Ok a | Err e => Err (BadEnum e) end.

(** [UPDATE .. WHERE id = $n] and its row count. *)
Definition update_where {A} (idf : A -> Z) (id : Z) (f : A -> A) (rows : list A) : list A :=
  (λ r, if decide (idf r = id) then f r else r) <$> rows.
Definition rows_affected {A} (idf : A -> Z) (id : Z) (rows : list A) : Z :=
  Z.of_nat (length (filter (λ r, idf r = id) rows)).
Definition fetch_optional {A} (idf : A -> Z) (id : Z) (rows : list A) : option A :=
  head (filter (λ r, idf r = id) rows).

(** [iter().map(f).collect::<Result<Vec<_>>>()]. *)
Fixpoint collect {A B} (f : A -> dbr B) (l : list A) : dbr (list B) :=
  match l with
  | [] => Ok []
  | x :: l => let? y := f x in let? ys := collect f l in Ok (y :: ys)
  end.
(** [row.map(f).transpose()]. *)
Definition transpose_map {A B} (f : A -> dbr B) (o : option A) : dbr (option B) :=
  match o with None => Ok None | Some x => let? y := f x in Ok (Some y) end.

(** ** Row conversions *)

Definition provider_from_sql (r : ProviderRowSql) : dbr ProviderRow :=
  let? kind := of_core (from_str (sp_kind r)) in
  Ok (mkProviderRow (sp_id r) (sp_name r) kind (sp_endpoint r) (sp_headers r)
        (sp_enabled r) (sp_api_key_enc r)).

Definition model_from_sql (r : ModelRowSql) : dbr ModelRow :=
  let? data_class := of_core (from_str (sm_data_class r)) in
  Ok (mkModelRow (sm_id r) (sm_provider_id r) (sm_model_id r) (sm_caps r) (sm_ctx_tokens r)
        (sm_max_conc r) (sm_rpm r) (sm_tpm r) (sm_price_in r) (sm_price_out r) data_class
        (sm_enabled r)).

Definition route_from_sql (r : RouteRowSql) : dbr RouteRow :=
  let? role := of_core (from_str (sr_role r)) in
  let? strategy := of_core (from_str (sr_strategy r)) in
  Ok (mkRouteRow (sr_id r) (sr_tenant_id r) role (sr_tier r) strategy (sr_spill_ms r)
        (sr_model_id r)).

(** ** Providers *)

Definition set_providers (db : RoutingDb) (ps : list ProviderRowSql) : RoutingDb :=
  mkRoutingDb (admin db) ps (next_provider db) (models db) (next_model db) (routes db)
    (next_route db).
Definition set_models (db : RoutingDb) (ms : list ModelRowSql) : RoutingDb :=
  mkRoutingDb (admin db) (providers db) (next_provider db) ms (next_model db) (routes db)
    (next_route db).
Definition set_routes (db : RoutingDb) (rs : list RouteRowSql) : RoutingDb :=
  mkRoutingDb (admin db) (providers db) (next_provider db) (models db) (next_model db) rs
    (next_route db).

Definition create_provider (db : RoutingDb) (name : string) (kind : ProviderKind)
    (endpoint : option string) (headers : json) : dbr (Z * RoutingDb) :=
  let? _ := admin_pool db in
  let id := next_provider db in
  let row := mkProviderRowSql id name (as_str kind) endpoint headers true None in
  Ok (id, mkRoutingDb (admin db) (providers db ++ [row]) (id + 1) (models db) (next_model db)
            (routes db) (next_route db)).

Definition get_provider (db : RoutingDb) (id : Z) : dbr (option ProviderRow) :=
  let? _ := admin_pool db in
  transpose_map provider_from_sql (fetch_optional sp_id id (providers db)).

Definition update_provider (db : RoutingDb) (id : Z) (name : option string)
    (kind : option ProviderKind) (endpoint : option (option string)) (headers : option json)
    : dbr RoutingDb :=
  let? _ := admin_pool db in
  let? found := get_provider db id in
  let? current := ok_or found (NotFound id) in
  let new_name := default (p_name current) name in
  let new_kind := default (p_kind current) kind in
  let new_endpoint := default (p_endpoint current) endpoint in
  let new_headers := default (p_headers current) headers in
  Ok (set_providers db (update_where sp_id id (λ r,
        mkProviderRowSql (sp_id r) new_name (as_str new_kind) new_endpoint new_headers
          (sp_enabled r) (sp_api_key_enc r)) (providers db))).

Definition set_provider_enabled (b : bool) (db : RoutingDb) (id : Z) : dbr (Z * RoutingDb) :=
  let? _ := admin_pool db in
  Ok (rows_affected sp_id id (providers db),
      set_providers db (update_where sp_id id (λ r,
        mkProviderRowSql (sp_id r) (sp_name r) (sp_kind r) (sp_endpoint r) (sp_headers r) b
          (sp_api_key_enc r)) (providers db))).
Definition disable_provider : RoutingDb -> Z -> dbr (Z * RoutingDb) := set_provider_enabled false.
Definition enable_provider : RoutingDb -> Z -> dbr (Z * RoutingDb) := set_provider_enabled true.

Definition list_providers (db : RoutingDb) : dbr (list ProviderRow) :=
  let? _ := admin_pool db in
  collect provider_from_sql (sort_by_key sp_id (providers db)).

(** ** Models *)

Definition create_model (db : RoutingDb) (provider_id : Z) (model_id : string)
    (caps : list string) (ctx_tokens max_conc rpm tpm : option Z) (price_in price_out : option f64)
    (data_class : DataClass) : dbr (Z * RoutingDb) :=
  let? _ := admin_pool db in
  if decide (provider_id ∈ sp_id <$> providers db) then
    let id := next_model db in
    let row := mkModelRowSql id provider_id model_id caps ctx_tokens max_conc rpm tpm
                 price_in price_out (as_str data_class) true in
    Ok (id, mkRoutingDb (admin db) (providers db) (next_provider db) (models db ++ [row]) (id + 1)
              (routes db) (next_route db))
  else Err ForeignKeyViolation.

Definition get_model (db : RoutingDb) (id : Z) : dbr (option ModelRow) :=
  let? _ := admin_pool db in
  transpose_map model_from_sql (fetch_optional sm_id id (models db)).

Definition set_model_enabled (b : bool) (db : RoutingDb) (id : Z) : dbr (Z * RoutingDb) :=
  let? _ := admin_pool db in
  Ok (rows_affected sm_id id (models db),
      set_models db (update_where sm_id id (λ r,
        mkModelRowSql (sm_id r) (sm_provider_id r) (sm_model_id r) (sm_caps r) (sm_ctx_tokens r)
          (sm_max_conc r) (sm_rpm r) (sm_tpm r) (sm_price_in r) (sm_price_out r)
          (sm_data_class r) b) (models db))).
Definition disable_model : RoutingDb -> Z -> dbr (Z * RoutingDb) := set_model_enabled false.
Definition enable_model : RoutingDb -> Z -> dbr (Z * RoutingDb) := set_model_enabled true.

Definition list_models (db : RoutingDb) : dbr (list ModelRow) :=
  let? _ := admin_pool db in
  collect model_from_sql (sort_by_key2 sm_provider_id sm_id (models db)).

Definition update_model (db : RoutingDb) (id : Z) (provider_id : option Z)
    (model_id : option string) (caps : option (list string))
    (ctx_tokens max_conc rpm tpm : option (option Z)) (price_in price_out : option (option f64))
    (data_class : option DataClass) : dbr RoutingDb :=
  let? _ := admin_pool db in
  let? found := get_model db id in
  let? current := ok_or found (NotFound id) in
  let new_provider_id := default (m_provider_id current) provider_id in
  let new_model_id := default (m_model_id current) model_id in
  let new_caps := default (m_caps current) caps in
  let new_ctx_tokens := default (m_ctx_tokens current) ctx_tokens in
  let new_max_conc := default (m_max_conc current) max_conc in
  let new_rpm := default (m_rpm current) rpm in
  let new_tpm := default (m_tpm current) tpm in
  let new_price_in := default (m_price_in current) price_in in
  let new_price_out := default (m_price_out current) price_out in
  let new_data_class := default (m_data_class current) data_class in
  if decide (new_provider_id ∈ sp_id <$> providers db) then
    Ok (set_models db (update_where sm_id id (λ r,
          mkModelRowSql (sm_id r) new_provider_id new_model_id new_caps new_ctx_tokens
            new_max_conc new_rpm new_tpm new_price_in new_price_out (as_str new_data_class)
            (sm_enabled r)) (models db)))
  else Err ForeignKeyViolation.

(** ** Routes *)

(** [UNIQUE (tenant_id, role, tier, model_id)] compares a NULL tenant with
    nothing: only rows of the same tenant conflict. *)
Definition route_conflict (tenant : option Z) (role : string) (tier model : Z) (r : RouteRowSql)
    : Prop :=
  is_Some tenant ∧ sr_tenant_id r = tenant ∧ sr_role r = role ∧ sr_tier r = tier ∧
  sr_model_id r = model.
#[global] Instance route_conflict_dec tenant role tier model r :
  Decision (route_conflict tenant role tier model r).
Proof. unfold route_conflict. apply _. Defined.

Definition create_route (db : RoutingDb) (tenant_id : option Z) (role : Role) (tier : Z)
    (strategy : RoutingStrategy) (spill_ms model_id : Z) : dbr (Z * RoutingDb) :=
  let? _ := admin_pool db in
  if decide (Exists (route_conflict tenant_id (as_str role) tier model_id) (routes db))
  then Err DuplicateRoute
  else if decide (model_id ∈ sm_id <$> models db) then
    let id := next_route db in
    let row := mkRouteRowSql id tenant_id (as_str role) tier (as_str strategy) spill_ms model_id in
    Ok (id, mkRoutingDb (admin db) (providers db) (next_provider db) (models db) (next_model db)
              (routes db ++ [row]) (id + 1))
  else Err ForeignKeyViolation.

Definition get_route (db : RoutingDb) (id : Z) : dbr (option RouteRow) :=
  let? _ := admin_pool db in
  transpose_map route_from_sql (fetch_optional sr_id id (routes db)).

Definition update_route (db : RoutingDb) (id : Z) (tier : option Z)
    (strategy : option RoutingStrategy) (spill_ms model_id : option Z) : dbr RoutingDb :=
  let? _ := admin_pool db in
  let? found := get_route db id in
  let? current := ok_or found (NotFound id) in
  let new_tier := default (r_tier current) tier in
  let new_strategy := default (r_strategy current) strategy in
  let new_spill := default (r_spill_ms current) spill_ms in
  let new_model := default (r_model_id current) model_id in
  if decide (new_model ∈ sm_id <$> models db) then
    if decide (Exists (λ r, sr_id r <> id ∧
                 route_conflict (r_tenant_id current) (as_str (r_role current)) new_tier new_model r)
                 (routes db))
    then Err UniqueViolation
    else Ok (set_routes db (update_where sr_id id (λ r,
               mkRouteRowSql (sr_id r) (sr_tenant_id r) (sr_role r) new_tier (as_str new_strategy)
                 new_spill new_model) (routes db)))
  else Err ForeignKeyViolation.

Definition delete_route (db : RoutingDb) (id : Z) : dbr (Z * RoutingDb) :=
  let? _ := admin_pool db in
  Ok (rows_affected sr_id id (routes db),
      set_routes db (filter (λ r, sr_id r <> id) (routes db))).

(** [ORDER BY role, tenant_id NULLS FIRST, tier]; rows that tie keep their
    table order, which SQL leaves open. *)
Definition tenant_leb (a b : option Z) : bool :=
  match a, b with None, _ => true | Some _, None => false | Some x, Some y => x <=? y end.
Definition route_order_leb (a b : RouteRowSql) : bool :=
  if decide (sr_role a = sr_role b) then
    if decide (sr_tenant_id a = sr_tenant_id b) then sr_tier a <=? sr_tier b
    else tenant_leb (sr_tenant_id a) (sr_tenant_id b)
  else String.leb (sr_role a) (sr_role b).

Definition list_routes (db : RoutingDb) : dbr (list RouteRow) :=
  let? _ := admin_pool db in
  collect route_from_sql (sort_by route_order_leb (routes db)).

(** ** [get_routing_table] *)

(** One row of the three-way join. *)
Record RoutingTableRow := mkRoutingTableRow {
  tr_route : RouteRowSql; tr_model : ModelRowSql; tr_provider : ProviderRowSql;
}.

Definition routing_table_row_to_entry (r : RoutingTableRow) : dbr RoutingEntry :=
  let? role := of_core (from_str (sr_role (tr_route r))) in
  let? strategy := of_core (from_str (sr_strategy (tr_route r))) in
  let? kind := of_core (from_str (sp_kind (tr_provider r))) in
  let? data_class := of_core (from_str (sm_data_class (tr_model r))) in
  let rt := tr_route r in let m := tr_model r in let p := tr_provider r in
  Ok (mkRoutingEntry (sr_tenant_id rt) role (sr_tier rt) strategy (sr_spill_ms rt)
        (mkProviderRow (sp_id p) (sp_name p) kind (sp_endpoint p) (sp_headers p) (sp_enabled p)
           (sp_api_key_enc p))
        (mkModelRow (sm_id m) (sm_provider_id m) (sm_model_id m) (sm_caps m) (sm_ctx_tokens m)
           (sm_max_conc m) (sm_rpm m) (sm_tpm m) (sm_price_in m) (sm_price_out m) data_class
           (sm_enabled m))).

(** [routes r JOIN models m ON r.model_id = m.id AND m.enabled JOIN providers
    p ON m.provider_id = p.id AND p.enabled ORDER BY ..]. *)
Definition join_rows (db : RoutingDb) : list RoutingTableRow :=
  sort_by (λ a b, route_order_leb (tr_route a) (tr_route b))
    (routes db ≫= λ r,
       filter (λ m, sr_model_id r = sm_id m ∧ sm_enabled m = true) (models db) ≫= λ m,
         mkRoutingTableRow r m <$>
           filter (λ p, sm_provider_id m = sp_id p ∧ sp_enabled p = true) (providers db)).

Definition override_key (r : RoutingTableRow) : string * Z * Z :=
  (sr_role (tr_route r), sr_tier (tr_route r), sm_id (tr_model r)).

Definition tenant_keys (rows : list RoutingTableRow) : gset (string * Z * Z) :=
  list_to_set (override_key <$> filter (λ r, is_Some (sr_tenant_id (tr_route r))) rows).

(** The override filter. *)
Definition keep_row (keys : gset (string * Z * Z)) (r : RoutingTableRow) : Prop :=
  is_Some (sr_tenant_id (tr_route r)) ∨ override_key r ∉ keys.
#[global] Instance keep_row_dec keys r : Decision (keep_row keys r).
Proof. unfold keep_row. apply _. Defined.

Definition get_routing_table (db : RoutingDb) : dbr (list RoutingEntry) :=
  let? _ := admin_pool db in
  let rows := join_rows db in
  collect routing_table_row_to_entry (filter (keep_row (tenant_keys rows)) rows).

(** ** The administrator's operations as one type *)

Inductive routing_op :=
| CreateProvider (name : string) (kind : ProviderKind) (endpoint : option string) (headers : json)
| UpdateProvider (id : Z) (name : option string) (kind : option ProviderKind)
    (endpoint : option (option string)) (headers : option json)
| EnableProvider (id : Z) | DisableProvider (id : Z)
| CreateModel (provider_id : Z) (model_id : string) (caps : list string)
    (ctx_tokens max_conc rpm tpm : option Z) (price_in price_out : option f64)
    (data_class : DataClass)
| UpdateModel (id : Z) (provider_id : option Z) (model_id : option string)
    (caps : option (list string)) (ctx_tokens max_conc rpm tpm : option (option Z))
    (price_in price_out : option (option f64)) (data_class : option DataClass)
| EnableModel (id : Z) | DisableModel (id : Z)
| CreateRoute (tenant_id : option Z) (role : Role) (tier : Z) (strategy : RoutingStrategy)
    (spill_ms model_id : Z)
| UpdateRoute (id : Z) (tier : option Z) (strategy : option RoutingStrategy)
    (spill_ms model_id : option Z)
| DeleteRoute (id : Z).

Definition apply_op (db : RoutingDb) (op : routing_op) : dbr RoutingDb :=
  match op with
  | CreateProvider n k e h => let? x := create_provider db n k e h in Ok x.2
  | UpdateProvider id n k e h => update_provider db id n k e h
  | EnableProvider id => let? x := enable_provider db id in Ok x.2
  | DisableProvider id => let? x := disable_provider db id in Ok x.2
  | CreateModel p m c ct mc rpm tpm pi po dc =>
      let? x := create_model db p m c ct mc rpm tpm pi po dc in Ok x.2
  | UpdateModel id p m c ct mc rpm tpm pi po dc => update_model db id p m c ct mc rpm tpm pi po dc
  | EnableModel id => let? x := enable_model db id in Ok x.2
  | DisableModel id => let? x := disable_model db id in Ok x.2
  | CreateRoute t r tier s sp m => let? x := create_route db t r tier s sp m in Ok x.2
  | UpdateRoute id tier s sp m => update_route db id tier s sp m
  | DeleteRoute id => let? x := delete_route db id in Ok x.2
  end.

(** A failed statement leaves the database as it was. *)
Fixpoint run_ops (db : RoutingDb) (ops : list routing_op) : RoutingDb :=
  match ops with
  | [] => db
  | op :: ops => run_ops (match apply_op db op with Ok db' => db' | Err _ => db end) ops
  end.

Definition empty_db : RoutingDb := mkRoutingDb true [] 1 [] 1 [] 1.

(** ** Invariant *)

Definition table_ok {A} (idf : A -> Z) (next : Z) (rows : list A) : Prop :=
  NoDup (idf <$> rows) ∧ Forall (λ r, idf r < next) rows.

Definition provider_ok (r : ProviderRowSql) : Prop := is_ok (from_str (T:=ProviderKind) (sp_kind r)).
Definition model_ok (r : ModelRowSql) : Prop := is_ok (from_str (T:=DataClass) (sm_data_class r)).
Definition route_ok (r : RouteRowSql) : Prop :=
  is_ok (from_str (T:=Role) (sr_role r)) ∧ is_ok (from_str (T:=RoutingStrategy) (sr_strategy r)).

(** No two routes of the same tenant share (role, tier, model). *)
Definition route_unique (rows : list RouteRowSql) : Prop :=
  ∀ r r', r ∈ rows -> r' ∈ rows ->
    route_conflict (sr_tenant_id r) (sr_role r) (sr_tier r) (sr_model_id r) r' ->
    sr_id r = sr_id r'.

Record wf_db (db : RoutingDb) : Prop := {
  wf_providers : table_ok sp_id (next_provider db) (providers db);
  wf_models : table_ok sm_id (next_model db) (models db);
  wf_routes : table_ok sr_id (next_route db) (routes db);
  wf_provider_checks : Forall provider_ok (providers db);
  wf_model_checks : Forall model_ok (models db);
  wf_route_checks : Forall route_ok (routes db);
  wf_model_fk : Forall (λ m, sm_provider_id m ∈ sp_id <$> providers db) (models db);
  wf_route_fk : Forall (λ r, sr_model_id r ∈ sm_id <$> models db) (routes db);
  wf_route_unique : route_unique (routes db);
}.

Section tables.
Context {A : Type} (idf : A -> Z).

Lemma table_ok_insert next rows r :
  idf r = next -> table_ok idf next rows -> table_ok idf (next + 1) (rows ++ [r]).
Proof.
  intros Hr [Hnd Hlt]. split.
  - rewrite fmap_app. apply NoDup_app. split_and!; [done| |apply NoDup_singleton].
    intros x Hx. simpl. rewrite list_elem_of_singleton. intros ->.
    apply list_elem_of_fmap_1 in Hx as (y&Heq&Hy). rewrite Forall_forall in Hlt.
    specialize (Hlt y Hy). lia.
  - apply Forall_app. split; [|constructor; [lia|done]].
    eapply Forall_impl; [done|]. simpl. lia.
Qed.

Lemma update_where_ids id f rows :
  (∀ r, idf (f r) = idf r) -> idf <$> update_where idf id f rows = idf <$> rows.
Proof.
  intros Hf. unfold update_where. rewrite <-list_fmap_compose. apply list_fmap_ext.
  intros i r _. simpl. case_decide; auto.
Qed.

Lemma update_where_Forall (P Q : A -> Prop) id f rows :
  (∀ r, P r -> Q r) -> (∀ r, P r -> idf r = id -> Q (f r)) ->
  Forall P rows -> Forall Q (update_where idf id f rows).
Proof.
  intros HPQ Hf Hall. unfold update_where. rewrite Forall_fmap.
  eapply Forall_impl; [done|]. intros r Hr. simpl. case_decide; auto.
Qed.

Lemma table_ok_update next id f rows :
  (∀ r, idf (f r) = idf r) -> table_ok idf next rows ->
  table_ok idf next (update_where idf id f rows).
Proof.
  intros Hf [Hnd Hlt]. split; [by rewrite update_where_ids|].
  eapply update_where_Forall; [| |done]; [done|]. intros. by rewrite Hf.
Qed.

Lemma table_ok_filter next (P : A -> Prop) `{!∀ x, Decision (P x)} rows :
  table_ok idf next rows -> table_ok idf next (filter P rows).
Proof.
  intros [Hnd Hlt]. split; [|by apply filter_Forall].
  eapply sublist_NoDup; [done|]. apply fmap_sublist, sublist_filter.
Qed.

Lemma fetch_optional_Some id rows r :
  fetch_optional idf id rows = Some r -> r ∈ rows ∧ idf r = id.
Proof.
  unfold fetch_optional. intros H. destruct (filter _ rows) eqn:E; simplify_eq/=.
  assert (r ∈ filter (λ r, idf r = id) rows) as [??]%list_elem_of_filter; [|done].
  rewrite E. set_solver.
Qed.
End tables.

Lemma is_ok_as_str {T} `{StrEnumOk T} (v : T) : is_ok (from_str (T:=T) (as_str v)).
Proof. by rewrite from_str_as_str. Qed.
#[export] Hint Resolve is_ok_as_str : kb.

Lemma NoDup_ids_inj {A} (idf : A -> Z) rows r r' :
  NoDup (idf <$> rows) -> r ∈ rows -> r' ∈ rows -> idf r = idf r' -> r = r'.
Proof.
  intros Hnd [i Hi]%list_elem_of_lookup [j Hj]%list_elem_of_lookup Heq.
  assert (i = j) as <-; [|congruence].
  eapply NoDup_lookup; [done| |]; rewrite list_lookup_fmap; [by rewrite Hi|].
  rewrite Hj. simpl. by rewrite Heq.
Qed.

(** ** Every operation keeps the invariant *)

Lemma admin_pool_Ok db u : admin_pool db = Ok u -> admin db = true.
Proof. unfold admin_pool. by destruct (admin db). Qed.

Ltac unfold_op H :=
  repeat match type of H with
  | result_bind (admin_pool ?db) _ = _ =>
      let E := fresh "Hadm" in destruct (admin_pool db) eqn:E; [|discriminate H]; simpl in H
  | result_bind ?r _ = Ok _ =>
      let E := fresh "E" in destruct r eqn:E; [|discriminate H]; simpl in H
  | (if decide ?P then _ else _) = Ok _ => destruct (decide P); simpl in H; try discriminate H
  end.

Lemma create_provider_wf db n k e h id db' :
  create_provider db n k e h = Ok (id, db') -> wf_db db -> wf_db db'.
Proof.
  unfold create_provider. intros H [? ? ? Hp ? ? Hfk ? ?]. unfold_op H. simplify_eq/=.
  split; simpl; try done; [by apply table_ok_insert| |].
  - apply Forall_app. split; [done|]. constructor; [|done]. apply is_ok_as_str.
  - eapply Forall_impl; [done|]. set_solver.
Qed.

Lemma providers_update_wf db id f :
  (∀ r, sp_id (f r) = sp_id r) -> (∀ r, provider_ok r -> provider_ok (f r)) ->
  wf_db db -> wf_db (set_providers db (update_where sp_id id f (providers db))).
Proof.
  intros Hid Hf []. split; simpl; try done.
  - by apply table_ok_update.
  - eapply update_where_Forall; [| |done]; auto.
  - by rewrite update_where_ids.
Qed.

Lemma update_provider_wf db id n k e h db' :
  update_provider db id n k e h = Ok db' -> wf_db db -> wf_db db'.
Proof.
  unfold update_provider. intros H Hwf. unfold_op H. simplify_eq/=.
  apply providers_update_wf; [done| |done]. intros. apply is_ok_as_str.
Qed.

Lemma set_provider_enabled_wf b db id n db' :
  set_provider_enabled b db id = Ok (n, db') -> wf_db db -> wf_db db'.
Proof.
  unfold set_provider_enabled. intros H Hwf. unfold_op H. simplify_eq/=.
  by apply providers_update_wf.
Qed.

Lemma create_model_wf db p m c ct mc rpm tpm pi po dc id db' :
  create_model db p m c ct mc rpm tpm pi po dc = Ok (id, db') -> wf_db db -> wf_db db'.
Proof.
  unfold create_model. intros H []. unfold_op H. simplify_eq/=.
  split; simpl; try done; [by apply table_ok_insert| | |].
  - apply Forall_app. split; [done|]. constructor; [|done]. apply is_ok_as_str.
  - apply Forall_app. split; [done|]. by constructor.
  - eapply Forall_impl; [done|]. set_solver.
Qed.

Lemma models_update_wf db id f :
  (∀ r, sm_id (f r) = sm_id r) -> (∀ r, model_ok r -> model_ok (f r)) ->
  (∀ r, r ∈ models db -> sm_id r = id -> sm_provider_id (f r) ∈ sp_id <$> providers db) ->
  wf_db db -> wf_db (set_models db (update_where sm_id id f (models db))).
Proof.
  intros Hid Hf Hfk [? ? ? ? ? ? Hmfk ? ?]. split; simpl; try done.
  - by apply table_ok_update.
  - eapply (update_where_Forall _ model_ok); [| |done]; auto.
  - rewrite Forall_forall in Hmfk. apply Forall_forall. intros r Hr.
    apply list_elem_of_fmap_1 in Hr as (r0&->&Hr0). simpl. case_decide; auto.
  - by rewrite update_where_ids.
Qed.

Lemma update_model_wf db id p m c ct mc rpm tpm pi po dc db' :
  update_model db id p m c ct mc rpm tpm pi po dc = Ok db' -> wf_db db -> wf_db db'.
Proof.
  unfold update_model. intros H Hwf. unfold_op H. simplify_eq/=.
  apply models_update_wf; try done. intros. apply is_ok_as_str.
Qed.

Lemma set_model_enabled_wf b db id n db' :
  set_model_enabled b db id = Ok (n, db') -> wf_db db -> wf_db db'.
Proof.
  unfold set_model_enabled. intros H Hwf. unfold_op H. simplify_eq/=.
  apply models_update_wf; try done. intros r Hr _. simpl.
  by apply (proj1 (Forall_forall _ _) (wf_model_fk _ Hwf)).
Qed.

Lemma create_route_wf db t r tier s sp m id db' :
  create_route db t r tier s sp m = Ok (id, db') -> wf_db db -> wf_db db'.
Proof.
  unfold create_route. intros H [? ? ? ? ? ? ? ? Hu]. unfold_op H. simplify_eq/=.
  split; simpl; try done; [by apply table_ok_insert| | |].
  - apply Forall_app. split; [done|]. constructor; [|done]. split; apply is_ok_as_str.
  - apply Forall_app. split; [done|]. by constructor.
  - rename select (¬ Exists _ _) into Hno.
    intros x y [Hx| ->%list_elem_of_singleton]%elem_of_app
      [Hy| ->%list_elem_of_singleton]%elem_of_app Hc; simpl in *.
    + by apply Hu.
    + destruct Hno. apply Exists_exists. exists x. split; [done|].
      unfold route_conflict in *. simpl in *. destruct Hc as (?&->&->&->&->). done.
    + destruct Hno. apply Exists_exists. eauto.
    + done.
Qed.

Lemma get_route_Ok db id r :
  get_route db id = Ok (Some r) ->
  ∃ s, s ∈ routes db ∧ sr_id s = id ∧ r_tenant_id r = sr_tenant_id s ∧
       as_str (r_role r) = sr_role s ∧ r_tier r = sr_tier s ∧ r_model_id r = sr_model_id s.
Proof.
  unfold get_route. intros H. unfold_op H.
  destruct (fetch_optional sr_id id (routes db)) as [s|] eqn:Hf; simpl in H; [|done].
  apply fetch_optional_Some in Hf as [? <-]. exists s. split_and!; [done..| | | |];
    unfold route_from_sql, of_core in H; case_all; simplify_eq/=; try done.
  match goal with E : from_str (sr_role s) = Ok _ |- _ => by apply from_str_Ok in E end.
Qed.

Lemma ok_or_Ok {A E} (o : option A) (e : E) a : ok_or o e = Ok a -> o = Some a.
Proof. destruct o; simpl; congruence. Qed.

Lemma update_route_wf db id tier s sp m db' :
  update_route db id tier s sp m = Ok db' -> wf_db db -> wf_db db'.
Proof.
  unfold update_route. intros H [? ? [Hnd ?] ? ? Hrc ? Hrfk Hu]. unfold_op H. simplify_eq/=.
  apply ok_or_Ok in E0 as ->. apply get_route_Ok in E as (cur&Hcur&Hid&Ht&Hr&_).
  rename select (¬ Exists _ _) into Hno. set (f := λ r : RouteRowSql, _).
  split; simpl; try done.
  - by apply table_ok_update.
  - eapply (update_where_Forall _ route_ok); [done| |done]. intros r [? _] _. split; [done|].
    apply is_ok_as_str.
  - by eapply (update_where_Forall _ (λ r, sr_model_id r ∈ sm_id <$> models db)).
  - assert (Hcases : ∀ x, x ∈ update_where sr_id id f (routes db) ->
      (x ∈ routes db ∧ sr_id x <> id) ∨ x = f cur).
    { intros x (r&->&Hin)%list_elem_of_fmap_1. simpl. case_decide; [|auto].
      right. f_equal. by eapply (NoDup_ids_inj sr_id); [| | |congruence]. }
    intros x y Hx%Hcases Hy%Hcases Hc.
    destruct Hx as [[Hx Hxi]| ->], Hy as [[Hy Hyi]| ->]; [by apply Hu| | |done].
    + destruct Hno. apply Exists_exists. exists x. split; [done|]. split; [done|].
      unfold route_conflict in *. simpl in *. rewrite Ht, Hr. destruct Hc as (?&->&->&->&->). done.
    + destruct Hno. apply Exists_exists. exists y. split; [done|]. split; [done|].
      unfold route_conflict in *. simpl in *. by rewrite Ht, Hr.
Qed.

Lemma delete_route_wf db id n db' : delete_route db id = Ok (n, db') -> wf_db db -> wf_db db'.
Proof.
  unfold delete_route. intros H []. unfold_op H. simplify_eq/=.
  split; simpl; try done; [by apply table_ok_filter|by apply filter_Forall..|].
  intros x y [_ ?]%list_elem_of_filter [_ ?]%list_elem_of_filter. auto.
Qed.

Lemma apply_op_wf db op db' : apply_op db op = Ok db' -> wf_db db -> wf_db db'.
Proof.
  destruct op; simpl; intros H;
    repeat match type of H with result_bind ?r _ = _ =>
      destruct r as [[??]|] eqn:?; [|discriminate H]; simpl in H; simplify_eq end;
    eauto using create_provider_wf, update_provider_wf, set_provider_enabled_wf, create_model_wf,
      update_model_wf, set_model_enabled_wf, create_route_wf, update_route_wf, delete_route_wf.
Qed.

Lemma empty_db_wf : wf_db empty_db.
Proof. split; try (by constructor); try (by split; constructor). intros ?? H. inversion H. Qed.

Lemma run_ops_wf ops db : wf_db db -> wf_db (run_ops db ops).
Proof.
  revert db. induction ops as [|op ops IH]; intros db Hwf; simpl; [done|].
  apply IH. destruct (apply_op db op) eqn:E; [by eapply apply_op_wf|done].
Qed.

(** ** What the routing query returns *)

Definition joined (db : RoutingDb) (row : RoutingTableRow) : Prop :=
  tr_route row ∈ routes db ∧ tr_model row ∈ models db ∧ tr_provider row ∈ providers db ∧
  sr_model_id (tr_route row) = sm_id (tr_model row) ∧ sm_enabled (tr_model row) = true ∧
  sm_provider_id (tr_model row) = sp_id (tr_provider row) ∧ sp_enabled (tr_provider row) = true.

(** Some tenant has an enabled route for the same (role, tier, model). *)
Definition overridden (db : RoutingDb) (row : RoutingTableRow) : Prop :=
  ∃ row', joined db row' ∧ is_Some (sr_tenant_id (tr_route row')) ∧
          override_key row' = override_key row.

Lemma join_rows_spec db row : row ∈ join_rows db <-> joined db row.
Proof.
  unfold join_rows, joined. rewrite sort_by_elem_of, list_elem_of_bind.
  setoid_rewrite list_elem_of_bind. setoid_rewrite list_elem_of_fmap.
  setoid_rewrite list_elem_of_filter. destruct row as [r m p]. simpl. naive_solver.
Qed.

Lemma tenant_keys_spec db row :
  override_key row ∈ tenant_keys (join_rows db) <-> overridden db row.
Proof.
  unfold tenant_keys, overridden. rewrite elem_of_list_to_set, list_elem_of_fmap.
  setoid_rewrite list_elem_of_filter. setoid_rewrite join_rows_spec.
  split; intros (row'&?&?&?); exists row'; auto.
Qed.

Section collect.
Context {A B : Type} (f : A -> dbr B).

Lemma collect_Ok l : Forall (λ x, is_ok (f x)) l -> ∃ ys, collect f l = Ok ys.
Proof.
  induction 1 as [|x l Hx _ [ys IH]]; simpl; [eauto|].
  destruct (f x); [|done]. simpl. rewrite IH. simpl. eauto.
Qed.

Lemma collect_elem l ys y :
  collect f l = Ok ys -> y ∈ ys <-> ∃ x, x ∈ l ∧ f x = Ok y.
Proof.
  revert ys. induction l as [|x l IH]; simpl; intros ys H; [simplify_eq; set_solver|].
  destruct (f x) as [z|] eqn:Hz; [|done]. simpl in H.
  destruct (collect f l) as [zs|]; [|done]. simpl in H. simplify_eq.
  rewrite elem_of_cons, IH by done. setoid_rewrite elem_of_cons. split.
  - intros [->|(x'&?&?)]; eauto.
  - intros (x'&[->|?]&Hx'); [left; congruence|eauto].
Qed.
End collect.

Lemma row_to_entry_ok db row : wf_db db -> joined db row -> is_ok (routing_table_row_to_entry row).
Proof.
  intros [_ _ _ Hp Hm Hr _ _ _] (Hin1&Hin2&Hin3&_).
  rewrite Forall_forall in Hp; rewrite Forall_forall in Hm; rewrite Forall_forall in Hr.
  apply Hr in Hin1 as [Hrole Hstrat].
  apply Hm in Hin2. apply Hp in Hin3. unfold provider_ok, model_ok in *.
  unfold routing_table_row_to_entry, of_core. case_all; done.
Qed.

Lemma get_routing_table_spec db :
  wf_db db -> admin db = true ->
  ∃ es, get_routing_table db = Ok es ∧
    ∀ e, e ∈ es <-> ∃ row, joined db row ∧ routing_table_row_to_entry row = Ok e ∧
                     (is_Some (re_tenant_id e) ∨ ~ overridden db row).
Proof.
  intros Hwf Hadm. unfold get_routing_table, admin_pool. rewrite Hadm. simpl.
  destruct (collect_Ok routing_table_row_to_entry
    (filter (keep_row (tenant_keys (join_rows db))) (join_rows db))) as [es Hes].
  { apply Forall_forall. intros row [_ Hrow]%list_elem_of_filter.
    apply join_rows_spec in Hrow. by eapply row_to_entry_ok. }
  exists es. split; [done|]. intros e. rewrite (collect_elem _ _ _ _ Hes).
  setoid_rewrite list_elem_of_filter. setoid_rewrite join_rows_spec.
  assert (Ht : ∀ row, routing_table_row_to_entry row = Ok e ->
    re_tenant_id e = sr_tenant_id (tr_route row)).
  { intros row. unfold routing_table_row_to_entry, of_core. intros H. case_all. done. }
  unfold keep_row. setoid_rewrite tenant_keys_spec.
  split; [intros (row&[Hk ?]&He)|intros (row&?&He&Hk)]; exists row;
    rewrite (Ht row He) in *; auto.
Qed.

Lemma apply_op_admin db op db' : apply_op db op = Ok db' -> admin db' = admin db.
Proof.
  destruct op; simpl; intros H;
    unfold create_provider, update_provider, enable_provider, disable_provider,
      set_provider_enabled, create_model, update_model, enable_model, disable_model,
      set_model_enabled, create_route, update_route, delete_route in H;
    unfold_op H; try unfold_op E; simplify_eq/=; done.
Qed.

Lemma run_ops_admin ops db : admin db = true -> admin (run_ops db ops) = true.
Proof.
  revert db. induction ops as [|op ops IH]; intros db Ha; simpl; [done|]. apply IH.
  destruct (apply_op db op) eqn:E; [|done]. by rewrite (apply_op_admin _ _ _ E).
Qed.

(** ** Properties *)

(** Schema invariant: after any sequence of administrator operations,
    failed ones included, ids are unique and below their sequence, every
    enumeration column parses, no model or route refers to a missing row, and
    no tenant has two routes with the same role, tier and model. *)
Theorem routing_db_invariant (ops : list routing_op) : wf_db (run_ops empty_db ops).
Proof. apply run_ops_wf, empty_db_wf. Qed.

(** On every reachable database the routing query succeeds, and returns
    exactly the routes whose model and provider exist and are enabled: every
    tenant route, and each global route no tenant overrides. *)
Theorem get_routing_table_exact (ops : list routing_op) :
  let db := run_ops empty_db ops in
  ∃ es, get_routing_table db = Ok es ∧
    ∀ e, e ∈ es <-> ∃ row, joined db row ∧ routing_table_row_to_entry row = Ok e ∧
                     (is_Some (re_tenant_id e) ∨ ~ overridden db row).
Proof.
  intros db. apply get_routing_table_spec; [|by apply run_ops_admin].
  apply run_ops_wf, empty_db_wf.
Qed.

(** One tenant's override takes the global route away from every other
    tenant: when each enabled global route of a role is overridden by some
    tenant, a tenant with no route of its own for that role is left with no
    tier at all, although the documentation promises that the global entry is
    still returned for all other tenants. *)
Theorem override_starves_other_tenants (ops : list routing_op) (b : Z) (role : Role) :
  let db := run_ops empty_db ops in
  Forall (λ r, in_ty i32 (sr_tier r) ∧ 0 <= sr_tier r) (routes db) ->
  Forall (λ r, sr_tenant_id r <> Some b ∨ sr_role r <> as_str role) (routes db) ->
  (∀ row, joined db row -> sr_role (tr_route row) = as_str role ->
          sr_tenant_id (tr_route row) = None -> overridden db row) ->
  ∃ es t, get_routing_table db = Ok es ∧ from_entries es = Some t ∧
          tiers_for t (Some b) role = [].
Proof.
  intros db Htier Hb Hover.
  destruct (get_routing_table_spec db) as (es&Hes&Hspec);
    [apply run_ops_wf, empty_db_wf|by apply run_ops_admin|].
  assert (Hrow : ∀ e, e ∈ es -> ∃ row, joined db row ∧ re_tenant_id e = sr_tenant_id (tr_route row)
    ∧ as_str (re_role e) = sr_role (tr_route row) ∧ re_tier e = sr_tier (tr_route row) ∧
    (is_Some (re_tenant_id e) ∨ ~ overridden db row)).
  { intros e (row&Hj&He&Hk)%Hspec. exists row. split_and!; [done| | | |done];
      unfold routing_table_row_to_entry, of_core in He; case_all; [done| |done].
    match goal with E : from_str (sr_role _) = Ok _ |- _ => by apply from_str_Ok in E end. }
  rewrite Forall_forall in Htier; rewrite Forall_forall in Hb.
  destruct (from_entries_grouped es) as (t&Ht&Hg).
  { apply Forall_forall. intros e (row&(Hin&_)&_&_&->&_)%Hrow. by apply Htier. }
  exists es, t. split_and!; [done..|]. unfold tiers_for.
  assert (Hnone : ∀ k, k.2 = role -> (∀ e, e ∈ es -> entry_key e <> k) -> t !! k = None).
  { intros k _ Hk. specialize (Hg k). destruct (t !! k); [|done].
    destruct Hg as [(e&He&Heq)%Exists_exists _]. by destruct (Hk e He). }
  rewrite !Hnone; [done|done| |done|].
  - intros e He [= Hten <-]. apply Hrow in He as (row&Hj&Ht0&Hr&_&[[??]|Hno]); [congruence|].
    apply Hno, Hover; [done|congruence..].
  - intros e He [= Hten <-]. apply Hrow in He as (row&(Hin&_)&Ht0&Hr&_).
    destruct (Hb _ Hin) as [H|H]; apply H; congruence.
Qed.

Definition demo_ops : list routing_op :=
  [CreateProvider "llama" LocalProvider (Some "http://localhost:8001/v1") (JObj []);
   CreateModel 1 "qwen" ["text"] None (Some 2) None None None None Local;
   CreateRoute None Text 0 LeastLoaded 800 1;
   CreateRoute (Some 7) Text 0 RoundRobin 500 1].

Lemma override_starves_other_tenants_witness :
  ∃ es t, get_routing_table (run_ops empty_db demo_ops) = Ok es ∧ from_entries es = Some t ∧
          tiers_for t (Some 9) Text = [].
Proof.
  apply (override_starves_other_tenants demo_ops 9 Text).
  - apply (bool_decide_unpack _). vm_compute. done.
  - apply (bool_decide_unpack _). vm_compute. done.
  - intros row Hj _ Hnone. pose proof Hj as (Hr&Hm&Hp&_).
    exists (mkRoutingTableRow (mkRouteRowSql 2 (Some 7) "text" 0 "round_robin" 500 1)
              (tr_model row) (tr_provider row)).
    destruct row as [r m p]. cbn in Hr, Hm, Hp, Hnone.
    apply elem_of_cons in Hr as [->|Hr]; [|apply list_elem_of_singleton in Hr as ->; discriminate].
    apply list_elem_of_singleton in Hm as ->, Hp as ->.
    split; [|split; [by eexists|reflexivity]].
    unfold joined. cbn. split_and!; try reflexivity; repeat (constructor; try reflexivity).
Defined.
