(* ===== verification/JobQueue.v ===== *)
(** * The durable job queue

    Models [pipeline/src/job_queue.rs], [pipeline/src/job_lease.rs],
    [pipeline/src/job_aging.rs] and the job operations of
    [store/src/admin_queries.rs] and [store/src/ingest_staging.rs].  The
    database is the [jobs] table with the [documents] and [files] statuses the
    dead-letter hook writes; every SQL statement is one function on it.
    Timestamps are microseconds, and each operation takes the value of
    [now()] it runs at.  chrono's and Postgres' timestamp ranges (hundreds of
    thousands of years) are not modelled. *)

From stdpp Require Import base gmap list strings.
From Stdlib Require Import ZArith Lia.
From S2P Require Import Prelude StableSort Role.
Open Scope Z_scope.

(** ** Data *)

Record Job := mkJob {
  j_id : Z;
  j_tenant_id : Z;
  j_file_id : option Z;
  j_document_id : option Z;
  j_kind : JobKind;
  j_priority : Z;
  j_status : JobStatus;
  j_attempts : Z;
  j_last_error : option string;
  j_run_after : Z;
  j_created_at : Z;
  j_created_by : option Z;
}.
#[global] Instance Job_eq_dec : EqDecision Job.
Proof. solve_decision. Defined.

(** A row of [jobs]: the columns of [Job] and the two lease columns. *)
Record JobRow := mkJobRow {
  row_job : Job;
  lease_expires_at : option Z;
  locked_by : option string;
}.

Record DocRow := mkDocRow { doc_tenant : Z; doc_status : ProcessingStatus }.
Record FileRow := mkFileRow { file_tenant : Z; file_document : Z; file_status : ProcessingStatus }.

(** The audit event of a priority change. *)
Record PriorityChange := mkPriorityChange {
  pc_actor : Z; pc_tenant : Z; pc_job : Z; pc_old : Z; pc_new : Z;
}.

Record JobDb := mkJobDb {
  jobs : gmap Z JobRow;
  next_job : Z;
  documents : gmap Z DocRow;
  files : gmap Z FileRow;
  audit : list PriorityChange;
}.

Record JobQueue := mkJobQueue {
  min_backoff_ms : Z;
  max_retries : Z;
  lease_secs : Z;
  worker_id : string;
}.

Definition DEFAULT_LEASE_SECS : Z := 600.
Definition queue_new (backoff retries : Z) (default_worker_id : string) : JobQueue :=
  mkJobQueue backoff retries DEFAULT_LEASE_SECS default_worker_id.
Definition with_lease_secs (q : JobQueue) (secs : Z) : JobQueue :=
  mkJobQueue (min_backoff_ms q) (max_retries q) (Z.max secs 1) (worker_id q).
Definition with_worker_id (q : JobQueue) (w : string) : JobQueue :=
  mkJobQueue (min_backoff_ms q) (max_retries q) (lease_secs q) w.

Definition SECOND : Z := 1000000.
Definition MILLISECOND : Z := 1000.

(** ** Backoff and aging *)

(** The duration in milliseconds. *)
Definition calculate_backoff (attempts min_backoff : Z) : Z :=
  let shift := Z.min (Z.max attempts 1 - 1) 30 in
  saturating_mul i64 min_backoff (Z.shiftl 1 shift).

Definition AGING_STEP_SECS : Z := 3600.
Definition effective_priority (priority age_seconds : Z) : Z :=
  priority + Z.max age_seconds 0 / AGING_STEP_SECS.

(** [priority + FLOOR(EXTRACT(EPOCH FROM (now() - created_at)) / 3600)]. *)
Definition sql_priority (now : Z) (j : Job) : Z :=
  j_priority j + (now - j_created_at j) / (AGING_STEP_SECS * SECOND).

(** ** Column updates *)

Definition set_status (s : JobStatus) (j : Job) : Job :=
  mkJob (j_id j) (j_tenant_id j) (j_file_id j) (j_document_id j) (j_kind j) (j_priority j) s
    (j_attempts j) (j_last_error j) (j_run_after j) (j_created_at j) (j_created_by j).
Definition set_retry (attempts : Z) (err : option string) (run_after : Z) (j : Job) : Job :=
  mkJob (j_id j) (j_tenant_id j) (j_file_id j) (j_document_id j) (j_kind j) (j_priority j)
    (j_status j) attempts err run_after (j_created_at j) (j_created_by j).
Definition set_priority (p : Z) (j : Job) : Job :=
  mkJob (j_id j) (j_tenant_id j) (j_file_id j) (j_document_id j) (j_kind j) p
    (j_status j) (j_attempts j) (j_last_error j) (j_run_after j) (j_created_at j)
    (j_created_by j).

Definition set_jobs (db : JobDb) (js : gmap Z JobRow) : JobDb :=
  mkJobDb js (next_job db) (documents db) (files db) (audit db).

Definition status_of (db : JobDb) (id : Z) : option JobStatus :=
  (λ r, j_status (row_job r)) <$> jobs db !! id.

(** ** Enqueue and claim *)

Definition enqueue (db : JobDb) (now tenant : Z) (created_by file document : option Z)
    (kind : JobKind) (priority : Z) : Z * JobDb :=
  let id := next_job db in
  let j := mkJob id tenant file document kind priority Queued 0 None now now created_by in
  (id, mkJobDb (<[id := mkJobRow j None None]> (jobs db)) (id + 1) (documents db) (files db)
         (audit db)).

(** The inner [WHERE]; [SKIP LOCKED] leaves out the rows other transactions
    hold, given as [locked]. *)
Definition claimable_status (s : JobStatus) : bool :=
  match s with Queued | JobFailed => true | _ => false end.
Definition eligible (now : Z) (kinds : list JobKind) (locked : gset Z) (r : JobRow) : Prop :=
  claimable_status (j_status (row_job r)) = true ∧ j_run_after (row_job r) <= now ∧
  (kinds = [] ∨ j_kind (row_job r) ∈ kinds) ∧ j_id (row_job r) ∉ locked.
#[global] Instance eligible_dec now kinds locked r : Decision (eligible now kinds locked r).
Proof. unfold eligible. apply _. Defined.

(** [ORDER BY effective DESC, run_after ASC, id ASC]. *)
Definition claim_leb (now : Z) (a b : JobRow) : bool :=
  let pa := sql_priority now (row_job a) in let pb := sql_priority now (row_job b) in
  let ra := j_run_after (row_job a) in let rb := j_run_after (row_job b) in
  (pb <? pa) || ((pa =? pb) && ((ra <? rb) || ((ra =? rb) && (j_id (row_job a) <=? j_id (row_job b))))).

Definition claim_candidate (db : JobDb) (now : Z) (kinds : list JobKind) (locked : gset Z)
    : option JobRow :=
  head (sort_by (claim_leb now)
    (filter (eligible now kinds locked) (snd <$> map_to_list (jobs db)))).

Definition claim_kinds (q : JobQueue) (db : JobDb) (now : Z) (kinds : list JobKind)
    (locked : gset Z) : option Job * JobDb :=
  match claim_candidate db now kinds locked with
  | None => (None, db)
  | Some r =>
      let j := set_status Running (row_job r) in
      (Some j, set_jobs db (<[j_id j := mkJobRow j (Some (now + lease_secs q * SECOND))
                                           (Some (worker_id q))]> (jobs db)))
  end.
Definition claim (q : JobQueue) (db : JobDb) (now : Z) (locked : gset Z) : option Job * JobDb :=
  claim_kinds q db now [] locked.

(** ** Completion and recovery *)

(** [UPDATE jobs SET .. WHERE id = $1 AND p]: the update and the row count. *)
Definition update_job (db : JobDb) (id : Z) (p : JobRow -> bool) (f : JobRow -> JobRow)
    : bool * JobDb :=
  match jobs db !! id with
  | Some r => if p r then (true, set_jobs db (<[id := f r]> (jobs db))) else (false, db)
  | None => (false, db)
  end.

Definition is_running (r : JobRow) : bool := bool_decide (j_status (row_job r) = Running).

Definition complete (db : JobDb) (id : Z) : JobDb :=
  (update_job db id is_running
     (λ r, mkJobRow (set_status Done (row_job r)) (lease_expires_at r) (locked_by r))).2.

Definition LEASE_EXPIRED_ERROR : string := "lease expired — worker presumed crashed".

Definition requeue_crashed (db : JobDb) (now id : Z) : JobDb :=
  (update_job db id is_running
     (λ r, let j := row_job r in
        mkJobRow (set_retry (j_attempts j) (Some LEASE_EXPIRED_ERROR) now
                    (set_status JobFailed j)) None None)).2.

Definition orphaned (q : JobQueue) (r : JobRow) : bool :=
  is_running r &&
  match locked_by r with Some w => bool_decide (w <> worker_id q) | None => false end.

Definition orphan_sweep (q : JobQueue) (db : JobDb) (now : Z) : nat * JobDb :=
  (size (filter (λ x, orphaned q x.2 = true) (jobs db)),
   set_jobs db ((λ r, if orphaned q r then
      let j := row_job r in
      mkJobRow (set_retry (j_attempts j) (j_last_error j) now (set_status JobFailed j)) None None
    else r) <$> jobs db)).

Definition extend_lease (q : JobQueue) (db : JobDb) (now id : Z) : bool * JobDb :=
  update_job db id
    (λ r, is_running r && bool_decide (locked_by r = Some (worker_id q)))
    (λ r, mkJobRow (row_job r) (Some (now + lease_secs q * SECOND)) (locked_by r)).

Definition REAP_BATCH : nat := 50.

Definition lease_expired (now : Z) (r : JobRow) : bool :=
  is_running r && match lease_expires_at r with Some t => t <? now | None => false end.

(** The candidate query of the reaper; it holds no lock. *)
Definition reap_candidates (db : JobDb) (now : Z) : list Z :=
  (λ r, j_id (row_job r)) <$> take REAP_BATCH
    (sort_by_key (λ r, default 0 (lease_expires_at r))
       (filter (λ r, lease_expired now r = true) (snd <$> map_to_list (jobs db)))).

(** The loop over the candidates, run without interference; [reaped] counts
    every [Ok], and [requeue_crashed] answers [Ok] also for no row. *)
Definition reap_expired_leases (db : JobDb) (now : Z) : Z * JobDb :=
  let ids := reap_candidates db now in
  (Z.of_nat (length ids), fold_left (λ db id, requeue_crashed db now id) ids db).

(** ** Failure *)

Inductive JobError :=
| JobNotFound (id : Z)
| NotRunning (id : Z) (status : JobStatus).

(** The dead-letter hook's two updates. *)
Definition fail_documents (db : JobDb) (tenant doc : Z) : JobDb :=
  mkJobDb (jobs db) (next_job db)
    (alter (λ d, if decide (doc_tenant d = tenant ∧ doc_status d <> Ready)
                 then mkDocRow (doc_tenant d) DocFailed else d) doc (documents db))
    ((λ f, if decide (file_document f = doc ∧ file_tenant f = tenant ∧ file_status f = Pending)
           then mkFileRow (file_tenant f) (file_document f) DocFailed else f) <$> files db)
    (audit db).

Definition fail_inner (q : JobQueue) (db : JobDb) (now id : Z) (error : string)
    (force_dead : bool) : result (JobStatus * JobDb) JobError :=
  match jobs db !! id with
  | None => Err (JobNotFound id)
  | Some r =>
      let j := row_job r in
      if decide (j_status j = Running) then
        let new_attempts := wrapping_add i32 (j_attempts j) 1 in
        let dead := force_dead || (max_retries q <=? new_attempts) in
        if dead then
          let row := mkJobRow (set_retry new_attempts (Some error) (j_run_after j)
                                 (set_status Dead j)) None None in
          let db' := set_jobs db (<[id := row]> (jobs db)) in
          Ok (Dead, match j_kind j, j_document_id j with
                    | Ingest, Some doc => fail_documents db' (j_tenant_id j) doc
                    | _, _ => db'
                    end)
        else
          let run_after := now + calculate_backoff new_attempts (min_backoff_ms q) * MILLISECOND in
          let row := mkJobRow (set_retry new_attempts (Some error) run_after
                                 (set_status JobFailed j)) None None in
          Ok (JobFailed, set_jobs db (<[id := row]> (jobs db)))
      else Err (NotRunning id (j_status j))
  end.
Definition fail (q : JobQueue) (db : JobDb) (now id : Z) (error : string)
    : result (JobStatus * JobDb) JobError := fail_inner q db now id error false.
Definition fail_permanent (q : JobQueue) (db : JobDb) (now id : Z) (error : string)
    : result (JobStatus * JobDb) JobError := fail_inner q db now id error true.

(** ** The worker's outcome handling *)

Definition PERMANENT_ERROR_PREFIX : string := "permanent: ".

Fixpoint strip_prefix (p s : string) : option string :=
  match p, s with
  | EmptyString, _ => Some s
  | String a p', String b s' => if Ascii.eqb a b then strip_prefix p' s' else None
  | String _ _, EmptyString => None
  end.

Arguments strip_prefix : simpl never.

(** The end of one [worker_loop] iteration: what the handler's result does to
    the queue, and the outcome label of the metric.  Errors of the queue
    operations are dropped. *)
Definition worker_finish (q : JobQueue) (db : JobDb) (now id : Z) (res : result unit string)
    : string * JobDb :=
  match res with
  | Ok _ => ("done", complete db id)
  | Err e =>
      let st := match strip_prefix PERMANENT_ERROR_PREFIX e with
                | Some msg => fail_permanent q db now id msg
                | None => fail q db now id e
                end in
      match st with
      | Ok (Dead, db') => ("dead", db')
      | Ok (_, db') => ("failed", db')
      | Err _ => ("failed", db)
      end
  end.

(** ** Administration *)

Definition in_tenant (tenant : Z) (r : JobRow) : bool :=
  bool_decide (j_tenant_id (row_job r) = tenant).

Definition admin_retry_job (db : JobDb) (now tenant id : Z) : bool * JobDb :=
  update_job db id (in_tenant tenant)
    (λ r, mkJobRow (set_retry 0 None now (set_status Queued (row_job r))) (lease_expires_at r)
            (locked_by r)).

Definition admin_delete_job (db : JobDb) (tenant id : Z) : bool * JobDb :=
  match jobs db !! id with
  | Some r => if in_tenant tenant r then (true, set_jobs db (delete id (jobs db))) else (false, db)
  | None => (false, db)
  end.

Definition push_audit (db : JobDb) (a : PriorityChange) : JobDb :=
  mkJobDb (jobs db) (next_job db) (documents db) (files db) (audit db ++ [a]).

Definition admin_update_job_priority (db : JobDb) (tenant id new_priority actor : Z)
    : bool * JobDb :=
  match jobs db !! id with
  | None => (false, db)
  | Some old =>
      if negb (in_tenant tenant old) then (false, db) else
      let '(affected, db') := update_job db id (in_tenant tenant)
        (λ r, mkJobRow (set_priority new_priority (row_job r)) (lease_expires_at r)
                (locked_by r)) in
      (affected, if affected
                 then push_audit db' (mkPriorityChange actor tenant id
                                        (j_priority (row_job old)) new_priority)
                 else db')
  end.

Inductive RetryIngestOutcome :=
| Retried (job_id : Z)
| NotRetryable (status : JobStatus)
| NoJob.

(** [ORDER BY id DESC LIMIT 1]. *)
Definition latest_ingest (db : JobDb) (tenant doc : Z) : option JobRow :=
  head (sort_by_key (λ r, - j_id (row_job r))
    (filter (λ r, j_tenant_id (row_job r) = tenant ∧ j_document_id (row_job r) = Some doc ∧
                  j_kind (row_job r) = Ingest) (snd <$> map_to_list (jobs db)))).

Definition retry_failed_ingest (db : JobDb) (now tenant doc : Z) : RetryIngestOutcome * JobDb :=
  match latest_ingest db tenant doc with
  | None => (NoJob, db)
  | Some r =>
      let j := row_job r in
      if decide (j_status j = Dead ∨ j_status j = JobFailed) then
        (Retried (j_id j),
         mkJobDb (<[j_id j := mkJobRow (set_retry 0 None now (set_status Queued j)) None None]>
                    (jobs db))
           (next_job db)
           (alter (λ d, if decide (doc_tenant d = tenant ∧ doc_status d <> Ready)
                        then mkDocRow (doc_tenant d) Pending else d) doc (documents db))
           ((λ f, if decide (file_document f = doc ∧ file_tenant f = tenant ∧
                             file_status f = DocFailed)
                  then mkFileRow (file_tenant f) (file_document f) Pending else f) <$> files db)
           (audit db))
      else (NotRetryable (j_status j), db)
  end.

(** ** Histories

    Everything that can happen to the queue, at a time; the workers share one
    configuration and differ in their id.  [EvRequeue] is one step of a
    reaper's loop: other events may come between its candidate query and it. *)

Inductive job_event :=
| EvEnqueue (tenant : Z) (created_by file document : option Z) (kind : JobKind) (priority : Z)
| EvClaim (w : string) (kinds : list JobKind) (locked : gset Z)
| EvExtend (w : string) (id : Z)
| EvFinish (w : string) (id : Z) (res : result unit string)
| EvRequeue (id : Z)
| EvSweep (w : string)
| EvAdminRetry (tenant id : Z)
| EvAdminDelete (tenant id : Z)
| EvAdminPriority (tenant id priority actor : Z)
| EvRetryIngest (tenant document : Z).

Definition step (q : JobQueue) (db : JobDb) (te : Z * job_event) : JobDb :=
  let now := te.1 in
  match te.2 with
  | EvEnqueue t c f d k p => (enqueue db now t c f d k p).2
  | EvClaim w kinds locked => (claim_kinds (with_worker_id q w) db now kinds locked).2
  | EvExtend w id => (extend_lease (with_worker_id q w) db now id).2
  | EvFinish w id res => (worker_finish (with_worker_id q w) db now id res).2
  | EvRequeue id => requeue_crashed db now id
  | EvSweep w => (orphan_sweep (with_worker_id q w) db now).2
  | EvAdminRetry t id => (admin_retry_job db now t id).2
  | EvAdminDelete t id => (admin_delete_job db t id).2
  | EvAdminPriority t id p a => (admin_update_job_priority db t id p a).2
  | EvRetryIngest t d => (retry_failed_ingest db now t d).2
  end.
Definition run (q : JobQueue) (db : JobDb) (tr : list (Z * job_event)) : JobDb :=
  fold_left (step q) tr db.

(** ** Invariant *)

Definition budget (q : JobQueue) : Z := Z.max 1 (max_retries q).

Record row_ok (q : JobQueue) (next id : Z) (r : JobRow) : Prop := {
  ok_id : j_id (row_job r) = id;
  ok_next : id < next;
  ok_attempts : 0 <= j_attempts (row_job r) <= budget q;
  ok_live : j_status (row_job r) <> Dead -> j_attempts (row_job r) < budget q;
  ok_running : j_status (row_job r) = Running -> is_Some (lease_expires_at r) ∧ is_Some (locked_by r);
  ok_released : j_status (row_job r) = JobFailed ∨ j_status (row_job r) = Dead ->
                lease_expires_at r = None ∧ locked_by r = None;
}.

Definition jobs_ok (q : JobQueue) (db : JobDb) : Prop :=
  map_Forall (row_ok q (next_job db)) (jobs db).

Lemma is_running_true r : is_running r = true <-> j_status (row_job r) = Running.
Proof. apply bool_decide_eq_true. Qed.

Lemma claim_candidate_Some db now kinds locked r :
  claim_candidate db now kinds locked = Some r ->
  (∃ id, jobs db !! id = Some r) ∧ eligible now kinds locked r.
Proof.
  unfold claim_candidate. intros [xs E]%head_Some.
  assert (r ∈ filter (eligible now kinds locked) (snd <$> map_to_list (jobs db))) as Hin.
  { rewrite <-(sort_by_elem_of (claim_leb now)), E. set_solver. }
  apply list_elem_of_filter in Hin as [? Hin]. split; [|done].
  apply list_elem_of_fmap_1 in Hin as ([id r']&->&Hin). exists id.
  by apply elem_of_map_to_list.
Qed.

Lemma latest_ingest_Some db t d r :
  latest_ingest db t d = Some r -> ∃ id, jobs db !! id = Some r.
Proof.
  unfold latest_ingest. intros [xs E]%head_Some.
  assert (r ∈ sort_by_key (λ r, - j_id (row_job r)) (filter (λ r, j_tenant_id (row_job r) = t ∧
    j_document_id (row_job r) = Some d ∧ j_kind (row_job r) = Ingest)
    (snd <$> map_to_list (jobs db)))) as Hin by (rewrite E; set_solver).
  apply sort_by_elem_of, list_elem_of_filter in Hin as [_ Hin].
  apply list_elem_of_fmap_1 in Hin as ([id r']&->&Hin). exists id. by apply elem_of_map_to_list.
Qed.

Section invariant.
Context (q : JobQueue) (Hq : in_ty i32 (max_retries q)).

(** Statements that touch one row. *)
Lemma insert_ok db id r :
  jobs_ok q db -> row_ok q (next_job db) id r -> jobs_ok q (set_jobs db (<[id := r]> (jobs db))).
Proof. intros Hok Hr. by apply map_Forall_insert_2. Qed.

Lemma update_job_ok db id p f :
  jobs_ok q db ->
  (∀ r, p r = true -> row_ok q (next_job db) id r -> row_ok q (next_job db) id (f r)) ->
  jobs_ok q (update_job db id p f).2.
Proof.
  intros Hok Hf. unfold update_job. destruct (jobs db !! id) as [r|] eqn:E; [|done].
  destruct (p r) eqn:Hp; [|done]. apply insert_ok; [done|]. apply Hf; [done|]. by apply Hok.
Qed.

Lemma same_jobs_ok db db' :
  jobs db' = jobs db -> next_job db' = next_job db -> jobs_ok q db -> jobs_ok q db'.
Proof. unfold jobs_ok. by intros -> ->. Qed.

Lemma budget_i32 : 1 <= budget q <= ity_max i32.
Proof using Hq. unfold budget. destruct Hq. change (ity_max i32) with 2147483647 in *. lia. Qed.

(** Under the invariant the attempt counter cannot wrap. *)
Lemma attempts_no_wrap next id r :
  row_ok q next id r -> j_status (row_job r) <> Dead ->
  wrapping_add i32 (j_attempts (row_job r)) 1 = j_attempts (row_job r) + 1.
Proof using Hq.
  intros [_ _ Ha Hl _ _] Hs. specialize (Hl Hs). pose proof budget_i32. apply wrap_id. split.
  - change (ity_min i32) with (-2147483648). lia.
  - lia.
Qed.

Lemma enqueue_ok db now t c f d k p : jobs_ok q db -> jobs_ok q (enqueue db now t c f d k p).2.
Proof using Hq.
  intros Hok. pose proof budget_i32. apply map_Forall_insert_2; simpl.
  - split; simpl; try lia; try done.
  - eapply map_Forall_impl; [done|]. intros id r []. split; auto; lia.
Qed.

Lemma claim_kinds_ok w db now kinds locked :
  jobs_ok q db -> jobs_ok q (claim_kinds (with_worker_id q w) db now kinds locked).2.
Proof.
  intros Hok. unfold claim_kinds. destruct (claim_candidate _ _ _ _) as [r|] eqn:E; [|done].
  apply claim_candidate_Some in E as [[id Hid] [Hs _]]. apply insert_ok; [done|].
  destruct (Hok id r Hid) as [<- ? ? Hl _ _]. split; simpl; try done; eauto.
  - intros _. apply Hl. by intros E; rewrite E in Hs.
  - by intros [?|?].
Qed.

Lemma fail_inner_ok w db now id e force :
  jobs_ok q db ->
  match fail_inner (with_worker_id q w) db now id e force with
  | Ok (_, db') => jobs_ok q db'
  | Err _ => True
  end.
Proof using Hq.
  intros Hok. unfold fail_inner. destruct (jobs db !! id) as [r|] eqn:E; [|done].
  case_decide as Hrun; [|done]. pose proof (Hok id r E) as Hr.
  rewrite (attempts_no_wrap _ _ _ Hr) by congruence. destruct Hr as [Hid Hn Ha Hl _ _].
  assert (j_attempts (row_job r) < budget q) by (apply Hl; congruence).
  set (na := j_attempts (row_job r) + 1) in *. simpl.
  assert (Hdead : ∀ ra, jobs_ok q (set_jobs db (<[id := mkJobRow
    (set_retry na (Some e) ra (set_status Dead (row_job r))) None None]> (jobs db)))).
  { intros ra. apply insert_ok; [done|]. split; simpl; try done; lia. }
  destruct (force || (max_retries q <=? na)) eqn:Hd.
  - destruct (j_kind (row_job r)), (j_document_id (row_job r)); try apply Hdead.
  - apply insert_ok; [done|]. bool_to_prop. unfold budget in *.
    split; simpl; try done; try lia; intros; unfold budget; lia.
Qed.

Lemma worker_finish_ok w db now id res :
  jobs_ok q db -> jobs_ok q (worker_finish (with_worker_id q w) db now id res).2.
Proof using Hq.
  intros Hok. destruct res as [u|e]; simpl.
  - apply update_job_ok; [done|]. intros r Hr%is_running_true [].
    split; simpl; try done; [intros _; apply ok_live0; congruence|by intros [?|?]].
  - unfold fail, fail_permanent. destruct (strip_prefix PERMANENT_ERROR_PREFIX e) as [m|];
      [pose proof (fail_inner_ok w db now id m true Hok)
      |pose proof (fail_inner_ok w db now id e false Hok)];
      destruct (fail_inner _ _ _ _ _ _) as [[[] ?]|]; done.
Qed.

Lemma requeue_row_ok next id r now e :
  row_ok q next id r -> j_status (row_job r) = Running ->
  row_ok q next id (mkJobRow (set_retry (j_attempts (row_job r)) e now
                      (set_status JobFailed (row_job r))) None None).
Proof.
  intros [] Hr. split; simpl; try done. intros _. apply ok_live0. congruence.
Qed.

Lemma orphaned_running w r : orphaned (with_worker_id q w) r = true -> j_status (row_job r) = Running.
Proof. unfold orphaned. intros [H _]%andb_true_iff. by apply is_running_true. Qed.

Lemma orphan_sweep_ok w db now :
  jobs_ok q db -> jobs_ok q (orphan_sweep (with_worker_id q w) db now).2.
Proof.
  intros Hok id r. simpl. rewrite lookup_fmap. intros (r0&Hr0&->)%fmap_Some.
  pose proof (Hok id r0 Hr0). destruct (orphaned _ r0) eqn:Ho; [|done].
  apply requeue_row_ok; [done|]. by eapply orphaned_running.
Qed.

Lemma reset_row_ok next id r now l w :
  row_ok q next id r ->
  row_ok q next id (mkJobRow (set_retry 0 None now (set_status Queued (row_job r))) l w).
Proof using Hq.
  intros []. pose proof budget_i32. split; simpl; try done; try lia. by intros [?|?].
Qed.

Lemma step_ok db te : jobs_ok q db -> jobs_ok q (step q db te).
Proof using Hq.
  intros Hok. destruct te as [now ev]; unfold step; simpl. destruct ev.
  - by apply enqueue_ok.
  - by apply claim_kinds_ok.
  - apply update_job_ok; [done|]. intros r [Hr%is_running_true _]%andb_true_iff [].
    split; simpl; try done; [naive_solver|]. by rewrite Hr; intros [?|?].
  - by apply worker_finish_ok.
  - apply update_job_ok; [done|]. intros r Hr%is_running_true Hrow. by apply requeue_row_ok.
  - by apply orphan_sweep_ok.
  - apply update_job_ok; [done|]. intros r _ Hrow. by apply reset_row_ok.
  - unfold admin_delete_job. destruct (jobs db !! id); [|done].
    destruct (in_tenant _ _); [|done]. by apply map_Forall_delete.
  - unfold admin_update_job_priority. destruct (jobs db !! id); [|done].
    destruct (negb _); [done|].
    pose proof (update_job_ok db id (in_tenant tenant)
      (λ r, mkJobRow (set_priority priority (row_job r)) (lease_expires_at r) (locked_by r)) Hok)
      as H. destruct (update_job _ _ _ _) as [[] db']; simpl in *;
      apply H; intros r _ []; by split.
  - unfold retry_failed_ingest. destruct (latest_ingest _ _ _) as [r|] eqn:E; [|done].
    apply latest_ingest_Some in E as [id Hid]. case_decide; [|done]. simpl.
    pose proof (Hok id r Hid) as Hr. eapply same_jobs_ok; [reflexivity..|].
    destruct Hr as [<- ?]. apply insert_ok; [done|]. by apply reset_row_ok, Hok.
Qed.

Lemma run_ok tr db : jobs_ok q db -> jobs_ok q (run q db tr).
Proof using Hq. revert db. induction tr; simpl; intros; [done|]. by apply IHtr, step_ok. Qed.
End invariant.

(** ** Lemmas on single operations *)

Lemma claim_leb_total now a b : claim_leb now a b = true ∨ claim_leb now b a = true.
Proof. unfold claim_leb. lia. Qed.
Lemma claim_leb_trans now a b c :
  claim_leb now a b = true -> claim_leb now b c = true -> claim_leb now a c = true.
Proof. unfold claim_leb. lia. Qed.

(** [a] goes before [b] in the claim order, or they are the same job. *)
Definition outranks (now : Z) (a b : Job) : Prop :=
  sql_priority now b < sql_priority now a ∨
  (sql_priority now b = sql_priority now a ∧
   (j_run_after a < j_run_after b ∨ (j_run_after a = j_run_after b ∧ j_id a <= j_id b))).

Lemma claim_leb_outranks now a b :
  claim_leb now a b = true <-> outranks now (row_job a) (row_job b).
Proof. unfold claim_leb, outranks. lia. Qed.

Lemma in_job_list db r :
  r ∈ (snd <$> map_to_list (jobs db)) <-> ∃ id, jobs db !! id = Some r.
Proof.
  rewrite list_elem_of_fmap. split.
  - intros ([id r']&->&Hin). exists id. by apply elem_of_map_to_list.
  - intros [id Hid]. exists (id, r). split; [done|]. by apply elem_of_map_to_list.
Qed.

Lemma claim_candidate_best db now kinds locked r id' r' :
  claim_candidate db now kinds locked = Some r ->
  jobs db !! id' = Some r' -> eligible now kinds locked r' ->
  outranks now (row_job r) (row_job r').
Proof.
  unfold claim_candidate. intros [xs E]%head_Some Hr' He.
  apply claim_leb_outranks. eapply sort_by_head_min; eauto using claim_leb_total, claim_leb_trans.
  apply list_elem_of_filter. split; [done|]. apply in_job_list. eauto.
Qed.

Lemma claim_candidate_None db now kinds locked id r :
  claim_candidate db now kinds locked = None -> jobs db !! id = Some r ->
  ~ eligible now kinds locked r.
Proof.
  unfold claim_candidate. intros E%head_None Hid He. apply sort_by_nil_inv in E.
  assert (r ∈ filter (eligible now kinds locked) (snd <$> map_to_list (jobs db))) as Hin.
  { apply list_elem_of_filter. split; [done|]. apply in_job_list. eauto. }
  rewrite E in Hin. set_solver.
Qed.

Lemma update_job_lookup db id p f id' :
  jobs (update_job db id p f).2 !! id' =
    if decide (id = id') then (λ r, if p r then f r else r) <$> jobs db !! id
    else jobs db !! id'.
Proof.
  unfold update_job. destruct (jobs db !! id) as [r|] eqn:E; simpl.
  - destruct (p r); simpl.
    + case_decide as Hd; [subst; by rewrite lookup_insert_eq|by rewrite lookup_insert_ne].
    + case_decide as Hd; [by subst|done].
  - case_decide as Hd; [by subst|done].
Qed.

Lemma update_job_next db id p f : next_job (update_job db id p f).2 = next_job db.
Proof. unfold update_job. case_all; done. Qed.

Lemma update_job_documents db id p f : documents (update_job db id p f).2 = documents db.
Proof. unfold update_job. case_all; done. Qed.

(** What a failure does to the table of jobs, on every branch. *)
Lemma fail_inner_jobs q db now id e force st db' :
  fail_inner q db now id e force = Ok (st, db') ->
  ∃ r r', jobs db !! id = Some r ∧ j_status (row_job r) = Running ∧
    jobs db' = <[id := r']> (jobs db) ∧ next_job db' = next_job db ∧
    j_status (row_job r') = st ∧ (st = Dead ∨ st = JobFailed) ∧
    j_attempts (row_job r') = wrapping_add i32 (j_attempts (row_job r)) 1.
Proof.
  unfold fail_inner. intros H. destruct (jobs db !! id) as [r|]; [|done].
  destruct (decide (j_status (row_job r) = Running)) as [Hrun|]; [|done].
  destruct (force || _).
  - destruct (j_kind (row_job r)), (j_document_id (row_job r)); simplify_eq/=;
      do 2 eexists; split_and!; try done; auto.
  - simplify_eq/=. do 2 eexists; split_and!; try done; auto.
Qed.

(** The worker's outcome handling is one of four things. *)
Lemma worker_finish_cases q db now id res :
  let db' := (worker_finish q db now id res).2 in
  match res with
  | Ok _ => db' = complete db id
  | Err e =>
      ∃ msg force, match fail_inner q db now id msg force with
                   | Ok (_, d) => db' = d
                   | Err _ => db' = db
                   end
  end.
Proof.
  destruct res as [u|e]; simpl; [done|]. unfold fail, fail_permanent.
  destruct (strip_prefix PERMANENT_ERROR_PREFIX e) as [m|]; [exists m, true|exists e, false];
    destruct (fail_inner _ _ _ _ _ _) as [[[] ?]|]; done.
Qed.

(** ** A claimed job stays taken *)

(** The events that can make job [id] claimable again. *)
Definition releases (id : Z) (ev : job_event) : Prop :=
  match ev with
  | EvFinish _ id' (Err _) | EvRequeue id' | EvAdminRetry _ id' => id' = id
  | EvSweep _ | EvRetryIngest _ _ => True
  | _ => False
  end.

Definition parked (db : JobDb) (id : Z) : Prop :=
  id < next_job db ∧
  ∀ r, jobs db !! id = Some r -> claimable_status (j_status (row_job r)) = false.

Lemma update_job_parked db id id' p f :
  parked db id ->
  (id' = id -> ∀ r, p r = true -> claimable_status (j_status (row_job r)) = false ->
           claimable_status (j_status (row_job (f r))) = false) ->
  parked (update_job db id' p f).2 id.
Proof.
  intros [Hn Hp] Hf. split; [by rewrite update_job_next|]. intros r.
  rewrite update_job_lookup. case_decide; [subst|auto].
  intros (r0&Hr0&->)%fmap_Some. destruct (p r0) eqn:E; eauto.
Qed.

Lemma claim_kinds_parked q db now kinds locked id :
  jobs_ok q db -> parked db id -> ∀ w, parked (claim_kinds (with_worker_id q w) db now kinds locked).2 id.
Proof.
  intros Hok [Hn Hp] w. unfold claim_kinds.
  destruct (claim_candidate _ _ _ _) as [r|]; [|done]. split; [done|]. simpl. intros r'.
  destruct (decide (j_id (row_job r) = id)) as [<-|];
    [rewrite lookup_insert_eq; intros [= <-]; done|rewrite lookup_insert_ne by done; auto].
Qed.

Lemma fail_inner_other q db now id id' e force st db' :
  fail_inner q db now id' e force = Ok (st, db') -> id' <> id -> parked db id -> parked db' id.
Proof.
  intros (r&r'&_&_&Hj&Hn&_)%fail_inner_jobs Hne [Hlt Hp]. split; [lia|]. intros x.
  rewrite Hj, lookup_insert_ne by done. auto.
Qed.

Lemma step_parked q db te id :
  jobs_ok q db -> parked db id -> ~ releases id te.2 -> parked (step q db te) id.
Proof.
  intros Hok Hp Hrel. destruct te as [now ev]; unfold step; simpl in *. destruct ev; simpl in *.
  - destruct Hp as [Hn Hp]. split; simpl; [lia|]. intros r.
    rewrite lookup_insert_ne by lia. auto.
  - by apply claim_kinds_parked.
  - apply update_job_parked; auto.
  - destruct res as [u|e]; [apply update_job_parked; auto|].
    destruct (worker_finish_cases (with_worker_id q w) db now id0 (Err e)) as (m&fo&Hc).
    destruct (fail_inner _ db now id0 m fo) as [[st d]|] eqn:E; rewrite Hc; [|done].
    by eapply fail_inner_other.
  - apply update_job_parked; [done|]. intros ->. done.
  - done.
  - apply update_job_parked; [done|]. intros ->. done.
  - unfold admin_delete_job. destruct (jobs db !! id0); [|done]. destruct (in_tenant _ _); [|done].
    destruct Hp as [Hn Hp]. split; [done|]. simpl. intros r [_ Hr]%lookup_delete_Some. auto.
  - unfold admin_update_job_priority. destruct (jobs db !! id0); [|done].
    destruct (negb _); [done|].
    pose proof (update_job_parked db id id0 (in_tenant tenant)
      (λ r, mkJobRow (set_priority priority (row_job r)) (lease_expires_at r) (locked_by r)) Hp)
      as H. destruct (update_job _ _ _ _) as [[] db']; simpl in *; apply H; done.
  - done.
Qed.

Lemma run_parked q db tr id :
  in_ty i32 (max_retries q) -> jobs_ok q db -> parked db id ->
  Forall (λ te, ~ releases id te.2) tr -> parked (run q db tr) id.
Proof.
  intros Hq. revert db. induction tr as [|te tr IH]; intros db Hok Hp Htr; [done|].
  apply Forall_cons in Htr as [??]. simpl. apply IH; [by apply step_ok|by apply step_parked|done].
Qed.

(** ** Attempt accounting *)

Definition attempts_of (db : JobDb) (id : Z) : Z :=
  from_option (λ r, j_attempts (row_job r)) 0 (jobs db !! id).

(** The event is a failed attempt of the running job [id]. *)
Definition fails_now (db : JobDb) (id : Z) (ev : job_event) : bool :=
  match ev with
  | EvFinish _ id' (Err _) => bool_decide (id' = id) && bool_decide (status_of db id = Some Running)
  | _ => false
  end.

Fixpoint failures_in (q : JobQueue) (db : JobDb) (id : Z) (tr : list (Z * job_event)) : Z :=
  match tr with
  | [] => 0
  | te :: tr => (if fails_now db id te.2 then 1 else 0) + failures_in q (step q db te) id tr
  end.

(** The events that give a job a fresh budget or remove it. *)
Definition resets (id : Z) (ev : job_event) : Prop :=
  match ev with
  | EvAdminRetry _ id' | EvAdminDelete _ id' => id' = id
  | EvRetryIngest _ _ => True
  | _ => False
  end.

Lemma update_job_attempts db id id' p f :
  (id' = id -> ∀ r, j_attempts (row_job (f r)) = j_attempts (row_job r)) ->
  attempts_of (update_job db id' p f).2 id = attempts_of db id.
Proof.
  intros Hf. unfold attempts_of. rewrite update_job_lookup. case_decide; [subst|done].
  destruct (jobs db !! id) as [r|]; simpl; [|done]. destruct (p r); auto.
Qed.

Lemma finish_err_attempts q db now id id' e :
  in_ty i32 (max_retries q) -> jobs_ok q db -> ∀ w,
  attempts_of (worker_finish (with_worker_id q w) db now id' (Err e)).2 id =
  attempts_of db id + (if fails_now db id (EvFinish w id' (Err e)) then 1 else 0).
Proof.
  intros Hq Hok w. destruct (worker_finish_cases (with_worker_id q w) db now id' (Err e)) as (m&fo&Hc).
  unfold fails_now, status_of.
  destruct (fail_inner _ db now id' m fo) as [[st d]|] eqn:E; rewrite Hc; clear Hc.
  - apply fail_inner_jobs in E as (r&r'&Hr&Hrun&Hj&_&_&_&Ha).
    rewrite (attempts_no_wrap q Hq _ _ _ (Hok _ _ Hr)) in Ha by congruence.
    unfold attempts_of. rewrite Hj. destruct (decide (id' = id)) as [<-|Hne].
    + rewrite lookup_insert_eq, Hr. simpl. rewrite Hrun.
      rewrite !bool_decide_eq_true_2 by done. done.
    + rewrite lookup_insert_ne by done. rewrite bool_decide_eq_false_2 by done. simpl. lia.
  - unfold fail_inner in E. destruct (decide (id' = id)) as [<-|Hne].
    + destruct (jobs db !! id') as [r|]; simpl in *.
      * case_decide as Hr; [case_all; done|].
        rewrite (bool_decide_eq_false_2 (Some _ = _)) by congruence. rewrite andb_false_r. lia.
      * rewrite andb_false_r. lia.
    + rewrite bool_decide_eq_false_2 by done. simpl. lia.
Qed.

Lemma step_attempts q db te id :
  in_ty i32 (max_retries q) -> jobs_ok q db -> ~ resets id te.2 ->
  attempts_of (step q db te) id = attempts_of db id + (if fails_now db id te.2 then 1 else 0).
Proof.
  intros Hq Hok Hres. destruct te as [now ev]; unfold step; simpl in *.
  destruct ev; simpl in Hres; try done;
    try match goal with |- context [EvFinish] => destruct res as [u|e] end;
    try (by apply finish_err_attempts); simpl; rewrite Z.add_0_r;
    try (by apply update_job_attempts).
  - unfold attempts_of. simpl. destruct (decide (next_job db = id)) as [<-|Hne].
    + rewrite lookup_insert_eq. simpl. destruct (jobs db !! next_job db) as [r|] eqn:E; [|done].
      destruct (Hok _ _ E). lia.
    + by rewrite lookup_insert_ne.
  - unfold claim_kinds. destruct (claim_candidate _ _ _ _) as [r|] eqn:E; [|done].
    apply claim_candidate_Some in E as [[i Hi] _]. destruct (Hok i r Hi) as [<- _ _ _ _ _].
    unfold attempts_of. simpl. destruct (decide (j_id (row_job r) = id)) as [<-|Hne];
      [by rewrite lookup_insert_eq, Hi|by rewrite lookup_insert_ne].
  - unfold attempts_of. simpl. rewrite lookup_fmap. destruct (jobs db !! id) as [r|]; simpl; [|done].
    destruct (orphaned _ r); done.
  - unfold admin_delete_job. destruct (jobs db !! id0); [|done]. destruct (in_tenant _ _); [|done].
    unfold attempts_of. simpl. by rewrite lookup_delete_ne.
  - unfold admin_update_job_priority. destruct (jobs db !! id0); [|done].
    destruct (negb _); [done|].
    pose proof (update_job_attempts db id id0 (in_tenant tenant)
      (λ r, mkJobRow (set_priority priority (row_job r)) (lease_expires_at r) (locked_by r)))
      as H. destruct (update_job _ _ _ _) as [[] db']; simpl in *; by apply H.
Qed.

(** ** Documents *)

Lemma fail_inner_documents q db now id e force st db' d row :
  fail_inner q db now id e force = Ok (st, db') ->
  documents db !! d = Some row -> doc_status row = Ready -> documents db' !! d = Some row.
Proof.
  unfold fail_inner. intros H Hd Hr. destruct (jobs db !! id) as [r|]; [|done].
  case_decide; [|done]. destruct (force || _); [|by simplify_eq/=].
  destruct (j_kind (row_job r)), (j_document_id (row_job r)) as [doc|]; simplify_eq/=; try done.
  destruct (decide (doc = d)) as [->|?]; [rewrite lookup_alter_eq, Hd; simpl|by rewrite lookup_alter_ne].
  rewrite decide_False; naive_solver.
Qed.

Lemma step_ready q db te d row :
  documents db !! d = Some row -> doc_status row = Ready ->
  documents (step q db te) !! d = Some row.
Proof.
  intros Hd Hr. destruct te as [now ev]; unfold step; simpl.
  destruct ev; simpl; unfold extend_lease, requeue_crashed, complete, admin_retry_job;
    rewrite ?update_job_documents; try done.
  - unfold claim_kinds. by destruct (claim_candidate _ _ _ _).
  - destruct res as [u|e]; [simpl; unfold complete; by rewrite update_job_documents|].
    destruct (worker_finish_cases (with_worker_id q w) db now id (Err e)) as (m&fo&Hc).
    simpl in Hc. destruct (fail_inner _ db now id m fo) as [[st db']|] eqn:E; simpl; rewrite Hc;
      [|done]. by eapply fail_inner_documents.
  - unfold admin_delete_job. case_all; done.
  - unfold admin_update_job_priority. destruct (jobs db !! id); [|done]. destruct (negb _); [done|].
    pose proof (update_job_documents db id (in_tenant tenant)
      (λ r, mkJobRow (set_priority priority (row_job r)) (lease_expires_at r) (locked_by r))) as H.
    destruct (update_job _ _ _ _) as [[] db']; simpl in *; congruence.
  - unfold retry_failed_ingest. destruct (latest_ingest _ _ _); [|done]. case_decide; [|done]. simpl.
    destruct (decide (document = d)) as [->|?];
      [rewrite lookup_alter_eq, Hd; simpl|by rewrite lookup_alter_ne].
    rewrite decide_False; naive_solver.
Qed.

(** ** Properties *)

Definition empty_jobs : JobDb := mkJobDb ∅ 1 ∅ ∅ [].

(** C1. Lifecycle invariant.  After any history of queue, reaper, sweeper and
    administrator operations: a row is stored under its id, below the id
    sequence; its attempt counter is within the retry budget, and strictly
    below it while the job is not dead (so the [i32] increment cannot wrap);
    a running job carries a lease and an owner, and a failed or dead one
    carries neither. *)
Theorem job_lifecycle_invariant (q : JobQueue) (tr : list (Z * job_event)) :
  in_ty i32 (max_retries q) -> jobs_ok q (run q empty_jobs tr).
Proof. intros Hq. apply run_ok; [done|]. apply map_Forall_empty. Qed.

(** C9. A claim is optimal and touches one row.  It answers nothing only when
    no job is eligible (queued or failed, due, of a wanted kind, not locked by
    another transaction); otherwise it returns an eligible job that comes
    first by effective priority, then earliest [run_after], then id, marks
    exactly that row running with a fresh lease and the worker's id, and
    leaves every other row and table as it was. *)
Theorem claim_optimal (q : JobQueue) (db : JobDb) (now : Z) (kinds : list JobKind)
    (locked : gset Z) :
  jobs_ok q db ->
  match claim_kinds q db now kinds locked with
  | (None, db') => db' = db ∧ ∀ id r, jobs db !! id = Some r -> ~ eligible now kinds locked r
  | (Some j, db') =>
      ∃ r, jobs db !! j_id j = Some r ∧ eligible now kinds locked r ∧
        j = set_status Running (row_job r) ∧
        db' = set_jobs db (<[j_id j := mkJobRow j (Some (now + lease_secs q * SECOND))
                                         (Some (worker_id q))]> (jobs db)) ∧
        ∀ id' r', jobs db !! id' = Some r' -> eligible now kinds locked r' ->
                  outranks now (row_job r) (row_job r')
  end.
Proof.
  intros Hok. unfold claim_kinds. destruct (claim_candidate _ _ _ _) as [r|] eqn:E.
  - pose proof E as [[id Hid] He]%claim_candidate_Some.
    destruct (Hok id r Hid) as [<- _ _ _ _ _]. exists r. split_and!; try done.
    intros id' r' ??. by eapply claim_candidate_best.
  - split; [done|]. intros id r. by apply claim_candidate_None.
Qed.

(** Claims are exclusive.  Once a job has been claimed, no other claim
    returns it until some event releases it: a failed attempt, a reaper's
    requeue, an orphan sweep or a retry by the tenant or an administrator.
    Lease extensions, completions, other jobs' events, priority changes and
    deletions never do. *)
Theorem claim_exclusive (q : JobQueue) (db : JobDb) (now now' : Z) (w w' : string)
    (kinds kinds' : list JobKind) (locked locked' : gset Z) (j : Job) (db1 : JobDb)
    (tr : list (Z * job_event)) :
  in_ty i32 (max_retries q) -> jobs_ok q db ->
  claim_kinds (with_worker_id q w) db now kinds locked = (Some j, db1) ->
  Forall (λ te, ~ releases (j_id j) te.2) tr ->
  ∀ j', (claim_kinds (with_worker_id q w') (run q db1 tr) now' kinds' locked').1 = Some j' ->
        j_id j' <> j_id j.
Proof.
  intros Hq Hok Hc Htr j' Hj' Heq.
  assert (Hok1 : jobs_ok q db1).
  { replace db1 with (claim_kinds (with_worker_id q w) db now kinds locked).2 by by rewrite Hc.
    by apply claim_kinds_ok. }
  assert (Hp : parked db1 (j_id j)).
  { unfold claim_kinds in Hc. destruct (claim_candidate _ _ _ _) as [r|] eqn:E; [|done].
    apply claim_candidate_Some in E as [[id Hid] _]. destruct (Hok id r Hid) as [<- ? _ _ _ _].
    simplify_eq/=. split; [done|]. simpl. intros r'. rewrite lookup_insert_eq. by intros [= <-]. }
  pose proof (run_parked _ _ _ _ Hq Hok1 Hp Htr) as [_ Hpark].
  pose proof (run_ok q Hq tr db1 Hok1) as Hok2. unfold claim_kinds in Hj'.
  destruct (claim_candidate _ _ _ _) as [r|] eqn:E; simplify_eq/=.
  apply claim_candidate_Some in E as [[id Hid] [Hs _]].
  destruct (Hok2 id r Hid) as [<- _ _ _ _ _]. rewrite Heq in Hid. specialize (Hpark r Hid).
  congruence.
Qed.


(** A document that reached [ready] is never downgraded by the queue, the
    dead-letter hook or a tenant retry, in any history. *)
Theorem ready_never_downgraded (q : JobQueue) (db : JobDb) (tr : list (Z * job_event)) (d : Z)
    (row : DocRow) :
  documents db !! d = Some row -> doc_status row = Ready ->
  documents (run q db tr) !! d = Some row.
Proof.
  revert db. induction tr as [|te tr IH]; intros db Hd Hr; [done|].
  simpl. apply IH; [|done]. by apply step_ready.
Qed.

(** Dead-lettering is visible and tenant-scoped: when an ingest job with a
    staged document dies, that tenant's document is no longer pending, its
    pending files are failed, and no other document and no file of another
    document or tenant changes. *)
Theorem dead_letter_visible (q : JobQueue) (db db' : JobDb) (now id doc : Z) (e : string)
    (force : bool) (r : JobRow) :
  fail_inner q db now id e force = Ok (Dead, db') ->
  jobs db !! id = Some r -> j_kind (row_job r) = Ingest -> j_document_id (row_job r) = Some doc ->
  (∀ d row', documents db' !! d = Some row' ->
     ∃ row, documents db !! d = Some row ∧ doc_tenant row' = doc_tenant row ∧
       if decide (d = doc ∧ doc_tenant row = j_tenant_id (row_job r) ∧ doc_status row <> Ready)
       then doc_status row' = DocFailed else row' = row) ∧
  (∀ f row', files db' !! f = Some row' ->
     ∃ row, files db !! f = Some row ∧
       if decide (file_document row = doc ∧ file_tenant row = j_tenant_id (row_job r) ∧
                  file_status row = Pending)
       then row' = mkFileRow (file_tenant row) (file_document row) DocFailed else row' = row).
Proof.
  unfold fail_inner. intros H Hr Hk Hdoc. rewrite Hr in H. case_decide; [|done].
  destruct (force || _); [|done]. rewrite Hk, Hdoc in H. simplify_eq/=. split.
  - intros d row' Hd. destruct (decide (doc = d)) as [->|Hne].
    + rewrite lookup_alter_eq in Hd. apply fmap_Some in Hd as (row&Hrow&->). exists row.
      split; [done|]. repeat case_decide; naive_solver.
    + rewrite lookup_alter_ne in Hd by done. exists row'. split; [done|].
      rewrite decide_False by naive_solver. done.
  - intros f row' Hf. rewrite lookup_fmap in Hf. apply fmap_Some in Hf as (row&Hrow&->).
    exists row. split; [done|]. by case_decide.
Qed.

(** C40. Aging bounds overtaking.  If a claim picks a job of priority [p + d]
    while an older job of priority [p] was eligible, the chosen job was
    created less than [d + 1] aging steps after the older one: work enqueued
    later than that never goes first, so no stream of higher-priority jobs
    starves a waiting one. *)
Theorem aging_bounds_overtaking (q : JobQueue) (db : JobDb) (now : Z) (kinds : list JobKind)
    (locked : gset Z) (j : Job) (id : Z) (r : JobRow) :
  (claim_kinds q db now kinds locked).1 = Some j ->
  jobs db !! id = Some r -> eligible now kinds locked r ->
  j_created_at j <
    j_created_at (row_job r) +
    (j_priority j - j_priority (row_job r) + 1) * (AGING_STEP_SECS * SECOND).
Proof.
  unfold claim_kinds. destruct (claim_candidate _ _ _ _) as [c|] eqn:E; [|done].
  intros [= <-] Hr He. simpl. pose proof (claim_candidate_best _ _ _ _ _ _ _ E Hr He) as Hb.
  assert (Hp : sql_priority now (row_job r) <= sql_priority now (row_job c))
    by (unfold outranks in Hb; lia).
  unfold sql_priority in Hp. change (AGING_STEP_SECS * SECOND) with 3600000000 in *.
  pose proof (Z.mul_div_le (now - j_created_at (row_job c)) 3600000000).
  pose proof (Z.mul_succ_div_gt (now - j_created_at (row_job r)) 3600000000). lia.
Qed.

(** Backoff: for a non-negative base the delay is the base doubled once
    per attempt after the first, at most 30 times, cut off at [i64::MAX]; it
    is at least the base and grows with the attempt count. *)
Theorem backoff_exact (attempts base : Z) :
  0 <= base <= ity_max i64 ->
  calculate_backoff attempts base =
    Z.min (base * 2 ^ (Z.min (Z.max attempts 1) 31 - 1)) (ity_max i64) ∧
  base <= calculate_backoff attempts base ∧
  ∀ attempts', attempts <= attempts' ->
    calculate_backoff attempts base <= calculate_backoff attempts' base.
Proof.
  intros Hb.
  assert (Hex : ∀ a, calculate_backoff a base =
    Z.min (base * 2 ^ (Z.min (Z.max a 1) 31 - 1)) (ity_max i64)).
  { intros a. unfold calculate_backoff, saturating_mul, saturate. rewrite Z.shiftl_1_l.
    replace (Z.min (Z.max a 1 - 1) 30) with (Z.min (Z.max a 1) 31 - 1) by lia.
    assert (0 < 2 ^ (Z.min (Z.max a 1) 31 - 1)) by (apply Z.pow_pos_nonneg; lia).
    change (ity_min i64) with (-9223372036854775808).
    rewrite Z.max_r; [done|]. change (ity_max i64) with 9223372036854775807 in *. nia. }
  assert (Hmono : ∀ a a', a <= a' -> base * 2 ^ (Z.min (Z.max a 1) 31 - 1) <=
                                     base * 2 ^ (Z.min (Z.max a' 1) 31 - 1)).
  { intros. apply Z.mul_le_mono_nonneg_l; [lia|]. apply Z.pow_le_mono_r; lia. }
  rewrite Hex. split_and!; [done| |intros a' Ha; rewrite Hex; specialize (Hmono _ _ Ha); lia].
  specialize (Hmono (Z.min attempts 1) attempts ltac:(lia)).
  replace (Z.min (Z.max (Z.min attempts 1) 1) 31 - 1) with 0 in Hmono by lia. lia.
Qed.

(** ** Crash recovery *)

(** One crash cycle: claim, the worker dies, and the reaper passes after the
    lease has run out. *)
Definition crash_cycle (q : JobQueue) (st : JobDb * Z) : JobDb * Z :=
  let '(db, now) := st in
  let db1 := (claim q db now ∅).2 in
  let now' := now + lease_secs q * SECOND + 1 in
  ((reap_expired_leases db1 now').2, now').

Fixpoint crash_loop (q : JobQueue) (n : nat) (st : JobDb * Z) : JobDb * Z :=
  match n with O => st | S n => crash_loop q n (crash_cycle q st) end.

Lemma crash_cycle_single q db now id r :
  jobs db = {[id := r]} -> j_id (row_job r) = id ->
  claimable_status (j_status (row_job r)) = true -> j_run_after (row_job r) <= now ->
  ∃ db' now' r', crash_cycle q (db, now) = (db', now') ∧ jobs db' = {[id := r']} ∧
    j_id (row_job r') = id ∧ j_status (row_job r') = JobFailed ∧
    j_attempts (row_job r') = j_attempts (row_job r) ∧ j_run_after (row_job r') = now' .
Proof.
  intros Hj Hid Hs Hra. unfold crash_cycle, claim, claim_kinds.
  assert (Hc : claim_candidate db now [] ∅ = Some r).
  { unfold claim_candidate. rewrite Hj, map_to_list_singleton. simpl.
    rewrite filter_cons_True by (split_and!; [done..|by left|set_solver]). by rewrite filter_nil. }
  rewrite Hc. simpl. rewrite Hj, Hid, insert_singleton_eq.
  set (now' := now + lease_secs q * SECOND + 1).
  unfold reap_expired_leases, reap_candidates. simpl.
  rewrite map_to_list_singleton. simpl. rewrite filter_cons_True.
  2: { unfold lease_expired, is_running. simpl. apply Z.ltb_lt. lia. }
  rewrite filter_nil. simpl. rewrite Hid.
  unfold requeue_crashed, update_job. simpl. rewrite lookup_singleton_eq. simpl.
  do 3 eexists. split; [done|]. simpl. rewrite insert_singleton_eq. split_and!; done.
Qed.

(** A crashing job is never dead-lettered.  Whatever the retry budget, a
    job whose worker dies on every attempt is requeued by the reaper with its
    attempt count unchanged, and is claimable again, after any number of
    crashes; the module documentation promises that retry exhaustion
    dead-letters it as usual. *)
Theorem crash_loop_never_dead (q : JobQueue) (n : nat) (db : JobDb) (now id : Z) (r : JobRow) :
  jobs db = {[id := r]} -> j_id (row_job r) = id ->
  claimable_status (j_status (row_job r)) = true -> j_run_after (row_job r) <= now ->
  let '(db', now') := crash_loop q n (db, now) in
  ∃ r', jobs db' = {[id := r']} ∧ j_attempts (row_job r') = j_attempts (row_job r) ∧
        eligible now' [] ∅ r'.
Proof.
  revert db now r. induction n as [|n IH]; intros db now r Hj Hid Hs Hra.
  - simpl. exists r. split_and!; [done..|]. split_and!; [done..|by left|set_solver].
  - cbn [crash_loop]. destruct (crash_cycle_single q db now id r Hj Hid Hs Hra)
      as (db'&now'&r'&->&Hj'&Hid'&Hs'&<-&Hra').
    apply IH; [done..| |lia]. by rewrite Hs'.
Qed.

(** Ownership is not checked when a job ends: a worker that lost its
    lease still completes, or counts a failed attempt against, the job a
    different worker is running now, although the worker loop relies on both
    calls doing nothing in that case. *)
Theorem stale_worker_takes_over (q : JobQueue) (db : JobDb) (now id : Z) (r : JobRow)
    (stale owner : string) (e : string) :
  jobs db !! id = Some r -> j_status (row_job r) = Running -> locked_by r = Some owner ->
  stale <> owner ->
  status_of (step q db (now, EvFinish stale id (Ok tt))) id = Some Done ∧
  (status_of (step q db (now, EvFinish stale id (Err e))) id = Some JobFailed ∨
   status_of (step q db (now, EvFinish stale id (Err e))) id = Some Dead).
Proof.
  intros Hr Hs _ _. split.
  - unfold step, status_of. cbn [fst snd worker_finish]. unfold complete.
    rewrite update_job_lookup, decide_True, Hr by done. simpl.
    by rewrite (proj2 (is_running_true r) Hs).
  - destruct (worker_finish_cases (with_worker_id q stale) db now id (Err e)) as (m&fo&Hc).
    unfold step, status_of. cbn [fst snd].
    destruct (fail_inner _ db now id m fo) as [[st db']|] eqn:E; rewrite Hc.
    + apply fail_inner_jobs in E as (r0&r'&_&_&->&_&Hst&Hor&_).
      rewrite lookup_insert_eq. simpl. rewrite Hst. destruct Hor as [->| ->]; auto.
    + unfold fail_inner in E. rewrite Hr in E. rewrite decide_True in E by done. case_all; done.
Qed.

(** The start-up sweep takes live jobs: every job another worker is
    running, with a lease that has not expired, is put back in the queue and
    is claimable at once, so two workers run it. *)
Theorem sweep_takes_live_jobs (q : JobQueue) (db : JobDb) (now id lease : Z) (r : JobRow)
    (owner : string) :
  jobs db !! id = Some r -> j_id (row_job r) = id -> j_status (row_job r) = Running ->
  locked_by r = Some owner -> owner <> worker_id q -> lease_expires_at r = Some lease ->
  now < lease ->
  ∃ r', jobs (orphan_sweep q db now).2 !! id = Some r' ∧ eligible now [] ∅ r' ∧
        lease_expires_at r' = None ∧ locked_by r' = None.
Proof.
  intros Hr Hid Hs Hl Hw _ _. simpl. rewrite lookup_fmap, Hr. simpl.
  assert (orphaned q r = true) as ->.
  { unfold orphaned. rewrite (proj2 (is_running_true r) Hs), Hl. by apply bool_decide_eq_true. }
  eexists. split; [done|]. split; [|done]. unfold eligible. split_and!; simpl; [done|lia|by left|set_solver].
Qed.

(** ** Witnesses *)

Definition demo_queue : JobQueue := mkJobQueue 10000 3 600 "a:1".
Definition demo_job (id : Z) (s : JobStatus) : Job :=
  mkJob id 7 None (Some 40) Ingest 0 s 0 None 0 0 None.
Definition demo_jobs : JobDb :=
  mkJobDb {[1 := mkJobRow (demo_job 1 Queued) None None]} 2
    {[40 := mkDocRow 7 Pending]} {[50 := mkFileRow 7 40 Pending]} [].
Definition demo_running : JobDb :=
  mkJobDb {[1 := mkJobRow (demo_job 1 Running) (Some 600000000) (Some "b:2")]} 2
    {[40 := mkDocRow 7 Ready]} {[50 := mkFileRow 7 40 Pending]} [].

Lemma demo_jobs_ok : jobs_ok demo_queue demo_jobs.
Proof.
  apply map_Forall_insert_2; [|apply map_Forall_empty].
  split; simpl; try done; try lia.
Qed.

Lemma job_lifecycle_invariant_witness :
  jobs_ok demo_queue (run demo_queue empty_jobs
    [(0, EvEnqueue 7 None None (Some 40) Ingest 5); (1, EvClaim "a:1" [] ∅);
     (2, EvFinish "a:1" 1 (Err "boom"))]).
Proof. apply (job_lifecycle_invariant demo_queue). vm_compute. split; discriminate. Defined.

Lemma claim_optimal_witness :
  match claim_kinds demo_queue demo_jobs 5 [Ingest] ∅ with
  | (None, db') => db' = demo_jobs ∧
      ∀ id r, jobs demo_jobs !! id = Some r -> ~ eligible 5 [Ingest] ∅ r
  | (Some j, db') =>
      ∃ r, jobs demo_jobs !! j_id j = Some r ∧ eligible 5 [Ingest] ∅ r ∧
        j = set_status Running (row_job r) ∧
        db' = set_jobs demo_jobs (<[j_id j := mkJobRow j (Some (5 + lease_secs demo_queue * SECOND))
                (Some (worker_id demo_queue))]> (jobs demo_jobs)) ∧
        ∀ id' r', jobs demo_jobs !! id' = Some r' -> eligible 5 [Ingest] ∅ r' ->
                  outranks 5 (row_job r) (row_job r')
  end.
Proof. apply (claim_optimal demo_queue demo_jobs 5 [Ingest] ∅). apply demo_jobs_ok. Defined.

Lemma claim_exclusive_witness :
  (claim_kinds (with_worker_id demo_queue "a:1") demo_jobs 5 [] ∅).1 = Some (demo_job 1 Running) ∧
  ∀ j', (claim_kinds (with_worker_id demo_queue "b:2")
           (run demo_queue (claim_kinds (with_worker_id demo_queue "a:1") demo_jobs 5 [] ∅).2
              [(6, EvExtend "a:1" 1); (7, EvFinish "a:1" 1 (Ok tt))]) 8 [] ∅).1 = Some j' ->
        j_id j' <> 1.
Proof.
  split; [vm_compute; reflexivity|].
  apply (claim_exclusive demo_queue demo_jobs 5 8 "a:1" "b:2" [] [] ∅ ∅ (demo_job 1 Running)
           (claim_kinds (with_worker_id demo_queue "a:1") demo_jobs 5 [] ∅).2
           [(6, EvExtend "a:1" 1); (7, EvFinish "a:1" 1 (Ok tt))]).
  - vm_compute. split; discriminate.
  - apply demo_jobs_ok.
  - vm_compute. reflexivity.
  - repeat constructor; simpl; auto.
Defined.

Definition demo_failure : list (Z * job_event) :=
  [(5, EvClaim "a:1" [] ∅); (6, EvFinish "a:1" 1 (Err "boom"))].


Lemma ready_never_downgraded_witness :
  documents (run demo_queue demo_running
    [(5, EvFinish "b:2" 1 (Err "permanent: bad bytes")); (6, EvRetryIngest 7 40)]) !! 40
  = Some (mkDocRow 7 Ready).
Proof. apply (ready_never_downgraded demo_queue demo_running); reflexivity. Defined.

Lemma dead_letter_visible_witness :
  ∃ db', fail_inner demo_queue demo_running 5 1 "bad" true = Ok (Dead, db') ∧
  (∀ d row', documents db' !! d = Some row' ->
     ∃ row, documents demo_running !! d = Some row ∧ doc_tenant row' = doc_tenant row ∧
       if decide (d = 40 ∧ doc_tenant row = 7 ∧ doc_status row <> Ready)
       then doc_status row' = DocFailed else row' = row) ∧
  (∀ f row', files db' !! f = Some row' ->
     ∃ row, files demo_running !! f = Some row ∧
       if decide (file_document row = 40 ∧ file_tenant row = 7 ∧ file_status row = Pending)
       then row' = mkFileRow (file_tenant row) (file_document row) DocFailed else row' = row).
Proof.
  eexists. split; [reflexivity|].
  apply (dead_letter_visible demo_queue demo_running _ 5 1 40 "bad" true
           (mkJobRow (demo_job 1 Running) (Some 600000000) (Some "b:2"))); reflexivity.
Defined.

Lemma aging_bounds_overtaking_witness : 0 < 0 + (0 - 0 + 1) * (AGING_STEP_SECS * SECOND).
Proof.
  apply (aging_bounds_overtaking demo_queue demo_jobs 5 [] ∅ (demo_job 1 Running) 1
           (mkJobRow (demo_job 1 Queued) None None)).
  - reflexivity.
  - reflexivity.
  - unfold eligible. simpl. split_and!; [done|lia|by left|set_solver].
Defined.

Lemma backoff_exact_witness :
  calculate_backoff 3 10000 = 40000 ∧ 10000 <= calculate_backoff 3 10000 ∧
  ∀ attempts', 3 <= attempts' -> calculate_backoff 3 10000 <= calculate_backoff attempts' 10000.
Proof. apply (backoff_exact 3 10000). vm_compute. split; discriminate. Defined.

Lemma crash_loop_never_dead_witness :
  let '(db', now') := crash_loop demo_queue 10 (demo_jobs, 5) in
  ∃ r', jobs db' = {[1 := r']} ∧ j_attempts (row_job r') = 0 ∧ eligible now' [] ∅ r'.
Proof.
  apply (crash_loop_never_dead demo_queue 10 demo_jobs 5 1
           (mkJobRow (demo_job 1 Queued) None None)); try reflexivity. discriminate.
Defined.

Lemma stale_worker_takes_over_witness :
  status_of (step demo_queue demo_running (5, EvFinish "a:1" 1 (Ok tt))) 1 = Some Done ∧
  (status_of (step demo_queue demo_running (5, EvFinish "a:1" 1 (Err "x"))) 1 = Some JobFailed ∨
   status_of (step demo_queue demo_running (5, EvFinish "a:1" 1 (Err "x"))) 1 = Some Dead).
Proof.
  apply (stale_worker_takes_over demo_queue demo_running 5 1
           (mkJobRow (demo_job 1 Running) (Some 600000000) (Some "b:2")) "a:1" "b:2" "x");
    try reflexivity. discriminate.
Defined.

Lemma sweep_takes_live_jobs_witness :
  ∃ r', jobs (orphan_sweep demo_queue demo_running 5).2 !! 1 = Some r' ∧ eligible 5 [] ∅ r' ∧
        lease_expires_at r' = None ∧ locked_by r' = None.
Proof.
  apply (sweep_takes_live_jobs demo_queue demo_running 5 1 600000000
           (mkJobRow (demo_job 1 Running) (Some 600000000) (Some "b:2")) "b:2");
    try reflexivity. discriminate.
Defined.
