(* ===== verification/WaitQueue.v ===== *)
(** * The priority-ordered waiter queue

    Models [scheduler/src/priority_wait.rs]: waiters grouped by role and
    priority, woken highest priority first and first come first served within
    a priority.  A sender is named by its ticket id; [alive] tells which
    receivers still exist, so [send] to [id] succeeds when [alive id]. *)

From stdpp Require Import base gmap list sorting.
From Stdlib Require Import ZArith Lia.
From S2P Require Import Prelude StableSort Role.
Open Scope Z_scope.

Notation RoleWaiters := (gmap Z (list Z)).

Record Inner := mkInner {
  next_id : Z;
  by_role : gmap Role RoleWaiters;
}.

Definition queue_empty : Inner := mkInner 0 ∅.

(** ** [register] *)

Definition register (q : Inner) (role : Role) (priority : Z) : Z * Inner :=
  let ticket_id := next_id q in
  let role_waiters := default ∅ (by_role q !! role) in
  let bucket := default [] (role_waiters !! priority) in
  (ticket_id,
   mkInner (wrapping_add u64 ticket_id 1)
     (<[role := <[priority := bucket ++ [ticket_id]]> role_waiters]> (by_role q))).

(** ** [notify] *)

Definition highest_key (w : RoleWaiters) : option Z :=
  foldr (λ k acc, Some (match acc with None => k | Some m => Z.max k m end)) None
    (fst <$> map_to_list w).

(** The wake-up loop: the woken ticket, if any, and the waiters left.  Every
    iteration removes a bucket or a waiter, so the fuel of [notify_role] is
    never used up. *)
Fixpoint notify_loop (alive : Z -> bool) (fuel : nat) (w : RoleWaiters) : option Z * RoleWaiters :=
  match fuel with
  | O => (None, w)
  | S fuel =>
      match highest_key w with
      | None => (None, w)
      | Some prio =>
          match w !! prio with
          | None => (None, w)
          | Some [] => notify_loop alive fuel (delete prio w)
          | Some (tx :: waiters) =>
              let w' := match waiters with
                        | [] => delete prio w
                        | _ => <[prio := waiters]> w
                        end in
              if alive tx then (Some tx, w') else notify_loop alive fuel w'
          end
      end
  end.

Definition load (w : RoleWaiters) : nat :=
  sum_list_with (λ kl, S (length kl.2)) (map_to_list w).

Definition notify_role (alive : Z -> bool) (w : RoleWaiters) : option Z * RoleWaiters :=
  notify_loop alive (S (load w)) w.

Definition notify (alive : Z -> bool) (q : Inner) (role : Role) : option Z * Inner :=
  match by_role q !! role with
  | None => (None, q)
  | Some w =>
      let '(woken, w') := notify_role alive w in
      (woken, mkInner (next_id q) (<[role := w']> (by_role q)))
  end.

(** ** Specification

    The queue of a role is one list of (priority, ticket): highest priority
    first, in order of registration within a priority. *)

Definition waiters_of (w : RoleWaiters) : list (Z * Z) :=
  sort_by_key (λ x, - x.1) (map_to_list w ≫= λ kl, pair kl.1 <$> kl.2).

Definition queue_of (q : Inner) (role : Role) : list (Z * Z) :=
  waiters_of (default ∅ (by_role q !! role)).

(** Enqueueing behind every waiter of the same or a higher priority. *)
Definition spec_register (p id : Z) (l : list (Z * Z)) : list (Z * Z) :=
  List.filter (λ x, p <=? x.1) l ++ (p, id) :: List.filter (λ x, x.1 <? p) l.

(** Waking drops the dead prefix and pops the first live waiter. *)
Fixpoint spec_notify (alive : Z -> bool) (l : list (Z * Z)) : option Z * list (Z * Z) :=
  match l with
  | [] => (None, [])
  | (p, id) :: l => if alive id then (Some id, l) else spec_notify alive l
  end.

(** ** Lists sorted by descending priority *)

Definition desc (l : list (Z * Z)) : Prop := StronglySorted (λ x y, y.1 <= x.1) l.
Definition bucket (p : Z) (l : list (Z * Z)) : list (Z * Z) := List.filter (λ x, x.1 =? p) l.

Lemma bucket_app p l1 l2 : bucket p (l1 ++ l2) = bucket p l1 ++ bucket p l2.
Proof. apply List.filter_app. Qed.

Lemma bucket_pair p k l : bucket p (pair k <$> l) = if k =? p then pair k <$> l else [].
Proof.
  unfold bucket. induction l as [|x l IH]; simpl; [by destruct (k =? p)|].
  destruct (k =? p); [by f_equal|done].
Qed.

(** A descending list is determined by its buckets. *)
Lemma desc_ext l1 l2 : desc l1 -> desc l2 -> (∀ p, bucket p l1 = bucket p l2) -> l1 = l2.
Proof.
  revert l2. induction l1 as [|[p x] l1 IH]; intros [|[p' x'] l2] H1 H2 Hb.
  - done.
  - specialize (Hb p'). unfold bucket in Hb. simpl in Hb. by rewrite Z.eqb_refl in Hb.
  - specialize (Hb p). unfold bucket in Hb. simpl in Hb. by rewrite Z.eqb_refl in Hb.
  - apply StronglySorted_inv in H1 as [H1 F1], H2 as [H2 F2].
    rewrite Forall_forall in F1. rewrite Forall_forall in F2.
    assert (Hin : ∀ (k : Z) y l, (k, y) ∈ bucket k l -> (k, y) ∈ l).
    { intros k y l. unfold bucket. rewrite !list_elem_of_In, List.filter_In. tauto. }
    assert (p = p') as ->.
    { destruct (Z.lt_trichotomy p p') as [Hlt|[?|Hlt]]; [|done|]; exfalso.
      - assert ((p', x') ∈ bucket p' ((p, x) :: l1)) as Hm%Hin.
        { rewrite Hb. unfold bucket. simpl. rewrite Z.eqb_refl. by left. }
        apply elem_of_cons in Hm as [[= ??]|Hm]; [lia|]. specialize (F1 _ Hm). simpl in F1. lia.
      - assert ((p, x) ∈ bucket p ((p', x') :: l2)) as Hm%Hin.
        { rewrite <-Hb. unfold bucket. simpl. rewrite Z.eqb_refl. by left. }
        apply elem_of_cons in Hm as [[= ??]|Hm]; [lia|]. specialize (F2 _ Hm). simpl in F2. lia. }
    pose proof (Hb p') as Hx. unfold bucket in Hx. simpl in Hx. rewrite Z.eqb_refl in Hx.
    injection Hx as -> _. f_equal. apply IH; [done..|]. intros k. specialize (Hb k).
    unfold bucket in *. simpl in Hb. destruct (p' =? k); congruence.
Qed.

Lemma desc_filter f l : desc l -> desc (List.filter f l).
Proof.
  induction 1 as [|x l Hs IH Hx]; simpl; [constructor|]. destruct (f x); [|done].
  constructor; [done|]. rewrite Forall_forall in Hx. apply Forall_forall. intros y.
  rewrite list_elem_of_In, List.filter_In, <-list_elem_of_In. intros [? _]. auto.
Qed.

Lemma waiters_of_desc w : desc (waiters_of w).
Proof.
  unfold waiters_of, sort_by_key.
  pose proof (sort_by_ordered (leb_by_key (λ x : Z * Z, - x.1)) (leb_by_key_total _)
    (leb_by_key_trans _) (map_to_list w ≫= λ kl, pair kl.1 <$> kl.2)) as H.
  unfold ordered in H. induction H as [|x l _ IH Hx]; constructor; [done|].
  eapply Forall_impl; [exact Hx|]. intros y. unfold leb_by_key. simpl. lia.
Qed.

(** The bucket of a priority, in registration order. *)
Lemma bind_bucket p (kvs : list (Z * list Z)) :
  NoDup (fst <$> kvs) ->
  bucket p (kvs ≫= λ kl, pair kl.1 <$> kl.2) = pair p <$> default [] (list_to_map (M:=RoleWaiters) kvs !! p).
Proof.
  induction kvs as [|[k l] kvs IH]; intros Hnd; [done|].
  apply NoDup_cons in Hnd as [Hk Hnd].
  rewrite bind_cons, bucket_app, bucket_pair, IH by done. simpl.
  destruct (k =? p) eqn:E; bool_to_prop; subst.
  - rewrite lookup_insert_eq. rewrite not_elem_of_list_to_map_1 by done. simpl. by rewrite app_nil_r.
  - by rewrite lookup_insert_ne.
Qed.

Lemma waiters_of_bucket w p : bucket p (waiters_of w) = pair p <$> default [] (w !! p).
Proof.
  unfold waiters_of, bucket, sort_by_key. rewrite sort_by_stable.
  - fold (bucket p (map_to_list w ≫= λ kl, pair kl.1 <$> kl.2)).
    rewrite bind_bucket by apply NoDup_fst_map_to_list. by rewrite list_to_map_to_list.
  - intros y z. unfold leb_by_key. lia.
Qed.

(** Reading the whole queue off the buckets. *)
Lemma waiters_of_eq w l : desc l -> (∀ p, bucket p l = pair p <$> default [] (w !! p)) -> waiters_of w = l.
Proof.
  intros Hd Hb. apply desc_ext; [apply waiters_of_desc|done|]. intros p.
  by rewrite waiters_of_bucket, Hb.
Qed.

Lemma waiters_of_delete_empty w p : w !! p = Some [] -> waiters_of (delete p w) = waiters_of w.
Proof.
  intros Hp. apply waiters_of_eq; [apply waiters_of_desc|]. intros k. rewrite waiters_of_bucket.
  destruct (decide (p = k)) as [<-|]; [by rewrite Hp, lookup_delete_eq|by rewrite lookup_delete_ne].
Qed.

Lemma waiters_of_elem w p x : (p, x) ∈ waiters_of w -> x ∈ default [] (w !! p).
Proof.
  intros Hin. assert ((p, x) ∈ bucket p (waiters_of w)) as Hb.
  { unfold bucket. rewrite list_elem_of_In, List.filter_In, <-list_elem_of_In. split; [done|]. simpl. lia. }
  rewrite waiters_of_bucket in Hb. apply list_elem_of_fmap_1 in Hb as (y&[= ->]&?). done.
Qed.

(** The head of the queue is the head of the highest bucket. *)
Lemma waiters_of_pop w p x l :
  w !! p = Some (x :: l) -> (∀ k, is_Some (w !! k) -> k <= p) ->
  waiters_of w = (p, x) :: waiters_of (match l with [] => delete p w | _ => <[p := l]> w end).
Proof.
  intros Hp Hmax. set (w' := match l with [] => _ | _ => _ end).
  assert (Hw' : ∀ k, default [] (w' !! k) = if decide (k = p) then l else default [] (w !! k)).
  { intros k. subst w'. destruct l as [|y l].
    - case_decide; [subst; by rewrite lookup_delete_eq|by rewrite lookup_delete_ne].
    - case_decide; [subst; by rewrite lookup_insert_eq|by rewrite lookup_insert_ne]. }
  apply waiters_of_eq.
  - constructor; [apply waiters_of_desc|]. apply Forall_forall. intros [k y] Hin%waiters_of_elem.
    simpl. rewrite Hw' in Hin. case_decide; [lia|]. apply Hmax.
    destruct (w !! k); [eauto|set_solver].
  - intros k. unfold bucket. simpl. fold (bucket k (waiters_of w')).
    rewrite waiters_of_bucket, Hw'. destruct (p =? k) eqn:E; bool_to_prop.
    + subst. rewrite decide_True, Hp by done. done.
    + by rewrite decide_False by done.
Qed.

(** ** The loop *)

Lemma highest_key_Some w p :
  highest_key w = Some p -> is_Some (w !! p) ∧ ∀ k, is_Some (w !! k) -> k <= p.
Proof.
  unfold highest_key. intros H.
  assert (Hl : p ∈ (fst <$> map_to_list w) ∧ ∀ k, k ∈ (fst <$> map_to_list w) -> k <= p).
  { revert p H. induction (fst <$> map_to_list w) as [|k l IH]; simpl; [done|].
    intros p [= <-]. destruct (foldr _ None l) as [m|] eqn:E.
    - destruct (IH m eq_refl) as [Hm Hall]. split.
      + destruct (Z.max_spec k m) as [[_ ->]|[_ ->]]; set_solver.
      + intros k' [->|Hk']%elem_of_cons; [lia|]. specialize (Hall _ Hk'). lia.
    - destruct l; [|done]. split; set_solver by lia. }
  destruct Hl as [Hp Hall]. split.
  - apply list_elem_of_fmap_1 in Hp as ([k l]&->&Hkl%elem_of_map_to_list). simpl. eauto.
  - intros k [l Hk]. apply Hall. apply list_elem_of_fmap. exists (k, l). split; [done|].
    by apply elem_of_map_to_list.
Qed.

Lemma highest_key_None w : highest_key w = None -> w = ∅.
Proof.
  unfold highest_key. destruct (map_to_list w) eqn:E; [|done]. intros _.
  by apply map_to_list_empty_iff.
Qed.

Lemma load_delete w p l : w !! p = Some l -> load w = (S (length l) + load (delete p w))%nat.
Proof.
  intros Hp. unfold load. rewrite <-(insert_delete_id w p l Hp) at 1.
  rewrite map_to_list_insert by apply lookup_delete_eq. done.
Qed.

Lemma load_insert w p l l' :
  w !! p = Some l -> (load (<[p := l']> w) + length l = load w + length l')%nat.
Proof.
  intros Hp. rewrite (load_delete (<[p:=l']> w) p l') by apply lookup_insert_eq.
  rewrite delete_insert_eq, (load_delete w p l) by done. lia.
Qed.

(** With enough fuel the loop does what the specification says. *)
Lemma notify_loop_spec alive fuel w :
  (load w < fuel)%nat ->
  let '(woken, w') := notify_loop alive fuel w in
  spec_notify alive (waiters_of w) = (woken, waiters_of w').
Proof.
  revert w. induction fuel as [|fuel IH]; intros w Hf; [lia|]. simpl.
  destruct (highest_key w) as [p|] eqn:Hk.
  2: { apply highest_key_None in Hk as ->. done. }
  apply highest_key_Some in Hk as [[l Hp] Hmax]. rewrite Hp. destruct l as [|x l].
  - rewrite <-(waiters_of_delete_empty w p) by done. apply IH.
    rewrite (load_delete w p []) in Hf by done. simpl in Hf. lia.
  - rewrite (waiters_of_pop w p x l) by done. simpl.
    set (w' := match l with [] => _ | _ => _ end). destruct (alive x); [done|].
    apply IH. subst w'. destruct l as [|y l].
    + rewrite (load_delete w p [x]) in Hf by done. simpl in Hf. lia.
    + pose proof (load_insert w p (x :: y :: l) (y :: l) Hp) as Hl. simpl in Hl, Hf. lia.
Qed.

Lemma notify_role_spec alive w :
  let '(woken, w') := notify_role alive w in
  spec_notify alive (waiters_of w) = (woken, waiters_of w').
Proof. apply notify_loop_spec. lia. Qed.

Lemma desc_app l1 l2 :
  desc l1 -> desc l2 -> (∀ x y, x ∈ l1 -> y ∈ l2 -> y.1 <= x.1) -> desc (l1 ++ l2).
Proof.
  induction 1 as [|x l Hs IH Hx]; intros H2 Hxy; simpl; [done|]. constructor.
  - apply IH; [done|]. set_solver.
  - apply Forall_app. split; [done|]. apply Forall_forall. intros y Hy. apply Hxy; [by left|done].
Qed.

Lemma elem_of_List_filter {A} (f : A -> bool) (x : A) l :
  x ∈ List.filter f l <-> x ∈ l ∧ f x = true.
Proof. by rewrite list_elem_of_In, List.filter_In, <-list_elem_of_In. Qed.

Lemma bucket_filter k f l :
  bucket k (List.filter f l) = List.filter (λ x, (x.1 =? k) && f x) l.
Proof.
  unfold bucket. induction l as [|x l IH]; simpl; [done|].
  destruct (f x); simpl; destruct (x.1 =? k); simpl; by rewrite ?IH.
Qed.

Lemma filter_all_or_none (f g : Z * Z -> bool) l :
  (∀ x, f x = g x) -> List.filter f l = List.filter g l.
Proof. intros H. induction l as [|x l IH]; simpl; [done|]. by rewrite H, IH. Qed.

Lemma filter_false (f : Z * Z -> bool) l : (∀ x, f x = false) -> List.filter f l = [].
Proof. intros H. induction l as [|x l IH]; simpl; [done|]. by rewrite H. Qed.

Lemma register_role_spec w p id :
  waiters_of (<[p := default [] (w !! p) ++ [id]]> w) = spec_register p id (waiters_of w).
Proof.
  apply waiters_of_eq; unfold spec_register.
  - apply desc_app; [apply desc_filter, waiters_of_desc| |].
    + constructor; [apply desc_filter, waiters_of_desc|]. apply Forall_forall.
      intros y [_ Hy]%elem_of_List_filter. simpl. lia.
    + intros x y [_ Hx]%elem_of_List_filter [->|[_ Hy]%elem_of_List_filter]%elem_of_cons;
        simpl; lia.
  - intros k. rewrite bucket_app. unfold bucket at 2. simpl.
    fold (bucket k (List.filter (λ x, x.1 <? p) (waiters_of w))). rewrite !bucket_filter.
    destruct (p =? k) eqn:E; bool_to_prop.
    + subst. rewrite lookup_insert_eq. simpl. rewrite fmap_app, <-waiters_of_bucket. unfold bucket.
      rewrite (filter_false (λ x, _ && (x.1 <? k))) by lia.
      f_equal. apply filter_all_or_none. lia.
    + rewrite lookup_insert_ne, <-waiters_of_bucket by done. unfold bucket.
      destruct (k <? p) eqn:Hlt; bool_to_prop.
      * rewrite filter_false by lia. apply filter_all_or_none. lia.
      * rewrite (filter_false (λ x, _ && (x.1 <? p))), app_nil_r by lia.
        apply filter_all_or_none. lia.
Qed.

(** [n] slots freed one after the other: the tickets woken. *)
Fixpoint notify_n (alive : Z -> bool) (n : nat) (q : Inner) (role : Role) : list Z * Inner :=
  match n with
  | O => ([], q)
  | S n =>
      let '(woken, q1) := notify alive q role in
      let '(rest, q2) := notify_n alive n q1 role in
      (match woken with Some id => id :: rest | None => rest end, q2)
  end.

Definition live_waiters (alive : Z -> bool) (l : list (Z * Z)) : list Z :=
  List.filter alive (snd <$> l).

Lemma spec_notify_live alive l :
  let '(woken, l') := spec_notify alive l in
  live_waiters alive l =
    match woken with Some id => id :: live_waiters alive l' | None => [] end ∧
  (woken = None -> l' = []).
Proof.
  induction l as [|[p id] l IH]; simpl; [done|]. unfold live_waiters. simpl.
  destruct (alive id); [done|]. apply IH.
Qed.

Lemma notify_queue alive q role :
  let '(woken, q') := notify alive q role in
  spec_notify alive (queue_of q role) = (woken, queue_of q' role) ∧
  ∀ role', role' <> role -> queue_of q' role' = queue_of q role'.
Proof.
  unfold notify, queue_of. destruct (by_role q !! role) as [w|] eqn:E.
  - pose proof (notify_role_spec alive w) as H. destruct (notify_role alive w) as [woken w'].
    simpl. rewrite lookup_insert_eq. split; [done|]. intros. by rewrite lookup_insert_ne.
  - rewrite E. done.
Qed.

(** ** Properties *)

(** C19. The nested maps implement one list per role.  Registering puts the
    ticket behind every waiter of the same or a higher priority and before
    every lower one; notifying drops the abandoned waiters in front and wakes
    the first live one, highest priority first and in order of arrival; the
    other roles' queues do not change, and the wake-up loop always
    terminates. *)
Theorem wait_queue_refines (q : Inner) (role : Role) (priority : Z) (alive : Z -> bool) :
  (let '(id, q') := register q role priority in
   id = next_id q ∧ queue_of q' role = spec_register priority id (queue_of q role) ∧
   ∀ role', role' <> role -> queue_of q' role' = queue_of q role') ∧
  (let '(woken, q') := notify alive q role in
   spec_notify alive (queue_of q role) = (woken, queue_of q' role) ∧
   ∀ role', role' <> role -> queue_of q' role' = queue_of q role').
Proof.
  split; [|apply notify_queue]. unfold register, queue_of. simpl.
  rewrite lookup_insert_eq. split_and!; [done|apply register_role_spec|].
  intros. by rewrite lookup_insert_ne.
Qed.

(** No live waiter is skipped: [n] notifications wake exactly the first
    [n] live waiters of the role in priority order, each once. *)
Theorem notify_in_order (alive : Z -> bool) (n : nat) (q : Inner) (role : Role) :
  (notify_n alive n q role).1 = take n (live_waiters alive (queue_of q role)).
Proof.
  revert q. induction n as [|n IH]; intros q; [done|]. simpl.
  pose proof (notify_queue alive q role) as H. destruct (notify alive q role) as [woken q1].
  destruct H as [H _]. pose proof (spec_notify_live alive (queue_of q role)) as Hl.
  rewrite H in Hl. destruct Hl as [-> Hnone]. specialize (IH q1).
  destruct (notify_n alive n q1 role) as [rest q2]. simpl in *. subst rest.
  destruct woken as [id|]; simpl; [done|]. rewrite Hnone by done. unfold live_waiters. simpl. by destruct n.
Qed.

(** The queue on a small run: two roles, three priorities, one dead ticket. *)
Example wait_queue_run :
  let q := (register queue_empty Text 0).2 in
  let q := (register q Text 5).2 in
  let q := (register q Embed 9).2 in
  let q := (register q Text 5).2 in
  (notify_n (λ id, negb (id =? 1)) 3 q Text).1 = [3; 0].
Proof. vm_compute. reflexivity. Qed.
