(* ===== verification/Capacity.v ===== *)
(** * Capacity guards

    Models [scheduler/src/capacity.rs] (token buckets, the three capacity
    variants and their permits), [scheduler/src/bandwidth.rs] and
    [scheduler/src/time_window.rs].  An [Instant] is a number of nanoseconds;
    a semaphore is its number of available permits, and is never closed.  The
    mutexes make every bucket operation atomic: each is a function of the
    bucket and of the clock's reading [now]. *)

From stdpp Require Import base list.
From Stdlib Require Import ZArith Lia SpecFloat.
From S2P Require Import Prelude FloatModel.
Open Scope Z_scope.

(** ** Token bucket *)

Record TokenBucket := mkTokenBucket {
  tb_rate : f64;
  tb_max_tokens : f64;
  tb_tokens : f64;
  tb_last_refill : Z;
}.
#[global] Instance TokenBucket_eq_dec : EqDecision TokenBucket.
Proof. unfold f64. solve_decision. Defined.

Definition bucket_new (rate max_tokens : f64) (now : Z) : TokenBucket :=
  mkTokenBucket rate max_tokens max_tokens now.

Definition with_tokens (b : TokenBucket) (t : f64) : TokenBucket :=
  mkTokenBucket (tb_rate b) (tb_max_tokens b) t (tb_last_refill b).

(** [Instant::duration_since] saturates at zero; [Duration::as_secs_f64]. *)
Definition NANOS_PER_SEC : Z := 1000000000.
Definition as_secs_f64 (nanos : Z) : f64 :=
  f64_add (f64_of_Z (nanos / NANOS_PER_SEC))
          (f64_div (f64_of_Z (nanos mod NANOS_PER_SEC)) (f64_of_Z NANOS_PER_SEC)).

Definition refill (b : TokenBucket) (now : Z) : TokenBucket :=
  let elapsed := as_secs_f64 (Z.max 0 (now - tb_last_refill b)) in
  let tokens :=
    if f_lt (f64_of_Z 0) elapsed && f_lt (tb_tokens b) (tb_max_tokens b)
    then f_min (f64_add (tb_tokens b) (f64_mul elapsed (tb_rate b))) (tb_max_tokens b)
    else tb_tokens b in
  mkTokenBucket (tb_rate b) (tb_max_tokens b) tokens now.

Definition try_consume (b : TokenBucket) (now : Z) (n : f64) : bool * TokenBucket :=
  let b := refill b now in
  if f_le n (tb_tokens b) then (true, with_tokens b (f64_sub (tb_tokens b) n)) else (false, b).

Definition refund (b : TokenBucket) (n : f64) : TokenBucket :=
  with_tokens b (f_min (f64_add (tb_tokens b) n) (tb_max_tokens b)).

Definition available (b : TokenBucket) (now : Z) : f64 * TokenBucket :=
  let b := refill b now in (tb_tokens b, b).

Arguments refill : simpl never.
Arguments try_consume : simpl never.

(** ** Capacity *)

Inductive Capacity :=
| Slots (sem : Z)
| Concurrency (sem : Z)
| Rated (sem : Z) (rpm tpm : TokenBucket).
#[global] Instance Capacity_eq_dec : EqDecision Capacity.
Proof. solve_decision. Defined.

Definition new_slots (n : Z) : Capacity := Slots n.
Definition new_concurrency (n : Z) : Capacity := Concurrency n.
Definition new_rated (conc : Z) (rpm_rate tpm_rate : f64) (now : Z) : Capacity :=
  Rated conc (bucket_new (f64_div rpm_rate (f64_of_Z 60)) rpm_rate now)
             (bucket_new (f64_div tpm_rate (f64_of_Z 60)) tpm_rate now).

Definition free (c : Capacity) : Z :=
  match c with Slots sem | Concurrency sem | Rated sem _ _ => sem end.

Definition one : f64 := f64_of_Z 1.
Definition zero : f64 := f64_of_Z 0.

(** [Semaphore::try_acquire_owned]. *)
Definition sem_try (sem : Z) : option Z := if 0 <? sem then Some (sem - 1) else None.

(** Whether a permit was handed out, and the guard afterwards. *)
Definition try_acquire (c : Capacity) (now : Z) : bool * Capacity :=
  match c with
  | Slots sem =>
      match sem_try sem with Some s => (true, Slots s) | None => (false, c) end
  | Concurrency sem =>
      match sem_try sem with Some s => (true, Concurrency s) | None => (false, c) end
  | Rated sem rpm tpm =>
      let '(ok, rpm) := try_consume rpm now one in
      if negb ok then (false, Rated sem rpm tpm)
      else
        let '(_, tpm) := try_consume tpm now zero in
        match sem_try sem with
        | Some s => (true, Rated s rpm tpm)
        | None => (false, Rated sem (refund rpm one) tpm)
        end
  end.

(** [acquire] once the semaphore lets it through; [None] while it waits.
    [Some false] is the rated guard whose request bucket is empty. *)
Definition acquire_ready (c : Capacity) (now : Z) : option (bool * Capacity) :=
  match c with
  | Slots sem => (λ s, (true, Slots s)) <$> sem_try sem
  | Concurrency sem => (λ s, (true, Concurrency s)) <$> sem_try sem
  | Rated sem rpm tpm =>
      match sem_try sem with
      | None => None
      | Some s =>
          let '(ok, rpm) := try_consume rpm now one in
          if negb ok then Some (false, Rated (s + 1) rpm tpm)
          else Some (true, Rated s rpm (try_consume tpm now zero).2)
      end
  end.

(** [CapacityPermit::drop] and the release of the semaphore permit it holds. *)
Definition drop_permit (c : Capacity) : Capacity :=
  match c with
  | Slots sem => Slots (sem + 1)
  | Concurrency sem => Concurrency (sem + 1)
  | Rated sem rpm tpm => Rated (sem + 1) (refund rpm one) tpm
  end.

Definition cap_is_usable (c : Capacity) (now : Z) : bool * Capacity :=
  match c with
  | Slots _ | Concurrency _ => (true, c)
  | Rated sem rpm tpm =>
      let '(t, rpm) := available rpm now in (f_le one t, Rated sem rpm tpm)
  end.

(** ** Bandwidth limiter *)

Definition BYTES_PER_MB : f64 := f64_of_Z 1000000.
Definition MIN_BYTES_THRESHOLD : f64 := f64_of_Z 1000000.

Record BandwidthLimiter := mkBandwidthLimiter { bl_bucket : TokenBucket; bl_rate_mbps : f64 }.

Definition limiter_new (rate_mbps : f64) (now : Z) : BandwidthLimiter :=
  let bytes_per_sec := f64_mul rate_mbps BYTES_PER_MB in
  mkBandwidthLimiter (bucket_new bytes_per_sec bytes_per_sec now) rate_mbps.

Definition try_consume_bytes (l : BandwidthLimiter) (now : Z) (bytes : f64)
    : bool * BandwidthLimiter :=
  let '(ok, b) := try_consume (bl_bucket l) now bytes in
  (ok, mkBandwidthLimiter b (bl_rate_mbps l)).

Definition limiter_available (l : BandwidthLimiter) (now : Z) : bool * BandwidthLimiter :=
  let '(t, b) := available (bl_bucket l) now in
  (f_le MIN_BYTES_THRESHOLD t, mkBandwidthLimiter b (bl_rate_mbps l)).

(** ** Time window

    The local time enters as its ISO weekday (1 is Monday) and hour. *)

Record TimeWindow := mkTimeWindow {
  hour_ranges : list (Z * Z);
  days_of_week : list Z;
}.

Definition window_is_active (w : TimeWindow) (weekday hour : Z) : bool :=
  let day_ok := match days_of_week w with
                | [] => true
                | ds => bool_decide ((weekday - 1) ∈ ds)
                end in
  let hour_ok := match hour_ranges w with
                 | [] => true
                 | rs => existsb (λ r, (r.1 <=? hour) && (hour <? r.2)) rs
                 end in
  day_ok && hour_ok.

(** ** Histories of one guard *)

Inductive cap_event :=
| CapTry (now : Z)
| CapWait (now : Z)
| CapDrop
| CapPeek (now : Z).

(** The guard and the number of permits out. *)
Definition cap_step (st : Capacity * Z) (ev : cap_event) : Capacity * Z :=
  let '(c, held) := st in
  match ev with
  | CapTry now => let '(ok, c') := try_acquire c now in (c', if ok then held + 1 else held)
  | CapWait now =>
      match acquire_ready c now with
      | None => (c, held)
      | Some (ok, c') => (c', if ok then held + 1 else held)
      end
  | CapDrop => if 0 <? held then (drop_permit c, held - 1) else (c, held)
  | CapPeek now => ((cap_is_usable c now).2, held)
  end.
Definition cap_run (st : Capacity * Z) (evs : list cap_event) : Capacity * Z :=
  fold_left cap_step evs st.

(** ** Lemmas *)

Lemma try_acquire_free c now :
  let '(ok, c') := try_acquire c now in
  free c' = (if ok then free c - 1 else free c) ∧ (ok = true -> 0 < free c).
Proof.
  destruct c as [sem|sem|sem rpm tpm]; simpl; unfold sem_try.
  - destruct (0 <? sem) eqn:E; simpl; split; lia.
  - destruct (0 <? sem) eqn:E; simpl; split; lia.
  - destruct (try_consume rpm now one) as [[] rpm']; simpl; [|split; [done|lia]].
    destruct (try_consume tpm now zero) as [? tpm'].
    destruct (0 <? sem) eqn:E; simpl; split; lia.
Qed.

Lemma acquire_ready_free c now ok c' :
  acquire_ready c now = Some (ok, c') ->
  free c' = (if ok then free c - 1 else free c) ∧ 0 < free c.
Proof.
  destruct c as [sem|sem|sem rpm tpm]; simpl; unfold sem_try; intros H.
  - destruct (0 <? sem) eqn:E; simplify_eq/=; lia.
  - destruct (0 <? sem) eqn:E; simplify_eq/=; lia.
  - destruct (0 <? sem) eqn:E; [|done].
    destruct (try_consume rpm now one) as [[] rpm']; simplify_eq/=; lia.
Qed.

Lemma drop_permit_free c : free (drop_permit c) = free c + 1.
Proof. by destruct c. Qed.

Lemma cap_is_usable_free c now : free (cap_is_usable c now).2 = free c.
Proof. destruct c; simpl; try done. Qed.

Lemma cap_step_conserves st ev n :
  free st.1 + st.2 = n -> 0 <= free st.1 -> 0 <= st.2 ->
  let st' := cap_step st ev in free st'.1 + st'.2 = n ∧ 0 <= free st'.1 ∧ 0 <= st'.2.
Proof.
  destruct st as [c held]. simpl. intros Hn Hc Hh. destruct ev as [now|now| |now]; simpl.
  - pose proof (try_acquire_free c now) as H. destruct (try_acquire c now) as [[] c'];
      destruct H as [Hf Hp]; simpl; lia.
  - destruct (acquire_ready c now) as [[[] c']|] eqn:E; simpl; [..|lia];
      apply acquire_ready_free in E; lia.
  - destruct (0 <? held) eqn:E; simpl; [rewrite drop_permit_free|]; lia.
  - rewrite cap_is_usable_free. lia.
Qed.

Lemma try_consume_ok b now n : (try_consume b now n).1 = f_le n (tb_tokens (refill b now)).
Proof. unfold try_consume. by destruct (f_le n (tb_tokens (refill b now))). Qed.

(** When the buckets allow it: the exact condition for a permit. *)
Definition rate_ok (c : Capacity) (now : Z) : bool :=
  match c with
  | Rated _ rpm _ => f_le one (tb_tokens (refill rpm now))
  | _ => true
  end.

(** ** Properties *)

(** Concurrency is bounded: over any history of fast and waiting
    acquisitions, permit drops and usability checks, the permits available
    and the permits held always add up to the configured number, whatever the
    rate buckets do; in particular a guard never has more requests in flight
    than configured, and a failed attempt leaks no permit. *)
Theorem permits_conserved (c : Capacity) (evs : list cap_event) :
  0 <= free c ->
  let st := cap_run (c, 0) evs in
  free st.1 + st.2 = free c ∧ 0 <= free st.1 ∧ 0 <= st.2 <= free c.
Proof.
  intros Hc.
  assert (H : ∀ evs st, free st.1 + st.2 = free c -> 0 <= free st.1 -> 0 <= st.2 ->
    free (cap_run st evs).1 + (cap_run st evs).2 = free c ∧
    0 <= free (cap_run st evs).1 ∧ 0 <= (cap_run st evs).2).
  { clear evs. induction evs as [|ev evs IH]; intros st H1 H2 H3; [done|]. simpl.
    destruct (cap_step_conserves st ev (free c) H1 H2 H3) as (?&?&?). by apply IH. }
  destruct (H evs (c, 0)) as (?&?&?); simpl in *; lia.
Qed.

(** [try_acquire] succeeds exactly when a semaphore permit is free and, for
    a rated guard, the request bucket holds a whole token after its refill;
    and it agrees with [is_usable] at the same instant. *)
Theorem try_acquire_exact (c : Capacity) (now : Z) :
  (try_acquire c now).1 = (0 <? free c) && rate_ok c now ∧
  (cap_is_usable c now).1 = rate_ok c now.
Proof.
  split; [|by destruct c].
  destruct c as [sem|sem|sem rpm tpm]; unfold try_acquire, rate_ok, free, sem_try.
  - by destruct (0 <? sem).
  - by destruct (0 <? sem).
  - rewrite <-try_consume_ok. destruct (try_consume rpm now one) as [[] rpm'].
    + destruct (try_consume tpm now zero). by destruct (0 <? sem).
    + by rewrite andb_false_r.
Qed.

(** Refills and refunds never overfill a bucket, whatever the elapsed time
    and amount: the balance afterwards is at most [max_tokens]. *)
Theorem bucket_never_overfull (b : TokenBucket) (now : Z) (n : f64) :
  f_le (tb_tokens b) (tb_max_tokens b) = true ->
  f_le (tb_tokens (refill b now)) (tb_max_tokens b) = true ∧
  f_le (tb_tokens (refund b n)) (tb_max_tokens b) = true.
Proof.
  intros Hb. assert (tb_max_tokens b <> S754_nan) as Hnan.
  { intros Hn. rewrite Hn in Hb. by destruct (tb_tokens b) as [[]|[]| |[]]. }
  unfold refill, refund. simpl. split; [|by apply f_min_le_r].
  destruct (_ && _); [by apply f_min_le_r|done].
Qed.

(** [n] sequential requests at one instant, each dropping its permit. *)
Fixpoint request_cycles (n : nat) (c : Capacity) (now : Z) : nat * Capacity :=
  match n with
  | O => (O, c)
  | S n =>
      let '(ok, c1) := try_acquire c now in
      if ok then let '(m, c2) := request_cycles n (drop_permit c1) now in (S m, c2)
      else request_cycles n c1 now
  end.

Definition fresh_rated (rpm : Z) : Capacity := new_rated 1 (f64_of_Z rpm) (f64_of_Z 1000) 0.

(** One acquire and drop on a full guard gives back the same guard. *)
Definition cycle_is_identity (rpm : Z) : bool :=
  let '(ok, c1) := try_acquire (fresh_rated rpm) 0 in
  ok && bool_decide (drop_permit c1 = fresh_rated rpm).

Lemma cycle_is_identity_spec rpm :
  cycle_is_identity rpm = true ->
  ∃ c1, try_acquire (fresh_rated rpm) 0 = (true, c1) ∧ drop_permit c1 = fresh_rated rpm.
Proof.
  unfold cycle_is_identity. destruct (try_acquire (fresh_rated rpm) 0) as [ok c1].
  intros [-> H]%andb_true_iff. exists c1. split; [done|]. by apply bool_decide_eq_true in H.
Qed.

Lemma cycles_checked :
  Forall (λ rpm, cycle_is_identity rpm = true) (Z.of_nat <$> seq 1 1000).
Proof. apply (bool_decide_unpack _). vm_compute. done. Qed.

(** The requests-per-minute limit does not limit requests per minute: a
    permit gives its request token back when it is dropped, so on a guard with
    any limit from 1 to 1000 requests per minute, any number of sequential
    requests succeed within a single instant. *)
Theorem rpm_limit_refunded (rpm : Z) (n : nat) :
  1 <= rpm <= 1000 -> request_cycles n (fresh_rated rpm) 0 = (n, fresh_rated rpm).
Proof.
  intros Hr. assert (cycle_is_identity rpm = true) as Hc.
  { pose proof cycles_checked as H. rewrite Forall_forall in H. apply H.
    apply list_elem_of_fmap. exists (Z.to_nat rpm). split; [lia|]. apply elem_of_seq. lia. }
  apply cycle_is_identity_spec in Hc as (c1&Ht&Hd).
  induction n as [|n IH]; cbn [request_cycles]; [done|]. by rewrite Ht, Hd, IH.
Qed.

Lemma permits_conserved_witness :
  let st := cap_run (fresh_rated 60, 0) [CapTry 0; CapTry 0; CapDrop; CapWait 5] in
  free st.1 + st.2 = 1 ∧ 0 <= free st.1 ∧ 0 <= st.2 <= 1.
Proof. apply (permits_conserved (fresh_rated 60)). vm_compute. discriminate. Defined.

Lemma bucket_never_overfull_witness :
  let b := bucket_new one (f64_of_Z 60) 0 in
  f_le (tb_tokens (refill b 5)) (f64_of_Z 60) = true ∧
  f_le (tb_tokens (refund b one)) (f64_of_Z 60) = true.
Proof. apply (bucket_never_overfull (bucket_new one (f64_of_Z 60) 0) 5 one). reflexivity. Defined.

Lemma rpm_limit_refunded_witness : request_cycles 500 (fresh_rated 3) 0 = (500%nat, fresh_rated 3).
Proof. apply (rpm_limit_refunded 3 500). lia. Defined.
