(* ===== verification/Backend.v ===== *)
(** * Backends and their materialization from the database

    Models [scheduler/src/backend.rs] and [scheduler/src/materialize.rs].  An
    [Arc<Backend>] is a pointer: its immutable fields are in [defs], the live
    ones (capacity, health flag, cooldown, time window, bandwidth limiter),
    which every clone shares, in [live].  The adapter and the secret reference
    are not modelled: the first is only handed on, the second is [None] on
    every path of the scheduler. *)

From stdpp Require Import base gmap list strings pretty.
From Stdlib Require Import ZArith Lia.
From S2P Require Import Prelude FloatModel Role Quota Routing Capacity.
Open Scope Z_scope.

Record Pricing := mkPricing { input_per_mtok : f64; output_per_mtok : f64 }.

Record BackendDef := mkBackendDef {
  b_id : string;
  b_endpoint : option string;
  b_model_id : string;
  b_caps : CapSet;
  b_max_concurrency : Z;
  b_pricing : option Pricing;
  b_data_class : DataClass;
  b_priority : Z;
  b_ctx_tokens : option Z;
}.

Record BackendLive := mkBackendLive {
  b_capacity : Capacity;
  b_healthy : bool;
  b_cooldown_until : option Z;
  b_time_window : option TimeWindow;
  b_bandwidth : option BandwidthLimiter;
}.

Record Heap := mkHeap {
  defs : gmap Z BackendDef;
  live : gmap Z BackendLive;
  next_ptr : Z;
}.

(** [Backend::new] behind an [Arc]: a fresh pointer. *)
Definition live_new (c : Capacity) : BackendLive := mkBackendLive c true None None None.
Definition backend_new (h : Heap) (d : BackendDef) (c : Capacity) : Z * Heap :=
  let p := next_ptr h in
  (p, mkHeap (<[p := d]> (defs h)) (<[p := live_new c]> (live h)) (p + 1)).

Definition set_live (h : Heap) (p : Z) (l : BackendLive) : Heap :=
  mkHeap (defs h) (<[p := l]> (live h)) (next_ptr h).

Definition supports (d : BackendDef) (role : Role) : bool := capset_supports (b_caps d) role.

(** ** Live-state operations *)

Definition cooldown_active (l : BackendLive) (now : Z) : bool :=
  match b_cooldown_until l with Some until => now <? until | None => false end.
Definition set_cooldown (l : BackendLive) (until : Z) : BackendLive :=
  mkBackendLive (b_capacity l) (b_healthy l) (Some until) (b_time_window l) (b_bandwidth l).
Definition clear_cooldown (l : BackendLive) : BackendLive :=
  mkBackendLive (b_capacity l) (b_healthy l) None (b_time_window l) (b_bandwidth l).
Definition set_healthy (l : BackendLive) (v : bool) : BackendLive :=
  mkBackendLive (b_capacity l) v (b_cooldown_until l) (b_time_window l) (b_bandwidth l).
Definition set_capacity (l : BackendLive) (c : Capacity) : BackendLive :=
  mkBackendLive c (b_healthy l) (b_cooldown_until l) (b_time_window l) (b_bandwidth l).
Definition set_time_window (l : BackendLive) (w : option TimeWindow) : BackendLive :=
  mkBackendLive (b_capacity l) (b_healthy l) (b_cooldown_until l) w (b_bandwidth l).
Definition set_bandwidth_limiter (l : BackendLive) (b : option BandwidthLimiter) : BackendLive :=
  mkBackendLive (b_capacity l) (b_healthy l) (b_cooldown_until l) (b_time_window l) b.

(** The local clock: ISO weekday and hour. *)
Record LocalTime := mkLocalTime { weekday : Z; hour : Z }.

Definition is_in_time_window (l : BackendLive) (t : LocalTime) : bool :=
  match b_time_window l with
  | None => true
  | Some w => window_is_active w (weekday t) (hour t)
  end.

Definition bandwidth_available (l : BackendLive) (now : Z) : bool * BackendLive :=
  match b_bandwidth l with
  | None => (true, l)
  | Some bl => let '(ok, bl') := limiter_available bl now in
               (ok, set_bandwidth_limiter l (Some bl'))
  end.

Definition try_consume_bandwidth (l : BackendLive) (now : Z) (bytes : f64) : bool * BackendLive :=
  match b_bandwidth l with
  | None => (true, l)
  | Some bl => let '(ok, bl') := try_consume_bytes bl now bytes in
               (ok, set_bandwidth_limiter l (Some bl'))
  end.

(** ** Materialization *)

Definition DEFAULT_DB_SLOTS : Z := 1.
Definition UNLIMITED_PER_MIN : f64 := f64_of_Z (10 ^ 12).

Definition db_backend_key (model_id : Z) : string := "db:" +:+ pretty model_id.
Definition is_db_backend_key (key : string) : bool := String.prefix "db:" key.

(** [filter_map(|c| Role::from_str(c).ok())]. *)
Definition parse_roles (caps : list string) : list Role :=
  omap (λ c, match from_str (T:=Role) c with Ok r => Some r | Err _ => None end) caps.

Definition capset_for (e : RoutingEntry) : CapSet :=
  match parse_roles (m_caps (re_model e)) with
  | [] => capset_from_slice [re_role e]
  | roles => capset_from_slice roles
  end.

Definition conc_for (m : ModelRow) : Z :=
  match m_max_conc m with
  | None => DEFAULT_DB_SLOTS
  | Some c => Z.max (if 0 <=? c then c else 1) 1
  end.

Definition per_min (limit : option Z) : f64 := from_option f64_of_Z UNLIMITED_PER_MIN limit.
Definition wants_rated (m : ModelRow) : bool :=
  bool_decide (is_Some (m_rpm m)) || bool_decide (is_Some (m_tpm m)).

Definition capacity_for (m : ModelRow) (now : Z) : Capacity :=
  if wants_rated m then new_rated (conc_for m) (per_min (m_rpm m)) (per_min (m_tpm m)) now
  else new_slots (conc_for m).

Definition pricing_for (m : ModelRow) : option Pricing :=
  match m_price_in m, m_price_out m with
  | None, None => None
  | pi, po => Some (mkPricing (default (f64_of_Z 0) pi) (default (f64_of_Z 0) po))
  end.

Definition served_kind (k : ProviderKind) : bool :=
  match k with LocalProvider | OpenAiCompat => true | _ => false end.

Definition servable (e : RoutingEntry) : bool :=
  served_kind (p_kind (re_provider e)) &&
  bool_decide (is_Some (p_endpoint (re_provider e))) &&
  bool_decide (p_api_key_enc (re_provider e) = None).

Definition materialize_backend (e : RoutingEntry) (now : Z) : option (BackendDef * Capacity) :=
  let provider := re_provider e in
  let model := re_model e in
  if negb (served_kind (p_kind provider)) then None
  else
    match p_endpoint provider with
    | None => None
    | Some endpoint =>
        match p_api_key_enc provider with
        | Some _ => None
        | None =>
            Some (mkBackendDef (db_backend_key (m_id model)) (Some endpoint) (m_model_id model)
                    (capset_for e) (conc_for model) (pricing_for model) (m_data_class model) 0
                    (m_ctx_tokens model),
                  capacity_for model now)
        end
    end.

(** [Option<Pricing>] equality is on [f64]s: a NaN price differs from itself. *)
Definition pricing_eqb (a b : option Pricing) : bool :=
  match a, b with
  | None, None => true
  | Some x, Some y => f_eq (input_per_mtok x) (input_per_mtok y) &&
                      f_eq (output_per_mtok x) (output_per_mtok y)
  | _, _ => false
  end.

Definition definition_matches (d : BackendDef) (l : BackendLive) (e : RoutingEntry) : bool :=
  let model := re_model e in
  if negb (servable e) then false
  else if bool_decide (b_endpoint d <> p_endpoint (re_provider e))
       || bool_decide (b_model_id d <> m_model_id model)
       || bool_decide (b_data_class d <> m_data_class model)
       || negb (pricing_eqb (b_pricing d) (pricing_for model))
       || negb (b_caps d =? capset_for e)
       || negb (b_max_concurrency d =? conc_for model)
       || bool_decide (b_ctx_tokens d <> m_ctx_tokens model)
  then false
  else
    match b_capacity l with
    | Slots _ => negb (wants_rated model)
    | Rated _ rpm tpm =>
        wants_rated model && f_eq (tb_max_tokens rpm) (per_min (m_rpm model))
        && f_eq (tb_max_tokens tpm) (per_min (m_tpm model))
    | Concurrency _ => false
    end.

(** The flat map [DashMap<String, Arc<Backend>>]. *)
Notation BackendMap := (gmap string Z).

(** [desired]: the first entry of each model; the loop over it visits the keys
    in the order they first appear, where the code iterates a [HashMap]: the
    order only decides which fresh pointer a new backend gets. *)
Fixpoint desired_of (es : list RoutingEntry) (seen : list string) : list (string * RoutingEntry) :=
  match es with
  | [] => []
  | e :: es =>
      let key := db_backend_key (m_id (re_model e)) in
      if decide (key ∈ seen) then desired_of es seen
      else (key, e) :: desired_of es (key :: seen)
  end.

(** [if !preserved { .. }]. *)
Definition materialize_into (now : Z) (h : Heap) (m : BackendMap) (key : string)
    (e : RoutingEntry) : Heap * BackendMap :=
  match materialize_backend e now with
  | Some (d, c) => let '(p, h') := backend_new h d c in (h', <[key := p]> m)
  | None => (h, delete key m)
  end.

(** The body of the loop over [desired]. *)
Definition sync_one (now : Z) (st : Heap * BackendMap) (ke : string * RoutingEntry)
    : Heap * BackendMap :=
  let '(h, m) := st in
  let '(key, e) := ke in
  let preserved :=
    p ← m !! key; d ← defs h !! p; l ← live h !! p;
    if definition_matches d l e then Some (set_live h p (set_healthy l true)) else None in
  match preserved with
  | Some h' => (h', m)
  | None => materialize_into now h m key e
  end.

Definition sync_backends (h : Heap) (m : BackendMap) (es : list RoutingEntry) (now : Z)
    : Heap * BackendMap :=
  let desired := desired_of es [] in
  let '(h', m') := fold_left (sync_one now) desired (h, m) in
  (h', filter (λ kp, is_db_backend_key kp.1 = false ∨ kp.1 ∈ (fst <$> desired)) m').

Definition prune_all (m : BackendMap) : BackendMap :=
  filter (λ kp, is_db_backend_key kp.1 = false) m.

(** ** What a key resolves to *)

Definition view (h : Heap) (m : BackendMap) (k : string) : option (Z * BackendDef * BackendLive) :=
  p ← m !! k; d ← defs h !! p; l ← live h !! p; Some (p, d, l).

(** Every registered pointer is allocated, and no two keys share one. *)
Record heap_ok (h : Heap) (m : BackendMap) : Prop := {
  hok_alloc : ∀ k p, m !! k = Some p ->
    p < next_ptr h ∧ is_Some (defs h !! p) ∧ is_Some (live h !! p);
  hok_inj : ∀ k k' p, m !! k = Some p -> m !! k' = Some p -> k = k';
}.

(** The outcome for a desired key: an unchanged definition keeps its pointer
    and live state, health reset; a changed one gets a fresh backend; an
    unservable one is gone. *)
Definition rebuilt (h : Heap) (now : Z) (e : RoutingEntry)
    (after : option (Z * BackendDef * BackendLive)) : Prop :=
  match materialize_backend e now with
  | Some (d', c) => ∃ p', next_ptr h <= p' ∧ after = Some (p', d', live_new c)
  | None => after = None
  end.
Definition synced (h : Heap) (now : Z) (e : RoutingEntry)
    (before after : option (Z * BackendDef * BackendLive)) : Prop :=
  match before with
  | Some (p, d, l) =>
      if definition_matches d l e then after = Some (p, d, set_healthy l true)
      else rebuilt h now e after
  | None => rebuilt h now e after
  end.

Lemma view_None h m k : heap_ok h m -> view h m k = None -> m !! k = None.
Proof.
  intros Hok. unfold view. destruct (m !! k) as [p|] eqn:E; [|done].
  destruct (hok_alloc _ _ Hok k p E) as (_&[d Hd]&[l Hl]). simpl. by rewrite Hd; simpl; rewrite Hl.
Qed.

Lemma view_Some h m k p d l :
  view h m k = Some (p, d, l) <-> m !! k = Some p ∧ defs h !! p = Some d ∧ live h !! p = Some l.
Proof.
  unfold view. destruct (m !! k) as [q|]; simpl; [|naive_solver].
  destruct (defs h !! q) as [d'|] eqn:E1; simpl; [|split; [done|]; intros ([= ->]&?&?); congruence].
  destruct (live h !! q) as [l'|] eqn:E2; simpl; [|split; [done|]; intros ([= ->]&?&?); congruence].
  split; [naive_solver|]. intros ([= ->]&?&?). congruence.
Qed.

(** Registering a fresh backend under a key. *)
Lemma new_view h m key d c :
  heap_ok h m ->
  let '(p, h') := backend_new h d c in
  heap_ok h' (<[key := p]> m) ∧ p = next_ptr h ∧ next_ptr h <= next_ptr h' ∧
  view h' (<[key := p]> m) key = Some (p, d, live_new c) ∧
  ∀ k, k <> key -> view h' (<[key := p]> m) k = view h m k.
Proof.
  intros Hok. simpl. split_and!; [|done|lia| |].
  - split.
    + intros k p [[<- <-]|[Hne Hk]]%lookup_insert_Some; simpl.
      * rewrite !lookup_insert_eq. split; [lia|eauto].
      * destruct (hok_alloc _ _ Hok k p Hk) as (?&?&?).
        rewrite !lookup_insert_ne by lia. split; [lia|done].
    + intros k k' p [[<- <-]|[Hne Hk]]%lookup_insert_Some
        [[<- ?]|[Hne' Hk']]%lookup_insert_Some; try done.
      * destruct (hok_alloc _ _ Hok k' _ Hk'). lia.
      * subst. destruct (hok_alloc _ _ Hok k _ Hk). lia.
      * by eapply hok_inj.
  - apply view_Some. simpl. by rewrite !lookup_insert_eq.
  - intros k Hne. unfold view. rewrite lookup_insert_ne by done.
    destruct (m !! k) as [p|] eqn:E; [|done]. simpl.
    destruct (hok_alloc _ _ Hok k p E). by rewrite !lookup_insert_ne by lia.
Qed.

Lemma delete_view h m key :
  heap_ok h m ->
  heap_ok h (delete key m) ∧ view h (delete key m) key = None ∧
  ∀ k, k <> key -> view h (delete key m) k = view h m k.
Proof.
  intros Hok. split_and!.
  - split; [intros k p [_ ?]%lookup_delete_Some; by eapply hok_alloc|].
    intros k k' p [_ ?]%lookup_delete_Some [_ ?]%lookup_delete_Some. by eapply hok_inj.
  - unfold view. by rewrite lookup_delete_eq.
  - intros k Hne. unfold view. by rewrite lookup_delete_ne.
Qed.

Lemma set_live_view h m key p d l l' :
  heap_ok h m -> view h m key = Some (p, d, l) ->
  heap_ok (set_live h p l') m ∧ view (set_live h p l') m key = Some (p, d, l') ∧
  ∀ k, k <> key -> view (set_live h p l') m k = view h m k.
Proof.
  intros Hok (Hk&Hd&Hl)%view_Some. split_and!.
  - split; [|apply Hok]. intros k q Hq. simpl. destruct (hok_alloc _ _ Hok k q Hq) as (?&?&?).
    split_and!; [done..|]. destruct (decide (p = q)) as [<-|];
      [rewrite lookup_insert_eq; eauto|by rewrite lookup_insert_ne].
  - apply view_Some. simpl. by rewrite lookup_insert_eq.
  - intros k Hne. unfold view. destruct (m !! k) as [q|] eqn:E; [|done]. simpl.
    rewrite lookup_insert_ne; [done|]. intros ->. by apply Hne, (hok_inj _ _ Hok _ _ q).
Qed.

Lemma materialize_into_spec now h m key e :
  heap_ok h m ->
  let '(h', m') := materialize_into now h m key e in
  heap_ok h' m' ∧ next_ptr h <= next_ptr h' ∧ rebuilt h now e (view h' m' key) ∧
  ∀ k, k <> key -> view h' m' k = view h m k.
Proof.
  intros Hok. unfold materialize_into, rebuilt. destruct (materialize_backend e now) as [[d c]|].
  - pose proof (new_view h m key d c Hok) as H. destruct (backend_new h d c) as [p h'].
    destruct H as (?&->&?&?&?). split_and!; [done..| |done]. exists (next_ptr h). split; [lia|done].
  - destruct (delete_view h m key Hok) as (?&?&?). split_and!; [done|lia|done|done].
Qed.

Lemma sync_one_spec now h m key e :
  heap_ok h m ->
  let '(h', m') := sync_one now (h, m) (key, e) in
  heap_ok h' m' ∧ next_ptr h <= next_ptr h' ∧
  synced h now e (view h m key) (view h' m' key) ∧
  ∀ k, k <> key -> view h' m' k = view h m k.
Proof.
  intros Hok. unfold sync_one, synced. pose proof (materialize_into_spec now h m key e Hok) as Hm.
  destruct (view h m key) as [[[p d] l]|] eqn:V.
  - pose proof V as (Hk&Hd&Hl)%view_Some. rewrite Hk. simpl. rewrite Hd. simpl. rewrite Hl. simpl.
    destruct (definition_matches d l e); [|done].
    destruct (set_live_view h m key p d l (set_healthy l true) Hok V) as (?&?&?).
    split_and!; [done|simpl; lia|done|done].
  - apply view_None in V as Hk; [|done]. by rewrite Hk.
Qed.

(** The loop: each desired key is synced from its state before the loop. *)
Lemma sync_fold_spec now ds h m :
  heap_ok h m -> NoDup (fst <$> ds) ->
  let '(h', m') := fold_left (sync_one now) ds (h, m) in
  heap_ok h' m' ∧ next_ptr h <= next_ptr h' ∧
  (∀ k e, (k, e) ∈ ds -> synced h now e (view h m k) (view h' m' k)) ∧
  (∀ k, k ∉ (fst <$> ds) -> view h' m' k = view h m k).
Proof.
  revert h m. induction ds as [|[key e] ds IH]; intros h m Hok Hnd; cbn [fold_left].
  { split_and!; [done|lia|set_solver|done]. }
  apply NoDup_cons in Hnd as [Hnk Hnd].
  pose proof (sync_one_spec now h m key e Hok) as H1.
  destruct (sync_one now (h, m) (key, e)) as [h1 m1]. destruct H1 as (Hok1&Hn1&Hs1&Ho1).
  specialize (IH h1 m1 Hok1 Hnd). destruct (fold_left (sync_one now) ds (h1, m1)) as [h' m'].
  destruct IH as (Hok'&Hn'&Hs'&Ho'). split_and!; [done|lia| |].
  - intros k e' [[= -> ->]|Hin]%elem_of_cons; [by rewrite Ho'|].
    assert (k <> key) as Hne. { intros ->. apply Hnk. by apply (list_elem_of_fmap_2 fst ds (key, e')). }
    specialize (Hs' k e' Hin). rewrite Ho1 in Hs' by done.
    assert (Hr : ∀ a, rebuilt h1 now e' a -> rebuilt h now e' a).
    { intros a. unfold rebuilt. destruct (materialize_backend e' now) as [[d' c]|]; [|done].
      intros (p'&?&?). exists p'. split; [lia|done]. }
    unfold synced in *. destruct (view h m k) as [[[p d] l]|]; [|auto].
    destruct (definition_matches d l e'); auto.
  - intros k Hk. simpl in Hk. rewrite Ho' by set_solver. apply Ho1. set_solver.
Qed.

(** ** The desired keys *)

Definition first_entry (es : list RoutingEntry) (k : string) : option RoutingEntry :=
  List.find (λ e, bool_decide (db_backend_key (m_id (re_model e)) = k)) es.

Lemma desired_of_spec es seen k e :
  (k, e) ∈ desired_of es seen <-> k ∉ seen ∧ first_entry es k = Some e.
Proof.
  revert seen. induction es as [|x es IH]; intros seen; simpl; [set_solver|].
  set (key := db_backend_key (m_id (re_model x))). unfold first_entry. simpl.
  fold (first_entry es k). fold key. case_decide as Hs; [|rewrite elem_of_cons]; rewrite IH.
  - case_bool_decide as Hk; [subst k; naive_solver|done].
  - case_bool_decide as Hk; [subst k; set_solver|]. rewrite not_elem_of_cons. naive_solver.
Qed.

Lemma desired_of_NoDup es seen : NoDup (fst <$> desired_of es seen).
Proof.
  revert seen. induction es as [|x es IH]; intros seen; simpl; [constructor|].
  case_decide; [done|]. simpl. apply NoDup_cons. split; [|done].
  intros Hin. apply list_elem_of_fmap_1 in Hin as ([k e]&Heq&[Hk _]%desired_of_spec).
  simpl in Heq. subst. apply Hk. by left.
Qed.

Lemma desired_keys es k :
  k ∈ (fst <$> desired_of es []) <-> is_Some (first_entry es k).
Proof.
  rewrite list_elem_of_fmap. split.
  - intros ([k' e]&->&[_ He]%desired_of_spec). eauto.
  - intros [e He]. exists (k, e). split; [done|]. apply desired_of_spec. set_solver.
Qed.

Lemma first_entry_db es k e : first_entry es k = Some e -> is_db_backend_key k = true.
Proof.
  intros [_ Hk]%List.find_some. apply bool_decide_eq_true in Hk as <-.
  unfold is_db_backend_key, db_backend_key. by destruct (pretty (m_id (re_model e))).
Qed.

Lemma filter_view h m (P : string * Z -> Prop) `{!∀ x, Decision (P x)} k :
  (∀ p, m !! k = Some p -> P (k, p)) -> view h (filter P m) k = view h m k.
Proof.
  intros HP. unfold view. destruct (m !! k) as [p|] eqn:E.
  - rewrite (map_lookup_filter_Some_2 _ _ _ p) by auto. done.
  - by rewrite map_lookup_filter_None_2 by auto.
Qed.

(** ** Property *)

(** Applying a routing snapshot is exact.  A config backend keeps its
    pointer, definition and live state.  A [db:] key with no entry in the
    snapshot is gone.  A [db:] key whose first entry has an unchanged
    definition keeps its pointer and its live state (permits in flight
    included) with the health flag set; if the definition changed or the key
    is new it holds a freshly allocated backend built from that entry, and if
    the provider cannot be served it is gone.  The registry stays well
    formed. *)
Theorem sync_backends_exact (h : Heap) (m : BackendMap) (es : list RoutingEntry) (now : Z) :
  heap_ok h m ->
  let '(h', m') := sync_backends h m es now in
  heap_ok h' m' ∧
  ∀ k, if is_db_backend_key k
       then match first_entry es k with
            | Some e => synced h now e (view h m k) (view h' m' k)
            | None => m' !! k = None
            end
       else view h' m' k = view h m k.
Proof.
  intros Hok. unfold sync_backends. pose proof (desired_of_NoDup es []) as Hnd.
  pose proof (sync_fold_spec now _ h m Hok Hnd) as H.
  destruct (fold_left (sync_one now) (desired_of es []) (h, m)) as [h' m'].
  destruct H as (Hok'&_&Hs&Ho). split.
  - split; [intros k p [? _]%map_lookup_filter_Some; by eapply hok_alloc|].
    intros k k' p [? _]%map_lookup_filter_Some [? _]%map_lookup_filter_Some. by eapply hok_inj.
  - intros k. destruct (is_db_backend_key k) eqn:Hdb.
    + destruct (first_entry es k) as [e|] eqn:He.
      * rewrite filter_view; [|intros p _; right; simpl; apply desired_keys; eauto].
        apply Hs. apply desired_of_spec. set_solver.
      * apply map_lookup_filter_None. right. intros p _ [?|Hin]; simpl in *; [congruence|].
        apply desired_keys in Hin as [? ?]. congruence.
    + rewrite filter_view; [|intros p _; by left]. apply Ho. intros [e He]%desired_keys.
      apply first_entry_db in He. congruence.
Qed.

Definition demo_backend (id : string) : BackendDef :=
  mkBackendDef id (Some "http://localhost:8001/v1") id (capset_from_slice [Text; Embed]) 2 None
    Local 0 None.
Definition demo_heap : Heap :=
  mkHeap {[1 := demo_backend "cfg"; 2 := demo_backend "db:5"]}
    {[1 := live_new (new_slots 2); 2 := live_new (new_slots 2)]} 3.
Definition demo_map : BackendMap := {["cfg" := 1; "db:5" := 2]}.

Lemma demo_heap_ok : heap_ok demo_heap demo_map.
Proof.
  split.
  - apply (map_Forall_insert_2 (λ _ p, p < 3 ∧ is_Some (defs demo_heap !! p) ∧
      is_Some (live demo_heap !! p))); [by split_and!; eauto|].
    apply map_Forall_singleton. split_and!; [done|by eexists..].
  - intros k k' p Hk Hk'. unfold demo_map in *.
    apply lookup_insert_Some in Hk as [[<- <-]|[? [<- <-]%lookup_singleton_Some]];
      apply lookup_insert_Some in Hk' as [[<- ?]|[? [<- ?]%lookup_singleton_Some]]; done.
Qed.

Lemma sync_backends_exact_witness :
  let '(h', m') := sync_backends demo_heap demo_map [demo_entry None 0 7] 0 in
  heap_ok h' m' ∧
  ∀ k, if is_db_backend_key k
       then match first_entry [demo_entry None 0 7] k with
            | Some e => synced demo_heap 0 e (view demo_heap demo_map k) (view h' m' k)
            | None => m' !! k = None
            end
       else view h' m' k = view demo_heap demo_map k.
Proof.
  apply (sync_backends_exact demo_heap demo_map [demo_entry None 0 7] 0). apply demo_heap_ok.
Defined.
