(* ===== verification/Pool.v ===== *)
(** * The scheduler pool and tiered acquisition

    Models [scheduler/src/pool.rs], [scheduler/src/tiered.rs],
    [scheduler/src/lease.rs] and [scheduler/src/error.rs].  The synchronous
    stretches of [acquire] run on the pool state; at every await point other
    tasks may have changed the live state of the backends and the wait queue,
    so what the caller finds when it resumes is an input: a schedule of wake-ups
    and time-outs.  A schedule that ends while the caller waits gives
    [Waiting] with the state it left.  Registration state and definitions do not change under a
    running acquire: the [ArcSwap] guard and the [Arc]s it resolves are
    snapshots. *)

From stdpp Require Import base gmap list strings sorting.
From Stdlib Require Import ZArith Lia.
From S2P Require Import Prelude StableSort FloatModel Role Quota Routing Capacity WaitQueue Backend.
Open Scope Z_scope.

(** ** Data *)

Inductive AcquireError :=
| NoBackend (role : Role)
| Timeout (after : Z)
| Closed
| CapacityExhausted (role : Role) (tiers_attempted : nat).

(** [l_ptr] stands for the held permit, [l_notify] for [_on_drop]. *)
Record Lease := mkLease {
  l_backend_id : string;
  l_endpoint : string;
  l_ptr : Z;
  l_notify : option Role;
}.
Definition lease_new (d : BackendDef) (p : Z) : Lease :=
  mkLease (b_id d) (default "" (b_endpoint d)) p None.
Definition with_notify (l : Lease) (role : Role) : Lease :=
  mkLease (l_backend_id l) (l_endpoint l) (l_ptr l) (Some role).

Record Pool := mkPool {
  by_role : gmap Role (list Z);
  backends : BackendMap;
  acquire_timeout : Z;
  routing : option RoutingTable;
  rr_counters : gmap (Z * Z) Z;
  wait_queue : Inner;
  fallback_warned : gmap Z Z;
  heap : Heap;
}.

Definition set_heap (s : Pool) (h : Heap) : Pool :=
  mkPool (by_role s) (backends s) (acquire_timeout s) (routing s) (rr_counters s) (wait_queue s)
    (fallback_warned s) h.
Definition set_queue (s : Pool) (q : Inner) : Pool :=
  mkPool (by_role s) (backends s) (acquire_timeout s) (routing s) (rr_counters s) q
    (fallback_warned s) (heap s).
Definition set_counters (s : Pool) (c : gmap (Z * Z) Z) : Pool :=
  mkPool (by_role s) (backends s) (acquire_timeout s) (routing s) c (wait_queue s)
    (fallback_warned s) (heap s).
Definition set_warned (s : Pool) (w : gmap Z Z) : Pool :=
  mkPool (by_role s) (backends s) (acquire_timeout s) (routing s) (rr_counters s) (wait_queue s)
    w (heap s).
Definition put_routing (s : Pool) (r : option RoutingTable) : Pool :=
  mkPool (by_role s) (backends s) (acquire_timeout s) r (rr_counters s) (wait_queue s)
    (fallback_warned s) (heap s).
Definition set_backends (s : Pool) (h : Heap) (m : BackendMap) : Pool :=
  mkPool (by_role s) m (acquire_timeout s) (routing s) (rr_counters s) (wait_queue s)
    (fallback_warned s) h.

(** The clocks at one moment. *)
Record Env := mkEnv { e_now : Z; e_local : LocalTime }.

(** ** Construction *)

Record BackendConfig := mkBackendConfig {
  c_id : string; c_base_url : string; c_roles : list Role; c_slots : Z; c_priority : Z;
}.

Definition backend_from_config (cfg : BackendConfig) : BackendDef * Capacity :=
  (mkBackendDef (c_id cfg) (Some (c_base_url cfg)) (c_id cfg) (capset_from_slice (c_roles cfg))
     (c_slots cfg) None Local (c_priority cfg) None,
   new_slots (c_slots cfg)).

(** [by_role.entry(role).or_default().push(b)]. *)
Definition push_role (m : gmap Role (list Z)) (role : Role) (p : Z) : gmap Role (list Z) :=
  <[role := default [] (m !! role) ++ [p]]> m.

Definition register_backend (s : Pool) (bc : BackendDef * Capacity) : Pool :=
  let '(p, h) := backend_new (heap s) bc.1 bc.2 in
  mkPool (fold_left (λ m role, if supports bc.1 role then push_role m role p else m)
            (all Role) (by_role s))
    (<[b_id bc.1 := p]> (backends s)) (acquire_timeout s) (routing s) (rr_counters s)
    (wait_queue s) (fallback_warned s) h.

Definition pool_new (bs : list (BackendDef * Capacity)) (timeout : Z) : Pool :=
  fold_left register_backend bs
    (mkPool ∅ ∅ timeout None ∅ queue_empty ∅ (mkHeap ∅ ∅ 0)).
Definition pool_from_config (cfgs : list BackendConfig) (timeout : Z) : Pool :=
  pool_new (backend_from_config <$> cfgs) timeout.

(** ** Queries and routing updates *)

Definition backends_for (s : Pool) (role : Role) : list Z := default [] (by_role s !! role).
Definition find_backend (s : Pool) (id : string) : option Z := backends s !! id.
Definition set_routing (s : Pool) (t : RoutingTable) : Pool := put_routing s (Some t).
Definition clear_routing (s : Pool) : Pool := put_routing s None.
Definition has_routing (s : Pool) : bool := bool_decide (is_Some (routing s)).

(** [None] is the panic of [from_entries]; the backends are synced by then. *)
Definition apply_routing (s : Pool) (es : list RoutingEntry) (now : Z) : option Pool :=
  match es with
  | [] => let s := clear_routing s in Some (set_backends s (heap s) (prune_all (backends s)))
  | _ =>
      let '(h, m) := sync_backends (heap s) (backends s) es now in
      t ← from_entries es; Some (set_routing (set_backends s h m) t)
  end.

(** Each registered pointer once, role by role in declaration order (the
    code's order over the [DashMap] is unspecified). *)
Definition all_backends (s : Pool) : list Z :=
  remove_dups (all Role ≫= backends_for s).

Definition role_context_tokens (s : Pool) (role : Role) : option Z :=
  let ctxs := omap (λ p,
    d ← defs (heap s) !! p; l ← live (heap s) !! p;
    if b_healthy l then b_ctx_tokens d else None) (backends_for s role) in
  wrap usize <$> foldl (λ acc c, Some (match acc with None => c | Some m => Z.min m c end)) None ctxs.

(** ** Candidates *)

Definition free_of (h : Heap) (p : Z) : Z :=
  from_option (λ l, free (b_capacity l)) 0 (live h !! p).

(** The conjunction both paths evaluate, in order; the usability and
    bandwidth checks refill their buckets. *)
Definition eligible_now (d : BackendDef) (l : BackendLive) (env : Env) : bool * BackendLive :=
  if negb (b_healthy l) then (false, l)
  else if cooldown_active l (e_now env) then (false, l)
  else
    let '(usable, c) := cap_is_usable (b_capacity l) (e_now env) in
    let l := set_capacity l c in
    if negb usable then (false, l)
    else if bool_decide (b_endpoint d = None) then (false, l)
    else if negb (is_in_time_window l (e_local env)) then (false, l)
    else bandwidth_available l (e_now env).

Fixpoint filter_candidates (residency : DataClass -> bool) (env : Env) (h : Heap) (ps : list Z)
    : list Z * Heap :=
  match ps with
  | [] => ([], h)
  | p :: ps =>
      match defs h !! p, live h !! p with
      | Some d, Some l =>
          let '(ok, l') := eligible_now d l env in
          let '(rest, h') := filter_candidates residency env (set_live h p l') ps in
          (if ok && residency (b_data_class d) then p :: rest else rest, h')
      | _, _ => filter_candidates residency env h ps
      end
  end.

(** [!local_only || class == Local] and [!(local_only && class == Remote)]. *)
Definition legacy_residency (local_only : bool) (c : DataClass) : bool :=
  negb local_only || bool_decide (c = Local).
Definition tiered_residency (local_only : bool) (c : DataClass) : bool :=
  negb (local_only && bool_decide (c = Remote)).

(** [try_fast_path], and [fast_path_try_acquire] of the tiered module. *)
Fixpoint try_fast_path (h : Heap) (cands : list Z) (now : Z) : option Lease * Heap :=
  match cands with
  | [] => (None, h)
  | p :: ps =>
      match defs h !! p, live h !! p with
      | Some d, Some l =>
          let '(ok, c) := try_acquire (b_capacity l) now in
          let h := set_live h p (set_capacity l c) in
          if ok then (Some (lease_new d p), h) else try_fast_path h ps now
      | _, _ => try_fast_path h ps now
      end
  end.

(** ** Waiting *)

Inductive outcome :=
| Waiting (s : Pool)
| Finished (r : result Lease AcquireError) (s : Pool).

(** What the caller finds at an await point of the wait queue. *)
Inductive wake :=
| Woken (env : Env) (lv : gmap Z BackendLive) (q : Inner)
| TimedOut.

Definition resume (s : Pool) (lv : gmap Z BackendLive) (q : Inner) : Pool :=
  set_queue (set_heap s (mkHeap (defs (heap s)) lv (next_ptr (heap s)))) q.

(** The common loop of [wait_on_candidates] and [wait_on_union]: [finish] is
    what each does to the lease, [expired] its error. *)
Fixpoint wait_loop (finish : Lease -> Lease) (expired : AcquireError) (cands : list Z)
    (role : Role) (priority : Z) (s : Pool) (sched : list wake) : outcome :=
  match sched with
  | [] => Waiting s
  | TimedOut :: _ => Finished (Err expired) s
  | Woken env lv q :: sched =>
      let s := resume s lv q in
      match try_fast_path (heap s) cands (e_now env) with
      | (Some lease, h) => Finished (Ok (finish lease)) (set_heap s h)
      | (None, h) =>
          let s := set_queue (set_heap s h) (register (wait_queue s) role priority).2 in
          wait_loop finish expired cands role priority s sched
      end
  end.

Definition wait_on_candidates (cands : list Z) (role : Role) (priority : Z) (s : Pool)
    (sched : list wake) : outcome :=
  let s := set_queue s (register (wait_queue s) role priority).2 in
  wait_loop (λ l, l) (Timeout (acquire_timeout s)) cands role priority s sched.

Definition wait_on_union (cands : list Z) (role : Role) (tiers_attempted : nat) (priority : Z)
    (s : Pool) (sched : list wake) : outcome :=
  let s := set_queue s (register (wait_queue s) role priority).2 in
  wait_loop (λ l, with_notify l role) (CapacityExhausted role tiers_attempted) cands role priority
    s sched.

(** ** The legacy path *)

Definition legacy_candidates (s : Pool) (env : Env) (role : Role) (local_only : bool)
    : list Z * Heap :=
  let '(cands, h) := filter_candidates (legacy_residency local_only) env (heap s)
                       (backends_for s role) in
  (sort_by_key2 (λ p, from_option b_priority 0 (defs h !! p))
     (λ p, saturating_sub usize (ity_max usize) (free_of h p)) cands, h).

Definition acquire_legacy (s : Pool) (env : Env) (role : Role) (local_only : bool) (priority : Z)
    (sched : list wake) : outcome :=
  let '(cands, h) := legacy_candidates s env role local_only in
  let s := set_heap s h in
  match cands with
  | [] => Finished (Err (NoBackend role)) s
  | _ =>
      match try_fast_path h cands (e_now env) with
      | (Some lease, h) => Finished (Ok (with_notify lease role)) (set_heap s h)
      | (None, h) => wait_on_candidates cands role priority (set_heap s h) sched
      end
  end.

(** ** The tiered path *)

Definition role_to_rr_key (role : Role) : Z :=
  match role with Text => 1 | Vision => 2 | Code => 4 | Embed => 8 | Rerank => 16 end.

Definition ordered_cost (p : Pricing) : Z :=
  f64_to_u64 (f64_mul (f64_add (input_per_mtok p) (output_per_mtok p)) (f64_of_Z 1000000)).

Definition rotate_left {A} (n : nat) (l : list A) : list A := drop n l ++ take n l.

Definition order_by_strategy (s : Pool) (cands : list Z) (strategy : RoutingStrategy)
    (role : Role) (tier_index : Z) : list Z * Pool :=
  match strategy with
  | LeastLoaded => (sort_by_key (λ p, - free_of (heap s) p) cands, s)
  | RoundRobin =>
      if (1 <? length cands)%nat then
        let key := (role_to_rr_key role, tier_index) in
        let counter := default 0 (rr_counters s !! key) in
        let idx := counter mod Z.of_nat (length cands) in
        (rotate_left (Z.to_nat idx) cands,
         set_counters s (<[key := wrapping_add usize counter 1]> (rr_counters s)))
      else (cands, s)
  | CostAsc =>
      (sort_by_key (λ p, from_option ordered_cost 0 (d ← defs (heap s) !! p; b_pricing d)) cands, s)
  | Priority => (cands, s)
  end.

Definition resolve_and_filter (s : Pool) (env : Env) (entries : list RoutingEntry)
    (local_only : bool) : list Z * Heap :=
  filter_candidates (tiered_residency local_only) env (heap s)
    (omap (λ e, backends s !! db_backend_key (m_id (re_model e))) entries).

(** What the caller finds after [wait_on_tier]: the spill delay elapsed, or
    the semaphore of candidate [p] let the first of the waiting acquisitions
    through. *)
Inductive tier_wait :=
| Elapsed (env : Env) (lv : gmap Z BackendLive) (q : Inner)
| Resolved (env : Env) (lv : gmap Z BackendLive) (q : Inner) (p : Z).

Definition wait_env (w : tier_wait) : Env :=
  match w with Elapsed env _ _ | Resolved env _ _ _ => env end.

(** A rated guard whose request bucket is empty resolves to no permit, which
    ends the wait as the time-out does. *)
Definition wait_on_tier (cands : list Z) (s : Pool) (w : tier_wait) : option Lease * Pool :=
  match w with
  | Elapsed _ lv q => (None, resume s lv q)
  | Resolved env lv q p =>
      let s := resume s lv q in
      if decide (p ∈ cands) then
        match defs (heap s) !! p, live (heap s) !! p with
        | Some d, Some l =>
            match acquire_ready (b_capacity l) (e_now env) with
            | Some (ok, c) =>
                (if ok then Some (lease_new d p) else None,
                 set_heap s (set_live (heap s) p (set_capacity l c)))
            | None => (None, s)
            end
        | _, _ => (None, s)
        end
      else (None, s)
  end.

(** How the loop over the tiers ends: still waiting, a lease, or every tier
    spilled, with the union of the candidates tried. *)
Inductive tiers_result :=
| TiersWaiting (s : Pool)
| TiersLease (l : Lease) (s : Pool)
| TiersUnion (cands : list Z) (s : Pool).

Fixpoint tiers_loop (role : Role) (local_only : bool) (tiers : list (list RoutingEntry))
    (tier_index : Z) (union : list Z) (s : Pool) (env : Env) (sched : list tier_wait)
    : tiers_result :=
  match tiers with
  | [] => TiersUnion union s
  | [] :: tiers => tiers_loop role local_only tiers (tier_index + 1) union s env sched
  | (e0 :: es) :: tiers =>
      let '(cands, h) := resolve_and_filter s env (e0 :: es) local_only in
      let s := set_heap s h in
      match cands with
      | [] => tiers_loop role local_only tiers (tier_index + 1) union s env sched
      | _ =>
          let '(cands, s) := order_by_strategy s cands (re_strategy e0) role tier_index in
          match try_fast_path (heap s) cands (e_now env) with
          | (Some lease, h) => TiersLease (with_notify lease role) (set_heap s h)
          | (None, h) =>
              match sched with
              | [] => TiersWaiting (set_heap s h)
              | w :: sched =>
                  match wait_on_tier cands (set_heap s h) w with
                  | (Some lease, s) => TiersLease (with_notify lease role) s
                  | (None, s) =>
                      tiers_loop role local_only tiers (tier_index + 1) (union ++ cands) s
                        (wait_env w) sched
                  end
              end
          end
      end
  end.

Definition effective_tiers (role : Role) (tiers : list (list RoutingEntry))
    : list (list RoutingEntry) :=
  if decide (role = Embed) then take 1 tiers else tiers.

Definition acquire_tiered (role : Role) (priority : Z) (tenant_id : option Z) (t : RoutingTable)
    (s : Pool) (env : Env) (local_only : bool) (tsched : list tier_wait) (wsched : list wake)
    : outcome :=
  let tiers := effective_tiers role (tiers_for t tenant_id role) in
  match tiers with
  | [] => Finished (Err (NoBackend role)) s
  | _ =>
      match tiers_loop role local_only tiers 0 [] s env tsched with
      | TiersWaiting s => Waiting s
      | TiersLease l s => Finished (Ok l) s
      | TiersUnion [] s => Finished (Err (NoBackend role)) s
      | TiersUnion union s => wait_on_union union role (length tiers) priority s wsched
      end
  end.

(** ** [acquire] *)

Definition FALLBACK_WARN_EVERY : Z := 30 * NANOS_PER_SEC.

Definition should_warn_fallback (s : Pool) (now : Z) (role : Role) : bool * Pool :=
  let key := role_to_rr_key role in
  let last := default (now - FALLBACK_WARN_EVERY) (fallback_warned s !! key) in
  if FALLBACK_WARN_EVERY <=? Z.max 0 (now - last)
  then (true, set_warned s (<[key := now]> (fallback_warned s)))
  else (false, set_warned s (<[key := last]> (fallback_warned s))).

(** One call; the registry of backends it looks at is the one in [s] at every
    tier, and [env] what is asked of their state when it resumes. *)
Definition acquire (s : Pool) (env : Env) (role : Role) (local_only : bool) (priority : Z)
    (tsched : list tier_wait) (wsched : list wake) : outcome :=
  match routing s with
  | Some t =>
      match acquire_tiered role priority None t s env local_only tsched wsched with
      | Finished (Err (NoBackend _)) s =>
          let s := (should_warn_fallback s (e_now env) role).2 in
          acquire_legacy s env role local_only priority wsched
      | other => other
      end
  | None => acquire_legacy s env role local_only priority wsched
  end.

(** ** Dropping a lease

    The permit goes back to the backend, and the notification task, if the
    lease carries one, wakes the first live waiter of its role. *)
Definition lease_drop (alive : Z -> bool) (s : Pool) (l : Lease) : option Z * Pool :=
  let h := match live (heap s) !! l_ptr l with
           | Some lv => set_live (heap s) (l_ptr l) (set_capacity lv (drop_permit (b_capacity lv)))
           | None => heap s
           end in
  let s := set_heap s h in
  match l_notify l with
  | None => (None, s)
  | Some role => let '(woken, q) := notify alive (wait_queue s) role in (woken, set_queue s q)
  end.

(** ** Lemmas *)

(** [p] may be handed out under [ok]. *)
Definition permitted (D : gmap Z BackendDef) (ok : DataClass -> bool) (p : Z) : Prop :=
  ∃ d, D !! p = Some d ∧ ok (b_data_class d) = true ∧ is_Some (b_endpoint d).

Lemma eligible_now_endpoint d l env l' : eligible_now d l env = (true, l') -> is_Some (b_endpoint d).
Proof.
  unfold eligible_now. intros H. destruct (b_endpoint d); [eauto|].
  rewrite bool_decide_eq_true_2 in H by done. case_all; done.
Qed.

Lemma filter_candidates_spec ok env h ps :
  let '(cands, h') := filter_candidates ok env h ps in
  defs h' = defs h ∧ ∀ p, p ∈ cands -> p ∈ ps ∧ permitted (defs h) ok p.
Proof.
  revert h. induction ps as [|p ps IH]; intros h; simpl; [set_solver|].
  destruct (defs h !! p) as [d|] eqn:Hd, (live h !! p) as [l|] eqn:Hl;
    try (specialize (IH h); destruct (filter_candidates ok env h ps);
         destruct IH as [? Hc]; split; [done|]; intros q Hq; destruct (Hc q Hq); split; [by right|done]).
  destruct (eligible_now d l env) as [e l'] eqn:He. specialize (IH (set_live h p l')).
  destruct (filter_candidates ok env (set_live h p l') ps) as [rest h'].
  destruct IH as [Hdefs Hc]. simpl in *. split; [done|]. intros q Hq.
  destruct (e && ok (b_data_class d)) eqn:Hok; [|destruct (Hc q Hq); split; [by right|done]].
  apply elem_of_cons in Hq as [->|Hq]; [|destruct (Hc q Hq); split; [by right|done]].
  apply andb_true_iff in Hok as [-> Hok]. split; [by left|]. exists d.
  split_and!; [done..|]. by eapply eligible_now_endpoint.
Qed.

Lemma try_fast_path_defs h cands now : defs (try_fast_path h cands now).2 = defs h.
Proof.
  revert h. induction cands as [|p ps IH]; intros h; simpl; [done|].
  destruct (defs h !! p) as [d|], (live h !! p) as [l|]; try apply IH.
  destruct (try_acquire (b_capacity l) now) as [[] c]; simpl; [done|]. by rewrite IH.
Qed.

Lemma try_fast_path_Some h cands now lease :
  (try_fast_path h cands now).1 = Some lease ->
  ∃ p d, p ∈ cands ∧ defs h !! p = Some d ∧ lease = lease_new d p.
Proof.
  revert h. induction cands as [|p ps IH]; intros h; simpl; [done|].
  assert (Hrec : ∀ h', defs h' = defs h -> (try_fast_path h' ps now).1 = Some lease ->
    ∃ p0 d, p0 ∈ p :: ps ∧ defs h !! p0 = Some d ∧ lease = lease_new d p0).
  { intros h' Hdefs (q&d&?&Hd&->)%IH. rewrite Hdefs in Hd. exists q, d. split; [by right|done]. }
  destruct (defs h !! p) as [d|] eqn:Hd, (live h !! p) as [l|]; try (by apply Hrec).
  destruct (try_acquire (b_capacity l) now) as [[] c]; simpl; [|by apply Hrec].
  intros [= <-]. exists p, d. split; [by left|done].
Qed.

(** A lease handed out of candidates [cands] under definitions [D]. *)
Definition from_candidates (D : gmap Z BackendDef) (cands : list Z) (notify : option Role)
    (lease : Lease) : Prop :=
  l_ptr lease ∈ cands ∧
  ∃ d, D !! l_ptr lease = Some d ∧ l_backend_id lease = b_id d ∧
       l_endpoint lease = default "" (b_endpoint d) ∧ l_notify lease = notify.

Lemma fast_path_from h cands now lease :
  (try_fast_path h cands now).1 = Some lease -> from_candidates (defs h) cands None lease.
Proof. intros (p&d&?&?&->)%try_fast_path_Some. split; [done|]. exists d. done. Qed.

Lemma with_notify_from D cands o role lease :
  from_candidates D cands o lease -> from_candidates D cands (Some role) (with_notify lease role).
Proof. intros [? (d&?&?&?&_)]. split; [done|]. exists d. done. Qed.

(** What the wait loop ends with. *)
Lemma wait_loop_spec finish o expired cands role priority s sched :
  (∀ D l, from_candidates D cands None l -> from_candidates D cands o (finish l)) ->
  match wait_loop finish expired cands role priority s sched with
  | Waiting s' => defs (heap s') = defs (heap s)
  | Finished (Ok lease) s' =>
      from_candidates (defs (heap s)) cands o lease ∧ defs (heap s') = defs (heap s)
  | Finished (Err e) s' => e = expired ∧ defs (heap s') = defs (heap s)
  end.
Proof.
  intros Hfin. revert s. induction sched as [|[env lv q|] sched IH]; intros s; simpl; [done| |done].
  pose proof (try_fast_path_defs (mkHeap (defs (heap s)) lv (next_ptr (heap s))) cands (e_now env)) as Hd.
  pose proof (fast_path_from (mkHeap (defs (heap s)) lv (next_ptr (heap s))) cands (e_now env)) as Hf.
  destruct (try_fast_path _ cands (e_now env)) as [[lease|] h]; simpl in *.
  - split; [|done]. by apply Hfin, Hf.
  - specialize (IH (set_queue (set_heap (resume s lv q) h) (register q role priority).2)).
    simpl in IH. rewrite Hd in IH. exact IH.
Qed.

Lemma order_by_strategy_spec s cands strategy role i :
  let '(cands', s') := order_by_strategy s cands strategy role i in
  cands' ≡ₚ cands ∧ heap s' = heap s ∧ backends s' = backends s.
Proof.
  destruct strategy; simpl; try (split; [apply sort_by_perm|done]); try done.
  destruct (1 <? length cands)%nat; [|done]. split; [|done]. unfold rotate_left.
  by rewrite Permutation_app_comm, take_drop.
Qed.

(** The live backends a list of routing entries resolves to. *)
Definition resolves (s : Pool) (entries : list RoutingEntry) (p : Z) : Prop :=
  ∃ e, e ∈ entries ∧ backends s !! db_backend_key (m_id (re_model e)) = Some p.

Lemma resolve_and_filter_spec s env entries local_only :
  let '(cands, h) := resolve_and_filter s env entries local_only in
  defs h = defs (heap s) ∧
  ∀ p, p ∈ cands -> resolves s entries p ∧ permitted (defs (heap s)) (tiered_residency local_only) p.
Proof.
  unfold resolve_and_filter.
  pose proof (filter_candidates_spec (tiered_residency local_only) env (heap s)
    (omap (λ e, backends s !! db_backend_key (m_id (re_model e))) entries)) as H.
  destruct (filter_candidates _ _ _ _) as [cands h]. destruct H as [Hd Hc]. split; [done|].
  intros p Hp. destruct (Hc p Hp) as [Hin ?]. split; [|done].
  apply list_elem_of_omap in Hin as (e&?&?). exists e. done.
Qed.

Lemma wait_on_tier_spec cands s w :
  let '(o, s') := wait_on_tier cands s w in
  defs (heap s') = defs (heap s) ∧ backends s' = backends s ∧
  ∀ lease, o = Some lease -> from_candidates (defs (heap s)) cands None lease.
Proof.
  destruct w as [env lv q|env lv q p]; simpl; [done|]. case_decide as Hp; [|done].
  destruct (defs (heap s) !! p) as [d|] eqn:Hd, (lv !! p) as [l|]; try done.
  destruct (acquire_ready (b_capacity l) (e_now env)) as [[[] c]|]; try done.
  simpl. split_and!; [done..|]. intros lease [= <-]. split; [done|]. exists d. done.
Qed.

(** Whatever the tiers hand out, or leave for the union wait, comes from their
    own entries and passed the filters. *)
Definition tier_origin (s : Pool) (tiers : list (list RoutingEntry)) (local_only : bool) (p : Z)
    : Prop :=
  resolves s (concat tiers) p ∧ permitted (defs (heap s)) (tiered_residency local_only) p.

Lemma resolves_mono s es es' p : (∀ e, e ∈ es -> e ∈ es') -> resolves s es p -> resolves s es' p.
Proof. intros H (e&?&?). exists e. auto. Qed.

Definition tiers_sound (role : Role) (local_only : bool) (s : Pool)
    (tiers : list (list RoutingEntry)) (union : list Z) (r : tiers_result) : Prop :=
  match r with
  | TiersWaiting s' => defs (heap s') = defs (heap s)
  | TiersLease lease s' =>
      defs (heap s') = defs (heap s) ∧
      ∃ cands, from_candidates (defs (heap s)) cands (Some role) lease ∧
               ∀ p, p ∈ cands -> tier_origin s tiers local_only p
  | TiersUnion union' s' =>
      defs (heap s') = defs (heap s) ∧
      ∀ p, p ∈ union' -> p ∈ union ∨ tier_origin s tiers local_only p
  end.

(** Going on with the remaining tiers, from a state with the same definitions
    and registry. *)
Lemma tiers_sound_cons role local_only s s' tier tiers union union' r :
  defs (heap s') = defs (heap s) -> backends s' = backends s ->
  (∀ p, p ∈ union' -> p ∈ union ∨ tier_origin s (tier :: tiers) local_only p) ->
  tiers_sound role local_only s' tiers union' r ->
  tiers_sound role local_only s (tier :: tiers) union r.
Proof.
  intros Hd Hb Hu Hr.
  assert (Ho : ∀ p, tier_origin s' tiers local_only p -> tier_origin s (tier :: tiers) local_only p).
  { unfold tier_origin, resolves. rewrite Hd, Hb. intros p [(e&He&Hp) ?]. split; [|done].
    exists e. split; [|done]. simpl. apply elem_of_app. by right. }
  unfold tiers_sound in *. rewrite Hd in Hr. destruct r; [done| |].
  - destruct Hr as [? (cands&?&Hc)]. split; [done|]. exists cands. split; [done|]. eauto.
  - destruct Hr as [? Hc]. split; [done|]. intros p Hp. destruct (Hc p Hp); eauto.
Qed.

Lemma tier_origin_head s tier tiers local_only p :
  resolves s tier p -> permitted (defs (heap s)) (tiered_residency local_only) p ->
  tier_origin s (tier :: tiers) local_only p.
Proof.
  intros (e&He&Hp) ?. split; [|done]. exists e. split; [|done].
  change (e ∈ tier ++ concat tiers). apply elem_of_app. by left.
Qed.

Lemma tiers_loop_sound role local_only tiers i union s env sched :
  tiers_sound role local_only s tiers union
    (tiers_loop role local_only tiers i union s env sched).
Proof.
  revert i union s env sched. induction tiers as [|tier tiers IH]; intros i union s env sched.
  { simpl. auto. }
  destruct tier as [|e0 es]; [eapply tiers_sound_cons; [..|apply IH]; auto|]. cbn [tiers_loop].
  pose proof (resolve_and_filter_spec s env (e0 :: es) local_only) as Hr.
  destruct (resolve_and_filter s env (e0 :: es) local_only) as [cands h]. destruct Hr as [Hd Hc].
  destruct cands as [|c0 cs]; [eapply tiers_sound_cons; [..|apply IH]; auto|].
  pose proof (order_by_strategy_spec (set_heap s h) (c0 :: cs) (re_strategy e0) role i) as Hs.
  destruct (order_by_strategy (set_heap s h) (c0 :: cs) (re_strategy e0) role i) as [cands s1].
  destruct Hs as (Hperm&Hh&Hb). simpl in Hh, Hb.
  assert (Horig : ∀ p, p ∈ cands -> tier_origin s ((e0 :: es) :: tiers) local_only p).
  { intros p Hp. destruct (Hc p); [by rewrite <-Hperm|]. by apply tier_origin_head. }
  pose proof (try_fast_path_defs (heap s1) cands (e_now env)) as Hd1.
  pose proof (fast_path_from (heap s1) cands (e_now env)) as Hf.
  destruct (try_fast_path (heap s1) cands (e_now env)) as [[lease|] h1]; simpl in Hd1, Hf.
  { split; [simpl; by rewrite Hd1, Hh|]. exists cands. split; [|done].
    rewrite <-Hd, <-Hh. by eapply with_notify_from, Hf. }
  destruct sched as [|w sched]; [simpl; by rewrite Hd1, Hh|].
  pose proof (wait_on_tier_spec cands (set_heap s1 h1) w) as Hw.
  destruct (wait_on_tier cands (set_heap s1 h1) w) as [[lease|] s2]; simpl in Hw;
    destruct Hw as (Hd2&Hb2&Hl).
  - split; [by rewrite Hd2, Hd1, Hh|]. exists cands. split; [|done].
    rewrite <-Hd, <-Hh, <-Hd1. by eapply with_notify_from, Hl.
  - eapply tiers_sound_cons; [..|apply IH]; [by rewrite Hd2, Hd1, Hh|by rewrite Hb2|].
    intros p [?|?]%elem_of_app; auto.
Qed.

(** ** Both paths *)

Definition outcome_sound (s : Pool) (origin : Z -> Prop) (notifies : option Role -> Prop)
    (o : outcome) : Prop :=
  match o with
  | Waiting s' => defs (heap s') = defs (heap s)
  | Finished (Err _) s' => defs (heap s') = defs (heap s)
  | Finished (Ok lease) s' =>
      defs (heap s') = defs (heap s) ∧
      ∃ cands n, from_candidates (defs (heap s)) cands n lease ∧ notifies n ∧
                 ∀ p, p ∈ cands -> origin p
  end.

Lemma wait_loop_sound finish n expired cands role priority s s0 sched
    (origin : Z -> Prop) (notifies : option Role -> Prop) :
  (∀ D l, from_candidates D cands None l -> from_candidates D cands n (finish l)) ->
  defs (heap s) = defs (heap s0) -> notifies n -> (∀ p, p ∈ cands -> origin p) ->
  outcome_sound s0 origin notifies (wait_loop finish expired cands role priority s sched).
Proof.
  intros Hfin Hd Hn Ho. pose proof (wait_loop_spec finish n expired cands role priority s sched Hfin) as H.
  unfold outcome_sound. destruct (wait_loop _ _ _ _ _ _ _) as [s'|[lease|e] s']; rewrite Hd in H; [done| |naive_solver].
  destruct H as [? ?]. split; [done|]. exists cands, n. done.
Qed.

Definition legacy_origin (s : Pool) (role : Role) (local_only : bool) (p : Z) : Prop :=
  p ∈ backends_for s role ∧ permitted (defs (heap s)) (legacy_residency local_only) p.

Lemma legacy_candidates_spec s env role local_only :
  let '(cands, h) := legacy_candidates s env role local_only in
  defs h = defs (heap s) ∧ ∀ p, p ∈ cands -> legacy_origin s role local_only p.
Proof.
  unfold legacy_candidates.
  pose proof (filter_candidates_spec (legacy_residency local_only) env (heap s) (backends_for s role)) as H.
  destruct (filter_candidates _ _ _ _) as [cands h]. destruct H as [? Hc]. split; [done|].
  intros p. unfold sort_by_key2. rewrite sort_by_elem_of. apply Hc.
Qed.

Lemma acquire_legacy_sound s env role local_only priority sched :
  outcome_sound s (legacy_origin s role local_only) (λ n, n = Some role ∨ n = None)
    (acquire_legacy s env role local_only priority sched).
Proof.
  unfold acquire_legacy. pose proof (legacy_candidates_spec s env role local_only) as H.
  destruct (legacy_candidates s env role local_only) as [cands h]. destruct H as [Hd Ho].
  destruct cands as [|c cs]; [done|].
  pose proof (try_fast_path_defs h (c :: cs) (e_now env)) as Hd1.
  pose proof (fast_path_from h (c :: cs) (e_now env)) as Hf.
  destruct (try_fast_path h (c :: cs) (e_now env)) as [[lease|] h1]; simpl in Hd1, Hf.
  - split; [simpl; congruence|]. exists (c :: cs), (Some role). rewrite <-Hd.
    split; [by eapply with_notify_from, Hf|auto].
  - eapply wait_loop_sound with (n := None); [done|simpl; congruence|auto|done].
Qed.

Lemma acquire_tiered_sound role priority tenant t s env local_only tsched wsched :
  outcome_sound s (tier_origin s (effective_tiers role (tiers_for t tenant role)) local_only)
    (λ n, n = Some role)
    (acquire_tiered role priority tenant t s env local_only tsched wsched).
Proof.
  unfold acquire_tiered. set (tiers := effective_tiers _ _). destruct tiers as [|t0 ts] eqn:E; [done|].
  pose proof (tiers_loop_sound role local_only (t0 :: ts) 0 [] s env tsched) as H.
  destruct (tiers_loop role local_only (t0 :: ts) 0 [] s env tsched) as [s'|lease s'|union s'];
    simpl in H.
  - done.
  - destruct H as [? (cands&?&?)]. split; [done|]. exists cands, (Some role). done.
  - destruct H as [Hd Hu]. destruct union as [|u us]; [done|].
    eapply wait_loop_sound with (n := Some role); [|done|done|].
    + intros. by eapply with_notify_from.
    + intros p Hp. destruct (Hu p Hp) as [Hn|?]; [by apply not_elem_of_nil in Hn|done].
Qed.

(** ** Ready backends are found *)

(** A slot-guarded backend that passes every filter and has a free slot. *)
Definition plain_ready (h : Heap) (ok : DataClass -> bool) (env : Env) (p : Z) : Prop :=
  ∃ d l n, defs h !! p = Some d ∧ live h !! p = Some l ∧ b_healthy l = true ∧
    cooldown_active l (e_now env) = false ∧ b_capacity l = Slots n ∧ 0 < n ∧
    is_Some (b_endpoint d) ∧ is_in_time_window l (e_local env) = true ∧
    b_bandwidth l = None ∧ ok (b_data_class d) = true.

Lemma plain_ready_eligible d l n env :
  b_healthy l = true -> cooldown_active l (e_now env) = false -> b_capacity l = Slots n ->
  is_Some (b_endpoint d) -> is_in_time_window l (e_local env) = true -> b_bandwidth l = None ->
  eligible_now d l env = (true, l).
Proof.
  intros Hh Hc Hn [ep He] Hw Hb. unfold eligible_now. rewrite Hh, Hc, Hn. simpl.
  rewrite bool_decide_eq_false_2 by (rewrite He; done).
  replace (set_capacity l (Slots n)) with l by (destruct l; simpl in *; by subst).
  rewrite Hw. unfold bandwidth_available. by rewrite Hb.
Qed.

Lemma plain_ready_other h ok env p q l :
  plain_ready h ok env p -> p <> q -> plain_ready (set_live h q l) ok env p.
Proof.
  intros (d&lv&n&?&Hl&?) Hne. exists d, lv, n. simpl. rewrite lookup_insert_ne by done. done.
Qed.

Lemma filter_keeps_ready ok env h ps p :
  plain_ready h ok env p ->
  let '(cands, h') := filter_candidates ok env h ps in
  plain_ready h' ok env p ∧ (p ∈ ps -> p ∈ cands).
Proof.
  revert h. induction ps as [|q ps IH]; intros h Hp; simpl; [set_solver|].
  destruct (decide (p = q)) as [<-|Hne].
  - destruct Hp as (d&l&n&Hd&Hl&Hh&Hc&Hn&Hpos&He&Hw&Hb&Hok).
    rewrite Hd, Hl, (plain_ready_eligible d l n env) by done.
    replace (set_live h p l) with h by (destruct h; unfold set_live; simpl in *; by rewrite insert_id).
    specialize (IH h). destruct (filter_candidates ok env h ps) as [rest h']. destruct IH as [? _].
    { exists d, l, n. done. }
    rewrite Hok. simpl. split; [done|]. intros _. by left.
  - assert (Hskip : ∀ h1, plain_ready h1 ok env p ->
      let '(cands, h') := filter_candidates ok env h1 ps in
      plain_ready h' ok env p ∧ (p ∈ q :: ps -> p ∈ cands)).
    { intros h1 H1. specialize (IH h1 H1). destruct (filter_candidates ok env h1 ps).
      destruct IH as [? Hin]. split; [done|]. intros [->|?]%elem_of_cons; [done|auto]. }
    destruct (defs h !! q) as [d|], (live h !! q) as [l|]; try (by apply Hskip).
    destruct (eligible_now d l env) as [e l'].
    specialize (Hskip (set_live h q l') (plain_ready_other _ _ _ _ _ _ Hp Hne)).
    destruct (filter_candidates ok env (set_live h q l') ps) as [rest h'].
    destruct Hskip as [? Hin]. split; [done|]. intros Hps. apply Hin in Hps.
    destruct (e && ok (b_data_class d)); [by right|done].
Qed.

Lemma fast_path_ready ok env h cands p :
  plain_ready h ok env p -> p ∈ cands -> ∃ lease, (try_fast_path h cands (e_now env)).1 = Some lease.
Proof.
  revert h. induction cands as [|q ps IH]; intros h Hp Hin; [set_solver|]. simpl.
  destruct (decide (p = q)) as [<-|Hne].
  - destruct Hp as (d&l&n&Hd&Hl&_&_&Hn&Hpos&_). rewrite Hd, Hl, Hn. simpl. unfold sem_try.
    rewrite (proj2 (Z.ltb_lt 0 n) Hpos). simpl. eauto.
  - apply elem_of_cons in Hin as [?|Hin]; [done|].
    destruct (defs h !! q) as [d|], (live h !! q) as [l|]; try (by apply IH).
    destruct (try_acquire (b_capacity l) (e_now env)) as [[] c]; simpl; [eauto|].
    apply IH; [|done]. by apply plain_ready_other.
Qed.

(** ** The order of the fast path *)

Definition can_take (h : Heap) (p : Z) (now : Z) : Prop :=
  ∃ d l, defs h !! p = Some d ∧ live h !! p = Some l ∧ (try_acquire (b_capacity l) now).1 = true.

Lemma can_take_other h p q l now : can_take h p now -> p <> q -> can_take (set_live h q l) p now.
Proof.
  intros (d&lv&?&?&?) Hne. exists d, lv. simpl. by rewrite lookup_insert_ne.
Qed.

Lemma fast_path_first h cands now lease p :
  (try_fast_path h cands now).1 = Some lease -> p ∈ cands -> can_take h p now ->
  ∃ l1 l2, cands = l1 ++ l_ptr lease :: l2 ∧ p ∈ l_ptr lease :: l2.
Proof.
  revert h. induction cands as [|q ps IH]; intros h Hf Hin Hp; [set_solver|]. simpl in Hf.
  assert (Hstep : ∀ h', p <> q -> can_take h' p now -> (try_fast_path h' ps now).1 = Some lease ->
    ∃ l1 l2, q :: ps = l1 ++ l_ptr lease :: l2 ∧ p ∈ l_ptr lease :: l2).
  { intros h' Hne Hp' Hf'. destruct (IH h' Hf') as (l1&l2&->&?); [set_solver|done|].
    exists (q :: l1), l2. done. }
  destruct (decide (p = q)) as [<-|Hne].
  - destruct Hp as (d&l&Hd&Hl&Ht). rewrite Hd, Hl in Hf.
    destruct (try_acquire (b_capacity l) now) as [b c]; simpl in Ht; subst b.
    simpl in Hf. injection Hf as <-. exists [], ps. split; [done|by left].
  - destruct (defs h !! q) as [d|], (live h !! q) as [l|]; try (by eapply Hstep).
    destruct (try_acquire (b_capacity l) now) as [[] c]; simpl in Hf.
    + injection Hf as <-. exists [], ps. done.
    + eapply Hstep; [done| |exact Hf]. by apply can_take_other.
Qed.

(** ** "No backend" is decided without waiting *)

Lemma tiers_loop_union_nonempty role local_only tiers i union s env sched u s' :
  union <> [] -> tiers_loop role local_only tiers i union s env sched = TiersUnion u s' -> u <> [].
Proof.
  revert i union s env sched. induction tiers as [|[|e0 es] tiers IH]; intros i union s env sched Hu H;
    cbn [tiers_loop] in H; [by simplify_eq|by eapply IH|].
  destruct (resolve_and_filter s env (e0 :: es) local_only) as [[|c cs] h]; [by eapply IH|].
  destruct (order_by_strategy _ _ _ _ _) as [cands s1].
  destruct (try_fast_path _ _ _) as [[?|] h1]; [done|].
  destruct sched as [|w sched]; [done|].
  destruct (wait_on_tier _ _ _) as [[?|] s2]; [done|].
  eapply IH; [|exact H]. by destruct union.
Qed.

Lemma tiers_loop_empty role local_only tiers i s env sched s' :
  tiers_loop role local_only tiers i [] s env sched = TiersUnion [] s' ->
  ∀ sched', tiers_loop role local_only tiers i [] s env sched' = TiersUnion [] s'.
Proof.
  revert i s. induction tiers as [|[|e0 es] tiers IH]; intros i s H sched'; cbn [tiers_loop] in *;
    [done|by apply IH|].
  destruct (resolve_and_filter s env (e0 :: es) local_only) as [[|c cs] h]; [by apply IH|].
  pose proof (order_by_strategy_spec (set_heap s h) (c :: cs) (re_strategy e0) role i) as Hs.
  destruct (order_by_strategy _ _ _ _ _) as [cands s1]. destruct Hs as [Hperm _].
  destruct (try_fast_path _ _ _) as [[?|] h1]; [done|].
  destruct sched as [|w sched]; [done|].
  destruct (wait_on_tier _ _ _) as [[?|] s2]; [done|].
  apply tiers_loop_union_nonempty in H; [done|]. simpl. intros ->. by apply Permutation_nil_cons in Hperm.
Qed.

Lemma wait_loop_error finish expired cands role priority s sched e s' :
  wait_loop finish expired cands role priority s sched = Finished (Err e) s' -> e = expired.
Proof.
  revert s. induction sched as [|[env lv q|] sched IH]; intros s H; simpl in H; [done| |by simplify_eq].
  destruct (try_fast_path _ _ _) as [[?|] h]; [done|]. by eapply IH.
Qed.

Lemma order_by_strategy_roles s cands strategy role i :
  by_role (order_by_strategy s cands strategy role i).2 = by_role s.
Proof. destruct strategy; simpl; try done. by destruct (1 <? length cands)%nat. Qed.

Lemma wait_on_tier_roles cands s w : by_role (wait_on_tier cands s w).2 = by_role s.
Proof. destruct w; simpl; [done|]. case_decide; [|done]. case_all; done. Qed.

Lemma tiers_loop_roles role local_only tiers i union s env sched u s' :
  tiers_loop role local_only tiers i union s env sched = TiersUnion u s' -> by_role s' = by_role s.
Proof.
  revert i union s env sched. induction tiers as [|[|e0 es] tiers IH]; intros i union s env sched H;
    cbn [tiers_loop] in H; [by simplify_eq|by eapply IH|].
  destruct (resolve_and_filter s env (e0 :: es) local_only) as [[|c cs] h]; [by apply IH in H|].
  pose proof (order_by_strategy_roles (set_heap s h) (c :: cs) (re_strategy e0) role i) as Ho.
  destruct (order_by_strategy _ _ _ _ _) as [cands s1]. simpl in Ho.
  destruct (try_fast_path _ _ _) as [[?|] h1]; [done|].
  destruct sched as [|w sched]; [done|].
  pose proof (wait_on_tier_roles cands (set_heap s1 h1) w) as Hw.
  destruct (wait_on_tier _ _ _) as [[?|] s2]; [done|]. simpl in Hw. apply IH in H. congruence.
Qed.

(** What a [NoBackend] of the tiered path says. *)
Lemma acquire_tiered_none role priority tenant t s env local_only tsched wsched r s' :
  acquire_tiered role priority tenant t s env local_only tsched wsched
    = Finished (Err (NoBackend r)) s' ->
  by_role s' = by_role s ∧
  ∀ tsched' wsched', acquire_tiered role priority tenant t s env local_only tsched' wsched'
    = Finished (Err (NoBackend r)) s'.
Proof.
  unfold acquire_tiered. destruct (effective_tiers _ _) as [|t0 ts]; [by intros [= <- <-]|].
  destruct (tiers_loop role local_only (t0 :: ts) 0 [] s env tsched) as [s1|l s1|[|u us] s1] eqn:E;
    try done.
  - intros [= <- <-]. split; [by eapply tiers_loop_roles|]. intros tsched' wsched'.
    by rewrite (tiers_loop_empty _ _ _ _ _ _ _ _ E).
  - intros H%wait_loop_error. done.
Qed.

(** ** Where a lease may come from *)

Definition lease_origin (s : Pool) (role : Role) (local_only : bool) (p : Z) : Prop :=
  ∃ d, defs (heap s) !! p = Some d ∧ is_Some (b_endpoint d) ∧
    (local_only = true -> b_data_class d = Local) ∧
    (p ∈ backends_for s role ∨
     ∃ t, routing s = Some t ∧
          resolves s (concat (effective_tiers role (tiers_for t None role))) p).

Lemma legacy_lease_origin s s0 role local_only p :
  defs (heap s0) = defs (heap s) -> by_role s0 = by_role s ->
  legacy_origin s0 role local_only p -> lease_origin s role local_only p.
Proof.
  intros Hd Hb [Hin (d&Hlk&Hok&?)]. rewrite Hd in Hlk. exists d.
  unfold backends_for in *. rewrite Hb in Hin. split_and!; [done..| |by left].
  intros ->. unfold legacy_residency in Hok. simpl in Hok. by apply bool_decide_eq_true in Hok.
Qed.

Lemma tier_lease_origin s t role local_only p :
  routing s = Some t ->
  tier_origin s (effective_tiers role (tiers_for t None role)) local_only p ->
  lease_origin s role local_only p.
Proof.
  intros Hr [Hres (d&?&Hok&?)]. exists d. split_and!; [done..| |right; eauto].
  intros ->. unfold tiered_residency in Hok. simpl in Hok. by destruct (b_data_class d).
Qed.

Lemma outcome_lease_origin s s0 origin ns role local_only lease s' :
  defs (heap s0) = defs (heap s) -> outcome_sound s0 origin ns (Finished (Ok lease) s') ->
  (∀ p, origin p -> lease_origin s role local_only p) ->
  defs (heap s') = defs (heap s) ∧ lease_origin s role local_only (l_ptr lease) ∧
  ∃ d, defs (heap s) !! l_ptr lease = Some d ∧ l_backend_id lease = b_id d ∧
       b_endpoint d = Some (l_endpoint lease).
Proof.
  intros Hd [Hd' (cands&n&[Hin (d&Hlk&Hid&Hep&_)]&_&Ho)] Horig.
  split; [congruence|]. pose proof (Horig _ (Ho _ Hin)) as Hlo. split; [done|].
  destruct Hlo as (d0&Hd0&[ep He]&_). rewrite Hd in Hlk. simplify_eq. exists d.
  by rewrite Hep, He.
Qed.

(** ** Properties *)

(** C2. Acquisition is sound.  Whatever happens at the await points, a lease
    names a backend that was registered when [acquire] was called, with its id
    and endpoint; under [local_only] that backend is local; and it comes
    either from the role's own registration or from an entry of the role's
    global routing tiers (only the first tier for embeddings).  Backend
    definitions do not change. *)
Theorem acquire_sound (s : Pool) (env : Env) (role : Role) (local_only : bool) (priority : Z)
    (tsched : list tier_wait) (wsched : list wake) (lease : Lease) (s' : Pool) :
  acquire s env role local_only priority tsched wsched = Finished (Ok lease) s' ->
  defs (heap s') = defs (heap s) ∧ lease_origin s role local_only (l_ptr lease) ∧
  ∃ d, defs (heap s) !! l_ptr lease = Some d ∧ l_backend_id lease = b_id d ∧
       b_endpoint d = Some (l_endpoint lease).
Proof.
  unfold acquire. intros H. destruct (routing s) as [t|] eqn:Hr.
  2: { pose proof (acquire_legacy_sound s env role local_only priority wsched) as Hs.
       rewrite H in Hs. eapply outcome_lease_origin; [done|exact Hs|].
       intros p. by apply legacy_lease_origin. }
  pose proof (acquire_tiered_sound role priority None t s env local_only tsched wsched) as Hs.
  destruct (acquire_tiered role priority None t s env local_only tsched wsched)
    as [s1|[l1|e1] s1] eqn:E; [done| |].
  - simplify_eq. eapply outcome_lease_origin; [done|exact Hs|].
    intros p. by apply tier_lease_origin.
  - destruct e1; simplify_eq. apply acquire_tiered_none in E as [Hb _]. simpl in Hs.
    set (s2 := (should_warn_fallback s1 (e_now env) role).2) in *.
    assert (heap s2 = heap s1 ∧ by_role s2 = by_role s1) as [Hh2 Hb2].
    { subst s2. unfold should_warn_fallback. by destruct (_ <=? _). }
    pose proof (acquire_legacy_sound s2 env role local_only priority wsched) as Hl.
    rewrite H in Hl. eapply outcome_lease_origin; [|exact Hl|]; [congruence|].
    intros p. apply legacy_lease_origin; congruence.
Qed.

(** Embeddings never fail over across models: a tiered lease for the embed
    role is held on a backend of the first routing tier, under every schedule
    of waits and wake-ups. *)
Theorem embed_stays_in_tier_zero (priority : Z) (tenant : option Z) (t : RoutingTable) (s : Pool)
    (env : Env) (local_only : bool) (tsched : list tier_wait) (wsched : list wake) (lease : Lease)
    (s' : Pool) :
  acquire_tiered Embed priority tenant t s env local_only tsched wsched = Finished (Ok lease) s' ->
  ∃ tier0 rest, tiers_for t tenant Embed = tier0 :: rest ∧ resolves s tier0 (l_ptr lease).
Proof.
  intros H. pose proof (acquire_tiered_sound Embed priority tenant t s env local_only tsched wsched) as Hs.
  rewrite H in Hs. destruct Hs as [_ (cands&n&[Hin _]&_&Ho)]. destruct (Ho _ Hin) as [Hres _].
  unfold effective_tiers in Hres. rewrite decide_True in Hres by done.
  destruct (tiers_for t tenant Embed) as [|t0 ts]; simpl in Hres.
  - destruct Hres as (e&He&_). by apply not_elem_of_nil in He.
  - exists t0, ts. split; [done|]. by rewrite app_nil_r in Hres.
Qed.

(** The tiered path reports "no backend" without waiting: if it does for
    one schedule of waits and wake-ups it does for every other, with the same
    state, so the fallback to the config backends adds no latency. *)
Theorem no_backend_without_waiting (role : Role) (priority : Z) (tenant : option Z)
    (t : RoutingTable) (s : Pool) (env : Env) (local_only : bool) (tsched tsched' : list tier_wait)
    (wsched wsched' : list wake) (r : Role) (s' : Pool) :
  acquire_tiered role priority tenant t s env local_only tsched wsched
    = Finished (Err (NoBackend r)) s' ->
  acquire_tiered role priority tenant t s env local_only tsched' wsched'
    = Finished (Err (NoBackend r)) s'.
Proof. intros [_ H]%acquire_tiered_none. apply H. Qed.

(** A ready config backend is never missed: without a routing table, if a
    backend registered for the role is healthy, out of cooldown, inside its
    time window, allowed by residency and has a free slot, [acquire] returns a
    lease at once, and that lease notifies the wait queue when dropped. *)
Theorem legacy_acquire_immediate (s : Pool) (env : Env) (role : Role) (local_only : bool)
    (priority p : Z) :
  routing s = None -> p ∈ backends_for s role ->
  plain_ready (heap s) (legacy_residency local_only) env p ->
  ∃ lease s', acquire s env role local_only priority [] [] = Finished (Ok lease) s' ∧
              l_notify lease = Some role.
Proof.
  intros Hr Hin Hp. unfold acquire, acquire_legacy, legacy_candidates. rewrite Hr.
  pose proof (filter_keeps_ready _ env _ (backends_for s role) p Hp) as Hf.
  destruct (filter_candidates _ _ _ _) as [cands h]. destruct Hf as [Hp' Hc]. specialize (Hc Hin).
  set (sorted := sort_by_key2 _ _ cands). assert (p ∈ sorted) as Hs by by apply sort_by_elem_of.
  destruct (fast_path_ready _ env h sorted p Hp' Hs) as [lease Hl].
  destruct sorted as [|c cs]; [by apply not_elem_of_nil in Hs|].
  destruct (try_fast_path h (c :: cs) (e_now env)) as [o h']. simpl in Hl. subst o. eauto.
Qed.

(** The primary tier is preferred: if an entry of the first tier resolves
    to a ready backend, [acquire] returns at once with a lease of that tier,
    whatever the strategy, and spills to no other. *)
Theorem primary_tier_immediate (s : Pool) (env : Env) (role : Role) (local_only : bool)
    (priority p : Z) (t : RoutingTable) (tier0 : list RoutingEntry)
    (rest : list (list RoutingEntry)) :
  routing s = Some t -> tiers_for t None role = tier0 :: rest -> resolves s tier0 p ->
  plain_ready (heap s) (tiered_residency local_only) env p ->
  ∃ lease s', acquire s env role local_only priority [] [] = Finished (Ok lease) s' ∧
              resolves s tier0 (l_ptr lease) ∧ l_notify lease = Some role.
Proof.
  intros Hr Ht (e&He&Hep) Hp. unfold acquire, acquire_tiered. rewrite Hr, Ht.
  assert (∃ rest', effective_tiers role (tier0 :: rest) = tier0 :: rest') as [rest' ->].
  { unfold effective_tiers. case_decide; eauto. }
  destruct tier0 as [|e0 es]; [by apply not_elem_of_nil in He|]. cbn [tiers_loop].
  pose proof (resolve_and_filter_spec s env (e0 :: es) local_only) as Hrf.
  assert (Hin : p ∈ omap (λ e, backends s !! db_backend_key (m_id (re_model e))) (e0 :: es)).
  { apply list_elem_of_omap. eauto. }
  unfold resolve_and_filter in *. set (ps := omap _ _) in *.
  pose proof (filter_keeps_ready _ env _ ps p Hp) as Hf.
  destruct (filter_candidates _ _ _ ps) as [cands h]. destruct Hf as [Hp' Hc]. specialize (Hc Hin).
  destruct Hrf as [_ Hres]. destruct cands as [|c cs]; [by apply not_elem_of_nil in Hc|].
  pose proof (order_by_strategy_spec (set_heap s h) (c :: cs) (re_strategy e0) role 0) as Hs.
  destruct (order_by_strategy _ _ _ _ _) as [cands s1]. destruct Hs as (Hperm&Hh&_).
  simpl in Hh. rewrite Hh. assert (p ∈ cands) as Hpc by by rewrite Hperm.
  destruct (fast_path_ready _ env h cands p Hp' Hpc) as [lease Hl].
  pose proof Hl as (q&d&Hq&_&->)%try_fast_path_Some.
  destruct (try_fast_path h cands (e_now env)) as [o h']. simpl in Hl. subst o.
  do 2 eexists. split; [done|]. split; [|done]. simpl. apply Hres. by rewrite <-Hperm.
Qed.

(** The legacy fast path takes the best backend: among all candidates that
    could give a permit now, the one leased has the lowest priority number,
    and among those the most free slots. *)
Theorem legacy_choice_optimal (s : Pool) (env : Env) (role : Role) (local_only : bool)
    (cands : list Z) (h : Heap) (lease : Lease) (p : Z) :
  legacy_candidates s env role local_only = (cands, h) ->
  (∀ q, in_ty usize (free_of h q)) ->
  (try_fast_path h cands (e_now env)).1 = Some lease ->
  p ∈ cands -> can_take h p (e_now env) ->
  let prio q := from_option b_priority 0 (defs h !! q) in
  prio (l_ptr lease) < prio p ∨
  (prio (l_ptr lease) = prio p ∧ free_of h p <= free_of h (l_ptr lease)).
Proof.
  intros Hc Hfree Hf Hin Hp prio. unfold legacy_candidates in Hc.
  destruct (filter_candidates _ _ _ _) as [cs h0]. injection Hc as <- ->.
  pose (kf := λ q, saturating_sub usize (ity_max usize) (free_of h q)).
  pose proof (sort_by_ordered (leb_by_key2 prio kf) (leb_by_key2_total prio kf)
    (leb_by_key2_trans prio kf) cs) as Hs. unfold ordered in Hs.
  destruct (fast_path_first _ _ _ _ _ Hf Hin Hp) as (l1&l2&Heq&Hp2).
  change (sort_by (leb_by_key2 prio kf) cs = l1 ++ l_ptr lease :: l2) in Heq. rewrite Heq in Hs.
  apply StronglySorted_app_1_r in Hs as Hs2. apply StronglySorted_inv in Hs2 as [_ Hall].
  rewrite Forall_forall in Hall.
  assert (Hk : ∀ q, kf q = ity_max usize - free_of h q).
  { intros q. unfold kf, saturating_sub. apply saturate_id. destruct (Hfree q).
    change (ity_min usize) with 0 in *. split; change (ity_min usize) with 0; lia. }
  apply elem_of_cons in Hp2 as [->|Hp2]; [right; split; [done|lia]|].
  specialize (Hall p Hp2). unfold leb_by_key2 in Hall. rewrite !Hk in Hall. lia.
Qed.

(** A lease obtained on the legacy wait path wakes nobody: when it is
    dropped the slot is freed but no waiter of the role is notified, although
    every other path attaches the notification; the next waiter sleeps until
    its time-out. *)
Theorem legacy_waiter_wakes_nobody (cands : list Z) (role : Role) (priority : Z) (s : Pool)
    (sched : list wake) (lease : Lease) (s' : Pool) :
  wait_on_candidates cands role priority s sched = Finished (Ok lease) s' ->
  ∀ alive s1, (lease_drop alive s1 lease).1 = None ∧
              wait_queue (lease_drop alive s1 lease).2 = wait_queue s1.
Proof.
  unfold wait_on_candidates. set (s0 := set_queue _ _). intros H alive s1.
  pose proof (wait_loop_spec (λ l, l) None (Timeout (acquire_timeout s0)) cands role priority s0
    sched (λ _ _ x, x)) as Hs. rewrite H in Hs. destruct Hs as [[_ (d&_&_&_&Hn)] _].
  unfold lease_drop. by rewrite Hn.
Qed.

(** ** A pool with one backend and one slot *)

Definition demo_pool : Pool :=
  pool_from_config [mkBackendConfig "gpu" "http://localhost:8001/v1" [Text; Embed] 1 0]
    (5 * NANOS_PER_SEC).
Definition demo_env : Env := mkEnv 100 (mkLocalTime 1 12).

Definition after (o : outcome) : Pool :=
  match o with Waiting s => s | Finished _ s => s end.
Definition lease_of (o : outcome) : option Lease :=
  match o with Finished (Ok l) _ => Some l | _ => None end.

(** Three callers: the first takes the slot, the second and third wait.  When
    the first leaves, the second is woken and takes the slot; when the second
    leaves, the slot is free, the third is still queued and nobody is woken. *)
Definition three_callers : option (option Z * option Z * Z * list (Z * Z)) :=
  let a := acquire demo_pool demo_env Text false 0 [] [] in
  let b := acquire (after a) demo_env Text false 0 [] [] in
  let c := acquire (after b) demo_env Text false 0 [] [] in
  la ← lease_of a;
  let '(woken1, s1) := lease_drop (λ _, true) (after c) la in
  let b' := acquire (after a) demo_env Text false 0 []
              [Woken demo_env (live (heap s1)) (wait_queue s1)] in
  lb ← lease_of b';
  let '(woken2, s2) := lease_drop (λ _, true) (after b') lb in
  Some (woken1, woken2, free_of (heap s2) 0, queue_of (wait_queue s2) Text).

Example three_callers_strand_the_third :
  three_callers = Some (Some 0, None, 1, [(0, 1)]).
Proof. vm_compute. reflexivity. Qed.

(** ** Witnesses *)

Definition demo_lease : Lease := mkLease "gpu" "http://localhost:8001/v1" 0 (Some Text).

Lemma acquire_sound_witness :
  let s' := after (acquire demo_pool demo_env Text true 0 [] []) in
  defs (heap s') = defs (heap demo_pool) ∧ lease_origin demo_pool Text true 0 ∧
  ∃ d, defs (heap demo_pool) !! 0 = Some d ∧ "gpu"%string = b_id d ∧
       b_endpoint d = Some "http://localhost:8001/v1"%string.
Proof.
  apply (acquire_sound demo_pool demo_env Text true 0 [] [] demo_lease
           (after (acquire demo_pool demo_env Text true 0 [] []))).
  vm_compute. reflexivity.
Defined.

(** The same pool with a database backend in the first tier of two roles. *)
Definition demo_route (role : Role) : RoutingEntry :=
  mkRoutingEntry None role 0 LeastLoaded 800
    (mkProviderRow 1 "llama" LocalProvider (Some "http://localhost:9001/v1") (JObj []) true None)
    (demo_model 5).
Definition demo_routed : Pool :=
  default demo_pool (apply_routing demo_pool [demo_route Text; demo_route Embed] 0).
Definition demo_table : RoutingTable := default ∅ (routing demo_routed).

Lemma embed_stays_in_tier_zero_witness :
  ∃ tier0 rest, tiers_for demo_table None Embed = tier0 :: rest ∧ resolves demo_routed tier0 1.
Proof.
  apply (embed_stays_in_tier_zero 0 None demo_table demo_routed demo_env true [] []
           (mkLease "db:5" "http://localhost:9001/v1" 1 (Some Embed))
           (after (acquire_tiered Embed 0 None demo_table demo_routed demo_env true [] []))).
  vm_compute. reflexivity.
Defined.

Lemma no_backend_without_waiting_witness :
  acquire_tiered Vision 0 None demo_table demo_routed demo_env false
    [Elapsed demo_env ∅ queue_empty] [TimedOut]
  = Finished (Err (NoBackend Vision))
      (after (acquire_tiered Vision 0 None demo_table demo_routed demo_env false [] [])).
Proof.
  apply (no_backend_without_waiting Vision 0 None demo_table demo_routed demo_env false []
           [Elapsed demo_env ∅ queue_empty] [] [TimedOut] Vision). vm_compute. reflexivity.
Defined.

Lemma demo_pool_ready : plain_ready (heap demo_pool) (legacy_residency true) demo_env 0.
Proof.
  do 3 eexists. split; [vm_compute; reflexivity|]. split; [vm_compute; reflexivity|].
  split_and!; try reflexivity; eauto.
Qed.

Lemma legacy_acquire_immediate_witness :
  ∃ lease s', acquire demo_pool demo_env Text true 0 [] [] = Finished (Ok lease) s' ∧
              l_notify lease = Some Text.
Proof.
  apply (legacy_acquire_immediate demo_pool demo_env Text true 0 0).
  - reflexivity.
  - vm_compute. constructor.
  - apply demo_pool_ready.
Defined.

Lemma demo_routed_ready : plain_ready (heap demo_routed) (tiered_residency true) demo_env 1.
Proof.
  do 3 eexists. split; [vm_compute; reflexivity|]. split; [vm_compute; reflexivity|].
  split_and!; try reflexivity; eauto.
Qed.

Lemma primary_tier_immediate_witness :
  ∃ lease s', acquire demo_routed demo_env Text true 0 [] [] = Finished (Ok lease) s' ∧
              resolves demo_routed [demo_route Text] (l_ptr lease) ∧ l_notify lease = Some Text.
Proof.
  apply (primary_tier_immediate demo_routed demo_env Text true 0 1 demo_table [demo_route Text] []).
  - vm_compute. reflexivity.
  - vm_compute. reflexivity.
  - exists (demo_route Text). split; [by left|]. vm_compute. reflexivity.
  - apply demo_routed_ready.
Defined.

Lemma legacy_choice_optimal_witness :
  let h := heap demo_pool in
  let prio q := from_option b_priority 0 (defs h !! q) in
  prio 0 < prio 0 ∨ (prio 0 = prio 0 ∧ free_of h 0 <= free_of h 0).
Proof.
  apply (legacy_choice_optimal demo_pool demo_env Text false [0] (heap demo_pool)
           (mkLease "gpu" "http://localhost:8001/v1" 0 None) 0).
  - vm_compute. reflexivity.
  - intros q. unfold free_of. destruct (live (heap demo_pool) !! q) as [l|] eqn:E.
    + change (live (heap demo_pool)) with
        (<[0 := live_new (new_slots 1)]> (∅ : gmap Z BackendLive)) in E.
      apply lookup_insert_Some in E as [[_ <-]|[_ E]]; [by vm_compute|by apply lookup_empty_Some in E].
    + by vm_compute.
  - vm_compute. reflexivity.
  - by left.
  - exists (backend_from_config
      (mkBackendConfig "gpu" "http://localhost:8001/v1" [Text; Embed] 1 0)).1,
      (live_new (new_slots 1)). split_and!; vm_compute; reflexivity.
Defined.

Lemma legacy_waiter_wakes_nobody_witness :
  let lease := mkLease "gpu" "http://localhost:8001/v1" 0 None in
  lease_of (wait_on_candidates [0] Text 0 demo_pool
              [Woken demo_env (live (heap demo_pool)) queue_empty]) = Some lease ∧
  ∀ alive s1, (lease_drop alive s1 lease).1 = None ∧
              wait_queue (lease_drop alive s1 lease).2 = wait_queue s1.
Proof.
  split; [vm_compute; reflexivity|].
  apply (legacy_waiter_wakes_nobody [0] Text 0 demo_pool
           [Woken demo_env (live (heap demo_pool)) queue_empty]
           (mkLease "gpu" "http://localhost:8001/v1" 0 None)
           (after (wait_on_candidates [0] Text 0 demo_pool
                     [Woken demo_env (live (heap demo_pool)) queue_empty]))).
  vm_compute. reflexivity.
Defined.
