(* ===== verification/Chunker.v ===== *)
(** * Text chunking

    Models [pipeline/src/chunker.rs].  A [&str] is its list of UTF-8 bytes;
    sizes are mathematical naturals (a chunk size near [usize::MAX], where
    [start_byte + chunk_size] would overflow, is not modelled).  The main loop
    runs on fuel and answers [None] when it runs out; it never does. *)

From stdpp Require Import base list gmap sorting.
From Stdlib Require Import ZArith Lia.
From S2P Require Import Prelude FloatModel.
Open Scope nat_scope.

Record TextChunk := mkTextChunk {
  content : list Z;
  idx : Z;
  page_no : option Z;
  file_id : Z;
  ts_offset : option f64;
}.

Definition DEFAULT_CHUNK_SIZE_CHARS : nat := 2048.
Definition DEFAULT_OVERLAP_CHARS : nat := 64.

(** A continuation byte is [0b10xxxxxx]. *)
Definition is_cont (b : Z) : bool := (128 <=? b)%Z && (b <? 192)%Z.

(** [str::is_char_boundary]. *)
Definition is_char_boundary (text : list Z) (i : nat) : bool :=
  (i =? 0) || (i =? length text) ||
  match text !! i with Some b => negb (is_cont b) | None => false end.

(** [text[a..b]]. *)
Definition slice (text : list Z) (a b : nat) : list Z := take (b - a) (drop a text).

(** [while end > start && !text.is_char_boundary(end) { end -= 1 }]. *)
Fixpoint snap_back (text : list Z) (start e : nat) : nat :=
  match e with
  | O => O
  | S e' => if (start <? e) && negb (is_char_boundary text e) then snap_back text start e' else e
  end.

(** [while next < text.len() && !text.is_char_boundary(next) { next += 1 }];
    [room] is [text.len() - next]. *)
Fixpoint snap_forward (text : list Z) (room next : nat) : nat :=
  match room with
  | O => next
  | S room => if is_char_boundary text next then next else snap_forward text room (S next)
  end.

Fixpoint chunk_loop (fuel : nat) (text : list Z) (fid : Z) (page : option Z) (ts : option f64)
    (chunk_size step start_byte : nat) (i : Z) : option (list TextChunk) :=
  if start_byte <? length text then
    match fuel with
    | O => None
    | S fuel =>
        let end_byte := (start_byte + chunk_size) `min` length text in
        let e := snap_back text start_byte end_byte in
        if e <=? start_byte then Some []
        else
          let chunk := mkTextChunk (slice text start_byte e) i page fid ts in
          let next := snap_forward text (length text - (start_byte + step)) (start_byte + step) in
          rest ← chunk_loop fuel text fid page ts chunk_size step next (wrapping_add i32 i 1);
          Some (chunk :: rest)
    end
  else Some [].

(** [Err tt] is the panic of the assertion, [Ok None] running out of fuel. *)
Definition chunk_text (text : list Z) (fid : Z) (page : option Z) (ts : option f64)
    (chunk_size overlap : nat) : result (option (list TextChunk)) unit :=
  if overlap <? chunk_size then
    if (length text =? 0)%nat then Ok (Some [])
    else Ok (chunk_loop (length text) text fid page ts chunk_size (chunk_size - overlap) 0 0)
  else Err tt.

(** [seen.insert(c.content.clone())] as a filter. *)
Fixpoint dedup_from (seen : gset (list Z)) (chunks : list TextChunk) : list TextChunk :=
  match chunks with
  | [] => []
  | c :: cs => if decide (content c ∈ seen) then dedup_from seen cs
               else c :: dedup_from ({[content c]} ∪ seen) cs
  end.
Definition dedup_identical_chunks (chunks : list TextChunk) : list TextChunk := dedup_from ∅ chunks.

(** ** Specification *)

(** A chunk with the byte range it was cut from. *)
Definition cut_from (text : list Z) (fid : Z) (page : option Z) (ts : option f64)
    (c : TextChunk) (i : Z) (a e : nat) : Prop :=
  c = mkTextChunk (slice text a e) i page fid ts.

(** The ranges of a run of the loop, in order: every range is a non-empty
    stretch of at most [chunk_size] bytes between character boundaries. *)
Inductive chunked (text : list Z) (fid : Z) (page : option Z) (ts : option f64)
    (chunk_size : nat) : Z -> list TextChunk -> list (nat * nat) -> Prop :=
| chunked_nil i : chunked text fid page ts chunk_size i [] []
| chunked_cons i c cs a e spans :
    cut_from text fid page ts c i a e ->
    is_char_boundary text a = true -> is_char_boundary text e = true ->
    a < e <= length text -> e - a <= chunk_size ->
    chunked text fid page ts chunk_size (wrapping_add i32 i 1) cs spans ->
    chunked text fid page ts chunk_size i (c :: cs) ((a, e) :: spans).

(** Ranges that leave no gap from [a] to the end of the text. *)
Fixpoint covers (a n : nat) (spans : list (nat * nat)) : Prop :=
  match spans with
  | [] => n <= a
  | (b, e) :: spans => b <= a ∧ (n <= e ∨ covers e n spans)
  end.

(** Among any four consecutive positions one is a boundary: no character is
    longer than four bytes. *)
Definition utf8_like (text : list Z) : Prop :=
  ∀ i, ∃ j, i <= j <= i + 3 ∧ (length text <= j ∨ is_char_boundary text j = true).

(** ** Lemmas *)

Lemma boundary_end text : is_char_boundary text (length text) = true.
Proof. unfold is_char_boundary. rewrite (Nat.eqb_refl (length text)). by rewrite orb_true_r. Qed.

Lemma boundary_zero text : is_char_boundary text 0 = true.
Proof. done. Qed.

Lemma snap_back_spec text start e :
  start <= e ->
  start <= snap_back text start e <= e ∧
  (snap_back text start e = start ∨ is_char_boundary text (snap_back text start e) = true) ∧
  ∀ j, snap_back text start e < j <= e -> is_char_boundary text j = false.
Proof.
  induction e as [|e IH]; intros Hs.
  - simpl. split_and!; [lia|lia|left; lia|]. intros. lia.
  - cbn [snap_back]. destruct (start <? S e) eqn:E1; cbn [andb].
    + apply Nat.ltb_lt in E1. destruct (is_char_boundary text (S e)) eqn:E2; cbn [negb].
      * split_and!; [lia..|by right|]. intros. lia.
      * destruct (IH ltac:(lia)) as (?&?&Hj). split_and!; [lia..|done|].
        intros j Hj'. destruct (decide (j = S e)) as [->|]; [done|]. apply Hj. lia.
    + apply Nat.ltb_ge in E1. split_and!; [lia..|left; lia|]. intros. lia.
Qed.

Lemma snap_forward_spec text room next :
  length text <= next + room ->
  next <= snap_forward text room next ∧
  (length text <= snap_forward text room next ∨
   is_char_boundary text (snap_forward text room next) = true) ∧
  ∀ j, next <= j < snap_forward text room next -> is_char_boundary text j = false.
Proof.
  revert next. induction room as [|room IH]; intros next Hr; simpl.
  - split_and!; [lia|left; lia|]. intros. lia.
  - destruct (is_char_boundary text next) eqn:E.
    + split_and!; [lia|by right|]. intros. lia.
    + destruct (IH (S next) ltac:(lia)) as (?&?&Hj). split_and!; [lia|done|].
      intros j Hj'. destruct (decide (j = next)) as [->|]; [done|]. apply Hj. lia.
Qed.

(** One iteration from a boundary. *)
Lemma snaps text start cs step :
  start < length text -> is_char_boundary text start = true -> 0 < step ->
  let e := snap_back text start ((start + cs) `min` length text) in
  let next := snap_forward text (length text - (start + step)) (start + step) in
  start < next ∧ (start < e -> is_char_boundary text e = true) ∧ e <= length text ∧
  e - start <= cs ∧ (length text <= next ∨ is_char_boundary text next = true).
Proof.
  intros Hl Hb Hs e next.
  destruct (snap_back_spec text start ((start + cs) `min` length text) ltac:(lia)) as (?&Hor&_).
  destruct (snap_forward_spec text (length text - (start + step)) (start + step) ltac:(lia))
    as (?&?&_). fold e in H, Hor. fold next in H0, H1.
  split_and!; [lia| |lia|lia|done]. intros. destruct Hor as [->|]; [lia|done].
Qed.

Lemma covers_mono a a' n spans : a <= a' -> covers a n spans -> covers a' n spans.
Proof. destruct spans as [|[b e] spans]; simpl; [lia|]. intros ? [? ?]. split; [lia|done]. Qed.

(** With an overlap of three bytes or more a chunk is never empty and the next
    one starts inside it. *)
Lemma snaps_overlap text start cs step :
  start < length text -> utf8_like text -> step + 3 <= cs -> 0 < step ->
  let e := snap_back text start ((start + cs) `min` length text) in
  let next := snap_forward text (length text - (start + step)) (start + step) in
  start < e ∧ (length text <= e ∨ next <= e).
Proof.
  intros Hl Hu Hcs Hs e next.
  destruct (snap_back_spec text start ((start + cs) `min` length text) ltac:(lia)) as (Hle&_&Hmax).
  destruct (snap_forward_spec text (length text - (start + step)) (start + step) ltac:(lia))
    as (_&_&Hmin). fold e in Hle, Hmax. fold next in Hmin.
  destruct (decide (length text <= start + cs)) as [Hend|Hend].
  - destruct (decide (length text <= e)); [lia|].
    pose proof (boundary_end text) as Hb.
    by rewrite (Hmax (length text)) in Hb by lia.
  - destruct (Hu (start + step)) as (j&Hj&[?|Hb]); [lia|].
    destruct (decide (j <= e)) as [?|Hgt]; [|by rewrite (Hmax j) in Hb by lia].
    split; [lia|]. right. destruct (decide (next <= j)); [lia|]. by rewrite (Hmin j) in Hb by lia.
Qed.

(** The loop on enough fuel: it terminates, its chunks are well cut, and with
    enough overlap they leave no gap. *)
Lemma chunk_loop_chunked fuel text fid page ts cs step start i :
  length text <= start + fuel -> 0 < step ->
  (length text <= start ∨ is_char_boundary text start = true) ->
  ∃ chunks spans, chunk_loop fuel text fid page ts cs step start i = Some chunks ∧
    chunked text fid page ts cs i chunks spans ∧
    (utf8_like text -> step + 3 <= cs -> covers start (length text) spans).
Proof.
  intros Hf Hs. revert start i Hf. induction fuel as [|fuel IH]; intros start i Hf Hb;
    cbn [chunk_loop]; destruct (start <? length text) eqn:E;
    (apply Nat.ltb_lt in E || apply Nat.ltb_ge in E); try lia;
    try (by exists [], []; split_and!; [|constructor|]).
  destruct Hb as [?|Hb]; [lia|].
  destruct (snaps text start cs step E Hb Hs) as (Hn&He&Hle&Hsz&Hnb).
  pose proof (λ Hu Hc, snaps_overlap text start cs step E Hu Hc Hs) as Hov. simpl in *.
  set (e := snap_back _ _ _) in *. set (next := snap_forward _ _ _) in *.
  destruct (e <=? start) eqn:E2; (apply Nat.leb_le in E2 || apply Nat.leb_gt in E2).
  - exists [], []. split_and!; [done|constructor|]. intros Hu Hc. destruct (Hov Hu Hc). lia.
  - destruct (IH next (wrapping_add i32 i 1) ltac:(lia) Hnb) as (cks&sp&Hc&Hcs&Hcov).
    rewrite Hc. simpl. do 2 eexists. split_and!; [done| |].
    + econstructor; [done|done|by apply He|lia|done|done].
    + intros Hu Hc3. simpl. split; [lia|]. destruct (Hov Hu Hc3) as [_ [?|?]]; [by left|right].
      eapply covers_mono; [done|]. by apply Hcov.
Qed.

(** ** ASCII text *)

Lemma ascii_boundary text i :
  Forall (λ b, (0 <= b < 128)%Z) text -> i <= length text -> is_char_boundary text i = true.
Proof.
  intros Ha Hi. unfold is_char_boundary. destruct (decide (i = length text)) as [->|].
  { rewrite Nat.eqb_refl. by rewrite orb_true_r. }
  destruct (text !! i) as [b|] eqn:E; [|apply lookup_ge_None in E; lia].
  pose proof (proj1 (Forall_lookup _ _) Ha i b E) as Hb. simpl in Hb. unfold is_cont.
  destruct (128 <=? b)%Z eqn:Eb; [lia|]. simpl. by rewrite orb_true_r.
Qed.

Definition chunk_count (n step : nat) : nat := (n + step - 1) / step.

(** The [k]-th chunk of a text without multi-byte characters. *)
Definition ascii_chunk (text : list Z) (fid : Z) (page : option Z) (ts : option f64)
    (chunk_size step k : nat) : TextChunk :=
  mkTextChunk (slice text (k * step) ((k * step + chunk_size) `min` length text)) (Z.of_nat k)
    page fid ts.

Lemma chunk_loop_ascii fuel text fid page ts cs step k n :
  Forall (λ b, (0 <= b < 128)%Z) text -> 0 < step -> 0 < cs ->
  length text <= k * step + fuel ->
  (Z.of_nat (length text) < 2 ^ 31)%Z ->
  k * step <= length text + step ->
  (k + n) * step < length text + step -> length text <= (k + n) * step ->
  chunk_loop fuel text fid page ts cs step (k * step) (Z.of_nat k) =
    Some (ascii_chunk text fid page ts cs step <$> seq k n).
Proof.
  intros Ha Hs Hc. revert k n. induction fuel as [|fuel IH]; intros k n Hf H32 Hk Hn1 Hn2;
    cbn [chunk_loop]; destruct (k * step <? length text) eqn:E;
    (apply Nat.ltb_lt in E || apply Nat.ltb_ge in E); try lia;
    try (assert (n = 0) as -> by nia; done).
  destruct n as [|n]; [lia|].
  assert (He : snap_back text (k * step) ((k * step + cs) `min` length text)
               = (k * step + cs) `min` length text).
  { destruct ((k * step + cs) `min` length text) as [|e] eqn:Em; [done|]. cbn [snap_back].
    rewrite ascii_boundary by (done || lia). by rewrite andb_false_r. }
  assert (Hnx : snap_forward text (length text - (k * step + step)) (k * step + step) = S k * step).
  { destruct (length text - (k * step + step)) as [|r] eqn:Er; simpl; [lia|].
    rewrite ascii_boundary by (done || lia). lia. }
  rewrite He, Hnx. destruct (_ <=? k * step) eqn:E2; [apply Nat.leb_le in E2; lia|].
  replace (wrapping_add i32 (Z.of_nat k) 1) with (Z.of_nat (S k)).
  2: { unfold wrapping_add. rewrite wrap_id; [lia|]. split.
       - change (ity_min i32) with (-2147483648)%Z. lia.
       - change (ity_max i32) with (2 ^ 31 - 1)%Z. nia. }
  rewrite (IH (S k) n) by (lia || nia). done.
Qed.

(** ** Valid UTF-8 *)

(** One encoded character: a lead byte and at most three continuation bytes. *)
Definition char_ok (c : list Z) : Prop :=
  match c with
  | [] => False
  | b :: rest => is_cont b = false ∧ Forall (λ b, is_cont b = true) rest ∧ length rest <= 3
  end.
Definition valid_utf8 (text : list Z) : Prop := ∃ chars, text = concat chars ∧ Forall char_ok chars.

Lemma boundary_app c chars j :
  Forall char_ok chars -> c <> [] ->
  is_char_boundary (c ++ concat chars) (length c + j) = is_char_boundary (concat chars) j.
Proof.
  intros Hok Hc. destruct c as [|b0 c]; [done|]. unfold is_char_boundary.
  rewrite lookup_app_r, length_app by lia.
  replace (length (b0 :: c) + j - length (b0 :: c)) with j by lia.
  replace (length (b0 :: c) + j =? 0) with false by done.
  replace (length (b0 :: c) + j =? length (b0 :: c) + length (concat chars))
    with (j =? length (concat chars)) by (destruct (Nat.eqb_spec j (length (concat chars)));
      symmetry; [apply Nat.eqb_eq|apply Nat.eqb_neq]; lia).
  destruct j as [|j]; [|done]. simpl. destruct chars as [|[|b rest] chars]; [done| |].
  - apply Forall_cons in Hok as [[] _].
  - apply Forall_cons in Hok as [[Hb _] _]. simpl. by rewrite Hb.
Qed.

Lemma valid_utf8_like text : valid_utf8 text -> utf8_like text.
Proof.
  intros (chars&->&Hok). induction Hok as [|c chars Hc Hok IH]; intros i.
  { exists i. split; [lia|]. left. simpl. lia. }
  assert (Hne : c <> []) by (by intros ->). simpl.
  destruct (decide (length c <= i)) as [Hi|Hi].
  - destruct (IH (i - length c)) as (j&Hj&Hor). exists (length c + j). split; [lia|].
    rewrite length_app, boundary_app by done. destruct Hor; [left; lia|by right].
  - destruct i as [|i]; [exists 0; split; [lia|]; by right|]. exists (length c). split.
    + destruct c as [|b rest]; [done|]. destruct Hc as (_&_&?). simpl in *. lia.
    + right. replace (length c) with (length c + 0) by lia. by rewrite boundary_app.
Qed.

Lemma covers_positions a n spans :
  covers a n spans -> ∀ i, a <= i < n -> ∃ b e, (b, e) ∈ spans ∧ b <= i < e.
Proof.
  revert a. induction spans as [|[b e] spans IH]; intros a Hc i Hi; simpl in Hc; [lia|].
  destruct Hc as [Hb Hor]. destruct (decide (i < e)) as [?|?].
  - exists b, e. split; [by left|lia].
  - destruct Hor as [?|Hc]; [lia|]. destruct (IH e Hc i ltac:(lia)) as (b'&e'&?&?).
    exists b', e'. split; [by right|done].
Qed.

(** ** Properties *)

(** Chunking terminates and cuts well.  For every text and every size above
    the overlap, [chunk_text] returns; its chunks are numbered in order from 0,
    carry the given provenance, and each is a non-empty byte range of the text
    of at most [chunk_size] bytes that starts and ends on a character
    boundary.  If the size is not above the overlap it panics. *)
Theorem chunk_text_sound (text : list Z) (fid : Z) (page : option Z) (ts : option f64)
    (chunk_size overlap : nat) :
  (overlap < chunk_size ->
   ∃ chunks spans, chunk_text text fid page ts chunk_size overlap = Ok (Some chunks) ∧
     chunked text fid page ts chunk_size 0 chunks spans) ∧
  (chunk_size <= overlap -> chunk_text text fid page ts chunk_size overlap = Err tt).
Proof.
  unfold chunk_text. split; intros H.
  - rewrite (proj2 (Nat.ltb_lt _ _) H). destruct (length text =? 0).
    { exists [], []. split; [done|constructor]. }
    destruct (chunk_loop_chunked (length text) text fid page ts chunk_size (chunk_size - overlap)
      0 0) as (chunks&spans&->&Hc&_); [lia|lia|by right|]. eauto.
  - by rewrite (proj2 (Nat.ltb_ge _ _) H).
Qed.

(** C39. Nothing is lost: for valid UTF-8 and an overlap of at least three
    bytes, every byte of the text lies in some chunk. *)
Theorem chunks_cover_text (text : list Z) (fid : Z) (page : option Z) (ts : option f64)
    (chunk_size overlap : nat) :
  valid_utf8 text -> 3 <= overlap < chunk_size ->
  ∃ chunks spans, chunk_text text fid page ts chunk_size overlap = Ok (Some chunks) ∧
    chunked text fid page ts chunk_size 0 chunks spans ∧
    ∀ i, i < length text -> ∃ a e, (a, e) ∈ spans ∧ a <= i < e.
Proof.
  intros Hu%valid_utf8_like Ho. unfold chunk_text.
  rewrite (proj2 (Nat.ltb_lt overlap chunk_size)) by lia.
  destruct (length text =? 0) eqn:E.
  { apply Nat.eqb_eq in E. exists [], []. split_and!; [done|constructor|]. intros. lia. }
  destruct (chunk_loop_chunked (length text) text fid page ts chunk_size (chunk_size - overlap)
    0 0) as (chunks&spans&->&Hc&Hcov); [lia|lia|by right|].
  exists chunks, spans. split_and!; [done..|]. intros i Hi.
  eapply covers_positions; [apply Hcov; [done|lia]|lia].
Qed.

(** On text without multi-byte characters the result is exact: chunk [k]
    is the [chunk_size] bytes from [k * step], [step] being the size minus the
    overlap, for every [k] with [k * step] inside the text.  So a text longer
    than [step] but no longer than [chunk_size] yields more than one chunk,
    where the documentation promises a single one. *)
Theorem chunk_text_ascii (text : list Z) (fid : Z) (page : option Z) (ts : option f64)
    (chunk_size overlap : nat) :
  Forall (λ b, (0 <= b < 128)%Z) text -> (Z.of_nat (length text) < 2 ^ 31)%Z ->
  overlap < chunk_size ->
  let step := chunk_size - overlap in
  chunk_text text fid page ts chunk_size overlap =
    Ok (Some (ascii_chunk text fid page ts chunk_size step <$>
              seq 0 (chunk_count (length text) step))).
Proof.
  intros Ha H32 Ho step. unfold chunk_text. rewrite (proj2 (Nat.ltb_lt _ _) Ho). fold step.
  assert (Hs : 0 < step) by (unfold step; lia). unfold chunk_count.
  pose proof (Nat.div_mod (length text + step - 1) step ltac:(lia)) as Hdm.
  pose proof (Nat.mod_upper_bound (length text + step - 1) step ltac:(lia)).
  destruct (length text =? 0) eqn:E.
  - apply Nat.eqb_eq in E. rewrite E. rewrite Nat.div_small by lia. done.
  - apply Nat.eqb_neq in E. f_equal.
    apply (chunk_loop_ascii (length text) text fid page ts chunk_size step 0); try lia; try done; nia.
Qed.

(** With no overlap text is lost: three two-byte characters cut at three
    bytes give two chunks, and the middle character is in neither, where the
    documentation promises contiguous chunks. *)
Theorem overlap_zero_loses_text :
  let text := [195; 169; 195; 168; 195; 170]%Z in
  valid_utf8 text ∧
  chunk_text text 1 None None 3 0 =
    Ok (Some [mkTextChunk [195; 169]%Z 0 None 1 None; mkTextChunk [195; 170]%Z 1 None 1 None]).
Proof.
  split; [|vm_compute; reflexivity]. exists [[195; 169]; [195; 168]; [195; 170]]%Z.
  split; [done|]. repeat constructor.
Qed.

Lemma dedup_from_spec seen chunks :
  dedup_from seen chunks `sublist_of` chunks ∧
  NoDup (content <$> dedup_from seen chunks) ∧
  (∀ c, c ∈ dedup_from seen chunks -> content c ∉ seen) ∧
  ∀ l1 c l2, chunks = l1 ++ c :: l2 -> content c ∉ seen -> content c ∉ content <$> l1 ->
    c ∈ dedup_from seen chunks.
Proof.
  revert seen. induction chunks as [|c cs IH]; intros seen; simpl.
  { split_and!; [done|constructor|set_solver|]. intros [|??] ??; done. }
  case_decide as Hc.
  - destruct (IH seen) as (?&?&?&Hf). split_and!; [by constructor|done|done|].
    intros [|x l1] c' l2 [= -> ->] Hns Hnl; [done|]. eapply Hf; [done|done|]. set_solver.
  - destruct (IH ({[content c]} ∪ seen)) as (?&?&Hns&Hf). split_and!; [by constructor| | |].
    + simpl. constructor; [|done]. intros (c'&Heq&Hin)%list_elem_of_fmap_1.
      apply (Hns c' Hin). set_solver.
    + intros c' [->|Hin]%elem_of_cons; [done|]. specialize (Hns c' Hin). set_solver.
    + intros [|x l1] c' l2 [= -> ->] Hs Hnl; [by left|]. right. eapply Hf; [done| |]; set_solver.
Qed.

(** Deduplication keeps exactly the first chunk of each content, in
    order. *)
Theorem dedup_keeps_first (chunks : list TextChunk) :
  dedup_identical_chunks chunks `sublist_of` chunks ∧
  NoDup (content <$> dedup_identical_chunks chunks) ∧
  ∀ l1 c l2, chunks = l1 ++ c :: l2 -> content c ∉ content <$> l1 ->
    c ∈ dedup_identical_chunks chunks.
Proof.
  destruct (dedup_from_spec ∅ chunks) as (?&?&_&Hf). split_and!; [done..|].
  intros l1 c l2 Hl Hn. eapply Hf; [done|set_solver|done].
Qed.

Lemma chunks_cover_text_witness :
  let text := [195; 169; 97; 98; 226; 130; 172; 99]%Z in
  ∃ chunks spans, chunk_text text 1 None None 5 3 = Ok (Some chunks) ∧
    chunked text 1 None None 5 0 chunks spans ∧
    ∀ i, i < 8 -> ∃ a e, (a, e) ∈ spans ∧ a <= i < e.
Proof.
  apply (chunks_cover_text [195; 169; 97; 98; 226; 130; 172; 99]%Z 1 None None 5 3); [|lia].
  exists [[195; 169]; [97]; [98]; [226; 130; 172]; [99]]%Z. split; [done|].
  repeat constructor.
Defined.

(** Eight bytes, size ten, overlap four: two chunks. *)
Lemma chunk_text_ascii_witness :
  let text := [97; 98; 99; 100; 101; 102; 103; 104]%Z in
  chunk_text text 1 None None 10 4 =
    Ok (Some (ascii_chunk text 1 None None 10 6 <$> seq 0 2)).
Proof.
  apply (chunk_text_ascii [97; 98; 99; 100; 101; 102; 103; 104]%Z 1 None None 10 4).
  - apply (bool_decide_unpack _). vm_compute. done.
  - vm_compute. reflexivity.
  - lia.
Defined.
