(* ===== verification/Blob.v ===== *)
(** * The blob-store interface (core/src/blob.rs)

    The [Blob] trait as a class of operations on a store's state, the contract
    its implementations promise to their callers, and what the contract gives
    to a caller over whole histories of calls.  [EncryptedBlob], [LocalBlob]
    and [BlobCache] discharge the contract in their own files; a caller's
    theorem is proved once, against the class. *)

From stdpp Require Import base gmap list strings.
From Stdlib Require Import ZArith Lia Strings.Byte.
From S2P Require Import Prelude.
Open Scope Z_scope.

Notation bytes := (list byte).

#[global] Instance byte_eq_decision : EqDecision byte := Byte.byte_eq_dec.

(** The causes behind the [anyhow] errors of the stores; [Panicked] is a call
    that does not return. *)
Inductive BlobError :=
| InvalidKey
| NotFound
| Io
| Crypto
| TooShort
| BadMagic
| BadVersion (v : byte)
| BadDekSize (n : nat)
| InvalidRange
| Unsupported
| NotUtf8
| Panicked.

(** ** Fallible programs over a state

    [async fn f(&self, ..) -> anyhow::Result<A>]: a failing call keeps the
    effects it already had. *)

Definition prog (S A : Type) : Type := S -> result A BlobError * S.

#[global] Instance prog_ret {S} : MRet (prog S) := λ A a s, (Ok a, s).
#[global] Instance prog_bind {S} : MBind (prog S) := λ A B k m s,
  match m s with
  | (Ok a, s') => k a s'
  | (Err e, s') => (Err e, s')
  end.

Definition bail {S A} (e : BlobError) : prog S A := λ s, (Err e, s).
Definition act {S A} (f : S -> result A BlobError * S) : prog S A := f.
Definition of_result {S A} (r : result A BlobError) : prog S A := λ s, (r, s).
Definition ask {S A} (f : S -> A) : prog S A := λ s, (Ok (f s), s).
Definition ensure {S} (b : bool) (e : BlobError) : prog S unit :=
  if b then mret tt else bail e.

(** A program on a part of the state. *)
Definition zoom {S T A} (part : S -> T) (put_back : S -> T -> S) (m : prog T A) : prog S A :=
  λ s, let '(r, t) := m (part s) in (r, put_back s t).

(** [let _ = ..] and [if let Err(_) = ..]: the result as a value. *)
Definition attempt {S A} (m : prog S A) : prog S (result A BlobError) :=
  λ s, let '(r, s') := m s in (Ok r, s').

Lemma bind_ok {S A B} (m : prog S A) (k : A -> prog S B) s b s' :
  (m ≫= k) s = (Ok b, s') <-> ∃ a s1, m s = (Ok a, s1) ∧ k a s1 = (Ok b, s').
Proof.
  unfold mbind, prog_bind. destruct (m s) as [[a|e] s1]; split; intros H; try naive_solver.
Qed.

Lemma bind_run {S A B} (m : prog S A) (k : A -> prog S B) s :
  (m ≫= k) s = match m s with (Ok a, s') => k a s' | (Err e, s') => (Err e, s') end.
Proof. done. Qed.

(** ** The trait *)

(** [plaintext.slice(start..end)] with both ends clamped to the length. *)
Definition byte_range (a b : Z) (d : bytes) : bytes :=
  take (Z.to_nat (b - a)) (drop (Z.to_nat a) d).

Class Blob (S : Type) := {
  blob_put : string -> bytes -> prog S unit;
  blob_get : string -> prog S bytes;
  blob_get_range : string -> Z -> Z -> prog S bytes;
  blob_exists : string -> prog S bool;
  blob_delete : string -> prog S unit;
  blob_presigned_get_url : string -> prog S string;
}.

(** ** The contract

    [key] is the family of keys the callers use and [valid k d] says that [d]
    is what the content-addressed key [k] names ("same path = same content").
    A store in a state of [inv] only ever returns valid bytes, says [NotFound]
    only for what it does not have, and a call that reports an error either
    had its whole effect or none. *)
Class BlobLaws (S : Type) `{Blob S} (key : string -> Prop) (valid : string -> bytes -> Prop)
    (inv : S -> Prop) (has : S -> string -> Prop) : Prop := {
  put_law k d s r s' : inv s -> key k -> valid k d -> blob_put k d s = (r, s') ->
    inv s' ∧ ((∀ k', key k' -> has s' k' <-> k' = k ∨ has s k') ∨
              ((∀ k', key k' -> has s' k' <-> has s k') ∧ r <> Ok tt));
  get_law k s r s' : inv s -> key k -> blob_get k s = (r, s') ->
    inv s' ∧ (∀ k', key k' -> has s' k' <-> has s k') ∧
    (∀ d, r = Ok d -> valid k d) ∧ (r = Err NotFound -> ~ has s k);
  get_range_law k a b s r s' : inv s -> key k -> 0 <= a -> blob_get_range k a b s = (r, s') ->
    inv s' ∧ (∀ k', key k' -> has s' k' <-> has s k') ∧
    (∀ x, r = Ok x -> ∃ d, valid k d ∧ x = byte_range a b d) ∧ (r = Err NotFound -> ~ has s k);
  exists_law k s r s' : inv s -> key k -> blob_exists k s = (r, s') ->
    inv s' ∧ (∀ k', key k' -> has s' k' <-> has s k') ∧
    (∀ b, r = Ok b -> (b = true <-> has s k));
  delete_law k s r s' : inv s -> key k -> blob_delete k s = (r, s') ->
    inv s' ∧ ((∀ k', key k' -> has s' k' <-> k' <> k ∧ has s k') ∨
              ((∀ k', key k' -> has s' k' <-> has s k') ∧ r <> Ok tt));
}.

(** ** Histories *)

Inductive blob_op :=
| OpPut (k : string) (d : bytes)
| OpGet (k : string)
| OpGetRange (k : string) (a b : Z)
| OpExists (k : string)
| OpDelete (k : string).

Inductive blob_reply :=
| ReplyUnit (r : result unit BlobError)
| ReplyBytes (r : result bytes BlobError)
| ReplyBool (r : result bool BlobError).

Definition blob_step {S} `{Blob S} (op : blob_op) (s : S) : blob_reply * S :=
  match op with
  | OpPut k d => let '(r, s') := blob_put k d s in (ReplyUnit r, s')
  | OpGet k => let '(r, s') := blob_get k s in (ReplyBytes r, s')
  | OpGetRange k a b => let '(r, s') := blob_get_range k a b s in (ReplyBytes r, s')
  | OpExists k => let '(r, s') := blob_exists k s in (ReplyBool r, s')
  | OpDelete k => let '(r, s') := blob_delete k s in (ReplyUnit r, s')
  end.

Fixpoint blob_run {S} `{Blob S} (ops : list blob_op) (s : S) : list (blob_op * blob_reply) :=
  match ops with
  | [] => []
  | op :: ops => let '(r, s') := blob_step op s in (op, r) :: blob_run ops s'
  end.

Definition blob_exec {S} `{Blob S} (ops : list blob_op) (s : S) : S :=
  fold_left (λ s op, (blob_step op s).2) ops s.

Definition op_ok (key : string -> Prop) (valid : string -> bytes -> Prop) (op : blob_op) : Prop :=
  match op with
  | OpPut k d => key k ∧ valid k d
  | OpGetRange k a _ => key k ∧ 0 <= a
  | OpGet k | OpExists k | OpDelete k => key k
  end.

(** What a caller knows of a key from the replies so far: [Some true] after a
    put that returned, [Some false] after a delete that returned, nothing
    once a later call that failed may or may not have changed it. *)
Definition learn (known : gmap string bool) (op : blob_op) (r : blob_reply) : gmap string bool :=
  match op, r with
  | OpPut k _, ReplyUnit (Ok _) => <[k := true]> known
  | OpPut k _, _ => if decide (known !! k = Some true) then known else delete k known
  | OpDelete k, ReplyUnit (Ok _) => <[k := false]> known
  | OpDelete k, _ => if decide (known !! k = Some false) then known else delete k known
  | _, _ => known
  end.

Definition reply_ok (valid : string -> bytes -> Prop) (known : gmap string bool) (op : blob_op)
    (r : blob_reply) : Prop :=
  match op, r with
  | OpGet k, ReplyBytes r =>
      (∀ d, r = Ok d -> valid k d) ∧ (r = Err NotFound -> known !! k <> Some true)
  | OpGetRange k a b, ReplyBytes r =>
      (∀ x, r = Ok x -> ∃ d, valid k d ∧ x = byte_range a b d) ∧
      (r = Err NotFound -> known !! k <> Some true)
  | OpExists k, ReplyBool r => ∀ b b', r = Ok b -> known !! k = Some b' -> b = b'
  | OpPut _ _, ReplyUnit _ | OpDelete _, ReplyUnit _ => True
  | _, _ => False
  end.

Fixpoint history_ok (valid : string -> bytes -> Prop) (known : gmap string bool)
    (h : list (blob_op * blob_reply)) : Prop :=
  match h with
  | [] => True
  | (op, r) :: h => reply_ok valid known op r ∧ history_ok valid (learn known op r) h
  end.

(** ** What a caller can rely on *)

Section caller.
Context {S : Type} `{!Blob S} (key : string -> Prop) (valid : string -> bytes -> Prop)
  (inv : S -> Prop) (has : S -> string -> Prop) `{!BlobLaws S key valid inv has}.

(** The caller's knowledge is right, on its own keys. *)
Definition agrees (known : gmap string bool) (s : S) : Prop :=
  ∀ k b, key k -> known !! k = Some b -> b = true <-> has s k.

Lemma agrees_same known s s' :
  (∀ k', key k' -> has s' k' <-> has s k') -> agrees known s -> agrees known s'.
Proof. intros Hh Ha k b Hk Hb. rewrite Hh by done. eauto. Qed.

Lemma agrees_put known s s' k d r :
  agrees known s ->
  ((∀ k', key k' -> has s' k' <-> k' = k ∨ has s k') ∨
   ((∀ k', key k' -> has s' k' <-> has s k') ∧ r <> Ok tt)) ->
  agrees (learn known (OpPut k d) (ReplyUnit r)) s'.
Proof using Type.
  intros Ha Hh k' b Hk'. destruct r as [[]|e]; simpl.
  - destruct Hh as [Hh|[_ ?]]; [|done]. rewrite Hh by done.
    destruct (decide (k' = k)) as [->|Hne].
    + rewrite lookup_insert_eq. naive_solver.
    + rewrite lookup_insert_ne by done. intros Hb. rewrite (Ha k' b) by done. naive_solver.
  - case_decide as Hd; [|destruct (decide (k' = k)) as [->|Hne]];
      rewrite ?lookup_delete_eq, ?lookup_delete_ne by done; [|done|];
      intros Hb; pose proof (Ha k' b Hk' Hb); destruct Hh as [Hh|[Hh _]]; rewrite Hh by done;
      naive_solver.
Qed.

Lemma agrees_delete known s s' k r :
  agrees known s ->
  ((∀ k', key k' -> has s' k' <-> k' <> k ∧ has s k') ∨
   ((∀ k', key k' -> has s' k' <-> has s k') ∧ r <> Ok tt)) ->
  agrees (learn known (OpDelete k) (ReplyUnit r)) s'.
Proof using Type.
  intros Ha Hh k' b Hk'. destruct r as [[]|e]; simpl.
  - destruct Hh as [Hh|[_ ?]]; [|done]. rewrite Hh by done.
    destruct (decide (k' = k)) as [->|Hne].
    + rewrite lookup_insert_eq. naive_solver.
    + rewrite lookup_insert_ne by done. intros Hb. rewrite (Ha k' b) by done. naive_solver.
  - case_decide as Hd; [|destruct (decide (k' = k)) as [->|Hne]];
      rewrite ?lookup_delete_eq, ?lookup_delete_ne by done; [|done|];
      intros Hb; pose proof (Ha k' b Hk' Hb); destruct Hh as [Hh|[Hh _]]; rewrite Hh by done;
      naive_solver.
Qed.

Lemma blob_step_ok known op s r s' :
  inv s -> agrees known s -> op_ok key valid op -> blob_step op s = (r, s') ->
  inv s' ∧ reply_ok valid known op r ∧ agrees (learn known op r) s'.
Proof using BlobLaws0.
  intros Hi Ha Hop. destruct op; simpl in Hop |- *;
    match goal with |- context [let '(_, _) := ?m in _] => destruct m as [res s1] eqn:E end;
    intros [= <- <-].
  - destruct (put_law k d s res s1) as [? Hh]; try tauto.
    split_and!; [done..|by apply (agrees_put known s s1 k d res)].
  - destruct (get_law k s res s1) as (?&Hh&?&Hn); try done.
    split_and!; eauto using agrees_same. intros ? Hk. apply Hn; [done|]. by apply (Ha k true).
  - destruct (get_range_law k a b s res s1) as (?&Hh&?&Hn); try tauto.
    split_and!; eauto using agrees_same. intros ? Hk. apply Hn; [done|].
    apply (Ha k true); tauto.
  - destruct (exists_law k s res s1) as (?&Hh&Hb); try done.
    split_and!; eauto using agrees_same. intros b b' Hr Hk.
    pose proof (Hb b Hr). pose proof (Ha k b' Hop Hk). destruct b, b'; naive_solver.
  - destruct (delete_law k s res s1) as [? Hh]; try done. eauto using agrees_delete.
Qed.

(** Every reply of every history agrees with the contract. *)
Lemma blob_run_ok ops known s :
  inv s -> agrees known s -> Forall (op_ok key valid) ops ->
  history_ok valid known (blob_run ops s).
Proof using BlobLaws0.
  revert known s. induction ops as [|op ops IH]; intros known s Hi Ha Hf; [done|].
  apply Forall_cons in Hf as [Hop Hf]. simpl.
  destruct (blob_step op s) as [r s'] eqn:E.
  destruct (blob_step_ok known op s r s') as (?&?&?); [done..|]. split; auto.
Qed.
End caller.
