(* ===== verification/Envelope.v ===== *)
(** * Envelope encryption (core/src/kek.rs, store/src/encrypted_blob.rs)

    AES-256-GCM is a parameter ([Aead]) with the laws of an authenticated
    cipher; the operating system's random source is a list of draws kept in
    the state.  [FileKek] implements [KeyEncryptionKey], and [EncryptedBlob]
    over any store that keeps the blob contract keeps it again, for the
    plaintexts. *)

From stdpp Require Import base gmap list strings.
From Stdlib Require Import ZArith Lia Strings.Byte.
From S2P Require Import Prelude Blob.
Open Scope Z_scope.

(** ** The cipher and the random source *)

Definition NONCE_SIZE : nat := 12.
Definition KEY_SIZE : nat := 32.
Definition TAG_SIZE : nat := 16.

(** [Aes256Gcm::encrypt] and [decrypt] under a key and a nonce; [None] is the
    error of the [aes_gcm] crate. *)
Class Aead := {
  aead_encrypt : bytes -> bytes -> bytes -> option bytes;
  aead_decrypt : bytes -> bytes -> bytes -> option bytes;
}.

(** What AES-256-GCM documents: decryption inverts encryption, only a
    ciphertext made under the same key and nonce passes the tag check, and a
    ciphertext is the plaintext plus a 16-byte tag. *)
Class AeadLaws `{Aead} : Prop := {
  decrypt_encrypt key nonce p c :
    aead_encrypt key nonce p = Some c -> aead_decrypt key nonce c = Some p;
  encrypt_decrypt key nonce p c :
    aead_decrypt key nonce c = Some p -> aead_encrypt key nonce p = Some c;
  encrypt_length key nonce p c :
    aead_encrypt key nonce p = Some c -> length c = (length p + TAG_SIZE)%nat;
}.

Notation entropy := (list (option bytes)).

(** [SysRng.try_fill_bytes(&mut buf)] for a buffer of [n] bytes; a missing
    draw is the error of the random source. *)
Definition fill_bytes (n : nat) : prog entropy bytes := λ ent,
  match ent with
  | [] => (Err Crypto, [])
  | None :: ent => (Err Crypto, ent)
  | Some b :: ent => (Ok (resize n x00 b), ent)
  end.

Lemma fill_bytes_length n ent b ent' : fill_bytes n ent = (Ok b, ent') -> length b = n.
Proof. destruct ent as [|[]]; simpl; intros; simplify_eq. apply length_resize. Qed.

(** ** Key encryption keys *)

Record KeyEncryptionKey := mkKek {
  kek_wrap : bytes -> prog entropy bytes;
  kek_unwrap : bytes -> result bytes BlobError;
}.

(** The trait's promises, and the block size [EncryptedBlob] relies on. *)
Class KekLaws (kek : KeyEncryptionKey) : Prop := {
  unwrap_wrap p ent w ent' : kek_wrap kek p ent = (Ok w, ent') -> kek_unwrap kek w = Ok p;
  wrap_length p ent w ent' :
    kek_wrap kek p ent = (Ok w, ent') -> length w = (NONCE_SIZE + length p + TAG_SIZE)%nat;
  unwrap_found w : kek_unwrap kek w <> Err NotFound;
}.

Section envelope.
Context `{Aead}.

Definition encrypt_with_kek (key : bytes) (plaintext : bytes) : prog entropy bytes :=
  nonce ← fill_bytes NONCE_SIZE;
  ct ← of_result (ok_or (aead_encrypt key nonce plaintext) Crypto);
  mret (nonce ++ ct).

Definition decrypt_with_kek (key wrapped : bytes) : result bytes BlobError :=
  if (length wrapped <? NONCE_SIZE + 16)%nat then Err TooShort
  else ok_or (aead_decrypt key (take NONCE_SIZE wrapped) (drop NONCE_SIZE wrapped)) Crypto.

(** [FileKek] with its 256-bit key. *)
Definition FileKek (key : bytes) : KeyEncryptionKey :=
  mkKek (encrypt_with_kek key) (decrypt_with_kek key).

(** ** The envelope *)

Definition MAGIC : bytes := [x45; x42; x6c].
Definition VERSION : byte := x01.
Definition WRAPPED_DEK_BLOCK : nat := NONCE_SIZE + KEY_SIZE + TAG_SIZE.
Definition HEADER_SIZE : nat := 3 + 1 + WRAPPED_DEK_BLOCK + NONCE_SIZE.
Definition OFF_VERSION : nat := 3.
Definition OFF_WRAPPED_DEK : nat := 4.
Definition OFF_PAYLOAD_NONCE : nat := OFF_WRAPPED_DEK + WRAPPED_DEK_BLOCK.

Definition is_envelope (raw : bytes) : bool := bool_decide (take 3 raw = MAGIC).

Definition seal (kek : KeyEncryptionKey) (plaintext : bytes) : prog entropy (bytes * bytes) :=
  dek ← fill_bytes KEY_SIZE;
  payload_nonce ← fill_bytes NONCE_SIZE;
  payload_ct ← of_result (ok_or (aead_encrypt dek payload_nonce plaintext) Crypto);
  wrapped ← kek_wrap kek dek;
  mret (wrapped, payload_nonce ++ payload_ct).

Definition assemble (wrapped_dek encrypted_payload : bytes) : bytes :=
  MAGIC ++ [VERSION] ++ wrapped_dek ++ encrypted_payload.

Definition sub_range (a b : nat) (raw : bytes) : bytes := take (b - a) (drop a raw).

Definition open (kek : KeyEncryptionKey) (raw : bytes) : result bytes BlobError :=
  if (length raw <? HEADER_SIZE)%nat then Err TooShort
  else if negb (bool_decide (take 3 raw = MAGIC)) then Err BadMagic
  else
    let version := default x00 (raw !! OFF_VERSION) in
    if negb (bool_decide (version = VERSION)) then Err (BadVersion version)
    else
      let wrapped_dek := sub_range OFF_WRAPPED_DEK OFF_PAYLOAD_NONCE raw in
      let payload_nonce := sub_range OFF_PAYLOAD_NONCE HEADER_SIZE raw in
      let payload_ct_and_tag := drop HEADER_SIZE raw in
      let? dek := kek_unwrap kek wrapped_dek in
      if negb (length dek =? KEY_SIZE)%nat then Err (BadDekSize (length dek))
      else ok_or (aead_decrypt dek payload_nonce payload_ct_and_tag) Crypto.

(** ** The encrypting store *)

Record EncryptedBlob (B : Type) := mkEncryptedBlob {
  eb_inner : B;
  eb_kek : KeyEncryptionKey;
  eb_entropy : entropy;
}.
Arguments mkEncryptedBlob {B}.
Arguments eb_inner {B}.
Arguments eb_kek {B}.
Arguments eb_entropy {B}.

Definition eb_on_inner {B A} (m : prog B A) : prog (EncryptedBlob B) A :=
  zoom eb_inner (λ s b, mkEncryptedBlob b (eb_kek s) (eb_entropy s)) m.
Definition eb_on_entropy {B A} (m : prog entropy A) : prog (EncryptedBlob B) A :=
  zoom eb_entropy (λ s e, mkEncryptedBlob (eb_inner s) (eb_kek s) e) m.

Definition eb_put {B} `{Blob B} (k : string) (data : bytes) : prog (EncryptedBlob B) unit :=
  kek ← ask eb_kek;
  sealed ← eb_on_entropy (seal kek data);
  eb_on_inner (blob_put k (assemble sealed.1 sealed.2)).

Definition eb_get {B} `{Blob B} (k : string) : prog (EncryptedBlob B) bytes :=
  raw ← eb_on_inner (blob_get k);
  kek ← ask eb_kek;
  of_result (open kek raw).

Definition eb_get_range {B} `{Blob B} (k : string) (start end_ : Z)
    : prog (EncryptedBlob B) bytes :=
  plaintext ← eb_get k;
  let len := Z.of_nat (length plaintext) in
  let e := Z.min end_ len in
  if (start =? 0) && (e =? 0) && (len =? 0) then mret []
  else
    _ ← ensure ((start <? len) && (e <=? len) && (start <=? e)) InvalidRange;
    mret (byte_range start e plaintext).

#[global] Instance encrypted_blob {B} `{Blob B} : Blob (EncryptedBlob B) := {
  blob_put := eb_put;
  blob_get := eb_get;
  blob_get_range := eb_get_range;
  blob_exists k := eb_on_inner (blob_exists k);
  blob_delete k := eb_on_inner (blob_delete k);
  blob_presigned_get_url _ := bail Unsupported;
}.

(** ** Slicing an envelope *)

Lemma open_assemble kek wrapped nonce ct :
  length wrapped = WRAPPED_DEK_BLOCK -> length nonce = NONCE_SIZE ->
  open kek (assemble wrapped (nonce ++ ct)) =
    (let? dek := kek_unwrap kek wrapped in
     if negb (length dek =? KEY_SIZE)%nat then Err (BadDekSize (length dek))
     else ok_or (aead_decrypt dek nonce ct) Crypto).
Proof using Type.
  intros Hw Hn. unfold open.
  assert (Hl : (length (assemble wrapped (nonce ++ ct)) <? HEADER_SIZE)%nat = false).
  { apply Nat.ltb_ge. unfold assemble. simpl. rewrite !length_app. unfold HEADER_SIZE. lia. }
  assert (Hd : sub_range OFF_WRAPPED_DEK OFF_PAYLOAD_NONCE (assemble wrapped (nonce ++ ct)) = wrapped).
  { unfold sub_range. change (drop OFF_WRAPPED_DEK (assemble wrapped (nonce ++ ct)))
      with (wrapped ++ nonce ++ ct).
    replace (OFF_PAYLOAD_NONCE - OFF_WRAPPED_DEK)%nat with (length wrapped) by (rewrite Hw; done).
    apply take_app_length. }
  assert (Hp : drop OFF_PAYLOAD_NONCE (assemble wrapped (nonce ++ ct)) = nonce ++ ct).
  { replace OFF_PAYLOAD_NONCE with (OFF_WRAPPED_DEK + length wrapped)%nat by (rewrite Hw; done).
    rewrite <-drop_drop. apply drop_app_length. }
  assert (Hpn : sub_range OFF_PAYLOAD_NONCE HEADER_SIZE (assemble wrapped (nonce ++ ct)) = nonce).
  { unfold sub_range. rewrite Hp. replace (HEADER_SIZE - OFF_PAYLOAD_NONCE)%nat with (length nonce)
      by (rewrite Hn; done). apply take_app_length. }
  assert (Hct : drop HEADER_SIZE (assemble wrapped (nonce ++ ct)) = ct).
  { replace HEADER_SIZE with (OFF_PAYLOAD_NONCE + length nonce)%nat by (rewrite Hn; done).
    rewrite <-drop_drop, Hp. apply drop_app_length. }
  by rewrite Hl, Hd, Hpn, Hct.
Qed.

(** Every envelope that passes the header checks is an assembled one. *)
Lemma open_header kek raw d :
  open kek raw = Ok d ->
  ∃ wrapped nonce ct, length wrapped = WRAPPED_DEK_BLOCK ∧ length nonce = NONCE_SIZE ∧
    raw = assemble wrapped (nonce ++ ct).
Proof using Type.
  unfold open. destruct (Nat.ltb_spec (length raw) HEADER_SIZE) as [|Hlen]; [done|].
  destruct (bool_decide_reflect (take 3 raw = MAGIC)) as [Hm|]; [|done]. simpl.
  destruct (bool_decide_reflect (default x00 (raw !! OFF_VERSION) = VERSION)) as [Hv|]; [|done].
  intros _.
  exists (take WRAPPED_DEK_BLOCK (drop OFF_WRAPPED_DEK raw)),
    (take NONCE_SIZE (drop OFF_PAYLOAD_NONCE raw)), (drop HEADER_SIZE raw).
  unfold HEADER_SIZE in Hlen. split_and!.
  - rewrite length_take, length_drop. unfold OFF_WRAPPED_DEK. lia.
  - rewrite length_take, length_drop. unfold OFF_PAYLOAD_NONCE, OFF_WRAPPED_DEK. lia.
  - assert (Hraw : raw = take 3 raw ++ take 1 (drop 3 raw) ++ take WRAPPED_DEK_BLOCK (drop 4 raw) ++
              take NONCE_SIZE (drop OFF_PAYLOAD_NONCE raw) ++ drop HEADER_SIZE raw).
    { rewrite <-(take_drop 3 raw) at 1. f_equal.
      rewrite <-(take_drop 1 (drop 3 raw)) at 1. f_equal. rewrite drop_drop.
      rewrite <-(take_drop WRAPPED_DEK_BLOCK (drop (3 + 1) raw)) at 1. f_equal. rewrite drop_drop.
      rewrite <-(take_drop NONCE_SIZE (drop (3 + 1 + WRAPPED_DEK_BLOCK) raw)) at 1.
      rewrite drop_drop. done. }
    rewrite Hraw at 1. unfold assemble. rewrite Hm. do 2 f_equal.
    destruct raw as [|b0 [|b1 [|b2 [|b3 raw]]]]; simpl in Hlen; [lia..|]. simpl in Hv |- *.
    by rewrite Hv.
Qed.
End envelope.
#[global] Arguments mkEncryptedBlob {B}.
#[global] Arguments eb_inner {B}.
#[global] Arguments eb_kek {B}.
#[global] Arguments eb_entropy {B}.

(** ** Sealing and opening *)

Section crypto.
Context `{cipher : Aead} `{cipher_laws : !AeadLaws}.

#[global] Instance file_kek_laws key : KekLaws (FileKek key).
Proof using cipher_laws.
  constructor.
  - intros p ent w ent'. simpl. unfold encrypt_with_kek. intros Hw.
    apply bind_ok in Hw as (nonce & e1 & Hn & Hw). apply bind_ok in Hw as (ct & e2 & Hc & Hw).
    apply fill_bytes_length in Hn. unfold of_result, mret, prog_ret in *. simplify_eq.
    destruct (aead_encrypt key nonce p) as [c|] eqn:E; simpl in *; simplify_eq.
    pose proof (encrypt_length _ _ _ _ E). unfold decrypt_with_kek.
    destruct (Nat.ltb_spec (length (nonce ++ ct)) (NONCE_SIZE + 16)) as [Hl|_].
    { rewrite length_app in Hl. unfold TAG_SIZE in *. lia. }
    rewrite <-Hn, take_app_length, drop_app_length. by rewrite (decrypt_encrypt _ _ _ _ E).
  - intros p ent w ent'. simpl. unfold encrypt_with_kek. intros Hw.
    apply bind_ok in Hw as (nonce & e1 & Hn & Hw). apply bind_ok in Hw as (ct & e2 & Hc & Hw).
    apply fill_bytes_length in Hn. unfold of_result, mret, prog_ret in *. simplify_eq.
    destruct (aead_encrypt key nonce p) as [c|] eqn:E; simpl in *; simplify_eq.
    rewrite length_app, (encrypt_length _ _ _ _ E), Hn. done.
  - intros w. simpl. unfold decrypt_with_kek. case_match; [done|]. by destruct (aead_decrypt _ _ _).
Qed.

Lemma seal_opens kek `{!KekLaws kek} d ent w p ent' :
  seal kek d ent = (Ok (w, p), ent') -> open kek (assemble w p) = Ok d.
Proof using cipher_laws.
  unfold seal. intros Hs.
  apply bind_ok in Hs as (dek & e1 & Hd & Hs). apply bind_ok in Hs as (nonce & e2 & Hn & Hs).
  apply bind_ok in Hs as (ct & e3 & Hc & Hs). apply bind_ok in Hs as (wrapped & e4 & Hw & Hs).
  apply fill_bytes_length in Hd. apply fill_bytes_length in Hn.
  unfold of_result, mret, prog_ret in *. simplify_eq.
  destruct (aead_encrypt dek nonce d) as [c|] eqn:E; simpl in *; simplify_eq.
  rewrite open_assemble; [|by rewrite (wrap_length _ _ _ _ Hw), Hd|done].
  rewrite (unwrap_wrap _ _ _ _ Hw). simpl. rewrite Hd. simpl. by rewrite (decrypt_encrypt _ _ _ _ E).
Qed.

Lemma decrypt_with_kek_ok key w p :
  length w = WRAPPED_DEK_BLOCK -> decrypt_with_kek key w = Ok p ->
  ∃ nonce ct, length nonce = NONCE_SIZE ∧ aead_encrypt key nonce p = Some ct ∧ w = nonce ++ ct.
Proof using cipher_laws.
  intros Hl. unfold decrypt_with_kek. case_match; [done|].
  destruct (aead_decrypt _ _ _) as [q|] eqn:E; [|done]. simpl. intros [= <-].
  exists (take NONCE_SIZE w), (drop NONCE_SIZE w). rewrite take_drop. split_and!; [|by apply encrypt_decrypt|done].
  rewrite length_take, Hl. done.
Qed.

Lemma open_found kek `{!KekLaws kek} raw : open kek raw <> Err NotFound.
Proof using Type.
  unfold open. repeat (case_match; [done|]). pose proof (unwrap_found (sub_range OFF_WRAPPED_DEK OFF_PAYLOAD_NONCE raw)) as Hu.
  destruct (kek_unwrap _ _) as [dek|e]; simpl; [|congruence].
  case_match; [done|]. by destruct (aead_decrypt _ _ _).
Qed.

(** C34. Envelope encryption is exact: what [seal] produces under a key opens
    to the plaintext under that key, and [open] accepts nothing else - if it
    returns [d], the stored bytes are the assembled header, a data key
    encrypted under this very key and [d] encrypted under that data key. *)
Theorem envelope_exact (key raw d : bytes) :
  (∀ ent w p ent', seal (FileKek key) d ent = (Ok (w, p), ent') ->
     open (FileKek key) (assemble w p) = Ok d) ∧
  (open (FileKek key) raw = Ok d <->
   ∃ dek kek_nonce wrapped nonce ct,
     length dek = KEY_SIZE ∧ length kek_nonce = NONCE_SIZE ∧ length nonce = NONCE_SIZE ∧
     aead_encrypt key kek_nonce dek = Some wrapped ∧ aead_encrypt dek nonce d = Some ct ∧
     raw = assemble (kek_nonce ++ wrapped) (nonce ++ ct)).
Proof using cipher_laws.
  split; [intros ent w p ent'; apply (seal_opens _)|]. split.
  - intros Ho. destruct (open_header _ _ _ Ho) as (w & nonce & ct & Hw & Hn & ->).
    rewrite open_assemble in Ho by done. simpl in Ho.
    destruct (decrypt_with_kek key w) as [dek|] eqn:Ed; [|done]. simpl in Ho.
    destruct (Nat.eqb_spec (length dek) KEY_SIZE) as [Hd|]; [|done]. simpl in Ho.
    destruct (aead_decrypt dek nonce ct) as [d'|] eqn:E; [|done]. simpl in Ho. simplify_eq.
    destruct (decrypt_with_kek_ok _ _ _ Hw Ed) as (kn & wct & ?&?&->).
    exists dek, kn, wct, nonce, ct. split_and!; try done. by apply encrypt_decrypt.
  - intros (dek & kn & wct & nonce & ct & Hd & Hk & Hn & Ew & Ec & ->).
    rewrite open_assemble; [|rewrite length_app, (encrypt_length _ _ _ _ Ew), Hd, Hk; done|done].
    simpl. unfold decrypt_with_kek.
    destruct (Nat.ltb_spec (length (kn ++ wct)) (NONCE_SIZE + 16)) as [Hl|_].
    { rewrite length_app, (encrypt_length _ _ _ _ Ew) in Hl. unfold TAG_SIZE in Hl. lia. }
    rewrite <-Hk, take_app_length, drop_app_length, (decrypt_encrypt _ _ _ _ Ew). simpl.
    rewrite Hd. simpl. by rewrite (decrypt_encrypt _ _ _ _ Ec).
Qed.

(** ** The contract of the encrypting store *)

(** What the inner store holds under a key: an envelope of a valid blob. *)
Definition sealed_valid (kek : KeyEncryptionKey) (valid : string -> bytes -> Prop) (k : string)
    (raw : bytes) : Prop :=
  ∃ d, open kek raw = Ok d ∧ valid k d.

Definition eb_inv {B} (inv : B -> Prop) (kek : KeyEncryptionKey) (s : EncryptedBlob B) : Prop :=
  inv (eb_inner s) ∧ eb_kek s = kek.
Definition eb_has {B} (has : B -> string -> Prop) (s : EncryptedBlob B) : string -> Prop :=
  has (eb_inner s).

Lemma eb_on_inner_run {B A} (m : prog B A) (s : EncryptedBlob B) :
  eb_on_inner m s = ((m (eb_inner s)).1, mkEncryptedBlob (m (eb_inner s)).2 (eb_kek s) (eb_entropy s)).
Proof using Type. unfold eb_on_inner, zoom. by destruct (m (eb_inner s)). Qed.

Section contract.
Context {B : Type} `{!Blob B} (key : string -> Prop) (valid : string -> bytes -> Prop)
  (kek : KeyEncryptionKey) `{kek_laws : !KekLaws kek} (inv : B -> Prop) (has : B -> string -> Prop)
  `{inner_laws : !BlobLaws B key (sealed_valid kek valid) inv has}.

Lemma eb_get_spec k s r s' :
  eb_inv inv kek s -> key k -> eb_get k s = (r, s') ->
  eb_inv inv kek s' ∧ (∀ k', key k' -> eb_has has s' k' <-> eb_has has s k') ∧
  (∀ d, r = Ok d -> valid k d) ∧ (r = Err NotFound -> ~ eb_has has s k).
Proof using All.
  intros [Hi Hkek] Hk. unfold eb_get. rewrite bind_run, eb_on_inner_run.
  destruct (blob_get k (eb_inner s)) as [raw b] eqn:E. simpl.
  destruct (get_law k _ raw b Hi Hk E) as (Hi' & Hh & Hv & Hn).
  destruct raw as [raw|e]; [|intros [= <- <-]; by split_and!].
  unfold mbind, prog_bind, ask, of_result. simpl. intros [= <- <-]. rewrite Hkek.
  split_and!; [done..| |by intros ?%open_found].
  intros d Ho. destruct (Hv raw eq_refl) as (d' & Ho' & ?). congruence.
Qed.

Lemma eb_get_range_cases k a b s r s' :
  eb_get_range k a b s = (r, s') ->
  ∃ r0, eb_get k s = (r0, s') ∧
    match r0 with
    | Err e => r = Err e
    | Ok d => r = Err InvalidRange ∨ (r = Ok [] ∧ d = []) ∨
              r = Ok (byte_range a (Z.min b (Z.of_nat (length d))) d)
    end.
Proof using Type.
  unfold eb_get_range. rewrite bind_run. destruct (eb_get k s) as [[d|e] s1]; [|naive_solver].
  destruct ((a =? 0) && (Z.min b (Z.of_nat (length d)) =? 0) && (Z.of_nat (length d) =? 0)) eqn:Ez.
  { unfold mret, prog_ret. intros [= <- <-]. exists (Ok d). split; [done|]. right. left.
    split; [done|]. bool_to_prop. destruct d; [done|]. simpl in *. lia. }
  rewrite bind_run. unfold ensure, mret, prog_ret, bail.
  destruct ((a <? Z.of_nat (length d)) && _ && _); intros [= <- <-]; exists (Ok d); auto.
Qed.

Lemma byte_range_clamp a b (d : bytes) :
  0 <= a -> byte_range a (Z.min b (Z.of_nat (length d))) d = byte_range a b d.
Proof using Type.
  intros Ha. unfold byte_range. destruct (Z.le_gt_cases b (Z.of_nat (length d))).
  - by rewrite Z.min_l by lia.
  - rewrite Z.min_r by lia. rewrite !take_ge; rewrite ?length_drop; lia || done.
Qed.

#[global] Instance encrypted_blob_laws :
  BlobLaws (EncryptedBlob B) key valid (eb_inv inv kek) (eb_has has).
Proof using All.
  constructor.
  - intros k d s r s' [Hi Hkek] Hk Hv. simpl. unfold eb_put.
    rewrite bind_run. unfold ask. rewrite bind_run. unfold eb_on_entropy, zoom.
    destruct (seal (eb_kek s) d (eb_entropy s)) as [[[w p]|e] ent] eqn:Es; simpl.
    2: { intros [= <- <-]. split; [done|]. by right. }
    rewrite eb_on_inner_run. simpl. destruct (blob_put k _ (eb_inner s)) as [r1 b1] eqn:E.
    simpl. intros [= <- <-]. rewrite Hkek in Es.
    destruct (put_law k (assemble w p) (eb_inner s) r1 b1 Hi Hk) as [Hi' Hh]; [|done|].
    { exists d. split; [|done]. by apply (seal_opens kek) in Es. }
    by split.
  - apply eb_get_spec.
  - intros k a b s r s' Hs Hk Ha Hr. simpl in Hr.
    destruct (eb_get_range_cases _ _ _ _ _ _ Hr) as (r0 & Hg & Hc).
    destruct (eb_get_spec _ _ _ _ Hs Hk Hg) as (?&?&Hd&Hn). split_and!; [done..| |].
    + intros x ->. destruct r0 as [d|]; [|done]. exists d. split; [by apply Hd|].
      destruct Hc as [?|[[? ->]|?]]; simplify_eq.
      * unfold byte_range. by rewrite drop_nil, take_nil.
      * by apply byte_range_clamp.
    + intros ->. destruct r0 as [d|e]; [naive_solver|]. apply Hn. congruence.
  - intros k s r s' [Hi Hkek] Hk. simpl. rewrite eb_on_inner_run.
    destruct (blob_exists k (eb_inner s)) as [r1 b1] eqn:E. simpl. intros [= <- <-].
    destruct (exists_law k _ r1 b1 Hi Hk E) as (?&?&?). by split_and!.
  - intros k s r s' [Hi Hkek] Hk. simpl. rewrite eb_on_inner_run.
    destruct (blob_delete k (eb_inner s)) as [r1 b1] eqn:E. simpl. intros [= <- <-].
    destruct (delete_law k _ r1 b1 Hi Hk E) as (?&?). by split.
Qed.
End contract.
End crypto.

(** ** A cipher for the witnesses

    The plaintext followed by a constant tag: it keeps the laws. *)
Definition zero_tag : bytes := replicate TAG_SIZE x00.
#[local] Instance plain_aead : Aead := {
  aead_encrypt _ _ p := Some (p ++ zero_tag);
  aead_decrypt _ _ c :=
    if decide (drop (length c - TAG_SIZE) c = zero_tag) then Some (take (length c - TAG_SIZE) c)
    else None;
}.

#[local] Instance plain_aead_laws : AeadLaws.
Proof.
  constructor; simpl.
  - intros _ _ p c [= <-]. rewrite length_app.
    replace (length p + length zero_tag - TAG_SIZE)%nat with (length p)
      by (unfold zero_tag; rewrite length_replicate; lia).
    rewrite drop_app_length, take_app_length. by rewrite decide_True.
  - intros _ _ p c. case_decide as Hd; [|done]. intros [= <-]. rewrite <-Hd. by rewrite take_drop.
  - intros _ _ p c [= <-]. by rewrite length_app.
Qed.

Definition demo_key : bytes := replicate KEY_SIZE x07.
Definition demo_draws : entropy :=
  [Some (replicate KEY_SIZE x01); Some (replicate NONCE_SIZE x02); Some (replicate NONCE_SIZE x03)].
Definition demo_envelope : bytes :=
  match seal (FileKek demo_key) [x61; x62] demo_draws with
  | (Ok (w, p), _) => assemble w p
  | _ => []
  end.

Lemma envelope_exact_witness :
  length demo_envelope = 94%nat ∧ open (FileKek demo_key) demo_envelope = Ok [x61; x62].
Proof.
  split; [reflexivity|].
  apply (envelope_exact demo_key demo_envelope [x61; x62]).
  exists (replicate KEY_SIZE x01), (replicate NONCE_SIZE x03), (replicate KEY_SIZE x01 ++ zero_tag),
    (replicate NONCE_SIZE x02), ([x61; x62] ++ zero_tag).
  split_and!; reflexivity.
Defined.
