(* ===== verification/ColumnCrypt.v ===== *)
(** * Column encryption and data keys (core/src/envelope.rs, data_key.rs, provider_key.rs)

    Sensitive columns are sealed with AES-256-GCM under a tenant's data key;
    the data key itself is stored wrapped by the key-encryption key.  The file
    has the column functions, the data-key record with its generation and
    rotation, and the provider keys, over the cipher and the random source of
    the envelope file. *)

From stdpp Require Import base list strings.
From Stdlib Require Import ZArith Lia Strings.Byte.
From S2P Require Import Prelude Blob Text Envelope.
Open Scope Z_scope.

Section column.
Context `{Aead}.

(** ** Columns *)

Definition encrypt_column (dek : bytes) (plaintext : chars) : prog entropy bytes :=
  nonce ← fill_bytes NONCE_SIZE;
  ct ← of_result (ok_or (aead_encrypt dek nonce (str_bytes plaintext)) Crypto);
  mret (nonce ++ ct).

Definition decrypt_column (dek ciphertext : bytes) : result chars BlobError :=
  if (length ciphertext <? NONCE_SIZE + 16)%nat then Err TooShort
  else
    let nonce := take NONCE_SIZE ciphertext in
    let ct_and_tag := drop NONCE_SIZE ciphertext in
    let? plaintext := ok_or (aead_decrypt dek nonce ct_and_tag) Crypto in
    ok_or (bytes_str plaintext) NotUtf8.

(** ** Data keys *)

Record DataKey := mkDataKey {
  dk_id : bytes;
  wrapped_dek : bytes;
  kek_id : chars;
}.

(** [Uuid::new_v4]: sixteen random bytes, with a panic when there are none. *)
Definition uuid_new_v4 : prog entropy bytes := λ ent,
  match fill_bytes 16 ent with
  | (Ok b, ent') => (Ok b, ent')
  | (Err _, ent') => (Err Panicked, ent')
  end.

Definition generate (kek : KeyEncryptionKey) (kid : chars) : prog entropy DataKey :=
  raw_dek ← fill_bytes 32;
  wrapped ← kek_wrap kek raw_dek;
  id ← uuid_new_v4;
  mret (mkDataKey id wrapped kid).

Definition rotate_dek (old_kek new_kek : KeyEncryptionKey) (dk : DataKey) (new_kek_id : chars)
    : prog entropy DataKey :=
  raw_dek ← of_result (kek_unwrap old_kek (wrapped_dek dk));
  new_wrapped ← kek_wrap new_kek raw_dek;
  id ← uuid_new_v4;
  mret (mkDataKey id new_wrapped new_kek_id).

(** ** Provider keys *)

Definition encrypt_provider_key (kek : KeyEncryptionKey) (plaintext : bytes) : prog entropy bytes :=
  kek_wrap kek plaintext.

Definition decrypt_provider_key (kek : KeyEncryptionKey) (ciphertext : bytes)
    : result bytes BlobError :=
  kek_unwrap kek ciphertext.

(** ** Lemmas *)

Context `{!AeadLaws}.

Lemma encrypt_column_shape dek p ent c ent' :
  encrypt_column dek p ent = (Ok c, ent') ->
  ∃ nonce ct, length nonce = NONCE_SIZE ∧ aead_encrypt dek nonce (str_bytes p) = Some ct ∧
    c = nonce ++ ct.
Proof using Type.
  unfold encrypt_column. intros (nonce & ent1 & Hn & Hk)%bind_ok.
  apply bind_ok in Hk as (ct & ent2 & Hc & Hr). unfold of_result, ok_or in Hc.
  destruct (aead_encrypt _ _ _) as [ct'|] eqn:E; simplify_eq. inv Hr.
  eexists _, _. split_and!; [by eapply fill_bytes_length|done|done].
Qed.

(** What was sealed opens under the same key, whatever the nonce. *)
Lemma decrypt_encrypt_column dek p ent c ent' :
  is_str p -> encrypt_column dek p ent = (Ok c, ent') -> decrypt_column dek c = Ok p.
Proof using All.
  intros Hp (nonce & ct & Hl & He & ->)%encrypt_column_shape. unfold decrypt_column.
  rewrite length_app, Hl.
  assert ((NONCE_SIZE + length ct <? NONCE_SIZE + 16)%nat = false) as ->.
  { apply Nat.ltb_ge. rewrite (encrypt_length _ _ _ _ He). unfold TAG_SIZE. lia. }
  rewrite <-Hl, take_app_length, drop_app_length, (decrypt_encrypt _ _ _ _ He). simpl.
  by rewrite bytes_str_bytes.
Qed.

(** A generated key unwraps to the 32 bytes that were drawn. *)
Lemma generate_unwraps kek `{!KekLaws kek} kid ent dk ent' :
  generate kek kid ent = (Ok dk, ent') ->
  ∃ raw, length raw = 32%nat ∧ kek_unwrap kek (wrapped_dek dk) = Ok raw ∧ kek_id dk = kid.
Proof using Type.
  unfold generate. intros (raw & ent1 & Hr & Hk)%bind_ok.
  apply bind_ok in Hk as (w & ent2 & Hw & Hk). apply bind_ok in Hk as (id & ent3 & Hi & Hk). inv Hk.
  exists raw. split_and!; [by eapply fill_bytes_length|by eapply unwrap_wrap|done].
Qed.
End column.

(** Rotation changes the wrapping and nothing else: the new record unwraps
    under the new key to the bytes the old record unwrapped to under the old
    key, so every column sealed before the rotation opens after it; a
    rotation with the wrong old key fails and produces no record. *)
Theorem rotation_preserves_columns `{Aead} `{!AeadLaws} (old new : KeyEncryptionKey)
    `{!KekLaws old} `{!KekLaws new} (dk dk' : DataKey) (kid : chars) (ent ent' : entropy) :
  rotate_dek old new dk kid ent = (Ok dk', ent') ->
  kek_id dk' = kid ∧
  ∃ raw, kek_unwrap old (wrapped_dek dk) = Ok raw ∧ kek_unwrap new (wrapped_dek dk') = Ok raw ∧
    ∀ p e c e', is_str p -> encrypt_column raw p e = (Ok c, e') -> decrypt_column raw c = Ok p.
Proof.
  unfold rotate_dek. intros (raw & ent1 & Hr & Hk)%bind_ok. injection Hr as Hr ->.
  apply bind_ok in Hk as (w & ent2 & Hw & Hk). apply bind_ok in Hk as (id & ent3 & Hi & Hk).
  injection Hk as <- _. split; [done|]. exists raw.
  split_and!; [done|by eapply unwrap_wrap|]. intros. by eapply decrypt_encrypt_column.
Qed.
