(* ===== verification/Schema.v ===== *)
(** * The document tables (store/migrations, core/src/document.rs, file.rs, chunk.rs, tag.rs)

    The tables behind documents: documents, their files, chunks and tags, the
    tenants' data keys, and the sequences that number their rows.  A table is
    a finite map from primary key to row; a sequence is not rolled back.  The
    constraints of the migrations (foreign keys, CHECKs, row-level security)
    are the predicates the statements test. *)

From stdpp Require Import base gmap list strings.
From Stdlib Require Import ZArith Lia Strings.Byte.
From S2P Require Import Prelude FloatModel Text Json Role Blob Envelope ColumnCrypt.
Open Scope Z_scope.

(** ** Domain types *)

Inductive DocKind :=
| KDocument | KImage | KAudio | KVideo | KIdentityDocument | KCode | KArchive | KBinary | KEmail.
#[global] Instance DocKind_eq_dec : EqDecision DocKind. Proof. solve_decision. Defined.
#[global] Instance DocKind_enum : StrEnum DocKind :=
  {| enum_name := "DocKind";
     as_str k := match k with
       | KDocument => "document" | KImage => "image" | KAudio => "audio" | KVideo => "video"
       | KIdentityDocument => "identity_document" | KCode => "code" | KArchive => "archive"
       | KBinary => "binary" | KEmail => "email" end;
     all := [KDocument; KImage; KAudio; KVideo; KIdentityDocument; KCode; KArchive; KBinary; KEmail] |}.
#[global] Instance DocKind_enum_ok : StrEnumOk DocKind. Proof. solve_str_enum. Qed.

Inductive TagSource := TsLlm | TsUser.
#[global] Instance TagSource_eq_dec : EqDecision TagSource. Proof. solve_decision. Defined.
#[global] Instance TagSource_enum : StrEnum TagSource :=
  {| enum_name := "TagSource";
     as_str k := match k with TsLlm => "llm" | TsUser => "user" end;
     all := [TsLlm; TsUser] |}.
#[global] Instance TagSource_enum_ok : StrEnumOk TagSource. Proof. solve_str_enum. Qed.

(** The source-sync columns of a document. *)
Record SourceSync := mkSync {
  source_url : option chars;
  fetch_interval_secs : option Z;
  next_fetch_at : option Z;
  last_fetched_at : option Z;
  last_fetch_sha256 : option bytes;
  current_version : Z;
  fetch_failure_count : Z;
}.

Record Document := mkDocument {
  doc_id : Z;
  doc_tenant : Z;
  doc_title : option chars;
  doc_summary : option chars;
  doc_user_note : option chars;
  doc_kind : DocKind;
  doc_meta : json;
  doc_page_count : Z;
  doc_status : ProcessingStatus;
  doc_created_at : Z;
  doc_local_only : bool;
  doc_sync : SourceSync;
}.

Record FileRecord := mkFileRecord {
  fr_id : Z;
  fr_tenant : Z;
  fr_document : Z;
  fr_page_no : Z;
  fr_page_label : option chars;
  fr_sha256 : bytes;
  fr_blob_key : chars;
  fr_path : option chars;
  fr_mime : option chars;
  fr_size_bytes : option Z;
  fr_meta : json;
  fr_status : ProcessingStatus;
  fr_ingested_at : Z;
}.

Record Chunk := mkChunk {
  ch_tenant : Z;
  ch_document : Z;
  ch_page_no : option Z;
  ch_idx : Z;
  ch_content : chars;
  ch_ts_offset : option f64;
  ch_embedding : list f32;
}.

(** ** Rows *)

Record DocumentRow := mkDocumentRow {
  dr_tenant : Z;
  dr_title : option chars;
  dr_summary : option chars;
  dr_summary_enc : option bytes;
  dr_user_note : option chars;
  dr_user_note_enc : option bytes;
  dr_kind : string;
  dr_meta : json;
  dr_page_count : Z;
  dr_local_only : bool;
  dr_status : string;
  dr_created_at : Z;
  dr_sync : SourceSync;
}.

Record FileRow := mkFileRow {
  f_tenant : Z;
  f_document : Z;
  f_page_no : Z;
  f_page_label : option chars;
  f_sha256 : bytes;
  f_blob_key : chars;
  f_path : option chars;
  f_mime : option chars;
  f_size_bytes : option Z;
  f_meta : json;
  f_status : string;
  f_ingested_at : Z;
  f_superseded_at : option Z;
}.

Record ChunkRec := mkChunkRec {
  c_tenant : Z;
  c_document : Z;
  c_file : Z;
  c_page_no : option Z;
  c_idx : Z;
  c_content : chars;
  c_content_enc : option bytes;
  c_ts_offset : option f64;
  c_embedding : list f32;
  c_superseded_at : option Z;
}.

Record TagRow := mkTagRow {
  t_tenant : Z;
  t_name : chars;
  t_embedding : option (list f32);
}.

Record DocTag := mkDocTag { dt_source : TagSource; dt_locked : bool }.

Record Seqs := mkSeqs { sq_documents : Z; sq_files : Z; sq_chunks : Z; sq_tags : Z }.

Record Db := mkDb {
  tenants : gset Z;
  documents : gmap Z DocumentRow;
  files : gmap Z FileRow;
  chunks : gmap Z ChunkRec;
  tags : gmap Z TagRow;
  aliases : gmap (Z * chars) Z;
  doc_tags : gmap (Z * Z) DocTag;
  data_keys : gmap Z DataKey;
  decrypt_audit : list (Z * bytes * bool);
  seqs : Seqs;
}.

Definition with_documents (f : gmap Z DocumentRow -> gmap Z DocumentRow) (db : Db) : Db :=
  mkDb (tenants db) (f (documents db)) (files db) (chunks db) (tags db) (aliases db) (doc_tags db)
    (data_keys db) (decrypt_audit db) (seqs db).
Definition with_files (f : gmap Z FileRow -> gmap Z FileRow) (db : Db) : Db :=
  mkDb (tenants db) (documents db) (f (files db)) (chunks db) (tags db) (aliases db) (doc_tags db)
    (data_keys db) (decrypt_audit db) (seqs db).
Definition with_chunks (f : gmap Z ChunkRec -> gmap Z ChunkRec) (db : Db) : Db :=
  mkDb (tenants db) (documents db) (files db) (f (chunks db)) (tags db) (aliases db) (doc_tags db)
    (data_keys db) (decrypt_audit db) (seqs db).
Definition with_tags (f : gmap Z TagRow -> gmap Z TagRow) (db : Db) : Db :=
  mkDb (tenants db) (documents db) (files db) (chunks db) (f (tags db)) (aliases db) (doc_tags db)
    (data_keys db) (decrypt_audit db) (seqs db).
Definition with_aliases (f : gmap (Z * chars) Z -> gmap (Z * chars) Z) (db : Db) : Db :=
  mkDb (tenants db) (documents db) (files db) (chunks db) (tags db) (f (aliases db)) (doc_tags db)
    (data_keys db) (decrypt_audit db) (seqs db).
Definition with_doc_tags (f : gmap (Z * Z) DocTag -> gmap (Z * Z) DocTag) (db : Db) : Db :=
  mkDb (tenants db) (documents db) (files db) (chunks db) (tags db) (aliases db) (f (doc_tags db))
    (data_keys db) (decrypt_audit db) (seqs db).
Definition with_data_keys (f : gmap Z DataKey -> gmap Z DataKey) (db : Db) : Db :=
  mkDb (tenants db) (documents db) (files db) (chunks db) (tags db) (aliases db) (doc_tags db)
    (f (data_keys db)) (decrypt_audit db) (seqs db).
Definition with_audit (f : list (Z * bytes * bool) -> list (Z * bytes * bool)) (db : Db) : Db :=
  mkDb (tenants db) (documents db) (files db) (chunks db) (tags db) (aliases db) (doc_tags db)
    (data_keys db) (f (decrypt_audit db)) (seqs db).
Definition with_seqs (f : Seqs -> Seqs) (db : Db) : Db :=
  mkDb (tenants db) (documents db) (files db) (chunks db) (tags db) (aliases db) (doc_tags db)
    (data_keys db) (decrypt_audit db) (f (seqs db)).

(** ** Errors and statements *)

Inductive DbError :=
| NotConnected
| NoKek
| KeyError (e : BlobError)
| RowNotFound
| RlsViolation
| FkViolation
| CheckViolation
| UniqueViolation
| RowTwice
| BadVector
| EmptyValues
| LengthMismatch
| BadEnum (e : CoreError)
| BadHash
| TagsUnavailable
| BadArgument.

(** The store: its database, the configured key-encryption key and the random
    source.  [st_connected] is false before [connect]. *)
Record Store := mkStore {
  st_connected : bool;
  st_db : Db;
  st_kek : option KeyEncryptionKey;
  st_entropy : entropy;
}.

Definition set_db (s : Store) (db : Db) : Store :=
  mkStore (st_connected s) db (st_kek s) (st_entropy s).
Definition set_entropy (s : Store) (e : entropy) : Store :=
  mkStore (st_connected s) (st_db s) (st_kek s) e.

Definition dbm (A : Type) : Type := Store -> result A DbError * Store.

#[global] Instance dbm_ret : MRet dbm := λ A a s, (Ok a, s).
#[global] Instance dbm_bind : MBind dbm := λ A B k m s,
  match m s with
  | (Ok a, s') => k a s'
  | (Err e, s') => (Err e, s')
  end.

Definition throw {A} (e : DbError) : dbm A := λ s, (Err e, s).
Definition of_res {A} (r : result A DbError) : dbm A := λ s, (r, s).
Definition asks {A} (f : Store -> A) : dbm A := λ s, (Ok (f s), s).
Definition guard_ok (b : bool) (e : DbError) : dbm unit := if b then mret tt else throw e.

(** The result of a call as a value ([.ok()], [match .. { Err(e) => .. }]). *)
Definition tried {A} (m : dbm A) : dbm (result A DbError) := λ s, let '(r, s') := m s in (Ok r, s').

(** One SQL statement: a total change of the tables, or an error. *)
Definition stmt {A} (f : Db -> result (A * Db) DbError) : dbm A := λ s,
  match f (st_db s) with
  | Ok (a, db) => (Ok a, set_db s db)
  | Err e => (Err e, s)
  end.

(** [nextval]: taken even when the statement or the transaction fails. *)
Definition nextval (get : Seqs -> Z) (bump : Seqs -> Seqs) : dbm Z := λ s,
  (Ok (get (seqs (st_db s))), set_db s (with_seqs bump (st_db s))).

Definition next_document : dbm Z :=
  nextval sq_documents (λ q, mkSeqs (sq_documents q + 1) (sq_files q) (sq_chunks q) (sq_tags q)).
Definition next_file : dbm Z :=
  nextval sq_files (λ q, mkSeqs (sq_documents q) (sq_files q + 1) (sq_chunks q) (sq_tags q)).
Definition next_chunk : dbm Z :=
  nextval sq_chunks (λ q, mkSeqs (sq_documents q) (sq_files q) (sq_chunks q + 1) (sq_tags q)).
Definition next_tag : dbm Z :=
  nextval sq_tags (λ q, mkSeqs (sq_documents q) (sq_files q) (sq_chunks q) (sq_tags q + 1)).

(** A transaction: an error restores the tables, not the sequences. *)
Definition rollback (before after : Db) : Db := with_seqs (λ _, seqs after) before.

Definition tx {A} (body : dbm A) : dbm A := λ s,
  if negb (st_connected s) then (Err NotConnected, s)
  else match body s with
       | (Ok a, s') => (Ok a, s')
       | (Err e, s') => (Err e, set_db s' (rollback (st_db s) (st_db s')))
       end.

(** A program of the key functions, on the store's random source. *)
Definition keyed {A} (m : prog entropy A) : dbm A := λ s,
  match m (st_entropy s) with
  | (Ok a, e) => (Ok a, set_entropy s e)
  | (Err err, e) => (Err (KeyError err), set_entropy s e)
  end.

(** ** Queries over a table *)

Definition rows_where {R} (P : Z -> R -> bool) (m : gmap Z R) : list (Z * R) :=
  map_to_list (filter (λ kr, P kr.1 kr.2 = true) m).
(** [UPDATE .. SET .. WHERE]. *)
Definition update_where {R} (P : Z -> R -> bool) (f : R -> R) (m : gmap Z R) : gmap Z R :=
  map_imap (λ k r, Some (if P k r then f r else r)) m.
(** [DELETE .. WHERE]. *)
Definition delete_where {R} (P : Z -> R -> bool) (m : gmap Z R) : gmap Z R :=
  filter (λ kr, P kr.1 kr.2 = false) m.

Lemma rows_where_elem {R} (P : Z -> R -> bool) m k r :
  (k, r) ∈ rows_where P m <-> m !! k = Some r ∧ P k r = true.
Proof. unfold rows_where. by rewrite elem_of_map_to_list, map_lookup_filter_Some. Qed.

Lemma rows_where_NoDup {R} (P : Z -> R -> bool) m : NoDup (rows_where P m).*1.
Proof. apply NoDup_fst_map_to_list. Qed.

Lemma lookup_update_where {R} (P : Z -> R -> bool) f m k :
  update_where P f m !! k = (λ r, if P k r then f r else r) <$> m !! k.
Proof. unfold update_where. rewrite map_lookup_imap. by destruct (m !! k). Qed.

Lemma lookup_delete_where {R} (P : Z -> R -> bool) (m : gmap Z R) k r :
  delete_where P m !! k = Some r <-> m !! k = Some r ∧ P k r = false.
Proof. unfold delete_where. by rewrite map_lookup_filter_Some. Qed.

(** ** Constraints *)

(** Row-level security: [tenant_id = app.current_tenant], as with an app role of
    its own; with a single role only the statements' own tenant filters hold. *)
Definition rls (t row_tenant : Z) : bool := row_tenant =? t.

(** The policy of [document_tags] goes through the document. *)
Definition doc_visible (db : Db) (t d : Z) : bool :=
  match documents db !! d with Some r => rls t (dr_tenant r) | None => false end.

(** [documents.kind] CHECK. *)
Definition kind_check (k : string) : bool :=
  bool_decide (k ∈ ["document"; "image"; "audio"; "video"; "identity_document"; "code"; "archive";
    "binary"]).

(** [embedding VECTOR(2560)]: the dimension, and pgvector's refusal of NaN
    and infinities. *)
Definition VECTOR_DIM : nat := 2560.
Definition finite_float (x : f32) : bool :=
  match x with SpecFloat.S754_nan | SpecFloat.S754_infinity _ => false | _ => true end.
Definition vector_ok (e : list f32) : bool :=
  (length e =? VECTOR_DIM)%nat && forallb finite_float e.

Definition live_file (r : FileRow) : bool := bool_decide (f_superseded_at r = None).
Definition live_chunk (c : ChunkRec) : bool := bool_decide (c_superseded_at c = None).

(** ** Running programs *)

Lemma dbind_ok {A B} (m : dbm A) (k : A -> dbm B) s b s' :
  (m ≫= k) s = (Ok b, s') <-> ∃ a s1, m s = (Ok a, s1) ∧ k a s1 = (Ok b, s').
Proof.
  unfold mbind, dbm_bind. destruct (m s) as [[a|e] s1]; split; intros; naive_solver.
Qed.

Lemma guard_bind_ok {B} b e (m : dbm B) s r s' :
  (guard_ok b e ≫= λ _, m) s = (Ok r, s') <-> b = true ∧ m s = (Ok r, s').
Proof. destruct b; unfold guard_ok, mbind, dbm_bind; simpl; naive_solver. Qed.

Lemma stmt_ok {A} (f : Db -> result (A * Db) DbError) s a s' :
  stmt f s = (Ok a, s') <-> ∃ db, f (st_db s) = Ok (a, db) ∧ s' = set_db s db.
Proof. unfold stmt. destruct (f (st_db s)) as [[? ?]|?]; naive_solver. Qed.

Lemma tx_ok {A} (body : dbm A) s a s' :
  tx body s = (Ok a, s') <-> st_connected s = true ∧ body s = (Ok a, s').
Proof.
  unfold tx. destruct (st_connected s); simpl; [|naive_solver].
  destruct (body s) as [[?|?] ?]; naive_solver.
Qed.

(** A failed transaction leaves every table as it was. *)
Lemma tx_err {A} (body : dbm A) s e s' :
  tx body s = (Err e, s') ->
  documents (st_db s') = documents (st_db s) ∧ files (st_db s') = files (st_db s) ∧
  chunks (st_db s') = chunks (st_db s) ∧ tags (st_db s') = tags (st_db s) ∧
  aliases (st_db s') = aliases (st_db s) ∧ doc_tags (st_db s') = doc_tags (st_db s) ∧
  data_keys (st_db s') = data_keys (st_db s) ∧ tenants (st_db s') = tenants (st_db s).
Proof.
  unfold tx. destruct (st_connected s); simpl; [|by intros; simplify_eq].
  destruct (body s) as [[?|?] ?]; intros; simplify_eq. done.
Qed.

Lemma keyed_ok {A} (m : prog entropy A) s a s' :
  keyed m s = (Ok a, s') <-> ∃ e, m (st_entropy s) = (Ok a, e) ∧ s' = set_entropy s e.
Proof. unfold keyed. destruct (m (st_entropy s)) as [[?|?] ?]; naive_solver. Qed.
