(* ===== verification/PgStore.v ===== *)
(** * The document store (store/src/pg_store.rs)

    Documents, files, chunks and tags of a tenant: the upserts, the atomic
    ingest, the tag operations and the queries, one function per method, over
    the tables of [Schema].  A method of the application role runs in a
    transaction whose row-level security is its tenant; the key of a tenant is
    fetched or created by statements of the administrator role before it. *)

From stdpp Require Import base gmap list strings.
From Stdlib Require Import ZArith Lia Strings.Byte.
From S2P Require Import Prelude StableSort FloatModel Text Json Role Blob Envelope ColumnCrypt Schema.
Open Scope Z_scope.

(** The one behaviour of the query builder the code depends on and does not
    control: whether an INSERT whose [push_values] got no rows is accepted. *)
Class QueryBuilder := { empty_values_ok : bool }.

Section store.
Context `{Aead} `{QueryBuilder}.

(** ** Tenant keys *)

Definition admin_pool : dbm unit := λ s,
  if st_connected s then (Ok tt, s) else (Err NotConnected, s).

Definition insert_decrypt_audit_event (t : Z) (key_id : bytes) (success : bool) : dbm unit :=
  admin_pool;; stmt (λ db, Ok (tt, with_audit (λ l, l ++ [(t, key_id, success)]) db)).

(** [kek.unwrap], the audit row, and the length check. *)
Definition unwrap_tenant_dek (kek : KeyEncryptionKey) (t : Z) (dk : DataKey) : dbm bytes :=
  let r := kek_unwrap kek (wrapped_dek dk) in
  insert_decrypt_audit_event t (dk_id dk) (is_ok r);;
  match r with
  | Err e => throw (KeyError e)
  | Ok raw => if negb (length raw =? 32)%nat then throw (KeyError (BadDekSize (length raw))) else mret raw
  end.

Definition get_or_create_tenant_dek (t : Z) : dbm bytes :=
  okek ← asks st_kek;
  match okek with
  | None => throw NoKek
  | Some kek =>
      admin_pool;;
      existing ← asks (λ s, data_keys (st_db s) !! t);
      match existing with
      | Some dk => unwrap_tenant_dek kek t dk
      | None =>
          dk ← keyed (generate kek (str "db-column-dek:v1"));
          stmt (λ db,
            if decide (t ∈ tenants db) then Ok (tt, with_data_keys <[t := dk]> db)
            else Err FkViolation);;
          unwrap_tenant_dek kek t dk
      end
  end.

(** The key for a write, when encryption is configured. *)
Definition write_dek (t : Z) : dbm (option bytes) :=
  okek ← asks st_kek;
  match okek with
  | None => mret None
  | Some _ => dek ← get_or_create_tenant_dek t; mret (Some dek)
  end.

(** [dek.map(|d| encrypt_column(d, s)).transpose()]. *)
Definition encrypt_with (dek : option bytes) (s : chars) : dbm (option bytes) :=
  match dek with
  | None => mret None
  | Some d => c ← keyed (encrypt_column d s); mret (Some c)
  end.

Definition encrypt_field (dek : option bytes) (s : option chars) : dbm (option bytes) :=
  match s with None => mret None | Some s => encrypt_with dek s end.

(** ** Documents *)

(** [INSERT INTO documents .. RETURNING id]. *)
Definition insert_document (t now : Z) (doc : Document) (status : string) (se ue : option bytes)
    : dbm Z :=
  id ← next_document;
  stmt (λ db,
    if negb (rls t (doc_tenant doc)) then Err RlsViolation
    else if negb (kind_check (as_str (doc_kind doc))) then Err CheckViolation
    else if decide (doc_tenant doc ∈ tenants db) then
      Ok (id, with_documents <[id := mkDocumentRow (doc_tenant doc) (doc_title doc) (doc_summary doc)
        se (doc_user_note doc) ue (as_str (doc_kind doc)) (doc_meta doc) (doc_page_count doc) false
        status now (mkSync None None None None None 1 0)]> db)
    else Err FkViolation).

(** [UPDATE documents SET .. WHERE id = .. RETURNING id]. *)
Definition update_document (t : Z) (id : Z) (doc : Document) (status : string)
    (se ue : option bytes) : dbm Z :=
  stmt (λ db,
    match documents db !! id with
    | None => Err RowNotFound
    | Some r =>
        if negb (rls t (dr_tenant r)) then Err RowNotFound
        else if negb (rls t (doc_tenant doc)) then Err RlsViolation
        else if negb (kind_check (as_str (doc_kind doc))) then Err CheckViolation
        else
          Ok (id, with_documents <[id := mkDocumentRow (doc_tenant doc) (doc_title doc)
            (doc_summary doc) se (doc_user_note doc) ue (as_str (doc_kind doc)) (doc_meta doc)
            (doc_page_count doc) (dr_local_only r) status (dr_created_at r) (dr_sync r)]> db)
    end).

Definition upsert_document (now : Z) (doc : Document) : dbm Z :=
  dek ← write_dek (doc_tenant doc);
  se ← encrypt_field dek (doc_summary doc);
  ue ← encrypt_field dek (doc_user_note doc);
  tx (if doc_id doc >? 0
      then update_document (doc_tenant doc) (doc_id doc) doc (as_str (doc_status doc)) se ue
      else insert_document (doc_tenant doc) now doc (as_str (doc_status doc)) se ue).

(** ** Files *)

(** The unique index on [(tenant_id, sha256, document_id)]. *)
Definition file_key (r : FileRow) : Z * bytes * Z := (f_tenant r, f_sha256 r, f_document r).
Definition find_file (db : Db) (k : Z * bytes * Z) : option Z :=
  fst <$> head (rows_where (λ _ r, bool_decide (file_key r = k)) (files db)).

Definition file_row (doc : Z) (rec : FileRecord) : FileRow :=
  mkFileRow (fr_tenant rec) doc (fr_page_no rec) (fr_page_label rec) (fr_sha256 rec)
    (fr_blob_key rec) (fr_path rec) (fr_mime rec) (fr_size_bytes rec) (fr_meta rec)
    (as_str (fr_status rec)) (fr_ingested_at rec) None.

(** [INSERT INTO files .. ON CONFLICT .. DO UPDATE .. RETURNING id]: the row
    of the key is replaced, and is live again. *)
Definition upsert_file_row (t doc : Z) (rec : FileRecord) : dbm Z :=
  id ← next_file;
  stmt (λ db,
    let row := file_row doc rec in
    if negb (rls t (fr_tenant rec)) then Err RlsViolation
    else match find_file db (file_key row) with
         | Some fid => Ok (fid, with_files <[fid := row]> db)
         | None =>
             if decide (fr_tenant rec ∈ tenants db ∧ is_Some (documents db !! doc))
             then Ok (id, with_files <[id := row]> db)
             else Err FkViolation
         end).

Definition upsert_file (rec : FileRecord) : dbm Z :=
  tx (upsert_file_row (fr_tenant rec) (fr_document rec) rec).

Fixpoint upsert_files (t doc : Z) (recs : list FileRecord) : dbm (list Z) :=
  match recs with
  | [] => mret []
  | rec :: recs' =>
      fid ← upsert_file_row t doc rec;
      fids ← upsert_files t doc recs';
      mret (fid :: fids)
  end.

Definition update_file_page_order (t fid page_no : Z) : dbm Z :=
  tx (stmt (λ db,
    let hit := λ k r, (k =? fid) && rls t (f_tenant r) in
    Ok (Z.of_nat (length (rows_where hit (files db))),
        with_files (update_where hit (λ r, mkFileRow (f_tenant r) (f_document r) page_no
          (f_page_label r) (f_sha256 r) (f_blob_key r) (f_path r) (f_mime r) (f_size_bytes r)
          (f_meta r) (f_status r) (f_ingested_at r) (f_superseded_at r))) db))).

(** ** Chunks *)

(** [DELETE FROM chunks WHERE file_id = .. AND superseded_at IS NULL]. *)
Definition delete_live_chunks (t fid : Z) : dbm unit :=
  stmt (λ db, Ok (tt, with_chunks
    (delete_where (λ _ c, rls t (c_tenant c) && (c_file c =? fid) && live_chunk c)) db)).

Definition chunk_row (doc fid : Z) (c : Chunk) (enc : option bytes) : ChunkRec :=
  mkChunkRec (ch_tenant c) doc fid (ch_page_no c) (ch_idx c) (ch_content c) enc (ch_ts_offset c)
    (ch_embedding c) None.

Fixpoint encrypt_chunks (dek : option bytes) (cs : list Chunk) : dbm (list (Chunk * option bytes)) :=
  match cs with
  | [] => mret []
  | c :: cs' =>
      enc ← encrypt_with dek (ch_content c);
      rest ← encrypt_chunks dek cs';
      mret ((c, enc) :: rest)
  end.

(** One row of the batch INSERT. *)
Definition insert_chunk (t doc fid : Z) (c : Chunk) (enc : option bytes) : dbm unit :=
  id ← next_chunk;
  stmt (λ db,
    if negb (vector_ok (ch_embedding c)) then Err BadVector
    else if negb (rls t (ch_tenant c)) then Err RlsViolation
    else if decide (ch_tenant c ∈ tenants db ∧ is_Some (documents db !! doc) ∧
                    is_Some (files db !! fid))
    then Ok (tt, with_chunks <[id := chunk_row doc fid c enc]> db)
    else Err FkViolation).

Fixpoint insert_chunks (t : Z) (doc_of : Chunk -> Z) (fid : Z) (cs : list (Chunk * option bytes))
    : dbm unit :=
  match cs with
  | [] => mret tt
  | (c, enc) :: cs' => insert_chunk t (doc_of c) fid c enc;; insert_chunks t doc_of fid cs'
  end.

Definition replace_chunks (t : Z) (doc_of : Chunk -> Z) (fid : Z) (dek : option bytes)
    (cs : list Chunk) : dbm unit :=
  delete_live_chunks t fid;;
  rows ← encrypt_chunks dek cs;
  insert_chunks t doc_of fid rows.

Definition upsert_chunks (fid : Z) (cs : list Chunk) : dbm unit :=
  t ← match cs with
      | c :: _ => mret (ch_tenant c)
      | [] =>
          admin_pool;;
          s ← asks (λ s, f_tenant <$> files (st_db s) !! fid);
          of_res (ok_or s RowNotFound)
      end;
  dek ← write_dek t;
  tx (replace_chunks t ch_document fid dek cs).

(** ** Tags *)

Definition find_tag (db : Db) (t : Z) (name : chars) : option Z :=
  fst <$> head (rows_where (λ _ r, rls t (t_tenant r) && bool_decide (t_name r = name)) (tags db)).

(** An existing tag keeps its embedding. *)
Definition upsert_tag (t : Z) (name : chars) (embedding : list f32) : dbm Z :=
  tx (id ← next_tag;
      stmt (λ db,
        if negb (vector_ok embedding) then Err BadVector
        else match find_tag db t name with
             | Some tid => Ok (tid, db)
             | None =>
                 if decide (t ∈ tenants db)
                 then Ok (id, with_tags <[id := mkTagRow t name (Some embedding)]> db)
                 else Err FkViolation
             end)).

Definition lookup_alias (t : Z) (alias : chars) : dbm (option Z) :=
  tx (asks (λ s, aliases (st_db s) !! (t, alias))).

(** Every tag of the tenant that has an embedding. *)
Definition find_similar_tags (t : Z) : dbm (list (Z * list f32)) :=
  tx (asks (λ s, omap (λ kr, pair kr.1 <$> t_embedding kr.2)
    (rows_where (λ _ r, rls t (t_tenant r)) (tags (st_db s))))).

Definition insert_tag_alias (t : Z) (alias : chars) (tag : Z) : dbm unit :=
  tx (stmt (λ db,
    match aliases db !! (t, alias) with
    | Some _ => Ok (tt, db)
    | None =>
        if decide (t ∈ tenants db ∧ is_Some (tags db !! tag))
        then Ok (tt, with_aliases <[(t, alias) := tag]> db)
        else Err FkViolation
    end)).

Definition insert_document_tags (t doc : Z) (tag_ids : list Z) (source : TagSource) : dbm unit :=
  match tag_ids with
  | [] => mret tt
  | _ =>
      let locked := bool_decide (source = TsUser) in
      tx (stmt (λ db,
        if negb (doc_visible db t doc) then Err RlsViolation
        else if negb (forallb (λ tag, bool_decide (is_Some (tags db !! tag))) tag_ids) then Err FkViolation
        else if negb (bool_decide (NoDup tag_ids)) then Err RowTwice
        else Ok (tt, with_doc_tags (λ m,
               foldr (λ tag m, <[(doc, tag) := mkDocTag source locked]> m) m tag_ids) db)))
  end.

(** The rows of [document_tags] a statement of tenant [t] on [doc] sees. *)
Definition own_doc_tag (db : Db) (t doc : Z) (k : Z * Z) : bool :=
  (k.1 =? doc) && doc_visible db t k.1.

Definition unlocked_llm (dt : DocTag) : bool :=
  bool_decide (dt_source dt = TsLlm) && negb (dt_locked dt).

Definition clear_llm (t doc : Z) (db : Db) : result (Z * Db) DbError :=
  let keep := λ kd : (Z * Z) * DocTag, negb (own_doc_tag db t doc kd.1 && unlocked_llm kd.2) in
  let m := filter (λ kd, keep kd = true) (doc_tags db) in
  Ok (Z.of_nat (size (doc_tags db) - size m)%nat, with_doc_tags (λ _, m) db).

Definition clear_llm_document_tags (t doc : Z) : dbm Z := tx (stmt (clear_llm t doc)).

Definition get_locked_document_tags (t doc : Z) : dbm (list Z) :=
  tx (asks (λ s, (λ kd : (Z * Z) * DocTag, kd.1.2) <$>
    map_to_list (filter (λ kd : (Z * Z) * DocTag,
      own_doc_tag (st_db s) t doc kd.1 && dt_locked kd.2 = true) (doc_tags (st_db s))))).

Definition set_document_tag_locked (t doc tag : Z) (locked : bool) : dbm Z :=
  tx (stmt (λ db,
    match doc_tags db !! (doc, tag) with
    | Some dt =>
        if doc_visible db t doc
        then Ok (1, with_doc_tags <[(doc, tag) := mkDocTag (dt_source dt) locked]> db)
        else Ok (0, db)
    | None => Ok (0, db)
    end)).

Definition remove_document_tag (t doc tag : Z) : dbm Z :=
  tx (stmt (λ db,
    match doc_tags db !! (doc, tag) with
    | Some _ =>
        if doc_visible db t doc then Ok (1, with_doc_tags (delete (doc, tag)) db) else Ok (0, db)
    | None => Ok (0, db)
    end)).

(** ** The atomic ingest *)

(** [ingest_advisory_key]: the tenant rotated by 32 bits, xor the first eight
    bytes of every hash, little-endian. *)
Definition rotate_left_32 (x : Z) : Z :=
  let u := x mod 2 ^ 64 in
  wrap i64 (Z.lor ((Z.shiftl u 32) mod 2 ^ 64) (Z.shiftr u 32)).
Definition le_head (sha : bytes) : Z :=
  wrap i64 (foldr (λ b acc, byte_val b + 256 * acc) 0 (resize 8 x00 (take 8 sha))).
Definition ingest_advisory_key (t : Z) (shas : list bytes) : Z :=
  foldl (λ acc sha, Z.lxor acc (le_head sha)) (rotate_left_32 t) shas.

(** The lookup of an identical upload: documents whose files, joined with the
    incoming ones on hash and path, give as many pairs as the upload has
    files, and which have that many live files. *)
Definition join_count (db : Db) (t d : Z) (recs : list FileRecord) : nat :=
  length (rec ← recs;
    rows_where (λ _ r, rls t (f_tenant r) && (f_document r =? d)
      && bool_decide (f_sha256 r = fr_sha256 rec) && bool_decide (f_path r = fr_path rec)) (files db)).
Definition live_count (db : Db) (t d : Z) : nat :=
  length (rows_where (λ _ r, rls t (f_tenant r) && (f_document r =? d) && live_file r) (files db)).
Definition same_upload (db : Db) (t : Z) (recs : list FileRecord) (d : Z) : bool :=
  (join_count db t d recs =? length recs)%nat && (live_count db t d =? length recs)%nat.

(** [ORDER BY document_id LIMIT 1] over the grouped documents; a group has at
    least one row. *)
Definition file_documents (db : Db) (t : Z) : list Z :=
  sort_by_key id (remove_dups (f_document <$> (rows_where (λ _ r, rls t (f_tenant r)) (files db)).*2)).
Definition find_upload (db : Db) (t : Z) (recs : list FileRecord) : option Z :=
  head (filter (λ d, same_upload db t recs d && negb (join_count db t d recs =? 0)%nat = true)
    (file_documents db t)).

(** [INSERT INTO document_tags .. ON CONFLICT DO NOTHING]. *)
Definition insert_llm_tags (t doc : Z) (tag_ids : list Z) : dbm unit :=
  match tag_ids with
  | [] => if empty_values_ok then mret tt else throw EmptyValues
  | _ =>
      stmt (λ db,
        if negb (doc_visible db t doc) then Err RlsViolation
        else if negb (forallb (λ tag, bool_decide (is_Some (tags db !! tag))) tag_ids) then Err FkViolation
        else Ok (tt, with_doc_tags (λ m, foldl (λ m tag,
               if decide (is_Some (m !! (doc, tag))) then m
               else <[(doc, tag) := mkDocTag TsLlm false]> m) m tag_ids) db))
  end.

Fixpoint replace_all_chunks (t doc : Z) (dek : option bytes) (fs : list (Z * list Chunk)) : dbm unit :=
  match fs with
  | [] => mret tt
  | (fid, cs) :: fs' =>
      replace_chunks t (λ _, doc) fid dek cs;;
      replace_all_chunks t doc dek fs'
  end.

(** Tombstone what the upload no longer contains. *)
Definition supersede_files (t now doc : Z) (keep : list Z) : dbm unit :=
  stmt (λ db, Ok (tt, with_files (update_where
    (λ k r, rls t (f_tenant r) && (f_document r =? doc) && negb (bool_decide (k ∈ keep)) && live_file r)
    (λ r, mkFileRow (f_tenant r) (f_document r) (f_page_no r) (f_page_label r) (f_sha256 r)
       (f_blob_key r) (f_path r) (f_mime r) (f_size_bytes r) (f_meta r) (f_status r)
       (f_ingested_at r) (Some now))) db)).
Definition supersede_chunks (t now doc : Z) (keep : list Z) : dbm unit :=
  stmt (λ db, Ok (tt, with_chunks (update_where
    (λ _ c, rls t (c_tenant c) && (c_document c =? doc) && negb (bool_decide (c_file c ∈ keep))
       && live_chunk c)
    (λ c, mkChunkRec (c_tenant c) (c_document c) (c_file c) (c_page_no c) (c_idx c) (c_content c)
       (c_content_enc c) (c_ts_offset c) (c_embedding c) (Some now))) db)).

(** The target of the ingest: the caller's document, an identical upload, or
    none ([0]). *)
Definition target_document (db : Db) (doc : Document) (recs : list FileRecord) : Z :=
  if doc_id doc >? 0 then doc_id doc
  else match recs with
       | [] => 0
       | _ => default 0 (find_upload db (doc_tenant doc) recs)
       end.

Definition ingest_body (now : Z) (doc : Document) (recs : list FileRecord) (tag_ids : list Z)
    (file_chunks : list (list Chunk)) (dek se ue : option bytes) : dbm Z :=
  let t := doc_tenant doc in
  target ← asks (λ s, target_document (st_db s) doc recs);
  did ← (if target >? 0 then update_document t target doc (as_str Ready) se ue
         else insert_document t now doc (as_str Ready) se ue);
  fids ← upsert_files t did recs;
  stmt (clear_llm t did);;
  insert_llm_tags t did tag_ids;;
  replace_all_chunks t did dek (zip fids file_chunks);;
  supersede_files t now did fids;;
  supersede_chunks t now did fids;;
  mret did.

Definition transactional_ingest (now : Z) (doc : Document) (recs : list FileRecord)
    (tag_ids : list Z) (file_chunks : list (list Chunk)) : dbm Z :=
  guard_ok (length recs =? length file_chunks)%nat LengthMismatch;;
  dek ← write_dek (doc_tenant doc);
  se ← encrypt_field dek (doc_summary doc);
  ue ← encrypt_field dek (doc_user_note doc);
  tx (ingest_body now doc recs tag_ids file_chunks dek se ue).

(** ** Reading documents *)

(** [from_str(..).with_context(..)?]. *)
Definition parse_enum {T} `{StrEnum T} (s : string) : result T DbError :=
  match from_str s with Ok v => Ok v | Err e => Err (BadEnum e) end.

Definition document_from_row (id : Z) (r : DocumentRow) : result Document DbError :=
  let? kind := parse_enum (dr_kind r) in
  let? status := parse_enum (dr_status r) in
  Ok (mkDocument id (dr_tenant r) (dr_title r) (dr_summary r) (dr_user_note r) kind (dr_meta r)
    (dr_page_count r) status (dr_created_at r) (dr_local_only r) (dr_sync r)).

Definition file_from_row (id : Z) (r : FileRow) : result FileRecord DbError :=
  if negb (length (f_sha256 r) =? 32)%nat then Err BadHash
  else
    let? status := parse_enum (f_status r) in
    Ok (mkFileRecord id (f_tenant r) (f_document r) (f_page_no r) (f_page_label r) (f_sha256 r)
      (f_blob_key r) (f_path r) (f_mime r) (f_size_bytes r) (f_meta r) status (f_ingested_at r)).

(** [.map(f).collect::<Result<Vec<_>>>()]. *)
Fixpoint collect {A B} (f : A -> result B DbError) (l : list A) : result (list B) DbError :=
  match l with
  | [] => Ok []
  | a :: l' => let? b := f a in let? bs := collect f l' in Ok (b :: bs)
  end.

(** The plaintext column, replaced by the opened ciphertext when it opens. *)
Definition open_column (dek : bytes) (enc : option bytes) (plain : option chars) : option chars :=
  match enc with
  | None => plain
  | Some c => match decrypt_column dek c with Ok s => Some s | Err _ => plain end
  end.

Definition open_row (dek : bytes) (r : DocumentRow) : DocumentRow :=
  mkDocumentRow (dr_tenant r) (dr_title r) (open_column dek (dr_summary_enc r) (dr_summary r))
    (dr_summary_enc r) (open_column dek (dr_user_note_enc r) (dr_user_note r)) (dr_user_note_enc r)
    (dr_kind r) (dr_meta r) (dr_page_count r) (dr_local_only r) (dr_status r) (dr_created_at r)
    (dr_sync r).

Definition has_enc (r : DocumentRow) : bool :=
  negb (bool_decide (dr_summary_enc r = None)) || negb (bool_decide (dr_user_note_enc r = None)).

Definition decrypt_document_rows (t : Z) (rows : list (Z * DocumentRow)) : dbm (list (Z * DocumentRow)) :=
  okek ← asks st_kek;
  if bool_decide (okek = None) || negb (existsb (λ kr, has_enc kr.2) rows) then mret rows
  else dek ← get_or_create_tenant_dek t;
       mret ((λ kr, (kr.1, open_row dek kr.2)) <$> rows).

(** The single-row version makes the same tests and the same replacements. *)
Definition decrypt_document_row (t : Z) (r : DocumentRow) : dbm DocumentRow :=
  okek ← asks st_kek;
  if bool_decide (okek = None) then mret r
  else if negb (has_enc r) then mret r
  else dek ← get_or_create_tenant_dek t; mret (open_row dek r).

Definition decrypt_chunk_content (t : Z) (content_enc : option bytes) (plaintext : chars) : dbm chars :=
  match content_enc with
  | None => mret plaintext
  | Some enc =>
      okek ← asks st_kek;
      match okek with
      | None => mret plaintext
      | Some _ =>
          r ← tried (get_or_create_tenant_dek t);
          match r with
          | Err _ => mret plaintext
          | Ok dek =>
              mret (match decrypt_column dek enc with Ok p => p | Err _ => plaintext end)
          end
      end
  end.

Definition list_documents (t : Z) : dbm (list Document) :=
  rows ← tx (asks (λ s, sort_by_key fst (rows_where (λ _ r, rls t (dr_tenant r)) (documents (st_db s)))));
  rows ← decrypt_document_rows t rows;
  of_res (collect (λ kr, document_from_row kr.1 kr.2) rows).

Definition list_files (t : Z) : dbm (list FileRecord) :=
  rows ← tx (asks (λ s, sort_by_key2 (λ kr : Z * FileRow, f_document kr.2) (λ kr, f_page_no kr.2)
    (rows_where (λ _ r, rls t (f_tenant r)) (files (st_db s)))));
  of_res (collect (λ kr, file_from_row kr.1 kr.2) rows).

Definition get_document (t id : Z) : dbm (option Document) :=
  row ← tx (asks (λ s, match documents (st_db s) !! id with
    | Some r => if rls t (dr_tenant r) then Some r else None
    | None => None
    end));
  match row with
  | None => mret None
  | Some r => r ← decrypt_document_row t r; d ← of_res (document_from_row id r); mret (Some d)
  end.

(** The live files of a document, by page. *)
Definition live_files (db : Db) (t doc : Z) : list (Z * FileRow) :=
  sort_by_key (λ kr : Z * FileRow, f_page_no kr.2)
    (rows_where (λ _ r, rls t (f_tenant r) && (f_document r =? doc) && live_file r) (files db)).

Definition get_files_for_document (t doc : Z) : dbm (list FileRecord) :=
  rows ← tx (asks (λ s, live_files (st_db s) t doc));
  of_res (collect (λ kr, file_from_row kr.1 kr.2) rows).

Definition get_file (t fid : Z) : dbm (option FileRecord) :=
  row ← tx (asks (λ s, match files (st_db s) !! fid with
    | Some r => if rls t (f_tenant r) then Some r else None
    | None => None
    end));
  match row with
  | None => mret None
  | Some r => f ← of_res (file_from_row fid r); mret (Some f)
  end.

(** The tags joined with the visible links of a document. *)
Definition document_tags (db : Db) (t doc : Z) : list (Z * TagRow) :=
  rows_where (λ k r, rls t (t_tenant r) && doc_visible db t doc
    && bool_decide (is_Some (doc_tags db !! (doc, k)))) (tags db).

(** [ORDER BY t.name]. *)
Definition by_name (l : list (Z * TagRow)) : list (Z * TagRow) :=
  sort_by (λ a b, match chars_cmp (t_name a.2) (t_name b.2) with Gt => false | _ => true end) l.

Definition get_tags_for_document (t doc : Z) : dbm (list (Z * TagRow)) :=
  tx (asks (λ s, by_name (document_tags (st_db s) t doc))).

Definition get_document_detail (t doc : Z)
    : dbm (option (Document * list FileRecord * list (Z * TagRow))) :=
  rows ← tx (asks (λ s,
    (match documents (st_db s) !! doc with
     | Some r => if rls t (dr_tenant r) then Some r else None
     | None => None
     end, live_files (st_db s) t doc, by_name (document_tags (st_db s) t doc))));
  let '(row, frows, trows) := rows in
  match row with
  | None => mret None
  | Some r =>
      r ← decrypt_document_row t r;
      d ← of_res (document_from_row doc r);
      fs ← of_res (collect (λ kr, file_from_row kr.1 kr.2) frows);
      mret (Some (d, fs, trows))
  end.

Definition find_tag_by_name (t : Z) (name : chars) : dbm (option Z) :=
  tx (asks (λ s, find_tag (st_db s) t name)).

Definition list_tags (t : Z) : dbm (list (Z * TagRow)) :=
  tx (asks (λ s, sort_by_key fst (rows_where (λ _ r, rls t (t_tenant r)) (tags (st_db s))))).

Definition list_tag_aliases (t : Z) : dbm (list (chars * Z)) :=
  tx (asks (λ s, sort_by (λ a b, match chars_cmp a.1 b.1 with Gt => false | _ => true end)
    ((λ ka : (Z * chars) * Z, (ka.1.2, ka.2)) <$>
      map_to_list (filter (λ ka : (Z * chars) * Z, rls t ka.1.1 = true) (aliases (st_db s)))))).

Definition list_document_tags (t : Z) : dbm (list (Z * Z)) :=
  tx (asks (λ s, sort_by_key2 fst snd
    (map_to_list (filter (λ kd : (Z * Z) * DocTag, doc_visible (st_db s) t kd.1.1 = true)
      (doc_tags (st_db s)))).*1)).

(** A chunk as the export returns it. *)
Definition open_chunk (dek : option bytes) (kc : Z * ChunkRec) : Z * ChunkRec :=
  let c := kc.2 in
  let content := match dek, c_content_enc c with
    | Some d, Some enc => match decrypt_column d enc with Ok p => p | Err _ => c_content c end
    | _, _ => c_content c
    end in
  (kc.1, mkChunkRec (c_tenant c) (c_document c) (c_file c) (c_page_no c) (c_idx c) content
    (c_content_enc c) (c_ts_offset c) (c_embedding c) (c_superseded_at c)).

(** Ordered by document, file and index. *)
Definition chunk_leb (a b : Z * ChunkRec) : bool :=
  (c_document a.2 <? c_document b.2)
  || ((c_document a.2 =? c_document b.2) && leb_by_key2 (λ c, c_file c.2) (λ c, c_idx c.2) a b).

Definition list_chunks (t : Z) : dbm (list (Z * ChunkRec)) :=
  rows ← tx (asks (λ s, sort_by chunk_leb (rows_where (λ _ c, rls t (c_tenant c)) (chunks (st_db s)))));
  okek ← asks st_kek;
  dek ← (if existsb (λ kc : Z * ChunkRec, negb (bool_decide (c_content_enc kc.2 = None))) rows
            && negb (bool_decide (okek = None))
         then d ← get_or_create_tenant_dek t; mret (Some d)
         else mret None);
  mret (open_chunk dek <$> rows).
End store.
