(* ===== verification/StoreInvariant.v ===== *)
(** * Invariants of the document store

    What every history of store calls keeps true of the tables ([db_ok]:
    fresh ids, unique keys, resolved references, readable columns), and that a
    call of one tenant leaves the rows of every other tenant alone ([frame]).
    Both are proved statement by statement for the judgement [safe], which
    composes along the store's programs. *)

From stdpp Require Import base gmap list strings.
From Stdlib Require Import ZArith Lia Strings.Byte.
From S2P Require Import Prelude StableSort FloatModel Text Json Role Blob Envelope ColumnCrypt Schema.
From S2P Require Import PgStore.
Open Scope Z_scope.

(** ** The invariant *)

Definition status_ok (s : string) : Prop := ∃ st : ProcessingStatus, s = as_str st.

Definition document_ok (db : Db) (k : Z) (r : DocumentRow) : Prop :=
  0 < k < sq_documents (seqs db) ∧ dr_tenant r ∈ tenants db ∧ kind_check (dr_kind r) = true ∧
  status_ok (dr_status r).
Definition file_ok (db : Db) (k : Z) (r : FileRow) : Prop :=
  k < sq_files (seqs db) ∧ f_tenant r ∈ tenants db ∧ is_Some (documents db !! f_document r) ∧
  status_ok (f_status r) ∧ length (f_sha256 r) = 32%nat.
Definition chunk_ok (db : Db) (k : Z) (c : ChunkRec) : Prop :=
  k < sq_chunks (seqs db) ∧ c_tenant c ∈ tenants db ∧ is_Some (documents db !! c_document c) ∧
  is_Some (files db !! c_file c) ∧ vector_ok (c_embedding c) = true.
Definition tag_ok (db : Db) (k : Z) (r : TagRow) : Prop :=
  k < sq_tags (seqs db) ∧ t_tenant r ∈ tenants db.

Record db_ok (db : Db) : Prop := {
  ok_documents k r : documents db !! k = Some r -> document_ok db k r;
  ok_files k r : files db !! k = Some r -> file_ok db k r;
  ok_chunks k c : chunks db !! k = Some c -> chunk_ok db k c;
  ok_tags k r : tags db !! k = Some r -> tag_ok db k r;
  ok_aliases k tag : aliases db !! k = Some tag -> k.1 ∈ tenants db ∧ is_Some (tags db !! tag);
  ok_doc_tags k dt :
    doc_tags db !! k = Some dt -> is_Some (documents db !! k.1) ∧ is_Some (tags db !! k.2);
  ok_keys t dk : data_keys db !! t = Some dk -> t ∈ tenants db;
  ok_unique_files k k' r r' :
    files db !! k = Some r -> files db !! k' = Some r' -> file_key r = file_key r' -> k = k';
  ok_unique_tags k k' r r' :
    tags db !! k = Some r -> tags db !! k' = Some r' ->
    t_tenant r = t_tenant r' -> t_name r = t_name r' -> k = k';
  ok_seq : 0 < sq_documents (seqs db);
}.

(** ** The frame of a tenant *)

Definition same_rows {K R} `{Countable K} (P : K -> R -> Prop) (m m' : gmap K R) : Prop :=
  ∀ k r, P k r -> (m !! k = Some r <-> m' !! k = Some r).

Definition seqs_le (a b : Seqs) : Prop :=
  sq_documents a <= sq_documents b ∧ sq_files a <= sq_files b ∧ sq_chunks a <= sq_chunks b ∧
  sq_tags a <= sq_tags b.

Record frame (t : Z) (db db' : Db) : Prop := {
  fr_tenants : tenants db' = tenants db;
  fr_documents : same_rows (λ _ r, dr_tenant r <> t) (documents db) (documents db');
  fr_files : same_rows (λ _ r, f_tenant r <> t) (files db) (files db');
  fr_chunks : same_rows (λ _ c, c_tenant c <> t) (chunks db) (chunks db');
  fr_tags : same_rows (λ _ r, t_tenant r <> t) (tags db) (tags db');
  fr_aliases k : k.1 <> t -> aliases db' !! k = aliases db !! k;
  fr_keys u : u <> t -> data_keys db' !! u = data_keys db !! u;
  fr_doc_tags d r tag :
    documents db !! d = Some r -> dr_tenant r <> t -> doc_tags db' !! (d, tag) = doc_tags db !! (d, tag);
  fr_seqs : seqs_le (seqs db) (seqs db');
}.

Lemma same_rows_refl {K R} `{Countable K} (P : K -> R -> Prop) (m : gmap K R) : same_rows P m m.
Proof. done. Qed.

Lemma same_rows_trans {K R} `{Countable K} (P : K -> R -> Prop) (m1 m2 m3 : gmap K R) :
  same_rows P m1 m2 -> same_rows P m2 m3 -> same_rows P m1 m3.
Proof. intros H1 H2 k r Hp. rewrite (H1 k r Hp). by apply H2. Qed.

Lemma seqs_le_refl q : seqs_le q q.
Proof. unfold seqs_le. lia. Qed.
Lemma seqs_le_trans a b c : seqs_le a b -> seqs_le b c -> seqs_le a c.
Proof. unfold seqs_le. lia. Qed.

Lemma frame_refl t db : frame t db db.
Proof. split; eauto using same_rows_refl, seqs_le_refl. Qed.

Lemma store_frame_trans t db1 db2 db3 : frame t db1 db2 -> frame t db2 db3 -> frame t db1 db3.
Proof.
  intros [] []. split; try (by eapply same_rows_trans); [congruence| | | |by eapply seqs_le_trans].
  - intros k Hk. rewrite fr_aliases1 by done. by apply fr_aliases0.
  - intros u Hu. rewrite fr_keys1 by done. by apply fr_keys0.
  - intros d r tag Hd Hr. erewrite fr_doc_tags1; [by eapply fr_doc_tags0| |done].
    by apply fr_documents0.
Qed.

(** A row the tenant owns may be written; a fresh id may be taken. *)
Lemma same_rows_insert {K R} `{Countable K} (P : K -> R -> Prop) (m : gmap K R) k r :
  ~ P k r -> (∀ r', m !! k = Some r' -> ~ P k r') -> same_rows P m (<[k := r]> m).
Proof.
  intros Hr Hold k' r' Hp. destruct (decide (k' = k)) as [->|].
  - rewrite lookup_insert_eq. split; [intros Hm; by destruct (Hold r')|]. intros [= ->]. done.
  - by rewrite lookup_insert_ne.
Qed.

Lemma same_rows_delete_where {R} (P : Z -> R -> Prop) (Q : Z -> R -> bool) (m : gmap Z R) :
  (∀ k r, P k r -> Q k r = false) -> same_rows P m (delete_where Q m).
Proof. intros HQ k r Hp. rewrite lookup_delete_where. naive_solver. Qed.

Lemma same_rows_update_where {R} (P : Z -> R -> Prop) (Q : Z -> R -> bool) f (m : gmap Z R) :
  (∀ k r, P k r -> Q k r = false) -> (∀ k r, Q k r = true -> P k (f r) -> P k r) ->
  same_rows P m (update_where Q f m).
Proof.
  intros HQ Hf k r Hp. rewrite lookup_update_where. destruct (m !! k) as [r'|]; simpl; [|done].
  destruct (Q k r') eqn:E; [|done]. split.
  - intros [= ->]. rewrite HQ in E; done.
  - intros [= <-]. rewrite HQ in E; [done|]. by eapply Hf.
Qed.

(** ** The judgement *)

Definition safe {A} (t : Z) (m : dbm A) : Prop := ∀ s,
  db_ok (st_db s) -> db_ok (st_db (m s).2) ∧ frame t (st_db s) (st_db (m s).2).

Lemma safe_same {A} t (m : dbm A) : (∀ s, st_db (m s).2 = st_db s) -> safe t m.
Proof. intros Hm s Hs. rewrite Hm. split; [done|apply frame_refl]. Qed.

Lemma safe_ret {A} t (a : A) : safe t (mret a).
Proof. by apply safe_same. Qed.
Lemma safe_throw {A} t e : safe t (throw (A:=A) e).
Proof. by apply safe_same. Qed.
Lemma safe_of_res {A} t (r : result A DbError) : safe t (of_res r).
Proof. by apply safe_same. Qed.
Lemma safe_asks {A} t (f : Store -> A) : safe t (asks f).
Proof. by apply safe_same. Qed.
Lemma safe_guard t b e : safe t (guard_ok b e).
Proof. destruct b; [apply safe_ret|apply safe_throw]. Qed.
Lemma safe_admin_pool t : safe t admin_pool.
Proof. apply safe_same. intros s. unfold admin_pool. by destruct (st_connected s). Qed.
Lemma safe_keyed {A} t (m : prog entropy A) : safe t (keyed m).
Proof. apply safe_same. intros s. unfold keyed. by destruct (m (st_entropy s)) as [[?|?] ?]. Qed.

Lemma safe_bind {A B} t (m : dbm A) (k : A -> dbm B) :
  safe t m -> (∀ a, safe t (k a)) -> safe t (m ≫= k).
Proof.
  intros Hm Hk s Hs. unfold mbind, dbm_bind. specialize (Hm s Hs) as [Hm Hf].
  destruct (m s) as [[a|e] s1]; simpl in *; [|done]. specialize (Hk a s1 Hm) as [Hk Hf'].
  split; [done|by eapply store_frame_trans].
Qed.

Lemma safe_tried {A} t (m : dbm A) : safe t m -> safe t (tried m).
Proof. intros Hm s Hs. specialize (Hm s Hs). unfold tried. by destruct (m s). Qed.

Lemma safe_stmt {A} t (f : Db -> result (A * Db) DbError) :
  (∀ db a db', db_ok db -> f db = Ok (a, db') -> db_ok db' ∧ frame t db db') -> safe t (stmt f).
Proof.
  intros Hf s Hs. unfold stmt. destruct (f (st_db s)) as [[a db]|e] eqn:E; simpl.
  - by eapply Hf.
  - split; [done|apply frame_refl].
Qed.

Lemma db_ok_seqs db q : db_ok db -> seqs_le (seqs db) q -> db_ok (with_seqs (λ _, q) db).
Proof.
  intros Hok Hq. destruct Hq as (?&?&?&?). pose proof (ok_seq _ Hok).
  split; try apply Hok; simpl.
  - intros k r Hk. destruct (ok_documents _ Hok k r Hk) as ([? ?] & ?). split; [simpl; lia|done].
  - intros k r Hk. destruct (ok_files _ Hok k r Hk) as (?&?). split; [simpl; lia|done].
  - intros k r Hk. destruct (ok_chunks _ Hok k r Hk) as (?&?). split; [simpl; lia|done].
  - intros k r Hk. destruct (ok_tags _ Hok k r Hk) as (?&?). split; [simpl; lia|done].
  - lia.
Qed.

Lemma frame_seqs t db q : seqs_le (seqs db) q -> frame t db (with_seqs (λ _, q) db).
Proof. intros. split; simpl; eauto using same_rows_refl. Qed.

Lemma safe_tx {A} t (m : dbm A) : safe t m -> safe t (tx m).
Proof.
  intros Hm s Hs. unfold tx. destruct (st_connected s); simpl; [|split; [done|apply frame_refl]].
  specialize (Hm s Hs) as [Hok Hf]. destruct (m s) as [[a|e] s1]; simpl in *; [done|].
  pose proof (fr_seqs _ _ _ Hf). split; [by apply db_ok_seqs|by apply frame_seqs].
Qed.

(** A row number from a sequence, then the statement that uses it. *)
Lemma safe_next {A} t get bump (f : Z -> Db -> result (A * Db) DbError) :
  (∀ q, seqs_le q (bump q)) ->
  (∀ db a db', db_ok db ->
    f (get (seqs db)) (with_seqs bump db) = Ok (a, db') ->
    db_ok (with_seqs bump db) -> db_ok db' ∧ frame t (with_seqs bump db) db') ->
  safe t (id ← nextval get bump; stmt (f id)).
Proof.
  intros Hb Hf s Hs. unfold mbind, dbm_bind, nextval, stmt. simpl.
  assert (Hs' : db_ok (with_seqs bump (st_db s))) by (by apply (db_ok_seqs (st_db s) (bump _))).
  assert (Hfr : frame t (st_db s) (with_seqs bump (st_db s))) by (by apply frame_seqs).
  destruct (f _ _) as [[a db]|e] eqn:E; simpl; [|done].
  destruct (Hf _ _ _ Hs E Hs') as [? ?]. split; [done|by eapply store_frame_trans].
Qed.

Create HintDb store discriminated.
#[export] Hint Resolve safe_ret safe_throw safe_of_res safe_asks safe_guard safe_admin_pool
  safe_keyed : store.
#[export] Hint Extern 2 (safe _ (_ ≫= _)) => apply safe_bind; [|intros ?] : store.
#[export] Hint Extern 2 (safe _ (tx _)) => apply safe_tx : store.
#[export] Hint Extern 2 (safe _ (tried _)) => apply safe_tried : store.
#[export] Hint Extern 4 (safe _ (match ?x with _ => _ end)) => destruct x : store.

Ltac safe_auto := eauto 40 with store nocore.

(** ** Writing rows *)

Lemma is_Some_insert {R} (m : gmap Z R) i r k : is_Some (m !! k) -> is_Some (<[i := r]> m !! k).
Proof. rewrite lookup_insert_is_Some'. auto. Qed.
#[local] Hint Resolve is_Some_insert : core.

(** A row of a table is the new one or one of the old ones. *)
Ltac row_cases H :=
  apply lookup_insert_Some in H as [[<- <-]|[? H]].

Lemma ok_put_document db id r :
  db_ok db -> document_ok db id r -> db_ok (with_documents <[id := r]> db).
Proof.
  intros Hok Hr. split; simpl; try apply Hok.
  - intros k r' Hk. row_cases Hk; [done|by apply (ok_documents _ Hok)].
  - intros k f Hk. destruct (ok_files _ Hok k f Hk) as (?&?&?&?). split_and!; simpl; auto; naive_solver.
  - intros k c Hk. destruct (ok_chunks _ Hok k c Hk) as (?&?&?&?). split_and!; simpl; auto; naive_solver.
  - intros k dt Hk. destruct (ok_doc_tags _ Hok k dt Hk). auto.
Qed.

Lemma frame_put_document t db id r :
  dr_tenant r = t -> (∀ r', documents db !! id = Some r' -> dr_tenant r' = t) ->
  frame t db (with_documents <[id := r]> db).
Proof.
  intros Hr Hold. split; simpl; eauto using same_rows_refl, seqs_le_refl.
  apply same_rows_insert; [naive_solver|]. intros r' Hr'. apply Hold in Hr'. naive_solver.
Qed.

Lemma ok_put_file db id r :
  db_ok db -> file_ok db id r ->
  (∀ k r', files db !! k = Some r' -> file_key r' = file_key r -> k = id) ->
  db_ok (with_files <[id := r]> db).
Proof.
  intros Hok Hr Hu. split; simpl; try apply Hok.
  - intros k r' Hk. row_cases Hk; [done|by apply (ok_files _ Hok)].
  - intros k c Hk. destruct (ok_chunks _ Hok k c Hk) as (?&?&?&?&?). split_and!; simpl; auto.
  - intros k k' r1 r2 H1 H2 E. row_cases H1; row_cases H2; try done.
    + symmetry. by eapply Hu.
    + by eapply Hu.
    + by eapply (ok_unique_files _ Hok).
Qed.

Lemma frame_put_file t db id r :
  f_tenant r = t -> (∀ r', files db !! id = Some r' -> f_tenant r' = t) ->
  frame t db (with_files <[id := r]> db).
Proof.
  intros Hr Hold. split; simpl; eauto using same_rows_refl, seqs_le_refl.
  apply same_rows_insert; [naive_solver|]. intros r' Hr'. apply Hold in Hr'. naive_solver.
Qed.

Lemma ok_put_chunk db id c : db_ok db -> chunk_ok db id c -> db_ok (with_chunks <[id := c]> db).
Proof.
  intros Hok Hc. split; simpl; try apply Hok.
  intros k c' Hk. row_cases Hk; [done|by apply (ok_chunks _ Hok)].
Qed.

Lemma frame_put_chunk t db id c :
  c_tenant c = t -> chunks db !! id = None -> frame t db (with_chunks <[id := c]> db).
Proof.
  intros Hr Hnew. split; simpl; eauto using same_rows_refl, seqs_le_refl.
  apply same_rows_insert; naive_solver.
Qed.

Lemma ok_put_tag db id r :
  db_ok db -> tag_ok db id r ->
  (∀ k r', tags db !! k = Some r' -> t_tenant r' = t_tenant r -> t_name r' <> t_name r) ->
  db_ok (with_tags <[id := r]> db).
Proof.
  intros Hok Hr Hu. split; simpl; try apply Hok.
  - intros k r' Hk. row_cases Hk; [done|by apply (ok_tags _ Hok)].
  - intros k tag Hk. destruct (ok_aliases _ Hok k tag Hk). auto.
  - intros k dt Hk. destruct (ok_doc_tags _ Hok k dt Hk). auto.
  - intros k k' r1 r2 H1 H2 Et En. row_cases H1; row_cases H2; try done.
    + by destruct (Hu k' r2).
    + by destruct (Hu k r1).
    + by eapply (ok_unique_tags _ Hok).
Qed.

Lemma frame_put_tag t db id r :
  t_tenant r = t -> tags db !! id = None -> frame t db (with_tags <[id := r]> db).
Proof.
  intros Hr Hnew. split; simpl; eauto using same_rows_refl, seqs_le_refl.
  apply same_rows_insert; naive_solver.
Qed.

(** Row updates that keep what the invariant and the frame look at. *)
Lemma update_files_safe t db Q g :
  (∀ k r, Q k r = true -> f_tenant r = t) ->
  (∀ r, file_key (g r) = file_key r ∧ f_status (g r) = f_status r) ->
  db_ok db -> db_ok (with_files (update_where Q g) db) ∧ frame t db (with_files (update_where Q g) db).
Proof.
  intros HQ Hg Hok.
  assert (Hl : ∀ k r', update_where Q g (files db) !! k = Some r' ->
            ∃ r, files db !! k = Some r ∧ file_key r' = file_key r ∧ f_status r' = f_status r).
  { intros k r'. rewrite lookup_update_where. intros (r & -> & Hr)%fmap_Some. exists r. split; [done|].
    destruct (Q k r); [rewrite Hr; apply Hg|by rewrite Hr]. }
  split.
  - split; simpl; try apply Hok.
    + intros k r' (r & Hr & Hk & Hst)%Hl. destruct (ok_files _ Hok k r Hr) as (?&?&?&?&?).
      unfold file_key in Hk. injection Hk as E1 E2 E3.
      unfold file_ok. simpl. rewrite E1, E2, E3, Hst. done.
    + intros k c Hk. destruct (ok_chunks _ Hok k c Hk) as (?&?&?&Hf&?). split_and!; simpl; auto.
      rewrite lookup_update_where. by destruct Hf as [f ->].
    + intros k k' r1 r2 (r1' & H1 & E1 & _)%Hl (r2' & H2 & E2 & _)%Hl E.
      eapply (ok_unique_files _ Hok); eauto. congruence.
  - split; simpl; eauto using same_rows_refl, seqs_le_refl.
    apply same_rows_update_where.
    + intros k r Hr. destruct (Q k r) eqn:E; [|done]. by apply HQ in E.
    + intros k r E Hp. apply HQ in E. destruct (Hg r) as [Hk _]. unfold file_key in Hk.
      injection Hk as E1 _ _. congruence.
Qed.

Lemma update_chunks_safe t db Q g :
  (∀ k c, Q k c = true -> c_tenant c = t) ->
  (∀ c, c_tenant (g c) = c_tenant c ∧ c_document (g c) = c_document c ∧ c_file (g c) = c_file c ∧
        c_embedding (g c) = c_embedding c) ->
  db_ok db -> db_ok (with_chunks (update_where Q g) db) ∧ frame t db (with_chunks (update_where Q g) db).
Proof.
  intros HQ Hg Hok. split.
  - split; simpl; try apply Hok. intros k c'. rewrite lookup_update_where.
    intros (c & Hc & ->)%fmap_Some. destruct (ok_chunks _ Hok k c Hc) as (?&?&?&?&?).
    destruct (Q k c); [|done]. destruct (Hg c) as (E1 & E2 & E3 & E4). unfold chunk_ok. simpl.
    by rewrite E1, E2, E3, E4.
  - split; simpl; eauto using same_rows_refl, seqs_le_refl.
    apply same_rows_update_where.
    + intros k c Hr. destruct (Q k c) eqn:E; [|done]. by apply HQ in E.
    + intros k c E Hp. apply HQ in E. destruct (Hg c) as (E1 & _). congruence.
Qed.

Lemma delete_chunks_safe t db Q :
  (∀ k c, Q k c = true -> c_tenant c = t) ->
  db_ok db -> db_ok (with_chunks (delete_where Q) db) ∧ frame t db (with_chunks (delete_where Q) db).
Proof.
  intros HQ Hok. split.
  - split; simpl; try apply Hok. intros k c [Hc _]%lookup_delete_where. by apply (ok_chunks _ Hok).
  - split; simpl; eauto using same_rows_refl, seqs_le_refl.
    apply same_rows_delete_where. intros k c Hr. destruct (Q k c) eqn:E; [|done]. by apply HQ in E.
Qed.

(** Links of documents the tenant owns, to tags that exist. *)
Lemma doc_tags_safe (t : Z) (db : Db) (m : gmap (Z * Z) DocTag) :
  (∀ k dt, m !! k = Some dt -> is_Some (documents db !! k.1) ∧ is_Some (tags db !! k.2)) ->
  (∀ k, doc_visible db t k.1 = false -> m !! k = doc_tags db !! k) ->
  db_ok db -> db_ok (with_doc_tags (λ _, m) db) ∧ frame t db (with_doc_tags (λ _, m) db).
Proof.
  intros Hm Hk Hok. split.
  - split; simpl; try apply Hok. done.
  - split; simpl; eauto using same_rows_refl, seqs_le_refl.
    intros d r tag Hd Hr. apply Hk. simpl. unfold doc_visible, rls. rewrite Hd. by apply Z.eqb_neq.
Qed.

Lemma fresh_document db : db_ok db -> documents db !! sq_documents (seqs db) = None.
Proof.
  intros Hok. destruct (documents db !! _) as [r|] eqn:E; [|done].
  apply (ok_documents _ Hok) in E as ([? ?] & ?). lia.
Qed.
Lemma fresh_file db : db_ok db -> files db !! sq_files (seqs db) = None.
Proof.
  intros Hok. destruct (files db !! _) as [r|] eqn:E; [|done].
  apply (ok_files _ Hok) in E as (?&?). lia.
Qed.
Lemma fresh_chunk db : db_ok db -> chunks db !! sq_chunks (seqs db) = None.
Proof.
  intros Hok. destruct (chunks db !! _) as [r|] eqn:E; [|done].
  apply (ok_chunks _ Hok) in E as (?&?). lia.
Qed.
Lemma fresh_tag db : db_ok db -> tags db !! sq_tags (seqs db) = None.
Proof.
  intros Hok. destruct (tags db !! _) as [r|] eqn:E; [|done].
  apply (ok_tags _ Hok) in E as (?&?). lia.
Qed.

Lemma status_ok_str (st : ProcessingStatus) : status_ok (as_str st).
Proof. by exists st. Qed.

(** ** The store's operations are safe *)

Section operations.
Context `{Aead} `{QueryBuilder}.

Lemma safe_dek t : safe t (get_or_create_tenant_dek t).
Proof.
  assert (Hu : ∀ kek dk, safe t (unwrap_tenant_dek kek t dk)).
  { intros kek dk. unfold unwrap_tenant_dek, insert_decrypt_audit_event. apply safe_bind.
    - apply safe_bind; [safe_auto|intros _]. apply safe_stmt. intros db a db' Hok [= <- <-].
      split; [|split; simpl; eauto using same_rows_refl, seqs_le_refl]. split; apply Hok.
    - intros _. destruct (kek_unwrap _ _); [case_match|]; safe_auto. }
  unfold get_or_create_tenant_dek. apply safe_bind; [safe_auto|]. intros [kek|]; [|safe_auto].
  apply safe_bind; [safe_auto|intros _]. apply safe_bind; [safe_auto|]. intros [dk|]; [done|].
  apply safe_bind; [safe_auto|]. intros dk. apply safe_bind; [|done]. apply safe_stmt.
  intros db a db' Hok E. case_decide; [|done]. injection E as <- <-. split.
  - split; simpl; try apply Hok. intros u k Hk. row_cases Hk; [done|by apply (ok_keys _ Hok) in Hk].
  - split; simpl; eauto using same_rows_refl, seqs_le_refl. intros u Hu'. by rewrite lookup_insert_ne.
Qed.

Lemma safe_write_dek t : safe t (write_dek t).
Proof.
  unfold write_dek. apply safe_bind; [safe_auto|]. intros [?|]; [|safe_auto].
  apply safe_bind; [apply safe_dek|safe_auto].
Qed.
#[local] Hint Resolve safe_dek safe_write_dek : store.

Lemma safe_encrypt_with t dek s : safe t (encrypt_with dek s).
Proof. unfold encrypt_with. safe_auto. Qed.
#[local] Hint Resolve safe_encrypt_with : store.
Lemma safe_encrypt_field t dek s : safe t (encrypt_field dek s).
Proof. unfold encrypt_field. safe_auto. Qed.
#[local] Hint Resolve safe_encrypt_field : store.

Lemma safe_insert_document t now doc st se ue :
  status_ok st -> safe t (insert_document t now doc st se ue).
Proof.
  intros Hst. apply safe_next; [intros []; unfold seqs_le; simpl; lia|].
  intros db a db' Hok E Hok'. unfold rls in E.
  destruct (Z.eqb_spec (doc_tenant doc) t) as [Ht|]; [|done]. simpl in E.
  destruct (kind_check _) eqn:Hk; [|done]. simpl in E. case_decide; [|done]. injection E as <- <-.
  pose proof (ok_seq _ Hok). split.
  - apply ok_put_document; [done|]. split_and!; simpl; auto; lia.
  - apply frame_put_document; [done|]. simpl. rewrite fresh_document by done. done.
Qed.

Lemma safe_update_document t id doc st se ue :
  status_ok st -> safe t (update_document t id doc st se ue).
Proof.
  intros Hst. apply safe_stmt. intros db a db' Hok E. unfold rls in E.
  destruct (documents db !! id) as [r|] eqn:Hr; [|done].
  destruct (Z.eqb_spec (dr_tenant r) t) as [Hrt|]; [|done].
  destruct (Z.eqb_spec (doc_tenant doc) t) as [Ht|]; [|done]. simpl in E.
  destruct (kind_check _) eqn:Hk; [|done]. injection E as <- <-.
  destruct (ok_documents _ Hok _ _ Hr) as (?&?&?). split.
  - apply ok_put_document; [done|]. split_and!; simpl; auto; [lia|lia|congruence].
  - apply frame_put_document; [done|]. naive_solver.
Qed.
#[local] Hint Resolve safe_insert_document safe_update_document status_ok_str : store.

Lemma safe_upsert_document now doc : safe (doc_tenant doc) (upsert_document now doc).
Proof. unfold upsert_document. safe_auto. Qed.

Lemma find_file_Some db k id :
  find_file db k = Some id -> ∃ r, files db !! id = Some r ∧ file_key r = k.
Proof.
  unfold find_file. intros ([i r] & Hh & ->)%fmap_Some. apply head_Some_elem_of in Hh.
  apply rows_where_elem in Hh as [Hf Hk]. bool_to_prop. simpl. eauto.
Qed.

Lemma find_file_None db k id r :
  find_file db k = None -> files db !! id = Some r -> file_key r <> k.
Proof.
  unfold find_file. intros Hn Hr Hk. destruct (rows_where _ _) as [|[i r'] l] eqn:E; [|done].
  assert (Hin : (id, r) ∈ rows_where (λ _ r, bool_decide (file_key r = k)) (files db)).
  { apply rows_where_elem. split; [done|by apply bool_decide_eq_true]. }
  rewrite E in Hin. by apply elem_of_nil in Hin.
Qed.

Lemma safe_upsert_file_row t doc rec :
  length (fr_sha256 rec) = 32%nat -> safe t (upsert_file_row t doc rec).
Proof.
  intros Hsha. apply safe_next; [intros []; unfold seqs_le; simpl; lia|].
  intros db a db' Hok E Hok'. unfold rls in E.
  destruct (Z.eqb_spec (fr_tenant rec) t) as [Ht|]; [|done]. simpl in E.
  destruct (find_file _ _) as [fid|] eqn:Hf.
  - injection E as <- <-. apply find_file_Some in Hf as (r & Hr & Hk). simpl in Hr.
    unfold file_key in Hk. injection Hk as E1 E2 E3.
    destruct (ok_files _ Hok _ _ Hr) as (?&?&?&?&?). split.
    + apply ok_put_file; [done| |].
      * split_and!; simpl; auto with store; [lia|congruence|by rewrite <-E3].
      * intros k r' Hr' Hk'. eapply (ok_unique_files _ Hok); [done..|].
        rewrite Hk'. unfold file_key. simpl. by rewrite E1, E2, E3.
    + apply frame_put_file; [done|]. simpl. intros r' Hr'. simpl in E1. congruence.
  - case_decide as Hfk; [|done]. destruct Hfk as [Hten Hdoc]. injection E as <- <-. split.
    + apply ok_put_file; [done| |].
      * split_and!; simpl; auto with store. lia.
      * intros k r' Hr' Hk'. by eapply find_file_None in Hk'.
    + apply frame_put_file; [done|]. simpl. rewrite fresh_file by done. done.
Qed.
#[local] Hint Resolve safe_upsert_file_row : store.

Lemma safe_upsert_file rec :
  length (fr_sha256 rec) = 32%nat -> safe (fr_tenant rec) (upsert_file rec).
Proof. intros. unfold upsert_file. safe_auto. Qed.

Lemma safe_upsert_files t doc recs :
  Forall (λ rec, length (fr_sha256 rec) = 32%nat) recs -> safe t (upsert_files t doc recs).
Proof. induction 1; simpl; safe_auto. Qed.
#[local] Hint Resolve safe_upsert_files : store.

Lemma safe_page_order t fid page : safe t (update_file_page_order t fid page).
Proof.
  apply safe_tx, safe_stmt. intros db a db' Hok [= <- <-]. apply update_files_safe; [|done|done].
  intros k r. unfold rls. rewrite andb_true_iff, !Z.eqb_eq. tauto.
Qed.

Lemma safe_delete_live_chunks t fid : safe t (delete_live_chunks t fid).
Proof.
  apply safe_stmt. intros db a db' Hok [= <- <-]. apply delete_chunks_safe; [|done].
  intros k c. unfold rls. rewrite !andb_true_iff, !Z.eqb_eq. tauto.
Qed.

Lemma safe_encrypt_chunks t dek cs : safe t (encrypt_chunks dek cs).
Proof. induction cs; simpl; safe_auto. Qed.

Lemma safe_insert_chunk t doc fid c enc : safe t (insert_chunk t doc fid c enc).
Proof.
  apply safe_next; [intros []; unfold seqs_le; simpl; lia|].
  intros db a db' Hok E Hok'. destruct (vector_ok _) eqn:Hv; [|done]. simpl in E. unfold rls in E.
  destruct (Z.eqb_spec (ch_tenant c) t) as [Ht|]; [|done]. simpl in E.
  case_decide as Hfk; [|done]. destruct Hfk as (?&?&?). injection E as <- <-. split.
  - apply ok_put_chunk; [done|]. split_and!; simpl; auto. lia.
  - apply frame_put_chunk; [done|]. simpl. by apply fresh_chunk.
Qed.

Lemma safe_insert_chunks t doc_of fid cs : safe t (insert_chunks t doc_of fid cs).
Proof. induction cs as [|[]]; simpl; eauto using safe_insert_chunk with store nocore. Qed.
#[local] Hint Resolve safe_delete_live_chunks safe_encrypt_chunks safe_insert_chunks : store.

Lemma safe_replace_chunks t doc_of fid dek cs : safe t (replace_chunks t doc_of fid dek cs).
Proof. unfold replace_chunks. safe_auto. Qed.
#[local] Hint Resolve safe_replace_chunks : store.

Lemma safe_replace_all t doc dek fs : safe t (replace_all_chunks t doc dek fs).
Proof. induction fs as [|[]]; simpl; safe_auto. Qed.
#[local] Hint Resolve safe_replace_all : store.

Lemma find_tag_None db t name k r :
  find_tag db t name = None -> tags db !! k = Some r -> t_tenant r = t -> t_name r <> name.
Proof.
  unfold find_tag. intros Hn Hr Ht Hname. destruct (rows_where _ _) as [|[i r'] l] eqn:E; [|done].
  assert (Hin : (k, r) ∈ rows_where (λ _ r, rls t (t_tenant r) && bool_decide (t_name r = name)) (tags db)).
  { apply rows_where_elem. split; [done|]. unfold rls. rewrite Ht, Z.eqb_refl. by apply bool_decide_eq_true. }
  rewrite E in Hin. by apply elem_of_nil in Hin.
Qed.

Lemma safe_upsert_tag t name e : safe t (upsert_tag t name e).
Proof.
  apply safe_tx, safe_next; [intros []; unfold seqs_le; simpl; lia|].
  intros db a db' Hok E Hok'. destruct (vector_ok _); [|done]. simpl in E.
  destruct (find_tag _ _ _) eqn:Hf; [injection E as <- <-; split; [done|apply frame_refl]|].
  case_decide; [|done]. injection E as <- <-. split.
  - apply ok_put_tag; [done|split; simpl; auto; lia|]. simpl. intros k r Hr Ht.
    by eapply find_tag_None.
  - apply frame_put_tag; [done|]. simpl. by apply fresh_tag.
Qed.

Lemma safe_insert_tag_alias t alias tag : safe t (insert_tag_alias t alias tag).
Proof.
  apply safe_tx, safe_stmt. intros db a db' Hok E.
  destruct (aliases db !! _); [injection E as <- <-; split; [done|apply frame_refl]|].
  case_decide as Hfk; [|done]. destruct Hfk. injection E as <- <-. split.
  - split; simpl; try apply Hok. intros k tag' Hk. row_cases Hk; [done|by apply (ok_aliases _ Hok)].
  - split; simpl; eauto using same_rows_refl, seqs_le_refl. intros k Hk.
    rewrite lookup_insert_ne; [done|]. intros <-. done.
Qed.

(** A link of a visible document is written. *)
Lemma doc_visible_Some db t d : doc_visible db t d = true -> is_Some (documents db !! d).
Proof. unfold doc_visible. by destruct (documents db !! d). Qed.

Lemma forallb_tags db tag_ids :
  forallb (λ tag, bool_decide (is_Some (tags db !! tag))) tag_ids = true ->
  ∀ tag, tag ∈ tag_ids -> is_Some (tags db !! tag).
Proof.
  rewrite forallb_forall. intros Hf tag Hin. eapply bool_decide_eq_true_1, Hf.
  by apply list_elem_of_In.
Qed.

Lemma safe_put_links (t doc : Z) (upd : gmap (Z * Z) DocTag -> gmap (Z * Z) DocTag) (tag_ids : list Z) :
  (∀ m k, upd m !! k = m !! k ∨ (k.1 = doc ∧ k.2 ∈ tag_ids)) ->
  ∀ db, db_ok db -> doc_visible db t doc = true ->
    (∀ tag, tag ∈ tag_ids -> is_Some (tags db !! tag)) ->
    db_ok (with_doc_tags upd db) ∧ frame t db (with_doc_tags upd db).
Proof.
  intros Hupd db Hok Hv Ht. apply (doc_tags_safe t db (upd (doc_tags db))); [| |done].
  - intros k dt Hk. destruct (Hupd (doc_tags db) k) as [E|[E1 E2]].
    + rewrite E in Hk. by apply (ok_doc_tags _ Hok) in Hk.
    + rewrite E1. split; [by eapply doc_visible_Some|auto].
  - intros k Hk. destruct (Hupd (doc_tags db) k) as [E|[E1 E2]]; [done|]. congruence.
Qed.

Lemma link_all_lookup (doc : Z) (dt : DocTag) (tl : list Z) (m : gmap (Z * Z) DocTag) (k : Z * Z) :
  foldr (λ tag m, <[(doc, tag) := dt]> m) m tl !! k = m !! k ∨ (k.1 = doc ∧ k.2 ∈ tl).
Proof.
  induction tl as [|tag tl IH]; [by left|]. cbn [foldr].
  destruct (decide (k = (doc, tag))) as [->|]; [right; set_solver|].
  rewrite lookup_insert_ne by done. set_solver.
Qed.

Lemma link_new_lookup (doc : Z) (dt : DocTag) (tl : list Z) (m : gmap (Z * Z) DocTag) (k : Z * Z) :
  foldl (λ m tag, if decide (is_Some (m !! (doc, tag))) then m else <[(doc, tag) := dt]> m) m tl !! k
    = m !! k ∨ (k.1 = doc ∧ k.2 ∈ tl).
Proof.
  revert m. induction tl as [|tag tl IH]; intros m; [by left|]. cbn [foldl]. case_decide.
  - destruct (IH m); set_solver.
  - destruct (IH (<[(doc, tag) := dt]> m)) as [E|E]; [|set_solver]. rewrite E.
    destruct (decide (k = (doc, tag))) as [->|]; [right; set_solver|].
    left. by rewrite lookup_insert_ne.
Qed.

Lemma safe_insert_document_tags t doc tag_ids src : safe t (insert_document_tags t doc tag_ids src).
Proof.
  unfold insert_document_tags. destruct tag_ids as [|t0 l]; [safe_auto|].
  apply safe_tx, safe_stmt. intros db a db' Hok E.
  destruct (doc_visible _ _ _) eqn:Hv; [|done]. destruct (forallb _ _) eqn:Hf; [|done].
  destruct (bool_decide (NoDup _)); [|done]. injection E as <- <-.
  apply (safe_put_links t doc _ (t0 :: l)); [|done|done|by apply forallb_tags].
  intros m k. apply (link_all_lookup doc (mkDocTag src _) (t0 :: l)).
Qed.

Lemma safe_insert_llm_tags t doc tag_ids : safe t (insert_llm_tags t doc tag_ids).
Proof.
  unfold insert_llm_tags. destruct tag_ids as [|t0 l]; [safe_auto|].
  apply safe_stmt. intros db a db' Hok E.
  destruct (doc_visible _ _ _) eqn:Hv; [|done]. destruct (forallb _ _) eqn:Hf; [|done].
  injection E as <- <-.
  apply (safe_put_links t doc _ (t0 :: l)); [|done|done|by apply forallb_tags].
  intros m k. apply (link_new_lookup doc (mkDocTag TsLlm false) (t0 :: l)).
Qed.

Lemma safe_clear_llm t doc : safe t (stmt (clear_llm t doc)).
Proof.
  apply safe_stmt. intros db a db' Hok [= <- <-]. apply doc_tags_safe; [| |done].
  - intros k dt Hk. apply map_lookup_filter_Some in Hk as [Hk _]. by apply (ok_doc_tags _ Hok) in Hk.
  - intros k Hk. destruct (doc_tags db !! k) as [dt|] eqn:E.
    + apply map_lookup_filter_Some. split; [done|]. simpl. unfold own_doc_tag. rewrite Hk.
      by rewrite andb_false_r.
    + apply map_lookup_filter_None. by left.
Qed.

Lemma safe_set_locked t doc tag b : safe t (set_document_tag_locked t doc tag b).
Proof.
  apply safe_tx, safe_stmt. intros db a db' Hok E.
  destruct (doc_tags db !! _) as [dt|] eqn:Hd; [|injection E as <- <-; split; [done|apply frame_refl]].
  destruct (doc_visible _ _ _) eqn:Hv; injection E as <- <-; [|split; [done|apply frame_refl]].
  apply (safe_put_links t doc _ [tag]); [|done|done|].
  - intros m k. destruct (decide (k = (doc, tag))) as [->|]; [right; set_solver|left].
    by rewrite lookup_insert_ne.
  - intros tag' ->%list_elem_of_singleton. by destruct (ok_doc_tags _ Hok _ _ Hd).
Qed.

Lemma safe_remove_tag t doc tag : safe t (remove_document_tag t doc tag).
Proof.
  apply safe_tx, safe_stmt. intros db a db' Hok E.
  destruct (doc_tags db !! _) as [dt|] eqn:Hd; [|injection E as <- <-; split; [done|apply frame_refl]].
  destruct (doc_visible _ _ _) eqn:Hv; injection E as <- <-; [|split; [done|apply frame_refl]].
  apply (safe_put_links t doc _ [tag]); [|done|done|].
  - intros m k. destruct (decide (k = (doc, tag))) as [->|]; [right; set_solver|left].
    by rewrite lookup_delete_ne.
  - intros tag' ->%list_elem_of_singleton. by destruct (ok_doc_tags _ Hok _ _ Hd).
Qed.

Lemma safe_supersede_files t now doc keep : safe t (supersede_files t now doc keep).
Proof.
  apply safe_stmt. intros db a db' Hok [= <- <-]. apply update_files_safe; [|done|done].
  intros k r. unfold rls. rewrite !andb_true_iff, !Z.eqb_eq. tauto.
Qed.

Lemma safe_supersede_chunks t now doc keep : safe t (supersede_chunks t now doc keep).
Proof.
  apply safe_stmt. intros db a db' Hok [= <- <-]. apply update_chunks_safe; [|done|done].
  intros k c. unfold rls. rewrite !andb_true_iff, !Z.eqb_eq. tauto.
Qed.
#[local] Hint Resolve safe_insert_llm_tags safe_clear_llm safe_supersede_files safe_supersede_chunks : store.

Lemma safe_ingest now doc recs tag_ids fcs :
  Forall (λ rec, length (fr_sha256 rec) = 32%nat) recs ->
  safe (doc_tenant doc) (transactional_ingest now doc recs tag_ids fcs).
Proof. intros. unfold transactional_ingest, ingest_body. safe_auto. Qed.

Lemma safe_upsert_chunks s fid cs :
  db_ok (st_db s) ->
  let t := match cs with
           | c :: _ => ch_tenant c
           | [] => from_option f_tenant 0 (files (st_db s) !! fid)
           end in
  let s' := (upsert_chunks fid cs s).2 in
  db_ok (st_db s') ∧ frame t (st_db s) (st_db s').
Proof.
  intros Hok. unfold upsert_chunks. simpl.
  assert (Hrest : ∀ t, safe t (dek ← write_dek t; tx (replace_chunks t ch_document fid dek cs)))
    by (intros t; safe_auto).
  destruct cs as [|c cs].
  - unfold mbind, dbm_bind, admin_pool. destruct (st_connected s); simpl;
      [|split; [done|apply frame_refl]].
    unfold of_res. destruct (files (st_db s) !! fid) as [r|] eqn:Hf; simpl;
      [|split; [done|apply frame_refl]].
    exact (Hrest (f_tenant r) s Hok).
  - exact (Hrest (ch_tenant c) s Hok).
Qed.
End operations.

(** ** Histories *)

Inductive store_op :=
| OUpsertDocument (now : Z) (doc : Document)
| OUpsertFile (rec : FileRecord)
| OUpsertChunks (fid : Z) (cs : list Chunk)
| OUpsertTag (t : Z) (name : chars) (e : list f32)
| OInsertAlias (t : Z) (alias : chars) (tag : Z)
| OInsertDocumentTags (t doc : Z) (tag_ids : list Z) (src : TagSource)
| OClearLlmTags (t doc : Z)
| OSetTagLocked (t doc tag : Z) (locked : bool)
| ORemoveTag (t doc tag : Z)
| OPageOrder (t fid page : Z)
| OIngest (now : Z) (doc : Document) (recs : list FileRecord) (tag_ids : list Z)
    (fcs : list (list Chunk)).

(** A SHA-256 is 32 bytes. *)
Definition rec_ok (rec : FileRecord) : Prop := length (fr_sha256 rec) = 32%nat.
Definition store_op_ok (op : store_op) : Prop :=
  match op with
  | OUpsertFile rec => rec_ok rec
  | OIngest _ _ recs _ _ => Forall rec_ok recs
  | _ => True
  end.

Section histories.
Context `{Aead} `{QueryBuilder}.

Definition discard {A} (m : dbm A) (s : Store) : Store := (m s).2.

Definition store_exec (op : store_op) (s : Store) : Store :=
  match op with
  | OUpsertDocument now doc => discard (upsert_document now doc) s
  | OUpsertFile rec => discard (upsert_file rec) s
  | OUpsertChunks fid cs => discard (upsert_chunks fid cs) s
  | OUpsertTag t name e => discard (upsert_tag t name e) s
  | OInsertAlias t alias tag => discard (insert_tag_alias t alias tag) s
  | OInsertDocumentTags t doc tags src => discard (insert_document_tags t doc tags src) s
  | OClearLlmTags t doc => discard (clear_llm_document_tags t doc) s
  | OSetTagLocked t doc tag b => discard (set_document_tag_locked t doc tag b) s
  | ORemoveTag t doc tag => discard (remove_document_tag t doc tag) s
  | OPageOrder t fid page => discard (update_file_page_order t fid page) s
  | OIngest now doc recs tags fcs => discard (transactional_ingest now doc recs tags fcs) s
  end.

(** The tenant an operation runs for; the chunks of an empty batch belong to
    the tenant of the file. *)
Definition store_op_tenant (s : Store) (op : store_op) : Z :=
  match op with
  | OUpsertDocument _ doc | OIngest _ doc _ _ _ => doc_tenant doc
  | OUpsertFile rec => fr_tenant rec
  | OUpsertChunks _ (c :: _) => ch_tenant c
  | OUpsertChunks fid [] => from_option f_tenant 0 (files (st_db s) !! fid)
  | OUpsertTag t _ _ | OInsertAlias t _ _ | OInsertDocumentTags t _ _ _ | OClearLlmTags t _
  | OSetTagLocked t _ _ _ | ORemoveTag t _ _ | OPageOrder t _ _ => t
  end.

Lemma store_exec_safe op s :
  store_op_ok op -> db_ok (st_db s) ->
  db_ok (st_db (store_exec op s)) ∧ frame (store_op_tenant s op) (st_db s) (st_db (store_exec op s)).
Proof.
  intros Hop Hs. destruct op as [| |fid cs| | | | | | | |]; simpl in *.
  3: { pose proof (safe_upsert_chunks s fid cs Hs). by destruct cs. }
  all: revert Hs; unfold discard.
  - apply safe_upsert_document.
  - by apply safe_upsert_file.
  - apply safe_upsert_tag.
  - apply safe_insert_tag_alias.
  - apply safe_insert_document_tags.
  - apply safe_tx, safe_clear_llm.
  - apply safe_set_locked.
  - apply safe_remove_tag.
  - apply safe_page_order.
  - by apply safe_ingest.
Qed.

Definition store_history (ops : list store_op) (s : Store) : Store :=
  foldl (λ s op, store_exec op s) s ops.

(** Every row the invariant admits reads back as a domain value. *)
Lemma document_from_row_ok db k r :
  document_ok db k r -> ∃ d, document_from_row k r = Ok d.
Proof.
  intros (_ & _ & Hk & [st Hst]). unfold document_from_row, parse_enum. rewrite Hst.
  assert (∃ v : DocKind, from_str (dr_kind r) = Ok v) as [v ->].
  { unfold kind_check in Hk. bool_to_prop. rewrite !elem_of_cons, elem_of_nil in Hk.
    destruct_or!; rewrite ?Hk; try done; by eexists. }
  rewrite from_str_as_str. simpl. eauto.
Qed.

Lemma file_from_row_ok db k r : file_ok db k r -> ∃ f, file_from_row k r = Ok f.
Proof.
  intros (_ & _ & _ & [st Hst] & Hsha). unfold file_from_row, parse_enum.
  rewrite Hsha, Hst, from_str_as_str. simpl. eauto.
Qed.

(** C4. Every history of store calls keeps the tables well formed: ids come
    from their sequences and are never reused, every reference resolves, the
    unique keys of files and tags hold, and every document and file row reads
    back as a domain value (its kind, status and hash parse). *)
Theorem store_invariant (ops : list store_op) (s : Store) :
  Forall store_op_ok ops -> db_ok (st_db s) ->
  db_ok (st_db (store_history ops s)) ∧
  (∀ k r, documents (st_db (store_history ops s)) !! k = Some r -> ∃ d, document_from_row k r = Ok d) ∧
  (∀ k r, files (st_db (store_history ops s)) !! k = Some r -> ∃ f, file_from_row k r = Ok f).
Proof.
  intros Hops Hs. assert (Hok : db_ok (st_db (store_history ops s))).
  { unfold store_history. revert s Hs. induction Hops as [|op ops Hop _ IH]; intros s Hs; [done|].
    simpl. apply IH. by apply store_exec_safe. }
  split_and!; [done| |]; intros k r Hr.
  - eapply document_from_row_ok. by apply (ok_documents _ Hok).
  - eapply file_from_row_ok. by apply (ok_files _ Hok).
Qed.

(** C5. A call for one tenant never changes a row of another: whatever the
    arguments (foreign document, file or tag ids included) and whether it
    succeeds or fails, the documents, files, chunks, tags, aliases, document
    tags and data keys of every other tenant are exactly as before. *)
Theorem tenant_isolation (op : store_op) (s : Store) :
  store_op_ok op -> db_ok (st_db s) ->
  let db := st_db s in let db' := st_db (store_exec op s) in let t := store_op_tenant s op in
  (∀ k r, dr_tenant r <> t -> (documents db !! k = Some r <-> documents db' !! k = Some r)) ∧
  (∀ k r, f_tenant r <> t -> (files db !! k = Some r <-> files db' !! k = Some r)) ∧
  (∀ k c, c_tenant c <> t -> (chunks db !! k = Some c <-> chunks db' !! k = Some c)) ∧
  (∀ k r, t_tenant r <> t -> (tags db !! k = Some r <-> tags db' !! k = Some r)) ∧
  (∀ u a, u <> t -> aliases db' !! (u, a) = aliases db !! (u, a)) ∧
  (∀ u, u <> t -> data_keys db' !! u = data_keys db !! u) ∧
  (∀ d r tag, documents db !! d = Some r -> dr_tenant r <> t ->
    doc_tags db' !! (d, tag) = doc_tags db !! (d, tag)).
Proof.
  intros Hop Hs. destruct (store_exec_safe op s Hop Hs) as [_ []]. simpl.
  split_and!; [done..| | |done].
  - intros u a Hu. by apply fr_aliases0.
  - intros u Hu. by apply fr_keys0.
Qed.
End histories.
