(* ===== verification/StoreReads.v ===== *)
(** * What a tenant reads

    The queries of the document store answer from the rows of the calling
    tenant alone.  [sim] relates two stores that agree on one tenant's rows;
    [ni] is the relational judgement that a program gives equal replies on
    them, proved query by query. *)

From stdpp Require Import base gmap list strings.
From Stdlib Require Import ZArith Lia Strings.Byte.
From S2P Require Import Prelude StableSort FloatModel Text Json Role Blob Envelope ColumnCrypt Schema.
From S2P Require Import PgStore.
Open Scope Z_scope.

(** ** The queries *)

Inductive store_query :=
| QListDocuments | QListFiles | QListTags | QListAliases | QListLinks | QListChunks
| QDocument (id : Z) | QDetail (id : Z) | QFilesOf (id : Z) | QTagsOf (id : Z) | QFile (id : Z)
| QTagNamed (name : chars) | QAlias (alias : chars) | QSimilarTags | QLockedTags (id : Z)
| QChunkContent (enc : option bytes) (plain : chars).

Inductive store_reply :=
| RDocuments (l : list Document)
| RFiles (l : list FileRecord)
| RTags (l : list (Z * TagRow))
| RAliases (l : list (chars * Z))
| RLinks (l : list (Z * Z))
| RChunks (l : list (Z * ChunkRec))
| RDocument (d : option Document)
| RDetail (d : option (Document * list FileRecord * list (Z * TagRow)))
| RFile (f : option FileRecord)
| RId (i : option Z)
| RVectors (l : list (Z * list f32))
| RIds (l : list Z)
| RText (s : chars).

Section reads.
Context `{Aead} `{QueryBuilder}.

Definition store_read (t : Z) (q : store_query) : dbm store_reply :=
  match q with
  | QListDocuments => l ← list_documents t; mret (RDocuments l)
  | QListFiles => l ← list_files t; mret (RFiles l)
  | QListTags => l ← list_tags t; mret (RTags l)
  | QListAliases => l ← list_tag_aliases t; mret (RAliases l)
  | QListLinks => l ← list_document_tags t; mret (RLinks l)
  | QListChunks => l ← list_chunks t; mret (RChunks l)
  | QDocument id => d ← get_document t id; mret (RDocument d)
  | QDetail id => d ← get_document_detail t id; mret (RDetail d)
  | QFilesOf id => l ← get_files_for_document t id; mret (RFiles l)
  | QTagsOf id => l ← get_tags_for_document t id; mret (RTags l)
  | QFile id => f ← get_file t id; mret (RFile f)
  | QTagNamed name => i ← find_tag_by_name t name; mret (RId i)
  | QAlias alias => i ← lookup_alias t alias; mret (RId i)
  | QSimilarTags => l ← find_similar_tags t; mret (RVectors l)
  | QLockedTags id => l ← get_locked_document_tags t id; mret (RIds l)
  | QChunkContent enc plain => s ← decrypt_chunk_content t enc plain; mret (RText s)
  end.

(** ** Agreement on a tenant's rows *)

Record agree (t : Z) (db1 db2 : Db) : Prop := {
  ag_documents k r : dr_tenant r = t -> (documents db1 !! k = Some r <-> documents db2 !! k = Some r);
  ag_files k r : f_tenant r = t -> (files db1 !! k = Some r <-> files db2 !! k = Some r);
  ag_chunks k c : c_tenant c = t -> (chunks db1 !! k = Some c <-> chunks db2 !! k = Some c);
  ag_tags k r : t_tenant r = t -> (tags db1 !! k = Some r <-> tags db2 !! k = Some r);
  ag_aliases a : aliases db1 !! (t, a) = aliases db2 !! (t, a);
  ag_doc_tags d tag : doc_visible db1 t d = true -> doc_tags db1 !! (d, tag) = doc_tags db2 !! (d, tag);
  ag_key : data_keys db1 !! t = data_keys db2 !! t;
  ag_tenant : t ∈ tenants db1 <-> t ∈ tenants db2;
}.

Record sim (t : Z) (s1 s2 : Store) : Prop := {
  sim_connected : st_connected s1 = st_connected s2;
  sim_kek : st_kek s1 = st_kek s2;
  sim_entropy : st_entropy s1 = st_entropy s2;
  sim_db : agree t (st_db s1) (st_db s2);
}.

Definition ni {A} (t : Z) (m : dbm A) : Prop := ∀ s1 s2,
  sim t s1 s2 -> (m s1).1 = (m s2).1 ∧ sim t (m s1).2 (m s2).2.

Lemma ni_ret {A} t (a : A) : ni t (mret a).
Proof. by intros s1 s2 Hs. Qed.
Lemma ni_throw {A} t e : ni t (throw (A:=A) e).
Proof. by intros s1 s2 Hs. Qed.
Lemma ni_of_res {A} t (r : result A DbError) : ni t (of_res r).
Proof. by intros s1 s2 Hs. Qed.

Lemma ni_asks {A} t (f : Store -> A) : (∀ s1 s2, sim t s1 s2 -> f s1 = f s2) -> ni t (asks f).
Proof. intros Hf s1 s2 Hs. simpl. by rewrite (Hf s1 s2 Hs). Qed.

Lemma ni_bind {A B} t (m : dbm A) (k : A -> dbm B) : ni t m -> (∀ a, ni t (k a)) -> ni t (m ≫= k).
Proof.
  intros Hm Hk s1 s2 Hs. destruct (Hm s1 s2 Hs) as [Hr Hs']. unfold mbind, dbm_bind.
  destruct (m s1) as [[a|e] s1'], (m s2) as [[a'|e'] s2']; simpl in *; simplify_eq; [by apply Hk|done].
Qed.

Lemma ni_tried {A} t (m : dbm A) : ni t m -> ni t (tried m).
Proof.
  intros Hm s1 s2 Hs. destruct (Hm s1 s2 Hs) as [Hr Hs']. unfold tried.
  destruct (m s1), (m s2); simpl in *. by rewrite Hr.
Qed.

Lemma agree_seqs t db1 db2 f g : agree t db1 db2 -> agree t (with_seqs f db1) (with_seqs g db2).
Proof. intros []. by split. Qed.

Lemma ni_tx {A} t (m : dbm A) : ni t m -> ni t (tx m).
Proof.
  intros Hm s1 s2 Hs. destruct (Hm s1 s2 Hs) as [Hr Hs']. unfold tx. rewrite (sim_connected _ _ _ Hs).
  destruct (st_connected s2); simpl; [|done].
  destruct (m s1) as [[a|e] s1'], (m s2) as [[a'|e'] s2']; simpl in *; simplify_eq; [done|].
  split; [done|]. destruct Hs', Hs. split; simpl; [done..|]. by apply agree_seqs.
Qed.

Lemma ni_keyed {A} t (m : prog entropy A) : ni t (keyed m).
Proof.
  intros s1 s2 []. unfold keyed. rewrite sim_entropy0.
  destruct (m (st_entropy s2)) as [[a|e] ent]; simpl; by split.
Qed.

Lemma ni_admin_pool t : ni t admin_pool.
Proof.
  intros s1 s2 Hs. unfold admin_pool. rewrite (sim_connected _ _ _ Hs). by destruct (st_connected s2).
Qed.

(** ** Rows of the tenant *)

Lemma rows_where_agree {R} (P : Z -> R -> bool) (own : R -> Prop) (m1 m2 : gmap Z R) :
  (∀ k r, own r -> (m1 !! k = Some r <-> m2 !! k = Some r)) -> (∀ k r, P k r = true -> own r) ->
  rows_where P m1 = rows_where P m2.
Proof.
  intros Hag Hown. unfold rows_where. f_equal. apply map_eq. intros k. apply option_eq. intros r.
  rewrite !map_lookup_filter_Some. simpl. split; intros [? HP]; split; auto; apply Hag; eauto.
Qed.

Lemma doc_visible_agree t db1 db2 d : agree t db1 db2 -> doc_visible db1 t d = doc_visible db2 t d.
Proof.
  intros Hag. unfold doc_visible, rls.
  destruct (documents db1 !! d) as [r1|] eqn:E1, (documents db2 !! d) as [r2|] eqn:E2; try done.
  - destruct (Z.eqb_spec (dr_tenant r1) t) as [Ht|], (Z.eqb_spec (dr_tenant r2) t) as [Ht'|]; try done.
    + apply (ag_documents _ _ _ Hag) in E1; [|done]. congruence.
    + apply (ag_documents _ _ _ Hag) in E2; [|done]. congruence.
  - destruct (Z.eqb_spec (dr_tenant r1) t) as [Ht|]; [|done].
    apply (ag_documents _ _ _ Hag) in E1; [|done]. congruence.
  - destruct (Z.eqb_spec (dr_tenant r2) t) as [Ht|]; [|done].
    apply (ag_documents _ _ _ Hag) in E2; [|done]. congruence.
Qed.

(** Reading one row through the policy. *)
Lemma own_row_agree {R} (ten : R -> Z) (t : Z) (m1 m2 : gmap Z R) (k : Z) :
  (∀ r, ten r = t -> (m1 !! k = Some r <-> m2 !! k = Some r)) ->
  match m1 !! k with Some r => if rls t (ten r) then Some r else None | None => None end
  = match m2 !! k with Some r => if rls t (ten r) then Some r else None | None => None end.
Proof.
  intros Hag. unfold rls.
  destruct (m1 !! k) as [r1|] eqn:E1.
  - destruct (Z.eqb_spec (ten r1) t) as [Ht|Hn].
    + rewrite (proj1 (Hag r1 Ht) eq_refl). by rewrite (proj2 (Z.eqb_eq _ _)).
    + destruct (m2 !! k) as [r2|] eqn:E2; [|done]. destruct (Z.eqb_spec (ten r2) t) as [Ht|]; [|done].
      pose proof (proj2 (Hag r2 Ht) eq_refl). congruence.
  - destruct (m2 !! k) as [r2|] eqn:E2; [|done]. destruct (Z.eqb_spec (ten r2) t) as [Ht|]; [|done].
    by pose proof (proj2 (Hag r2 Ht) eq_refl).
Qed.

(** The links of the tenant's documents. *)
Lemma doc_tags_agree (t : Z) (db1 db2 : Db) (P : (Z * Z) * DocTag -> bool) :
  agree t db1 db2 ->
  filter (λ kd, doc_visible db1 t kd.1.1 && P kd = true) (doc_tags db1)
  = filter (λ kd, doc_visible db2 t kd.1.1 && P kd = true) (doc_tags db2).
Proof.
  intros Hag. apply map_eq. intros [d tag]. apply option_eq. intros dt.
  rewrite !map_lookup_filter_Some. simpl. rewrite <-(doc_visible_agree _ _ _ _ Hag).
  destruct (doc_visible db1 t d) eqn:Hv; [|naive_solver].
  by rewrite (ag_doc_tags _ _ _ Hag) by done.
Qed.

Lemma ni_dek t : ni t (get_or_create_tenant_dek t).
Proof.
  assert (Hu : ∀ kek dk, ni t (unwrap_tenant_dek kek t dk)).
  { intros kek dk. unfold unwrap_tenant_dek, insert_decrypt_audit_event. apply ni_bind.
    - apply ni_bind; [apply ni_admin_pool|intros _]. intros s1 s2 []. simpl. split; [done|].
      split; simpl; [done..|]. destruct sim_db0. by split.
    - intros _. destruct (kek_unwrap _ _); [case_match|]; auto using ni_ret, ni_throw. }
  unfold get_or_create_tenant_dek. apply ni_bind; [apply ni_asks; by intros ?? []|].
  intros [kek|]; [|apply ni_throw].
  apply ni_bind; [apply ni_admin_pool|intros _].
  apply ni_bind; [apply ni_asks; intros ?? [_ _ _ []]; done|]. intros [dk|]; [done|].
  apply ni_bind; [apply ni_keyed|]. intros dk. apply ni_bind; [|done].
  intros s1 s2 []. unfold stmt. destruct sim_db0. repeat case_decide; simpl; try tauto.
  - split; [done|]. split; simpl; [done..|]. split; simpl; try done. by rewrite !lookup_insert_eq.
  - split; [done|]. split; [done..|]. by split.
Qed.

Lemma agree_rows {R} (P : Z -> R -> bool) (table : Db -> gmap Z R) (ten : R -> Z) t :
  (∀ db1 db2, agree t db1 db2 -> ∀ k r, ten r = t -> (table db1 !! k = Some r <-> table db2 !! k = Some r)) ->
  (∀ k r, P k r = true -> rls t (ten r) = true) ->
  ∀ s1 s2, sim t s1 s2 -> rows_where P (table (st_db s1)) = rows_where P (table (st_db s2)).
Proof.
  intros Hag Hown s1 s2 Hs. apply (rows_where_agree _ (λ r, ten r = t)).
  - intros k r. apply Hag, Hs.
  - intros k r HP%Hown. by apply Z.eqb_eq.
Qed.

Ltac own_rows :=
  intros; repeat match goal with
  | H : (_ && _)%bool = true |- _ => apply andb_true_iff in H as [? ?]
  end; done.

Lemma ni_decrypt_rows t rows : ni t (decrypt_document_rows t rows).
Proof.
  unfold decrypt_document_rows. apply ni_bind; [apply ni_asks; by intros ?? []|]. intros okek.
  case_match; [apply ni_ret|]. apply ni_bind; [apply ni_dek|]. intros. apply ni_ret.
Qed.

Lemma ni_decrypt_row t r : ni t (decrypt_document_row t r).
Proof.
  unfold decrypt_document_row. apply ni_bind; [apply ni_asks; by intros ?? []|]. intros okek.
  case_match; [apply ni_ret|]. case_match; [apply ni_ret|].
  apply ni_bind; [apply ni_dek|]. intros. apply ni_ret.
Qed.

Lemma ni_chunk_content t enc plain : ni t (decrypt_chunk_content t enc plain).
Proof.
  unfold decrypt_chunk_content. destruct enc as [enc|]; [|apply ni_ret].
  apply ni_bind; [apply ni_asks; by intros ?? []|]. intros [kek|]; [|apply ni_ret].
  apply ni_bind; [apply ni_tried, ni_dek|]. intros [dek|e]; apply ni_ret.
Qed.

Lemma sim_live_files t doc s1 s2 :
  sim t s1 s2 -> live_files (st_db s1) t doc = live_files (st_db s2) t doc.
Proof.
  intros Hs. unfold live_files. f_equal. revert s1 s2 Hs.
  apply (agree_rows _ files f_tenant); [by intros ?? []|own_rows].
Qed.

Lemma sim_document_tags t doc s1 s2 :
  sim t s1 s2 -> document_tags (st_db s1) t doc = document_tags (st_db s2) t doc.
Proof.
  intros Hs. unfold document_tags. pose proof (sim_db _ _ _ Hs) as Hag.
  rewrite <-(doc_visible_agree _ _ _ doc Hag). destruct (doc_visible _ t doc) eqn:Hv.
  - unfold rows_where. f_equal. apply map_eq. intros k. apply option_eq. intros r.
    rewrite !map_lookup_filter_Some. simpl. rewrite (ag_doc_tags _ _ _ Hag) by done.
    unfold rls. destruct (Z.eqb_spec (t_tenant r) t) as [Ht|]; [|naive_solver].
    by rewrite (ag_tags _ _ _ Hag k r Ht).
  - unfold rows_where. f_equal. apply map_eq. intros k. apply option_eq. intros r.
    rewrite !map_lookup_filter_Some. simpl. rewrite andb_false_r. naive_solver.
Qed.

Lemma ni_list_documents t : ni t (list_documents t).
Proof.
  apply ni_bind.
  - apply ni_tx, ni_asks. intros s1 s2 Hs. f_equal. revert s1 s2 Hs.
    apply (agree_rows _ documents dr_tenant); [by intros ?? []|own_rows].
  - intros rows. apply ni_bind; [apply ni_decrypt_rows|]. intros. apply ni_of_res.
Qed.

Lemma ni_list_files t : ni t (list_files t).
Proof.
  apply ni_bind; [|intros; apply ni_of_res]. apply ni_tx, ni_asks. intros s1 s2 Hs. f_equal.
  revert s1 s2 Hs. apply (agree_rows _ files f_tenant); [by intros ?? []|own_rows].
Qed.

Lemma ni_list_chunks t : ni t (list_chunks t).
Proof.
  apply ni_bind.
  - apply ni_tx, ni_asks. intros s1 s2 Hs. f_equal. revert s1 s2 Hs.
    apply (agree_rows _ chunks c_tenant); [by intros ?? []|own_rows].
  - intros rows. apply ni_bind; [apply ni_asks; by intros ?? []|]. intros okek.
    apply ni_bind; [|intros; apply ni_ret]. case_match; [|apply ni_ret].
    apply ni_bind; [apply ni_dek|]. intros. apply ni_ret.
Qed.

Lemma ni_own_document t id :
  ni t (tx (asks (λ s, match documents (st_db s) !! id with
    | Some r => if rls t (dr_tenant r) then Some r else None | None => None end))).
Proof. apply ni_tx, ni_asks. intros s1 s2 [_ _ _ []]. apply own_row_agree. auto. Qed.

Lemma ni_get_document t id : ni t (get_document t id).
Proof.
  apply ni_bind; [apply ni_own_document|]. intros [r|]; [|apply ni_ret].
  apply ni_bind; [apply ni_decrypt_row|]. intros. apply ni_bind; [apply ni_of_res|].
  intros. apply ni_ret.
Qed.

Lemma ni_detail t id : ni t (get_document_detail t id).
Proof.
  apply ni_bind.
  - apply ni_tx, ni_asks. intros s1 s2 Hs. rewrite (sim_live_files t id s1 s2 Hs).
    rewrite (sim_document_tags t id s1 s2 Hs). do 2 f_equal. destruct Hs as [_ _ _ []].
    apply own_row_agree. auto.
  - intros [[[r|] frows] trows]; [|apply ni_ret]. apply ni_bind; [apply ni_decrypt_row|]. intros.
    apply ni_bind; [apply ni_of_res|]. intros. apply ni_bind; [apply ni_of_res|]. intros. apply ni_ret.
Qed.

Lemma ni_tag_lists t : ni t (list_tags t) ∧ ni t (find_similar_tags t) ∧ ∀ name, ni t (find_tag_by_name t name).
Proof.
  assert (E : ∀ P : Z -> TagRow -> bool, (∀ k r, P k r = true -> rls t (t_tenant r) = true) ->
    ∀ s1 s2, sim t s1 s2 -> rows_where P (tags (st_db s1)) = rows_where P (tags (st_db s2))).
  { intros P HP. apply (agree_rows _ tags t_tenant); [by intros ?? []|done]. }
  split_and!; [| |intros name]; apply ni_tx, ni_asks; intros s1 s2 Hs; unfold find_tag;
    rewrite (λ P H, E P H s1 s2 Hs); try done; own_rows.
Qed.

Lemma ni_aliases t : ni t (list_tag_aliases t) ∧ ∀ a, ni t (lookup_alias t a).
Proof.
  split; [|intros a]; apply ni_tx, ni_asks; intros s1 s2 [_ _ _ []]; [|done].
  do 3 f_equal. apply map_eq. intros [u a]. apply option_eq. intros tag.
  rewrite !map_lookup_filter_Some. simpl. unfold rls.
  destruct (Z.eqb_spec u t) as [->|]; [|naive_solver]. by rewrite ag_aliases0.
Qed.

Lemma ni_links t : ni t (list_document_tags t) ∧ ∀ id, ni t (get_locked_document_tags t id).
Proof.
  split; [|intros id]; apply ni_tx, ni_asks; intros s1 s2 [_ _ _ Hag]; do 3 f_equal.
  - pose proof (doc_tags_agree t _ _ (λ _, true) Hag) as E.
    assert (Hf : ∀ db, filter (λ kd : (Z * Z) * DocTag, doc_visible db t kd.1.1 = true) (doc_tags db)
      = filter (λ kd : (Z * Z) * DocTag, doc_visible db t kd.1.1 && true = true) (doc_tags db)).
    { intros db. apply map_filter_ext. intros i x _. simpl. by rewrite andb_true_r. }
    by rewrite !Hf.
  - pose proof (doc_tags_agree t _ _ (λ kd, (kd.1.1 =? id) && dt_locked kd.2) Hag) as E.
    assert (Hf : ∀ db, filter (λ kd : (Z * Z) * DocTag, own_doc_tag db t id kd.1 && dt_locked kd.2 = true)
        (doc_tags db)
      = filter (λ kd : (Z * Z) * DocTag, doc_visible db t kd.1.1 && ((kd.1.1 =? id) && dt_locked kd.2) = true)
        (doc_tags db)).
    { intros db. apply map_filter_ext. intros i x _. unfold own_doc_tag. simpl.
      rewrite (andb_comm (i.1 =? id)). by rewrite andb_assoc. }
    by rewrite !Hf.
Qed.

Lemma ni_read t q : ni t (store_read t q).
Proof.
  destruct (ni_tag_lists t) as (?&?&?), (ni_aliases t), (ni_links t).
  destruct q; apply ni_bind; try (intros; apply ni_ret); auto using ni_list_documents, ni_list_files,
    ni_list_chunks, ni_get_document, ni_detail, ni_chunk_content.
  - apply ni_bind; [|intros; apply ni_of_res]. apply ni_tx, ni_asks. intros. by apply sim_live_files.
  - apply ni_tx, ni_asks. intros. by rewrite (sim_document_tags t id s1 s2).
  - apply ni_bind; [|intros [r|]; [apply ni_bind; [apply ni_of_res|intros; apply ni_ret]|apply ni_ret]].
    apply ni_tx, ni_asks. intros s1 s2 [_ _ _ []]. apply own_row_agree. auto.
Qed.

(** C7. What a tenant reads depends on its own rows alone: on two databases
    that agree on the tenant's documents, files, chunks, tags, aliases, links
    and data key, whatever else they hold, every query of the store gives the
    same reply, errors included. *)
Theorem reads_own_rows_only (t : Z) (q : store_query) (s1 s2 : Store) :
  sim t s1 s2 -> (store_read t q s1).1 = (store_read t q s2).1.
Proof. intros Hs. by apply ni_read. Qed.
End reads.
