(* ===== verification/StoreIngest.v ===== *)
(** * The atomic ingest

    What [transactional_ingest] leaves in the tables: one ready document, its
    live files and chunks exactly those of the upload, the user's and locked
    tags kept.  An identical upload finds the same document again. *)

From stdpp Require Import base gmap list strings.
From Stdlib Require Import ZArith Lia Strings.Byte.
From S2P Require Import Prelude StableSort FloatModel Text Json Role Blob Envelope ColumnCrypt Schema.
From S2P Require Import PgStore StoreInvariant StoreReads.
Open Scope Z_scope.

Section ingest.
Context `{Aead} `{QueryBuilder}.

(** A successful [nextval] and statement. *)
Lemma next_ok {A} get bump (f : Z -> Db -> result (A * Db) DbError) s a s' :
  (id ← nextval get bump; stmt (f id)) s = (Ok a, s') ->
  ∃ db, f (get (seqs (st_db s))) (with_seqs bump (st_db s)) = Ok (a, db) ∧ s' = set_db s db.
Proof.
  intros (id & s1 & Hn & Hs)%dbind_ok. unfold nextval in Hn. injection Hn as <- <-.
  apply stmt_ok in Hs as (db & Hf & ->). by exists db.
Qed.

(** Programs that do not touch the tables. *)
Definition quiet {A} (m : dbm A) : Prop := ∀ s, st_db (m s).2 = st_db s.

Lemma quiet_ret {A} (a : A) : quiet (mret a).
Proof. done. Qed.
Lemma quiet_bind {A B} (m : dbm A) (k : A -> dbm B) : quiet m -> (∀ a, quiet (k a)) -> quiet (m ≫= k).
Proof.
  intros Hm Hk s. unfold mbind, dbm_bind. specialize (Hm s).
  destruct (m s) as [[a|e] s1]; simpl in *; [|done]. by rewrite Hk.
Qed.
Lemma quiet_keyed {A} (m : prog entropy A) : quiet (keyed m).
Proof. intros s. unfold keyed. by destruct (m (st_entropy s)) as [[?|?] ?]. Qed.
Lemma quiet_encrypt_with dek s : quiet (encrypt_with dek s).
Proof. destruct dek; simpl; [|done]. apply quiet_bind; [apply quiet_keyed|done]. Qed.
Lemma quiet_encrypt_field dek s : quiet (encrypt_field dek s).
Proof. destruct s; simpl; [apply quiet_encrypt_with|done]. Qed.
Lemma quiet_encrypt_chunks dek cs : quiet (encrypt_chunks dek cs).
Proof.
  induction cs as [|c cs IH]; simpl; [done|]. apply quiet_bind; [apply quiet_encrypt_with|].
  intros. apply quiet_bind; [done|]. by intros.
Qed.

Lemma quiet_ok {A} (m : dbm A) s a s' : quiet m -> m s = (Ok a, s') -> st_db s' = st_db s.
Proof. intros Hq E. specialize (Hq s). by rewrite E in Hq. Qed.

(** ** Files *)

Lemma upsert_file_row_ok t doc rec s fid s' :
  db_ok (st_db s) -> upsert_file_row t doc rec s = (Ok fid, s') ->
  fr_tenant rec = t ∧ files (st_db s') = <[fid := file_row doc rec]> (files (st_db s)) ∧
  (∀ k r, files (st_db s) !! k = Some r -> file_key r = file_key (file_row doc rec) <-> k = fid) ∧
  documents (st_db s') = documents (st_db s) ∧ chunks (st_db s') = chunks (st_db s) ∧
  doc_tags (st_db s') = doc_tags (st_db s) ∧ tags (st_db s') = tags (st_db s).
Proof.
  intros Hok (db & E & ->)%next_ok. unfold rls in E.
  destruct (Z.eqb_spec (fr_tenant rec) t) as [Ht|]; [|done]. simpl in E.
  destruct (find_file _ _) as [fid'|] eqn:Hf.
  - injection E as <- <-. apply find_file_Some in Hf as (r & Hr & Hk). simpl in Hr.
    split_and!; try done. intros k r' Hr'. split; [|by intros ->; congruence].
    intros Hk'. eapply (ok_unique_files _ Hok); [done..|congruence].
  - case_decide; [|done]. injection E as <- <-. split_and!; try done.
    intros k r' Hr'. split; [intros Hk'; by eapply find_file_None in Hk'|].
    intros ->. by rewrite fresh_file in Hr'.
Qed.

Lemma upsert_files_ok t doc recs s fids s' :
  db_ok (st_db s) -> Forall rec_ok recs -> NoDup (fr_sha256 <$> recs) ->
  upsert_files t doc recs s = (Ok fids, s') ->
  Forall (λ rec, fr_tenant rec = t) recs ∧ NoDup fids ∧
  Forall2 (λ fid rec, files (st_db s') !! fid = Some (file_row doc rec)) fids recs ∧
  (∀ k, k ∉ fids -> files (st_db s') !! k = files (st_db s) !! k) ∧
  (∀ fid r, fid ∈ fids -> files (st_db s) !! fid = Some r ->
     f_tenant r = t ∧ f_document r = doc ∧ f_sha256 r ∈ (fr_sha256 <$> recs)) ∧
  (∀ k r, files (st_db s) !! k = Some r -> f_tenant r = t -> f_document r = doc ->
     f_sha256 r ∈ (fr_sha256 <$> recs) -> k ∈ fids) ∧
  documents (st_db s') = documents (st_db s) ∧ chunks (st_db s') = chunks (st_db s) ∧
  doc_tags (st_db s') = doc_tags (st_db s) ∧ tags (st_db s') = tags (st_db s).
Proof.
  revert s fids s'. induction recs as [|rec recs IH]; intros s fids s' Hok Hrec Hnd E.
  - injection E as <- <-. split_and!; try done; try constructor; set_solver.
  - simpl in E. apply dbind_ok in E as (fid & s1 & Hu & E).
    apply dbind_ok in E as (fids' & s2 & Hus & [= <- <-]).
    apply Forall_cons in Hrec as [Hr Hrec]. csimpl in Hnd. apply NoDup_cons in Hnd as [Hn Hnd].
    assert (Hok1 : db_ok (st_db s1)).
    { pose proof (safe_upsert_file_row t doc rec Hr s Hok) as [Hs1 _]. by rewrite Hu in Hs1. }
    apply upsert_file_row_ok in Hu as (Ht & Hf & Hkey & Hd & Hc & Hdt & Htag); [|done].
    destruct (IH s1 fids' s2 Hok1 Hrec Hnd Hus) as (Hts & Hndf & Hall & Hother & Hown & Hback & Hd' & Hc' & Hdt' & Htag').
    assert (Hrow : files (st_db s1) !! fid = Some (file_row doc rec)).
    { rewrite Hf. apply lookup_insert_eq. }
    assert (Hnew : fid ∉ fids').
    { intros Hin. destruct (Hown fid _ Hin Hrow) as (_ & _ & Hsha). done. }
    split_and!.
    + by constructor.
    + by constructor.
    + constructor; [|done]. by rewrite Hother.
    + intros k Hk. rewrite Hother by set_solver. rewrite Hf. apply lookup_insert_ne. set_solver.
    + intros k r Hin Hr'. apply elem_of_cons in Hin as [->|Hin].
      * pose proof (proj2 (Hkey fid r Hr') eq_refl) as Hk. unfold file_key in Hk. injection Hk as -> -> ->.
        simpl. set_solver.
      * destruct (decide (k = fid)) as [->|Hne]; [done|].
        destruct (Hown k r Hin) as (?&?&?); [rewrite Hf; by rewrite lookup_insert_ne|]. set_solver.
    + intros k r Hr' Ht' Hd'' Hin. csimpl in Hin. apply elem_of_cons in Hin as [Hsha|Hin].
      * assert (k = fid) as ->; [|set_solver]. apply (Hkey k r Hr'). unfold file_key. simpl. congruence.
      * destruct (decide (k = fid)) as [->|Hne]; [set_solver|].
        apply elem_of_cons. right. eapply Hback; eauto. rewrite Hf. by rewrite lookup_insert_ne.
    + congruence.
    + congruence.
    + congruence.
    + congruence.
Qed.

(** ** Chunks *)

(** A chunk row without its ciphertext. *)
Definition plain (c : ChunkRec) : ChunkRec :=
  mkChunkRec (c_tenant c) (c_document c) (c_file c) (c_page_no c) (c_idx c) (c_content c) None
    (c_ts_offset c) (c_embedding c) (c_superseded_at c).

(** The tables a chunk statement leaves alone. *)
Definition chunks_only (s s' : Store) : Prop :=
  documents (st_db s') = documents (st_db s) ∧ files (st_db s') = files (st_db s) ∧
  doc_tags (st_db s') = doc_tags (st_db s) ∧ tags (st_db s') = tags (st_db s).

Lemma chunks_only_trans s1 s2 s3 : chunks_only s1 s2 -> chunks_only s2 s3 -> chunks_only s1 s3.
Proof. unfold chunks_only. intros (?&?&?&?) (?&?&?&?). split_and!; congruence. Qed.

Lemma encrypt_chunks_fst dek cs s rows s' :
  encrypt_chunks dek cs s = (Ok rows, s') -> rows.*1 = cs.
Proof.
  revert s rows s'. induction cs as [|c cs IH]; intros s rows s' E; simpl in E.
  - by injection E as <- <-.
  - apply dbind_ok in E as (enc & s1 & _ & E). apply dbind_ok in E as (rest & s2 & Hr & [= <- <-]).
    csimpl. f_equal. by eapply IH.
Qed.

Lemma insert_chunks_ok t doc fid rows s u s' :
  db_ok (st_db s) -> insert_chunks t (λ _, doc) fid rows s = (Ok u, s') ->
  ∃ new : list (Z * ChunkRec),
    chunks (st_db s') = list_to_map new ∪ chunks (st_db s) ∧ NoDup new.*1 ∧
    Forall (λ k, sq_chunks (seqs (st_db s)) <= k) new.*1 ∧
    new.*2 = (λ ce, chunk_row doc fid ce.1 ce.2) <$> rows ∧
    Forall (λ ce, ch_tenant ce.1 = t) rows ∧ chunks_only s s'.
Proof.
  revert s. induction rows as [|[c enc] rows IH]; intros s Hok E; simpl in E.
  - injection E as _ <-. exists []. split_and!; try constructor; simpl; [by rewrite map_empty_union| |]; done.
  - apply dbind_ok in E as ([] & s1 & Hi & E).
    pose proof (safe_insert_chunk t doc fid c enc s Hok) as [Hok1 Hfr]. rewrite Hi in Hok1, Hfr. simpl in *.
    apply next_ok in Hi as (db & Hi & ->). destruct (vector_ok _); [|done]. simpl in Hi. unfold rls in Hi.
    destruct (Z.eqb_spec (ch_tenant c) t) as [Ht|]; [|done]. simpl in Hi. case_decide; [|done].
    injection Hi as <-. destruct (IH _ Hok1 E) as (new & Hc & Hnd & Hge & Hrows & Hts & Hon). simpl in *.
    exists ((sq_chunks (seqs (st_db s)), chunk_row doc fid c enc) :: new). split_and!.
    + rewrite Hc. simpl. rewrite <-insert_union_l.
      rewrite insert_union_r; [done|].
      apply not_elem_of_list_to_map_1. intros Hin. rewrite Forall_forall in Hge.
      specialize (Hge _ Hin). lia.
    + csimpl. constructor; [|done]. intros Hin. rewrite Forall_forall in Hge. specialize (Hge _ Hin). lia.
    + csimpl. constructor; [lia|]. eapply Forall_impl; [exact Hge|]. simpl. lia.
    + csimpl. by rewrite Hrows.
    + by constructor.
    + destruct Hon as (?&?&?&?). by split_and!.
Qed.

Definition own_live (t : Z) (fids : list Z) (_ : Z) (c : ChunkRec) : bool :=
  rls t (c_tenant c) && bool_decide (c_file c ∈ fids) && live_chunk c.

Definition upload_rows (doc : Z) (fs : list (Z * list Chunk)) : list ChunkRec :=
  fcs ← fs; (λ c, chunk_row doc fcs.1 c None) <$> fcs.2.

Lemma replace_chunks_ok t doc fid dek cs s u s' :
  db_ok (st_db s) -> replace_chunks t (λ _, doc) fid dek cs s = (Ok u, s') ->
  ∃ new : list (Z * ChunkRec),
    chunks (st_db s') = list_to_map new ∪ delete_where (own_live t [fid]) (chunks (st_db s)) ∧
    NoDup new.*1 ∧ Forall (λ k, sq_chunks (seqs (st_db s)) <= k) new.*1 ∧
    plain <$> new.*2 = upload_rows doc [(fid, cs)] ∧
    Forall (λ c, c_tenant c = t) new.*2 ∧ chunks_only s s'.
Proof.
  intros Hok. unfold replace_chunks. intros ([] & s1 & Hd & E)%dbind_ok.
  pose proof (safe_delete_live_chunks t fid s Hok) as [Hok1 _]. rewrite Hd in Hok1. simpl in Hok1.
  unfold delete_live_chunks in Hd. apply stmt_ok in Hd as (db & [= <-] & ->). apply dbind_ok in E as (rows & s2 & He & Hi).
  pose proof (quiet_ok _ _ _ _ (quiet_encrypt_chunks dek cs) He) as Hdb. simpl in Hdb.
  rewrite <-Hdb in Hok1. apply insert_chunks_ok in Hi as (new & Hc & Hnd & Hge & Hrows & Hts & Hon); [|done].
  rewrite Hdb in Hc, Hge. simpl in Hc, Hge. exists new. split_and!; try done.
  - rewrite Hc. f_equal. unfold delete_where. apply map_filter_ext. intros k c _. simpl.
    unfold own_live. assert (bool_decide (c_file c ∈ [fid]) = (c_file c =? fid)) as ->; [|done].
    apply eq_true_iff_eq. rewrite bool_decide_eq_true, Z.eqb_eq. set_solver.
  - rewrite Hrows. apply encrypt_chunks_fst in He as <-. unfold upload_rows. csimpl.
    rewrite app_nil_r, <-!list_fmap_compose. by apply list_fmap_ext.
  - rewrite Hrows, Forall_fmap. exact Hts.
  - unfold chunks_only in Hon. by rewrite Hdb in Hon.
Qed.

(** Deleting the live chunks of other files commutes with adding new rows. *)
Lemma delete_new t fids (new : list (Z * ChunkRec)) (m : gmap Z ChunkRec) :
  NoDup new.*1 -> Forall (λ c, c_file c ∉ fids) new.*2 ->
  delete_where (own_live t fids) (list_to_map new ∪ m) = list_to_map new ∪ delete_where (own_live t fids) m.
Proof.
  intros Hnd Hf. apply map_eq. intros k. apply option_eq. intros c.
  rewrite lookup_delete_where, !lookup_union_Some_raw, lookup_delete_where.
  assert (Hn : (list_to_map new : gmap Z ChunkRec) !! k = Some c -> own_live t fids k c = false).
  { intros Hk%elem_of_list_to_map_2. rewrite Forall_forall in Hf. unfold own_live.
    rewrite (bool_decide_eq_false_2 (c_file c ∈ fids)); [by rewrite andb_false_r|].
    apply Hf. by apply (list_elem_of_fmap_2 snd) in Hk. }
  naive_solver.
Qed.

Lemma delete_twice t fid fids (m : gmap Z ChunkRec) :
  delete_where (own_live t fids) (delete_where (own_live t [fid]) m) = delete_where (own_live t (fid :: fids)) m.
Proof.
  apply map_eq. intros k. apply option_eq. intros c. rewrite !lookup_delete_where. unfold own_live.
  destruct (rls t (c_tenant c)); simpl; [|naive_solver].
  destruct (live_chunk c); rewrite ?andb_true_r, ?andb_false_r; [|naive_solver].
  rewrite !bool_decide_eq_false. set_solver.
Qed.

Lemma plain_files doc fs new :
  plain <$> new = upload_rows doc fs -> Forall (λ c, c_file c ∈ fs.*1) new.
Proof.
  intros E. rewrite Forall_forall. intros c Hc.
  assert (Hp : plain c ∈ upload_rows doc fs) by (rewrite <-E; by apply list_elem_of_fmap_2).
  unfold upload_rows in Hp. apply list_elem_of_bind in Hp as ([fid cs] & Hp & Hin).
  apply list_elem_of_fmap in Hp as (c' & Hp & _). apply (f_equal c_file) in Hp. simpl in Hp.
  rewrite Hp. by apply (list_elem_of_fmap_2 fst) in Hin.
Qed.

Lemma replace_all_ok t doc dek fs s u s' :
  db_ok (st_db s) -> NoDup fs.*1 -> replace_all_chunks t doc dek fs s = (Ok u, s') ->
  ∃ new : list (Z * ChunkRec),
    chunks (st_db s') = list_to_map new ∪ delete_where (own_live t fs.*1) (chunks (st_db s)) ∧
    NoDup new.*1 ∧ Forall (λ k, sq_chunks (seqs (st_db s)) <= k) new.*1 ∧
    plain <$> new.*2 = upload_rows doc fs ∧
    Forall (λ c, c_tenant c = t) new.*2 ∧ chunks_only s s'.
Proof.
  revert s. induction fs as [|[fid cs] fs IH]; intros s Hok Hnd E; simpl in E.
  - injection E as _ <-. exists []. split_and!; try constructor; try done. simpl.
    rewrite map_empty_union. unfold delete_where. symmetry. apply map_filter_id. intros k c _. simpl.
    unfold own_live. rewrite (bool_decide_eq_false_2 (c_file c ∈ [])) by set_solver.
    by rewrite andb_false_r.
  - apply dbind_ok in E as ([] & s1 & Hr & E). csimpl in Hnd. apply NoDup_cons in Hnd as [Hfid Hnd].
    pose proof (safe_replace_chunks t (λ _, doc) fid dek cs s Hok) as [Hok1 Hfr].
    rewrite Hr in Hok1, Hfr. simpl in Hok1, Hfr. pose proof (fr_seqs _ _ _ Hfr) as (_ & _ & Hseq & _).
    apply replace_chunks_ok in Hr as (new1 & Hc1 & Hnd1 & Hge1 & Hrows1 & Hts1 & Hon1); [|done].
    destruct (IH s1 Hok1 Hnd E) as (new2 & Hc2 & Hnd2 & Hge2 & Hrows2 & Hts2 & Hon2).
    assert (Hlt : ∀ k, k ∈ new1.*1 -> k < sq_chunks (seqs (st_db s1))).
    { intros k Hk. apply list_elem_of_fmap in Hk as ([k' c] & -> & Hin).
      assert (chunks (st_db s1) !! k' = Some c) as Hk.
      { rewrite Hc1. apply lookup_union_Some_l. by apply elem_of_list_to_map_1. }
      by apply (ok_chunks _ Hok1) in Hk as [? _]. }
    assert (Hdis : ∀ k, k ∈ new1.*1 -> k ∉ new2.*1).
    { intros k H1 H2. rewrite Forall_forall in Hge2. apply Hlt in H1. apply Hge2 in H2. lia. }
    exists (new1 ++ new2). rewrite !fmap_app. split_and!.
    + rewrite Hc2, Hc1, delete_new, delete_twice; [|done|].
      * rewrite list_to_map_app, !map_union_assoc. f_equal. apply map_union_comm.
        apply map_disjoint_spec. intros k c c' H1 H2.
        apply elem_of_list_to_map_2, (list_elem_of_fmap_2 fst) in H1, H2. by eapply Hdis.
      * apply plain_files in Hrows1. eapply Forall_impl; [exact Hrows1|]. simpl. set_solver.
    + apply NoDup_app. auto.
    + apply Forall_app. split; [done|]. eapply Forall_impl; [exact Hge2|]. simpl. lia.
    + rewrite Hrows1, Hrows2. unfold upload_rows. csimpl. by rewrite app_nil_r.
    + by apply Forall_app.
    + by eapply chunks_only_trans.
Qed.

(** ** Keys, document and tags *)

(** Fetching or creating a key leaves the document tables alone. *)
Definition core_same (s s' : Store) : Prop :=
  chunks_only s s' ∧ chunks (st_db s') = chunks (st_db s) ∧ seqs (st_db s') = seqs (st_db s) ∧
  st_kek s' = st_kek s.

Lemma core_same_refl s : core_same s s.
Proof. done. Qed.
Lemma core_same_trans s1 s2 s3 : core_same s1 s2 -> core_same s2 s3 -> core_same s1 s3.
Proof.
  intros (?&?&?&?) (?&?&?&?). split_and!; [by eapply chunks_only_trans|congruence..].
Qed.

Definition keeps {A} (m : dbm A) : Prop := ∀ s, core_same s (m s).2.

Lemma tx_keeps_bind {A B} (m : dbm A) (k : A -> dbm B) : keeps m -> (∀ a, keeps (k a)) -> keeps (m ≫= k).
Proof.
  intros Hm Hk s. unfold mbind, dbm_bind. specialize (Hm s).
  destruct (m s) as [[a|e] s1]; simpl in *; [|done]. eapply core_same_trans; [done|apply Hk].
Qed.
Lemma tx_keeps_ret {A} (a : A) : keeps (mret a).
Proof. done. Qed.
Lemma keeps_throw {A} e : keeps (throw (A:=A) e).
Proof. done. Qed.
Lemma keeps_asks {A} (f : Store -> A) : keeps (asks f).
Proof. done. Qed.
Lemma keeps_keyed {A} (m : prog entropy A) : keeps (keyed m).
Proof. intros s. unfold keyed. by destruct (m (st_entropy s)) as [[?|?] ?]. Qed.

Lemma keeps_dek t : keeps (get_or_create_tenant_dek t).
Proof.
  assert (Ha : keeps admin_pool) by (intros s; unfold admin_pool; by destruct (st_connected s)).
  assert (Hu : ∀ kek dk, keeps (unwrap_tenant_dek kek t dk)).
  { intros kek dk. unfold unwrap_tenant_dek, insert_decrypt_audit_event.
    apply tx_keeps_bind; [apply tx_keeps_bind; [done|by intros _ s]|]. intros _.
    destruct (kek_unwrap _ _); [case_match|]; auto using tx_keeps_ret, keeps_throw. }
  apply tx_keeps_bind; [done|]. intros [kek|]; [|done]. apply tx_keeps_bind; [done|intros _].
  apply tx_keeps_bind; [done|]. intros [dk|]; [done|]. apply tx_keeps_bind; [apply keeps_keyed|]. intros dk.
  apply tx_keeps_bind; [|done]. intros s. unfold stmt. by case_decide.
Qed.

Lemma keeps_write_dek t : keeps (write_dek t).
Proof.
  apply tx_keeps_bind; [done|]. intros [kek|]; [|done]. apply tx_keeps_bind; [apply keeps_dek|done].
Qed.
Lemma keeps_encrypt_with dek s : keeps (encrypt_with dek s).
Proof. destruct dek; simpl; [|done]. apply tx_keeps_bind; [apply keeps_keyed|done]. Qed.
Lemma keeps_encrypt_field dek s : keeps (encrypt_field dek s).
Proof. destruct s; simpl; [apply keeps_encrypt_with|done]. Qed.

Lemma keeps_ok {A} (m : dbm A) s a s' : keeps m -> m s = (Ok a, s') -> core_same s s'.
Proof. intros Hk E. specialize (Hk s). by rewrite E in Hk. Qed.

(** The columns an ingest writes. *)
Record ingested_row (doc : Document) (se ue : option bytes) (r : DocumentRow) : Prop := {
  ir_tenant : dr_tenant r = doc_tenant doc;
  ir_title : dr_title r = doc_title doc;
  ir_summary : dr_summary r = doc_summary doc;
  ir_summary_enc : dr_summary_enc r = se;
  ir_note : dr_user_note r = doc_user_note doc;
  ir_note_enc : dr_user_note_enc r = ue;
  ir_kind : dr_kind r = as_str (doc_kind doc);
  ir_meta : dr_meta r = doc_meta doc;
  ir_pages : dr_page_count r = doc_page_count doc;
  ir_status : dr_status r = as_str Ready;
}.

(** The columns an ingest leaves to their owners: the source settings, the
    routing choice, the creation time and the tenant. *)
Definition kept_columns (old : option DocumentRow) (r : DocumentRow) : Prop :=
  match old with
  | Some r0 => dr_sync r = dr_sync r0 ∧ dr_local_only r = dr_local_only r0 ∧ dr_created_at r = dr_created_at r0 ∧
      dr_tenant r = dr_tenant r0
  | None => dr_sync r = mkSync None None None None None 1 0 ∧ dr_local_only r = false
  end.

Lemma document_phase_ok now doc target se ue s did s' :
  db_ok (st_db s) ->
  (if target >? 0 then update_document (doc_tenant doc) target doc (as_str Ready) se ue
   else insert_document (doc_tenant doc) now doc (as_str Ready) se ue) s = (Ok did, s') ->
  (∃ r, ingested_row doc se ue r ∧ documents (st_db s') = <[did := r]> (documents (st_db s)) ∧
     kept_columns (documents (st_db s) !! did) r) ∧
  (if target >? 0 then did = target else documents (st_db s) !! did = None ∧ did = sq_documents (seqs (st_db s))) ∧
  files (st_db s') = files (st_db s) ∧ chunks (st_db s') = chunks (st_db s) ∧
  doc_tags (st_db s') = doc_tags (st_db s) ∧ tags (st_db s') = tags (st_db s).
Proof.
  intros Hok. destruct (target >? 0).
  - unfold update_document. intros (db & E & ->)%stmt_ok. unfold rls in E.
    destruct (documents _ !! target) as [r|] eqn:Hr; [|done].
    destruct (dr_tenant r =? _) eqn:Ht; [|done]. apply Z.eqb_eq in Ht. rewrite Z.eqb_refl in E. simpl in E.
    destruct (kind_check _); [|done]. injection E as <- <-. split_and!; try done.
    eexists. split; [|split; [done|]]; [by split|]. rewrite Hr. by split_and!.
  - unfold insert_document. intros (db & E & ->)%next_ok. unfold rls in E. rewrite Z.eqb_refl in E. simpl in E.
    destruct (kind_check _); [|done]. simpl in E. case_decide; [|done]. injection E as <- <-.
    split_and!; try done; [|by apply fresh_document]. eexists. split; [|split; [done|]]; [by split|]. by rewrite fresh_document.
Qed.

(** The tags of the document after the clearing and the insertion. *)
Definition tags_after (tag_ids : list Z) (tag : Z) (old : option DocTag) : option DocTag :=
  let fresh := if decide (tag ∈ tag_ids) then Some (mkDocTag TsLlm false) else None in
  match old with
  | Some dt => if unlocked_llm dt then fresh else Some dt
  | None => fresh
  end.

Lemma link_new_exact (doc : Z) (dt : DocTag) (tl : list Z) (m : gmap (Z * Z) DocTag) (tag : Z) :
  foldl (λ m tag, if decide (is_Some (m !! (doc, tag))) then m else <[(doc, tag) := dt]> m) m tl !! (doc, tag)
    = match m !! (doc, tag) with
      | Some d => Some d
      | None => if decide (tag ∈ tl) then Some dt else None
      end.
Proof.
  revert m. induction tl as [|tag' tl IH]; intros m; cbn [foldl].
  - destruct (m !! _); [done|]. case_decide; [set_solver|done].
  - rewrite IH. destruct (decide (is_Some (m !! (doc, tag')))) as [Hs|Hs].
    + destruct (m !! (doc, tag)) eqn:E; [done|].
      assert (tag <> tag') by (intros ->; by rewrite E in Hs; destruct Hs).
      repeat case_decide; set_solver.
    + destruct (decide (tag = tag')) as [->|].
      * rewrite lookup_insert_eq. destruct (m !! (doc, tag')) eqn:E; [destruct Hs; eauto|].
        rewrite decide_True by set_solver. done.
      * rewrite lookup_insert_ne by congruence. destruct (m !! (doc, tag)); [done|].
        repeat case_decide; set_solver.
Qed.

Lemma tags_phase_ok t doc tag_ids s u s1 u' s' :
  doc_visible (st_db s) t doc = true ->
  stmt (clear_llm t doc) s = (Ok u, s1) -> insert_llm_tags t doc tag_ids s1 = (Ok u', s') ->
  (∀ tag, doc_tags (st_db s') !! (doc, tag) = tags_after tag_ids tag (doc_tags (st_db s) !! (doc, tag))) ∧
  documents (st_db s') = documents (st_db s) ∧ files (st_db s') = files (st_db s) ∧
  chunks (st_db s') = chunks (st_db s) ∧ seqs (st_db s') = seqs (st_db s).
Proof.
  intros Hv (db1 & [= <- <-] & ->)%stmt_ok Hi.
  assert (Hclear : ∀ tag, doc_tags (st_db (set_db s (with_doc_tags (λ _, filter (λ kd : (Z * Z) * DocTag,
      negb (own_doc_tag (st_db s) t doc kd.1 && unlocked_llm kd.2) = true) (doc_tags (st_db s))) (st_db s))))
      !! (doc, tag)
    = match doc_tags (st_db s) !! (doc, tag) with
      | Some dt => if unlocked_llm dt then None else Some dt
      | None => None
      end).
  { intros tag. simpl. rewrite map_lookup_filter. destruct (doc_tags (st_db s) !! (doc, tag)) as [dt|]; [|done].
    simpl. unfold own_doc_tag. simpl. rewrite Hv, Z.eqb_refl. simpl.
    destruct (unlocked_llm dt); simpl; done. }
  set (s1 := set_db _ _) in *. unfold insert_llm_tags in Hi. destruct tag_ids as [|t0 tl].
  - destruct empty_values_ok; [|done]. injection Hi as _ <-. by split_and!.
  - apply stmt_ok in Hi as (db & E & ->). destruct (doc_visible _ _ _); [|done].
    destruct (forallb _ _); [|done]. injection E as _ <-. split_and!; try done.
    intros tag. etrans; [apply (link_new_exact doc _ (t0 :: tl))|]. rewrite Hclear. unfold tags_after.
    destruct (doc_tags (st_db s) !! _) as [dt|]; [|done]. by destruct (unlocked_llm dt).
Qed.

(** ** The whole transaction *)

Definition doc_files (t d : Z) (_ : Z) (r : FileRow) : bool :=
  rls t (f_tenant r) && (f_document r =? d) && live_file r.
Definition doc_chunks (t d : Z) (_ : Z) (c : ChunkRec) : bool :=
  rls t (c_tenant c) && (c_document c =? d) && live_chunk c.

Definition superseded (now : Z) (r : FileRow) : FileRow :=
  mkFileRow (f_tenant r) (f_document r) (f_page_no r) (f_page_label r) (f_sha256 r)
    (f_blob_key r) (f_path r) (f_mime r) (f_size_bytes r) (f_meta r) (f_status r)
    (f_ingested_at r) (Some now).

Definition superseded_chunk (now : Z) (c : ChunkRec) : ChunkRec :=
  mkChunkRec (c_tenant c) (c_document c) (c_file c) (c_page_no c) (c_idx c) (c_content c)
    (c_content_enc c) (c_ts_offset c) (c_embedding c) (Some now).

(** What an upload to the files [fids] leaves of an earlier chunk: the live
    chunks of these files are replaced, the document's other live ones are
    superseded, all others stay. *)
Definition chunk_after (t now did : Z) (fids : list Z) (k : Z) (c : ChunkRec) : option ChunkRec :=
  if own_live t fids k c then None
  else Some (if doc_chunks t did k c then superseded_chunk now c else c).

(** What is known of a successful run, table by table. *)
Record ingest_done (now : Z) (doc : Document) (recs : list FileRecord) (tag_ids : list Z)
    (fcs : list (list Chunk)) (se ue : option bytes) (db db' : Db) (did : Z) (fids : list Z) : Prop := {
  id_row : ∃ r, ingested_row doc se ue r ∧ documents db' = <[did := r]> (documents db) ∧ kept_columns (documents db !! did) r;
  id_target : let target := target_document db doc recs in
    if target >? 0 then did = target else documents db !! did = None ∧ did = sq_documents (seqs db);
  id_tenant : Forall (λ rec, fr_tenant rec = doc_tenant doc) recs;
  id_nodup : NoDup fids;
  id_files : Forall2 (λ fid rec, files db' !! fid = Some (file_row did rec)) fids recs;
  id_rest k : k ∉ fids -> files db' !! k =
    (λ r, if doc_files (doc_tenant doc) did k r then superseded now r else r) <$> files db !! k;
  id_own fid r : fid ∈ fids -> files db !! fid = Some r ->
    f_tenant r = doc_tenant doc ∧ f_document r = did ∧ f_sha256 r ∈ (fr_sha256 <$> recs);
  id_chunks : plain <$> (rows_where (doc_chunks (doc_tenant doc) did) (chunks db')).*2
    ≡ₚ upload_rows did (zip fids fcs);
  id_earlier k c : chunks db !! k = Some c -> chunks db' !! k = chunk_after (doc_tenant doc) now did fids k c;
  id_tags tag : doc_tags db' !! (did, tag) = tags_after tag_ids tag (doc_tags db !! (did, tag));
}.

Lemma final_chunks t now did fids (new : list (Z * ChunkRec)) (m : gmap Z ChunkRec) :
  NoDup new.*1 -> Forall (λ c, c_tenant c = t ∧ c_document c = did ∧ c_file c ∈ fids ∧ live_chunk c = true) new.*2 ->
  rows_where (doc_chunks t did) (update_where
    (λ _ c, rls t (c_tenant c) && (c_document c =? did) && negb (bool_decide (c_file c ∈ fids)) && live_chunk c)
    (λ c, mkChunkRec (c_tenant c) (c_document c) (c_file c) (c_page_no c) (c_idx c) (c_content c)
       (c_content_enc c) (c_ts_offset c) (c_embedding c) (Some now))
    (list_to_map new ∪ delete_where (own_live t fids) m)) ≡ₚ new.
Proof.
  intros Hnd Hnew. unfold rows_where. set (M := filter _ _).
  assert (M = list_to_map new) as ->; [|by apply map_to_list_to_map]. subst M.
  assert (Hin : ∀ k c, (list_to_map new : gmap Z ChunkRec) !! k = Some c ->
    c_tenant c = t ∧ c_document c = did ∧ c_file c ∈ fids ∧ live_chunk c = true).
  { intros k c Hk%elem_of_list_to_map_2. rewrite Forall_forall in Hnew. apply Hnew.
    by apply (list_elem_of_fmap_2 snd) in Hk. }
  apply map_eq. intros k. apply option_eq. intros c.
  rewrite map_lookup_filter_Some, lookup_update_where, fmap_Some. unfold doc_chunks, rls. simpl. split.
  - intros [(c0 & Hc0 & ->) HP]. apply lookup_union_Some_raw in Hc0 as [Hc0|[_ Hc0]].
    + destruct (Hin _ _ Hc0) as (->&->&Hf&Hl). rewrite (bool_decide_eq_true_2 _ Hf) in *.
      by rewrite andb_false_r in *.
    + apply lookup_delete_where in Hc0 as [_ Hd]. exfalso. unfold own_live, rls in Hd.
      case_match eqn:EQ.
      * apply andb_true_iff in HP as [_ HP]. unfold live_chunk in HP. by bool_to_prop.
      * apply andb_true_iff in HP as [[E1 E2]%andb_true_iff E3]. rewrite E1, E3 in Hd.
        rewrite E1, E2, E3 in EQ. by destruct (bool_decide (c_file c0 ∈ fids)).
  - intros Hk. destruct (Hin _ _ Hk) as (Ht&Hd&Hf&Hl). split.
    + exists c. rewrite (bool_decide_eq_true_2 _ Hf). rewrite andb_false_r. split; [|done].
      by apply lookup_union_Some_l.
    + by rewrite Ht, Hd, Hl, !Z.eqb_refl.
Qed.

(** The rows from before, once the new ones have keys of their own. *)
Lemma earlier_chunks t now did fids (new : list (Z * ChunkRec)) (m : gmap Z ChunkRec) k c :
  k ∉ new.*1 -> m !! k = Some c ->
  update_where
    (λ _ c, rls t (c_tenant c) && (c_document c =? did) && negb (bool_decide (c_file c ∈ fids)) && live_chunk c)
    (superseded_chunk now) (list_to_map new ∪ delete_where (own_live t fids) m) !! k = chunk_after t now did fids k c.
Proof.
  intros Hk Hc. rewrite lookup_update_where, lookup_union_r by (by apply not_elem_of_list_to_map_1).
  unfold chunk_after. destruct (own_live t fids k c) eqn:Eo.
  - assert (delete_where (own_live t fids) m !! k = None) as ->; [|done].
    apply eq_None_not_Some. intros [c' [Hc' Ho]%lookup_delete_where]. simplify_eq. congruence.
  - assert (delete_where (own_live t fids) m !! k = Some c) as ->; [by apply lookup_delete_where|].
    simpl. f_equal. unfold own_live, doc_chunks in *.
    destruct (rls t (c_tenant c)), (c_document c =? did), (live_chunk c); try done;
      by destruct (bool_decide (c_file c ∈ fids)).
Qed.

Lemma upload_rows_cols doc fs c :
  c ∈ upload_rows doc fs -> c_document c = doc ∧ c_file c ∈ fs.*1 ∧ live_chunk c = true.
Proof.
  unfold upload_rows. intros ([fid cs] & Hc & Hin)%list_elem_of_bind.
  apply list_elem_of_fmap in Hc as (c' & -> & _). simpl. split_and!; try done.
  by apply (list_elem_of_fmap_2 fst) in Hin.
Qed.

Lemma plain_cols doc fs (new : list ChunkRec) t :
  plain <$> new = upload_rows doc fs -> Forall (λ c, c_tenant c = t) new ->
  Forall (λ c, c_tenant c = t ∧ c_document c = doc ∧ c_file c ∈ fs.*1 ∧ live_chunk c = true) new.
Proof.
  intros E Ht. rewrite Forall_forall in *. intros c Hc.
  assert (Hp : plain c ∈ upload_rows doc fs) by (rewrite <-E; by apply list_elem_of_fmap_2).
  apply upload_rows_cols in Hp as (?&?&?). split_and!; auto.
Qed.

Lemma ingest_body_ok now doc recs tag_ids fcs dek se ue s did s' :
  db_ok (st_db s) -> Forall rec_ok recs -> NoDup (fr_sha256 <$> recs) -> length recs = length fcs ->
  ingest_body now doc recs tag_ids fcs dek se ue s = (Ok did, s') ->
  ∃ fids, ingest_done now doc recs tag_ids fcs se ue (st_db s) (st_db s') did fids.
Proof.
  intros Hok Hrec Hnd Hlen E. unfold ingest_body in E.
  apply dbind_ok in E as (target & s0 & [= <- <-] & E).
  apply dbind_ok in E as (did' & s1 & Hdoc & E).
  assert (Hok1 : db_ok (st_db s1)).
  { assert (Hsafe : safe (doc_tenant doc) (if target_document (st_db s) doc recs >? 0
        then update_document (doc_tenant doc) (target_document (st_db s) doc recs) doc (as_str Ready) se ue
        else insert_document (doc_tenant doc) now doc (as_str Ready) se ue)).
    { case_match; [apply safe_update_document|apply safe_insert_document]; apply status_ok_str. }
    specialize (Hsafe s Hok) as [Hs _]. by rewrite Hdoc in Hs. }
  apply document_phase_ok in Hdoc as ((r & Hr & Hdocs & Hkept) & Htgt & Hf1 & Hc1 & Hdt1 & Htag1); [|done].
  apply dbind_ok in E as (fids & s2 & Hfiles & E).
  assert (Hok2 : db_ok (st_db s2)).
  { pose proof (safe_upsert_files (doc_tenant doc) did' recs Hrec s1 Hok1) as [Hs _]. by rewrite Hfiles in Hs. }
  pose proof (upsert_files_ok _ _ _ _ _ _ Hok1 Hrec Hnd Hfiles)
    as (Hten & Hndf & Hall & Hother & Hown & _ & Hd2 & Hc2 & Hdt2 & Htag2).
  apply dbind_ok in E as (u3 & s3 & Hclear & E). apply dbind_ok in E as (u4 & s4 & Htags & E).
  assert (Hok4 : db_ok (st_db s4)).
  { pose proof (safe_clear_llm (doc_tenant doc) did' s2 Hok2) as [Hs _]. rewrite Hclear in Hs.
    pose proof (safe_insert_llm_tags (doc_tenant doc) did' tag_ids s3 Hs) as [Hs4 _]. by rewrite Htags in Hs4. }
  assert (Hvis : doc_visible (st_db s2) (doc_tenant doc) did' = true).
  { unfold doc_visible. rewrite Hd2, Hdocs, lookup_insert_eq. rewrite (ir_tenant _ _ _ _ Hr).
    apply Z.eqb_refl. }
  pose proof (tags_phase_ok _ _ _ _ _ _ _ _ Hvis Hclear Htags) as (Htagged & Hd4 & Hf4 & Hc4 & _).
  apply dbind_ok in E as (u5 & s5 & Hchunks & E).
  assert (Hlenf : length fids = length fcs) by (rewrite (Forall2_length _ _ _ Hall); done).
  assert (Hzip : (zip fids fcs).*1 = fids) by (apply fst_zip; lia).
  apply replace_all_ok in Hchunks as (new & Hnew & Hndn & Hgen & Hrows & Htsn & (Hd5 & Hf5 & Hdt5 & _));
    [|done|by rewrite Hzip].
  apply dbind_ok in E as (u6 & s6 & Hsf & E). apply dbind_ok in E as (u7 & s7 & Hsc & [= <- <-]).
  unfold supersede_files in Hsf. apply stmt_ok in Hsf as (db6 & [= <- <-] & ->).
  unfold supersede_chunks in Hsc. apply stmt_ok in Hsc as (db7 & [= <- <-] & ->).
  exists fids. split; simpl.
  - exists r. split_and!; [done|by rewrite Hd5, Hd4, Hd2|done].
  - done.
  - done.
  - done.
  - apply Forall2_lookup. intros i. rewrite Forall2_lookup in Hall. specialize (Hall i).
    destruct (fids !! i) as [fid|] eqn:Hfid; inversion Hall as [? rec Hrow|]; constructor.
    rewrite lookup_update_where, Hf5, Hf4, Hrow. simpl.
    rewrite bool_decide_eq_true_2; [by rewrite andb_false_r|by eapply list_elem_of_lookup_2].
  - intros k Hk. rewrite lookup_update_where, Hf5, Hf4, Hother, Hf1 by done.
    destruct (files (st_db s) !! k) as [r'|]; simpl; [|done].
    rewrite (bool_decide_eq_false_2 _ Hk). unfold doc_files. simpl. by rewrite andb_true_r.
  - intros fid r' Hin Hr'. apply (Hown fid r'); [done|]. by rewrite Hf1.
  - pose proof (plain_cols _ _ _ _ Hrows Htsn) as Hcols. rewrite Hzip in Hnew, Hcols.
    rewrite Hnew, final_chunks; [by rewrite Hrows|done|done].
  - intros k c Hk. rewrite <- Hc1, <- Hc2, <- Hc4 in Hk. rewrite Hnew, Hzip. apply (earlier_chunks _ now); [|done].
    intros Hin. rewrite Forall_forall in Hgen. apply Hgen in Hin. apply (ok_chunks _ Hok4) in Hk as [? _]. lia.
  - intros tag. rewrite Hdt5, Htagged, Hdt2, Hdt1. done.
Qed.

Lemma target_document_files db1 db2 doc recs :
  files db1 = files db2 -> target_document db1 doc recs = target_document db2 doc recs.
Proof.
  intros Hf. unfold target_document, find_upload, file_documents, same_upload, join_count, live_count.
  by rewrite Hf.
Qed.

Lemma ingest_ok now doc recs tag_ids fcs s did s' :
  db_ok (st_db s) -> Forall rec_ok recs -> NoDup (fr_sha256 <$> recs) ->
  transactional_ingest now doc recs tag_ids fcs s = (Ok did, s') ->
  length recs = length fcs ∧ db_ok (st_db s') ∧
  ∃ se ue fids, ingest_done now doc recs tag_ids fcs se ue (st_db s) (st_db s') did fids.
Proof.
  intros Hok Hrec Hnd E. pose proof E as E0.
  assert (Hok' : db_ok (st_db s')).
  { pose proof (safe_ingest now doc recs tag_ids fcs Hrec s Hok) as [Hs _]. by rewrite E in Hs. }
  unfold transactional_ingest in E. apply guard_bind_ok in E as [Hlen E]. apply Nat.eqb_eq in Hlen.
  apply dbind_ok in E as (dek & s1 & Hdek & E). apply dbind_ok in E as (se & s2 & Hse & E).
  apply dbind_ok in E as (ue & s3 & Hue & E). apply tx_ok in E as [_ E].
  assert (Hok3 : db_ok (st_db s3)).
  { pose proof (safe_write_dek (doc_tenant doc) s Hok) as [Hs1 _]. rewrite Hdek in Hs1.
    pose proof (quiet_ok _ _ _ _ (quiet_encrypt_field _ _) Hue) as ->.
    pose proof (quiet_ok _ _ _ _ (quiet_encrypt_field _ _) Hse) as ->. done. }
  assert (Hsame : core_same s s3).
  { eapply core_same_trans; [|by eapply keeps_ok; [apply keeps_encrypt_field|]].
    eapply core_same_trans; [|by eapply keeps_ok; [apply keeps_encrypt_field|]].
    by eapply keeps_ok; [apply keeps_write_dek|]. }
  apply ingest_body_ok in E as (fids & []); [|done..]. destruct Hsame as ((Hd & Hf & Hdt & _) & Hc & Hq & _).
  split_and!; [done..|]. exists se, ue, fids. split; try done.
  - by rewrite Hd in id_row0.
  - by rewrite (target_document_files _ (st_db s)), Hd, Hq in id_target0.
  - by rewrite Hf in id_rest0.
  - by rewrite Hf in id_own0.
  - by rewrite Hc in id_earlier0.
  - by rewrite Hdt in id_tags0.
Qed.

Lemma live_rows now doc recs tag_ids fcs se ue db db' did fids :
  ingest_done now doc recs tag_ids fcs se ue db db' did fids ->
  (rows_where (doc_files (doc_tenant doc) did) (files db')).*1 ≡ₚ fids.
Proof.
  intros []. apply NoDup_Permutation; [apply rows_where_NoDup|done|].
  intros k. rewrite list_elem_of_fmap. split.
  - intros ([k' r] & -> & [Hr HP]%rows_where_elem). simpl.
    destruct (decide (k' ∈ fids)) as [|Hn]; [done|]. exfalso. rewrite id_rest0 in Hr by done.
    apply fmap_Some in Hr as (r0 & _ & ->). destruct (doc_files (doc_tenant doc) did k' r0) eqn:Hd; [|congruence].
    unfold doc_files, live_file in HP. bool_to_prop. done.
  - intros Hin. apply list_elem_of_lookup in Hin as [i Hi].
    destruct (Forall2_lookup_l _ _ _ _ _ id_files0 Hi) as (rec & Hrec' & Hrow).
    exists (k, file_row did rec). split; [done|]. apply rows_where_elem. split; [done|].
    rewrite Forall_lookup in id_tenant0. unfold doc_files, rls, live_file. simpl.
    by rewrite (id_tenant0 _ _ Hrec'), !Z.eqb_refl.
Qed.

(** C6. A successful ingest of files with different contents leaves exactly
    the upload.  One document row is written, ready, with all the given columns
    and its settings kept, and no other document changes.  The document's live
    files are one row per uploaded file and no other; its live chunks are
    exactly the given chunks of each file.  Of the rows from before none is
    lost but the live chunks of the files that were uploaded again: the other
    live files and chunks of the document stay as they were, marked superseded
    now, and every other file and chunk stays untouched.  Of the document's
    tags the user's and the locked ones are kept, the other model tags replaced
    by the given ones. *)
Theorem ingest_exact (now : Z) (doc : Document) (recs : list FileRecord) (tag_ids : list Z)
    (fcs : list (list Chunk)) (s : Store) (did : Z) (s' : Store) :
  db_ok (st_db s) -> Forall rec_ok recs -> NoDup (fr_sha256 <$> recs) ->
  transactional_ingest now doc recs tag_ids fcs s = (Ok did, s') ->
  let t := doc_tenant doc in
  (∃ r, documents (st_db s') = <[did := r]> (documents (st_db s)) ∧
     kept_columns (documents (st_db s) !! did) r ∧ dr_tenant r = t ∧ dr_title r = doc_title doc ∧
     dr_summary r = doc_summary doc ∧ dr_user_note r = doc_user_note doc ∧
     dr_kind r = as_str (doc_kind doc) ∧ dr_meta r = doc_meta doc ∧ dr_page_count r = doc_page_count doc ∧
     dr_status r = as_str Ready) ∧
  ∃ fids,
    Forall2 (λ fid rec, files (st_db s') !! fid = Some (file_row did rec)) fids recs ∧
    (rows_where (doc_files t did) (files (st_db s'))).*1 ≡ₚ fids ∧
    (∀ k, k ∉ fids -> files (st_db s') !! k =
       (λ r, if doc_files t did k r then superseded now r else r) <$> files (st_db s) !! k) ∧
    plain <$> (rows_where (doc_chunks t did) (chunks (st_db s'))).*2 ≡ₚ upload_rows did (zip fids fcs) ∧
    (∀ k c, chunks (st_db s) !! k = Some c -> chunks (st_db s') !! k = chunk_after t now did fids k c) ∧
    (∀ tag, doc_tags (st_db s') !! (did, tag) = tags_after tag_ids tag (doc_tags (st_db s) !! (did, tag))).
Proof.
  intros Hok Hrec Hnd E t. subst t. apply ingest_ok in E as (Hlen & Hok' & se & ue & fids & Hdone); [|done..].
  pose proof Hdone as []. split.
  - destruct id_row0 as (r & [] & -> & Hkept). exists r. by split_and!.
  - exists fids. split_and!; [done| |done|done|done|done]. by eapply live_rows.
Qed.

(** ** Identical uploads *)

Definition candidate (db : Db) (t : Z) (recs : list FileRecord) (d : Z) : Prop :=
  same_upload db t recs d && negb (join_count db t d recs =? 0)%nat = true.

Lemma join_document db t recs d : join_count db t d recs <> 0%nat -> d ∈ file_documents db t.
Proof.
  intros Hj. unfold file_documents, sort_by_key. rewrite sort_by_elem_of, elem_of_remove_dups.
  unfold join_count in Hj. destruct (rec ← recs; _) as [|[k r] l] eqn:E; [done|].
  assert (Hin : (k, r) ∈ (rec ← recs; rows_where (λ _ r, rls t (f_tenant r) && (f_document r =? d)
      && bool_decide (f_sha256 r = fr_sha256 rec) && bool_decide (f_path r = fr_path rec)) (files db)))
    by (rewrite E; by left).
  apply list_elem_of_bind in Hin as (rec & Hin & _). apply rows_where_elem in Hin as [Hk HP]. bool_to_prop.
  apply list_elem_of_fmap. exists r. split; [done|]. apply list_elem_of_fmap. exists (k, r). split; [done|].
  by apply rows_where_elem.
Qed.

Lemma candidate_document db t recs d : candidate db t recs d -> d ∈ file_documents db t.
Proof.
  unfold candidate. intros [_ Hj]%andb_true_iff. apply negb_true_iff, Nat.eqb_neq in Hj. by eapply join_document.
Qed.

Lemma find_upload_Some db t recs d :
  find_upload db t recs = Some d <->
  candidate db t recs d ∧ ∀ d', candidate db t recs d' -> d <= d'.
Proof.
  unfold find_upload. etrans; [apply head_sorted_min|]. split.
  - intros (_ & Hc & Hmin). split; [done|]. intros d' Hd'. apply Hmin; [|done].
    apply candidate_document in Hd'. unfold file_documents, sort_by_key in Hd'. by rewrite sort_by_elem_of in Hd'.
  - intros [Hc Hmin]. split_and!; [|done|auto]. apply candidate_document in Hc.
    unfold file_documents, sort_by_key in Hc. by rewrite sort_by_elem_of in Hc.
Qed.

Lemma find_upload_None db t recs d : find_upload db t recs = None -> ~ candidate db t recs d.
Proof.
  intros Hn Hc. unfold find_upload in Hn.
  assert (Hin : d ∈ filter (λ d, same_upload db t recs d && negb (join_count db t d recs =? 0)%nat = true)
    (file_documents db t)) by (apply list_elem_of_filter; split; [done|by eapply candidate_document]).
  destruct (filter _ _); [set_solver|done].
Qed.

(** The files of other documents are untouched. *)
Lemma rows_other now doc recs tag_ids fcs se ue db db' did fids d (P : Z -> FileRow -> bool) :
  ingest_done now doc recs tag_ids fcs se ue db db' did fids -> d <> did ->
  (∀ k r, P k r = true -> f_document r = d) ->
  rows_where P (files db') = rows_where P (files db).
Proof.
  intros [] Hd HP. unfold rows_where. f_equal. apply map_eq. intros k. apply option_eq. intros r.
  rewrite !map_lookup_filter_Some. simpl. destruct (decide (k ∈ fids)) as [Hin|Hn].
  - split; intros [Hr Hp]; exfalso; specialize (HP k r Hp).
    + apply list_elem_of_lookup in Hin as [i Hi].
      destruct (Forall2_lookup_l _ _ _ _ _ id_files0 Hi) as (rec & _ & Hrow).
      rewrite Hrow in Hr. injection Hr as <-. simpl in HP. done.
    + destruct (id_own0 k r Hin Hr) as (_ & ? & _). congruence.
  - rewrite id_rest0 by done. destruct (files db !! k) as [r0|]; simpl; [|done].
    destruct (doc_files (doc_tenant doc) did k r0) eqn:E; [|done].
    unfold doc_files in E. bool_to_prop. split; intros [[= <-] Hp]; apply HP in Hp; simpl in Hp; congruence.
Qed.

Lemma candidate_other now doc recs tag_ids fcs se ue db db' did fids d recs' :
  ingest_done now doc recs tag_ids fcs se ue db db' did fids -> d <> did ->
  candidate db' (doc_tenant doc) recs' d <-> candidate db (doc_tenant doc) recs' d.
Proof.
  intros Hdone Hd. unfold candidate, same_upload, join_count, live_count.
  rewrite (rows_other _ _ _ _ _ _ _ _ _ _ _ d _ Hdone Hd)
    by (intros k r Hp; bool_to_prop; done).
  assert (Hj : (rec ← recs'; rows_where (λ _ r, rls (doc_tenant doc) (f_tenant r) && (f_document r =? d)
      && bool_decide (f_sha256 r = fr_sha256 rec) && bool_decide (f_path r = fr_path rec)) (files db'))
    = (rec ← recs'; rows_where (λ _ r, rls (doc_tenant doc) (f_tenant r) && (f_document r =? d)
      && bool_decide (f_sha256 r = fr_sha256 rec) && bool_decide (f_path r = fr_path rec)) (files db))).
  { apply list_bind_ext; [|done]. intros rec. apply (rows_other _ _ _ _ _ _ _ _ _ _ _ d _ Hdone Hd).
    intros k r Hp. bool_to_prop. done. }
  by rewrite Hj.
Qed.

(** Every record of an upload meets its row, and no other, in the join. *)
Lemma join_full db t did recs fids (row : FileRecord -> FileRow) : db_ok db -> Forall (λ rec, fr_tenant rec = t) recs ->
  (∀ rec, file_key (row rec) = (fr_tenant rec, fr_sha256 rec, did) ∧ f_path (row rec) = fr_path rec) ->
  Forall2 (λ fid rec, files db !! fid = Some (row rec)) fids recs -> join_count db t did recs = length recs.
Proof.
  intros Hok Hten Hkey Hfiles. unfold join_count. induction Hfiles as [|fid rec fids recs Hrow Hfiles IH]; [done|].
  apply Forall_cons in Hten as [Ht Hten]. csimpl. rewrite length_app, IH by done.
  destruct (Hkey rec) as [Hk Hp]. unfold file_key in Hk. injection Hk as E1 E2 E3.
  assert (rows_where (λ _ r, rls t (f_tenant r) && (f_document r =? did)
      && bool_decide (f_sha256 r = fr_sha256 rec) && bool_decide (f_path r = fr_path rec)) (files db)
      = [(fid, row rec)]) as ->; [|done].
  apply Permutation_singleton_r, NoDup_Permutation; [eapply NoDup_fmap_1, rows_where_NoDup|apply NoDup_singleton|].
  intros [k r]. rewrite rows_where_elem, list_elem_of_singleton. unfold rls. split.
  - intros [Hr HP]. bool_to_prop. assert (k = fid) as ->; [|congruence].
    eapply (ok_unique_files _ Hok); [done..|]. unfold file_key. congruence.
  - intros [= -> ->]. split; [done|]. rewrite E1, E3, Ht, !Z.eqb_refl. by rewrite !bool_decide_eq_true_2.
Qed.

(** The document that received the upload is the same upload. *)
Lemma candidate_self now doc recs tag_ids fcs se ue db db' did fids :
  recs <> [] -> db_ok db' -> ingest_done now doc recs tag_ids fcs se ue db db' did fids ->
  candidate db' (doc_tenant doc) recs did.
Proof.
  intros Hne Hok' Hdone. pose proof Hdone as [].
  assert (Hj : join_count db' (doc_tenant doc) did recs = length recs) by (by apply (join_full _ _ _ _ fids (file_row did))).
  assert (Hl : live_count db' (doc_tenant doc) did = length recs).
  { unfold live_count. rewrite <-(Forall2_length _ _ _ id_files0). rewrite <-(length_fmap fst).
    apply Permutation_length. by eapply live_rows. }
  unfold candidate, same_upload. rewrite Hj, Hl, Nat.eqb_refl. simpl.
  apply negb_true_iff, Nat.eqb_neq. by destruct recs.
Qed.

Lemma candidate_pos db t recs d : db_ok db -> candidate db t recs d -> 0 < d.
Proof.
  intros Hok Hc%candidate_document. unfold file_documents, sort_by_key in Hc.
  rewrite sort_by_elem_of, elem_of_remove_dups in Hc.
  apply list_elem_of_fmap in Hc as (r & -> & Hr). apply list_elem_of_fmap in Hr as ([k r'] & -> & Hr).
  apply rows_where_elem in Hr as [Hr _]. destruct (ok_files _ Hok _ _ Hr) as (_ & _ & [dr Hd] & _).
  by apply (ok_documents _ Hok) in Hd as ([? _] & _).
Qed.

(** The second ingest of an upload targets the document of the first. *)
Lemma reingest_target now doc recs tag_ids fcs se ue db db' did fids doc' :
  db_ok db -> db_ok db' -> recs <> [] -> doc_id doc <= 0 -> doc_id doc' <= 0 ->
  doc_tenant doc' = doc_tenant doc ->
  ingest_done now doc recs tag_ids fcs se ue db db' did fids ->
  target_document db' doc' recs = did.
Proof.
  intros Hok Hok' Hne Hid Hid' Ht Hdone. pose proof (candidate_self _ _ _ _ _ _ _ _ _ _ _ Hne Hok' Hdone) as Hself.
  unfold target_document. rewrite Z.gtb_ltb, (proj2 (Z.ltb_ge 0 (doc_id doc'))), Ht by lia.
  assert (Hf : find_upload db' (doc_tenant doc) recs = Some did); [|by rewrite Hf; destruct recs].
  apply find_upload_Some. split; [done|]. intros d' Hd'.
  destruct (decide (d' = did)) as [->|Hneq]; [lia|].
  apply (candidate_other _ _ _ _ _ _ _ _ _ _ _ d' recs Hdone Hneq) in Hd'.
  pose proof (id_target _ _ _ _ _ _ _ _ _ _ _ Hdone) as Htgt. unfold target_document in Htgt.
  rewrite !Z.gtb_ltb, (proj2 (Z.ltb_ge 0 (doc_id doc))) in Htgt by lia.
  destruct recs as [|rec recs]; [done|].
  destruct (find_upload db (doc_tenant doc) (rec :: recs)) as [d0|] eqn:E.
  - apply find_upload_Some in E as [Hc Hmin]. apply candidate_pos in Hc as Hpos; [|done]. simpl in Htgt.
    rewrite (proj2 (Z.ltb_lt 0 d0)) in Htgt by lia. subst d0. by apply Hmin.
  - by destruct (find_upload_None _ _ _ _ E Hd').
Qed.

(** Ingesting an identical upload again is idempotent: it succeeds on the
    same document and on the same file rows, however the model output
    (title, tags, chunks) of the second run differs. *)
Theorem reingest_idempotent (now now' : Z) (doc doc' : Document) (recs : list FileRecord)
    (tag_ids tag_ids' : list Z) (fcs fcs' : list (list Chunk)) (s s1 s2 : Store) (d1 d2 : Z) :
  db_ok (st_db s) -> Forall rec_ok recs -> NoDup (fr_sha256 <$> recs) -> recs <> [] ->
  doc_id doc <= 0 -> doc_id doc' <= 0 -> doc_tenant doc' = doc_tenant doc ->
  transactional_ingest now doc recs tag_ids fcs s = (Ok d1, s1) ->
  transactional_ingest now' doc' recs tag_ids' fcs' s1 = (Ok d2, s2) ->
  d2 = d1 ∧
  (rows_where (doc_files (doc_tenant doc) d1) (files (st_db s2))).*1
    ≡ₚ (rows_where (doc_files (doc_tenant doc) d1) (files (st_db s1))).*1.
Proof.
  intros Hok Hrec Hnd Hne Hid Hid' Ht E1 E2.
  apply ingest_ok in E1 as (_ & Hok1 & se & ue & fids1 & Hd1); [|done..].
  apply ingest_ok in E2 as (_ & Hok2 & se' & ue' & fids2 & Hd2); [|done..].
  pose proof (reingest_target _ _ _ _ _ _ _ _ _ _ _ doc' Hok Hok1 Hne Hid Hid' Ht Hd1) as Htgt.
  assert (d2 = d1) as ->.
  { pose proof (id_target _ _ _ _ _ _ _ _ _ _ _ Hd2) as Ht2. simpl in Ht2. rewrite Htgt in Ht2.
    destruct (id_row _ _ _ _ _ _ _ _ _ _ _ Hd1) as (r & _ & Hdocs & _).
    assert (0 < d1) by (apply (ok_documents _ Hok1 d1 r); rewrite Hdocs; apply lookup_insert_eq).
    by rewrite Z.gtb_ltb, (proj2 (Z.ltb_lt 0 d1)) in Ht2 by lia. }
  split; [done|]. rewrite (live_rows _ _ _ _ _ _ _ _ _ _ _ Hd1). rewrite <-Ht.
  rewrite (live_rows _ _ _ _ _ _ _ _ _ _ _ Hd2). destruct Hd1, Hd2. symmetry.
  apply submseteq_length_Permutation.
  - apply NoDup_submseteq; [done|]. intros fid Hin.
    destruct (decide (fid ∈ fids2)) as [|Hn]; [done|]. exfalso.
    apply list_elem_of_lookup in Hin as [i Hi].
    destruct (Forall2_lookup_l _ _ _ _ _ id_files0 Hi) as (rec & Hri & Hrow).
    destruct (Forall2_lookup_r _ _ _ _ _ id_files1 Hri) as (fid2 & Hfi2 & Hrow2).
    pose proof (id_rest1 fid Hn) as Hrest. rewrite Hrow in Hrest. simpl in Hrest.
    assert (fid = fid2) as ->; [|by apply Hn, list_elem_of_lookup_2 with i].
    eapply (ok_unique_files _ Hok2); [exact Hrest|exact Hrow2|]. by case_match.
  - by rewrite (Forall2_length _ _ _ id_files0), (Forall2_length _ _ _ id_files1).
Qed.
End ingest.

(** ** Reading back *)

Section readback.
Context `{Aead} `{!AeadLaws} `{QueryBuilder}.

(** What decides a tenant's key. *)
Definition keyring (s : Store) : option KeyEncryptionKey * bool * gmap Z DataKey :=
  (st_kek s, st_connected s, data_keys (st_db s)).

Definition fixed_keys {A} (m : dbm A) : Prop := ∀ s, keyring (m s).2 = keyring s.

Lemma fk_ret {A} (a : A) : fixed_keys (mret a).
Proof. done. Qed.
Lemma fk_throw {A} e : fixed_keys (throw (A:=A) e).
Proof. done. Qed.
Lemma fk_asks {A} (f : Store -> A) : fixed_keys (asks f).
Proof. done. Qed.
Lemma fk_bind {A B} (m : dbm A) (k : A -> dbm B) :
  fixed_keys m -> (∀ a, fixed_keys (k a)) -> fixed_keys (m ≫= k).
Proof.
  intros Hm Hk s. unfold mbind, dbm_bind. specialize (Hm s).
  destruct (m s) as [[a|e] s1]; simpl in *; [|done]. by rewrite Hk.
Qed.
Lemma fk_keyed {A} (m : prog entropy A) : fixed_keys (keyed m).
Proof. intros s. unfold keyed. by destruct (m (st_entropy s)) as [[?|?] ?]. Qed.
Lemma fk_nextval get bump : fixed_keys (nextval get bump).
Proof. done. Qed.
Lemma fk_stmt {A} (f : Db -> result (A * Db) DbError) :
  (∀ db a db', f db = Ok (a, db') -> data_keys db' = data_keys db) -> fixed_keys (stmt f).
Proof.
  intros Hf s. unfold stmt. destruct (f (st_db s)) as [[a db]|] eqn:E; [|done].
  unfold keyring. simpl. by rewrite (Hf _ _ _ E).
Qed.
#[local] Hint Resolve fk_ret fk_throw fk_asks fk_keyed fk_nextval : store.
#[local] Hint Extern 2 (fixed_keys (_ ≫= _)) => apply fk_bind; [|intros ?] : store.
#[local] Hint Extern 3 (fixed_keys (stmt _)) => apply fk_stmt; intros; case_all; done : store.
#[local] Hint Extern 4 (fixed_keys (match ?x with _ => _ end)) => destruct x : store.

Lemma fk_ingest_body now doc recs tag_ids fcs dek se ue :
  fixed_keys (ingest_body now doc recs tag_ids fcs dek se ue).
Proof.
  assert (Hew : ∀ d s, fixed_keys (encrypt_with d s)) by (intros []; simpl; eauto 10 with store).
  assert (Hec : ∀ d cs, fixed_keys (encrypt_chunks d cs))
    by (intros d; induction cs; simpl; eauto 10 with store).
  assert (Hic : ∀ t dof fid cs, fixed_keys (insert_chunks t dof fid cs))
    by (intros t dof fid; induction cs as [|[]]; simpl; unfold insert_chunk, next_chunk; eauto 10 with store).
  assert (Hrc : ∀ t dof fid d cs, fixed_keys (replace_chunks t dof fid d cs))
    by (intros; unfold replace_chunks, delete_live_chunks; eauto 10 with store).
  assert (Hra : ∀ t d k fs, fixed_keys (replace_all_chunks t d k fs))
    by (intros t d k; induction fs as [|[]]; simpl; eauto 10 with store).
  assert (Hfs : ∀ t d rs, fixed_keys (upsert_files t d rs))
    by (intros t d; induction rs; simpl; unfold upsert_file_row, next_file; eauto 10 with store).
  unfold ingest_body, insert_document, update_document, next_document, insert_llm_tags, supersede_files,
    supersede_chunks, clear_llm.
  eauto 40 with store.
Qed.

(** The keyring under which tenant [t] has the key [d]. *)
Definition has_key (t : Z) (d : bytes) (kr : option KeyEncryptionKey * bool * gmap Z DataKey) : Prop :=
  ∃ kek dk, kr.1.1 = Some kek ∧ kr.1.2 = true ∧ kr.2 !! t = Some dk ∧
    kek_unwrap kek (wrapped_dek dk) = Ok d ∧ length d = 32%nat.

Lemma unwrap_ok kek t dk s d s' :
  unwrap_tenant_dek kek t dk s = (Ok d, s') ->
  st_connected s = true ∧ kek_unwrap kek (wrapped_dek dk) = Ok d ∧ length d = 32%nat ∧ keyring s' = keyring s.
Proof.
  unfold unwrap_tenant_dek, insert_decrypt_audit_event, admin_pool, mbind, dbm_bind.
  destruct (st_connected s) eqn:Hc; [|done]. simpl.
  destruct (kek_unwrap _ _) as [raw|]; [|done]. destruct (Nat.eqb_spec (length raw) 32); simpl; [|done].
  intros [= <- <-]. by unfold keyring.
Qed.

Lemma dek_has_key t s d s' :
  get_or_create_tenant_dek t s = (Ok d, s') -> has_key t d (keyring s').
Proof.
  unfold get_or_create_tenant_dek. intros (okek & s1 & [= <- <-] & E)%dbind_ok.
  destruct (st_kek s) as [kek|] eqn:Hkek; [|done].
  apply dbind_ok in E as ([] & s1 & Ha & E). unfold admin_pool in Ha.
  destruct (st_connected s) eqn:Hc; [|done]. injection Ha as <-.
  apply dbind_ok in E as (ex & s2 & [= <- <-] & E).
  destruct (data_keys (st_db s) !! t) as [dk|] eqn:Hk.
  - apply unwrap_ok in E as (_ & Hu & Hl & Hr). unfold has_key. rewrite Hr. unfold keyring. simpl. eauto 10.
  - apply dbind_ok in E as (dk & s3 & (ent & _ & ->)%keyed_ok & E).
    apply dbind_ok in E as ([] & s4 & (db & Hi & ->)%stmt_ok & E). case_decide; [|done].
    injection Hi as <-. apply unwrap_ok in E as (_ & Hu & Hl & Hr). unfold has_key. rewrite Hr.
    unfold keyring. simpl. exists kek, dk. rewrite lookup_insert_eq. by split_and!.
Qed.

Lemma has_key_dek t d s :
  has_key t d (keyring s) -> ∃ s', get_or_create_tenant_dek t s = (Ok d, s') ∧ core_same s s'.
Proof.
  intros (kek & dk & Hkek & Hc & Hk & Hu & Hl). unfold keyring in *. simpl in *.
  exists (get_or_create_tenant_dek t s).2. split; [|apply keeps_dek].
  unfold get_or_create_tenant_dek, unwrap_tenant_dek, insert_decrypt_audit_event, admin_pool, mbind, dbm_bind.
  cbn. rewrite Hkek. cbn. rewrite Hc. cbn. rewrite Hk. cbn. rewrite Hc. cbn. rewrite Hu. cbn.
  by rewrite Hl.
Qed.

(** A sealed field opens to what was sealed. *)
Lemma encrypt_field_opens d fld s enc s' :
  from_option (λ x, is_str x) True fld -> encrypt_field (Some d) fld s = (Ok enc, s') ->
  open_column d enc fld = fld ∧ (enc = None -> fld = None).
Proof.
  intros Hs. destruct fld as [x|]; simpl in *; [|by intros [= <- <-]].
  intros (c & s1 & (e & Hc & ->)%keyed_ok & [= <- <-])%dbind_ok. simpl.
  by rewrite (decrypt_encrypt_column _ _ _ _ _ Hs Hc).
Qed.

Lemma document_from_ingested did doc se ue r :
  ingested_row doc se ue r -> kind_check (dr_kind r) = true ->
  ∃ d, document_from_row did r = Ok d ∧ doc_id d = did ∧ doc_title d = dr_title r ∧
    doc_summary d = dr_summary r ∧ doc_user_note d = dr_user_note r ∧ doc_kind d = doc_kind doc ∧
    doc_status d = Ready ∧ doc_meta d = doc_meta doc.
Proof.
  intros [] _. unfold document_from_row, parse_enum. rewrite ir_kind0, ir_status0, !from_str_as_str. simpl.
  eexists. split_and!; [done..|]. simpl. done.
Qed.

Lemma write_dek_key t s dek s' :
  write_dek t s = (Ok dek, s') ->
  match dek with None => keyring s' = keyring s ∧ st_kek s = None | Some d => has_key t d (keyring s') end.
Proof.
  unfold write_dek. intros (okek & s1 & [= <- <-] & E)%dbind_ok. destruct (st_kek s) eqn:Hk.
  - apply dbind_ok in E as (d & s2 & Hd & [= <- <-]). by apply dek_has_key in Hd.
  - by injection E as <- <-.
Qed.

Lemma fk_ok {A} (m : dbm A) s a s' : fixed_keys m -> m s = (Ok a, s') -> keyring s' = keyring s.
Proof. intros Hm E. specialize (Hm s). by rewrite E in Hm. Qed.

Lemma fk_encrypt_field dek fld : fixed_keys (encrypt_field dek fld).
Proof. destruct fld, dek; simpl; eauto 10 with store. Qed.

(** Reading a row whose sealed fields open to its plain ones. *)
Lemma decrypt_row_same t d r s :
  (match d with None => st_kek s = None | Some d => has_key t d (keyring s) end) ->
  (∀ k, d = Some k -> open_row k r = r) ->
  ∃ s', decrypt_document_row t r s = (Ok r, s').
Proof.
  intros Hd Hr. unfold decrypt_document_row. destruct d as [d|].
  - destruct (has_key_dek _ _ _ Hd) as (s' & Hget & _). destruct Hd as (kek & dk & Hkek & _).
    unfold keyring in Hkek. simpl in Hkek. unfold mbind, dbm_bind. cbn. rewrite Hkek. cbn.
    destruct (has_enc r); cbn; [|eauto]. rewrite Hget. rewrite Hr by done. eauto.
  - unfold mbind, dbm_bind. cbn. rewrite Hd. cbn. eauto.
Qed.

(** The document read is the one written, under its new id and ready. *)
Definition reads_back (did : Z) (doc d : Document) : Prop :=
  doc_id d = did ∧ doc_title d = doc_title doc ∧ doc_summary d = doc_summary doc ∧
  doc_user_note d = doc_user_note doc ∧ doc_kind d = doc_kind doc ∧ doc_meta d = doc_meta doc ∧
  doc_status d = Ready.

(** C13. What is ingested reads back: after a successful ingest, with or
    without column encryption, reading the document gives the title, summary,
    note, kind and metadata that were written and the status ready; under
    encryption the tenant's key is created on first use, wrapped, and found
    and unwrapped again for the read. *)
Theorem ingest_readback (now : Z) (doc : Document) (recs : list FileRecord) (tag_ids : list Z)
    (fcs : list (list Chunk)) (s : Store) (did : Z) (s' : Store) :
  db_ok (st_db s) -> Forall rec_ok recs -> NoDup (fr_sha256 <$> recs) ->
  from_option (λ x, is_str x) True (doc_summary doc) ->
  from_option (λ x, is_str x) True (doc_user_note doc) ->
  transactional_ingest now doc recs tag_ids fcs s = (Ok did, s') ->
  ∃ d s'', get_document (doc_tenant doc) did s' = (Ok (Some d), s'') ∧ reads_back did doc d.
Proof.
  intros Hok Hrec Hnd Hs1 Hs2 E. unfold reads_back.
  assert (Hok' : db_ok (st_db s')).
  { pose proof (safe_ingest now doc recs tag_ids fcs Hrec s Hok) as [Hs _]. by rewrite E in Hs. }
  unfold transactional_ingest in E. apply guard_bind_ok in E as [Hlen E]. apply Nat.eqb_eq in Hlen.
  apply dbind_ok in E as (dek & s1 & Hdek & E). apply dbind_ok in E as (se & s2 & Hse & E).
  apply dbind_ok in E as (ue & s3 & Hue & E). apply tx_ok in E as [Hconn E].
  assert (Hok3 : db_ok (st_db s3)).
  { pose proof (safe_write_dek (doc_tenant doc) s Hok) as [Hs _]. rewrite Hdek in Hs.
    pose proof (quiet_ok _ _ _ _ (quiet_encrypt_field _ _) Hue) as ->.
    pose proof (quiet_ok _ _ _ _ (quiet_encrypt_field _ _) Hse) as ->. done. }
  assert (Hk : keyring s' = keyring s1).
  { rewrite (fk_ok _ _ _ _ (fk_ingest_body _ _ _ _ _ _ _ _) E), (fk_ok _ _ _ _ (fk_encrypt_field _ _) Hue).
    apply (fk_ok _ _ _ _ (fk_encrypt_field _ _) Hse). }
  assert (Hconn' : st_connected s' = true).
  { pose proof (f_equal (λ k, k.1.2) (fk_ok _ _ _ _ (fk_ingest_body _ _ _ _ _ _ _ _) E)) as Hc.
    simpl in Hc. by rewrite Hc. }
  apply ingest_body_ok in E as (fids & []); [|done..]. destruct id_row0 as (r & Hr & Hdocs & _).
  assert (Hrow : documents (st_db s') !! did = Some r) by (rewrite Hdocs; apply lookup_insert_eq).
  destruct (decrypt_row_same (doc_tenant doc) dek r s') as (s'' & Hdec).
  { apply write_dek_key in Hdek. destruct dek; [by rewrite Hk|]. destruct Hdek as [Hkr Hnone].
    rewrite Hkr in Hk. apply (f_equal (λ k, k.1.1)) in Hk. simpl in Hk. by rewrite Hk. }
  { intros k ->. pose proof (encrypt_field_opens _ _ _ _ _ Hs1 Hse) as [Ho1 _].
    pose proof (encrypt_field_opens _ _ _ _ _ Hs2 Hue) as [Ho2 _]. destruct Hr, r; simpl in *. subst.
    unfold open_row. simpl. by rewrite Ho1, Ho2. }
  destruct (document_from_ingested did doc se ue r Hr) as (d & Hd & Hid & Htl & Hsu & Hno & Hki & Hst & Hme).
  { by apply (ok_documents _ Hok') in Hrow as (_ & _ & ? & _). }
  exists d, s''. unfold get_document, mbind, dbm_bind, tx. rewrite Hconn'. cbn. rewrite Hrow.
  unfold rls. rewrite (ir_tenant _ _ _ _ Hr), Z.eqb_refl. cbn. rewrite Hdec. cbn. rewrite Hd. cbn.
  destruct Hr. split_and!; [done|congruence..].
Qed.
End readback.

(** ** Behaviours that surprise *)

Section surprises.
Context `{Aead} `{QueryBuilder}.

Definition content (s : Store) : gmap Z DocumentRow * gmap Z FileRow * gmap Z ChunkRec :=
  (documents (st_db s), files (st_db s), chunks (st_db s)).

(** The call fails, and documents, files and chunks are as before. *)
Definition stores_nothing {A} (m : dbm A) (s : Store) : Prop :=
  is_ok (m s).1 = false ∧ content (m s).2 = content s.

Definition fails_clean {A} (m : dbm A) : Prop := ∀ s, is_ok (m s).1 = false -> content (m s).2 = content s.
Lemma fails_clean_bind {A B} (m : dbm A) (k : A -> dbm B) :
  keeps m -> (∀ a, fails_clean (k a)) -> fails_clean (m ≫= k).
Proof.
  intros Hm Hk s. unfold mbind, dbm_bind. specialize (Hm s).
  assert (content (m s).2 = content s) as Hc.
  { destruct Hm as ((Hd & Hf & _) & Hch & _). unfold content. by rewrite Hd, Hf, Hch. }
  destruct (m s) as [[a|e] s1]; simpl in *; [|done]. intros Hf'. rewrite <- Hc. by apply Hk.
Qed.
Lemma fails_clean_tx {A} (body : dbm A) : fails_clean (tx body).
Proof. intros s. unfold tx. destruct (st_connected s); [|done]. simpl. by destruct (body s) as [[a|e] s1]. Qed.

(** An ingest that fails leaves documents, files and chunks as they were. *)
Lemma ingest_fails_clean now doc recs tag_ids fcs : fails_clean (transactional_ingest now doc recs tag_ids fcs).
Proof.
  unfold transactional_ingest. apply fails_clean_bind; [by unfold guard_ok; destruct (_ =? _)%nat|intros _].
  repeat (apply fails_clean_bind; [auto using keeps_write_dek, keeps_encrypt_field|intros ?]). apply fails_clean_tx.
Qed.

(** A document of kind email is never stored: the CHECK of
    [documents.kind] lists the kinds without email, so every ingest and every
    upsert of one fails and leaves documents, files and chunks as they were. *)
Theorem email_never_stored (now : Z) (doc : Document) (recs : list FileRecord) (tag_ids : list Z)
    (fcs : list (list Chunk)) (s : Store) :
  doc_kind doc = KEmail ->
  stores_nothing (transactional_ingest now doc recs tag_ids fcs) s ∧ stores_nothing (upsert_document now doc) s.
Proof.
  intros Hk.
  assert (Hcl : fails_clean (upsert_document now doc)).
  { repeat (apply fails_clean_bind; [auto using keeps_write_dek, keeps_encrypt_field|intros ?]). apply fails_clean_tx. }
  pose proof (ingest_fails_clean now doc recs tag_ids fcs) as Hcl'.
  assert (Hup : ∀ t id st se ue s1 r s2, update_document t id doc st se ue s1 <> (Ok r, s2)).
  { unfold update_document. intros t id st se ue s1 r s2 (db & E & _)%stmt_ok. rewrite Hk in E. change (kind_check _) with false in E.
    by case_all. }
  assert (Hins : ∀ t n st se ue s1 r s2, insert_document t n doc st se ue s1 <> (Ok r, s2)).
  { unfold insert_document. intros t n st se ue s1 r s2 (db & E & _)%next_ok. rewrite Hk in E. change (kind_check _) with false in E.
    by case_all. }
  enough (is_ok (transactional_ingest now doc recs tag_ids fcs s).1 = false ∧ is_ok (upsert_document now doc s).1 = false)
    as [H1 H2] by (split; split; auto). split.
  - destruct (transactional_ingest _ _ _ _ _ _) as [[r|e] s'] eqn:E; [|done]. exfalso.
    unfold transactional_ingest in E. apply guard_bind_ok in E as [_ E].
    apply dbind_ok in E as (? & s1 & _ & E). apply dbind_ok in E as (? & s2 & _ & E).
    apply dbind_ok in E as (? & s3 & _ & E). apply tx_ok in E as [_ E].
    apply dbind_ok in E as (target & s4 & _ & E). apply dbind_ok in E as (did & s5 & E & _).
    case_match; [by eapply Hup|by eapply Hins].
  - destruct (upsert_document _ _ _) as [[r|e] s'] eqn:E; [|done]. exfalso.
    unfold upsert_document in E.
    apply dbind_ok in E as (? & s1 & _ & E). apply dbind_ok in E as (? & s2 & _ & E).
    apply dbind_ok in E as (? & s3 & _ & E). apply tx_ok in E as [_ E].
    case_match; [by eapply Hup|by eapply Hins].
Qed.

(** An ingest without tags depends on the query builder. *)
Lemma ingest_without_tags (t doc : Z) (s : Store) :
  insert_llm_tags t doc [] s = (if empty_values_ok then Ok tt else Err EmptyValues, s).
Proof. unfold insert_llm_tags. by destruct empty_values_ok. Qed.
End surprises.

(** ** Concrete stores *)

Definition demo_builder : QueryBuilder := {| empty_values_ok := true |}.

Definition demo_doc (kind : DocKind) : Document :=
  mkDocument 0 1 (Some (str "Report")) (Some (str "A summary")) None kind JNull 1 Ready 0 false
    (mkSync None None None None None 1 0).
Definition demo_file (b : byte) (path : string) : FileRecord :=
  mkFileRecord 0 1 0 1 None (replicate 32 b) (str "1/blob") (Some (str path)) None (Some 10) JNull Ready 7.
Definition demo_chunk : Chunk :=
  mkChunk 1 0 (Some 1) 0 (str "Some text") None (replicate 2560 (f32_of_Z 1)).

Definition empty_db : Db :=
  mkDb {[1; 2]} ∅ ∅ ∅ {[5 := mkTagRow 1 (str "invoice") None]} ∅ ∅ ∅ [] (mkSeqs 1 1 1 9).
Definition demo_store : Store :=
  mkStore true empty_db (Some (@FileKek plain_aead demo_key))
    (replicate 10 (Some [x01])).

Lemma empty_db_ok : db_ok empty_db.
Proof.
  split; simpl; try (intros; by rewrite lookup_empty in *); [| |lia].
  - intros k r [<- <-]%lookup_singleton_Some. split; [simpl; lia|set_solver].
  - intros k k' r r' [<- _]%lookup_singleton_Some [<- _]%lookup_singleton_Some. done.
Qed.

(** The upload of the witnesses. *)
Definition demo_ingest (s : Store) : result Z DbError * Store :=
  @transactional_ingest plain_aead demo_builder 100 (demo_doc KDocument) [demo_file x0a "a.pdf"] [5]
    [[demo_chunk]] s.

Lemma demo_ingest_ok : (demo_ingest demo_store).1 = Ok 1.
Proof. vm_compute. reflexivity. Qed.

Lemma demo_ingest_eq : demo_ingest demo_store = (Ok 1, (demo_ingest demo_store).2).
Proof. rewrite <-demo_ingest_ok. by destruct (demo_ingest demo_store). Qed.

Lemma demo_recs_ok : Forall rec_ok [demo_file x0a "a.pdf"].
Proof. by repeat constructor. Qed.
Lemma demo_recs_nodup : NoDup (fr_sha256 <$> [demo_file x0a "a.pdf"]).
Proof. apply NoDup_singleton. Qed.

(** Document 1 had the file a, then was updated to the file b; the upload of
    a again is taken for document 1 and supersedes b. *)
Definition versioned_db : Db :=
  let row b sup := mkFileRow 1 1 1 None (replicate 32 b) (str "1/blob") (Some (str "a.pdf")) None None JNull
    "ready" 7 sup in
  mkDb {[1; 2]}
    {[1 := mkDocumentRow 1 None None None None None "document" JNull 1 false "ready" 0
             (mkSync None None None None None 1 0)]}
    {[1 := row x0a (Some 50); 2 := row x0b None]} ∅ ∅ ∅ ∅ ∅ [] (mkSeqs 2 3 1 9).

Lemma old_version_upload_reverts_document :
  let r := @transactional_ingest plain_aead demo_builder 100 (demo_doc KDocument) [demo_file x0a "a.pdf"] []
    [[]] (mkStore true versioned_db None []) in
  r.1 = Ok 1 ∧ f_superseded_at <$> files (st_db r.2) !! 1 = Some None ∧
  f_superseded_at <$> files (st_db r.2) !! 2 = Some (Some 100).
Proof. vm_compute. done. Qed.

(** Two pages with the same content collapse to one row, and the upload is
    not recognised when it comes again. *)
Lemma duplicate_pages_never_match :
  let up s := @transactional_ingest plain_aead demo_builder 100 (demo_doc KDocument)
    [demo_file x0a "a.pdf"; demo_file x0a "b.pdf"] [] [[]; []] s in
  let s1 := (up (mkStore true empty_db None [])).2 in
  (up (mkStore true empty_db None [])).1 = Ok 1 ∧ size (files (st_db s1)) = 1%nat ∧ (up s1).1 = Ok 2.
Proof. vm_compute. done. Qed.

Lemma ingest_exact_witness :
  (demo_ingest demo_store).1 = Ok 1 ∧
  ∃ fids, plain <$> (rows_where (doc_chunks 1 1) (chunks (st_db (demo_ingest demo_store).2))).*2
    ≡ₚ upload_rows 1 (zip fids [[demo_chunk]]).
Proof.
  split; [exact demo_ingest_ok|].
  destruct (@ingest_exact plain_aead demo_builder 100 (demo_doc KDocument) [demo_file x0a "a.pdf"] [5]
    [[demo_chunk]] demo_store 1 (demo_ingest demo_store).2 empty_db_ok demo_recs_ok demo_recs_nodup
    demo_ingest_eq) as (_ & fids & _ & _ & _ & Hc & _).
  exists fids. exact Hc.
Defined.

Lemma reingest_idempotent_witness :
  let s1 := (demo_ingest demo_store).2 in
  (demo_ingest s1).1 = Ok 1 ∧ 1 = 1 ∧
  (rows_where (doc_files 1 1) (files (st_db (demo_ingest s1).2))).*1
    ≡ₚ (rows_where (doc_files 1 1) (files (st_db s1))).*1.
Proof.
  set (s1 := (demo_ingest demo_store).2). assert (E : (demo_ingest s1).1 = Ok 1) by (vm_compute; reflexivity).
  split; [exact E|].
  apply (@reingest_idempotent plain_aead demo_builder 100 100 (demo_doc KDocument) (demo_doc KDocument)
    [demo_file x0a "a.pdf"] [5] [5] [[demo_chunk]] [[demo_chunk]] demo_store s1 (demo_ingest s1).2 1 1).
  - exact empty_db_ok.
  - exact demo_recs_ok.
  - exact demo_recs_nodup.
  - discriminate.
  - simpl; lia.
  - simpl; lia.
  - reflexivity.
  - exact demo_ingest_eq.
  - change ((demo_ingest s1) = (Ok 1, (demo_ingest s1).2)). rewrite <-E. by destruct (demo_ingest s1).
Defined.

Lemma ingest_readback_witness :
  (demo_ingest demo_store).1 = Ok 1 ∧
  ∃ d s'', @get_document plain_aead 1 1 (demo_ingest demo_store).2 = (Ok (Some d), s'') ∧
    doc_summary d = Some (str "A summary").
Proof.
  split; [exact demo_ingest_ok|].
  destruct (@ingest_readback plain_aead plain_aead_laws demo_builder 100 (demo_doc KDocument)
    [demo_file x0a "a.pdf"] [5] [[demo_chunk]] demo_store 1 (demo_ingest demo_store).2 empty_db_ok
    demo_recs_ok demo_recs_nodup ltac:(repeat constructor) I demo_ingest_eq)
    as (d & s'' & Hg & _ & _ & Hs & _).
  exists d, s''. split; [exact Hg|exact Hs].
Defined.

Lemma email_never_stored_witness :
  doc_kind (demo_doc KEmail) = KEmail ∧
  is_ok (@upsert_document plain_aead 100 (demo_doc KEmail) demo_store).1 = false.
Proof.
  split; [reflexivity|].
  apply (@email_never_stored plain_aead demo_builder 100 (demo_doc KEmail) [] [] [] demo_store eq_refl).
Defined.

Definition demo_op : store_op :=
  OIngest 100 (demo_doc KDocument) [demo_file x0a "a.pdf"] [5] [[demo_chunk]].

Lemma store_invariant_witness :
  db_ok (st_db (@store_history plain_aead demo_builder [demo_op; OClearLlmTags 1 1] demo_store)).
Proof.
  apply (@store_invariant plain_aead demo_builder [demo_op; OClearLlmTags 1 1] demo_store).
  - constructor; [exact demo_recs_ok|]. constructor; [exact I|constructor].
  - exact empty_db_ok.
Defined.

Lemma tenant_isolation_witness :
  store_op_tenant demo_store demo_op = 1 ∧
  ∀ k r, dr_tenant r <> 1 ->
    (documents (st_db demo_store) !! k = Some r <->
     documents (st_db (@store_exec plain_aead demo_builder demo_op demo_store)) !! k = Some r).
Proof.
  split; [reflexivity|].
  apply (@tenant_isolation plain_aead demo_builder demo_op demo_store demo_recs_ok empty_db_ok).
Defined.

(** Tenant 2 reads the same before and after an ingest of tenant 1. *)
Lemma reads_own_rows_only_witness :
  (@store_read plain_aead 2 QListDocuments demo_store).1 = Ok (RDocuments []) ∧
  (@store_read plain_aead 2 QListDocuments demo_store).1
    = (@store_read plain_aead 2 QListDocuments (set_db demo_store versioned_db)).1.
Proof.
  split; [reflexivity|].
  apply (@reads_own_rows_only plain_aead 2 QListDocuments). split; [reflexivity..|]. split; simpl.
  - intros k r Hr. rewrite lookup_empty. split; [done|]. intros [_ <-]%lookup_singleton_Some. done.
  - intros k r Hr. rewrite lookup_empty. split; [done|].
    intros [[_ <-]|[_ [_ <-]%lookup_singleton_Some]]%lookup_insert_Some; done.
  - done.
  - intros k r Hr. split; [|by rewrite lookup_empty]. intros [_ <-]%lookup_singleton_Some. done.
  - done.
  - done.
  - done.
  - done.
Defined.
