(* ===== verification/Search.v ===== *)
(** * Retrieval (core/src/query.rs, store/src/hybrid_search.rs)

    Reciprocal rank fusion of a vector and a keyword ranking, the rollup of
    chunks to documents, and the two search paths of the store.  The vector
    index and the BM25 index are parameters that return some of the candidate
    rows in an order of their own; the iteration order of a [HashMap] is a
    parameter too, and the theorems show that results do not depend on it. *)

From stdpp Require Import base gmap list strings sorting.
From Stdlib Require Import ZArith Lia Strings.Byte SpecFloat.
From S2P Require Import Prelude StableSort FloatModel Text Json Role Blob Envelope ColumnCrypt Schema.
From S2P Require Import PgStore StoreIngest.
Open Scope Z_scope.

(** ** Hash maps

    Iterating a map gives its entries in an order chosen by the hasher. *)

Class HashOrder := {
  hash_iter : ∀ V, gmap Z V -> list (Z * V);
  hash_iter_perm : ∀ V (m : gmap Z V), hash_iter V m ≡ₚ map_to_list m;
}.
Arguments hash_iter {_ V} m.
Arguments hash_iter_perm {_ V} m.

(** ** Queries and hits *)

Record QueryFilters := mkFilters {
  qf_kinds : list DocKind;
  qf_tags : list chars;
  qf_created_after : option Z;
  qf_created_before : option Z;
}.

Record Query := mkQuery { q_text : chars; q_filters : QueryFilters; q_top_k : Z }.

Record Hit := mkHit {
  h_document_id : Z;
  h_score : f32;
  h_title : option chars;
  h_snippet : chars;
  h_file_id : Z;
  h_page_no : option Z;
  h_ts_offset : option f64;
  h_kind : option string;
}.

Record ChunkHit := mkChunkHit {
  chit_chunk_id : Z;
  chit_document_id : Z;
  chit_score : f32;
  chit_file_id : Z;
  chit_page_no : option Z;
  chit_ts_offset : option f64;
  chit_snippet : chars;
  chit_title : option chars;
  chit_kind : option string;
}.

(** ** Fusion *)

Definition RRF_K : Z := 60.

(** [1.0 / (k + (rank as u32 + 1) as f32)]. *)
Definition rrf_contribution (k : f32) (rank : Z) : f32 :=
  f32_div (f32_of_Z 1) (f32_add k (f32_of_Z (wrap u32 (wrap u32 rank + 1)))).

Definition add_score (scores : gmap Z f32) (id : Z) (x : f32) : gmap Z f32 :=
  <[id := f32_add (default (f32_of_Z 0) (scores !! id)) x]> scores.

Fixpoint add_ranked (k : f32) (rank : Z) (ids : list Z) (scores : gmap Z f32) : gmap Z f32 :=
  match ids with
  | [] => scores
  | id :: ids' => add_ranked k (rank + 1) ids' (add_score scores id (rrf_contribution k rank))
  end.

Definition fused_scores (vec_ranked kw_ranked : list Z) (k : Z) : gmap Z f32 :=
  add_ranked (f32_of_Z k) 0 kw_ranked (add_ranked (f32_of_Z k) 0 vec_ranked ∅).

Definition rrf_fuse `{HashOrder} (vec_ranked kw_ranked : list Z) (k : Z) : list (Z * f32) :=
  sort_scores snd fst (hash_iter (fused_scores vec_ranked kw_ranked k)).

(** ** Rollup *)

Definition hit_of (ch : ChunkHit) : Hit :=
  mkHit (chit_document_id ch) (chit_score ch) (chit_title ch) (chit_snippet ch) (chit_file_id ch)
    (chit_page_no ch) (chit_ts_offset ch) (chit_kind ch).

(** [entry(ch.document_id).or_insert(ch)], replaced by a strictly better chunk. *)
Definition keep_best (best : gmap Z ChunkHit) (ch : ChunkHit) : gmap Z ChunkHit :=
  let entry := default ch (best !! chit_document_id ch) in
  <[chit_document_id ch := if f_lt (chit_score entry) (chit_score ch) then ch else entry]> best.

Definition document_rollup `{HashOrder} (chunk_hits : list ChunkHit) : list Hit :=
  let best := foldl keep_best ∅ chunk_hits in
  sort_scores h_score h_document_id ((λ kv, hit_of kv.2) <$> hash_iter best).

(** ** The two arms *)

Record ChunkRow := mkChunkRow {
  cr_chunk_id : Z;
  cr_document_id : Z;
  cr_file_id : Z;
  cr_page_no : option Z;
  cr_ts_offset : option f64;
  cr_content : chars;
  cr_content_enc : option bytes;
  cr_title : option chars;
  cr_kind : option string;
}.

Definition OVERSCAN_FACTOR : Z := 8.
Definition OVERSCAN_FLOOR : Z := 256.
Definition OVERSCAN_CEILING : Z := 1000.
Definition overscan_limit (top_k : Z) : Z :=
  Z.max OVERSCAN_FLOOR (Z.min (saturating_mul usize top_k OVERSCAN_FACTOR) OVERSCAN_CEILING).

Fixpoint dedup_rows (seen : gset Z) (room : nat) (rows : list ChunkRow) : list ChunkRow :=
  match rows with
  | [] => []
  | row :: rows' =>
      if decide (cr_document_id row ∈ seen) then dedup_rows seen room rows'
      else match room with
           | O => [row]
           | S room' => row :: dedup_rows ({[cr_document_id row]} ∪ seen) room' rows'
           end
  end.
(** The loop breaks when [top_k] rows are kept. *)
Definition dedup_best_chunk_per_document (rows : list ChunkRow) (top_k : Z) : list ChunkRow :=
  if top_k =? 0 then [] else dedup_rows ∅ (Z.to_nat top_k - 1) rows.

(** The indexes: an order on some of the rows the query selects, at most as
    many as its limit, or an error of the query.  They see the whole database:
    an approximate index looks at a window over the rows of all tenants. *)
Class SearchIndex := {
  vector_rank : Db -> list f32 -> Z -> list ChunkRow -> result (list ChunkRow) DbError;
  bm25_rank : Db -> chars -> Z -> list ChunkRow -> result (list ChunkRow) DbError;
}.
Class SearchIndexLaws `{SearchIndex} : Prop := {
  vector_rank_some db e n rows l :
    0 <= n -> vector_rank db e n rows = Ok l -> l ⊆+ rows ∧ Z.of_nat (length l) <= n;
  bm25_rank_some db q n rows l :
    0 <= n -> bm25_rank db q n rows = Ok l -> l ⊆+ rows ∧ Z.of_nat (length l) <= n;
}.

Section search.
Context `{Aead} `{HashOrder} `{SearchIndex}.

(** [SELECT id FROM tags WHERE name = ANY($1)]. *)
Definition resolve_tag_ids_for_filter (t : Z) (names : list chars) : dbm (list Z) :=
  asks (λ s, (rows_where (λ _ r, rls t (t_tenant r) && bool_decide (t_name r ∈ names))
    (tags (st_db s))).*1).

(** The WHERE clauses of [push_filters] on the joined document. *)
Definition tag_clause (db : Db) (t : Z) (tag_ids : list Z) (d : Z) : bool :=
  match tag_ids with
  | [] => true
  | _ => (length (filter (λ tag, doc_visible db t d = true ∧ is_Some (doc_tags db !! (d, tag)))
            (remove_dups tag_ids)) =? length tag_ids)%nat
  end.
Definition push_filters (db : Db) (t : Z) (f : QueryFilters) (tag_ids : list Z) (d : Z)
    (r : DocumentRow) : bool :=
  match qf_kinds f with [] => true | ks => bool_decide (dr_kind r ∈ (as_str <$> ks)) end
  && tag_clause db t tag_ids d
  && match qf_created_after f with None => true | Some a => a <=? dr_created_at r end
  && match qf_created_before f with None => true | Some b => dr_created_at r <=? b end.

(** [build_base_select] with the filters: the live chunks joined with their
    documents, both through row-level security. *)
Definition chunk_select (db : Db) (t : Z) (f : QueryFilters) (tag_ids : list Z) (kc : Z * ChunkRec)
    : option ChunkRow :=
  let '(k, c) := kc in
  match documents db !! c_document c with
  | None => None
  | Some r =>
      if rls t (dr_tenant r) && push_filters db t f tag_ids (c_document c) r
      then Some (mkChunkRow k (c_document c) (c_file c) (c_page_no c) (c_ts_offset c) (c_content c)
             (c_content_enc c) (dr_title r) (Some (dr_kind r)))
      else None
  end.
Definition build_base_select (db : Db) (t : Z) (f : QueryFilters) (tag_ids : list Z) : list ChunkRow :=
  omap (chunk_select db t f tag_ids) (rows_where (λ _ c, rls t (c_tenant c) && live_chunk c) (chunks db)).

Definition execute_vector_query (t : Z) (q : Query) (embedding : list f32) (tag_ids : list Z)
    : dbm (list ChunkRow) :=
  found ← asks (λ s, vector_rank (st_db s) embedding (overscan_limit (q_top_k q))
                       (build_base_select (st_db s) t (q_filters q) tag_ids));
  rows ← of_res found;
  mret (dedup_best_chunk_per_document rows (q_top_k q)).

(** Quotes are replaced by spaces for the query parser. *)
Definition sanitise (s : chars) : chars :=
  (λ c, if (c =? 39) || (c =? 34) then 32 else c) <$> s.

Definition execute_keyword_query (t : Z) (q : Query) (tag_ids : list Z) : dbm (list ChunkRow) :=
  match trim (q_text q) with
  | [] => mret []
  | trimmed =>
      found ← asks (λ s, bm25_rank (st_db s) (trim (sanitise trimmed)) (overscan_limit (q_top_k q))
                           (build_base_select (st_db s) t (q_filters q) tag_ids));
      match found with
      | Err _ => mret []
      | Ok rows => mret (dedup_best_chunk_per_document rows (q_top_k q))
      end
  end.

Definition decrypt_snippet (dek : option bytes) (row : ChunkRow) : chars :=
  match cr_content_enc row, dek with
  | Some enc, Some d => match decrypt_column d enc with Ok s => s | Err _ => cr_content row end
  | _, _ => cr_content row
  end.

Definition chunk_hit (dek : option bytes) (row : ChunkRow) (score : f32) : ChunkHit :=
  mkChunkHit (cr_chunk_id row) (cr_document_id row) score (cr_file_id row) (cr_page_no row)
    (cr_ts_offset row) (decrypt_snippet dek row) (cr_title row) (cr_kind row).

(** [iter().map(|c| (c.chunk_id, c)).collect()]: a later row wins. *)
Definition chunk_map (rows : list ChunkRow) : gmap Z ChunkRow :=
  foldl (λ m c, <[cr_chunk_id c := c]> m) ∅ rows.

Definition ranked_rows_to_chunk_hits (t : Z) (ranked : list (Z * f32)) (m : gmap Z ChunkRow)
    : dbm (list ChunkHit) :=
  r ← tried (get_or_create_tenant_dek t);
  let dek := match r with Ok d => Some d | Err _ => None end in
  mret (omap (λ hit, (λ row, chunk_hit dek row hit.2) <$> m !! hit.1) ranked).

(** ** The search paths *)

Definition resolve_tags (t : Z) (q : Query) : dbm (list Z) :=
  match qf_tags (q_filters q) with
  | [] => mret []
  | names => resolve_tag_ids_for_filter t names
  end.

(** Both paths stop when no requested tag exists. *)
Definition no_tag_resolved (q : Query) (tag_ids : list Z) : bool :=
  negb (bool_decide (qf_tags (q_filters q) = [])) && bool_decide (tag_ids = []).

Definition run_hybrid_search (t : Z) (q : Query) (embedding : list f32) : dbm (list Hit) :=
  if q_top_k q =? 0 then mret []
  else
    arms ← tx (tag_ids ← resolve_tags t q;
               if no_tag_resolved q tag_ids then mret None
               else vec_chunks ← execute_vector_query t q embedding tag_ids;
                    kw_chunks ← execute_keyword_query t q tag_ids;
                    mret (Some (vec_chunks, kw_chunks)));
    match arms with
    | None => mret []
    | Some (vec_chunks, kw_chunks) =>
        let fused := rrf_fuse (cr_chunk_id <$> vec_chunks) (cr_chunk_id <$> kw_chunks) RRF_K in
        chunk_hits ← ranked_rows_to_chunk_hits t fused (chunk_map (vec_chunks ++ kw_chunks));
        mret (take (Z.to_nat (q_top_k q)) (document_rollup chunk_hits))
    end.

(** [1.0 / (rank as f32 + 1.0)]. *)
Definition rank_score (rank : nat) : f32 :=
  f32_div (f32_of_Z 1) (f32_add (f32_of_Z (Z.of_nat rank)) (f32_of_Z 1)).

Definition run_keyword_search (t : Z) (q : Query) : dbm (list Hit) :=
  if q_top_k q =? 0 then mret []
  else
    arm ← tx (tag_ids ← resolve_tags t q;
              if no_tag_resolved q tag_ids then mret None
              else kw_chunks ← execute_keyword_query t q tag_ids; mret (Some kw_chunks));
    match arm with
    | None => mret []
    | Some kw_chunks =>
        let ranked := imap (λ rank c, (cr_chunk_id c, rank_score rank)) kw_chunks in
        chunk_hits ← ranked_rows_to_chunk_hits t ranked (chunk_map kw_chunks);
        mret (take (Z.to_nat (q_top_k q)) (document_rollup chunk_hits))
    end.
End search.

(** ** Fusion against its formula *)

(** The contributions of one ranking to a chunk, one per occurrence. *)
Fixpoint rank_contribs (k : f32) (rank : Z) (ids : list Z) (id : Z) : list f32 :=
  match ids with
  | [] => []
  | x :: ids' =>
      (if x =? id then [rrf_contribution k rank] else []) ++ rank_contribs k (rank + 1) ids' id
  end.

(** The sum of [1 / (k + rank)] over both rankings. *)
Definition rrf_score (vec_ranked kw_ranked : list Z) (k id : Z) : f32 :=
  foldl f32_add (f32_of_Z 0)
    (rank_contribs (f32_of_Z k) 0 vec_ranked id ++ rank_contribs (f32_of_Z k) 0 kw_ranked id).

Definition rrf_reference (vec_ranked kw_ranked : list Z) (k : Z) : list (Z * f32) :=
  sort_scores snd fst
    ((λ id, (id, rrf_score vec_ranked kw_ranked k id)) <$> remove_dups (vec_ranked ++ kw_ranked)).

Lemma rank_contribs_nil k r ids id : rank_contribs k r ids id = [] <-> id ∉ ids.
Proof.
  revert r. induction ids as [|x ids IH]; intros r; simpl; [set_solver|].
  destruct (Z.eqb_spec x id); simpl; rewrite ?IH; set_solver.
Qed.

Lemma add_ranked_lookup k r ids m id :
  add_ranked k r ids m !! id =
    if decide (id ∈ ids) then Some (foldl f32_add (default (f32_of_Z 0) (m !! id)) (rank_contribs k r ids id))
    else m !! id.
Proof.
  revert r m. induction ids as [|x ids IH]; intros r m; cbn [add_ranked rank_contribs].
  { by rewrite decide_False by set_solver. }
  rewrite IH. unfold add_score. destruct (Z.eqb_spec x id) as [->|Hx].
  - rewrite lookup_insert_eq, (decide_True (P:=id ∈ id :: ids)) by set_solver. cbn.
    destruct (decide (id ∈ ids)) as [|Hin]; [done|].
    apply (rank_contribs_nil k (r + 1)) in Hin. by rewrite Hin.
  - rewrite lookup_insert_ne by done. cbn [app].
    destruct (decide (id ∈ ids)), (decide (id ∈ x :: ids)); set_solver.
Qed.

Lemma fused_lookup vec kw k id :
  fused_scores vec kw k !! id =
    if decide (id ∈ vec ++ kw) then Some (rrf_score vec kw k id) else None.
Proof.
  unfold fused_scores, rrf_score. rewrite !add_ranked_lookup, lookup_empty, foldl_app.
  destruct (decide (id ∈ kw)) as [Hk|Hk].
  - rewrite (decide_True (P:=id ∈ vec ++ kw)) by set_solver.
    case_decide as Hv; simpl; [done|]. apply (rank_contribs_nil (f32_of_Z k) 0) in Hv. by rewrite Hv.
  - destruct (decide (id ∈ vec)) as [Hv|Hv]; [rewrite decide_True by set_solver|
      rewrite decide_False by set_solver; done].
    apply (rank_contribs_nil (f32_of_Z k) 0) in Hk. by rewrite Hk.
Qed.

Lemma rank_contribs_nonneg k r ids id :
  f_nonneg k = true -> Forall (λ x, f_nonneg x = true) (rank_contribs k r ids id).
Proof.
  intros Hk. revert r. induction ids as [|x ids IH]; intros r; simpl; [constructor|].
  apply Forall_app. split; [|by apply IH]. destruct (x =? id); repeat constructor.
  apply f32_inv_nonneg, f32_add_nonneg, f32_of_Z_nonneg; [done|].
  apply (wrap_in_ty u32).
Qed.

Lemma sum_nonneg x xs :
  f_nonneg x = true -> Forall (λ x, f_nonneg x = true) xs -> f_nonneg (foldl f32_add x xs) = true.
Proof.
  intros Hx Hxs. revert x Hx. induction Hxs as [|y ys Hy Hys IH]; intros x Hx; simpl; [done|].
  apply IH. by apply f32_add_nonneg.
Qed.

(** A fused score is a number: never negative and never NaN. *)
Lemma rrf_score_nonneg vec kw k id : 0 <= k -> f_nonneg (rrf_score vec kw k id) = true.
Proof.
  intros Hk. apply sum_nonneg; [done|].
  apply Forall_app. split; apply rank_contribs_nonneg; by apply f32_of_Z_nonneg.
Qed.

Lemma reference_entries vec kw k :
  let l := (λ id, (id, rrf_score vec kw k id)) <$> remove_dups (vec ++ kw) in
  0 <= k -> Forall (λ p, p.2 <> SpecFloat.S754_nan) l ∧ NoDup l.*1.
Proof.
  intros l Hk. split.
  - apply Forall_fmap, Forall_true. intros id. by apply f_nonneg_not_nan, rrf_score_nonneg.
  - subst l. rewrite <-list_fmap_compose. unfold compose. simpl. rewrite list_fmap_id. apply NoDup_remove_dups.
Qed.

Section hash.
Context `{HashOrder}.

Lemma hash_iter_elem {V} (m : gmap Z V) k v : (k, v) ∈ hash_iter m <-> m !! k = Some v.
Proof. by rewrite hash_iter_perm, elem_of_map_to_list. Qed.

Lemma hash_iter_NoDup {V} (m : gmap Z V) : NoDup (hash_iter m).*1.
Proof. rewrite hash_iter_perm. apply NoDup_fst_map_to_list. Qed.

Lemma fused_entries vec kw k :
  hash_iter (fused_scores vec kw k) ≡ₚ
    (λ id, (id, rrf_score vec kw k id)) <$> remove_dups (vec ++ kw).
Proof.
  apply NoDup_Permutation.
  - eapply NoDup_fmap_1, hash_iter_NoDup.
  - apply NoDup_fmap; [by intros ?? [=]|apply NoDup_remove_dups].
  - intros [id x]. rewrite hash_iter_elem, fused_lookup, list_elem_of_fmap.
    setoid_rewrite elem_of_remove_dups. case_decide; naive_solver.
Qed.

Lemma rrf_fuse_eq vec kw k : 0 <= k -> rrf_fuse vec kw k = rrf_reference vec kw k.
Proof.
  intros Hk. destruct (reference_entries vec kw k Hk) as [Hn Hd]. apply sort_scores_unique.
  - by rewrite fused_entries.
  - unfold rrf_reference. by rewrite sort_scores_perm, fused_entries.
  - by apply sort_scores_better.
  - rewrite fused_entries. apply Hd.
Qed.

Lemma rrf_fuse_elem vec kw k id x :
  0 <= k -> (id, x) ∈ rrf_fuse vec kw k <-> (id ∈ vec ∨ id ∈ kw) ∧ x = rrf_score vec kw k id.
Proof.
  intros Hk. rewrite rrf_fuse_eq by done. unfold rrf_reference. rewrite sort_scores_perm, list_elem_of_fmap.
  setoid_rewrite elem_of_remove_dups. setoid_rewrite elem_of_app. naive_solver.
Qed.

(** C12. Fusing two rankings computes the reciprocal-rank formula: whatever
    the iteration order of the hash map, the result is the list of the
    distinct chunks of both rankings, each with the sum of [1 / (k + rank)]
    over its positions, in strictly descending order of score with ties by
    ascending id, and no score is NaN. *)
Theorem rrf_fuse_reference (vec_ranked kw_ranked : list Z) (k : Z) :
  0 <= k ->
  let fused := rrf_fuse vec_ranked kw_ranked k in
  fused = rrf_reference vec_ranked kw_ranked k ∧
  StronglySorted (better snd fst) fused ∧
  (∀ id x, (id, x) ∈ fused <->
     (id ∈ vec_ranked ∨ id ∈ kw_ranked) ∧ x = rrf_score vec_ranked kw_ranked k id) ∧
  Forall (λ p, f_nonneg p.2 = true) fused.
Proof.
  intros Hk fused. destruct (reference_entries vec_ranked kw_ranked k Hk) as [Hn Hd].
  split_and!; [by apply rrf_fuse_eq| |intros; by apply rrf_fuse_elem|].
  - unfold fused. rewrite rrf_fuse_eq by done. by apply sort_scores_better.
  - apply Forall_forall. intros [id x] [_ ->]%rrf_fuse_elem; [|done]. by apply rrf_score_nonneg.
Qed.
End hash.

(** ** Rollup against its specification *)

(** [ch] is the first of the best-scored chunks of its document. *)
Definition first_best (hits : list ChunkHit) (ch : ChunkHit) : Prop :=
  ∃ l1 l2, hits = l1 ++ ch :: l2 ∧
    Forall (λ c, chit_document_id c = chit_document_id ch -> f_lt (chit_score c) (chit_score ch) = true) l1 ∧
    Forall (λ c, chit_document_id c = chit_document_id ch -> f_lt (chit_score ch) (chit_score c) = false) l2.

Definition scored (ch : ChunkHit) : Prop := chit_score ch <> SpecFloat.S754_nan.

Lemma first_best_snoc_other hits ch c :
  chit_document_id c <> chit_document_id ch -> first_best hits ch -> first_best (hits ++ [c]) ch.
Proof.
  intros Hd (l1 & l2 & -> & H1 & H2). exists l1, (l2 ++ [c]). rewrite <-app_assoc. split_and!; [done|done|].
  apply Forall_app. split; [done|]. by constructor.
Qed.

Lemma first_best_max hits ch c :
  Forall scored hits -> first_best hits ch -> c ∈ hits -> chit_document_id c = chit_document_id ch ->
  f_lt (chit_score ch) (chit_score c) = false.
Proof.
  intros Hs (l1 & l2 & -> & H1 & H2) Hc Hd. rewrite !Forall_forall in *.
  rewrite elem_of_app, elem_of_cons in Hc. destruct Hc as [Hc|[->|Hc]]; [|..|by apply H2].
  - specialize (H1 c Hc Hd).
    rewrite f_lt_key in H1 |- * by (apply Hs; set_solver). rewrite lex3_antisym. by destruct (lex3 _ _).
  - rewrite f_lt_key by (apply Hs; set_solver). by rewrite lex3_refl.
Qed.

Lemma first_best_unique hits a b :
  first_best hits a -> first_best hits b -> chit_document_id a = chit_document_id b -> a = b.
Proof.
  intros (l1 & l2 & -> & H1 & H2) (k1 & k2 & E & K1 & K2) Hd. rewrite !Forall_forall in *.
  apply app_eq_inv in E as [(k & -> & E)|(k & -> & E)].
  - destruct k as [|c k]; simplify_eq/=; [done|].
    assert (f_lt (chit_score c) (chit_score a) = true) as Hlt by (apply H1; set_solver).
    rewrite K2 in Hlt; [done|set_solver|done].
  - destruct k as [|c k]; simplify_eq/=; [done|].
    assert (f_lt (chit_score c) (chit_score b) = true) as Hlt by (apply K1; set_solver).
    rewrite H2 in Hlt; [done|set_solver|done].
Qed.

(** Lists with one best hit per document of the same documents. *)
Lemma best_hits_perm hits (l l' : list Hit) :
  NoDup (h_document_id <$> l) -> (h_document_id <$> l') ≡ₚ (h_document_id <$> l) ->
  (∀ h, h ∈ l -> ∃ ch, h = hit_of ch ∧ first_best hits ch) ->
  (∀ h, h ∈ l' -> ∃ ch, h = hit_of ch ∧ first_best hits ch) ->
  l' ≡ₚ l.
Proof.
  intros Hd Hp Hl Hl'.
  assert (Hsub : ∀ k k' : list Hit, (h_document_id <$> k') ≡ₚ (h_document_id <$> k) ->
    (∀ h, h ∈ k -> ∃ ch, h = hit_of ch ∧ first_best hits ch) ->
    (∀ h, h ∈ k' -> ∃ ch, h = hit_of ch ∧ first_best hits ch) -> ∀ h, h ∈ k' -> h ∈ k).
  { intros k k' Hk H1 H2 h Hh. assert (Hi : h_document_id h ∈ h_document_id <$> k)
      by (rewrite <-Hk; by apply list_elem_of_fmap_2).
    apply list_elem_of_fmap in Hi as (h' & E & Hh').
    destruct (H1 h' Hh') as (c' & -> & Hc'), (H2 h Hh) as (c & -> & Hc).
    by rewrite (first_best_unique hits c c'). }
  apply NoDup_Permutation; [|by eapply NoDup_fmap_1|].
  - eapply NoDup_fmap_1. by rewrite Hp.
  - intros h. split; [by apply Hsub|by apply (Hsub l' l)].
Qed.

(** The map after the loop: for every document its first best chunk. *)
Lemma keep_best_spec hits :
  Forall scored hits ->
  ∀ d, match foldl keep_best ∅ hits !! d with
       | Some ch => chit_document_id ch = d ∧ first_best hits ch
       | None => d ∉ (chit_document_id <$> hits)
       end.
Proof.
  induction hits as [|c hits IH] using rev_ind; intros Hs d.
  { simpl. rewrite lookup_empty. set_solver. }
  apply Forall_app in Hs as [Hs Hc]. rewrite Forall_singleton in Hc. specialize (IH Hs).
  rewrite foldl_app. cbn [foldl]. unfold keep_best at 1. rewrite fmap_app. cbn [fmap list_fmap].
  destruct (decide (chit_document_id c = d)) as [<-|Hd].
  - rewrite lookup_insert_eq. specialize (IH (chit_document_id c)).
    destruct (foldl keep_best ∅ hits !! _) as [e|]; simpl.
    + destruct IH as [He Hb]. destruct (f_lt (chit_score e) (chit_score c)) eqn:E.
      * split; [done|]. exists hits, []. split_and!; [done| |constructor].
        apply Forall_forall. intros c' Hc' Hd'.
        assert (Hm := first_best_max hits e c' Hs Hb Hc' ltac:(congruence)).
        assert (scored e) by (destruct Hb as (l1 & l2 & -> & _); rewrite Forall_forall in Hs; apply Hs; set_solver).
        assert (scored c') by (rewrite Forall_forall in Hs; auto).
        rewrite f_lt_key in E, Hm |- * by done.
        destruct (lex3 (f_key (chit_score e)) (f_key (chit_score c'))) eqn:E2; [|done|].
        { apply lex3_eq in E2. by rewrite <-E2. }
        destruct (lex3 (f_key (chit_score e)) (f_key (chit_score c))) eqn:E1; try done.
        rewrite lex3_antisym in E2. rewrite (lex3_lt_trans _ (f_key (chit_score e)) _); [done| |done].
        by destruct (lex3 (f_key (chit_score c')) _).
      * split; [done|]. destruct Hb as (l1 & l2 & -> & H1 & H2). exists l1, (l2 ++ [c]).
        rewrite <-app_assoc. split_and!; [done|done|]. apply Forall_app. split; [done|]. by constructor.
    + assert (Hlt : f_lt (chit_score c) (chit_score c) = false)
        by (rewrite f_lt_key by done; by rewrite lex3_refl).
      rewrite Hlt. split; [done|]. exists hits, []. split_and!; [done| |constructor].
      apply Forall_forall. intros c' Hc' E. destruct IH. rewrite <-E. by apply list_elem_of_fmap_2.
  - rewrite lookup_insert_ne by done. specialize (IH d).
    destruct (foldl keep_best ∅ hits !! d) as [e|]; [|set_solver].
    destruct IH as [<- Hb]. split; [done|]. by apply first_best_snoc_other.
Qed.

Section rollup.
Context `{HashOrder}.

Lemma best_entries hits d ch :
  Forall scored hits -> (d, ch) ∈ hash_iter (foldl keep_best ∅ hits) ->
  chit_document_id ch = d ∧ first_best hits ch.
Proof.
  intros Hs Hin%hash_iter_elem. pose proof (keep_best_spec hits Hs d) as Hk. by rewrite Hin in Hk.
Qed.

Lemma rollup_ids hits :
  Forall scored hits ->
  h_document_id <$> ((λ kv : Z * ChunkHit, hit_of kv.2) <$> hash_iter (foldl keep_best ∅ hits))
  = (hash_iter (foldl keep_best ∅ hits)).*1.
Proof.
  intros Hs. rewrite <-list_fmap_compose. apply list_fmap_ext. intros i [d ch] Hi.
  simpl. by apply list_elem_of_lookup_2, best_entries in Hi as [-> _].
Qed.

Lemma rollup_scored hits :
  Forall scored hits ->
  Forall (λ h, h_score h <> SpecFloat.S754_nan)
    ((λ kv : Z * ChunkHit, hit_of kv.2) <$> hash_iter (foldl keep_best ∅ hits)).
Proof.
  intros Hs. apply Forall_fmap, Forall_forall. intros [d ch] (_ & l1 & l2 & E & _)%best_entries; [|done].
  rewrite E, Forall_app, Forall_cons in Hs. naive_solver.
Qed.

Lemma document_rollup_spec (hits : list ChunkHit) (result : list Hit) :
  Forall scored hits ->
  document_rollup hits = result <->
  StronglySorted (better h_score h_document_id) result ∧
  (h_document_id <$> result) ≡ₚ remove_dups (chit_document_id <$> hits) ∧
  ∀ h, h ∈ result -> ∃ ch, h = hit_of ch ∧ first_best hits ch.
Proof.
  intros Hs. set (l := (λ kv : Z * ChunkHit, hit_of kv.2) <$> hash_iter (foldl keep_best ∅ hits)).
  assert (Hd : NoDup (h_document_id <$> l)) by (unfold l; rewrite rollup_ids by done; apply hash_iter_NoDup).
  assert (Hids : (h_document_id <$> l) ≡ₚ remove_dups (chit_document_id <$> hits)).
  { apply NoDup_Permutation; [done|apply NoDup_remove_dups|]. intros d. unfold l.
    rewrite rollup_ids, elem_of_remove_dups by done. pose proof (keep_best_spec hits Hs d) as Hk. split.
    - intros ([d' ch] & -> & Hin)%list_elem_of_fmap. apply best_entries in Hin as [<- (l1 & l2 & -> & _)]; [|done].
      simpl. apply list_elem_of_fmap_2. set_solver.
    - intros Hin. destruct (_ !! d) as [ch|] eqn:E; [|done].
      apply list_elem_of_fmap. exists (d, ch). split; [done|]. by apply hash_iter_elem. }
  assert (Hbest : ∀ h, h ∈ l -> ∃ ch, h = hit_of ch ∧ first_best hits ch).
  { intros h ([d ch] & -> & Hin)%list_elem_of_fmap. apply best_entries in Hin as [_ ?]; eauto. }
  assert (Hn := rollup_scored hits Hs). split.
  - intros <-. unfold document_rollup. fold l. split_and!; [by apply sort_scores_better| |].
    + by rewrite sort_scores_perm.
    + intros h. rewrite sort_scores_perm. apply Hbest.
  - intros (Hsort & Hp & Hr). apply sort_scores_unique; [done| |done|done].
    apply (best_hits_perm hits); [done|by rewrite Hp|done..].
Qed.

(** Rolling chunks up to documents, whatever the iteration order of the
    hash map: the result has exactly one hit per document of the input, the
    hit of the first of its best-scored chunks, in strictly descending order
    of score with ties by ascending document, and it is the only such list. *)
Theorem document_rollup_exact (hits : list ChunkHit) (result : list Hit) :
  Forall scored hits ->
  document_rollup hits = result <->
  StronglySorted (better h_score h_document_id) result ∧
  (h_document_id <$> result) ≡ₚ remove_dups (chit_document_id <$> hits) ∧
  ∀ h, h ∈ result -> ∃ ch, h = hit_of ch ∧ first_best hits ch.
Proof. apply document_rollup_spec. Qed.
End rollup.

(** ** One chunk per document *)

(** The rows whose document has no earlier row. *)
Fixpoint first_rows (seen : gset Z) (rows : list ChunkRow) : list ChunkRow :=
  match rows with
  | [] => []
  | row :: rows' =>
      if decide (cr_document_id row ∈ seen) then first_rows seen rows'
      else row :: first_rows ({[cr_document_id row]} ∪ seen) rows'
  end.

Lemma dedup_rows_take seen n rows : dedup_rows seen n rows = take (S n) (first_rows seen rows).
Proof.
  revert seen n. induction rows as [|row rows IH]; intros seen n; [done|]. cbn [dedup_rows first_rows].
  case_decide; [apply IH|]. destruct n; [done|]. rewrite IH. done.
Qed.

Lemma dedup_take rows k :
  0 <= k -> dedup_best_chunk_per_document rows k = take (Z.to_nat k) (first_rows ∅ rows).
Proof.
  intros Hk. unfold dedup_best_chunk_per_document. destruct (Z.eqb_spec k 0) as [->|?]; [done|].
  rewrite dedup_rows_take. f_equal. lia.
Qed.

Lemma first_rows_sublist seen rows : first_rows seen rows `sublist_of` rows.
Proof.
  revert seen. induction rows as [|row rows IH]; intros seen; cbn [first_rows]; [done|].
  case_decide; by constructor.
Qed.

Lemma first_rows_docs seen rows :
  NoDup (cr_document_id <$> first_rows seen rows) ∧
  ∀ d, d ∈ seen -> d ∉ cr_document_id <$> first_rows seen rows.
Proof.
  revert seen. induction rows as [|row rows IH]; intros seen; cbn [first_rows]; [split; [constructor|set_solver]|].
  case_decide as Hd; [apply IH|]. destruct (IH ({[cr_document_id row]} ∪ seen)) as [Hn Hs]. csimpl. split.
  - constructor; [|done]. apply Hs. set_solver.
  - intros d Hin. rewrite not_elem_of_cons. split; [set_solver|apply Hs; set_solver].
Qed.

Lemma dedup_sublist rows k : dedup_best_chunk_per_document rows k `sublist_of` rows.
Proof.
  unfold dedup_best_chunk_per_document. case_match; [apply sublist_nil_l|].
  rewrite dedup_rows_take. etrans; [apply sublist_take|apply first_rows_sublist].
Qed.

Lemma dedup_docs rows k : NoDup (cr_document_id <$> dedup_best_chunk_per_document rows k).
Proof.
  unfold dedup_best_chunk_per_document. case_match; [constructor|].
  rewrite dedup_rows_take, fmap_take. eapply sublist_NoDup; [|apply sublist_take].
  apply first_rows_docs.
Qed.

(** ** Ranks *)

Lemma rank_score_nonneg n : f_nonneg (rank_score n) = true.
Proof. apply f32_inv_nonneg, f32_add_nonneg; [apply f32_of_Z_nonneg; lia|done]. Qed.

Lemma rank_score_steps :
  forallb (λ n, f_lt (rank_score (S n)) (rank_score n)) (seq 0 1000) = true.
Proof. vm_compute. reflexivity. Qed.

(** Within the overscan window, a later rank has a strictly smaller score. *)
Lemma rank_score_decreasing i j : (i < j <= 1000)%nat -> f_lt (rank_score j) (rank_score i) = true.
Proof.
  assert (Hnn : ∀ n, rank_score n <> SpecFloat.S754_nan)
    by (intros; apply f_nonneg_not_nan, rank_score_nonneg).
  induction j as [|j IH]; intros Hij; [lia|].
  assert (Hstep : f_lt (rank_score (S j)) (rank_score j) = true).
  { pose proof rank_score_steps as Hall. rewrite forallb_forall in Hall. apply Hall. apply in_seq. lia. }
  destruct (decide (i = j)) as [->|]; [done|]. specialize (IH ltac:(lia)).
  rewrite f_lt_key in Hstep, IH |- * by done.
  destruct (lex3 (f_key (rank_score (S j))) _) eqn:E1; try done.
  destruct (lex3 (f_key (rank_score j)) _) eqn:E2; try done.
  by rewrite (lex3_lt_trans _ _ _ E1 E2).
Qed.

(** ** The map from chunk ids back to rows *)

Lemma chunk_map_snoc rows c : chunk_map (rows ++ [c]) = <[cr_chunk_id c := c]> (chunk_map rows).
Proof. unfold chunk_map. by rewrite foldl_app. Qed.

Lemma chunk_map_Some rows id row : chunk_map rows !! id = Some row -> row ∈ rows ∧ cr_chunk_id row = id.
Proof.
  induction rows as [|c rows IH] using rev_ind; [done|]. rewrite chunk_map_snoc, lookup_insert_Some.
  intros [[<- ->]|[_ [??]%IH]]; set_solver.
Qed.

Lemma chunk_map_lookup rows row :
  NoDup (cr_chunk_id <$> rows) -> row ∈ rows -> chunk_map rows !! cr_chunk_id row = Some row.
Proof.
  induction rows as [|c rows IH] using rev_ind; [set_solver|].
  rewrite fmap_app, chunk_map_snoc. cbn [fmap list_fmap]. intros (Hn & Hd & _)%NoDup_app Hin.
  apply elem_of_app in Hin as [Hin|Hin%list_elem_of_singleton]; [|subst; by rewrite lookup_insert_eq].
  rewrite lookup_insert_ne; [by apply IH|]. intros E. apply (Hd (cr_chunk_id row)).
  - by apply list_elem_of_fmap_2.
  - rewrite <-E. set_solver.
Qed.

(** ** The rows a search may use *)

Section results.
Context `{Aead} `{HashOrder} `{SearchIndex} `{!SearchIndexLaws}.

(** The document of a hit satisfies the query's filters; of the requested
    tags it carries every one that exists. *)
Record matches (db : Db) (t : Z) (f : QueryFilters) (d : Z) (r : DocumentRow) : Prop := {
  mt_kind : qf_kinds f = [] ∨ ∃ k, k ∈ qf_kinds f ∧ dr_kind r = as_str k;
  mt_after a : qf_created_after f = Some a -> a <= dr_created_at r;
  mt_before b : qf_created_before f = Some b -> dr_created_at r <= b;
  mt_tags tag row : tags db !! tag = Some row -> t_tenant row = t -> t_name row ∈ qf_tags f ->
    is_Some (doc_tags db !! (d, tag));
}.

(** A live chunk of the tenant, of a document of the tenant that matches. *)
Definition row_sound (db : Db) (t : Z) (f : QueryFilters) (row : ChunkRow) : Prop :=
  ∃ c r, chunks db !! cr_chunk_id row = Some c ∧ c_tenant c = t ∧ c_superseded_at c = None ∧
    c_document c = cr_document_id row ∧ c_file c = cr_file_id row ∧ c_page_no c = cr_page_no row ∧
    documents db !! cr_document_id row = Some r ∧ dr_tenant r = t ∧
    cr_title row = dr_title r ∧ cr_kind row = Some (dr_kind r) ∧
    matches db t f (cr_document_id row) r.

Lemma tag_clause_all (db : Db) (t : Z) (tag_ids : list Z) (d tag : Z) :
  NoDup tag_ids -> tag_clause db t tag_ids d = true -> tag ∈ tag_ids -> is_Some (doc_tags db !! (d, tag)).
Proof.
  intros Hd Hc Hin. unfold tag_clause in Hc. destruct tag_ids as [|x xs]; [set_solver|].
  set (l := x :: xs) in *. clearbody l. apply Nat.eqb_eq in Hc.
  assert (Hp : remove_dups l ≡ₚ l) by (apply NoDup_Permutation; [apply NoDup_remove_dups|done|apply elem_of_remove_dups]).
  rewrite <-(Permutation_length Hp) in Hc. rewrite <-elem_of_remove_dups in Hin.
  set (P := λ tag, doc_visible db t d = true ∧ is_Some (doc_tags db !! (d, tag))) in Hc.
  destruct (decide (P tag)) as [[_ ?]|Hn]; [done|]. exfalso.
  pose proof (length_filter_lt P (remove_dups l) tag Hin Hn). lia.
Qed.

Lemma resolved_ids (db : Db) (t : Z) (names : list chars) :
  let ids := (rows_where (λ _ r, rls t (t_tenant r) && bool_decide (t_name r ∈ names)) (tags db)).*1 in
  NoDup ids ∧ ∀ tag row, tags db !! tag = Some row -> t_tenant row = t -> t_name row ∈ names -> tag ∈ ids.
Proof.
  intros ids. split; [apply rows_where_NoDup|]. intros tag row Ht Ho Hn.
  apply list_elem_of_fmap. exists (tag, row). split; [done|]. apply rows_where_elem. split; [done|].
  unfold rls. rewrite Ho, Z.eqb_refl. by apply bool_decide_eq_true.
Qed.

(** The tag ids a search goes on with. *)
Definition tags_resolved (db : Db) (t : Z) (f : QueryFilters) (tag_ids : list Z) : Prop :=
  NoDup tag_ids ∧ ∀ tag row, tags db !! tag = Some row -> t_tenant row = t -> t_name row ∈ qf_tags f -> tag ∈ tag_ids.

Lemma resolve_tags_ok (t : Z) (q : Query) (s : Store) :
  ∃ tag_ids, resolve_tags t q s = (Ok tag_ids, s) ∧ tags_resolved (st_db s) t (q_filters q) tag_ids.
Proof.
  unfold resolve_tags, tags_resolved. destruct (qf_tags (q_filters q)) as [|n ns] eqn:E.
  - exists []. split; [done|]. split; [constructor|set_solver].
  - eexists. split; [done|]. apply (resolved_ids (st_db s) t (n :: ns)).
Qed.

Lemma chunk_select_sound db t f tag_ids k c row :
  tags_resolved db t f tag_ids -> chunks db !! k = Some c -> rls t (c_tenant c) && live_chunk c = true ->
  chunk_select db t f tag_ids (k, c) = Some row -> cr_chunk_id row = k ∧ row_sound db t f row.
Proof.
  intros [Hd Ht] Hc Hl. unfold chunk_select. destruct (documents db !! c_document c) as [r|] eqn:Er; [|done].
  destruct (rls t (dr_tenant r) && push_filters db t f tag_ids (c_document c) r) eqn:Ef; [|done].
  intros [= <-]. split; [done|]. unfold rls, live_chunk, push_filters in *. bool_to_prop.
  exists c, r. simpl. split_and!; try done. split.
  - destruct (qf_kinds f) as [|k0 ks]; [by left|]. right. bool_to_prop.
    match goal with Hk : dr_kind r ∈ _ |- _ => apply list_elem_of_fmap in Hk as (kd & -> & ?) end. eauto.
  - intros a Ha. rewrite Ha in *. by bool_to_prop.
  - intros b Hb. rewrite Hb in *. by bool_to_prop.
  - intros tag row Hrow Ho Hn. eapply tag_clause_all; eauto.
Qed.

Lemma base_select_sound db t f tag_ids :
  tags_resolved db t f tag_ids ->
  Forall (row_sound db t f) (build_base_select db t f tag_ids) ∧
  NoDup (cr_chunk_id <$> build_base_select db t f tag_ids).
Proof.
  intros Ht. unfold build_base_select. set (rows := rows_where _ _).
  assert (Hrows : ∀ k c, (k, c) ∈ rows -> chunks db !! k = Some c ∧ rls t (c_tenant c) && live_chunk c = true)
    by (intros k c Hin; by apply rows_where_elem in Hin).
  assert (Hd : NoDup rows.*1) by apply rows_where_NoDup. clearbody rows.
  assert (Hsel : ∀ kc row, kc ∈ rows -> chunk_select db t f tag_ids kc = Some row ->
            cr_chunk_id row = kc.1 ∧ row_sound db t f row)
    by (intros [k c] row Hin; apply chunk_select_sound; [done|apply (Hrows k c Hin)..]).
  split.
  - apply Forall_forall. intros row (kc & Hin & Hr)%list_elem_of_omap. by eapply Hsel.
  - apply (sublist_NoDup _ rows.*1 Hd). clear Hd Hrows. induction rows as [|kc rows IH]; csimpl; [done|].
    specialize (IH ltac:(intros; apply Hsel; [by right|done])).
    destruct (chunk_select db t f tag_ids kc) as [row|] eqn:E; csimpl; [|by constructor].
    destruct (Hsel kc row ltac:(by left) E) as [-> _]. by constructor.
Qed.

(** What both arms give: sound rows, of distinct chunks and documents. *)
Definition arm_ok (db : Db) (t : Z) (f : QueryFilters) (rows : list ChunkRow) : Prop :=
  Forall (row_sound db t f) rows ∧ NoDup (cr_chunk_id <$> rows) ∧ NoDup (cr_document_id <$> rows) ∧
  (length rows <= 1000)%nat.

Lemma overscan_bound k : overscan_limit k <= 1000.
Proof. unfold overscan_limit, OVERSCAN_FLOOR, OVERSCAN_CEILING. lia. Qed.

Lemma overscan_pos k : 0 <= overscan_limit k.
Proof. unfold overscan_limit, OVERSCAN_FLOOR. lia. Qed.

Lemma dedup_arm_ok db t f tag_ids l k :
  tags_resolved db t f tag_ids -> l ⊆+ build_base_select db t f tag_ids -> Z.of_nat (length l) <= overscan_limit k ->
  arm_ok db t f (dedup_best_chunk_per_document l k).
Proof.
  intros Ht Hl Hn. destruct (base_select_sound db t f tag_ids Ht) as [Hs Hd].
  pose proof (dedup_sublist l k) as Hsub. unfold arm_ok. split_and!; [..|apply dedup_docs|].
  - apply Forall_forall. intros row Hin. rewrite Forall_forall in Hs. apply Hs.
    eapply elem_of_submseteq; [|done]. eapply elem_of_submseteq; [done|by apply sublist_submseteq].
  - apply (submseteq_NoDup _ (cr_chunk_id <$> build_base_select db t f tag_ids)); [|done].
    apply fmap_submseteq. etrans; [by apply sublist_submseteq|done].
  - apply sublist_length in Hsub. pose proof (overscan_bound k). lia.
Qed.
Lemma vector_arm t q e tag_ids s rows s' :
  tags_resolved (st_db s) t (q_filters q) tag_ids ->
  execute_vector_query t q e tag_ids s = (Ok rows, s') -> s' = s ∧ arm_ok (st_db s) t (q_filters q) rows.
Proof.
  intros Ht (found & s1 & [= <- <-] & (l & s2 & Hl & [= <- <-])%dbind_ok)%dbind_ok.
  unfold of_res in Hl. destruct (vector_rank _ _ _ _) as [ranked|] eqn:E; [|done].
  injection Hl as <- <-. split; [done|]. apply vector_rank_some in E as [??]; [|apply overscan_pos]. by eapply dedup_arm_ok.
Qed.

(** The keyword arm never fails: a refused query counts as no match. *)
Definition keyword_rows (db : Db) (t : Z) (q : Query) (tag_ids : list Z) : list ChunkRow :=
  match trim (q_text q) with
  | [] => []
  | trimmed =>
      match bm25_rank db (trim (sanitise trimmed)) (overscan_limit (q_top_k q))
              (build_base_select db t (q_filters q) tag_ids) with
      | Err _ => []
      | Ok rows => rows
      end
  end.

Lemma dedup_nil k : dedup_best_chunk_per_document [] k = [].
Proof. unfold dedup_best_chunk_per_document. by case_match. Qed.

Lemma keyword_arm t q tag_ids s :
  execute_keyword_query t q tag_ids s =
    (Ok (dedup_best_chunk_per_document (keyword_rows (st_db s) t q tag_ids) (q_top_k q)), s).
Proof.
  unfold execute_keyword_query, keyword_rows. destruct (trim (q_text q)) as [|c cs]; [by rewrite dedup_nil|].
  unfold mbind, dbm_bind, asks. destruct (bm25_rank _ _ _ _); [done|by rewrite dedup_nil].
Qed.

Lemma keyword_arm_ok db t q tag_ids :
  tags_resolved db t (q_filters q) tag_ids ->
  arm_ok db t (q_filters q) (dedup_best_chunk_per_document (keyword_rows db t q tag_ids) (q_top_k q)).
Proof.
  intros Ht. unfold keyword_rows.
  assert (Hnil : arm_ok db t (q_filters q) (dedup_best_chunk_per_document [] (q_top_k q))).
  { rewrite dedup_nil. split_and!; [constructor..|simpl; lia]. }
  destruct (trim (q_text q)) as [|x xs]; [done|]. destruct (bm25_rank _ _ _ _) as [l|] eqn:E; [|done].
  apply bm25_rank_some in E as [??]; [|apply overscan_pos]. by eapply dedup_arm_ok.
Qed.

(** ** Hits *)

Definition hit_sound (db : Db) (t : Z) (f : QueryFilters) (h : Hit) : Prop :=
  ∃ dek row x, h = hit_of (chunk_hit dek row x) ∧ row_sound db t f row.

Record results_ok (db : Db) (t : Z) (q : Query) (hits : list Hit) : Prop := {
  ro_length : Z.of_nat (length hits) <= q_top_k q;
  ro_sorted : StronglySorted (better h_score h_document_id) hits;
  ro_distinct : NoDup (h_document_id <$> hits);
  ro_sound : Forall (hit_sound db t (q_filters q)) hits;
}.

Lemma results_nil db t q : 0 <= q_top_k q -> results_ok db t q [].
Proof. intros. split; [simpl; lia|constructor..]. Qed.

Definition key_in_use (t : Z) (s : Store) : option bytes :=
  match (get_or_create_tenant_dek t s).1 with Ok d => Some d | Err _ => None end.

Lemma ranked_hits t ranked m s :
  ∃ s', ranked_rows_to_chunk_hits t ranked m s =
    (Ok (omap (λ hit, (λ row, chunk_hit (key_in_use t s) row hit.2) <$> m !! hit.1) ranked), s').
Proof.
  unfold ranked_rows_to_chunk_hits, key_in_use, mbind, dbm_bind, tried.
  destruct (get_or_create_tenant_dek t s) as [r s1]. by exists s1.
Qed.

Lemma StronglySorted_take {A} (R : A -> A -> Prop) n l : StronglySorted R l -> StronglySorted R (take n l).
Proof.
  intros Hs. revert n. induction Hs as [|x k Hs IH Hx]; intros [|n]; simpl; try constructor; [done|].
  by apply Forall_take.
Qed.

Lemma rollup_results db t q dek rows ranked :
  0 <= q_top_k q -> Forall (row_sound db t (q_filters q)) rows -> Forall (λ p, f_nonneg p.2 = true) ranked ->
  results_ok db t q (take (Z.to_nat (q_top_k q)) (document_rollup
    (omap (λ hit, (λ row, chunk_hit dek row hit.2) <$> chunk_map rows !! hit.1) ranked))).
Proof.
  intros Hk Hrows Hn. match goal with |- context [document_rollup ?h] => set (hits := h) end.
  assert (Hhits : ∀ ch, ch ∈ hits -> ∃ row x, ch = chunk_hit dek row x ∧ f_nonneg x = true ∧
            row_sound db t (q_filters q) row).
  { intros ch ([id x] & Hin & (row & Hm & ->)%fmap_Some)%list_elem_of_omap.
    apply chunk_map_Some in Hm as [Hm _]. rewrite Forall_forall in Hn. rewrite Forall_forall in Hrows.
    exists row, x. split_and!; [done|apply (Hn (id, x) Hin)|auto]. }
  assert (Hs : Forall scored hits).
  { apply Forall_forall. intros ch (row & x & -> & ? & _)%Hhits. by apply f_nonneg_not_nan. }
  destruct (document_rollup_spec hits (document_rollup hits) Hs) as [Hspec _].
  destruct (Hspec eq_refl) as (Hsort & Hids & Hbest). split.
  - rewrite length_take. lia.
  - by apply StronglySorted_take.
  - rewrite fmap_take. eapply sublist_NoDup; [|apply sublist_take]. rewrite Hids. apply NoDup_remove_dups.
  - apply Forall_take, Forall_forall. intros h (ch & -> & l1 & l2 & E & _)%Hbest.
    destruct (Hhits ch) as (row & x & -> & _ & ?); [rewrite E; set_solver|]. by eexists _, _, _.
Qed.

Lemma search_results_ok (t : Z) (q : Query) (embedding : list f32) (s s' : Store) (hits : list Hit) :
  0 <= q_top_k q ->
  run_hybrid_search t q embedding s = (Ok hits, s') ∨ run_keyword_search t q s = (Ok hits, s') ->
  results_ok (st_db s) t q hits.
Proof.
  intros Hk. destruct (resolve_tags_ok t q s) as (tag_ids & Hr & Ht).
  pose proof (keyword_arm_ok _ _ _ _ Ht) as (Hkw & _). intros [Hrun|Hrun].
  - unfold run_hybrid_search in Hrun. destruct (q_top_k q =? 0); [injection Hrun as <- _; by apply results_nil|].
    apply dbind_ok in Hrun as (arms & s1 & Harms & Hrun). apply tx_ok in Harms as [_ Harms].
    apply dbind_ok in Harms as (ids & s2 & Hr' & Harms). rewrite Hr in Hr'. injection Hr' as <- <-.
    destruct (no_tag_resolved q tag_ids); [injection Harms as <- _; injection Hrun as <- _; by apply results_nil|].
    apply dbind_ok in Harms as (vec & s3 & Hv & Harms). apply vector_arm in Hv as [-> [Hvec _]]; [|done].
    apply dbind_ok in Harms as (kw & s4 & Hw & Harms). rewrite keyword_arm in Hw. injection Hw as <- <-.
    injection Harms as <- <-. apply dbind_ok in Hrun as (hs & s5 & Hh & Hrun). injection Hrun as <- _.
    set (ranked := rrf_fuse _ _ _) in Hh. destruct (ranked_hits t ranked (chunk_map (vec ++ dedup_best_chunk_per_document
      (keyword_rows (st_db s) t q tag_ids) (q_top_k q))) s) as (s6 & E).
    rewrite E in Hh. injection Hh as <- _. apply rollup_results; [done|by apply Forall_app|].
    apply Forall_forall. intros [id x] [_ ->]%rrf_fuse_elem; [|done]. by apply rrf_score_nonneg.
  - unfold run_keyword_search in Hrun. destruct (q_top_k q =? 0); [injection Hrun as <- _; by apply results_nil|].
    apply dbind_ok in Hrun as (arms & s1 & Harms & Hrun). apply tx_ok in Harms as [_ Harms].
    apply dbind_ok in Harms as (ids & s2 & Hr' & Harms). rewrite Hr in Hr'. injection Hr' as <- <-.
    destruct (no_tag_resolved q tag_ids); [injection Harms as <- _; injection Hrun as <- _; by apply results_nil|].
    apply dbind_ok in Harms as (kw & s4 & Hw & Harms). rewrite keyword_arm in Hw. injection Hw as <- <-.
    injection Harms as <- <-. apply dbind_ok in Hrun as (hs & s5 & Hh & Hrun). injection Hrun as <- _.
    set (ranked := imap _ _) in Hh. destruct (ranked_hits t ranked (chunk_map (dedup_best_chunk_per_document
      (keyword_rows (st_db s) t q tag_ids) (q_top_k q))) s) as (s6 & E).
    rewrite E in Hh. injection Hh as <- _. apply rollup_results; [done|done|].
    apply Forall_forall. intros p (i & c & -> & _)%elem_of_lookup_imap. apply rank_score_nonneg.
Qed.

(** C11. Every hit a search returns, hybrid or keyword-only, comes from a live
    chunk of the calling tenant whose document is the tenant's, is of a
    requested kind, lies in the date range and carries every requested tag
    that exists; there is at most one hit per document and at most [top_k] in
    all, in strictly descending order of score with ties by document. *)
Theorem search_sound (t : Z) (q : Query) (embedding : list f32) (s s' : Store) (hits : list Hit) :
  0 <= q_top_k q ->
  run_hybrid_search t q embedding s = (Ok hits, s') ∨ run_keyword_search t q s = (Ok hits, s') ->
  results_ok (st_db s) t q hits.
Proof. apply search_results_ok. Qed.

(** ** The keyword-only path *)

Lemma omap_imap {A B C} (f : B -> option C) (g : nat -> A -> B) (h : nat -> A -> C) (l : list A) :
  (∀ i x, l !! i = Some x -> f (g i x) = Some (h i x)) -> omap f (imap g l) = imap h l.
Proof.
  revert g h. induction l as [|x l IH]; intros g h Hf; [done|]. rewrite !imap_cons. csimpl.
  rewrite (Hf 0%nat x eq_refl). f_equal. apply IH. intros i y. apply (Hf (S i) y).
Qed.

Lemma StronglySorted_lookup {A} (R : A -> A -> Prop) (l : list A) :
  (∀ i j x y, (i < j)%nat -> l !! i = Some x -> l !! j = Some y -> R x y) -> StronglySorted R l.
Proof.
  induction l as [|x l IH]; intros HR; constructor.
  - apply IH. intros i j y z Hij. apply (HR (S i) (S j)). lia.
  - apply Forall_forall. intros y [j Hj]%list_elem_of_lookup. apply (HR 0%nat (S j)); [lia|done..].
Qed.

Lemma ranked_rollup dek rows :
  NoDup (cr_document_id <$> rows) -> (length rows <= 1000)%nat ->
  document_rollup (imap (λ rank row, chunk_hit dek row (rank_score rank)) rows)
  = imap (λ rank row, hit_of (chunk_hit dek row (rank_score rank))) rows.
Proof.
  intros Hd Hlen. set (hits := imap _ rows).
  assert (Hdocs : chit_document_id <$> hits = cr_document_id <$> rows)
    by (unfold hits; rewrite fmap_imap; apply (imap_const cr_document_id)).
  assert (Hnn : ∀ n, rank_score n <> SpecFloat.S754_nan)
    by (intros; apply f_nonneg_not_nan, rank_score_nonneg).
  assert (Hs : Forall scored hits).
  { apply Forall_forall. intros ch (i & row & -> & _)%elem_of_lookup_imap. apply Hnn. }
  apply document_rollup_spec; [done|]. split_and!.
  - apply StronglySorted_lookup. intros i j x y Hij.
    rewrite !list_lookup_imap, !fmap_Some. intros (r1 & Hr1 & ->) (r2 & Hr2 & ->). left. simpl.
    apply rank_score_decreasing. apply lookup_lt_Some in Hr2. lia.
  - rewrite Hdocs, fmap_imap. unfold compose. simpl. rewrite (imap_const cr_document_id).
    symmetry. apply NoDup_Permutation; [apply NoDup_remove_dups|done|apply elem_of_remove_dups].
  - intros h (i & row & -> & Hi)%elem_of_lookup_imap. eexists. split; [done|].
    assert (Hc : hits !! i = Some (chunk_hit dek row (rank_score i)))
      by (unfold hits; rewrite list_lookup_imap, Hi; done).
    rewrite <-Hdocs in Hd. pose proof (take_drop_middle hits i _ Hc) as E.
    exists (take i hits), (drop (S i) hits). split; [done|].
    rewrite <-E, fmap_app in Hd. csimpl in Hd. apply NoDup_app in Hd as (_ & Hd1 & [Hd2 _]%NoDup_cons).
    split; apply Forall_forall; intros c Hin Hdoc; exfalso.
    + apply (Hd1 (chit_document_id c)); [by apply list_elem_of_fmap_2|]. rewrite Hdoc. set_solver.
    + apply Hd2. change (cr_document_id row) with (chit_document_id (chunk_hit dek row (rank_score i))).
      rewrite <-Hdoc. by apply list_elem_of_fmap_2.
Qed.

(** The keyword-only path returns the rows of the full-text index in the
    index's order: the first row of each document, up to [top_k] documents,
    one hit each with a score that decreases with its rank, decrypted with
    the tenant's key; an index error is an empty answer, and the synthetic
    scores never reorder or drop a row. *)
Theorem keyword_search_exact (t : Z) (q : Query) (s : Store) (tag_ids : list Z) :
  st_connected s = true -> 0 < q_top_k q ->
  resolve_tags t q s = (Ok tag_ids, s) -> no_tag_resolved q tag_ids = false ->
  ∃ s', run_keyword_search t q s =
    (Ok (imap (λ rank row, hit_of (chunk_hit (key_in_use t s) row (rank_score rank)))
       (take (Z.to_nat (q_top_k q)) (first_rows ∅ (keyword_rows (st_db s) t q tag_ids)))), s').
Proof.
  intros Hc Hk Hr Hno. destruct (resolve_tags_ok t q s) as (ids & Hr' & Ht).
  rewrite Hr in Hr'. injection Hr' as <-.
  destruct (keyword_arm_ok _ _ _ _ Ht) as (_ & Hchunks & Hdocs & Hlen).
  rewrite <-dedup_take by lia. set (kw := dedup_best_chunk_per_document _ _) in *.
  destruct (ranked_hits t (imap (λ rank c, (cr_chunk_id c, rank_score rank)) kw) (chunk_map kw) s) as (s' & E).
  exists s'. unfold run_keyword_search. destruct (Z.eqb_spec (q_top_k q) 0); [lia|].
  unfold mbind at 1, dbm_bind at 1, tx. rewrite Hc. simpl negb. cbn match.
  unfold mbind at 1, dbm_bind at 1. rewrite Hr, Hno. unfold mbind at 1, dbm_bind at 1.
  rewrite keyword_arm. fold kw. simpl. unfold mbind, dbm_bind. rewrite E.
  rewrite (omap_imap _ _ (λ rank row, chunk_hit (key_in_use t s) row (rank_score rank))).
  - rewrite ranked_rollup by done. rewrite take_ge; [done|]. rewrite length_imap.
    unfold kw. rewrite dedup_take, length_take by lia. lia.
  - intros i row Hi. simpl. rewrite chunk_map_lookup; [done|done|]. by eapply list_elem_of_lookup_2.
Qed.
End results.

(** ** A concrete search *)

Definition demo_hash : HashOrder :=
  {| hash_iter := λ V m, map_to_list m; hash_iter_perm := λ V m, reflexivity _ |}.
(** Indexes that find every row, in the order of the table. *)
Definition demo_index : SearchIndex :=
  {| vector_rank := λ _ _ n rows, Ok (take (Z.to_nat n) rows);
     bm25_rank := λ _ _ n rows, Ok (take (Z.to_nat n) rows) |}.
Lemma demo_index_laws : @SearchIndexLaws demo_index.
Proof.
  assert (Htake : ∀ n (rows : list ChunkRow), 0 <= n ->
    take (Z.to_nat n) rows ⊆+ rows ∧ Z.of_nat (length (take (Z.to_nat n) rows)) <= n).
  { intros n rows Hn. split; [apply sublist_submseteq, sublist_take|]. rewrite length_take. lia. }
  split; intros db x n rows l Hn [= <-]; by apply Htake.
Qed.

Definition demo_filters : QueryFilters := mkFilters [KDocument] [str "invoice"] (Some 0) None.
Definition demo_query : Query := mkQuery (str "text") demo_filters 10.
(** The store after the upload of a tagged document with one chunk. *)
Definition searched_store : Store := (demo_ingest demo_store).2.

Lemma rrf_fuse_reference_witness :
  0 <= RRF_K ∧ (@rrf_fuse demo_hash [7; 3] [3; 9] RRF_K).*1 = [3; 7; 9] ∧
  @rrf_fuse demo_hash [7; 3] [3; 9] RRF_K = rrf_reference [7; 3] [3; 9] RRF_K.
Proof.
  split; [done|]. split; [vm_compute; reflexivity|].
  exact (proj1 (@rrf_fuse_reference demo_hash [7; 3] [3; 9] RRF_K ltac:(done))).
Defined.

Definition demo_hits : list ChunkHit :=
  let hit id doc sc := mkChunkHit id doc (f32_of_Z sc) 1 None None (str "s") None None in
  [hit 1 10 2; hit 2 11 3; hit 3 10 5; hit 4 10 5].

Lemma document_rollup_exact_witness :
  Forall scored demo_hits ∧
  StronglySorted (better h_score h_document_id) (@document_rollup demo_hash demo_hits) ∧
  h_document_id <$> @document_rollup demo_hash demo_hits = [10; 11].
Proof.
  assert (Hs : Forall scored demo_hits) by (by repeat constructor).
  split; [exact Hs|]. split; [|vm_compute; reflexivity].
  exact (proj1 (proj1 (@document_rollup_exact demo_hash demo_hits _ Hs) eq_refl)).
Defined.

Lemma search_sound_witness :
  h_document_id <$> match (@run_hybrid_search plain_aead demo_hash demo_index 1 demo_query [] searched_store).1 with
                    | Ok l => l | Err _ => [] end = [1] ∧
  ∀ hits s', @run_hybrid_search plain_aead demo_hash demo_index 1 demo_query [] searched_store = (Ok hits, s') ->
    @results_ok plain_aead (st_db searched_store) 1 demo_query hits.
Proof.
  split; [vm_compute; reflexivity|]. intros hits s' E.
  apply (@search_sound plain_aead demo_hash demo_index demo_index_laws 1 demo_query [] searched_store s' hits).
  - done.
  - left. exact E.
Defined.

Lemma keyword_search_exact_witness :
  first_rows ∅ (@keyword_rows demo_index (st_db searched_store) 1 demo_query [5]) <> [] ∧
  ∃ s', @run_keyword_search plain_aead demo_hash demo_index 1 demo_query searched_store =
    (Ok (imap (λ rank row, hit_of (@chunk_hit plain_aead (key_in_use 1 searched_store) row (rank_score rank)))
       (take 10 (first_rows ∅ (@keyword_rows demo_index (st_db searched_store) 1 demo_query [5])))), s').
Proof.
  split; [vm_compute; discriminate|].
  apply (@keyword_search_exact plain_aead demo_hash demo_index demo_index_laws 1 demo_query searched_store [5]).
  - vm_compute; reflexivity.
  - done.
  - vm_compute; reflexivity.
  - vm_compute; reflexivity.
Defined.
