(* ===== verification/Tags.v ===== *)
(** * Tag canonicalization (pipeline/src/tag_canonicalizer.rs, tag_store.rs)

    Raw tags proposed by a model are mapped to the tenant's canonical tags:
    normalised, looked up as aliases, matched by cosine similarity, inserted.
    The trait [TagStore] is a class with its laws, which the document store of
    [PgStore] satisfies; the theorems on the canonicalizer are proved against
    the class.  Slicing a string inside a character is a panic. *)

From stdpp Require Import base gmap list strings.
From Stdlib Require Import ZArith Lia Strings.Byte SpecFloat.
From S2P Require Import Prelude StableSort FloatModel Text Json Role Blob Envelope ColumnCrypt Schema.
From S2P Require Import PgStore StoreInvariant StoreIngest.
Open Scope Z_scope.

(** ** Similarity *)

(** [f64::from(x : f32)] and [x as f32]. *)
Definition convert (prec emax : Z) (x : spec_float) : spec_float :=
  match x with
  | S754_finite s m e => binary_normalize prec emax (if s then Z.neg m else Z.pos m) e s
  | _ => x
  end.
Definition f64_of_f32 (x : f32) : f64 := convert 53 1024 x.
Definition f32_of_f64 (x : f64) : f32 := convert 24 128 x.
Definition f64_sqrt : f64 -> f64 := SFsqrt 53 1024.

(** [f32::clamp]. *)
Definition f_clamp (lo hi x : spec_float) : spec_float :=
  if f_lt x lo then lo else if f_lt hi x then hi else x.

Record Sums := mkSums { s_dot : f64; s_mag_a : f64; s_mag_b : f64 }.
Definition sum_step (acc : Sums) (xy : f32 * f32) : Sums :=
  let x := f64_of_f32 xy.1 in
  let y := f64_of_f32 xy.2 in
  mkSums (f64_add (s_dot acc) (f64_mul x y)) (f64_add (s_mag_a acc) (f64_mul x x))
    (f64_add (s_mag_b acc) (f64_mul y y)).

Definition cosine_similarity (a b : list f32) : option f32 :=
  if negb (length a =? length b)%nat then None
  else
    let acc := foldl sum_step (mkSums (f64_of_Z 0) (f64_of_Z 0) (f64_of_Z 0)) (zip a b) in
    let mag_a := f64_sqrt (s_mag_a acc) in
    let mag_b := f64_sqrt (s_mag_b acc) in
    if f_eq mag_a (f64_of_Z 0) || f_eq mag_b (f64_of_Z 0) then None
    else Some (f_clamp (f32_of_Z (-1)) (f32_of_Z 1)
           (f32_of_f64 (f64_div (s_dot acc) (f64_mul mag_a mag_b)))).

(** [sim > best_score] replaces the best, an equal one does not. *)
Definition better_match (best : option (Z * f32)) (cand : Z * f32) : option (Z * f32) :=
  match best with
  | Some (id, x) => if f_lt x cand.2 then Some cand else Some (id, x)
  | None => Some cand
  end.
Definition match_step (embedding : list f32) (threshold : f32) (best : option (Z * f32))
    (tag : Z * list f32) : option (Z * f32) :=
  match cosine_similarity embedding tag.2 with
  | Some sim => if f_le threshold sim then better_match best (tag.1, sim) else best
  | None => best
  end.
Definition find_best_match (embedding : list f32) (existing : list (Z * list f32)) (threshold : f32)
    : option (Z * f32) :=
  foldl (match_step embedding threshold) None existing.

(** ** Normalization *)

Section normalize.
Context `{Unicode}.

(** [None] is the panic of slicing inside a character. *)
Definition undouble_final (stem : chars) : option (option chars) :=
  match reverse stem with
  | last :: prev :: _ :: _ =>
      if (last =? prev) && negb (last =? 115) && negb (last =? 108) then
        if negb (char_len last =? 1)%nat then None
        else if (3 <=? str_len stem - 1)%nat then Some (Some (take (length stem - 1) stem)) else Some None
      else Some None
  | _ => Some None
  end.

Definition suffix_rules : list chars :=
  [str "ness"; str "ment"; str "ing"; str "ed"; str "ly"; str "er"].

(** The loop over the rules: the stem of the first one that applies. *)
Fixpoint strip_suffix (rules : list chars) (word : chars) : option chars :=
  match rules with
  | [] => None
  | suffix :: rules' =>
      let stem := take (length word - length suffix) word in
      if ends_with suffix word && (length suffix + 1 <? str_len word)%nat && (3 <=? str_len stem)%nat
      then Some stem
      else strip_suffix rules' word
  end.

Definition strip_plural (word : chars) : chars :=
  if ends_with (str "s") word && negb (ends_with (str "ss") word) && negb (ends_with (str "us") word)
     && negb (ends_with (str "is") word) && (4 <=? str_len word)%nat
     && (3 <=? str_len word - 1)%nat
  then take (length word - 1) word
  else word.

Definition simple_stem (word : chars) : option chars :=
  if (str_len word <? 4)%nat then Some word
  else match strip_suffix suffix_rules word with
       | Some stem => default stem <$> undouble_final stem
       | None => Some (strip_plural word)
       end.

Definition is_separator (c : Z) : bool := (c =? 45) || (c =? 95) || (c =? 47) || (c =? 46).

Definition normalize_tag_name (raw : chars) : option chars :=
  let with_spaces := (λ c, if is_separator c then 32 else c) <$> to_lowercase raw in
  stems ← mapM simple_stem (split_whitespace with_spaces);
  Some (join (str " ") (filter (λ w, w <> []) stems)).
End normalize.

(** ** The store behind the canonicalizer *)

Class TagStore (S : Type) := {
  ts_lookup_alias : Z -> chars -> S -> result (option Z) DbError * S;
  ts_find_similar_tags : Z -> S -> result (list (Z * list f32)) DbError * S;
  ts_insert_tag_alias : Z -> chars -> Z -> S -> result unit DbError * S;
  ts_upsert_tag : Z -> chars -> list f32 -> S -> result Z DbError * S;
}.

(** What the callers rely on, in terms of what a store holds: its aliases and
    the tags of each tenant. *)
Class TagStoreLaws (S : Type) `{TagStore S} := {
  ts_ready : S -> Prop;
  alias_of : S -> Z -> chars -> option Z;
  own_tag : S -> Z -> Z -> Prop;
  ts_lookup_spec s t a : ts_ready s -> ts_lookup_alias t a s = (Ok (alias_of s t a), s);
  ts_similar_spec s t :
    ts_ready s -> ∃ l, ts_find_similar_tags t s = (Ok l, s) ∧ ∀ id e, (id, e) ∈ l -> own_tag s t id;
  ts_alias_spec s t a tag s' :
    ts_ready s -> ts_insert_tag_alias t a tag s = (Ok tt, s') ->
    ts_ready s' ∧ (∀ u id, own_tag s u id -> own_tag s' u id) ∧
    ∀ u b, alias_of s' u b =
      if decide ((u, b) = (t, a)) then Some (default tag (alias_of s t a)) else alias_of s u b;
  ts_upsert_spec s t name e id s' :
    ts_ready s -> ts_upsert_tag t name e s = (Ok id, s') ->
    ts_ready s' ∧ own_tag s' t id ∧ (∀ u id, own_tag s u id -> own_tag s' u id) ∧
    ∀ u b, alias_of s' u b = alias_of s u b;
}.

(** ** The canonicalizer *)

Inductive CanonError :=
| CStore (e : DbError)
| CEmbed
| CNoVector
| CPanic.

(** The model's side: the replies of the embedding calls to come ([None] is a
    failed call), and the names metered so far. *)
Record Embedder := mkEmbedder {
  em_replies : list (option (list (list f32)));
  em_recorder : bool;
  em_metered : list chars;
}.

Section canonicalizer.
Context `{Unicode} {S : Type} `{TagStore S}.

Definition canon (A : Type) : Type := S * Embedder -> result A CanonError * (S * Embedder).
#[local] Instance canon_ret : MRet canon := λ A a s, (Ok a, s).
#[local] Instance canon_bind : MBind canon := λ A B k m s,
  match m s with
  | (Ok a, s') => k a s'
  | (Err e, s') => (Err e, s')
  end.
Definition store_call {A} (m : S -> result A DbError * S) : canon A := λ '(s, em),
  match m s with
  | (Ok a, s') => (Ok a, (s', em))
  | (Err e, s') => (Err (CStore e), (s', em))
  end.
Definition no_panic {A} (o : option A) : canon A := λ s,
  match o with Some a => (Ok a, s) | None => (Err CPanic, s) end.

(** One event per embedding call, when a recorder is attached. *)
Definition meter (name : chars) (em : Embedder) : Embedder :=
  if em_recorder em
  then mkEmbedder (em_replies em) true (em_metered em ++ [name])
  else em.

Definition embed_tag_name (name : chars) : canon (list f32) := λ '(s, em),
  match em_replies em with
  | Some vectors :: rest =>
      let em' := meter name (mkEmbedder rest (em_recorder em) (em_metered em)) in
      match vectors with
      | v :: _ => (Ok v, (s, em'))
      | [] => (Err CNoVector, (s, em'))
      end
  | None :: rest => (Err CEmbed, (s, mkEmbedder rest (em_recorder em) (em_metered em)))
  | [] => (Err CEmbed, (s, em))
  end.

Definition canonicalize_one (t : Z) (threshold : f32) (existing : list (Z * list f32)) (raw : chars)
    : canon (Z * list (Z * list f32)) :=
  normalized ← no_panic (normalize_tag_name raw);
  hit ← store_call (ts_lookup_alias t raw);
  match hit with
  | Some tag => mret (tag, existing)
  | None =>
      embedding ← embed_tag_name normalized;
      match find_best_match embedding existing threshold with
      | Some (best, _) =>
          store_call (ts_insert_tag_alias t raw best);;
          mret (best, existing)
      | None =>
          new_id ← store_call (ts_upsert_tag t normalized embedding);
          store_call (ts_insert_tag_alias t raw new_id);;
          mret (new_id, if bool_decide (new_id ∈ existing.*1) then existing
                        else existing ++ [(new_id, embedding)])
      end
  end.

Fixpoint canonicalize_all (t : Z) (threshold : f32) (existing : list (Z * list f32))
    (raws : list chars) : canon (list Z) :=
  match raws with
  | [] => mret []
  | raw :: raws' =>
      r ← canonicalize_one t threshold existing raw;
      ids ← canonicalize_all t threshold r.2 raws';
      mret (r.1 :: ids)
  end.

Definition canonicalize (t : Z) (threshold : f32) (raws : list chars) : canon (list Z) :=
  existing ← store_call (ts_find_similar_tags t);
  canonicalize_all t threshold existing raws.
End canonicalizer.

(** ** The canonicalizer against the interface *)

(** The names the model is asked for: of the raw tags without an alias, each
    once. *)
Fixpoint to_embed `{Unicode} (known : chars -> bool) (raws : list chars) : list chars :=
  match raws with
  | [] => []
  | raw :: raws' =>
      if known raw then to_embed known raws'
      else default [] (normalize_tag_name raw)
             :: to_embed (λ a, known a || bool_decide (a = raw)) raws'
  end.

Lemma to_embed_ext `{Unicode} known known' raws :
  (∀ a, known a = known' a) -> to_embed known raws = to_embed known' raws.
Proof.
  revert known known'. induction raws as [|raw raws IH]; intros known known' He; [done|]. simpl.
  rewrite <-(He raw). destruct (known raw); [by apply IH|]. f_equal. apply IH. intros a. by rewrite He.
Qed.

Section against_interface.
Context `{Unicode} {S : Type} `{TagStoreLaws S}.

Definition has_alias (s : S) (t : Z) (a : chars) : bool := bool_decide (is_Some (alias_of s t a)).

(** The aliases of the tenant name tags of the tenant. *)
Definition own_aliases (s : S) (t : Z) : Prop :=
  ∀ a tag, alias_of s t a = Some tag -> own_tag s t tag.
Definition own_list (s : S) (t : Z) (l : list (Z * list f32)) : Prop :=
  ∀ id e, (id, e) ∈ l -> own_tag s t id.

(** What a run does to the store: aliases are added for the tenant only. *)
Record grows (t : Z) (s s' : S) : Prop := {
  gr_ready : ts_ready s';
  gr_tags u id : own_tag s u id -> own_tag s' u id;
  gr_alias a tag : alias_of s t a = Some tag -> alias_of s' t a = Some tag;
  gr_other u a : u <> t -> alias_of s' u a = alias_of s u a;
}.

Lemma grows_refl t s : ts_ready s -> grows t s s.
Proof. by split. Qed.
Lemma grows_trans t s1 s2 s3 : grows t s1 s2 -> grows t s2 s3 -> grows t s1 s3.
Proof.
  intros [? ? ? Ho] [? ? ? Ho']. split; auto. intros u a Hu. by rewrite Ho', Ho.
Qed.

Definition metered (em : Embedder) (names : list chars) : list chars :=
  if em_recorder em then em_metered em ++ names else em_metered em.

Lemma match_step_own s t e th l :
  own_list s t l -> ∀ best, (∀ id x, best = Some (id, x) -> own_tag s t id) ->
  ∀ id x, foldl (match_step e th) best l = Some (id, x) -> own_tag s t id.
Proof.
  induction l as [|[k v] l IH]; intros Hl best Hb id x; [apply Hb|]. simpl. apply IH.
  { intros ??. intros Hin. eapply Hl. right. exact Hin. }
  assert (own_tag s t k) by (eapply Hl; by left).
  unfold match_step. simpl. destruct (cosine_similarity e v) as [sim|]; [|done].
  destruct (f_le th sim); [|done]. intros id' x'. unfold better_match.
  destruct best as [[b y]|]; [destruct (f_lt y _)|]; naive_solver.
Qed.

(** A raw tag with an alias costs nothing. *)
Lemma canonicalize_one_hit t th existing raw name tag s em :
  ts_ready s -> normalize_tag_name raw = Some name -> alias_of s t raw = Some tag ->
  canonicalize_one t th existing raw (s, em) = (Ok (tag, existing), (s, em)).
Proof.
  intros Hr Hn Ha. unfold canonicalize_one, mbind, canon_bind, no_panic. rewrite Hn.
  unfold store_call. rewrite ts_lookup_spec, Ha by done. done.
Qed.

Lemma insert_alias_grows t raw tag s s' :
  ts_ready s -> alias_of s t raw = None -> own_aliases s t -> own_tag s t tag ->
  ts_insert_tag_alias t raw tag s = (Ok tt, s') ->
  grows t s s' ∧ own_aliases s' t ∧ alias_of s' t raw = Some tag ∧
  ∀ a, has_alias s' t a = has_alias s t a || bool_decide (a = raw).
Proof.
  intros Hr Hn Ho Ht Hi. apply ts_alias_spec in Hi as (Hr' & Ht' & Ha); [|done].
  assert (Hraw : alias_of s' t raw = Some tag) by (rewrite Ha, decide_True, Hn by done; done).
  split_and!; [|..|done|].
  - split; [done|done| |].
    + intros a tag' E. rewrite Ha, decide_False by (intros [= ->]; congruence). done.
    + intros u a Hu. rewrite Ha, decide_False by congruence. done.
  - intros a tag'. rewrite Ha. case_decide as E; [simplify_eq|]; intros; [|by eapply Ht', Ho].
    rewrite Hn in *. simplify_eq/=. by apply Ht'.
  - intros a. unfold has_alias. rewrite Ha. case_decide as E.
    + simplify_eq. rewrite (bool_decide_true (raw = raw)), orb_true_r by done. by apply bool_decide_true.
    + rewrite (bool_decide_false (a = raw)) by congruence. by rewrite orb_false_r.
Qed.

Lemma canonicalize_one_spec t th existing raw s em tag existing' s' em' :
  ts_ready s -> own_aliases s t -> own_list s t existing ->
  canonicalize_one t th existing raw (s, em) = (Ok (tag, existing'), (s', em')) ->
  is_Some (normalize_tag_name raw) ∧ grows t s s' ∧ own_aliases s' t ∧ own_list s' t existing' ∧
  alias_of s' t raw = Some tag ∧ (∀ a, has_alias s' t a = has_alias s t a || bool_decide (a = raw)) ∧
  em_recorder em' = em_recorder em ∧
  em_metered em' = metered em (if has_alias s t raw then [] else [default [] (normalize_tag_name raw)]).
Proof.
  intros Hr Ho Hl Hrun. destruct (normalize_tag_name raw) as [name|] eqn:Hn;
    [|by unfold canonicalize_one, mbind, canon_bind, no_panic in Hrun; rewrite Hn in Hrun].
  split; [done|]. destruct (alias_of s t raw) as [tag0|] eqn:Ha.
  { rewrite (canonicalize_one_hit _ _ _ _ name tag0) in Hrun by done. simplify_eq.
    assert (Hh : has_alias s' t raw = true) by (apply bool_decide_true; by rewrite Ha).
    rewrite Hh. split_and!; [by apply grows_refl|done|done|done| |done|].
    - intros a. case_bool_decide as E; [subst; by rewrite Hh|by rewrite orb_false_r].
    - unfold metered. destruct (em_recorder em'); [by rewrite app_nil_r|done]. }
  assert (Hh : has_alias s t raw = false) by (apply bool_decide_false; rewrite Ha; by intros [? ?]).
  rewrite Hh. simpl. unfold canonicalize_one, mbind, canon_bind, no_panic in Hrun. rewrite Hn in Hrun.
  unfold store_call at 1 in Hrun. rewrite ts_lookup_spec, Ha in Hrun by done.
  unfold embed_tag_name in Hrun. destruct (em_replies em) as [|[vs|] rest]; [done| |done].
  set (em1 := meter name _) in Hrun.
  assert (Hm : em_recorder em1 = em_recorder em ∧ em_metered em1 = metered em [name])
    by (unfold em1, meter, metered; by destruct (em_recorder em)).
  clearbody em1. destruct vs as [|v vs]; [done|].
  destruct (find_best_match v existing th) as [[best x]|] eqn:Hbest.
  - assert (Hb : own_tag s t best) by (by eapply match_step_own in Hbest).
    unfold store_call in Hrun. destruct (ts_insert_tag_alias t raw best s) as [[[]|] s2] eqn:Hi; [|done].
    unfold mret, canon_ret in Hrun. simplify_eq/=. edestruct insert_alias_grows as (Hg & Ho' & Hra & Hall); [done|done|done|exact Hb|exact Hi|].
    split_and!; [done..| |done|done|apply Hm|apply Hm]. intros id e Hin. eapply gr_tags; [done|by eapply Hl].
  - unfold store_call in Hrun. destruct (ts_upsert_tag t name v s) as [[id|] s2] eqn:Hu; [|done].
    apply ts_upsert_spec in Hu as (Hr2 & Hid & Htags & Hals); [|done].
    assert (Hg2 : grows t s s2) by (split; [done|done|by intros; rewrite Hals|by intros; apply Hals]).
    destruct (ts_insert_tag_alias t raw id s2) as [[[]|] s3] eqn:Hi; [|done].
    unfold mret, canon_ret in Hrun. simplify_eq/=.
    edestruct insert_alias_grows as (Hg & Ho' & Hra & Hall); [exact Hr2|by rewrite Hals| |exact Hid|exact Hi|].
    { intros a tag' E. rewrite Hals in E. eapply Htags, Ho, E. }
    assert (Hall' : ∀ a, has_alias s' t a = has_alias s t a || bool_decide (a = raw))
      by (intros a; rewrite Hall; unfold has_alias; by rewrite Hals).
    split_and!; [by eapply grows_trans|done| |done|done|apply Hm|apply Hm].
    assert (own_list s' t existing) by (intros k e Hin; apply (gr_tags t s s'); [by eapply grows_trans|by eapply Hl]).
    case_bool_decide; [done|]. intros k e [Hin|Hin%list_elem_of_singleton]%elem_of_app; [eauto|].
    simplify_eq. by eapply gr_tags.
Qed.

Lemma canonicalize_all_spec t th raws : ∀ existing s em ids s' em',
  ts_ready s -> own_aliases s t -> own_list s t existing ->
  canonicalize_all t th existing raws (s, em) = (Ok ids, (s', em')) ->
  grows t s s' ∧ own_aliases s' t ∧
  Forall2 (λ raw id, is_Some (normalize_tag_name raw) ∧ alias_of s' t raw = Some id) raws ids ∧
  em_recorder em' = em_recorder em ∧
  em_metered em' = metered em (to_embed (has_alias s t) raws).
Proof.
  induction raws as [|raw raws IH]; intros existing s em ids s' em' Hr Ho Hl Hrun.
  { cbn in Hrun. unfold mret, canon_ret in Hrun. simplify_eq. split_and!; [by apply grows_refl|done|constructor|done|].
    unfold metered. simpl. destruct (em_recorder em'); [by rewrite app_nil_r|done]. }
  cbn [canonicalize_all] in Hrun. unfold mbind at 1, canon_bind at 1 in Hrun.
  destruct (canonicalize_one t th existing raw (s, em)) as [[[tag ex]|] [s1 em1]] eqn:E1; [|done].
  apply canonicalize_one_spec in E1 as (Hn & Hg & Ho1 & Hl1 & Ha & Hall & Hrec & Hmet); [|done..].
  unfold mbind, canon_bind in Hrun. simpl in Hrun.
  destruct (canonicalize_all t th ex raws (s1, em1)) as [[ids1|] [s2 em2]] eqn:E2; [|done].
  unfold mret, canon_ret in Hrun. simplify_eq.
  apply IH in E2 as (Hg2 & Ho2 & Hf & Hrec2 & Hmet2); [|apply Hg|done|done].
  split_and!; [by eapply grows_trans|done| |congruence|].
  - constructor; [|done]. split; [done|]. by eapply gr_alias.
  - rewrite Hmet2. unfold metered in *. rewrite Hrec, Hmet. destruct (em_recorder em); [|done].
    rewrite <-app_assoc. f_equal. cbn [to_embed].
    rewrite (to_embed_ext _ (λ a, has_alias s t a || bool_decide (a = raw))) by apply Hall.
    destruct (has_alias s t raw) eqn:Hh; [|done]. simpl. apply to_embed_ext.
    intros a. case_bool_decide as E; [by rewrite E, Hh|by rewrite orb_false_r].
Qed.

(** Raw tags that all have aliases. *)
Lemma canonicalize_all_hits t th existing s em raws ids :
  ts_ready s -> Forall2 (λ raw id, is_Some (normalize_tag_name raw) ∧ alias_of s t raw = Some id) raws ids ->
  canonicalize_all t th existing raws (s, em) = (Ok ids, (s, em)).
Proof.
  intros Hr Hf. induction Hf as [|raw id raws ids [[name Hn] Ha] Hf IH]; [done|]. cbn [canonicalize_all].
  unfold mbind at 1, canon_bind at 1. rewrite (canonicalize_one_hit _ _ _ _ name id) by done.
  unfold mbind, canon_bind. simpl. by rewrite IH.
Qed.

Lemma canonicalize_spec t th raws s em ids s' em' :
  ts_ready s -> own_aliases s t -> canonicalize t th raws (s, em) = (Ok ids, (s', em')) ->
  grows t s s' ∧ own_aliases s' t ∧ Forall2 (λ raw id, alias_of s' t raw = Some id ∧ own_tag s' t id) raws ids ∧
  em_metered em' = metered em (to_embed (has_alias s t) raws) ∧
  ∀ em2, canonicalize t th raws (s', em2) = (Ok ids, (s', em2)).
Proof.
  intros Hr Ho Hrun. unfold canonicalize, mbind, canon_bind, store_call in Hrun.
  destruct (ts_similar_spec s t Hr) as (l & Hl & Hown). rewrite Hl in Hrun.
  apply canonicalize_all_spec in Hrun as (Hg & Ho' & Hf & _ & Hm); [|done..].
  split_and!; [done|done| |done|].
  - eapply Forall2_impl; [exact Hf|]. intros raw id [_ Ha]. split; [done|by eapply Ho'].
  - intros em2. unfold canonicalize, mbind, canon_bind, store_call.
    destruct (ts_similar_spec s' t ltac:(apply Hg)) as (l' & -> & _).
    apply canonicalize_all_hits; [apply Hg|done].
Qed.
End against_interface.

(** ** The document store implements the interface *)

#[global] Instance pg_tag_store : TagStore Store := {|
  ts_lookup_alias := lookup_alias;
  ts_find_similar_tags := find_similar_tags;
  ts_insert_tag_alias := insert_tag_alias;
  ts_upsert_tag := upsert_tag;
|}.

Definition pg_ready (s : Store) : Prop := st_connected s = true ∧ db_ok (st_db s).
Definition pg_alias (s : Store) (t : Z) (a : chars) : option Z := aliases (st_db s) !! (t, a).
Definition pg_own (s : Store) (t id : Z) : Prop := ∃ r, tags (st_db s) !! id = Some r ∧ t_tenant r = t.

Lemma find_tag_Some db t name id :
  find_tag db t name = Some id -> ∃ r, tags db !! id = Some r ∧ t_tenant r = t ∧ t_name r = name.
Proof.
  unfold find_tag. destruct (rows_where _ _) as [|[i r] l] eqn:E; [done|]. intros [= <-].
  assert (Hin : (i, r) ∈ rows_where (λ _ r, rls t (t_tenant r) && bool_decide (t_name r = name)) (tags db))
    by (rewrite E; by left).
  apply rows_where_elem in Hin as [Hr Hp]. unfold rls in Hp. bool_to_prop. eauto.
Qed.

Lemma pg_alias_spec s t a tag s' :
  pg_ready s -> insert_tag_alias t a tag s = (Ok tt, s') ->
  pg_ready s' ∧ (∀ u id, pg_own s u id -> pg_own s' u id) ∧
  ∀ u b, pg_alias s' u b = if decide ((u, b) = (t, a)) then Some (default tag (pg_alias s t a)) else pg_alias s u b.
Proof.
  intros [Hc Hok] E. pose proof (safe_insert_tag_alias t a tag s Hok) as [Hok' _]. rewrite E in Hok'.
  apply tx_ok in E as [_ (db & E & ->)%stmt_ok]. unfold pg_ready, pg_own, pg_alias. simpl in *.
  destruct (aliases (st_db s) !! (t, a)) as [x|] eqn:Ha.
  - injection E as <-. split_and!; [done..|]. intros u b. case_decide as Hd; [|done]. by simplify_eq/=.
  - case_decide; [|done]. injection E as <-. simpl in *. split_and!; [done..|]. intros u b.
    case_decide as Hd; [simplify_eq; by rewrite lookup_insert_eq|]. by rewrite lookup_insert_ne.
Qed.

Lemma pg_upsert_spec s t name e id s' :
  pg_ready s -> upsert_tag t name e s = (Ok id, s') ->
  pg_ready s' ∧ pg_own s' t id ∧ (∀ u id, pg_own s u id -> pg_own s' u id) ∧
  ∀ u b, pg_alias s' u b = pg_alias s u b.
Proof.
  intros [Hc Hok] E. pose proof (safe_upsert_tag t name e s Hok) as [Hok' _]. rewrite E in Hok'.
  apply tx_ok in E as [_ (db & E & ->)%next_ok]. unfold pg_ready, pg_own, pg_alias. simpl in *.
  destruct (vector_ok e); [|done]. simpl in E. destruct (find_tag _ t name) as [tid|] eqn:Hf.
  - injection E as <- <-. apply find_tag_Some in Hf as (r & Hr & Ht & _). simpl in *.
    split_and!; [done|done|by eexists|done|done].
  - case_decide; [|done]. injection E as <- <-. simpl in *. split_and!; [done|done| | |done].
    + eexists. split; [apply lookup_insert_eq|done].
    + intros u k (r & Hr & Ht). exists r. split; [|done]. rewrite lookup_insert_ne; [done|].
      intros <-. by rewrite fresh_tag in Hr.
Qed.

#[global] Instance pg_tag_store_laws : TagStoreLaws Store.
Proof.
  refine {| ts_ready := pg_ready; alias_of := pg_alias; own_tag := pg_own;
            ts_alias_spec := pg_alias_spec; ts_upsert_spec := pg_upsert_spec |}.
  - intros s t a [Hc _]. unfold ts_lookup_alias, pg_tag_store, lookup_alias, tx. by rewrite Hc.
  - intros s t [Hc _]. eexists. split.
    + unfold ts_find_similar_tags, pg_tag_store, find_similar_tags, tx. rewrite Hc. done.
    + intros id e ([k r] & Hin & He)%list_elem_of_omap. simpl in He.
      apply rows_where_elem in Hin as [Hr Hp]. unfold rls in Hp. bool_to_prop.
      destruct (t_embedding r); [|done]. simplify_eq/=. by exists r.
Defined.

(** A successful canonicalization returns one tag per raw tag, in order,
    each a tag of the calling tenant, and leaves every raw tag an alias of
    its result; aliases of other tenants and existing ones are untouched; the
    model is asked, and the usage metered, exactly once for each distinct raw
    tag that had no alias; and running it again on the resulting store gives
    the same tags with no call of the model and no change of the store. *)
Theorem canonicalize_stable `{Unicode} (t : Z) (threshold : f32) (raws : list chars) (s s' : Store)
    (em em' : Embedder) (ids : list Z) :
  st_connected s = true -> db_ok (st_db s) ->
  (∀ a tag, aliases (st_db s) !! (t, a) = Some tag -> pg_own s t tag) ->
  canonicalize t threshold raws (s, em) = (Ok ids, (s', em')) ->
  Forall2 (λ raw id, aliases (st_db s') !! (t, raw) = Some id ∧ pg_own s' t id) raws ids ∧
  (∀ u a, u <> t -> aliases (st_db s') !! (u, a) = aliases (st_db s) !! (u, a)) ∧
  (∀ a tag, aliases (st_db s) !! (t, a) = Some tag -> aliases (st_db s') !! (t, a) = Some tag) ∧
  (em_recorder em = true -> em_metered em' = em_metered em ++
     to_embed (λ a, bool_decide (is_Some (aliases (st_db s) !! (t, a)))) raws) ∧
  ∀ em2, canonicalize t threshold raws (s', em2) = (Ok ids, (s', em2)).
Proof.
  intros Hc Hok Ho Hrun.
  edestruct (canonicalize_spec (S:=Store) t threshold raws s em ids s' em') as (Hg & _ & Hf & Hm & Hagain);
    [done|exact Ho|exact Hrun|].
  split_and!; [done|exact (gr_other _ _ _ Hg)|exact (gr_alias _ _ _ Hg)| |done].
  intros Hrec. rewrite Hm. unfold metered. by rewrite Hrec.
Qed.

(** ** Surface variants *)

Section variants.
Context `{UnicodeLaws}.

(** A spelling: words, each followed by separators (none after the last). *)
Fixpoint spell (pairs : list (chars * chars)) : chars :=
  match pairs with
  | [] => []
  | (w, sep) :: pairs' => w ++ sep ++ spell pairs'
  end.
Definition plain_word (w : chars) : Prop := w <> [] ∧ Forall (λ c, is_ascii_alnum c = true) w.
Definition sep_char (c : Z) : bool := is_separator c || (is_ascii c && is_whitespace c).
Fixpoint spelling_ok (pairs : list (chars * chars)) : Prop :=
  match pairs with
  | [] => True
  | [(w, sep)] => plain_word w ∧ Forall (λ c, sep_char c = true) sep
  | (w, sep) :: pairs' =>
      plain_word w ∧ Forall (λ c, sep_char c = true) sep ∧ sep <> [] ∧ spelling_ok pairs'
  end.

Definition spaced (c : Z) : Z := if is_separator c then 32 else c.

Lemma alnum_char c : is_ascii_alnum c = true ->
  is_ascii c = true ∧ is_whitespace (spaced (to_ascii_lower c)) = false ∧
  spaced (to_ascii_lower c) = to_ascii_lower c.
Proof.
  unfold is_ascii_alnum, is_ascii_upper, is_ascii_lower, is_ascii_digit. intros Hc.
  assert (48 <= c <= 57 ∨ 65 <= c <= 90 ∨ 97 <= c <= 122) as Hr by lia.
  assert (Hl : to_ascii_lower c = c ∨ to_ascii_lower c = c + 32 ∧ 65 <= c <= 90).
  { unfold to_ascii_lower, is_ascii_upper. destruct ((65 <=? c) && (c <=? 90)) eqn:E; [right|by left]. lia. }
  assert (48 <= to_ascii_lower c <= 57 ∨ 97 <= to_ascii_lower c <= 122) as Hr'.
  { unfold to_ascii_lower, is_ascii_upper in *. destruct ((65 <=? c) && (c <=? 90)) eqn:E; lia. }
  generalize dependent (to_ascii_lower c). intros d Hd Hr'.
  unfold spaced, is_separator, is_ascii, is_whitespace.
  assert ((d =? 45) || (d =? 95) || (d =? 47) || (d =? 46) = false) as -> by lia. lia.
Qed.

Lemma sep_char_white c : sep_char c = true ->
  is_ascii c = true ∧ is_whitespace (spaced (to_ascii_lower c)) = true.
Proof.
  unfold sep_char. intros Hc. apply orb_true_iff in Hc as [Hc|Hc].
  - assert (to_ascii_lower c = c) as ->.
    { unfold is_separator, to_ascii_lower, is_ascii_upper in *. destruct ((65 <=? c) && (c <=? 90)) eqn:E; lia. }
    unfold spaced. rewrite Hc. unfold is_separator, is_ascii in *. split; [lia|done].
  - apply andb_true_iff in Hc as [Ha Hw]. split; [done|].
    assert (to_ascii_lower c = c) as ->.
    { unfold to_ascii_lower, is_ascii_upper, is_ascii, is_whitespace in *.
      destruct ((65 <=? c) && (c <=? 90)) eqn:E; lia. }
    unfold spaced. by destruct (is_separator c).
Qed.

Lemma split_ws_space cur sep s :
  Forall (λ c, is_whitespace c = true) sep -> sep <> [] ->
  split_ws cur (sep ++ s) = match cur with [] => split_ws [] s | _ => reverse cur :: split_ws [] s end.
Proof.
  intros Hs Hn. revert cur. induction Hs as [|c sep Hc Hs IH]; [done|]. intros cur. simpl. rewrite Hc.
  destruct sep as [|c' sep]; [by destruct cur|]. rewrite IH by done. by destruct cur.
Qed.

Lemma spelling_words pairs :
  spelling_ok pairs ->
  split_whitespace (spaced <$> (to_ascii_lowercase (spell pairs))) = to_ascii_lowercase <$> pairs.*1.
Proof.
  unfold split_whitespace, to_ascii_lowercase. rewrite <-list_fmap_compose.
  set (f := spaced ∘ to_ascii_lower).
  assert (Hword : ∀ w, plain_word w -> Forall (λ c, is_whitespace c = false) (f <$> w) ∧
            f <$> w = to_ascii_lower <$> w ∧ f <$> w <> []).
  { intros w [Hn Hw]. split_and!.
    - apply Forall_fmap. eapply Forall_impl; [exact Hw|]. intros c Hc. by apply alnum_char.
    - apply list_fmap_ext. intros i c Hi. rewrite Forall_lookup in Hw. by apply alnum_char, (Hw i).
    - by destruct w. }
  assert (Hsep : ∀ sep, Forall (λ c, sep_char c = true) sep -> Forall (λ c, is_whitespace c = true) (f <$> sep)).
  { intros sep Hs. apply Forall_fmap. eapply Forall_impl; [exact Hs|]. intros c Hc. by apply sep_char_white. }
  clearbody f. induction pairs as [|[w sep] pairs IH]; [done|]. intros Hok. cbn [spell].
  assert (plain_word w) as (Hw & Hl & Hne)%Hword by (destruct pairs; apply Hok).
  assert (Forall (λ c, sep_char c = true) sep) as Hs%Hsep by (destruct pairs; apply Hok).
  rewrite !fmap_app, split_ws_word, app_nil_r by done. csimpl. rewrite <-Hl.
  destruct (reverse (f <$> w)) as [|c cur] eqn:Er; [by rewrite reverse_nil_iff in Er|].
  assert (E : reverse (c :: cur) = f <$> w) by (by rewrite <-Er, reverse_involutive).
  destruct (decide (sep = [])) as [->|Hn].
  - destruct pairs; [simpl; by rewrite E|]. naive_solver.
  - rewrite split_ws_space by (done || by destruct sep). rewrite E. f_equal.
    apply IH. destruct pairs; [done|apply Hok].
Qed.

Lemma spell_ascii pairs : spelling_ok pairs -> Forall (λ c, is_ascii c = true) (spell pairs).
Proof.
  induction pairs as [|[w sep] pairs IH]; [constructor|]. intros Hok.
  assert (plain_word w) as [_ Hw] by (destruct pairs; apply Hok).
  assert (Forall (λ c, sep_char c = true) sep) as Hs by (destruct pairs; apply Hok).
  cbn [spell]. rewrite !Forall_app. split_and!.
  - eapply Forall_impl; [exact Hw|]. intros c Hc. by apply alnum_char.
  - eapply Forall_impl; [exact Hs|]. intros c Hc. by apply sep_char_white.
  - apply IH. destruct pairs; [done|apply Hok].
Qed.

Lemma strip_suffix_prefix rules w stem : strip_suffix rules w = Some stem -> ∃ n, stem = take n w.
Proof. induction rules as [|r rules IH]; simpl; [done|]. case_match; [|done]. intros [= <-]. eauto. Qed.

Lemma strip_suffix_long rules w stem : strip_suffix rules w = Some stem -> (3 <= str_len stem)%nat.
Proof.
  induction rules as [|r rules IH]; cbn [strip_suffix]; [done|]. destruct (_ && _) eqn:E; [|done]. intros [= <-].
  apply andb_true_iff in E as [_ E]. by apply Nat.leb_le in E.
Qed.

(** On ASCII words the stemmer returns a non-empty prefix of its input. *)
Lemma simple_stem_ascii w :
  w <> [] -> Forall (λ c, is_ascii c = true) w ->
  ∃ n stem, simple_stem w = Some stem ∧ stem = take n w ∧ stem <> [].
Proof.
  intros Hn Ha. unfold simple_stem. destruct (str_len w <? 4)%nat eqn:E4.
  { exists (length w), w. by rewrite take_ge. }
  apply Nat.ltb_ge in E4. rewrite str_len_ascii in E4 by done.
  destruct (strip_suffix suffix_rules w) as [stem|] eqn:Es.
  - pose proof (strip_suffix_long _ _ _ Es) as Hlong. apply strip_suffix_prefix in Es as [n ->].
    assert (Has : Forall (λ c, is_ascii c = true) (take n w)) by by apply Forall_take.
    rewrite str_len_ascii in Hlong by done. set (stem := take n w) in *.
    unfold undouble_final. destruct (reverse stem) as [|last [|prev [|third r]]] eqn:Er.
    1-3: apply (f_equal length) in Er; rewrite length_reverse in Er; simpl in Er; lia.
    destruct (_ && _); [|exists n, stem; split_and!; [done..|]; intros E; rewrite E in Hlong; simpl in Hlong; lia].
    assert (is_ascii last = true) as Hl.
    { rewrite Forall_forall in Has. apply Has. rewrite <-(reverse_Permutation stem), Er. by left. }
    rewrite char_len_ascii, str_len_ascii by done. change (negb (1 =? 1)%nat) with false. cbn match.
    destruct (3 <=? length stem - 1)%nat eqn:E3; simpl.
    + apply Nat.leb_le in E3. exists ((length stem - 1) `min` n)%nat, (take (length stem - 1) stem).
      split_and!; [reflexivity|unfold stem; by rewrite take_take|].
      intros E. apply (f_equal length) in E. rewrite length_take in E. simpl in E. lia.
    + exists n, stem. split_and!; [done..|]. intros E; rewrite E in Hlong; simpl in Hlong; lia.
  - unfold strip_plural. destruct (_ && _); [|by exists (length w), w; rewrite take_ge].
    exists (length w - 1)%nat, (take (length w - 1) w). split_and!; [done|done|].
    intros E. apply (f_equal length) in E. rewrite length_take in E. simpl in E. lia.
Qed.

Lemma stems_total ws :
  Forall (λ w, w <> [] ∧ Forall (λ c, is_ascii c = true) w) ws ->
  ∃ stems, mapM simple_stem ws = Some stems ∧ Forall2 (λ stem w, stem <> [] ∧ ∃ n, stem = take n w) stems ws.
Proof.
  induction 1 as [|w ws [Hn Ha] Hws (stems & E & Hf)]; [by exists []|].
  destruct (simple_stem_ascii w Hn Ha) as (n & stem & Es & -> & Hne). exists (take n w :: stems).
  simpl. rewrite Es. simpl. rewrite E. split; [done|]. constructor; eauto.
Qed.

(** Surface variants of a tag converge: whatever the case of the letters
    and whatever runs of spaces, hyphens, underscores, slashes and dots stand
    between and after the words, an ASCII tag normalizes, without a panic, to
    the stems of its lower-cased words joined by single spaces; each stem is
    a non-empty prefix of its word. *)
Theorem normalize_variants (pairs : list (chars * chars)) :
  spelling_ok pairs ->
  ∃ stems, mapM simple_stem (to_ascii_lowercase <$> pairs.*1) = Some stems ∧
    normalize_tag_name (spell pairs) = Some (join (str " ") stems) ∧
    Forall2 (λ stem w, stem <> [] ∧ ∃ n, stem = take n (to_ascii_lowercase w)) stems pairs.*1.
Proof.
  intros Hok. pose proof (spelling_words pairs Hok) as Hw. pose proof (spell_ascii pairs Hok) as Ha.
  destruct (stems_total (to_ascii_lowercase <$> pairs.*1)) as (stems & E & Hf).
  { apply Forall_fmap, Forall_fmap. clear Hw Ha. induction pairs as [|[w sep] pairs IH]; [constructor|].
    constructor; [|apply IH; destruct pairs; [done|apply Hok]].
    assert (plain_word w) as [Hn Hc] by (destruct pairs; apply Hok). simpl. split.
    - by destruct w.
    - apply Forall_fmap. eapply Forall_impl; [exact Hc|]. intros c Hal. apply alnum_char in Hal as (Hasc & _).
      unfold is_ascii, to_ascii_lower, is_ascii_upper, compose in *. case_match; lia. }
  exists stems. split; [done|]. split.
  - unfold normalize_tag_name. rewrite to_lowercase_ascii by done.
    change (λ c, if is_separator c then 32 else c) with spaced. rewrite Hw, E. simpl. do 2 f_equal.
    apply filter_keep. intros stem Hin. apply list_elem_of_lookup in Hin as [i Hi].
    eapply Forall2_lookup_l in Hf as (w & _ & ? & _); [done|exact Hi].
  - rewrite Forall2_fmap_r in Hf. exact Hf.
Qed.
End variants.

(** A word that doubles a multi-byte character before a suffix panics: the
    slice [..len - 1] ends inside the character. *)
Lemma undouble_panics_on_multibyte :
  @normalize_tag_name ascii_unicode ([21704; 21704; 21704] ++ str "ing") = None.
Proof. vm_compute. reflexivity. Qed.

(** ** The best match *)

(** The tags at or above the threshold, with their similarity. *)
Definition candidates (embedding : list f32) (threshold : f32) (existing : list (Z * list f32))
    : list (Z * f32) :=
  omap (λ tag, match cosine_similarity embedding tag.2 with
               | Some sim => if f_le threshold sim then Some (tag.1, sim) else None
               | None => None
               end) existing.

Lemma find_best_fold embedding existing threshold :
  find_best_match embedding existing threshold = foldl better_match None (candidates embedding threshold existing).
Proof.
  assert (Hfold : ∀ best, foldl (match_step embedding threshold) best existing
    = foldl better_match best (candidates embedding threshold existing)); [|apply Hfold].
  unfold candidates. induction existing as [|tag l IH]; intros best; [done|]. csimpl. rewrite IH.
  unfold match_step. destruct (cosine_similarity embedding tag.2) as [sim|]; [|done].
  by destruct (f_le threshold sim).
Qed.

Lemma candidates_num embedding threshold existing c :
  c ∈ candidates embedding threshold existing -> c.2 <> S754_nan.
Proof.
  intros (tag & _ & E)%list_elem_of_omap. destruct (cosine_similarity _ _) as [sim|]; [|done].
  destruct (f_le threshold sim) eqn:El; [|done]. injection E as <-. simpl. intros ->.
  unfold f_le, SFleb in El. by destruct threshold as [[]|[]| |[] ? ?].
Qed.

(** The first of the candidates with the greatest similarity wins. *)
Lemma better_match_first (l : list (Z * f32)) (p : Z * f32) :
  Forall (λ c : Z * f32, c.2 <> S754_nan) l ->
  foldl better_match None l = Some p ->
  ∃ l1 l2, l = l1 ++ p :: l2 ∧ Forall (λ c : Z * f32, f_lt c.2 p.2 = true) l1 ∧
    Forall (λ c : Z * f32, f_lt p.2 c.2 = false) l2.
Proof.
  revert p. induction l as [|c l IH] using rev_ind; intros p Hn; [done|].
  apply Forall_app in Hn as [Hl Hc]. rewrite Forall_singleton in Hc. rewrite foldl_app. simpl.
  destruct (foldl better_match None l) as [q|] eqn:E; simpl.
  - destruct (IH q Hl eq_refl) as (l1 & l2 & -> & H1 & H2). destruct q as [id x].
    destruct (f_lt x c.2) eqn:El; intros Hp; injection Hp as <-.
    + exists (l1 ++ (id, x) :: l2), []. split_and!; [done| |constructor].
      apply Forall_app in Hl as [Hl1 [Hx Hl2]%Forall_cons]. simpl in *.
      rewrite f_lt_key in El by done. destruct (lex3 (f_key x) (f_key c.2)) eqn:Ex; try done.
      apply Forall_app. split; [|apply Forall_cons; split].
      * rewrite Forall_forall in *. intros d Hd. specialize (H1 d Hd). specialize (Hl1 d Hd). simpl in *.
        rewrite f_lt_key in H1 |- * by done. destruct (lex3 (f_key d.2) (f_key x)) eqn:Ed; try done.
        by rewrite (lex3_lt_trans _ _ _ Ed Ex).
      * simpl. rewrite f_lt_key by done. by rewrite Ex.
      * rewrite Forall_forall in *. intros d Hd. specialize (H2 d Hd). specialize (Hl2 d Hd). simpl in *.
        rewrite f_lt_key in H2 |- * by done. destruct (lex3 (f_key x) (f_key d.2)) eqn:Ed; [|done|].
        { apply lex3_eq in Ed. by rewrite <-Ed, Ex. }
        rewrite lex3_antisym in Ed. destruct (lex3 (f_key d.2) (f_key x)) eqn:Ed'; try done.
        by rewrite (lex3_lt_trans _ _ _ Ed' Ex).
    + exists l1, (l2 ++ [c]). rewrite <-app_assoc. split_and!; [done|done|].
      apply Forall_app. split; [done|]. by constructor.
  - intros Hp. injection Hp as <-. assert (l = []) as ->; [|by exists [], []].
    clear -E. destruct l as [|d l] using rev_ind; [done|]. rewrite foldl_app in E. simpl in E.
    unfold better_match in E. by case_all.
Qed.

(** ** A concrete run *)

Definition demo_vector : list f32 := replicate 2560 (f32_of_Z 1).
Definition demo_embedder : Embedder := mkEmbedder [Some [demo_vector]] true [].
Definition demo_raws : list chars := [str "Machine-Learning"; str "Machine-Learning"].

Lemma canonicalize_stable_witness :
  st_connected demo_store = true ∧
  ∃ s' em', @canonicalize ascii_unicode Store _ 1 (f32_of_Z 1) demo_raws (demo_store, demo_embedder) = (Ok [9; 9], (s', em')) ∧
    em_metered em' = [str "machine learn"] ∧
    @canonicalize ascii_unicode Store _ 1 (f32_of_Z 1) demo_raws (s', mkEmbedder [] true []) = (Ok [9; 9], (s', mkEmbedder [] true [])).
Proof.
  split; [reflexivity|].
  assert (E : (@canonicalize ascii_unicode Store _ 1 (f32_of_Z 1) demo_raws (demo_store, demo_embedder)).1 = Ok [9; 9])
    by (vm_compute; reflexivity).
  destruct (canonicalize _ _ _ _) as [r [s' em']] eqn:Er. simpl in E. subst r. exists s', em'. split; [reflexivity|].
  destruct (@canonicalize_stable ascii_unicode 1 (f32_of_Z 1) demo_raws demo_store s' demo_embedder em' [9; 9]
    eq_refl empty_db_ok ltac:(done) Er) as (_ & _ & _ & Hm & Hagain).
  split; [|apply Hagain]. rewrite (Hm eq_refl). vm_compute. reflexivity.
Defined.

Lemma normalize_variants_witness :
  spelling_ok [(str "Machine", str "-_ "); (str "LEARNING", str "..")] ∧
  @normalize_tag_name ascii_unicode (str "Machine-_ LEARNING..") = Some (str "machine learn").
Proof.
  assert (Hok : spelling_ok [(str "Machine", str "-_ "); (str "LEARNING", str "..")]).
  { repeat split; try discriminate; repeat constructor. }
  split; [exact Hok|].
  destruct (@normalize_variants ascii_unicode ascii_unicode_laws _ Hok) as (stems & Hs & Hn & _).
  change (spell _) with (str "Machine-_ LEARNING..") in Hn. rewrite Hn. vm_compute in Hs.
  injection Hs as <-. vm_compute. reflexivity.
Defined.
