(* ===== verification/Auth.v ===== *)
(** * Accounts (core/src/auth.rs, the user and tenant methods of store/src/pg_store.rs)

    Password rules, the common-password list and its binary search, the tables
    of tenants and users with their operations: creation, e-mail verification
    and password reset.  Argon2 and the mailer are outside the model: a
    password hash is a string. *)

From stdpp Require Import base gmap list strings sorting.
From Stdlib Require Import ZArith Lia.
From S2P Require Import Prelude StableSort Text Json Role Quota Schema.
Open Scope Z_scope.

(** ** Binary search

    [slice::binary_search_by]: the range [base, base + size) shrinks until one
    element is left.  The fuel is the size, which every step decreases. *)

Section binary_search.
Context {A : Type} (cmp : A -> comparison).

Definition probe (l : list A) (i : nat) : comparison :=
  match l !! i with Some x => cmp x | None => Gt end.

Fixpoint search_loop (fuel : nat) (l : list A) (base size : nat) : nat :=
  match fuel with
  | O => base
  | S fuel' =>
      if (size <=? 1)%nat then base
      else
        let half := (size / 2)%nat in
        let mid := (base + half)%nat in
        search_loop fuel' l (match probe l mid with Gt => base | _ => mid end) (size - half)
  end.

Definition binary_search (l : list A) : option nat :=
  match l with
  | [] => None
  | _ =>
      let base := search_loop (length l) l 0 (length l) in
      match probe l base with Eq => Some base | _ => None end
  end.
End binary_search.

(** ** Passwords *)

Definition COMMON_PASSWORDS : list string :=
  ["000000"; "111111"; "11111111"; "112233"; "121212"; "123123"; "123321"; "1234"; "12345";
   "123456"; "1234567"; "12345678"; "123456789"; "1234567890"; "1234qwer"; "123abc"; "123qwe";
   "131313"; "159357"; "1q2w3e"; "1q2w3e4r"; "1q2w3e4r5t"; "1qaz2wsx"; "1qazxsw2"; "222222";
   "232323"; "314159"; "333333"; "444444"; "555555"; "654321"; "666666"; "696969"; "777777";
   "7777777"; "888888"; "88888888"; "987654"; "987654321"; "999999"; "aaaaaa"; "abc123";
   "abcdef"; "abgrtyu"; "access"; "action"; "alexander"; "alexis"; "amanda"; "amazon"; "amber";
   "amethyst"; "andrea"; "andrew"; "angel"; "angela"; "angels"; "animal"; "anthony"; "apollo";
   "apple"; "apples"; "arsenal"; "arthur"; "asdfgh"; "asdfghjkl"; "ashley"; "asshole"; "august";
   "austin"; "azerty"; "baby"; "badboy"; "bailey"; "banana"; "bandit"; "barney"; "baseball";
   "batman"; "bear"; "beaver"; "beer"; "benjamin"; "bigdog"; "bigtits"; "birdie"; "biteme";
   "black"; "blaster"; "blazer"; "blink182"; "blonde"; "blondes"; "blowjob"; "blowme"; "blue";
   "bo bo"; "booger"; "boomer"; "boston"; "brandon"; "brandy"; "braves"; "brian"; "broncos";
   "brother"; "brown"; "bruce"; "bubba"; "buddy"; "bull"; "bulldog"; "buster"; "butter";
   "butthead"; "calvin"; "camaro"; "cameron"; "campbell"; "canada"; "captain"; "carlos";
   "carter"; "casper"; "cat"; "celtic"; "champion"; "charles"; "charlie"; "cheese"; "chelsea";
   "chester"; "chicago"; "chicken"; "chris"; "cinder"; "cobra"; "cocacola"; "coffee"; "compaq";
   "computer"; "cookie"; "cool"; "cooper"; "corvette"; "cowboy"; "cowboys"; "crazy"; "creative";
   "cricket"; "crystal"; "cummins"; "cunt"; "curtis"; "daisy"; "dakota"; "dallas"; "daniel";
   "danielle"; "danny"; "dave"; "david"; "debbie"; "december"; "dennis"; "destiny"; "dexter";
   "diamond"; "dirty"; "doctor"; "dog"; "dolphin"; "donald"; "dragon"; "dreams"; "driver";
   "eagles"; "edward"; "einstein"; "elephant"; "elizabeth"; "emily"; "emperor"; "enigma";
   "enter"; "eric"; "estrella"; "extreme"; "falcon"; "family"; "fender"; "ferrari"; "fire";
   "fishing"; "florida"; "flower"; "flyers"; "football"; "forever"; "fred"; "freddy"; "freedom";
   "friend"; "fuck"; "fucker"; "fuckme"; "fuckyou"; "gandalf"; "garfield"; "garnet"; "gateway";
   "gators"; "gemini"; "george"; "giants"; "ginger"; "gizmo"; "god"; "golden"; "golf"; "golfer";
   "goober"; "google"; "gordon"; "gregory"; "griffin"; "guitar"; "gunner"; "hammer"; "happy";
   "hardcore"; "harley"; "harry"; "hawaii"; "heather"; "hello"; "helpme"; "hentai"; "hockey";
   "honda"; "hooters"; "horny"; "hotdog"; "house"; "hunter"; "hunting"; "icecream"; "iceman";
   "iloveyou"; "indian"; "ingod"; "inside"; "internet"; "iwantu"; "jack"; "jackie"; "jackson";
   "jaguar"; "jake"; "james"; "japan"; "jasmine"; "jason"; "jasper"; "jennifer"; "jeremy";
   "jessica"; "john"; "johnny"; "johnson"; "jordan"; "joseph"; "joshua"; "juice"; "julie";
   "june"; "justin"; "justine"; "katie"; "kelly"; "kelvin"; "kenneth"; "kevin"; "killer"; "king";
   "kitty"; "knight"; "lakers"; "larry"; "lauren"; "legend"; "letmein"; "liverpool"; "logan";
   "london"; "love"; "loveme"; "lover"; "maddog"; "madison"; "maggie"; "magic"; "magnum";
   "mallard"; "marcus"; "marina"; "marine"; "mark"; "marlboro"; "martin"; "marvin"; "master";
   "matrix"; "matthew"; "maverick"; "maxwell"; "member"; "mercedes"; "merlin"; "michael";
   "michelle"; "mickey"; "midnight"; "mike"; "miller"; "molly"; "monica"; "monkey"; "monster";
   "morgan"; "mother"; "mountain"; "muffin"; "murphy"; "music"; "mustang"; "myspace1"; "naked";
   "nascar"; "nathan"; "naughty"; "newyork"; "nicholas"; "nicole"; "ninja"; "nirvana"; "nissan";
   "november"; "october"; "oliver"; "orange"; "packers"; "panther"; "panties"; "paris"; "parker";
   "pass"; "passion"; "password"; "password1"; "password12"; "password123"; "patrick"; "paul";
   "peanut"; "pepper"; "peter"; "phantom"; "phoenix"; "photo"; "piano"; "picture"; "pink";
   "player"; "please"; "pookie"; "porsche"; "porter"; "prince"; "princess"; "private"; "purple";
   "pussy"; "q1w2e3r4"; "qazwsx"; "qazwsxedc"; "qqqqqq"; "qwe123"; "qweasd"; "qweasdzxc";
   "qwer1234"; "qwert"; "qwerty"; "qwerty123"; "qwertyui"; "qwertyuiop"; "rabbit"; "rachel";
   "racing"; "raiders"; "rainbow"; "ranger"; "raptors"; "rascal"; "raymond"; "redsox"; "redwing";
   "richard"; "robert"; "rocket"; "rocky"; "rose"; "runner"; "rush2112"; "russia"; "sailing";
   "samantha"; "sammy"; "samsung"; "sandra"; "sarah"; "scooby"; "scooter"; "scorpio"; "scotty";
   "september"; "service"; "sexsex"; "shadow"; "shannon"; "shasta"; "shelby"; "shit"; "sierra";
   "silver"; "skippy"; "slayer"; "smokey"; "sniper"; "snoopy"; "soccer"; "sophie"; "spanky";
   "sparky"; "spider"; "spirit"; "squall"; "star"; "stars"; "start"; "steelers"; "steven";
   "sticky"; "stingray"; "student"; "success"; "suckit"; "summer"; "sunshine"; "super";
   "superman"; "surfer"; "swimming"; "sydney"; "taylor"; "tennis"; "teresa"; "tester"; "testing";
   "theman"; "thomas"; "thunder"; "thx1138"; "tiffany"; "tigers"; "tigger"; "tomcat"; "topgun";
   "toyota"; "travis"; "tristan"; "trouble"; "trustno1"; "tucker"; "turtle"; "united"; "vampire";
   "vanessa"; "victor"; "victoria"; "viking"; "voodoo"; "voyager"; "walter"; "warrior";
   "welcome"; "white"; "william"; "willie"; "willow"; "wilson"; "winston"; "winter"; "wizard";
   "wolf"; "wolverine"; "wolves"; "xavier"; "xxxxxx"; "xzxzxz"; "yankees"; "yellow"; "yomama";
   "ytrewq"; "zaq12wsx"; "zaq1xsw2"; "zxcvbn"; "zxcvbnm"].

Section passwords.
Context `{Unicode}.

Definition is_common_password (password : chars) : bool :=
  let lower := to_lowercase password in
  bool_decide (is_Some (binary_search (λ w, chars_cmp (str w) lower) COMMON_PASSWORDS)).

Inductive StrengthError := TooShort | NoUpper | NoLower | NoDigit.
#[global] Instance strength_error_eq_dec : EqDecision StrengthError.
Proof. solve_decision. Defined.

Definition validate_password_strength (password : chars) : result unit StrengthError :=
  if (str_len password <? 8)%nat then Err TooShort
  else if negb (existsb is_uppercase password) then Err NoUpper
  else if negb (existsb is_lowercase password) then Err NoLower
  else if negb (existsb is_ascii_digit password) then Err NoDigit
  else Ok tt.
End passwords.

(** [SessionSecret::new]: at least 32 bytes. *)
Definition session_secret_new (secret : chars) : result chars nat :=
  if (str_len secret <? 32)%nat then Err (str_len secret) else Ok secret.

(** ** Tenants and users *)

Record UserRow := mkUserRow {
  u_tenant : Z;
  u_email : chars;
  u_password_hash : chars;
  u_role : string;
  u_email_verified : bool;
  u_email_verify_token : option chars;
  u_reset_token : option chars;
  u_reset_expires : option Z;
  u_created_at : Z;
}.

Record User := mkUser {
  user_id : Z;
  user_tenant : Z;
  user_email : chars;
  user_password_hash : chars;
  user_role : UserRole;
  user_email_verified : bool;
  user_created_at : Z;
}.

Record Accounts := mkAccounts {
  ac_connected : bool;
  ac_tenants : gmap Z (chars * chars);
  ac_users : gmap Z UserRow;
  ac_next_tenant : Z;
  ac_next_user : Z;
}.

Inductive AuthError :=
| AuthNotConnected
| UserLimit (e : EnforceError)
| UserExists
| TenantExists
| NoSuchTenant
| BadRole (e : CoreError).

Definition with_users (f : gmap Z UserRow -> gmap Z UserRow) (a : Accounts) : Accounts :=
  mkAccounts (ac_connected a) (ac_tenants a) (f (ac_users a)) (ac_next_tenant a) (ac_next_user a).

Definition call (A : Type) : Type := Accounts -> result A AuthError * Accounts.
(** [app_pool()?] or [pool()?]. *)
Definition on_pool {A} (m : call A) : call A := λ a,
  if ac_connected a then m a else (Err AuthNotConnected, a).

(** The plan's limit is checked on [q]; [email_verified] is not a column of
    the INSERT, so it takes the default of the table, which is true. *)
Definition create_user (q : db) (now t : Z) (email password_hash : chars) (role : UserRole) : call Z := λ a,
  match check_tenant_max_users q t 1 with
  | Err e => (Err (UserLimit e), a)
  | Ok _ =>
      on_pool (λ a,
        let id := ac_next_user a in
        let a1 := mkAccounts (ac_connected a) (ac_tenants a) (ac_users a) (ac_next_tenant a) (id + 1) in
        match rows_where (λ _ u, (u_tenant u =? t) && bool_decide (u_email u = email)) (ac_users a) with
        | _ :: _ => (Err UserExists, a1)
        | [] =>
            if decide (is_Some (ac_tenants a !! t))
            then (Ok id, with_users <[id := mkUserRow t email password_hash (as_str role) true None None None now]> a1)
            else (Err NoSuchTenant, a1)
        end) a
  end.

Definition user_of_row (id : Z) (u : UserRow) : result User AuthError :=
  match from_str (u_role u) with
  | Ok role => Ok (mkUser id (u_tenant u) (u_email u) (u_password_hash u) role (u_email_verified u) (u_created_at u))
  | Err e => Err (BadRole e)
  end.
Definition first_user (rows : list (Z * UserRow)) : result (option User) AuthError :=
  match rows with
  | [] => Ok None
  | (id, u) :: _ => match user_of_row id u with Ok x => Ok (Some x) | Err e => Err e end
  end.

Definition find_user_by_email (t : Z) (email : chars) : call (option User) :=
  on_pool (λ a, (first_user (rows_where (λ _ u, (u_tenant u =? t) && bool_decide (u_email u = email)) (ac_users a)), a)).

Definition create_tenant (slug name : chars) : call Z :=
  on_pool (λ a,
    if bool_decide (slug ∈ (map_to_list (ac_tenants a)).*2.*1) then (Err TenantExists, a)
    else
      let id := ac_next_tenant a in
      (Ok id, mkAccounts (ac_connected a) (<[id := (slug, name)]> (ac_tenants a)) (ac_users a) (id + 1) (ac_next_user a))).

Definition tenant_count : call Z := on_pool (λ a, (Ok (Z.of_nat (size (ac_tenants a))), a)).
Definition find_tenant_by_slug (slug : chars) : call (option Z) :=
  on_pool (λ a, (Ok (fst <$> head (rows_where (λ _ sn, bool_decide (sn.1 = slug)) (ac_tenants a))), a)).

(** [SELECT MIN(id) FROM tenants]. *)
Definition min_tenant (a : Accounts) : option Z :=
  head (sort_by_key id (map_to_list (ac_tenants a)).*1).
Definition is_platform_admin_tenant (t : Z) : call bool :=
  on_pool (λ a, (Ok (bool_decide (min_tenant a = Some t)), a)).

(** An UPDATE under row-level security, with the number of its rows. *)
Definition update_users (P : Z -> UserRow -> bool) (f : UserRow -> UserRow) : call Z :=
  on_pool (λ a, (Ok (Z.of_nat (length (rows_where P (ac_users a)))), with_users (update_where P f) a)).

Definition set_email_verify_token (t uid : Z) (token : chars) : call Z :=
  update_users (λ k u, (k =? uid) && (u_tenant u =? t))
    (λ u, mkUserRow (u_tenant u) (u_email u) (u_password_hash u) (u_role u) (u_email_verified u) (Some token)
            (u_reset_token u) (u_reset_expires u) (u_created_at u)).

Definition positive (r : result Z AuthError * Accounts) : result bool AuthError * Accounts :=
  match r with (Ok n, a) => (Ok (0 <? n), a) | (Err e, a) => (Err e, a) end.

Definition verify_user_email (t : Z) (token : chars) : call bool := λ a,
  positive (update_users (λ _ u, (u_tenant u =? t) && bool_decide (u_email_verify_token u = Some token))
    (λ u, mkUserRow (u_tenant u) (u_email u) (u_password_hash u) (u_role u) true None
            (u_reset_token u) (u_reset_expires u) (u_created_at u)) a).

Definition set_password_reset_token (t : Z) (email token : chars) (expires : Z) : call bool := λ a,
  positive (update_users (λ _ u, (u_tenant u =? t) && bool_decide (u_email u = email))
    (λ u, mkUserRow (u_tenant u) (u_email u) (u_password_hash u) (u_role u) (u_email_verified u)
            (u_email_verify_token u) (Some token) (Some expires) (u_created_at u)) a).

(** [password_reset_expires > now()]: false on NULL. *)
Definition reset_live (now : Z) (u : UserRow) : bool :=
  match u_reset_expires u with Some e => now <? e | None => false end.
Definition find_user_by_reset_token (now t : Z) (token : chars) : call (option User) :=
  on_pool (λ a, (first_user (rows_where (λ _ u, (u_tenant u =? t) && bool_decide (u_reset_token u = Some token)
    && reset_live now u) (ac_users a)), a)).

Definition reset_password (t uid : Z) (new_password_hash : chars) : call bool := λ a,
  positive (update_users (λ k u, (k =? uid) && (u_tenant u =? t))
    (λ u, mkUserRow (u_tenant u) (u_email u) new_password_hash (u_role u) (u_email_verified u)
            (u_email_verify_token u) None None (u_created_at u)) a).

(** ** The search finds exactly the members of a sorted list *)

Lemma chars_cmp_trans a b c : chars_cmp a b = Lt -> chars_cmp b c = Lt -> chars_cmp a c = Lt.
Proof.
  revert b c. induction a as [|x a IH]; intros [|y b] [|z c]; simpl; try done.
  destruct (Z.compare_spec x y) as [->|Hxy|Hxy]; intros H1; try done.
  - destruct (Z.compare_spec y z) as [->|Hyz|Hyz]; intros H2; try done. eauto.
  - destruct (Z.compare_spec y z) as [->|Hyz|Hyz]; intros H2; try done;
      rewrite (proj2 (Z.compare_lt_iff _ _)) by lia; done.
Qed.

Lemma chars_cmp_antisym a b : chars_cmp b a = CompOpp (chars_cmp a b).
Proof.
  revert b. induction a as [|x a IH]; intros [|y b]; simpl; try done.
  rewrite (Z.compare_antisym x y). destruct (x ?= y); simpl; auto.
Qed.

Section sorted_search.
Context {A : Type} (key : A -> chars) (target : chars).
Notation cmp := (λ x, chars_cmp (key x) target).

Definition key_lt (x y : A) : Prop := chars_cmp (key x) (key y) = Lt.

Lemma sorted_lookup_lt l i j x y :
  StronglySorted key_lt l -> l !! i = Some x -> l !! j = Some y -> (i < j)%nat -> key_lt x y.
Proof.
  intros Hs. revert i j. induction Hs as [|z l Hs IH Hz]; intros i j Hi Hj Hij; [done|].
  destruct j as [|j]; [lia|]. destruct i as [|i]; simpl in *; simplify_eq.
  - rewrite Forall_forall in Hz. apply Hz. by eapply list_elem_of_lookup_2.
  - eapply IH; [done..|lia].
Qed.

(** The position [p] of the target stays inside the range. *)
Lemma search_loop_finds l p x fuel base size :
  StronglySorted key_lt l -> l !! p = Some x -> key x = target ->
  (size <= fuel)%nat -> (base <= p < base + size)%nat -> (base + size <= length l)%nat ->
  search_loop cmp fuel l base size = p.
Proof.
  intros Hs Hp Hx. revert base size. induction fuel as [|fuel IH]; intros base size Hf Hr Hb; [lia|].
  cbn [search_loop]. destruct (Nat.leb_spec size 1); [lia|].
  assert (Hh : (1 <= size / 2 /\ 2 * (size / 2) <= size)%nat)
    by (split; [apply Nat.div_le_lower_bound; lia|apply Nat.Div0.mul_div_le]).
  set (half := (size / 2)%nat) in *. set (mid := (base + half)%nat).
  destruct (lookup_lt_is_Some_2 l mid ltac:(lia)) as [y Hy]. unfold probe. rewrite Hy.
  assert (Hcmp : chars_cmp (key y) target = Gt <-> (p < mid)%nat).
  { rewrite <-Hx. split.
    - intros Hgt. destruct (decide (p < mid)%nat) as [|Hge]; [done|].
      destruct (decide (p = mid)) as [->|]; [simplify_eq; by rewrite (proj2 (chars_cmp_eq _ _)) in Hgt|].
      assert (key_lt y x) as Hlt by (eapply sorted_lookup_lt; [done..|lia]). by rewrite Hlt in Hgt.
    - intros Hlt. assert (key_lt x y) as Hxy by (eapply sorted_lookup_lt; [done..|lia]).
      rewrite chars_cmp_antisym, Hxy. done. }
  destruct (chars_cmp (key y) target); apply IH; try lia.
  - destruct (decide (p < mid)%nat) as [Hlt%Hcmp|]; [done|lia].
  - destruct (decide (p < mid)%nat) as [Hlt%Hcmp|]; [done|lia].
  - assert (p < mid)%nat by (by apply Hcmp). lia.
Qed.

Lemma binary_search_spec l :
  StronglySorted key_lt l ->
  is_Some (binary_search cmp l) <-> ∃ x, x ∈ l ∧ key x = target.
Proof.
  intros Hs. unfold binary_search. destruct l as [|z l]; [split; [by intros []|set_solver]|].
  set (k := z :: l) in *. set (base := search_loop _ _ _ _ _). split.
  - unfold probe. destruct (k !! base) as [x|] eqn:E; [|by intros []].
    destruct (chars_cmp (key x) target) eqn:Ec; [|by intros []..]. intros _. apply chars_cmp_eq in Ec.
    exists x. split; [by eapply list_elem_of_lookup_2|done].
  - intros (x & [p Hp]%list_elem_of_lookup & Hx). pose proof (lookup_lt_Some _ _ _ Hp).
    assert (Hbase : base = p) by (eapply search_loop_finds; [done..|lia|lia|lia]).
    unfold probe. rewrite Hbase, Hp, (proj2 (chars_cmp_eq _ _) Hx). eauto.
Qed.

(** More fuel than the size of the list changes nothing: the loop ends. *)
Lemma search_loop_fuel l fuel base size :
  (size <= fuel)%nat -> search_loop cmp fuel l base size = search_loop cmp size l base size.
Proof.
  revert base size. induction fuel as [fuel IH] using lt_wf_ind. intros base size Hf.
  destruct fuel as [|fuel]; [by replace size with 0%nat by lia|]. destruct size as [|size].
  { cbn [search_loop]. done. }
  cbn [search_loop]. destruct (Nat.leb_spec (S size) 1); [done|].
  assert (Hh : (1 <= S size / 2 /\ 2 * (S size / 2) <= S size)%nat)
    by (split; [apply Nat.div_le_lower_bound; lia|apply Nat.Div0.mul_div_le]).
  rewrite (IH fuel) by lia. destruct (decide (size < S fuel)%nat) as [Hlt|]; [|lia].
  symmetry. apply IH; lia.
Qed.
End sorted_search.

Fixpoint adjacent_lt (l : list string) : bool :=
  match l with
  | x :: (y :: _) as l' => match chars_cmp (str x) (str y) with Lt => adjacent_lt l' | _ => false end
  | _ => true
  end.

Lemma adjacent_sorted l : adjacent_lt l = true -> StronglySorted (key_lt str) l.
Proof.
  intros Ha. apply Sorted_StronglySorted; [intros ???; apply chars_cmp_trans|].
  induction l as [|x [|y l] IH]; [constructor|by repeat constructor|]. cbn [adjacent_lt] in Ha.
  destruct (chars_cmp (str x) (str y)) eqn:E; try done. constructor; [by apply IH|by constructor].
Qed.

Lemma common_passwords_sorted : StronglySorted (key_lt str) COMMON_PASSWORDS.
Proof. apply adjacent_sorted. vm_compute. reflexivity. Qed.

(** A password is rejected as common exactly when its lower-case form is
    in the bundled list: the list is strictly sorted, so the binary search,
    which ends within as many steps as the list is long, misses none. *)
Theorem common_password_exact `{Unicode} (password : chars) :
  (is_common_password password = true <-> to_lowercase password ∈ (str <$> COMMON_PASSWORDS)) ∧
  ∀ fuel, (length COMMON_PASSWORDS <= fuel)%nat ->
    search_loop (λ w, chars_cmp (str w) (to_lowercase password)) fuel COMMON_PASSWORDS 0 (length COMMON_PASSWORDS)
    = search_loop (λ w, chars_cmp (str w) (to_lowercase password)) (length COMMON_PASSWORDS) COMMON_PASSWORDS 0
        (length COMMON_PASSWORDS).
Proof.
  split; [|intros; by apply search_loop_fuel].
  unfold is_common_password. rewrite bool_decide_eq_true.
  rewrite (binary_search_spec str (to_lowercase password)) by apply common_passwords_sorted.
  rewrite list_elem_of_fmap. naive_solver.
Qed.

(** Five characters can pass the eight-character rule: it counts bytes. *)
Lemma short_password_accepted :
  @validate_password_strength ascii_unicode (str "Aa1" ++ [128512; 128512]) = Ok tt ∧
  length (str "Aa1" ++ [128512; 128512]) = 5%nat.
Proof. vm_compute. done. Qed.

(** ** Histories of the account tables *)

Inductive account_op :=
| ACreateTenant (slug name : chars)
| ACreateUser (q : db) (now t : Z) (email password_hash : chars) (role : UserRole)
| ASetVerifyToken (t uid : Z) (token : chars)
| AVerifyEmail (t : Z) (token : chars)
| ASetResetToken (t : Z) (email token : chars) (expires : Z)
| AResetPassword (t uid : Z) (password_hash : chars).

Definition account_exec (op : account_op) (a : Accounts) : Accounts :=
  match op with
  | ACreateTenant slug name => (create_tenant slug name a).2
  | ACreateUser q now t email hash role => (create_user q now t email hash role a).2
  | ASetVerifyToken t uid token => (set_email_verify_token t uid token a).2
  | AVerifyEmail t token => (verify_user_email t token a).2
  | ASetResetToken t email token expires => (set_password_reset_token t email token expires a).2
  | AResetPassword t uid hash => (reset_password t uid hash a).2
  end.
Definition account_history (ops : list account_op) (a : Accounts) : Accounts :=
  foldl (λ a op, account_exec op a) a ops.

Record accounts_ok (a : Accounts) : Prop := {
  ao_user k u : ac_users a !! k = Some u ->
    k < ac_next_user a ∧ is_Some (ac_tenants a !! u_tenant u) ∧ ∃ role : UserRole, u_role u = as_str role;
  ao_unique k k' u u' : ac_users a !! k = Some u -> ac_users a !! k' = Some u' ->
    u_tenant u = u_tenant u' -> u_email u = u_email u' -> k = k';
  ao_tenant t sn : ac_tenants a !! t = Some sn -> t < ac_next_tenant a;
  ao_slug t t' sn sn' : ac_tenants a !! t = Some sn -> ac_tenants a !! t' = Some sn' -> sn.1 = sn'.1 -> t = t';
}.

Lemma on_pool_ok {A} (P : Accounts -> Prop) (m : call A) a :
  P a -> P (m a).2 -> P (on_pool m a).2.
Proof. intros. unfold on_pool. by destruct (ac_connected a). Qed.

(** An UPDATE that keeps the identity of the rows keeps the invariant. *)
Lemma update_users_ok P f a :
  (∀ u, u_tenant (f u) = u_tenant u ∧ u_email (f u) = u_email u ∧ u_role (f u) = u_role u) ->
  accounts_ok a -> accounts_ok (update_users P f a).2.
Proof.
  intros Hf Ha. unfold update_users. apply on_pool_ok; [done|]. simpl.
  assert (Hrow : ∀ k u, update_where P f (ac_users a) !! k = Some u ->
    ∃ v, ac_users a !! k = Some v ∧ u_tenant u = u_tenant v ∧ u_email u = u_email v ∧ u_role u = u_role v).
  { intros k u. rewrite lookup_update_where. destruct (ac_users a !! k) as [v|]; [|done]. intros [= <-].
    exists v. split; [done|]. destruct (P k v); [apply Hf|done]. }
  split; simpl.
  - intros k u (v & Hv & -> & _ & ->)%Hrow. by apply (ao_user a Ha).
  - intros k k' u u' (v & Hv & -> & -> & _)%Hrow (v' & Hv' & -> & -> & _)%Hrow. by apply (ao_unique a Ha).
  - apply Ha.
  - apply Ha.
Qed.

Lemma positive_snd r : (positive r).2 = r.2.
Proof. by destruct r as [[|] ?]. Qed.

Lemma create_user_ok q now t email hash role a :
  accounts_ok a -> accounts_ok (create_user q now t email hash role a).2.
Proof.
  intros Ha. unfold create_user. destruct (check_tenant_max_users q t 1); [|done].
  apply on_pool_ok; [done|].
  assert (Hbump : accounts_ok (mkAccounts (ac_connected a) (ac_tenants a) (ac_users a) (ac_next_tenant a) (ac_next_user a + 1))).
  { split; simpl; try apply Ha. intros k u Hu. destruct (ao_user a Ha k u Hu) as (? & ? & ?). split_and!; [lia|done..]. }
  destruct (rows_where _ _) as [|x l] eqn:Hr; [|done]. case_decide as Ht; [|done]. split; simpl.
  - intros k u [[<- <-]|[_ Hu]]%lookup_insert_Some; simpl; [split_and!; [lia|done|eauto]|].
    destruct (ao_user a Ha k u Hu) as (? & ? & ?). split_and!; [lia|done..].
  - assert (Hnew : ∀ k u, ac_users a !! k = Some u -> u_tenant u = t -> u_email u <> email).
    { intros k u Hu Htu He. assert (Hin : (k, u) ∈ rows_where (λ _ u, (u_tenant u =? t) &&
        bool_decide (u_email u = email)) (ac_users a)).
      { apply rows_where_elem. split; [done|]. rewrite Htu, Z.eqb_refl. by apply bool_decide_eq_true. }
      rewrite Hr in Hin. by apply elem_of_nil in Hin. }
    intros k k' u u' [[<- <-]|[_ Hu]]%lookup_insert_Some [[<- <-]|[_ Hu']]%lookup_insert_Some; simpl; [done|..].
    + intros Et Ee. by destruct (Hnew k' u' Hu').
    + intros Et Ee. by destruct (Hnew k u Hu).
    + by apply (ao_unique a Ha).
  - apply Ha.
  - apply Ha.
Qed.

Lemma create_tenant_ok slug name a : accounts_ok a -> accounts_ok (create_tenant slug name a).2.
Proof.
  intros Ha. unfold create_tenant. apply on_pool_ok; [done|]. case_bool_decide as Hs; [done|].
  assert (Hnew : ∀ t sn, ac_tenants a !! t = Some sn -> sn.1 <> slug).
  { intros t sn Ht <-. apply Hs. apply list_elem_of_fmap_2, list_elem_of_fmap. exists (t, sn).
    split; [done|]. by apply elem_of_map_to_list. }
  split; simpl.
  - intros k u Hu. destruct (ao_user a Ha k u Hu) as (? & [sn Hsn] & ?). split_and!; [done| |done].
    destruct (decide (ac_next_tenant a = u_tenant u)) as [->|]; [rewrite lookup_insert_eq; eauto|].
    rewrite lookup_insert_ne by done. eauto.
  - apply Ha.
  - intros t sn [[<- <-]|[_ Ht]]%lookup_insert_Some; [lia|]. pose proof (ao_tenant a Ha t sn Ht). lia.
  - intros t t' sn sn' [[<- <-]|[_ Ht]]%lookup_insert_Some [[<- <-]|[_ Ht']]%lookup_insert_Some; simpl; [done|..].
    + intros E. by destruct (Hnew t' sn' Ht').
    + intros E. by destruct (Hnew t sn Ht).
    + by apply (ao_slug a Ha).
Qed.

Lemma account_history_ok ops a : accounts_ok a -> accounts_ok (account_history ops a).
Proof.
  revert a. induction ops as [|op ops IH]; intros a Ha; [done|]. apply IH.
  destruct op; simpl;
    [by apply create_tenant_ok|by apply create_user_ok|by apply update_users_ok|
     unfold verify_user_email, set_password_reset_token, reset_password; rewrite positive_snd;
     by apply update_users_ok..].
Qed.

Definition no_accounts : Accounts := mkAccounts true ∅ ∅ 1 1.
Lemma no_accounts_ok : accounts_ok no_accounts.
Proof. split; intros *; simpl; by rewrite ?lookup_empty. Qed.

(** Every user is verified from the start: no statement ever writes false. *)
Definition all_verified (a : Accounts) : Prop :=
  ∀ k u, ac_users a !! k = Some u -> u_email_verified u = true.

Lemma update_users_verified P f a :
  (∀ u, u_email_verified u = true -> u_email_verified (f u) = true) ->
  all_verified a -> all_verified (update_users P f a).2.
Proof.
  intros Hf Ha. unfold update_users. apply on_pool_ok; [done|]. intros k u. simpl.
  rewrite lookup_update_where. destruct (ac_users a !! k) as [v|] eqn:E; [|done]. intros [= <-].
  destruct (P k v); [apply Hf|]; by eapply Ha.
Qed.

Lemma create_user_verified q now t email hash role a :
  all_verified a -> all_verified (create_user q now t email hash role a).2.
Proof.
  intros Ha. unfold create_user. destruct (check_tenant_max_users q t 1); [|done].
  apply on_pool_ok; [done|]. destruct (rows_where _ _); [|done]. case_decide; [|done].
  intros k u. simpl. intros [[<- <-]|[_ Hu]]%lookup_insert_Some; [done|by eapply Ha].
Qed.

(** Whatever tenants and users are created and whatever verification and
    reset steps happen, e-mails stay unique within a tenant, slugs unique,
    every user belongs to a tenant and has a role that parses; and every user
    counts as verified, also one whose address was never confirmed. *)
Theorem accounts_invariant (ops : list account_op) :
  let a := account_history ops no_accounts in
  accounts_ok a ∧ ∀ k u, ac_users a !! k = Some u -> u_email_verified u = true.
Proof.
  split; [apply account_history_ok, no_accounts_ok|].
  assert (Hv : ∀ ops a, all_verified a -> all_verified (account_history ops a)); [|by apply Hv].
  clear ops. induction ops as [|op ops IH]; intros a Ha; [done|]. apply IH.
  destruct op; simpl;
    [|by apply create_user_verified|by apply update_users_verified|
     unfold verify_user_email, set_password_reset_token, reset_password; rewrite positive_snd;
     by apply update_users_verified..].
  unfold create_tenant. apply on_pool_ok; [done|]. by case_bool_decide.
Qed.

(** ** Password reset *)

Definition holds_reset (now t : Z) (token : chars) (u : UserRow) : bool :=
  (u_tenant u =? t) && bool_decide (u_reset_token u = Some token) && reset_live now u.

Lemma find_reset_exact (now t : Z) (token : chars) (a : Accounts) (x : option User) :
  accounts_ok a -> ac_connected a = true ->
  (∀ k k' u u', ac_users a !! k = Some u -> ac_users a !! k' = Some u' ->
     holds_reset now t token u = true -> holds_reset now t token u' = true -> k = k') ->
  (find_user_by_reset_token now t token a).1 = Ok x <->
  match x with
  | Some user => ∃ u, ac_users a !! user_id user = Some u ∧ holds_reset now t token u = true ∧
      user_of_row (user_id user) u = Ok user
  | None => ∀ k u, ac_users a !! k = Some u -> holds_reset now t token u = false
  end.
Proof.
  intros Ha Hc Hu. unfold find_user_by_reset_token, on_pool. rewrite Hc. simpl.
  change (λ _ u, (u_tenant u =? t) && bool_decide (u_reset_token u = Some token) && reset_live now u)
    with (λ (_ : Z) u, holds_reset now t token u).
  destruct (rows_where _ _) as [|[k u] l] eqn:E.
  - assert (Hnone : ∀ k u, ac_users a !! k = Some u -> holds_reset now t token u = false).
    { intros k u Hk. destruct (holds_reset now t token u) eqn:Eh; [|done].
      assert (Hin : (k, u) ∈ rows_where (λ _ u, holds_reset now t token u) (ac_users a)) by by apply rows_where_elem.
      rewrite E in Hin. by apply elem_of_nil in Hin. }
    destruct x as [user|]; simpl; [|split; done]. split; [done|]. intros (u & Hk & Hh & _).
    by rewrite (Hnone _ _ Hk) in Hh.
  - assert (Hin : (k, u) ∈ rows_where (λ _ u, holds_reset now t token u) (ac_users a)) by (rewrite E; by left).
    apply rows_where_elem in Hin as [Hk Hh]. destruct (ao_user a Ha k u Hk) as (_ & _ & role & Hrole).
    assert (Hrow : ∃ user, user_of_row k u = Ok user ∧ user_id user = k).
    { unfold user_of_row. rewrite Hrole, from_str_as_str. by eexists. }
    destruct Hrow as (user & Hrow & Hid). simpl. rewrite Hrow.
    destruct x as [user'|]; split.
    + intros [= <-]. exists u. by rewrite Hid.
    + intros (u' & Hk' & Hh' & Hr'). assert (k = user_id user') as -> by eauto. simplify_eq. congruence.
    + done.
    + intros Hn. by rewrite (Hn k u Hk) in Hh.
Qed.

(** An UPDATE with exactly one matching row. *)
Lemma update_unique P f (a : Accounts) k u :
  ac_connected a = true -> ac_users a !! k = Some u ->
  (∀ k' u', ac_users a !! k' = Some u' -> (P k' u' = true <-> k' = k)) ->
  update_users P f a = (Ok 1, with_users (λ _, <[k := f u]> (ac_users a)) a).
Proof.
  intros Hc Hk HP. unfold update_users, on_pool, with_users. rewrite Hc. f_equal.
  - f_equal. assert (rows_where P (ac_users a) ≡ₚ [(k, u)]) as ->; [|done].
    apply NoDup_Permutation; [apply (NoDup_fmap_1 fst), rows_where_NoDup|apply NoDup_singleton|].
    intros [k' u']. rewrite rows_where_elem, list_elem_of_singleton. split.
    + intros [Hk' Hp]. apply (HP k' u' Hk') in Hp as ->. congruence.
    + intros [= -> ->]. split; [done|]. by apply (HP k u).
  - f_equal. apply map_eq. intros i. rewrite lookup_update_where.
    destruct (decide (i = k)) as [->|Hi].
    + rewrite lookup_insert_eq, Hk. simpl. by rewrite (proj2 (HP k u Hk) eq_refl).
    + rewrite lookup_insert_ne by done. destruct (ac_users a !! i) as [v|] eqn:E; [|done]. simpl.
      destruct (P i v) eqn:Ep; [|done]. by apply (HP i v E) in Ep.
Qed.

Section reset.
Context (a : Accounts) (t : Z) (email token : chars) (expires k : Z) (u : UserRow).
Context (Ha : accounts_ok a) (Hc : ac_connected a = true).
Context (Hk : ac_users a !! k = Some u) (Ht : u_tenant u = t) (He : u_email u = email).
(** Tokens are random: no other user of the tenant holds this one. *)
Context (Hfresh : ∀ k' u', ac_users a !! k' = Some u' -> u_tenant u' = t -> u_reset_token u' <> Some token).

Definition with_reset : UserRow :=
  mkUserRow (u_tenant u) (u_email u) (u_password_hash u) (u_role u) (u_email_verified u)
    (u_email_verify_token u) (Some token) (Some expires) (u_created_at u).
Definition requested : Accounts := with_users (λ _, <[k := with_reset]> (ac_users a)) a.
Definition changed (hash : chars) : Accounts :=
  with_users (λ _, <[k := mkUserRow (u_tenant u) (u_email u) hash (u_role u) (u_email_verified u)
    (u_email_verify_token u) None None (u_created_at u)]> (ac_users a)) a.

Lemma set_reset_run : set_password_reset_token t email token expires a = (Ok true, requested).
Proof using All.
  unfold set_password_reset_token. rewrite (update_unique _ _ a k u); [done|done|done|].
  intros k' u' Hk'. rewrite andb_true_iff, Z.eqb_eq, bool_decide_eq_true. split.
  - intros [Et Ee]. eapply (ao_unique a Ha); [done..| |]; congruence.
  - intros ->. simplify_eq. done.
Qed.

Lemma reset_run hash : reset_password t k hash requested = (Ok true, changed hash).
Proof using All.
  unfold reset_password. rewrite (update_unique _ _ requested k with_reset).
  - unfold requested, changed, with_users. simpl. by rewrite insert_insert_eq.
  - done.
  - apply lookup_insert_eq.
  - intros k' u' Hk'. rewrite andb_true_iff, !Z.eqb_eq. split; [by intros [-> _]|]. intros ->. split; [done|].
    unfold requested in Hk'. simpl in Hk'. rewrite lookup_insert_eq in Hk'. by injection Hk' as <-.
Qed.

Lemma requested_ok : accounts_ok requested.
Proof using All.
  change requested with ((Ok true : result bool AuthError, requested).2). rewrite <-set_reset_run.
  unfold set_password_reset_token. rewrite positive_snd. by apply update_users_ok.
Qed.

Lemma changed_ok hash : accounts_ok (changed hash).
Proof using All.
  change (changed hash) with ((Ok true : result bool AuthError, changed hash).2). rewrite <-reset_run.
  unfold reset_password. rewrite positive_snd. apply update_users_ok; [done|apply requested_ok].
Qed.

Lemma requested_holds now k' u' :
  ac_users requested !! k' = Some u' -> holds_reset now t token u' = true -> k' = k ∧ now < expires.
Proof using All.
  unfold requested, holds_reset. simpl. intros [[<- <-]|[_ Hu]]%lookup_insert_Some Hh; bool_to_prop.
  - unfold reset_live in *. simpl in *. by bool_to_prop.
  - by destruct (Hfresh k' u').
Qed.

Lemma changed_holds hash now k' u' :
  ac_users (changed hash) !! k' = Some u' -> holds_reset now t token u' = false.
Proof using All.
  unfold changed, holds_reset. simpl. intros [[<- <-]|[_ Hu]]%lookup_insert_Some.
  - rewrite (bool_decide_false (_ = _)) by done. simpl. by rewrite andb_false_r.
  - destruct (Z.eqb_spec (u_tenant u') t) as [E|]; [|done].
    rewrite (bool_decide_false (_ = _)) by (by eapply Hfresh). done.
Qed.

Lemma reset_lookup now :
  now < expires -> ∃ user, user_id user = k ∧ user_email user = email ∧
    (find_user_by_reset_token now t token requested).1 = Ok (Some user).
Proof using All.
  intros Hn. destruct (ao_user a Ha k u Hk) as (_ & _ & role & Hrole).
  exists (mkUser k (u_tenant u) (u_email u) (u_password_hash u) role (u_email_verified u) (u_created_at u)).
  split_and!; [done|done|]. apply find_reset_exact; [apply requested_ok|done| |].
  - intros k1 k2 u1 u2 H1 H2 Hh1 Hh2. apply (requested_holds _ _ _ H1) in Hh1 as [-> _].
    by apply (requested_holds _ _ _ H2) in Hh2 as [-> _].
  - exists with_reset. simpl. split_and!; [apply lookup_insert_eq| |unfold user_of_row; simpl; by rewrite Hrole, from_str_as_str].
    unfold holds_reset, reset_live. simpl. rewrite Ht, Z.eqb_refl, bool_decide_true by done. lia.
Qed.

Lemma reset_none now b :
  b = requested ∧ expires <= now ∨ (∃ hash, b = changed hash) ->
  (find_user_by_reset_token now t token b).1 = Ok None.
Proof using All.
  intros Hb. apply find_reset_exact.
  - destruct Hb as [[-> _]|[hash ->]]; [apply requested_ok|apply changed_ok].
  - by destruct Hb as [[-> _]|[hash ->]].
  - destruct Hb as [[-> Hn]|[hash ->]]; intros k1 k2 u1 u2 H1 H2 Hh1 Hh2.
    + apply (requested_holds _ _ _ H1) in Hh1 as [_ ?]. lia.
    + by rewrite (changed_holds _ _ _ _ H1) in Hh1.
  - destruct Hb as [[-> Hn]|[hash ->]]; intros k' u' Hu'; [|by eapply changed_holds].
    destruct (holds_reset now t token u') eqn:E; [|done]. apply (requested_holds _ _ _ Hu') in E as [_ ?]. lia.
Qed.
End reset.

(** Requesting a password reset for an existing user makes the token find
    exactly that user, in that tenant, until it expires; changing the password
    writes the new hash and the token finds nobody any more; no other row of
    the table changes in either step. *)
Theorem password_reset_flow (a : Accounts) (t : Z) (email token hash : chars) (expires k : Z) (u : UserRow) :
  accounts_ok a -> ac_connected a = true ->
  ac_users a !! k = Some u -> u_tenant u = t -> u_email u = email ->
  (∀ k' u', ac_users a !! k' = Some u' -> u_tenant u' = t -> u_reset_token u' <> Some token) ->
  ∃ a1 a2,
    set_password_reset_token t email token expires a = (Ok true, a1) ∧
    reset_password t k hash a1 = (Ok true, a2) ∧
    (∀ now, now < expires -> ∃ user, user_id user = k ∧ user_email user = email ∧
       (find_user_by_reset_token now t token a1).1 = Ok (Some user)) ∧
    (∀ now, expires <= now -> (find_user_by_reset_token now t token a1).1 = Ok None) ∧
    (∀ now, (find_user_by_reset_token now t token a2).1 = Ok None) ∧
    u_password_hash <$> ac_users a2 !! k = Some hash ∧
    ∀ k', k' <> k -> ac_users a1 !! k' = ac_users a !! k' ∧ ac_users a2 !! k' = ac_users a !! k'.
Proof.
  intros Ha Hc Hk Ht He Hf. exists (requested a token expires k u), (changed a k u hash).
  split_and!.
  - by apply (set_reset_run a t email).
  - by apply (reset_run a t email).
  - intros. by apply (reset_lookup a t email).
  - intros. eapply (reset_none a t email); eauto.
  - intros. eapply (reset_none a t email token expires); eauto.
  - simpl. by rewrite lookup_insert_eq.
  - intros k' Hne. simpl. by rewrite !lookup_insert_ne by done.
Qed.

Definition demo_user : UserRow := mkUserRow 1 (str "a@b.c") (str "hash") "member" true None None None 0.
Definition demo_accounts : Accounts := mkAccounts true {[1 := (str "acme", str "Acme")]} {[1 := demo_user]} 2 2.

Lemma password_reset_flow_witness :
  ac_users demo_accounts !! 1 = Some demo_user ∧
  ∃ a1 a2, set_password_reset_token 1 (str "a@b.c") (str "tok") 100 demo_accounts = (Ok true, a1) ∧
    reset_password 1 1 (str "new") a1 = (Ok true, a2) ∧
    (find_user_by_reset_token 5 1 (str "tok") a2).1 = Ok None.
Proof.
  split; [reflexivity|].
  destruct (password_reset_flow demo_accounts 1 (str "a@b.c") (str "tok") (str "new") 100 1 demo_user)
    as (a1 & a2 & H1 & H2 & _ & _ & H3 & _).
  - split; simpl.
    + intros k u [<- <-]%lookup_singleton_Some. split_and!; [lia| |by exists Member].
      simpl. rewrite lookup_singleton_eq. by eexists.
    + by intros k k' u u' [<- _]%lookup_singleton_Some [<- _]%lookup_singleton_Some.
    + intros t sn [<- _]%lookup_singleton_Some. lia.
    + by intros t t' sn sn' [<- _]%lookup_singleton_Some [<- _]%lookup_singleton_Some.
  - reflexivity.
  - reflexivity.
  - reflexivity.
  - reflexivity.
  - cbn [demo_accounts ac_users]. by intros k u [_ <-]%lookup_singleton_Some.
  - exists a1, a2. auto.
Defined.
