(* ===== verification/Sessions.v ===== *)
(** * Sessions and API tokens (core/src/session.rs, core/src/api_token.rs,
    store/src/session_store.rs, store/src/api_token_store.rs)

    The traits [SessionStore] and [ApiTokenStore] with their in-memory and
    Postgres implementations.  The clock and the random bytes are arguments;
    times are microseconds, lifetimes whole seconds as every caller passes
    them.  SHA-256 is a parameter, free of collisions. *)

From stdpp Require Import base gmap list strings sorting.
From Stdlib Require Import ZArith Lia Strings.Byte.
From S2P Require Import Prelude StableSort Text Json Role Quota Schema Auth.
Open Scope Z_scope.

(** ** Tokens *)

Definition hex_digit (n : Z) : Z := if n <? 10 then 48 + n else 87 + n.
(** [hex::encode]. *)
Definition hex_encode (b : list byte) : chars :=
  b ≫= λ x, [hex_digit (byte_val x / 16); hex_digit (byte_val x mod 16)].

Definition SESSION_TOKEN_BYTES : nat := 32.
Definition API_TOKEN_BYTES : nat := 32.
Definition DEFAULT_SESSION_TTL_SECS : Z := 86400.
Definition REMEMBER_ME_SESSION_TTL_SECS : Z := 30 * 86400.
Definition DEFAULT_API_TOKEN_TTL_SECS : Z := 365 * 86400.

Inductive SessError :=
| RngFailed
| InvalidTtl
| TimeOverflow
| SessFk
| SessDuplicate
| SessRole (e : CoreError)
| MissingId.
#[global] Instance sess_error_eq_dec : EqDecision SessError. Proof. solve_decision. Defined.

(** [rnd] is what the system's random source fills the buffer with. *)
Definition generate_session_token (rnd : option (list byte)) : result chars SessError :=
  match rnd with Some b => Ok (hex_encode b) | None => Err RngFailed end.
Definition generate_api_token (rnd : option (list byte)) : result chars SessError :=
  match rnd with Some b => Ok (hex_encode b) | None => Err RngFailed end.

(** [chrono::Duration::from_std] takes up to [i64::MAX] milliseconds; adding a
    duration past the last representable instant panics. *)
Definition MAX_UTC_MICROS : Z := 8210266876799999999.
Definition expiry (now ttl : Z) : result Z SessError :=
  if ity_max i64 <? ttl * 1000 then Err InvalidTtl
  else if MAX_UTC_MICROS <? now + ttl * 1000000 then Err TimeOverflow
  else Ok (now + ttl * 1000000).

(** ** Sessions *)

Record Session := mkSession {
  s_tenant : Z;
  s_user : Z;
  s_role : UserRole;
  s_verified : bool;
  s_expires_at : Z;
  s_created_at : Z;
}.
Record SessionInfo := mkSessionInfo {
  si_tenant : Z;
  si_user : Z;
  si_role : UserRole;
  si_verified : bool;
}.
#[global] Instance session_info_eq_dec : EqDecision SessionInfo. Proof. solve_decision. Defined.

Class SessionStore (S : Type) := {
  ss_create : option (list byte) -> Z -> Z -> Z -> UserRole -> bool -> Z -> S -> result chars SessError * S;
  ss_validate : Z -> chars -> S -> result (option SessionInfo) SessError;
  ss_extend : Z -> chars -> Z -> S -> result unit SessError * S;
  ss_revoke : chars -> S -> S;
  ss_revoke_all_for_tenant : Z -> S -> S;
  ss_revoke_user_sessions : Z -> Z -> S -> S;
}.

(** *** In memory *)

Record InMemorySessionStore := mkMem {
  ms_sessions : gmap chars Session;
  ms_user_info : gmap (Z * Z) (UserRole * bool);
}.

Definition update_user_info (t u : Z) (role : UserRole) (verified : bool) (m : InMemorySessionStore)
    : InMemorySessionStore :=
  mkMem (ms_sessions m) (<[(t, u) := (role, verified)]> (ms_user_info m)).

Definition ms_create (rnd : option (list byte)) (now t u : Z) (role : UserRole) (verified : bool) (ttl : Z)
    (m : InMemorySessionStore) : result chars SessError * InMemorySessionStore :=
  match generate_session_token rnd with
  | Err e => (Err e, m)
  | Ok token =>
      match expiry now ttl with
      | Err e => (Err e, m)
      | Ok expires =>
          (Ok token, mkMem (<[token := mkSession t u role verified expires now]> (ms_sessions m))
             (<[(t, u) := (role, verified)]> (ms_user_info m)))
      end
  end.

Definition ms_validate (now : Z) (token : chars) (m : InMemorySessionStore)
    : result (option SessionInfo) SessError :=
  match ms_sessions m !! token with
  | None => Ok None
  | Some s =>
      if s_expires_at s <=? now then Ok None
      else
        let '(role, verified) := default (s_role s, s_verified s) (ms_user_info m !! (s_tenant s, s_user s)) in
        Ok (Some (mkSessionInfo (s_tenant s) (s_user s) role verified))
  end.

Definition ms_extend (now : Z) (token : chars) (ttl : Z) (m : InMemorySessionStore)
    : result unit SessError * InMemorySessionStore :=
  match ms_sessions m !! token with
  | None => (Ok tt, m)
  | Some s =>
      match expiry now ttl with
      | Err e => (Err e, m)
      | Ok new_expiry =>
          if s_expires_at s <? new_expiry
          then (Ok tt, mkMem (<[token := mkSession (s_tenant s) (s_user s) (s_role s) (s_verified s) new_expiry
                                           (s_created_at s)]> (ms_sessions m)) (ms_user_info m))
          else (Ok tt, m)
      end
  end.

Definition ms_retain (P : Session -> bool) (m : InMemorySessionStore) : InMemorySessionStore :=
  mkMem (filter (λ ts, P ts.2 = true) (ms_sessions m)) (ms_user_info m).

#[global] Instance in_memory_session_store : SessionStore InMemorySessionStore := {|
  ss_create := ms_create;
  ss_validate := ms_validate;
  ss_extend := ms_extend;
  ss_revoke := λ token m, mkMem (delete token (ms_sessions m)) (ms_user_info m);
  ss_revoke_all_for_tenant := λ t, ms_retain (λ s, negb (s_tenant s =? t));
  ss_revoke_user_sessions := λ t u, ms_retain (λ s, negb ((s_tenant s =? t) && (s_user s =? u)));
|}.

(** *** In Postgres *)

(** The [sessions] table beside the tables of [Auth]; a session's own copy of
    the role and the flag is written and never read. *)
Record PgSessionStore := mkPgSess {
  ps_rows : gmap chars (Session * string);
  ps_accounts : Accounts;
}.

(** The largest timestamp of Postgres lies beyond chrono's. *)
Definition PG_MAX_MICROS : Z := 9224318015999999999.
Definition pg_expiry (now ttl : Z) : result Z SessError :=
  if PG_MAX_MICROS <? now + ttl * 1000000 then Err TimeOverflow else Ok (now + ttl * 1000000).

Definition ps_create (rnd : option (list byte)) (now t u : Z) (role : UserRole) (verified : bool) (ttl : Z)
    (p : PgSessionStore) : result chars SessError * PgSessionStore :=
  match generate_session_token rnd with
  | Err e => (Err e, p)
  | Ok token =>
      match pg_expiry now ttl with
      | Err e => (Err e, p)
      | Ok expires =>
          if bool_decide (is_Some (ps_rows p !! token)) then (Err SessDuplicate, p)
          else if bool_decide (is_Some (ac_tenants (ps_accounts p) !! t) ∧ is_Some (ac_users (ps_accounts p) !! u))
          then (Ok token, mkPgSess (<[token := (mkSession t u role verified expires now, as_str role)]> (ps_rows p))
                  (ps_accounts p))
          else (Err SessFk, p)
      end
  end.

(** The join with [users] on tenant and user. *)
Definition ps_validate (now : Z) (token : chars) (p : PgSessionStore) : result (option SessionInfo) SessError :=
  match ps_rows p !! token with
  | None => Ok None
  | Some (s, _) =>
      if negb (now <? s_expires_at s) then Ok None
      else match ac_users (ps_accounts p) !! s_user s with
           | None => Ok None
           | Some row =>
               if negb (u_tenant row =? s_tenant s) then Ok None
               else match from_str (u_role row) with
                    | Ok role => Ok (Some (mkSessionInfo (s_tenant s) (s_user s) role (u_email_verified row)))
                    | Err e => Err (SessRole e)
                    end
           end
  end.

Definition ps_extend (now : Z) (token : chars) (ttl : Z) (p : PgSessionStore)
    : result unit SessError * PgSessionStore :=
  match ps_rows p !! token with
  | None => (Ok tt, p)
  | Some (s, str_role) =>
      match pg_expiry now ttl with
      | Err e => (Err e, p)
      | Ok new_expiry =>
          (Ok tt, mkPgSess (<[token := (mkSession (s_tenant s) (s_user s) (s_role s) (s_verified s)
                                          (Z.max (s_expires_at s) new_expiry) (s_created_at s), str_role)]> (ps_rows p))
                    (ps_accounts p))
      end
  end.

Definition ps_delete (P : Session -> bool) (p : PgSessionStore) : PgSessionStore :=
  mkPgSess (filter (λ ts, P ts.2.1 = false) (ps_rows p)) (ps_accounts p).

#[global] Instance pg_session_store : SessionStore PgSessionStore := {|
  ss_create := ps_create;
  ss_validate := ps_validate;
  ss_extend := ps_extend;
  ss_revoke := λ token p, mkPgSess (delete token (ps_rows p)) (ps_accounts p);
  ss_revoke_all_for_tenant := λ t, ps_delete (λ s, s_tenant s =? t);
  ss_revoke_user_sessions := λ t u, ps_delete (λ s, (s_tenant s =? t) && (s_user s =? u));
|}.

(** ** API tokens *)

Record ApiTokenMeta := mkMeta {
  tm_id : Z;
  tm_name : chars;
  tm_last_used_at : option Z;
  tm_expires_at : Z;
  tm_created_at : Z;
}.
Record CreateTokenResult := mkCreated {
  ct_id : Z;
  ct_raw_token : chars;
  ct_name : chars;
  ct_expires_at : Z;
}.
Record InMemoryToken := mkToken {
  tk_id : Z;
  tk_tenant : Z;
  tk_user : Z;
  tk_role : UserRole;
  tk_verified : bool;
  tk_name : chars;
  tk_last_used_at : option Z;
  tk_expires_at : Z;
  tk_created_at : Z;
  tk_revoked : bool;
}.

(** [Duration::MAX], in seconds. *)
Definition DURATION_MAX_SECS : Z := 2 ^ 64 - 1.
Definition effective_ttl (ttl : Z) : Z :=
  if (ttl =? 0) || (ttl =? DURATION_MAX_SECS) then DEFAULT_API_TOKEN_TTL_SECS else ttl.

Section tokens.
Context (sha256_hex : chars -> chars).

Definition hash_api_token (token : chars) : chars := sha256_hex token.

Record InMemoryApiTokenStore := mkTokens {
  ts_tokens : gmap chars InMemoryToken;
  ts_by_id : gmap Z chars;
  ts_next_id : Z;
}.

Definition create_token (rnd : option (list byte)) (now t u : Z) (role : UserRole) (verified : bool)
    (name : chars) (ttl : Z) (s : InMemoryApiTokenStore)
    : result CreateTokenResult SessError * InMemoryApiTokenStore :=
  match generate_api_token rnd with
  | Err e => (Err e, s)
  | Ok raw =>
      let id := ts_next_id s in
      match expiry now (effective_ttl ttl) with
      | Err e => (Err e, mkTokens (ts_tokens s) (ts_by_id s) (id + 1))
      | Ok expires =>
          (Ok (mkCreated id raw name expires),
           mkTokens (<[hash_api_token raw := mkToken id t u role verified name None expires now false]> (ts_tokens s))
             (<[id := raw]> (ts_by_id s)) (id + 1))
      end
  end.

Definition meta_of (k : InMemoryToken) : ApiTokenMeta :=
  mkMeta (tk_id k) (tk_name k) (tk_last_used_at k) (tk_expires_at k) (tk_created_at k).
Definition listed (now t : Z) (k : InMemoryToken) : bool :=
  (tk_tenant k =? t) && negb (tk_revoked k) && (now <? tk_expires_at k).
Definition list_tokens (now t : Z) (s : InMemoryApiTokenStore) : list ApiTokenMeta :=
  sort_by_key tm_id (meta_of <$> filter (λ k, listed now t k = true) (map_to_list (ts_tokens s)).*2).

Definition revoked_copy (k : InMemoryToken) : InMemoryToken :=
  mkToken (tk_id k) (tk_tenant k) (tk_user k) (tk_role k) (tk_verified k) (tk_name k) (tk_last_used_at k)
    (tk_expires_at k) (tk_created_at k) true.
Definition revoke_token (t id : Z) (s : InMemoryApiTokenStore) : InMemoryApiTokenStore :=
  match ts_by_id s !! id with
  | None => s
  | Some raw =>
      match ts_tokens s !! hash_api_token raw with
      | Some k =>
          if tk_tenant k =? t
          then mkTokens (<[hash_api_token raw := revoked_copy k]> (ts_tokens s)) (ts_by_id s) (ts_next_id s)
          else s
      | None => s
      end
  end.

Definition validate_token (now : Z) (token : chars) (s : InMemoryApiTokenStore) : option SessionInfo :=
  match ts_tokens s !! hash_api_token token with
  | Some k =>
      if negb (tk_revoked k) && (now <? tk_expires_at k)
      then Some (mkSessionInfo (tk_tenant k) (tk_user k) (tk_role k) (tk_verified k))
      else None
  | None => None
  end.

(** *** In Postgres *)

Record PgToken := mkPgToken {
  pt_tenant : Z;
  pt_user : Z;
  pt_name : chars;
  pt_hash : chars;
  pt_last_used_at : option Z;
  pt_expires_at : Z;
  pt_created_at : Z;
  pt_revoked : bool;
}.
Record PgTokens := mkPgTokens {
  pg_tokens : gmap Z PgToken;
  pg_next_id : Z;
}.

(** [api_tokens.id] is a SERIAL, an INT4; whether the driver decodes it as the
    [i64] the code asks for is [int4_as_i64]. *)
Context (int4_as_i64 : bool).

Definition pg_create_token (rnd : option (list byte)) (now t u : Z) (name : chars) (ttl : Z) (p : PgTokens)
    : result CreateTokenResult SessError * PgTokens :=
  match generate_api_token rnd with
  | Err e => (Err e, p)
  | Ok raw =>
      match expiry now (effective_ttl ttl) with
      | Err e => (Err e, p)
      | Ok expires =>
          let id := pg_next_id p in
          let p' := mkPgTokens (<[id := mkPgToken t u name (hash_api_token raw) None expires now false]> (pg_tokens p))
                      (id + 1) in
          if int4_as_i64 then (Ok (mkCreated id raw name expires), p') else (Err MissingId, p')
      end
  end.

Definition pg_list_tokens (now t : Z) (p : PgTokens) : list ApiTokenMeta :=
  (λ kr : Z * PgToken, mkMeta (if int4_as_i64 then kr.1 else 0) (pt_name kr.2) (pt_last_used_at kr.2)
     (pt_expires_at kr.2) (pt_created_at kr.2))
  <$> sort_by_key fst (rows_where (λ _ r, (pt_tenant r =? t) && negb (pt_revoked r) && (now <? pt_expires_at r))
        (pg_tokens p)).

Definition pg_revoke_token (t id : Z) (p : PgTokens) : PgTokens :=
  mkPgTokens (update_where (λ k r, (k =? id) && (pt_tenant r =? t))
    (λ r, mkPgToken (pt_tenant r) (pt_user r) (pt_name r) (pt_hash r) (pt_last_used_at r) (pt_expires_at r)
            (pt_created_at r) true) (pg_tokens p)) (pg_next_id p).

(** The first joined row, then [last_used_at] of every row with the hash. *)
Definition pg_validate_token (users : gmap Z UserRow) (now : Z) (token : chars) (p : PgTokens)
    : result (option SessionInfo) SessError * PgTokens :=
  let hash := hash_api_token token in
  let joined := λ (_ : Z) r, bool_decide (pt_hash r = hash) && negb (pt_revoked r) && (now <? pt_expires_at r)
    && match users !! pt_user r with Some u => u_tenant u =? pt_tenant r | None => false end in
  match rows_where joined (pg_tokens p) with
  | [] => (Ok None, p)
  | (_, r) :: _ =>
      match users !! pt_user r with
      | None => (Ok None, p)
      | Some u =>
          match from_str (u_role u) with
          | Err e => (Err (SessRole e), p)
          | Ok role =>
              (Ok (Some (mkSessionInfo (pt_tenant r) (pt_user r) role (u_email_verified u))),
               mkPgTokens (update_where (λ _ r, bool_decide (pt_hash r = hash))
                 (λ r, mkPgToken (pt_tenant r) (pt_user r) (pt_name r) (pt_hash r) (Some now) (pt_expires_at r)
                         (pt_created_at r) (pt_revoked r)) (pg_tokens p)) (pg_next_id p))
          end
      end
  end.
End tokens.

(** ** Histories of sessions *)

Inductive sess_event :=
| SCreate (rnd : option (list byte)) (now t u : Z) (role : UserRole) (verified : bool) (ttl : Z)
| SExtend (now : Z) (token : chars) (ttl : Z)
| SRevoke (token : chars)
| SRevokeTenant (t : Z)
| SRevokeUser (t u : Z)
| SUser (t u : Z) (role : UserRole) (verified : bool).

(** The calls of the interface; a change of the user's row is [touch]. *)
Definition sess_step {S} `{SessionStore S} (touch : Z -> Z -> UserRole -> bool -> S -> S) (ev : sess_event) (s : S) : S :=
  match ev with
  | SCreate rnd now t u role verified ttl => (ss_create rnd now t u role verified ttl s).2
  | SExtend now token ttl => (ss_extend now token ttl s).2
  | SRevoke token => ss_revoke token s
  | SRevokeTenant t => ss_revoke_all_for_tenant t s
  | SRevokeUser t u => ss_revoke_user_sessions t u s
  | SUser t u role verified => touch t u role verified s
  end.

(** The administrator changes the row; the in-memory store is told. *)
Definition set_user (t u : Z) (role : UserRole) (verified : bool) (p : PgSessionStore) : PgSessionStore :=
  mkPgSess (ps_rows p) (with_users (update_where (λ k row, (k =? u) && (u_tenant row =? t))
    (λ row, mkUserRow (u_tenant row) (u_email row) (u_password_hash row) (as_str role) verified
       (u_email_verify_token row) (u_reset_token row) (u_reset_expires row) (u_created_at row))) (ps_accounts p)).

Definition mem_run (evs : list sess_event) (m : InMemorySessionStore) : InMemorySessionStore :=
  foldl (λ m ev, sess_step update_user_info ev m) m evs.
Definition pg_run (evs : list sess_event) (p : PgSessionStore) : PgSessionStore :=
  foldl (λ p ev, sess_step set_user ev p) p evs.

(** What callers see to: lifetimes in range, a fresh token, and the role and
    flag of the user's row at creation. *)
Definition sess_event_ok (p : PgSessionStore) (ev : sess_event) : Prop :=
  match ev with
  | SCreate None _ _ _ _ _ _ => True
  | SCreate (Some b) now t u role verified ttl =>
      is_ok (expiry now ttl) = true ∧ ps_rows p !! hex_encode b = None ∧ is_Some (ac_tenants (ps_accounts p) !! t) ∧
      ∃ row, ac_users (ps_accounts p) !! u = Some row ∧ u_tenant row = t ∧ u_role row = as_str role ∧
        u_email_verified row = verified
  | SExtend now _ ttl => is_ok (expiry now ttl) = true
  | SUser t u _ _ => ∃ row, ac_users (ps_accounts p) !! u = Some row ∧ u_tenant row = t
  | _ => True
  end.
Fixpoint sess_history_ok (p : PgSessionStore) (evs : list sess_event) : Prop :=
  match evs with
  | [] => True
  | ev :: evs' => sess_event_ok p ev ∧ sess_history_ok (sess_step set_user ev p) evs'
  end.

(** *** The two stores agree *)

Definition user_known (m : InMemorySessionStore) (p : PgSessionStore) (t u : Z) : Prop :=
  ∃ row role, ac_users (ps_accounts p) !! u = Some row ∧ u_tenant row = t ∧ u_role row = as_str role ∧
    ms_user_info m !! (t, u) = Some (role, u_email_verified row).

Record same_sessions (m : InMemorySessionStore) (p : PgSessionStore) : Prop := {
  sm_rows token : fst <$> ps_rows p !! token = ms_sessions m !! token;
  sm_users token s : ms_sessions m !! token = Some s -> user_known m p (s_tenant s) (s_user s);
}.

Lemma same_validate m p now token : same_sessions m p -> ms_validate now token m = ps_validate now token p.
Proof.
  intros [Hr Hu]. unfold ms_validate, ps_validate. specialize (Hr token). specialize (Hu token).
  destruct (ps_rows p !! token) as [[s r]|]; simpl in Hr; rewrite <-Hr; [|done].
  destruct (Hu s ltac:(by rewrite <-Hr)) as (row & role & Hrow & Ht & Hrole & Hinfo).
  rewrite Z.leb_antisym, Hinfo, Hrow, Ht, Z.eqb_refl, Hrole, from_str_as_str. done.
Qed.

Lemma same_filter m p P :
  same_sessions m p ->
  same_sessions (ms_retain (λ s, negb (P s)) m) (ps_delete P p).
Proof.
  intros [Hr Hu]. split; simpl.
  - intros token. rewrite !map_lookup_filter. specialize (Hr token).
    destruct (ps_rows p !! token) as [[s r]|]; simpl in *; rewrite <-Hr; [|done]. simpl.
    destruct (P s); repeat case_guard; done.
  - intros token s [Hs _]%map_lookup_filter_Some. by eapply Hu.
Qed.

Lemma expiry_pg now ttl : is_ok (expiry now ttl) = true ->
  expiry now ttl = Ok (now + ttl * 1000000) ∧ pg_expiry now ttl = Ok (now + ttl * 1000000).
Proof.
  unfold expiry, pg_expiry, MAX_UTC_MICROS, PG_MAX_MICROS. destruct (_ <? ttl * 1000); [done|].
  destruct (_ <? now + _) eqn:E; [done|]. intros _. split; [done|].
  destruct (9224318015999999999 <? now + ttl * 1000000) eqn:E2; [lia|done].
Qed.

Lemma same_create m p b now t u role verified ttl :
  sess_event_ok p (SCreate (Some b) now t u role verified ttl) -> same_sessions m p ->
  (ms_create (Some b) now t u role verified ttl m).1 = (ps_create (Some b) now t u role verified ttl p).1 ∧
  same_sessions (ms_create (Some b) now t u role verified ttl m).2 (ps_create (Some b) now t u role verified ttl p).2.
Proof.
  intros (Httl & Hfresh & Hten & row & Hrow & Ht & Hrole & Hv) [Hr Hu].
  apply expiry_pg in Httl as [E1 E2]. unfold ms_create, ps_create. simpl. rewrite E1, E2.
  rewrite bool_decide_false by (rewrite Hfresh; by intros []).
  rewrite bool_decide_true by (split; [done|by rewrite Hrow]). split; [done|]. split; simpl.
  - intros token. destruct (decide (hex_encode b = token)) as [<-|Hne]; [by rewrite !lookup_insert_eq|].
    by rewrite !lookup_insert_ne by done.
  - intros token s. rewrite lookup_insert_Some. intros Hs. unfold user_known. simpl.
    assert (Hnew : ∃ row0 role0, ac_users (ps_accounts p) !! u = Some row0 ∧ u_tenant row0 = t ∧
      u_role row0 = as_str role0 ∧ Some (role, verified) = Some (role0, u_email_verified row0))
      by (exists row, role; by rewrite Hv).
    destruct Hs as [[_ <-]|[_ Hs]]; simpl; [by rewrite lookup_insert_eq|].
    destruct (decide ((t, u) = (s_tenant s, s_user s))) as [E|E].
    + injection E as <- <-. by rewrite lookup_insert_eq.
    + rewrite lookup_insert_ne by done. by eapply Hu.
Qed.

Lemma same_extend m p now token ttl :
  is_ok (expiry now ttl) = true -> same_sessions m p ->
  same_sessions (ms_extend now token ttl m).2 (ps_extend now token ttl p).2.
Proof.
  intros [E1 E2]%expiry_pg Hs. unfold ms_extend, ps_extend. pose proof (sm_rows _ _ Hs token) as Hr.
  destruct (ps_rows p !! token) as [[s r]|]; simpl in Hr; rewrite <-Hr; [|done]. rewrite E1, E2.
  set (s' := mkSession (s_tenant s) (s_user s) (s_role s) (s_verified s)
    (Z.max (s_expires_at s) (now + ttl * 1000000)) (s_created_at s)).
  assert (Hm : same_sessions (mkMem (<[token := s']> (ms_sessions m)) (ms_user_info m))
    (mkPgSess (<[token := (s', r)]> (ps_rows p)) (ps_accounts p))).
  { split; simpl.
    - intros token'. destruct (decide (token = token')) as [<-|]; [by rewrite !lookup_insert_eq|].
      rewrite !lookup_insert_ne by done. apply Hs.
    - intros token' s0 [[_ <-]|[_ H0]]%lookup_insert_Some; [|by eapply (sm_users _ _ Hs)].
      apply (sm_users _ _ Hs token s). by rewrite <-Hr. }
  destruct (Z.ltb_spec (s_expires_at s) (now + ttl * 1000000)); simpl.
  - subst s'. by rewrite Z.max_r in Hm |- * by lia.
  - assert (s' = s) as E by (subst s'; destruct s; simpl in *; f_equal; lia).
    rewrite E in *. clear E s'. destruct m as [ss ui]. simpl in *.
    by rewrite (insert_id ss token s) in Hm.
Qed.

Lemma same_set_user m p t u role verified :
  (∃ row, ac_users (ps_accounts p) !! u = Some row ∧ u_tenant row = t) -> same_sessions m p ->
  same_sessions (update_user_info t u role verified m) (set_user t u role verified p).
Proof.
  intros (row & Hrow & Ht) [Hr Hu]. split; simpl; [done|]. intros token s Hs.
  destruct (Hu token s Hs) as (row' & role' & Hrow' & Ht' & Hrole & Hinfo). unfold user_known. simpl.
  rewrite lookup_update_where, Hrow'. simpl. destruct (decide ((t, u) = (s_tenant s, s_user s))) as [E|E].
  - injection E as Et Eu. rewrite Eu, Et, Z.eqb_refl, Ht', Z.eqb_refl, lookup_insert_eq. simpl.
    by eexists _, role.
  - rewrite lookup_insert_ne by done. exists row', role'. split; [|done].
    destruct ((s_user s =? u) && (u_tenant row' =? t)) eqn:Ep; [|done]. bool_to_prop. congruence.
Qed.

Lemma same_step m p ev :
  sess_event_ok p ev -> same_sessions m p -> same_sessions (sess_step update_user_info ev m) (sess_step set_user ev p).
Proof.
  intros Hok Hs. destruct ev as [[b|] now t u role verified ttl|now token ttl|token|t|t u|t u role verified]; simpl.
  - by apply same_create.
  - done.
  - by apply same_extend.
  - split; simpl.
    + intros token'. destruct (decide (token = token')) as [<-|]; [by rewrite !lookup_delete_eq|].
      rewrite !lookup_delete_ne by done. apply Hs.
    + intros token' s [_ H0]%lookup_delete_Some. by eapply (sm_users _ _ Hs).
  - by apply (same_filter m p (λ s, s_tenant s =? t)).
  - by apply (same_filter m p (λ s, (s_tenant s =? t) && (s_user s =? u))).
  - by apply same_set_user.
Qed.

Definition no_sessions : InMemorySessionStore := mkMem ∅ ∅.

Lemma same_run evs : ∀ m p, sess_history_ok p evs -> same_sessions m p -> same_sessions (mem_run evs m) (pg_run evs p).
Proof.
  induction evs as [|ev evs IH]; intros m p Hok Hs; [done|]. destruct Hok as [He Hok].
  apply IH; [done|]. by apply same_step.
Qed.

(** What a call of a history answers; revocations answer nothing. *)
Definition sess_reply {S} `{SessionStore S} (ev : sess_event) (s : S) : result (option chars) SessError :=
  match ev with
  | SCreate rnd now t u role verified ttl =>
      match (ss_create rnd now t u role verified ttl s).1 with Ok token => Ok (Some token) | Err e => Err e end
  | SExtend now token ttl => match (ss_extend now token ttl s).1 with Ok _ => Ok None | Err e => Err e end
  | _ => Ok None
  end.
Fixpoint sess_replies {S} `{SessionStore S} (touch : Z -> Z -> UserRole -> bool -> S -> S) (evs : list sess_event) (s : S)
    : list (result (option chars) SessError) :=
  match evs with
  | [] => []
  | ev :: evs' => sess_reply ev s :: sess_replies touch evs' (sess_step touch ev s)
  end.

Lemma same_reply m p ev : sess_event_ok p ev -> same_sessions m p -> sess_reply ev m = sess_reply ev p.
Proof.
  intros Hok Hs. destruct ev as [[b|] now t u role verified ttl|now token ttl|token|t|t u|t u role verified]; try done.
  - simpl. by rewrite (proj1 (same_create m p b now t u role verified ttl Hok Hs)).
  - apply expiry_pg in Hok as [E1 E2]. pose proof (sm_rows _ _ Hs token) as Hr. simpl. unfold ms_extend, ps_extend.
    rewrite <- Hr. destruct (ps_rows p !! token) as [[s r]|]; simpl; [|done]. rewrite E1, E2. by destruct (_ <? _).
Qed.

Lemma same_replies evs : ∀ m p, sess_history_ok p evs -> same_sessions m p ->
  sess_replies update_user_info evs m = sess_replies set_user evs p.
Proof.
  induction evs as [|ev evs IH]; intros m p Hok Hs; [done|]. destruct Hok as [He Hok]. cbn [sess_replies].
  rewrite (same_reply m p ev He Hs). f_equal. apply IH; [done|]. by apply same_step.
Qed.

Lemma same_empty a : same_sessions no_sessions (mkPgSess ∅ a).
Proof. split; simpl; [intros tok; by rewrite !lookup_empty|intros tok s; by rewrite lookup_empty]. Qed.

(** C29. Where callers keep to the protocol the in-memory and the Postgres
    session store cannot be told apart: over any history of creations,
    extensions, revocations and changes of users' roles and flags in which
    tokens are fresh, lifetimes are in the range of both clocks, sessions are
    created for users of the database with the role and flag of their row, and
    the in-memory store is told of every change of these, both answer every
    call of the history alike, and afterwards give the same answer to every
    token at every time.  Outside of it they differ: the in-memory store knows
    of no users. *)
Theorem session_stores_equivalent (evs : list sess_event) (a : Accounts) (now : Z) (token : chars) :
  sess_history_ok (mkPgSess ∅ a) evs ->
  sess_replies update_user_info evs no_sessions = sess_replies set_user evs (mkPgSess ∅ a) ∧
  ss_validate now token (mem_run evs no_sessions) = ss_validate now token (pg_run evs (mkPgSess ∅ a)).
Proof.
  intros Hok. pose proof (same_empty a) as H0. split; [by apply same_replies|]. by apply same_validate, same_run.
Qed.

(** *** When a token is accepted *)

Definition revokes (token : chars) (t u : Z) (ev : sess_event) : bool :=
  match ev with
  | SRevoke tok => bool_decide (tok = token)
  | SRevokeTenant t' => t' =? t
  | SRevokeUser t' u' => (t' =? t) && (u' =? u)
  | _ => false
  end.

(** [e] is an expiry the events grant to the token: by its creation or by an
    extension since. *)
Definition grants (token : chars) (created : Z) (since : list sess_event) (e : Z) : Prop :=
  e = created ∨ ∃ now ttl, SExtend now token ttl ∈ since ∧ e = now + ttl * 1000000.

Definition issued (token : chars) (t u : Z) (e : Z) (evs : list sess_event) : Prop :=
  ∃ before since b now role verified ttl,
    evs = before ++ SCreate (Some b) now t u role verified ttl :: since ∧ hex_encode b = token ∧
    Forall (λ ev, revokes token t u ev = false) since ∧ grants token (now + ttl * 1000000) since e.

Lemma expiry_Ok now ttl e : expiry now ttl = Ok e -> e = now + ttl * 1000000.
Proof. unfold expiry. intros. by case_all. Qed.

Lemma issued_snoc token t u e evs ev :
  revokes token t u ev = false -> issued token t u e evs -> issued token t u e (evs ++ [ev]).
Proof.
  intros Hr (before & since & b & now & role & verified & ttl & -> & Hb & Hf & Hg).
  exists before, (since ++ [ev]), b, now, role, verified, ttl. split_and!; [by rewrite <-app_assoc|done| |].
  - apply Forall_app. split; [done|]. by constructor.
  - destruct Hg as [->|(n & l & Hin & ->)]; [by left|]. right. exists n, l. split; [set_solver|done].
Qed.

Lemma issued_extend token t u e evs now ttl :
  issued token t u e evs -> issued token t u (now + ttl * 1000000) (evs ++ [SExtend now token ttl]).
Proof.
  intros (before & since & b & n & role & verified & l & -> & Hb & Hf & Hg).
  exists before, (since ++ [SExtend now token ttl]), b, n, role, verified, l.
  split_and!; [by rewrite <-app_assoc|done| |].
  - apply Forall_app. split; [done|]. by constructor.
  - right. exists now, ttl. split; [set_solver|done].
Qed.

Lemma mem_sessions_issued evs token s :
  ms_sessions (mem_run evs no_sessions) !! token = Some s ->
  issued token (s_tenant s) (s_user s) (s_expires_at s) evs.
Proof.
  revert s. induction evs as [|ev evs IH] using rev_ind; intros s; [done|].
  unfold mem_run in *. rewrite foldl_app. cbn [foldl]. set (m := foldl _ _ evs) in *. clearbody m.
  destruct ev as [rnd now t u role verified ttl|now tok ttl|tok|t|t u|t u role verified]; simpl.
  - unfold ms_create. destruct rnd as [b|]; simpl; [|intros Hs; apply issued_snoc; [done|auto]].
    destruct (expiry now ttl) as [e|] eqn:He; simpl; [|intros Hs; apply issued_snoc; [done|auto]].
    apply expiry_Ok in He as ->. intros [[<- <-]|[_ Hs]]%lookup_insert_Some; simpl.
    + exists evs, [], b, now, role, verified, ttl. split_and!; [done|done|constructor|by left].
    + apply issued_snoc; [done|auto].
  - unfold ms_extend. destruct (ms_sessions m !! tok) as [s0|] eqn:E0; simpl; [|intros Hs; apply issued_snoc; [done|auto]].
    destruct (expiry now ttl) as [e|] eqn:He; simpl; [|intros Hs; apply issued_snoc; [done|auto]].
    apply expiry_Ok in He as ->. case_match; simpl; [|intros Hs; apply issued_snoc; [done|auto]].
    intros [[<- <-]|[_ Hs]]%lookup_insert_Some; simpl; [|apply issued_snoc; [done|auto]].
    eapply issued_extend, (IH s0 E0).
  - intros [Hne Hs]%lookup_delete_Some. apply issued_snoc; [by apply bool_decide_eq_false|auto].
  - intros [Hs Hp]%map_lookup_filter_Some. simpl in Hp. apply negb_true_iff in Hp.
    apply issued_snoc; [|auto]. simpl. lia.
  - intros [Hs Hp]%map_lookup_filter_Some. simpl in Hp. apply negb_true_iff in Hp.
    apply issued_snoc; [|auto]. simpl. lia.
  - intros Hs. apply issued_snoc; [done|auto].
Qed.

Lemma pg_sessions_issued a evs token s r :
  ps_rows (pg_run evs (mkPgSess ∅ a)) !! token = Some (s, r) ->
  issued token (s_tenant s) (s_user s) (s_expires_at s) evs.
Proof.
  revert s r. induction evs as [|ev evs IH] using rev_ind; intros s r; [done|].
  unfold pg_run in *. rewrite foldl_app. cbn [foldl]. set (p := foldl _ _ evs) in *. clearbody p.
  assert (Hold : ∀ ev, revokes token (s_tenant s) (s_user s) ev = false -> ps_rows p !! token = Some (s, r) ->
    issued token (s_tenant s) (s_user s) (s_expires_at s) (evs ++ [ev])) by (intros; apply issued_snoc; [done|by eapply IH]).
  assert (Hexp : ∀ now ttl e, pg_expiry now ttl = Ok e -> e = now + ttl * 1000000).
  { unfold pg_expiry. intros. by case_all. }
  destruct ev as [rnd now t u role verified ttl|now tok ttl|tok|t|t u|t u role verified]; simpl.
  - unfold ps_create. destruct rnd as [b|]; simpl; [|by apply Hold].
    destruct (pg_expiry now ttl) as [e|] eqn:He; simpl; [|by apply Hold]. apply Hexp in He as ->.
    case_match; [by apply Hold|]. case_match; [|by apply Hold].
    simpl. intros [[<- [= <- <-]]|[_ Hs]]%lookup_insert_Some; simpl; [|by apply Hold].
    exists evs, [], b, now, role, verified, ttl. split_and!; [done|done|constructor|by left].
  - unfold ps_extend. destruct (ps_rows p !! tok) as [[s0 r0]|] eqn:E0; simpl; [|by apply Hold].
    destruct (pg_expiry now ttl) as [e|] eqn:He; simpl; [|by apply Hold]. apply Hexp in He as ->.
    intros [[<- [= <- <-]]|[_ Hs]]%lookup_insert_Some; simpl; [|by apply Hold].
    destruct (Z.max_spec (s_expires_at s0) (now + ttl * 1000000)) as [[_ ->]|[_ ->]].
    + eapply issued_extend, (IH s0 r0 E0).
    + apply issued_snoc; [done|]. apply (IH s0 r0 E0).
  - intros [Hne Hs]%lookup_delete_Some. apply Hold; [by apply bool_decide_eq_false|done].
  - intros [Hs Hp]%map_lookup_filter_Some. simpl in Hp. apply Hold; [simpl; lia|done].
  - intros [Hs Hp]%map_lookup_filter_Some. simpl in Hp. apply Hold; [simpl; lia|done].
  - by apply Hold.
Qed.

(** A token is rightly accepted for a user at a time: it was issued to that
    tenant and user, no event since revoked it, and the time lies before an
    expiry the events grant. *)
Definition accepted_rightly (evs : list sess_event) (now : Z) (token : chars) (info : SessionInfo) : Prop :=
  ∃ before since b created role verified ttl e,
    evs = before ++ SCreate (Some b) created (si_tenant info) (si_user info) role verified ttl :: since ∧
    hex_encode b = token ∧
    Forall (λ ev, revokes token (si_tenant info) (si_user info) ev = false) since ∧
    grants token (created + ttl * 1000000) since e ∧ now < e.

(** C33. A session token is accepted only while it should be, by the Postgres
    store of the server and by the in-memory store alike: whatever calls were
    made before, if it is accepted at some time, it was issued to that tenant
    and user, nothing has revoked it since (neither the token, nor the user's
    sessions, nor the tenant's), and the time lies before the expiry of its
    creation or of an extension since. The Postgres store also accepts it only
    for a user of that tenant in the database, with the role and flag of the
    user's row. *)
Theorem session_accepted_only_if (evs : list sess_event) (a : Accounts) (now : Z) (token : chars) (info : SessionInfo) :
  (ss_validate now token (pg_run evs (mkPgSess ∅ a)) = Ok (Some info) ->
     accepted_rightly evs now token info ∧
     ∃ row, ac_users (ps_accounts (pg_run evs (mkPgSess ∅ a))) !! si_user info = Some row ∧ u_tenant row = si_tenant info ∧
       from_str (u_role row) = Ok (si_role info) ∧ u_email_verified row = si_verified info) ∧
  (ss_validate now token (mem_run evs no_sessions) = Ok (Some info) -> accepted_rightly evs now token info).
Proof.
  split; simpl.
  - unfold ps_validate. destruct (ps_rows _ !! token) as [[s r]|] eqn:E; [|done].
    destruct (Z.ltb_spec now (s_expires_at s)) as [Hlt|]; simpl; [|done].
    destruct (ac_users _ !! s_user s) as [row|] eqn:Er; [|done].
    destruct (Z.eqb_spec (u_tenant row) (s_tenant s)) as [Et|]; simpl; [|done].
    destruct (from_str (u_role row)) as [role|] eqn:Erole; [|done]. intros [= <-]. simpl. split; [|by exists row].
    apply pg_sessions_issued in E as (before & since & b & created & role' & verified & ttl & Hev & Hb & Hr & Hg).
    by exists before, since, b, created, role', verified, ttl, (s_expires_at s).
  - unfold ms_validate. destruct (ms_sessions _ !! token) as [s|] eqn:E; [|done].
    destruct (Z.leb_spec (s_expires_at s) now) as [|Hlt]; [done|].
    destruct (default _ _) as [role' verified'] eqn:Ei. intros [= <-].
    apply mem_sessions_issued in E as (before & since & b & created & role & verified & ttl & Hev & Hb & Hr & Hg).
    by exists before, since, b, created, role, verified, ttl, (s_expires_at s).
Qed.

(** ** Histories of API tokens *)

Inductive token_event :=
| TCreate (rnd : option (list byte)) (now t u : Z) (role : UserRole) (verified : bool) (name : chars) (ttl : Z)
| TRevoke (t id : Z).

(** The specification: the tokens handed out, in order, with no hashes. *)
Notation issued_tokens := (list (chars * InMemoryToken)).

Definition spec_step (ev : token_event) (st : issued_tokens * Z) : issued_tokens * Z :=
  let '(l, next) := st in
  match ev with
  | TCreate None _ _ _ _ _ _ _ => (l, next)
  | TCreate (Some b) now t u role verified name ttl =>
      match expiry now (effective_ttl ttl) with
      | Err _ => (l, next + 1)
      | Ok e => (l ++ [(hex_encode b, mkToken next t u role verified name None e now false)], next + 1)
      end
  | TRevoke t id =>
      ((λ rk : chars * InMemoryToken, if (tk_id rk.2 =? id) && (tk_tenant rk.2 =? t) then (rk.1, revoked_copy rk.2) else rk) <$> l,
       next)
  end.
Definition spec_run (evs : list token_event) : issued_tokens * Z := foldl (λ st ev, spec_step ev st) ([], 1) evs.

Definition spec_validate (now : Z) (token : chars) (l : issued_tokens) : option SessionInfo :=
  match filter (λ rk : chars * InMemoryToken, rk.1 = token) l with
  | (_, k) :: _ =>
      if negb (tk_revoked k) && (now <? tk_expires_at k)
      then Some (mkSessionInfo (tk_tenant k) (tk_user k) (tk_role k) (tk_verified k)) else None
  | [] => None
  end.
Definition spec_list (now t : Z) (l : issued_tokens) : list ApiTokenMeta :=
  meta_of <$> filter (λ k, listed now t k = true) l.*2.

(** Random tokens do not repeat. *)
Fixpoint fresh_tokens (used : list chars) (evs : list token_event) : Prop :=
  match evs with
  | [] => True
  | TCreate (Some b) _ _ _ _ _ _ _ :: evs' => hex_encode b ∉ used ∧ fresh_tokens (hex_encode b :: used) evs'
  | _ :: evs' => fresh_tokens used evs'
  end.

Section token_refinement.
Context (sha256_hex : chars -> chars) (sha_inj : ∀ a b, sha256_hex a = sha256_hex b -> a = b).

Definition token_step (ev : token_event) (s : InMemoryApiTokenStore) : InMemoryApiTokenStore :=
  match ev with
  | TCreate rnd now t u role verified name ttl => (create_token sha256_hex rnd now t u role verified name ttl s).2
  | TRevoke t id => revoke_token sha256_hex t id s
  end.
Definition token_run (evs : list token_event) : InMemoryApiTokenStore :=
  foldl (λ s ev, token_step ev s) (mkTokens ∅ ∅ 1) evs.

Record tokens_sim (s : InMemoryApiTokenStore) (st : issued_tokens * Z) : Prop := {
  tsm_next : ts_next_id s = st.2;
  tsm_tokens h k : ts_tokens s !! h = Some k <-> ∃ raw, h = sha256_hex raw ∧ (raw, k) ∈ st.1;
  tsm_by_id id raw : ts_by_id s !! id = Some raw <-> ∃ k, (raw, k) ∈ st.1 ∧ tk_id k = id;
  tsm_raws : NoDup st.1.*1;
  tsm_ids : StronglySorted Z.lt (tk_id <$> st.1.*2);
  tsm_bound : Forall (λ k, tk_id k < st.2) st.1.*2;
}.

Lemma fst_unique {A B} (l : list (A * B)) a b b' : NoDup l.*1 -> (a, b) ∈ l -> (a, b') ∈ l -> b = b'.
Proof using Type.
  intros Hr [i Hi]%list_elem_of_lookup [j Hj]%list_elem_of_lookup.
  assert (i = j) as ->; [|congruence].
  eapply (NoDup_lookup l.*1 _ _ a); [done|by rewrite list_lookup_fmap, Hi|by rewrite list_lookup_fmap, Hj].
Qed.

Lemma sorted_snoc (l : list Z) x : StronglySorted Z.lt l -> Forall (λ y, y < x) l -> StronglySorted Z.lt (l ++ [x]).
Proof using Type.
  induction 1 as [|y l Hs IH Hy]; intros Hx; simpl; [by repeat constructor|].
  apply Forall_cons in Hx as [Hxy Hx]. constructor; [auto|]. apply Forall_app. split; [done|]. by constructor.
Qed.

Lemma sim_create s l next raw k :
  tokens_sim s (l, next) -> raw ∉ l.*1 -> tk_id k = next ->
  tokens_sim (mkTokens (<[sha256_hex raw := k]> (ts_tokens s)) (<[next := raw]> (ts_by_id s)) (next + 1))
    (l ++ [(raw, k)], next + 1).
Proof using sha_inj.
  intros [Hn Ht Hb Hr Hi Hbd] Hfresh Hid. simpl in *. split; simpl.
  - done.
  - intros h k'. rewrite lookup_insert_Some, Ht. setoid_rewrite elem_of_app. setoid_rewrite list_elem_of_singleton.
    split.
    + intros [[<- <-]|[Hne (raw' & -> & Hin)]]; eauto.
    + intros (raw' & -> & [Hin|[= -> ->]]); [right|by left]. split; [|eauto]. intros E%sha_inj. subst.
      apply Hfresh. apply list_elem_of_fmap. by exists (raw', k').
  - intros id raw'. rewrite lookup_insert_Some, Hb. setoid_rewrite elem_of_app. setoid_rewrite list_elem_of_singleton.
    split.
    + intros [[<- <-]|[Hne (k' & Hin & <-)]]; eauto.
    + intros (k' & [Hin|[= -> ->]] & <-); [right|by left]. split; [|eauto]. intros E.
      rewrite Forall_forall in Hbd. specialize (Hbd k'). apply (list_elem_of_fmap_2 snd) in Hin. specialize (Hbd Hin). lia.
  - rewrite fmap_app. apply NoDup_app. split_and!; [done|set_solver|apply NoDup_singleton].
  - rewrite !fmap_app. apply sorted_snoc; [done|]. rewrite Forall_fmap. eapply Forall_impl; [exact Hbd|].
    intros x. simpl. lia.
  - rewrite fmap_app. apply Forall_app. split; [|constructor; [simpl; lia|constructor]].
    eapply Forall_impl; [exact Hbd|]. simpl. lia.
Qed.

Lemma sim_revoke s l next t id :
  tokens_sim s (l, next) -> tokens_sim (revoke_token sha256_hex t id s) (spec_step (TRevoke t id) (l, next)).
Proof using sha_inj.
  intros Hs. destruct Hs as [Hn Ht Hb Hr Hi Hbd]. simpl in *.
  set (f := λ rk : chars * InMemoryToken, if (tk_id rk.2 =? id) && (tk_tenant rk.2 =? t) then (rk.1, revoked_copy rk.2) else rk).
  assert (Hf1 : (f <$> l).*1 = l.*1).
  { rewrite <-list_fmap_compose. apply list_fmap_ext. intros i [r k] _. unfold f. simpl. by case_match. }
  assert (Hf2 : tk_id <$> (f <$> l).*2 = tk_id <$> l.*2).
  { rewrite <-!list_fmap_compose. apply list_fmap_ext. intros i [r k] _. unfold f. simpl. by case_match. }
  assert (Hraw : ∀ raw k k', (raw, k) ∈ l -> (raw, k') ∈ l -> k = k') by (intros; by eapply (fst_unique l)).
  assert (Hids : ∀ raw raw' k k', (raw, k) ∈ l -> (raw', k') ∈ l -> tk_id k = tk_id k' -> raw = raw').
  { intros raw raw' k k' H1 H2 E. assert (ts_by_id s !! tk_id k = Some raw) by (apply Hb; eauto).
    assert (ts_by_id s !! tk_id k' = Some raw') by (apply Hb; eauto). congruence. }
  assert (Hel : ∀ raw k', (raw, k') ∈ f <$> l <-> ∃ k, (raw, k) ∈ l ∧ (raw, k') = f (raw, k)).
  { intros raw k'. rewrite list_elem_of_fmap. split.
    - intros ([r k] & E & Hin). assert (r = raw) as -> by (unfold f in E; simpl in E; case_match; congruence). eauto.
    - intros (k & Hin & E). eauto. }
  assert (Hbound : Forall (λ k, tk_id k < next) (f <$> l).*2).
  { assert (Hz : Forall (λ x, x < next) (tk_id <$> (f <$> l).*2)) by (rewrite Hf2; by apply Forall_fmap).
    by apply Forall_fmap in Hz. }
  assert (Hbyid : ∀ i raw, (∃ k, (raw, k) ∈ l ∧ tk_id k = i) <-> ∃ k, (raw, k) ∈ f <$> l ∧ tk_id k = i).
  { intros i raw. setoid_rewrite Hel. split.
    - intros (k & Hin & <-). exists (f (raw, k)).2. split; [|unfold f; simpl; by case_match].
      exists k. split; [done|]. unfold f. simpl. by case_match.
    - intros (k' & (k & Hin & E) & <-). exists k. split; [done|]. unfold f in E. simpl in E. case_match; by simplify_eq. }
  assert (Hsame : (∀ raw k, (raw, k) ∈ l -> (tk_id k =? id) && (tk_tenant k =? t) = false) -> f <$> l = l).
  { intros Hno. rewrite <-(list_fmap_id l) at 2. apply list_fmap_ext. intros i [r k] Hi'. unfold f. simpl.
    by rewrite (Hno r k) by (by eapply list_elem_of_lookup_2). }
  unfold revoke_token, hash_api_token. destruct (ts_by_id s !! id) as [raw|] eqn:Eid.
  2: { rewrite Hsame; [by split|]. intros raw k Hin. destruct (Z.eqb_spec (tk_id k) id) as [E|]; [|done].
       assert (ts_by_id s !! id = Some raw) by (apply Hb; eauto). congruence. }
  apply Hb in Eid as (k & Hin & <-). rewrite (proj2 (Ht _ k)) by eauto.
  destruct (Z.eqb_spec (tk_tenant k) t) as [<-|Hne].
  2: { rewrite Hsame; [by split|]. intros raw' k' Hin'. destruct (Z.eqb_spec (tk_id k') (tk_id k)) as [E|]; [|done].
       assert (raw' = raw) as -> by eauto. assert (k' = k) as -> by eauto. simpl. lia. }
  split; simpl; [done| | |by rewrite Hf1|by rewrite Hf2|done].
  - intros h k'. rewrite lookup_insert_Some, Ht. setoid_rewrite Hel. split.
    + intros [[<- <-]|[Hne (raw' & -> & Hin')]].
      * exists raw. split; [done|]. exists k. split; [done|]. unfold f. simpl. by rewrite !Z.eqb_refl.
      * exists raw'. split; [done|]. exists k'. split; [done|]. unfold f. simpl.
        destruct (Z.eqb_spec (tk_id k') (tk_id k)) as [E|]; [|done]. destruct Hne. f_equal. symmetry. eauto.
    + intros (raw' & -> & k0 & Hin' & E). unfold f in E. simpl in E.
      destruct (Z.eqb_spec (tk_id k0) (tk_id k)) as [Eid|Eid].
      * assert (raw' = raw) as -> by eauto. assert (k0 = k) as -> by eauto. rewrite Z.eqb_refl in E. simpl in E.
        injection E as ->. by left.
      * simpl in E. injection E as ->. right. split; [|eauto]. intros Eh%sha_inj. subst. apply Eid. f_equal. eauto.
  - intros i raw'. rewrite Hb. apply Hbyid.
Qed.

Lemma sessions_sim_run evs : ∀ s st used,
  fresh_tokens used evs -> (∀ raw, raw ∈ st.1.*1 -> raw ∈ used) -> tokens_sim s st ->
  tokens_sim (foldl (λ s ev, token_step ev s) s evs) (foldl (λ st ev, spec_step ev st) st evs).
Proof using sha_inj.
  induction evs as [|ev evs IH]; intros s [l next] used Hf Hu Hs; [done|].
  destruct ev as [[b|] now t u role verified name ttl|t id]; cbn [foldl]; simpl in Hf, Hu.
  - destruct Hf as [Hfresh Hf]. cbn [token_step]. unfold create_token, spec_step. cbn [generate_api_token].
    destruct (expiry now (effective_ttl ttl)) as [e|] eqn:E; cbn [snd].
    + apply (IH _ _ (hex_encode b :: used)); [done| |].
      * simpl. rewrite fmap_app. intros raw [Hin|Hin]%elem_of_app; [right; auto|]. set_solver.
      * rewrite (tsm_next _ _ Hs). apply sim_create; [done| |done]. intros Hin. by apply Hfresh, Hu.
    + apply (IH _ _ (hex_encode b :: used)); [done|simpl; intros; right; auto|].
      destruct Hs as [Hn Ht Hb Hr Hi Hbd]. split; simpl in *; try done; [lia|].
      eapply Forall_impl; [exact Hbd|]. simpl. lia.
  - by apply (IH _ _ used).
  - apply (IH _ _ used); [done| |by apply sim_revoke]. simpl. intros raw Hin. apply Hu.
    clear -Hin. rewrite <-list_fmap_compose in Hin. apply list_elem_of_fmap in Hin as ([r k] & -> & Hin).
    simpl. case_match; simpl; by apply (list_elem_of_fmap_2 fst _ (r, k)).
Qed.

Lemma tokens_sim_run evs : fresh_tokens [] evs -> tokens_sim (token_run evs) (spec_run evs).
Proof using sha_inj.
  intros Hf. apply (sessions_sim_run evs _ _ []); [done|set_solver|]. split; simpl; try constructor.
  - by rewrite lookup_empty.
  - intros (raw & _ & Hin). set_solver.
  - by rewrite lookup_empty.
  - intros (k & Hin & _). set_solver.
Qed.

Lemma sim_validate s st now token : tokens_sim s st -> validate_token sha256_hex now token s = spec_validate now token st.1.
Proof using sha_inj.
  intros Hs. destruct st as [l next]. unfold validate_token, spec_validate, hash_api_token. simpl.
  destruct (filter _ l) as [|[raw k] r] eqn:E.
  - destruct (ts_tokens s !! sha256_hex token) as [k|] eqn:Ek; [|done].
    apply (tsm_tokens _ _ Hs) in Ek as (raw & Eh%sha_inj & Hin). subst raw.
    assert (Hf : (token, k) ∈ filter (λ rk : chars * InMemoryToken, rk.1 = token) l) by by apply list_elem_of_filter.
    rewrite E in Hf. by apply elem_of_nil in Hf.
  - assert (Hin : (raw, k) ∈ filter (λ rk : chars * InMemoryToken, rk.1 = token) l) by (rewrite E; by left).
    apply list_elem_of_filter in Hin as [Et Hin]. simpl in Et. subst raw.
    by rewrite (proj2 (tsm_tokens _ _ Hs (sha256_hex token) k)) by eauto.
Qed.

Lemma sorted_filter (P : InMemoryToken -> bool) (l : list InMemoryToken) :
  StronglySorted Z.lt (tk_id <$> l) ->
  StronglySorted (λ x y, leb_by_key tm_id x y = true) (meta_of <$> filter (λ k, P k = true) l) ∧
  NoDup (tm_id <$> (meta_of <$> filter (λ k, P k = true) l)).
Proof using Type.
  induction l as [|k l IH]; intros Hs; [split; constructor|]. csimpl in Hs.
  apply StronglySorted_inv in Hs as [Hs Hk]. destruct (IH Hs) as [IH1 IH2]. rewrite Forall_fmap, Forall_forall in Hk.
  destruct (decide (P k = true)) as [HP|HP].
  - rewrite filter_cons_True by done. csimpl. split.
    + constructor; [done|]. apply Forall_fmap, Forall_forall. intros x [_ Hx]%list_elem_of_filter.
      specialize (Hk x Hx). unfold leb_by_key. simpl in *. lia.
    + constructor; [|done]. rewrite <-list_fmap_compose. intros (x & E & [_ Hx]%list_elem_of_filter)%list_elem_of_fmap.
      specialize (Hk x Hx). simpl in *. lia.
  - by rewrite filter_cons_False.
Qed.

Lemma sim_list s st now t : tokens_sim s st -> list_tokens now t s = spec_list now t st.1.
Proof using sha_inj.
  intros Hs. destruct st as [l next]. unfold list_tokens, spec_list. simpl.
  destruct (sorted_filter (listed now t) l.*2 (tsm_ids _ _ Hs)) as [Hsort Hnd].
  set (target := meta_of <$> filter (λ k, listed now t k = true) l.*2) in *.
  assert (Hperm : meta_of <$> filter (λ k, listed now t k = true) (map_to_list (ts_tokens s)).*2 ≡ₚ target).
  { apply fmap_Permutation, filter_Permutation. apply NoDup_Permutation.
    - apply (NoDup_fmap_1 tk_id). rewrite <-list_fmap_compose. apply NoDup_fmap_2_strong; [|apply NoDup_map_to_list].
      intros [h k] [h' k'] H1 H2 E. rewrite !elem_of_map_to_list in *. simpl in E.
      apply (tsm_tokens _ _ Hs) in H1 as (raw & -> & H1), H2 as (raw' & -> & H2).
      assert (ts_by_id s !! tk_id k = Some raw) by (apply (tsm_by_id _ _ Hs); eauto).
      assert (ts_by_id s !! tk_id k' = Some raw') by (apply (tsm_by_id _ _ Hs); eauto).
      assert (raw = raw') as -> by congruence. f_equal. by eapply (fst_unique l); [apply (tsm_raws _ _ Hs)|..].
    - apply (NoDup_fmap_1 tk_id). clear -Hs. pose proof (tsm_ids _ _ Hs) as Hi. simpl in Hi.
      induction Hi as [|x xs Hi IH Hx]; constructor; [|done]. intros Hin. rewrite Forall_forall in Hx.
      specialize (Hx x Hin). lia.
    - intros k. rewrite !list_elem_of_fmap. split.
      + intros ([h k'] & -> & Hin%elem_of_map_to_list). apply (tsm_tokens _ _ Hs) in Hin as (raw & _ & Hin).
        by exists (raw, k').
      + intros ([raw k'] & -> & Hin). exists (sha256_hex raw, k'). split; [done|].
        apply elem_of_map_to_list, (tsm_tokens _ _ Hs). eauto. }
  apply (StronglySorted_unique_strong (λ x y, leb_by_key tm_id x y = true)).
  - intros x y Hx Hy Hxy Hyx. unfold sort_by_key in Hx. rewrite sort_by_elem_of, Hperm in Hx.
    assert (tm_id x = tm_id y) as E by (unfold leb_by_key in *; lia).
    apply list_elem_of_lookup in Hx as [i Hi], Hy as [j Hj].
    assert (i = j) as ->; [|congruence].
    eapply (NoDup_lookup (tm_id <$> target) _ _ (tm_id x)); [done|by rewrite list_lookup_fmap, Hi|].
    rewrite list_lookup_fmap, Hj. simpl. by rewrite E.
  - apply sort_by_ordered; [apply leb_by_key_total|apply leb_by_key_trans].
  - done.
  - unfold sort_by_key. by rewrite sort_by_perm.
Qed.
End token_refinement.

(** The API-token store in use, a map from hashes and a map from ids to
    tokens, implements a plain list of the tokens handed out: after any
    history of creations and revocations, with random tokens that do not
    repeat, a presented string is accepted exactly when it is an issued token
    that its own tenant has not revoked and that has not expired, and gives
    the owner as of its creation; the listing of a tenant is exactly its live
    tokens in order of creation. *)
Theorem api_tokens_refine (sha256_hex : chars -> chars) (evs : list token_event) (now t : Z) (token : chars) :
  (∀ a b, sha256_hex a = sha256_hex b -> a = b) -> fresh_tokens [] evs ->
  validate_token sha256_hex now token (token_run sha256_hex evs) = spec_validate now token (spec_run evs).1 ∧
  list_tokens now t (token_run sha256_hex evs) = spec_list now t (spec_run evs).1.
Proof.
  intros Hinj Hf. pose proof (tokens_sim_run sha256_hex Hinj evs Hf) as Hs.
  split; [by apply sim_validate|by eapply (sim_list sha256_hex Hinj)].
Qed.

(** Where the driver refuses an INT4 for an [i64], the Postgres store creates
    the row and reports failure, and lists every token with id 0. *)
Lemma pg_create_token_always_fails (sha256_hex : chars -> chars) rnd now t u name ttl p :
  is_ok (pg_create_token sha256_hex false rnd now t u name ttl p).1 = false ∧
  Forall (λ m, tm_id m = 0) (pg_list_tokens false now t p).
Proof.
  split.
  - unfold pg_create_token. destruct rnd; [|done]. simpl. by destruct (expiry _ _).
  - unfold pg_list_tokens. apply Forall_fmap, Forall_true. done.
Qed.

(** ** Concrete histories *)

Definition demo_bytes : list byte := replicate 32 x0a.
Definition demo_session : list sess_event :=
  [SCreate (Some demo_bytes) 0 1 1 Member true 60; SExtend 1000000 (hex_encode demo_bytes) 120; SUser 1 1 Admin false].

Lemma demo_session_ok : sess_history_ok (mkPgSess ∅ demo_accounts) demo_session.
Proof.
  split; [|split; [|split; [|done]]].
  - split; [reflexivity|]. split; [reflexivity|]. split; [by eexists|]. exists demo_user. done.
  - reflexivity.
  - vm_compute. by eexists.
Qed.

Lemma session_stores_equivalent_witness :
  sess_history_ok (mkPgSess ∅ demo_accounts) demo_session ∧
  ss_validate 100000000 (hex_encode demo_bytes) (pg_run demo_session (mkPgSess ∅ demo_accounts))
    = Ok (Some (mkSessionInfo 1 1 Admin false)).
Proof.
  split; [exact demo_session_ok|].
  destruct (session_stores_equivalent demo_session demo_accounts 100000000 (hex_encode demo_bytes) demo_session_ok) as [_ <-].
  vm_compute. reflexivity.
Defined.

Lemma session_accepted_only_if_witness :
  ss_validate 100000000 (hex_encode demo_bytes) (pg_run demo_session (mkPgSess ∅ demo_accounts))
    = Ok (Some (mkSessionInfo 1 1 Admin false)) ∧
  ∃ before since, demo_session = before ++ since ∧ since <> [].
Proof.
  assert (E : ss_validate 100000000 (hex_encode demo_bytes) (pg_run demo_session (mkPgSess ∅ demo_accounts))
    = Ok (Some (mkSessionInfo 1 1 Admin false))) by (vm_compute; reflexivity).
  split; [exact E|].
  destruct (session_accepted_only_if demo_session demo_accounts 100000000 (hex_encode demo_bytes) (mkSessionInfo 1 1 Admin false)) as [H _].
  destruct (H E) as [(before & since & b & c & r & v & l & e & Hev & _) _].
  exists before, (SCreate (Some b) c 1 1 r v l :: since). split; [exact Hev|discriminate].
Defined.

Lemma api_tokens_refine_witness :
  fresh_tokens [] [TCreate (Some demo_bytes) 0 1 1 Member true (str "ci") 0; TRevoke 2 1] ∧
  validate_token (λ x, x) 5 (hex_encode demo_bytes)
    (token_run (λ x, x) [TCreate (Some demo_bytes) 0 1 1 Member true (str "ci") 0; TRevoke 2 1])
    = Some (mkSessionInfo 1 1 Member true).
Proof.
  assert (Hf : fresh_tokens [] [TCreate (Some demo_bytes) 0 1 1 Member true (str "ci") 0; TRevoke 2 1])
    by (split; [apply not_elem_of_nil|exact I]).
  split; [exact Hf|].
  destruct (api_tokens_refine (λ x, x) _ 5 1 (hex_encode demo_bytes) ltac:(done) Hf) as [-> _].
  vm_compute. reflexivity.
Defined.
