(* ===== verification/Billing.v ===== *)
(** * Billing: plans, subscription lifecycle and the Stripe webhook
    (store/src/plans.rs, store/src/stripe_events.rs,
    store/src/subscription_lifecycle.rs, api/src/handlers/webhook.rs)

    Every SQL statement is a step of its own, as in the source, which opens no
    transaction: the list [bd_faults] says which of the next statements fail.
    HMAC-SHA-256, the JSON parser and the order in which Postgres scans the
    [tenants] table are parameters.  Times are microseconds. *)

From stdpp Require Import base gmap list strings.
From Stdlib Require Import ZArith Lia Strings.Byte.
From S2P Require Import Prelude Text FloatModel Json Sessions.
Open Scope Z_scope.

(** ** Data *)

Record Plan := mkPlan {
  pl_id : Z;
  pl_code : chars;
  pl_stripe_price : chars;
  pl_quota_bytes : Z;
  pl_token_budget : option Z;
  pl_features : json;
  pl_price_cents : option Z;
  pl_currency : option chars;
}.

(** The billing columns of [tenants]. *)
Record TenantRow := mkTenant {
  tn_quota_bytes : option Z;
  tn_quota_tokens : option Z;
  tn_plan_id : option Z;
  tn_customer : option chars;
  tn_subscription : option chars;
  tn_status : option chars;
  tn_period_end : option Z;
}.

Record AuditEvent := mkAudit {
  au_actor : Z;
  au_tenant : Z;
  au_action : chars;
  au_target_type : chars;
  au_target_id : option Z;
  au_details : json;
}.

Record BillingDb := mkBilling {
  bd_connected : bool;
  bd_plans : list Plan;
  bd_tenants : gmap Z TenantRow;
  bd_events : gmap chars chars;
  bd_audit : list AuditEvent;
  bd_faults : list bool;
}.

Inductive BillError :=
| NotConnected
| DbFailed
| ForeignKey
| TimestampOutOfRange
| UnexpectedNull
| PlanNotFound (id : Z)
| UnknownPlanCode (code : chars)
| UnknownPrice (price : chars)
| NoTenantFor (customer : chars)
| BadEvent (event_type : chars)
| Suspended.
#[global] Instance bill_error_eq_dec : EqDecision BillError. Proof. solve_decision. Defined.

(** ** Statements *)

Definition bill (A : Type) : Type := BillingDb -> result A BillError * BillingDb.
Definition bill_ret {A} (a : A) : bill A := λ d, (Ok a, d).
Definition bill_err {A} (e : BillError) : bill A := λ d, (Err e, d).
Definition bill_bind {A B} (m : bill A) (k : A -> bill B) : bill B := λ d,
  match m d with (Ok a, d') => k a d' | (Err e, d') => (Err e, d') end.
Notation "'let!' x := m 'in' k" := (bill_bind m (λ x, k))
  (at level 10, x pattern, m at level 100, k at level 200) : kb_scope.

Definition with_faults (fs : list bool) (d : BillingDb) : BillingDb :=
  mkBilling (bd_connected d) (bd_plans d) (bd_tenants d) (bd_events d) (bd_audit d) fs.
Definition with_tenants (f : gmap Z TenantRow -> gmap Z TenantRow) (d : BillingDb) : BillingDb :=
  mkBilling (bd_connected d) (bd_plans d) (f (bd_tenants d)) (bd_events d) (bd_audit d) (bd_faults d).
Definition with_event (id typ : chars) (d : BillingDb) : BillingDb :=
  mkBilling (bd_connected d) (bd_plans d) (bd_tenants d) (<[id := typ]> (bd_events d)) (bd_audit d)
    (bd_faults d).
Definition with_audit (a : AuditEvent) (d : BillingDb) : BillingDb :=
  mkBilling (bd_connected d) (bd_plans d) (bd_tenants d) (bd_events d) (bd_audit d ++ [a]) (bd_faults d).

(** One statement on the admin pool. *)
Definition stmt {A} (m : bill A) : bill A := λ d,
  if negb (bd_connected d) then (Err NotConnected, d)
  else match bd_faults d with
       | true :: fs => (Err DbFailed, with_faults fs d)
       | _ :: fs => m (with_faults fs d)
       | [] => m d
       end.
Definition query {A} (f : BillingDb -> A) : bill A := stmt (λ d, (Ok (f d), d)).

Definition PG_MIN_MICROS : Z := -210866803200000000.
Definition pg_timestamp_ok (t : Z) : bool := (PG_MIN_MICROS <=? t) && (t <=? PG_MAX_MICROS).

Section Lookups.
Context (scan : gmap Z TenantRow -> list (Z * TenantRow)).

(** ** store/src/plans.rs *)

Definition find_plan (P : Plan -> bool) (d : BillingDb) : option Plan := List.find P (bd_plans d).
Definition get_plan (plan_id : Z) : bill (option Plan) :=
  query (find_plan (λ p, pl_id p =? plan_id)).
Definition get_plan_by_code (code : chars) : bill (option Plan) :=
  query (find_plan (λ p, bool_decide (pl_code p = code))).

(** [COALESCE($n, column)]. *)
Definition coalesce {A} (new old : option A) : option A :=
  match new with Some a => Some a | None => old end.

Definition plan_columns (plan : option Z) (customer subscription status : option chars)
    (period_end : option Z) (r : TenantRow) : TenantRow :=
  mkTenant (tn_quota_bytes r) (tn_quota_tokens r) (coalesce plan (tn_plan_id r))
    (coalesce customer (tn_customer r)) (coalesce subscription (tn_subscription r))
    (coalesce status (tn_status r)) (coalesce period_end (tn_period_end r)).

(** The foreign key of [plan_id] is checked on the updated row. *)
Definition plan_exists (d : BillingDb) (plan : option Z) : bool :=
  match plan with Some p => existsb (λ q, pl_id q =? p) (bd_plans d) | None => true end.

Definition update_tenant (t : Z) (plan : option Z) (f : TenantRow -> TenantRow) : bill unit :=
  stmt (λ d,
    if bool_decide (is_Some (bd_tenants d !! t)) && negb (plan_exists d plan)
    then (Err ForeignKey, d)
    else (Ok tt, with_tenants (alter f t) d)).

Definition update_tenant_plan (t : Z) (plan : option Z) (customer subscription status : option chars)
    (period_end : option Z) : bill unit :=
  match period_end with
  | Some pe =>
      if pg_timestamp_ok pe
      then update_tenant t plan (plan_columns plan customer subscription status period_end)
      else stmt (bill_err TimestampOutOfRange)
  | None => update_tenant t plan (plan_columns plan customer subscription status None)
  end.

(** ** store/src/stripe_events.rs *)

Definition record_stripe_event (event_id event_type : chars) : bill bool :=
  stmt (λ d,
    match bd_events d !! event_id with
    | Some _ => (Ok false, d)
    | None => (Ok true, with_event event_id event_type d)
    end).

Definition find_tenant_by_stripe_customer (customer : chars) : bill (option Z) :=
  query (λ d, fst <$> List.find (λ tr, bool_decide (tn_customer tr.2 = Some customer)) (scan (bd_tenants d))).

Definition find_plan_by_stripe_price (price : chars) : bill (option Plan) :=
  query (find_plan (λ p, bool_decide (pl_stripe_price p = price))).

(** ** store/src/subscription_lifecycle.rs *)

(** [admin_insert_audit_event] (store/src/admin_queries.rs). *)
Definition admin_insert_audit_event (actor t : Z) (action target_type : chars) (target : option Z)
    (details : json) : bill unit :=
  stmt (λ d, (Ok tt, with_audit (mkAudit actor t action target_type target details) d)).

Definition jint (z : option Z) : json := match z with Some z => JInt z | None => JNull end.
Definition jstr (s : option chars) : json := match s with Some s => JString s | None => JNull end.

Definition quota_columns (plan : Plan) (r : TenantRow) : TenantRow :=
  mkTenant (Some (pl_quota_bytes plan)) (pl_token_budget plan) (tn_plan_id r) (tn_customer r)
    (tn_subscription r) (tn_status r) (tn_period_end r).

Definition plan_details (plan : Plan) (plan_id : Z) : json :=
  jobj [("plan_id", JInt plan_id); ("plan_code", JString (pl_code plan));
        ("quota_bytes", JInt (pl_quota_bytes plan)); ("token_budget", jint (pl_token_budget plan))].

Definition required {A} (o : option A) (e : BillError) : bill A :=
  match o with Some a => bill_ret a | None => bill_err e end.

Definition apply_plan_quotas_to_tenant (t plan_id actor : Z) : bill unit :=
  let! found := get_plan plan_id in
  let! plan := required found (PlanNotFound plan_id) in
  let! _ := update_tenant t None (quota_columns plan) in
  admin_insert_audit_event actor t (str "plan_changed") (str "tenant") (Some t) (plan_details plan plan_id).

(** [query_scalar] decodes a [String]: a NULL status is an error, no row is
    [inactive], and an unreachable database lets the call through. *)
Definition check_tenant_not_suspended (t : Z) : bill unit := λ d,
  if negb (bd_connected d) then (Ok tt, d)
  else
    (let! row := query (λ d, tn_status <$> bd_tenants d !! t) in
     let! status := match row with
                    | Some (Some s) => bill_ret s
                    | Some None => bill_err UnexpectedNull
                    | None => bill_ret (str "inactive")
                    end in
     if bool_decide (status = str "suspended") then bill_err Suspended else bill_ret tt) d.

Definition status_column (status : chars) (r : TenantRow) : TenantRow :=
  mkTenant (tn_quota_bytes r) (tn_quota_tokens r) (tn_plan_id r) (tn_customer r)
    (tn_subscription r) (Some status) (tn_period_end r).

Definition override_columns (plan_id : Z) (plan : Plan) (r : TenantRow) : TenantRow :=
  mkTenant (Some (pl_quota_bytes plan)) (pl_token_budget plan) (Some plan_id) (tn_customer r)
    (tn_subscription r) (tn_status r) (tn_period_end r).

Definition override_details (before : option Z * option chars) (plan_id : option Z)
    (plan_code status : option chars) : json :=
  jobj [("before", jobj [("plan_id", jint before.1); ("billing_status", jstr before.2)]);
        ("after", jobj [("plan_id", jint plan_id); ("plan_code", jstr plan_code);
                        ("billing_status", jstr status)])].

Definition admin_override_tenant_billing (t : Z) (plan_id : option Z) (status : option chars)
    (actor : Z) : bill unit :=
  match plan_id, status with
  | None, None => bill_ret tt
  | _, _ =>
      let! row := query (λ d, (λ r, (tn_plan_id r, tn_status r)) <$> bd_tenants d !! t) in
      let before := default (None, None) row in
      let! _ := match status with
                | Some s => update_tenant t None (status_column s)
                | None => bill_ret tt
                end in
      let! plan_code := match plan_id with
                        | Some pid =>
                            let! found := get_plan pid in
                            let! plan := required found (PlanNotFound pid) in
                            let! _ := update_tenant t (Some pid) (override_columns pid plan) in
                            bill_ret (Some (pl_code plan))
                        | None => bill_ret None
                        end in
      admin_insert_audit_event actor t (str "billing_override") (str "tenant") (Some t)
        (override_details before plan_id plan_code status)
  end.

(** [current_period_end < now() - days]. *)
Definition past_due_before (cutoff : Z) (r : TenantRow) : bool :=
  bool_decide (tn_status r = Some (str "past_due"))
  && match tn_period_end r with Some pe => pe <? cutoff | None => false end.

Definition dunning_cutoff (now days : Z) : Z := now - days * 86400000000.

Definition suspension_details (days : Z) : json :=
  jobj [("previous_status", JString (str "past_due")); ("new_status", JString (str "suspended"));
        ("past_due_days", JInt days)].

Definition suspend_one (days actor t : Z) : bill unit :=
  let! _ := update_tenant t None (status_column (str "suspended")) in
  admin_insert_audit_event actor t (str "tenant_suspended") (str "tenant") (Some t)
    (suspension_details days).

Fixpoint suspend_each (days actor : Z) (ts : list Z) : bill unit :=
  match ts with
  | [] => bill_ret tt
  | t :: ts' => let! _ := suspend_one days actor t in suspend_each days actor ts'
  end.

Definition suspend_past_due_tenants (now days actor : Z) : bill (list Z) :=
  let cutoff := dunning_cutoff now days in
  let! ts := stmt (λ d, if pg_timestamp_ok cutoff
                        then (Ok (fst <$> List.filter (λ tr, past_due_before cutoff tr.2) (scan (bd_tenants d))), d)
                        else (Err TimestampOutOfRange, d)) in
  let! _ := suspend_each days actor ts in
  bill_ret ts.

End Lookups.

(** ** api/src/handlers/webhook.rs *)

(** [hex::decode]. *)
Definition hex_value (c : Z) : option Z :=
  if is_ascii_digit c then Some (c - 48)
  else if (97 <=? c) && (c <=? 102) then Some (c - 87)
  else if (65 <=? c) && (c <=? 70) then Some (c - 55)
  else None.
Fixpoint hex_decode (s : chars) : option (list byte) :=
  match s with
  | [] => Some []
  | a :: b :: s' =>
      hi ← hex_value a; lo ← hex_value b; rest ← hex_decode s'; Some (byte_of (16 * hi + lo) :: rest)
  | [_] => None
  end.

(** [str::parse::<i64>]. *)
Definition digits_value (s : chars) : option Z :=
  match s with
  | [] => None
  | _ => if forallb is_ascii_digit s then Some (foldl (λ acc c, 10 * acc + (c - 48)) 0 s) else None
  end.
Definition parse_i64 (s : chars) : option Z :=
  v ← match s with
      | 45 :: s' => Z.opp <$> digits_value s'
      | 43 :: s' => digits_value s'
      | _ => digits_value s
      end;
  if decide (in_ty i64 v) then Some v else None.

(** [Value::get], [as_str], [as_i64], [as_array]. *)
Definition jget (j : json) (k : string) : option json :=
  match j with JObject m => obj_get (str k) m | _ => None end.
Definition as_str (j : json) : option chars := match j with JString s => Some s | _ => None end.
Definition as_i64 (j : json) : option Z :=
  match j with JInt z => if decide (in_ty i64 z) then Some z else None | _ => None end.
Definition as_array (j : json) : option (list json) := match j with JArray l => Some l | _ => None end.

(** [DateTime::from_timestamp(ts, 0).unwrap_or_default()]. *)
Definition from_timestamp (ts : Z) : Z :=
  if (-8334601228800 <=? ts) && (ts <=? 8210266876799) then ts * 1000000 else 0.

Record StripeEvent := mkEvent {
  ev_id : chars;
  ev_type : chars;
  ev_object : json;
}.

Record CheckoutSessionCompleted := mkCheckout {
  cs_tenant : Z;
  cs_customer : chars;
  cs_subscription : chars;
  cs_plan_code : chars;
}.
Definition extract_checkout_session (data : json) : option CheckoutSessionCompleted :=
  tenant_id_str ← jget data "client_reference_id" ≫= as_str;
  tenant_id ← parse_i64 tenant_id_str;
  customer ← jget data "customer" ≫= as_str;
  subscription ← jget data "subscription" ≫= as_str;
  metadata ← jget data "metadata";
  plan_code ← jget metadata "plan_code" ≫= as_str;
  Some (mkCheckout tenant_id customer subscription plan_code).

Record SubscriptionUpdated := mkUpdated {
  su_subscription : chars;
  su_customer : chars;
  su_price : option chars;
  su_period_end : option Z;
}.
Definition extract_subscription_updated (data : json) : option SubscriptionUpdated :=
  subscription ← jget data "id" ≫= as_str;
  customer ← jget data "customer" ≫= as_str;
  let price :=
    items ← jget data "items"; data_items ← jget items "data"; arr ← as_array data_items;
    item ← head arr; price ← jget item "price"; id ← jget price "id"; as_str id in
  let period_end := jget data "current_period_end" ≫= as_i64 in
  Some (mkUpdated subscription customer price period_end).

Definition extract_customer (data : json) : option chars := jget data "customer" ≫= as_str.
Definition extract_subscription_deleted (data : json) : option chars := extract_customer data.
Definition extract_invoice_payment_failed (data : json) : option chars := extract_customer data.

Record InvoicePaid := mkPaid {
  ip_customer : chars;
  ip_period_end : option Z;
}.
Definition extract_invoice_paid (data : json) : option InvoicePaid :=
  customer ← jget data "customer" ≫= as_str;
  lines ← jget data "lines";
  arr ← jget lines "data" ≫= as_array;
  let period_end :=
    line ← head arr; period ← jget line "period"; e ← jget period "end"; as_i64 e in
  Some (mkPaid customer period_end).

Section Webhook.
Context (scan : gmap Z TenantRow -> list (Z * TenantRow)).
Context (hmac_sha256 : list byte -> list byte -> list byte).
Context (from_slice : list byte -> option json).

(** One part of the header: the last [t=] and the last [v1=] win. *)
Definition signature_part (acc : option chars * option chars) (part : chars) : option chars * option chars :=
  let part := trim part in
  match strip_prefix (str "t=") part with
  | Some val => (Some val, acc.2)
  | None =>
      match strip_prefix (str "v1=") part with
      | Some val => (acc.1, Some val)
      | None => acc
      end
  end.
Definition verify_stripe_signature (payload : list byte) (header secret : chars) : bool :=
  match foldl signature_part (None, None) (split_char 44 header) with
  | (Some t, Some sig_hex) =>
      match hex_decode sig_hex with
      | Some sig => bool_decide (hmac_sha256 (str_bytes secret) (str_bytes t ++ str_bytes (str ".") ++ payload) = sig)
      | None => false
      end
  | _ => false
  end.

Definition parse_stripe_event (payload : list byte) : option StripeEvent :=
  body ← from_slice payload;
  id ← jget body "id" ≫= as_str;
  event_type ← jget body "type" ≫= as_str;
  data ← jget body "data";
  object ← jget data "object";
  Some (mkEvent id event_type object).

Definition tenant_of (customer : chars) : bill Z :=
  let! t := find_tenant_by_stripe_customer scan customer in
  required t (NoTenantFor customer).

Definition handle_checkout (ev : StripeEvent) : bill unit :=
  let! cs := required (extract_checkout_session (ev_object ev)) (BadEvent (ev_type ev)) in
  let! found := get_plan_by_code (cs_plan_code cs) in
  let! plan := required found (UnknownPlanCode (cs_plan_code cs)) in
  let! _ := update_tenant_plan (cs_tenant cs) (Some (pl_id plan)) (Some (cs_customer cs))
              (Some (cs_subscription cs)) (Some (str "active")) None in
  apply_plan_quotas_to_tenant (cs_tenant cs) (pl_id plan) 0.

Definition handle_subscription_updated (ev : StripeEvent) : bill unit :=
  let! su := required (extract_subscription_updated (ev_object ev)) (BadEvent (ev_type ev)) in
  let! t := tenant_of (su_customer su) in
  match su_price su with
  | Some price =>
      let! found := find_plan_by_stripe_price price in
      let! plan := required found (UnknownPrice price) in
      let! _ := update_tenant_plan t (Some (pl_id plan)) None None None (from_timestamp <$> su_period_end su) in
      apply_plan_quotas_to_tenant t (pl_id plan) 0
  | None =>
      match su_period_end su with
      | Some ts => update_tenant_plan t None None None None (Some (from_timestamp ts))
      | None => bill_ret tt
      end
  end.

Definition handle_subscription_deleted (ev : StripeEvent) : bill unit :=
  let! customer := required (extract_subscription_deleted (ev_object ev)) (BadEvent (ev_type ev)) in
  let! t := tenant_of customer in
  let! found := get_plan_by_code (str "free") in
  let! plan := required found (UnknownPlanCode (str "free")) in
  let! _ := update_tenant_plan t (Some (pl_id plan)) None None (Some (str "canceled")) None in
  apply_plan_quotas_to_tenant t (pl_id plan) 0.

Definition handle_invoice_paid (ev : StripeEvent) : bill unit :=
  let! ip := required (extract_invoice_paid (ev_object ev)) (BadEvent (ev_type ev)) in
  let! t := tenant_of (ip_customer ip) in
  match ip_period_end ip with
  | Some ts => update_tenant_plan t None None None None (Some (from_timestamp ts))
  | None => bill_ret tt
  end.

Definition handle_payment_failed (ev : StripeEvent) : bill unit :=
  let! customer := required (extract_invoice_payment_failed (ev_object ev)) (BadEvent (ev_type ev)) in
  let! t := tenant_of customer in
  update_tenant_plan t None None None (Some (str "past_due")) None.

Definition handle_stripe_event (ev : StripeEvent) : bill unit :=
  if decide (ev_type ev = str "checkout.session.completed") then handle_checkout ev
  else if decide (ev_type ev = str "customer.subscription.updated") then handle_subscription_updated ev
  else if decide (ev_type ev = str "customer.subscription.deleted") then handle_subscription_deleted ev
  else if decide (ev_type ev = str "invoice.paid") then handle_invoice_paid ev
  else if decide (ev_type ev = str "invoice.payment_failed") then handle_payment_failed ev
  else bill_ret tt.

(** A delivery: the configured secret, the [stripe-signature] header (empty
    when absent) and the body.  The answer is the HTTP status. *)
Record delivery := mkDelivery {
  dl_secret : option chars;
  dl_header : chars;
  dl_body : list byte;
}.
Definition post_webhook (x : delivery) (d : BillingDb) : Z * BillingDb :=
  match dl_secret x with
  | None => (if decide (dl_header x = []) then 500 else 401, d)
  | Some secret =>
      if negb (verify_stripe_signature (dl_body x) (dl_header x) secret) then (401, d)
      else
        match parse_stripe_event (dl_body x) with
        | None => (400, d)
        | Some ev =>
            match record_stripe_event (ev_id ev) (ev_type ev) d with
            | (Ok false, d1) => (200, d1)
            | (Ok true, d1) =>
                match handle_stripe_event ev d1 with
                | (Err _, d2) => (500, d2)
                | (Ok _, d2) => (200, d2)
                end
            | (Err _, d1) => (500, d1)
            end
        end
  end.
End Webhook.

(** ** Specification: one atomic change per event *)

Inductive billing_change :=
| Subscribe (t : Z) (plan : Plan) (customer subscription : chars)
| SwitchPlan (t : Z) (plan : Plan) (period_end : option Z)
| Cancel (t : Z) (free : Plan)
| Renew (t : Z) (period_end : Z)
| MarkPastDue (t : Z)
| NoChange.

Definition on_plan (plan : Plan) (customer subscription status : option chars) (period_end : option Z)
    (r : TenantRow) : TenantRow :=
  mkTenant (Some (pl_quota_bytes plan)) (pl_token_budget plan) (Some (pl_id plan)) customer subscription
    status period_end.

Definition change_row (c : billing_change) (r : TenantRow) : TenantRow :=
  match c with
  | Subscribe _ plan customer subscription =>
      on_plan plan (Some customer) (Some subscription) (Some (str "active")) (tn_period_end r) r
  | SwitchPlan _ plan pe =>
      on_plan plan (tn_customer r) (tn_subscription r) (tn_status r) (coalesce pe (tn_period_end r)) r
  | Cancel _ free =>
      on_plan free (tn_customer r) (tn_subscription r) (Some (str "canceled")) (tn_period_end r) r
  | Renew _ pe =>
      mkTenant (tn_quota_bytes r) (tn_quota_tokens r) (tn_plan_id r) (tn_customer r) (tn_subscription r)
        (tn_status r) (Some pe)
  | MarkPastDue _ =>
      mkTenant (tn_quota_bytes r) (tn_quota_tokens r) (tn_plan_id r) (tn_customer r) (tn_subscription r)
        (Some (str "past_due")) (tn_period_end r)
  | NoChange => r
  end.

Definition change_target (c : billing_change) : option (Z * option Plan) :=
  match c with
  | Subscribe t plan _ _ | SwitchPlan t plan _ | Cancel t plan => Some (t, Some plan)
  | Renew t _ | MarkPastDue t => Some (t, None)
  | NoChange => None
  end.

(** A change of plan is audited, by the system actor 0. *)
Definition commit_change (c : billing_change) (d : BillingDb) : BillingDb :=
  match change_target c with
  | Some (t, Some plan) =>
      with_audit (mkAudit 0 t (str "plan_changed") (str "tenant") (Some t) (plan_details plan (pl_id plan)))
        (with_tenants (alter (change_row c) t) d)
  | Some (t, None) => with_tenants (alter (change_row c) t) d
  | None => d
  end.

Section Spec.
Context (scan : gmap Z TenantRow -> list (Z * TenantRow)).
Context (hmac_sha256 : list byte -> list byte -> list byte).
Context (from_slice : list byte -> option json).

Definition customer_tenant (d : BillingDb) (customer : chars) : result Z BillError :=
  ok_or (fst <$> List.find (λ tr, bool_decide (tn_customer tr.2 = Some customer)) (scan (bd_tenants d)))
    (NoTenantFor customer).
Definition plan_by_code (d : BillingDb) (code : chars) : result Plan BillError :=
  ok_or (find_plan (λ p, bool_decide (pl_code p = code)) d) (UnknownPlanCode code).
Definition plan_by_price (d : BillingDb) (price : chars) : result Plan BillError :=
  ok_or (find_plan (λ p, bool_decide (pl_stripe_price p = price)) d) (UnknownPrice price).
Definition storable (pe : option Z) : result unit BillError :=
  match pe with
  | Some pe => if pg_timestamp_ok pe then Ok tt else Err TimestampOutOfRange
  | None => Ok tt
  end.

Definition change_of (ev : StripeEvent) (d : BillingDb) : result billing_change BillError :=
  let data := ev_object ev in
  let bad := BadEvent (ev_type ev) in
  if decide (ev_type ev = str "checkout.session.completed") then
    let? cs := ok_or (extract_checkout_session data) bad in
    let? plan := plan_by_code d (cs_plan_code cs) in
    Ok (Subscribe (cs_tenant cs) plan (cs_customer cs) (cs_subscription cs))
  else if decide (ev_type ev = str "customer.subscription.updated") then
    let? su := ok_or (extract_subscription_updated data) bad in
    let? t := customer_tenant d (su_customer su) in
    let pe := from_timestamp <$> su_period_end su in
    match su_price su, pe with
    | Some price, _ =>
        let? plan := plan_by_price d price in
        let? _ := storable pe in Ok (SwitchPlan t plan pe)
    | None, Some pe => let? _ := storable (Some pe) in Ok (Renew t pe)
    | None, None => Ok NoChange
    end
  else if decide (ev_type ev = str "customer.subscription.deleted") then
    let? customer := ok_or (extract_customer data) bad in
    let? t := customer_tenant d customer in
    let? free := plan_by_code d (str "free") in
    Ok (Cancel t free)
  else if decide (ev_type ev = str "invoice.paid") then
    let? ip := ok_or (extract_invoice_paid data) bad in
    let? t := customer_tenant d (ip_customer ip) in
    match ip_period_end ip with
    | Some ts => let? _ := storable (Some (from_timestamp ts)) in Ok (Renew t (from_timestamp ts))
    | None => Ok NoChange
    end
  else if decide (ev_type ev = str "invoice.payment_failed") then
    let? customer := ok_or (extract_customer data) bad in
    let? t := customer_tenant d customer in
    Ok (MarkPastDue t)
  else Ok NoChange.

(** The event of a delivery that is signed with the configured secret and
    well formed, or the status that refuses it. *)
Definition accepted (x : delivery) : Z + StripeEvent :=
  match dl_secret x with
  | None => inl (if decide (dl_header x = []) then 500 else 401)
  | Some secret =>
      if verify_stripe_signature hmac_sha256 (dl_body x) (dl_header x) secret
      then match parse_stripe_event from_slice (dl_body x) with Some ev => inr ev | None => inl 400 end
      else inl 401
  end.

Definition webhook_spec (x : delivery) (d : BillingDb) : Z * BillingDb :=
  match accepted x with
  | inl status => (status, d)
  | inr ev =>
      if decide (is_Some (bd_events d !! ev_id ev)) then (200, d)
      else
        let d1 := with_event (ev_id ev) (ev_type ev) d in
        match change_of ev d with
        | Ok c => (200, commit_change c d1)
        | Err _ => (500, d1)
        end
  end.

Record ready (d : BillingDb) : Prop := {
  ready_connected : bd_connected d = true;
  ready_faults : bd_faults d = [];
  ready_plans : NoDup (pl_id <$> bd_plans d);
}.

Lemma stmt_ready {A} (m : bill A) d : ready d -> stmt m d = m d.
Proof. intros [Hc Hf _]. unfold stmt. by rewrite Hc, Hf. Qed.

Lemma ready_with_tenants f d : ready d -> ready (with_tenants f d).
Proof. by intros [??]. Qed.
Lemma ready_with_audit a d : ready d -> ready (with_audit a d).
Proof. by intros [??]. Qed.
Lemma ready_with_event i t d : ready d -> ready (with_event i t d).
Proof. by intros [??]. Qed.
Hint Resolve ready_with_tenants ready_with_audit ready_with_event : core.

Lemma find_plan_elem P d p : find_plan P d = Some p -> p ∈ bd_plans d.
Proof. intros H. apply find_some in H as [H _]. by apply list_elem_of_In. Qed.

Lemma find_plan_by_id d p : NoDup (pl_id <$> bd_plans d) -> p ∈ bd_plans d ->
  find_plan (λ q, pl_id q =? pl_id p) d = Some p.
Proof.
  unfold find_plan. intros Hnd Hin. induction (bd_plans d) as [|q l IH]; [by apply elem_of_nil in Hin|].
  apply elem_of_cons in Hin. rewrite fmap_cons in Hnd. apply NoDup_cons in Hnd as [Hq Hnd]. simpl.
  destruct (Z.eqb_spec (pl_id q) (pl_id p)) as [E|E].
  - destruct Hin as [->|Hin]; [done|]. exfalso. apply Hq. rewrite E. by apply list_elem_of_fmap_2.
  - destruct Hin as [->|Hin]; [done|auto].
Qed.

Lemma plan_exists_elem d p : p ∈ bd_plans d -> plan_exists d (Some (pl_id p)) = true.
Proof.
  intros H. apply existsb_exists. exists p. split; [by apply list_elem_of_In|apply Z.eqb_refl].
Qed.

Lemma update_tenant_ready t plan f d : ready d -> plan_exists d plan = true ->
  update_tenant t plan f d = (Ok tt, with_tenants (alter f t) d).
Proof. intros Hd Hp. unfold update_tenant. rewrite stmt_ready by done. by rewrite Hp, andb_false_r. Qed.

Lemma update_tenant_plan_ready t plan c s st pe d : ready d -> plan_exists d plan = true ->
  update_tenant_plan t plan c s st pe d
  = match storable pe with
    | Ok _ => (Ok tt, with_tenants (alter (plan_columns plan c s st pe) t) d)
    | Err e => (Err e, d)
    end.
Proof.
  intros Hd Hp. unfold update_tenant_plan, storable.
  repeat case_match; simplify_eq; rewrite ?stmt_ready, ?update_tenant_ready by done; done.
Qed.

Lemma alter_compose {A} (f g : A -> A) (t : Z) (m : gmap Z A) : alter f t (alter g t m) = alter (f ∘ g) t m.
Proof. apply map_eq. intros i. destruct (decide (i = t)) as [->|]; simplify_map_eq; [|done]. by destruct (m !! t). Qed.

Lemma apply_plan_quotas_ready t p d : ready d -> p ∈ bd_plans d ->
  apply_plan_quotas_to_tenant t (pl_id p) 0 d
  = (Ok tt, with_audit (mkAudit 0 t (str "plan_changed") (str "tenant") (Some t) (plan_details p (pl_id p)))
              (with_tenants (alter (quota_columns p) t) d)).
Proof.
  intros Hd Hp. unfold apply_plan_quotas_to_tenant, bill_bind, get_plan, query.
  rewrite stmt_ready by done. rewrite find_plan_by_id; [|apply Hd|done]. simpl. unfold bill_ret.
  rewrite update_tenant_ready by done. unfold admin_insert_audit_event. by rewrite stmt_ready by auto.
Qed.

(** The plan update and the quota update make one change of the row. *)
Lemma plan_then_quotas t p c s st pe d : ready d -> p ∈ bd_plans d ->
  (let! _ := update_tenant_plan t (Some (pl_id p)) c s st pe in apply_plan_quotas_to_tenant t (pl_id p) 0) d
  = match storable pe with
    | Ok _ =>
        (Ok tt, with_audit (mkAudit 0 t (str "plan_changed") (str "tenant") (Some t) (plan_details p (pl_id p)))
           (with_tenants (alter (quota_columns p ∘ plan_columns (Some (pl_id p)) c s st pe) t) d))
    | Err e => (Err e, d)
    end.
Proof.
  intros Hd Hp. unfold bill_bind. rewrite update_tenant_plan_ready by auto using plan_exists_elem.
  destruct (storable pe); [|done]. rewrite apply_plan_quotas_ready by auto.
  unfold with_tenants; simpl. by rewrite alter_compose.
Qed.

Lemma tenant_of_ready customer d : ready d ->
  tenant_of scan customer d = (customer_tenant d customer, d).
Proof.
  intros Hd. unfold tenant_of, bill_bind, find_tenant_by_stripe_customer, query, customer_tenant.
  rewrite stmt_ready by done. by destruct (fst <$> _).
Qed.

Lemma query_ready {A} (f : BillingDb -> A) d : ready d -> query f d = (Ok (f d), d).
Proof. intros. unfold query. by rewrite stmt_ready. Qed.

Definition change_answer (r : result billing_change BillError) (d : BillingDb) : result unit BillError * BillingDb :=
  match r with Ok c => (Ok tt, commit_change c d) | Err e => (Err e, d) end.

Lemma bind_query {A B} (f : BillingDb -> A) (k : A -> bill B) d : ready d ->
  bill_bind (query f) k d = k (f d) d.
Proof. intros. unfold bill_bind. by rewrite query_ready. Qed.
Lemma bind_required {A B} (o : option A) e (k : A -> bill B) d :
  bill_bind (required o e) k d = match ok_or o e with Ok a => k a d | Err e => (Err e, d) end.
Proof. by destruct o. Qed.
Lemma bind_tenant {B} customer (k : Z -> bill B) d : ready d ->
  bill_bind (tenant_of scan customer) k d
  = match customer_tenant d customer with Ok t => k t d | Err e => (Err e, d) end.
Proof. intros. unfold bill_bind. rewrite tenant_of_ready by done. by destruct (customer_tenant _ _). Qed.

Lemma plan_by_code_elem d code p : plan_by_code d code = Ok p -> p ∈ bd_plans d.
Proof. unfold plan_by_code. destruct (find_plan _ d) eqn:?; intros; simplify_eq/=. by eapply find_plan_elem. Qed.
Lemma plan_by_price_elem d price p : plan_by_price d price = Ok p -> p ∈ bd_plans d.
Proof. unfold plan_by_price. destruct (find_plan _ d) eqn:?; intros; simplify_eq/=. by eapply find_plan_elem. Qed.

Lemma handle_checkout_ready ev d : ready d ->
  handle_checkout ev d
  = change_answer (let? cs := ok_or (extract_checkout_session (ev_object ev)) (BadEvent (ev_type ev)) in
                   let? plan := plan_by_code d (cs_plan_code cs) in
                   Ok (Subscribe (cs_tenant cs) plan (cs_customer cs) (cs_subscription cs))) d.
Proof.
  intros Hd. unfold handle_checkout. rewrite bind_required. destruct (ok_or _ _) as [cs|]; [|done]. cbn [result_bind].
  unfold get_plan_by_code. rewrite bind_query, bind_required by done. fold (plan_by_code d (cs_plan_code cs)).
  destruct (plan_by_code _ _) as [p|] eqn:Hp; [|done]. cbv beta. rewrite plan_then_quotas by eauto using plan_by_code_elem.
  done.
Qed.

Lemma handle_updated_ready ev d : ready d ->
  handle_subscription_updated scan ev d
  = change_answer (let? su := ok_or (extract_subscription_updated (ev_object ev)) (BadEvent (ev_type ev)) in
                   let? t := customer_tenant d (su_customer su) in
                   let pe := from_timestamp <$> su_period_end su in
                   match su_price su, pe with
                   | Some price, _ =>
                       let? plan := plan_by_price d price in
                       let? _ := storable pe in Ok (SwitchPlan t plan pe)
                   | None, Some pe => let? _ := storable (Some pe) in Ok (Renew t pe)
                   | None, None => Ok NoChange
                   end) d.
Proof.
  intros Hd. unfold handle_subscription_updated. rewrite bind_required. destruct (ok_or _ _) as [su|]; [|done].
  rewrite bind_tenant by done. cbn [result_bind].
  destruct (customer_tenant _ _) as [t|]; [|done]. cbn [result_bind]. destruct (su_price su) as [price|].
  - unfold find_plan_by_stripe_price. rewrite bind_query, bind_required by done. fold (plan_by_price d price).
    destruct (plan_by_price _ _) as [p|] eqn:Hp; [|done]. cbv beta. rewrite plan_then_quotas by eauto using plan_by_price_elem.
    by destruct (storable _).
  - destruct (su_period_end su) as [ts|]; [|done]. cbn [fmap option_fmap option_map].
    rewrite update_tenant_plan_ready by done. by destruct (storable _).
Qed.

Lemma handle_deleted_ready ev d : ready d ->
  handle_subscription_deleted scan ev d
  = change_answer (let? customer := ok_or (extract_customer (ev_object ev)) (BadEvent (ev_type ev)) in
                   let? t := customer_tenant d customer in
                   let? free := plan_by_code d (str "free") in
                   Ok (Cancel t free)) d.
Proof.
  intros Hd. unfold handle_subscription_deleted. rewrite bind_required. unfold extract_subscription_deleted.
  destruct (ok_or _ _) as [c|]; [|done].
  rewrite bind_tenant by done. cbn [result_bind]. destruct (customer_tenant _ _) as [t|]; [|done].
  unfold get_plan_by_code. rewrite bind_query, bind_required by done. fold (plan_by_code d (str "free")).
  cbn [result_bind]. destruct (plan_by_code _ _) as [p|] eqn:Hp; [|done].
  cbv beta. by rewrite plan_then_quotas by eauto using plan_by_code_elem.
Qed.

Lemma handle_paid_ready ev d : ready d ->
  handle_invoice_paid scan ev d
  = change_answer (let? ip := ok_or (extract_invoice_paid (ev_object ev)) (BadEvent (ev_type ev)) in
                   let? t := customer_tenant d (ip_customer ip) in
                   match ip_period_end ip with
                   | Some ts => let? _ := storable (Some (from_timestamp ts)) in Ok (Renew t (from_timestamp ts))
                   | None => Ok NoChange
                   end) d.
Proof.
  intros Hd. unfold handle_invoice_paid. rewrite bind_required. destruct (ok_or _ _) as [ip|]; [|done].
  rewrite bind_tenant by done. cbn [result_bind]. destruct (customer_tenant _ _) as [t|]; [|done].
  cbn [result_bind]. destruct (ip_period_end ip) as [ts|]; [|done].
  rewrite update_tenant_plan_ready by done. by destruct (storable _).
Qed.

Lemma handle_failed_ready ev d : ready d ->
  handle_payment_failed scan ev d
  = change_answer (let? customer := ok_or (extract_customer (ev_object ev)) (BadEvent (ev_type ev)) in
                   let? t := customer_tenant d customer in
                   Ok (MarkPastDue t)) d.
Proof.
  intros Hd. unfold handle_payment_failed. rewrite bind_required. unfold extract_invoice_payment_failed.
  destruct (ok_or _ _) as [c|]; [|done]. rewrite bind_tenant by done. cbn [result_bind].
  destruct (customer_tenant _ _) as [t|]; [|done]. by rewrite update_tenant_plan_ready by done.
Qed.

(** The handler, statement by statement, makes the change of the event. *)
Lemma handle_ready ev d : ready d ->
  handle_stripe_event scan ev d
  = match change_of ev d with
    | Ok c => (Ok tt, commit_change c d)
    | Err e => (Err e, d)
    end.
Proof.
  intros Hd. unfold handle_stripe_event, change_of.
  repeat case_decide; [| | | | |done].
  - apply handle_checkout_ready, Hd.
  - apply handle_updated_ready, Hd.
  - apply handle_deleted_ready, Hd.
  - apply handle_paid_ready, Hd.
  - apply handle_failed_ready, Hd.
Qed.

Lemma deliver_spec x d : ready d -> post_webhook scan hmac_sha256 from_slice x d = webhook_spec x d.
Proof.
  intros Hd. unfold post_webhook, webhook_spec, accepted.
  destruct (dl_secret x) as [secret|]; [|done].
  destruct (verify_stripe_signature _ _ _ _); [|done]. simpl.
  destruct (parse_stripe_event _ _) as [ev|]; [|done].
  unfold record_stripe_event. rewrite stmt_ready by done.
  destruct (bd_events d !! ev_id ev) eqn:Hev; rewrite ?decide_True by eauto; [done|].
  rewrite decide_False by (intros [? ?]; congruence).
  rewrite handle_ready by auto. change (change_of ev (with_event _ _ d)) with (change_of ev d).
  by destruct (change_of ev d).
Qed.


End Spec.

(** ** Redelivery *)

(** A computation that does not touch the table of processed events. *)
Definition keeps_events {A} (m : bill A) : Prop := forall d, bd_events (m d).2 = bd_events d.

Create HintDb billing.

Lemma ev_ret {A} (a : A) : keeps_events (bill_ret a).
Proof. done. Qed.
Lemma ev_err {A} e : keeps_events (@bill_err A e).
Proof. done. Qed.
Lemma ev_required {A} (o : option A) e : keeps_events (required o e).
Proof. by destruct o. Qed.
Lemma ev_bind {A B} (m : bill A) (k : A -> bill B) :
  keeps_events m -> (forall a, keeps_events (k a)) -> keeps_events (bill_bind m k).
Proof.
  intros Hm Hk d. unfold bill_bind. specialize (Hm d). destruct (m d) as [[a|e] d']; simpl in *; [|done].
  by rewrite Hk.
Qed.
Lemma ev_stmt {A} (m : bill A) : keeps_events m -> keeps_events (stmt m).
Proof. intros Hm d. unfold stmt. destruct (negb _); [done|]. destruct (bd_faults d) as [|[] ?]; simpl; rewrite ?Hm; done. Qed.
Lemma ev_query {A} (f : BillingDb -> A) : keeps_events (query f).
Proof. by apply ev_stmt. Qed.
Lemma ev_update t plan f : keeps_events (update_tenant t plan f).
Proof. apply ev_stmt. intros d. by case_match. Qed.
Lemma ev_update_plan t plan c s st pe : keeps_events (update_tenant_plan t plan c s st pe).
Proof. unfold update_tenant_plan. repeat case_match; auto using ev_update, ev_stmt, @ev_err. Qed.
Lemma ev_audit a t ac tt' tg dt : keeps_events (admin_insert_audit_event a t ac tt' tg dt).
Proof. by apply ev_stmt. Qed.
#[local] Hint Resolve ev_ret ev_err ev_required ev_query ev_update ev_update_plan
  ev_audit : billing.
#[local] Hint Extern 3 (keeps_events (bill_bind _ _)) => apply ev_bind; [|intros ?] : billing.
#[local] Hint Extern 4 (keeps_events (match ?x with _ => _ end)) => destruct x : billing.

Lemma ev_apply t p a : keeps_events (apply_plan_quotas_to_tenant t p a).
Proof. unfold apply_plan_quotas_to_tenant, get_plan. auto 10 with billing. Qed.
#[local] Hint Resolve ev_apply : billing.

Lemma ev_handle scan ev : keeps_events (handle_stripe_event scan ev).
Proof.
  unfold handle_stripe_event, handle_checkout, handle_subscription_updated, handle_subscription_deleted,
    handle_invoice_paid, handle_payment_failed, tenant_of, find_tenant_by_stripe_customer, get_plan_by_code,
    find_plan_by_stripe_price.
  repeat case_decide; auto 12 with billing.
Qed.

Lemma ev_override t p st a : keeps_events (admin_override_tenant_billing t p st a).
Proof. unfold admin_override_tenant_billing, get_plan. destruct p, st; auto 12 with billing. Qed.

Lemma ev_suspend_each days a ts : keeps_events (suspend_each days a ts).
Proof. induction ts; simpl; unfold suspend_one; auto 10 with billing. Qed.
Lemma ev_suspend scan now days a : keeps_events (suspend_past_due_tenants scan now days a).
Proof.
  unfold suspend_past_due_tenants. apply ev_bind.
  - apply ev_stmt. intros d. by case_match.
  - intros ts. apply ev_bind; auto using ev_suspend_each, @ev_ret.
Qed.

(** ** Histories of deliveries, overrides and suspensions *)

Inductive billing_op :=
| Deliver (x : delivery)
| Override (t : Z) (plan : option Z) (status : option chars) (actor : Z)
| SuspendRun (now days actor : Z)
| Faults (fs : list bool).

Section Histories.
Context (scan : gmap Z TenantRow -> list (Z * TenantRow)).
Context (hmac_sha256 : list byte -> list byte -> list byte).
Context (from_slice : list byte -> option json).

(** [Faults] chooses which of the statements to come fail. *)
Definition billing_exec (op : billing_op) (d : BillingDb) : BillingDb :=
  match op with
  | Deliver x => (post_webhook scan hmac_sha256 from_slice x d).2
  | Override t plan status actor => (admin_override_tenant_billing t plan status actor d).2
  | SuspendRun now days actor => (suspend_past_due_tenants scan now days actor d).2
  | Faults fs => with_faults fs d
  end.
Definition billing_history (ops : list billing_op) (d : BillingDb) : BillingDb :=
  foldl (λ d op, billing_exec op d) d ops.

Definition billing_state (d : BillingDb) : gmap Z TenantRow * list AuditEvent := (bd_tenants d, bd_audit d).

Lemma record_event_ok i t d b d1 : record_stripe_event i t d = (Ok b, d1) ->
  is_Some (bd_events d1 !! i) /\ bd_events d ⊆ bd_events d1 /\ billing_state d1 = billing_state d /\
  (b = true -> bd_events d !! i = None).
Proof.
  assert (Hrec : forall d0, (match bd_events d0 !! i with
                             | Some _ => (Ok false, d0)
                             | None => (Ok true, with_event i t d0)
                             end = (Ok b, d1) :> result bool BillError * BillingDb) ->
    is_Some (bd_events d1 !! i) /\ bd_events d0 ⊆ bd_events d1 /\ billing_state d1 = billing_state d0 /\
    (b = true -> bd_events d0 !! i = None)).
  { intros d0. destruct (bd_events d0 !! i) eqn:E; intros; simplify_eq; [by split_and!; eauto|].
    split_and!; [eexists; apply lookup_insert_eq|by apply insert_subseteq|done..]. }
  unfold record_stripe_event, stmt. destruct (negb _); [done|].
  destruct (bd_faults d) as [|[] fs]; [apply (Hrec d)|done|apply (Hrec (with_faults fs d))].
Qed.

Lemma record_event_err i t d e d1 : record_stripe_event i t d = (Err e, d1) ->
  bd_events d1 = bd_events d /\ billing_state d1 = billing_state d.
Proof.
  unfold record_stripe_event, stmt. destruct (negb _); [by intros; simplify_eq|].
  destruct (bd_faults d) as [|[] fs]; intros; simplify_eq; repeat case_match; simplify_eq; done.
Qed.

(** A delivery only adds to the processed events, and changes the billing
    state only for an event it newly records. *)
Lemma deliver_cases x d : let d' := (post_webhook scan hmac_sha256 from_slice x d).2 in
  bd_events d ⊆ bd_events d' /\
  (billing_state d' = billing_state d \/
   exists ev, accepted hmac_sha256 from_slice x = inr ev /\ bd_events d !! ev_id ev = None /\
     is_Some (bd_events d' !! ev_id ev)).
Proof.
  unfold post_webhook, accepted. destruct (dl_secret x) as [secret|]; [|simpl; auto].
  destruct (verify_stripe_signature _ _ _ _); [|simpl; auto]. simpl.
  destruct (parse_stripe_event _ _) as [ev|]; [|simpl; auto].
  destruct (record_stripe_event _ _ d) as [[[]|e] d1] eqn:Hrec.
  - apply record_event_ok in Hrec as (Hin & Hsub & Hst & Hnew).
    pose proof (ev_handle scan ev d1) as Hk.
    destruct (handle_stripe_event scan ev d1) as [[u|e] d2]; simpl in *; rewrite Hk; split; eauto 10.
  - apply record_event_ok in Hrec as (_ & Hsub & Hst & _). auto.
  - apply record_event_err in Hrec as [Hev ?]. simpl. rewrite Hev. auto.
Qed.

Lemma history_keeps_event ops d i : is_Some (bd_events d !! i) -> is_Some (bd_events (billing_history ops d) !! i).
Proof.
  revert d. induction ops as [|op ops IH]; intros d Hi; [done|]. apply IH.
  destruct op as [x|t p st a|now days a|fs]; simpl; [|by rewrite ev_override|by rewrite ev_suspend|done].
  destruct Hi as [v Hv]. exists v. by eapply lookup_weaken, deliver_cases.
Qed.

(** C32. Stripe may deliver an event any number of times, in any order, with
    statements failing anywhere and overrides and suspensions in between: at
    most one delivery of an event id changes a tenant's billing columns or
    the audit log. *)
Theorem webhook_at_most_once (before between : list billing_op) (x y : delivery) d ex ey :
  accepted hmac_sha256 from_slice x = inr ex -> accepted hmac_sha256 from_slice y = inr ey -> ev_id ex = ev_id ey ->
  let d1 := billing_history before d in
  let d2 := billing_exec (Deliver x) d1 in
  let d3 := billing_history between d2 in
  billing_state d2 <> billing_state d1 -> billing_state (billing_exec (Deliver y) d3) = billing_state d3.
Proof.
  intros Hx Hy Hid d1 d2 d3 Hch.
  destruct (deliver_cases x d1) as [_ [?|(ev & Hev & _ & Hin)]]; [done|].
  destruct (deliver_cases y d3) as [_ [?|(ev' & Hev' & Hnone & _)]]; [done|exfalso].
  assert (ev_id ev = ev_id ev') as E by congruence.
  apply (history_keeps_event between) in Hin. rewrite E in Hin.
  apply eq_None_not_Some in Hnone. by apply Hnone.
Qed.

(** ** Quotas follow the plan *)

(** A tenant on a plan has that plan's quotas in its own columns. *)
Definition quotas_match (plans : list Plan) (r : TenantRow) : Prop :=
  match tn_plan_id r with
  | Some p => exists plan, plan ∈ plans /\ pl_id plan = p /\ tn_quota_bytes r = Some (pl_quota_bytes plan) /\
      tn_quota_tokens r = pl_token_budget plan
  | None => True
  end.
Definition quotas_ok (d : BillingDb) : Prop := map_Forall (λ _ r, quotas_match (bd_plans d) r) (bd_tenants d).

Lemma quotas_alter f t d : (forall r, quotas_match (bd_plans d) r -> quotas_match (bd_plans d) (f r)) ->
  quotas_ok d -> quotas_ok (with_tenants (alter f t) d).
Proof.
  intros Hf Hok i r. simpl. rewrite lookup_alter_Some. intros [(<- & r0 & Hr & ->)|[_ Hr]].
  - by apply Hf, (Hok t).
  - by apply (Hok i).
Qed.

Lemma change_of_plan ev d c t p : change_of scan ev d = Ok c -> change_target c = Some (t, Some p) -> p ∈ bd_plans d.
Proof.
  unfold change_of, result_bind. intros Hc Ht.
  repeat (case_decide || case_match); simplify_eq/=; eauto using plan_by_code_elem, plan_by_price_elem.
Qed.

Lemma change_quotas ev d c t r : change_of scan ev d = Ok c -> (exists p, change_target c = Some (t, p)) ->
  quotas_match (bd_plans d) r -> quotas_match (bd_plans d) (change_row c r).
Proof.
  intros Hc [p Ht] Hr. destruct c; simplify_eq/=; try done; exists plan || exists free; eauto using change_of_plan.
Qed.

Lemma commit_quotas ev d c d1 : change_of scan ev d = Ok c -> bd_plans d1 = bd_plans d ->
  quotas_ok d1 -> quotas_ok (commit_change c d1).
Proof.
  intros Hc Hp Hok. unfold commit_change. destruct (change_target c) as [[t [p|]]|] eqn:Ht; [| |done];
    apply (quotas_alter (change_row c) t d1); auto; rewrite Hp; eauto using change_quotas.
Qed.
(** [I] holds before and after [m], and [Q] of its value. *)
Definition triple {A} (I : BillingDb -> Prop) (m : bill A) (Q : A -> Prop) : Prop :=
  forall d, I d -> I (m d).2 /\ match (m d).1 with Ok a => Q a | Err _ => True end.

Lemma triple_bind {A B} I (m : bill A) (k : A -> bill B) P Q :
  triple I m P -> (forall a, P a -> triple I (k a) Q) -> triple I (bill_bind m k) Q.
Proof.
  intros Hm Hk d Hd. unfold bill_bind. destruct (Hm d Hd) as [Hd' HP]. destruct (m d) as [[a|e] d']; [|done].
  by apply Hk.
Qed.
Lemma triple_ret {A} I (a : A) (Q : A -> Prop) : Q a -> triple I (bill_ret a) Q.
Proof. by intros ? d ?. Qed.

Definition consistent (ps : list Plan) (d : BillingDb) : Prop := ready d /\ quotas_ok d /\ bd_plans d = ps.

Lemma triple_query {A} ps (f : BillingDb -> A) (Q : A -> Prop) :
  (forall d, bd_plans d = ps -> Q (f d)) -> triple (consistent ps) (query f) Q.
Proof. intros HQ d (Hr & Hq & Hp). rewrite query_ready by done. simpl. split; [done|by apply HQ]. Qed.

Lemma triple_update ps t plan f :
  (forall r, quotas_match ps r -> quotas_match ps (f r)) ->
  triple (consistent ps) (update_tenant t plan f) (λ _, True).
Proof.
  intros Hf d (Hr & Hq & Hp). unfold update_tenant. rewrite stmt_ready by done. case_match; [done|]. simpl.
  split; [|done]. split_and!; [by apply ready_with_tenants| |done]. apply quotas_alter; [by rewrite Hp|done].
Qed.

Lemma triple_audit ps a t ac tt' tg dt :
  triple (consistent ps) (admin_insert_audit_event a t ac tt' tg dt) (λ _, True).
Proof.
  intros d (Hr & Hq & Hp). unfold admin_insert_audit_event. rewrite stmt_ready by done. simpl.
  split; [|done]. split_and!; [by apply ready_with_audit|done|done].
Qed.

Lemma triple_override ps t plan status actor :
  triple (consistent ps) (admin_override_tenant_billing t plan status actor) (λ _, True).
Proof.
  assert (triple (consistent ps)
    (let! row := query (λ d, (λ r, (tn_plan_id r, tn_status r)) <$> bd_tenants d !! t) in
     let! _ := match status with Some s => update_tenant t None (status_column s) | None => bill_ret tt end in
     let! plan_code := match plan with
                       | Some pid =>
                           let! found := get_plan pid in
                           let! p := required found (PlanNotFound pid) in
                           let! _ := update_tenant t (Some pid) (override_columns pid p) in
                           bill_ret (Some (pl_code p))
                       | None => bill_ret None
                       end in
     admin_insert_audit_event actor t (str "billing_override") (str "tenant") (Some t)
       (override_details (default (None, None) row) plan plan_code status)) (λ _, True)) as H.
  { eapply triple_bind; [by apply (triple_query ps _ (λ _, True))|]. intros row _.
    eapply triple_bind with (P := λ _, True).
    { destruct status; [by apply triple_update|by apply triple_ret]. }
    intros _ _. eapply triple_bind with (P := λ _, True); [|intros; apply triple_audit].
    destruct plan as [pid|]; [|by apply triple_ret].
    eapply triple_bind with (P := λ o, forall p, o = Some p -> p ∈ ps /\ pl_id p = pid).
    { apply triple_query. intros d <- p Hp. split; [by eapply find_plan_elem|].
      apply find_some in Hp as [_ Hp]. by apply Z.eqb_eq. }
    intros o Ho. eapply triple_bind with (P := λ p, p ∈ ps /\ pl_id p = pid).
    { destruct o as [p|]; [apply triple_ret; auto|by intros d ?]. }
    intros p [Hp Hid]. eapply triple_bind; [|by intros; apply triple_ret].
    apply triple_update. intros r _. exists p. auto. }
  unfold admin_override_tenant_billing. destruct plan, status; try apply H. by apply triple_ret.
Qed.

Lemma triple_suspend_each ps days actor ts : triple (consistent ps) (suspend_each days actor ts) (λ _, True).
Proof.
  induction ts as [|t ts IH]; simpl; [by apply triple_ret|].
  eapply triple_bind; [|intros; apply IH]. eapply triple_bind; [by apply triple_update|intros; apply triple_audit].
Qed.

Lemma triple_suspend ps now days actor :
  triple (consistent ps) (suspend_past_due_tenants scan now days actor) (λ _, True).
Proof.
  unfold suspend_past_due_tenants. eapply triple_bind with (P := λ _, True).
  - intros d Hd. rewrite stmt_ready by apply Hd. by case_match.
  - intros ts _. eapply triple_bind; [apply triple_suspend_each|]. intros. by apply triple_ret.
Qed.

Lemma deliver_consistent ps x d : consistent ps d ->
  consistent ps (post_webhook scan hmac_sha256 from_slice x d).2.
Proof.
  intros (Hr & Hq & Hp). rewrite deliver_spec by done. unfold webhook_spec.
  destruct (accepted _ _ x) as [st|ev]; [done|]. case_decide; [done|].
  destruct (change_of scan ev d) as [c|e] eqn:Hc; simpl; [|by split_and!; [apply ready_with_event|..]].
  unfold commit_change. split_and!.
  - destruct (change_target c) as [[t [p|]]|]; auto using ready_with_audit, ready_with_tenants, ready_with_event.
  - by eapply (commit_quotas ev d).
  - by destruct (change_target c) as [[t [p|]]|].
Qed.

(** While statements succeed, every history of webhook deliveries,
    administrator overrides and suspension runs keeps the quotas of a tenant
    on a plan equal to those of the plan. *)
Theorem plan_quotas_invariant (ops : list billing_op) d :
  Forall (λ op, match op with Faults fs => fs = [] | _ => True end) ops -> ready d -> quotas_ok d ->
  quotas_ok (billing_history ops d).
Proof.
  intros Hops Hr Hq. assert (H : consistent (bd_plans d) d) by done. clear Hr Hq. revert H.
  generalize (bd_plans d) as ps. intros ps. revert d.
  induction Hops as [|op ops Hop Hops IH]; intros d H; [apply H|]. apply IH.
  destruct op as [x|t p st a|now days a|fs]; simpl.
  - by apply deliver_consistent.
  - by apply triple_override.
  - by apply triple_suspend.
  - subst fs. by destruct H as ([] & ? & ?).
Qed.

End Histories.

(** ** Suspension *)

Section Suspension.
Context (scan : gmap Z TenantRow -> list (Z * TenantRow)).
Hypothesis scan_perm : forall m, scan m ≡ₚ map_to_list m.

Definition suspend_row (cutoff : Z) (r : TenantRow) : TenantRow :=
  if past_due_before cutoff r then status_column (str "suspended") r else r.

Lemma suspend_each_ready days actor ts d : ready d ->
  suspend_each days actor ts d
  = (Ok tt, mkBilling (bd_connected d) (bd_plans d)
       (foldl (λ m t, alter (status_column (str "suspended")) t m) (bd_tenants d) ts) (bd_events d)
       (bd_audit d ++ ((λ t, mkAudit actor t (str "tenant_suspended") (str "tenant") (Some t) (suspension_details days)) <$> ts))
       (bd_faults d)).
Proof.
  revert d. induction ts as [|t ts IH]; intros d Hd; simpl.
  - unfold bill_ret. rewrite app_nil_r. by destruct d.
  - unfold bill_bind, suspend_one at 1. unfold bill_bind. rewrite update_tenant_ready by done.
    unfold admin_insert_audit_event. rewrite stmt_ready by by apply ready_with_tenants.
    rewrite IH by by apply ready_with_audit, ready_with_tenants. simpl. by rewrite <- app_assoc.
Qed.

Lemma suspend_fold_lookup ts (m : gmap Z TenantRow) t : NoDup ts ->
  foldl (λ m t, alter (status_column (str "suspended")) t m) m ts !! t
  = if decide (t ∈ ts) then status_column (str "suspended") <$> m !! t else m !! t.
Proof.
  revert m. induction ts as [|u ts IH]; intros m Hnd; [done|]. simpl.
  apply NoDup_cons in Hnd as [Hu Hnd]. rewrite IH by done.
  destruct (decide (t = u)) as [->|Hne].
  - rewrite decide_False by done. rewrite decide_True by left. by rewrite lookup_alter_eq.
  - rewrite lookup_alter_ne by done. repeat case_decide; set_solver.
Qed.

Lemma past_due_ids cutoff m t :
  t ∈ fst <$> List.filter (λ tr, past_due_before cutoff tr.2) (scan m)
  <-> exists r, m !! t = Some r /\ past_due_before cutoff r = true.
Proof.
  rewrite list_elem_of_fmap. split.
  - intros ([t' r] & -> & Hin). apply list_elem_of_In, filter_In in Hin as [Hin Hr].
    exists r. split; [|done]. apply elem_of_map_to_list. rewrite <- scan_perm. by apply list_elem_of_In.
  - intros (r & Hm & Hr). exists (t, r). split; [done|]. apply list_elem_of_In, filter_In. split; [|done].
    apply list_elem_of_In. rewrite scan_perm. by apply elem_of_map_to_list.
Qed.

Lemma past_due_nodup cutoff m : NoDup (fst <$> List.filter (λ tr, past_due_before cutoff tr.2) (scan m)).
Proof.
  assert (H : NoDup (fst <$> scan m)) by (rewrite scan_perm; apply NoDup_fst_map_to_list).
  induction (scan m) as [|[t r] l IH]; [done|]. simpl in *. apply NoDup_cons in H as [Ht H].
  destruct (past_due_before cutoff r); [|auto]. simpl. constructor; [|auto].
  intros Hin. apply Ht. apply list_elem_of_fmap in Hin as (tr & -> & Hin).
  apply list_elem_of_In, filter_In in Hin as [Hin _]. apply list_elem_of_fmap_2. by apply list_elem_of_In.
Qed.

Lemma gate_exact t d : ready d ->
  (check_tenant_not_suspended t d).1 = Err Suspended
  <-> exists r, bd_tenants d !! t = Some r /\ tn_status r = Some (str "suspended").
Proof.
  intros Hd. unfold check_tenant_not_suspended. rewrite (ready_connected _ Hd). cbn [negb].
  rewrite bind_query by done. destruct (bd_tenants d !! t) as [r|]; cbn [fmap option_fmap option_map];
    [|by split; [|intros (? & ? & ?)]].
  destruct (tn_status r) as [st|] eqn:Hst; [|by split; [|intros (? & ? & ?); simplify_eq; congruence]].
  unfold bill_bind, bill_ret. case_bool_decide as Hs; subst; simpl; split; try done.
  - intros _. eauto.
  - by intros (r' & ? & ?); simplify_eq.
Qed.

(** A suspension run suspends exactly the tenants that are past due and
    whose period ended before the dunning window, reports and audits each
    once, and leaves every other tenant as it was; the ingest gate refuses a
    tenant afterwards if and only if its status is [suspended]. *)
Theorem suspension_exact now days actor d : ready d -> pg_timestamp_ok (dunning_cutoff now days) = true ->
  let cutoff := dunning_cutoff now days in
  exists ts d',
    suspend_past_due_tenants scan now days actor d = (Ok ts, d') /\ NoDup ts /\
    (forall t, t ∈ ts <-> exists r, bd_tenants d !! t = Some r /\ past_due_before cutoff r = true) /\
    bd_tenants d' = suspend_row cutoff <$> bd_tenants d /\
    bd_audit d' = bd_audit d ++ ((λ t, mkAudit actor t (str "tenant_suspended") (str "tenant") (Some t)
                                         (suspension_details days)) <$> ts) /\
    (forall t, (check_tenant_not_suspended t d').1 = Err Suspended
               <-> exists r, bd_tenants d' !! t = Some r /\ tn_status r = Some (str "suspended")) /\
    (forall t, t ∈ ts -> (check_tenant_not_suspended t d').1 = Err Suspended).
Proof.
  intros Hd Hcut cutoff. unfold suspend_past_due_tenants. fold cutoff.
  unfold bill_bind. rewrite stmt_ready by done. fold cutoff in Hcut. rewrite Hcut.
  set (ts := fst <$> _). rewrite suspend_each_ready by done.
  assert (Hnd : NoDup ts) by apply past_due_nodup.
  assert (Hts : forall t, t ∈ ts <-> exists r, bd_tenants d !! t = Some r /\ past_due_before cutoff r = true)
    by (intros; apply past_due_ids).
  assert (Hm : foldl (λ m t, alter (status_column (str "suspended")) t m) (bd_tenants d) ts
               = suspend_row cutoff <$> bd_tenants d).
  { apply map_eq. intros t. rewrite suspend_fold_lookup by done. rewrite lookup_fmap. unfold suspend_row.
    case_decide as Hin.
    - apply Hts in Hin as (r & Hr & Hpd). by rewrite Hr; simpl; rewrite Hpd.
    - destruct (bd_tenants d !! t) as [r|] eqn:Hr; [|done]. simpl.
      destruct (past_due_before cutoff r) eqn:Hpd; [|done]. exfalso. apply Hin, Hts. eauto. }
  rewrite Hm. eexists ts, _. split; [reflexivity|]. simpl.
  set (d' := mkBilling _ _ _ _ _ _).
  assert (Hd' : ready d') by (destruct Hd; by constructor).
  assert (Hgate : forall t, (check_tenant_not_suspended t d').1 = Err Suspended
               <-> exists r, bd_tenants d' !! t = Some r /\ tn_status r = Some (str "suspended"))
    by (intros; by apply gate_exact).
  split_and!; try done. intros t Hin. apply Hgate. apply Hts in Hin as (r & Hr & Hpd).
  exists (suspend_row cutoff r). split; [simpl; by rewrite lookup_fmap, Hr|]. unfold suspend_row. by rewrite Hpd.
Qed.
End Suspension.

(** ** What a failed statement leaves behind *)

Definition free_plan : Plan := mkPlan 1 (str "free") (str "price_free") 100 (Some 10) (JObject []) (Some 0) None.
Definition pro_plan : Plan := mkPlan 2 (str "pro") (str "price_pro") 900 None (JObject []) (Some 900) None.
Definition demo_row : TenantRow :=
  mkTenant (Some 100) (Some 10) (Some 1) (Some (str "cus")) (Some (str "sub")) (Some (str "active")) (Some 0).
Definition demo_billing (faults : list bool) : BillingDb :=
  mkBilling true [free_plan; pro_plan] {[7 := demo_row]} ∅ [] faults.
Definition demo_hmac (key msg : list byte) : list byte := take 2 key.
Definition demo_event (typ : string) (object : json) : json :=
  JObject [(str "id", JString (str "evt_1")); (str "type", JString (str typ));
           (str "data", JObject [(str "object", object)])].
(** A parser that knows two bodies. *)
Definition demo_parse (b : list byte) : option json :=
  if decide (b = str_bytes (str "upgrade")) then
    Some (demo_event "customer.subscription.updated"
      (JObject [(str "id", JString (str "sub")); (str "customer", JString (str "cus"));
                (str "items", JObject [(str "data", JArray [JObject [(str "price",
                   JObject [(str "id", JString (str "price_pro"))])]])])]))
  else if decide (b = str_bytes (str "failed")) then
    Some (demo_event "invoice.payment_failed" (JObject [(str "customer", JString (str "cus"))]))
  else None.
Definition demo_delivery (body : string) : delivery :=
  mkDelivery (Some (str "key")) (str "t=1,v1=6b65") (str_bytes (str body)).
Definition demo_post (body : string) (d : BillingDb) : Z * BillingDb :=
  post_webhook map_to_list demo_hmac demo_parse (demo_delivery body) d.

(** The statement that copies the quotas fails: the tenant is on the new plan
    with the old quotas, the answer is 500, and Stripe's redelivery is skipped
    as already processed. *)
Lemma interrupted_upgrade_sticks :
  let '(st1, d1) := demo_post "upgrade" (demo_billing [false; false; false; false; false; true]) in
  let '(st2, d2) := demo_post "upgrade" d1 in
  st1 = 500 /\ st2 = 200 /\ bd_faults d1 = [] /\ billing_state d2 = billing_state d1 /\
  (tn_plan_id <$> bd_tenants d2 !! 7) = Some (Some 2) /\ (tn_quota_bytes <$> bd_tenants d2 !! 7) = Some (Some 100).
Proof. vm_compute. repeat split. Qed.

(** A paid invoice never changes the billing status: a tenant that is past due
    or suspended stays so. *)
Lemma paid_invoice_keeps_status scan ev d c r : ev_type ev = str "invoice.paid" -> change_of scan ev d = Ok c ->
  tn_status (change_row c r) = tn_status r.
Proof.
  intros Ht. unfold change_of. rewrite Ht. repeat (rewrite decide_False by done). rewrite decide_True by done.
  unfold result_bind. intros Hc. repeat case_match; simplify_eq/=; done.
Qed.

(** ** Witnesses *)

Lemma demo_ready : ready (demo_billing []).
Proof. constructor; [done|done|]. apply (bool_decide_unpack _). by vm_compute. Defined.


Lemma webhook_at_most_once_witness :
  let d := demo_billing [] in
  let x := demo_delivery "upgrade" in
  let d2 := billing_exec map_to_list demo_hmac demo_parse (Deliver x) d in
  billing_state (billing_exec map_to_list demo_hmac demo_parse (Deliver x) d2) = billing_state d2.
Proof.
  pose (x := demo_delivery "upgrade").
  destruct (accepted demo_hmac demo_parse x) as [|ev] eqn:Hx; [by vm_compute in Hx|].
  refine (webhook_at_most_once map_to_list demo_hmac demo_parse [] [] x x (demo_billing []) ev ev Hx Hx eq_refl _).
  intros Heq. apply (f_equal (λ st, length st.2)) in Heq. by vm_compute in Heq.
Defined.

Lemma plan_quotas_invariant_witness :
  quotas_ok (billing_history map_to_list demo_hmac demo_parse
    [Deliver (demo_delivery "upgrade"); SuspendRun 10 0 1; Override 7 (Some 1) None 1] (demo_billing [])).
Proof.
  apply (plan_quotas_invariant map_to_list demo_hmac demo_parse); [by repeat constructor|apply demo_ready|].
  intros t r Hr. change (({[7 := demo_row]} : gmap Z TenantRow) !! t = Some r) in Hr.
  apply lookup_singleton_Some in Hr as [_ <-]. exists free_plan. split; [left|done].
Defined.

Definition late_row : TenantRow :=
  mkTenant None None None (Some (str "cus")) None (Some (str "past_due")) (Some 0).
Definition late_billing : BillingDb :=
  mkBilling true [free_plan] {[7 := late_row; 8 := demo_row]} ∅ [] [].
Lemma suspension_exact_witness :
  exists ts d', suspend_past_due_tenants map_to_list 864000000000 7 0 late_billing = (Ok ts, d') /\
    7 ∈ ts /\ 8 ∉ ts /\ (check_tenant_not_suspended 7 d').1 = Err Suspended.
Proof.
  assert (Hr : ready late_billing) by (constructor; [done|done|apply NoDup_singleton]).
  destruct (suspension_exact map_to_list (λ m, Permutation_refl _) 864000000000 7 0 late_billing Hr eq_refl)
    as (ts & d' & He & _ & Hts & _ & _ & _ & Hg).
  assert (7 ∈ ts) by (apply Hts; exists late_row; split; [by vm_compute|by vm_compute]).
  exists ts, d'. split_and!; [done|done| |auto].
  intros Hin. apply Hts in Hin as (r & Hr8 & Hpd). vm_compute in Hr8. injection Hr8 as <-. by vm_compute in Hpd.
Defined.
