(* ===== verification/Guards.v ===== *)
(** * Guards of the upload and fetch boundary (extract/src/security.rs)

    Path, size and MIME checks of an upload, magic-byte detection, and the
    classification of hosts and addresses as internal.  Addresses are parsed
    as [std::net] does.  The detector of [tree_magic_mini] is a parameter, and
    so are the Unicode case tables. *)

From stdpp Require Import base list strings.
From Stdlib Require Import ZArith Lia Strings.Byte.
From S2P Require Import Prelude Text Blob.
Open Scope Z_scope.

(** ** Limits and lists *)

Definition MAX_INDIVIDUAL_FILE_BYTES : Z := 500 * 1024 * 1024.
Definition MAX_ARCHIVE_ENTRIES : Z := 10000.
Definition MAX_ARCHIVE_ENTRY_BYTES : Z := 4 * 1024 * 1024.
Definition MAX_ARCHIVE_TOTAL_UNCOMPRESSED_BYTES : Z := 64 * 1024 * 1024.
Definition MAX_ARCHIVE_COMPRESSION_RATIO : Z := 200.

Definition ALLOWED_MIMES : list string :=
  ["text/plain"; "text/markdown"; "text/html"; "text/csv"; "text/xml"; "text/css";
   "text/javascript"; "text/x-python"; "text/x-python3"; "text/x-rust"; "text/x-c";
   "text/x-c++"; "text/x-csrc"; "text/x-modelica"; "text/x-java"; "text/x-go"; "text/x-sh";
   "text/x-yaml"; "text/x-toml"; "text/x-log"; "application/json"; "application/xml";
   "application/pdf"; "application/msword";
   "application/vnd.openxmlformats-officedocument.wordprocessingml.document";
   "application/vnd.openxmlformats-officedocument.spreadsheetml.sheet";
   "application/vnd.openxmlformats-officedocument.presentationml.presentation";
   "application/vnd.oasis.opendocument.text"; "application/rtf"; "image/jpeg"; "image/png";
   "image/gif"; "image/webp"; "image/tiff"; "audio/mpeg"; "audio/wav"; "audio/wave";
   "audio/ogg"; "audio/x-opus+ogg"; "audio/flac"; "audio/mp4"; "audio/x-wav"; "video/mp4";
   "video/x-matroska"; "application/x-matroska"; "video/webm"; "video/ogg"; "video/quicktime";
   "video/x-msvideo"; "application/zip"; "application/x-tar"; "application/gzip";
   "application/x-bzip2"; "application/x-xz"; "application/zstd";
   "application/x-7z-compressed"; "message/rfc822"].

Definition DENIED_MIMES : list string :=
  ["application/x-msdownload"; "application/x-dosexec"; "application/x-executable";
   "application/x-sharedlib"; "application/x-mach-binary"; "application/java-archive";
   "application/x-iso9660-image"; "application/x-raw-disk-image"].

Inductive UploadRejected :=
| TooLarge (size max : Z)
| UnsafePath (path : chars)
| DisallowedMime (mime : chars).

(** ** Paths *)

Definition all_dots (s : chars) : bool := forallb (Z.eqb 46) s.
Definition bad_component (component : chars) : bool :=
  bool_decide (component = str "..") || bool_decide (component = str "...")
  || ((2 <=? str_len component)%nat && all_dots component
      && (2 <=? length (filter (λ c : Z, c = 46%Z) component))%nat).

Definition is_safe_path (path : chars) : bool :=
  match path with
  | [] => true
  | _ =>
      if contains_char 0 path then false
      else if starts_with (str "/") path || starts_with (str "\") path then false
      else if existsb bad_component (split_char 47 path) then false
      else negb (contains_char 92 path)
  end.

Definition validate_file_path (file_name : chars) : result unit UploadRejected :=
  if is_safe_path file_name then Ok tt else Err (UnsafePath file_name).

Definition validate_file_size (size max_size : Z) : result unit UploadRejected :=
  if max_size <? size then Err (TooLarge size max_size) else Ok tt.

(** ** MIME types *)

Definition listed_mime (mime : chars) (l : list string) : bool :=
  existsb (λ m, bool_decide (str m = mime)) l.
Definition is_allowed_mime (mime : chars) (allowed : list string) : bool :=
  if listed_mime mime DENIED_MIMES then false
  else if starts_with (str "text/x-") mime then true
  else listed_mime mime allowed.
Definition validate_mime (mime : chars) : result unit UploadRejected :=
  if is_allowed_mime mime ALLOWED_MIMES then Ok tt else Err (DisallowedMime mime).

(** ** Magic bytes *)

Definition lit (s : string) : list byte := str_bytes (str s).

(** [<[u8]>::starts_with] and [&bytes[a..b] == lit] under its length guard. *)
Definition has_prefix (p b : list byte) : bool := bool_decide (take (length p) b = p).
Definition has_at (off : nat) (p b : list byte) : bool := has_prefix p (drop off b).

Fixpoint any_window (needle b : list byte) : bool :=
  has_prefix needle b || match b with [] => false | _ :: b' => any_window needle b' end.
Definition contains_subslice (haystack needle : list byte) : bool :=
  if (length needle =? 0)%nat || (length haystack <? length needle)%nat then false
  else any_window needle haystack.

Definition OOXML : string := "application/vnd.openxmlformats-officedocument.".
Definition ZIP_SCAN_LIMIT : nat := Z.to_nat (64 * 1024).
Definition classify_zip_container (bytes : list byte) : chars :=
  let window := take ZIP_SCAN_LIMIT bytes in
  if contains_subslice window (lit "[Content_Types].xml") then
    if contains_subslice window (lit "word/") then str (OOXML +:+ "wordprocessingml.document")
    else if contains_subslice window (lit "xl/") then str (OOXML +:+ "spreadsheetml.sheet")
    else if contains_subslice window (lit "ppt/") then str (OOXML +:+ "presentationml.presentation")
    else str (OOXML +:+ "wordprocessingml.document")
  else if contains_subslice window (lit "META-INF/MANIFEST.MF") then str "application/java-archive"
  else str "application/zip".

Definition PK34 : list byte := [x50; x4b; x03; x04].
Definition normalize_octet_stream_magic (bytes : list byte) : chars :=
  let long := (12 <=? length bytes)%nat in
  if has_prefix PK34 bytes then str "application/zip"
  else if long && has_at 0 (lit "RIFF") bytes && has_at 8 (lit "WAVE") bytes then str "audio/wav"
  else if long && has_at 0 (lit "RIFF") bytes && has_at 8 (lit "WEBP") bytes then str "image/webp"
  else if long && has_at 4 (lit "ftyp") bytes then
    let brand := take 4 (drop 8 bytes) in
    let br b := bool_decide (brand = lit b) in
    if br "qt  " then str "video/quicktime"
    else if br "heic" || br "heix" || br "heim" || br "heis" || br "heif" then str "image/heic"
    else if br "mif1" || br "msf1" || br "avif" then str "image/avif"
    else if has_prefix (lit "3gp") brand then str "video/3gpp"
    else str "video/mp4"
  else str "application/octet-stream".

(** [str::lines]: split at newlines, a carriage return before one dropped, a
    last empty line not counted. *)
Definition drop_cr (l : chars) : chars :=
  match reverse l with 13 :: r => reverse r | _ => l end.
Definition drop_last_empty (ls : list chars) : list chars :=
  match reverse ls with [] :: r => reverse r | _ => ls end.
Definition lines (text : chars) : list chars := drop_cr <$> drop_last_empty (split_char 10 text).

Definition email_headers : list string :=
  ["From:"; "To:"; "Cc:"; "Bcc:"; "Subject:"; "Date:"; "MIME-Version:"; "Message-ID:"; "Message-Id:";
   "Received:"; "Return-Path:"; "Delivered-To:"; "Reply-To:"; "Content-Type:";
   "Content-Transfer-Encoding:"; "In-Reply-To:"].

(** The loop stops at the second header found. *)
Fixpoint count_headers (text : chars) (found : nat) (hs : list string) : bool :=
  match hs with
  | [] => false
  | h :: hs' =>
      if existsb (starts_with (str h)) (lines text)
      then if (2 <=? S found)%nat then true else count_headers text (S found) hs'
      else count_headers text found hs'
  end.
Definition EMAIL_SCAN_LIMIT : nat := 1024.
Definition looks_like_email (bytes : list byte) : bool :=
  match bytes_str (take EMAIL_SCAN_LIMIT bytes) with
  | Some text => count_headers text 0 email_headers
  | None => false
  end.

Section Detection.
Context (tree_magic : list byte -> chars).

Definition detect_upload_mime (bytes : list byte) : chars :=
  match bytes with
  | [] => str "application/x-empty"
  | _ =>
      let detected := tree_magic bytes in
      let mime := if bool_decide (detected = str "application/octet-stream")
                     || bool_decide (detected = str "application/x-riff")
                  then normalize_octet_stream_magic bytes else detected in
      if bool_decide (mime = str "application/zip") then classify_zip_container bytes
      else if bool_decide (mime = str "text/plain") && looks_like_email bytes then str "message/rfc822"
      else mime
  end.

Definition validate_upload (bytes : list byte) (file_path : option chars) (max_file_bytes : Z)
    : result unit UploadRejected :=
  let? _ := validate_file_size (Z.of_nat (length bytes)) max_file_bytes in
  let? _ := match file_path with Some p => validate_file_path p | None => Ok tt end in
  validate_mime (detect_upload_mime bytes).
End Detection.

(** ** Addresses *)

Inductive IpAddr :=
| V4 (a b c d : Z)
| V6 (segments : list Z).
#[global] Instance ip_addr_eq_dec : EqDecision IpAddr. Proof. solve_decision. Defined.

(** [Ipv6Addr::to_ipv4_mapped]: [::ffff:a.b.c.d]. *)
Definition to_ipv4_mapped (s : list Z) : option IpAddr :=
  match s with
  | [s0; s1; s2; s3; s4; s5; ab; cd] =>
      if (s0 =? 0) && (s1 =? 0) && (s2 =? 0) && (s3 =? 0) && (s4 =? 0) && (s5 =? 65535)
      then Some (V4 (ab / 256) (ab mod 256) (cd / 256) (cd mod 256)) else None
  | _ => None
  end.

Definition v4_is_loopback (a b c d : Z) : bool := a =? 127.
Definition v4_is_private (a b c d : Z) : bool :=
  (a =? 10) || ((a =? 172) && (16 <=? b) && (b <=? 31)) || ((a =? 192) && (b =? 168)).
Definition v4_is_link_local (a b c d : Z) : bool := (a =? 169) && (b =? 254).
Definition v4_is_unspecified (a b c d : Z) : bool := (a =? 0) && (b =? 0) && (c =? 0) && (d =? 0).
Definition v4_is_broadcast (a b c d : Z) : bool := (a =? 255) && (b =? 255) && (c =? 255) && (d =? 255).

Definition is_ipv6_unique_local (s : list Z) : bool := Z.land (nth 0 s 0) 65024 =? 64512.
Definition is_ipv6_link_local (s : list Z) : bool := Z.land (nth 0 s 0) 65472 =? 65152.

Definition is_internal_ip (ip : IpAddr) : bool :=
  let ip := match ip with
            | V6 s => default (V6 s) (to_ipv4_mapped s)
            | V4 _ _ _ _ => ip
            end in
  match ip with
  | V4 a b c d =>
      v4_is_loopback a b c d || v4_is_private a b c d || v4_is_link_local a b c d
      || v4_is_unspecified a b c d || v4_is_broadcast a b c d
  | V6 s =>
      bool_decide (s = [0; 0; 0; 0; 0; 0; 0; 1]) || bool_decide (s = [0; 0; 0; 0; 0; 0; 0; 0])
      || is_ipv6_unique_local s || is_ipv6_link_local s
  end.

(** *** The parser of [std::net]

    A reader takes the rest of the text and gives a value and what is left;
    on failure nothing is consumed ([read_atomically]). *)

Definition reader (A : Type) : Type := chars -> option (A * chars).

(** [char::to_digit]. *)
Definition to_digit (radix c : Z) : option Z :=
  let v := if is_ascii_digit c then c - 48
           else if is_ascii_lower c then c - 87
           else if is_ascii_upper c then c - 55
           else radix in
  if v <? radix then Some v else None.

(** The digits at the front: too many, or a value over [max], is a failure. *)
Fixpoint read_digits (radix max : Z) (max_digits count : nat) (acc : Z) (s : chars)
    : option (Z * nat * chars) :=
  match s with
  | [] => Some (acc, count, [])
  | c :: s' =>
      match to_digit radix c with
      | None => Some (acc, count, s)
      | Some v =>
          if (max_digits <? S count)%nat then None
          else if max <? acc * radix + v then None
          else read_digits radix max max_digits (S count) (acc * radix + v) s'
      end
  end.
Definition read_number (radix max : Z) (max_digits : nat) (allow_zero_prefix : bool) : reader Z := λ s,
  match read_digits radix max max_digits 0 0 s with
  | None => None
  | Some (v, count, rest) =>
      let leading_zero := match s with c :: _ => c =? 48 | [] => false end in
      if (count =? 0)%nat then None
      else if negb allow_zero_prefix && leading_zero && (1 <? count)%nat then None
      else Some (v, rest)
  end.
Definition read_given_char (c : Z) : reader unit := λ s,
  match s with d :: s' => if d =? c then Some (tt, s') else None | [] => None end.

(** [read_separator(sep, index, inner)]. *)
Definition read_separator {A} (sep : Z) (index : nat) (inner : reader A) : reader A := λ s,
  match index with
  | O => inner s
  | S _ => match read_given_char sep s with Some (_, s') => inner s' | None => None end
  end.

Definition read_octet (i : nat) : reader Z := read_separator 46 i (read_number 10 255 3 false).
Definition read_ipv4_addr : reader (Z * Z * Z * Z) := λ s,
  '(a, s) ← read_octet 0 s; '(b, s) ← read_octet 1 s; '(c, s) ← read_octet 2 s; '(d, s) ← read_octet 3 s;
  Some ((a, b, c, d), s).

(** [read_groups]: the groups read, whether an IPv4 tail ended them, and the
    rest; [limit] groups fit. *)
Fixpoint read_groups (fuel limit i : nat) (s : chars) : list Z * bool * chars :=
  match fuel with
  | O => ([], false, s)
  | S fuel =>
      let v4 := if (i <? limit - 1)%nat then read_separator 58 i read_ipv4_addr s else None in
      match v4 with
      | Some ((a, b, c, d), s') => ([a * 256 + b; c * 256 + d], true, s')
      | None =>
          match read_separator 58 i (read_number 16 65535 4 true) s with
          | Some (g, s') =>
              let '(gs, four, s'') := read_groups fuel limit (S i) s' in (g :: gs, four, s'')
          | None => ([], false, s)
          end
      end
  end.
Definition read_ipv6_addr : reader (list Z) := λ s,
  let '(head, head_ipv4, s1) := read_groups 8 8 0 s in
  if (length head =? 8)%nat then Some (head, s1)
  else if (head_ipv4 : bool) then None
  else
    '(_, s2) ← read_given_char 58 s1;
    '(_, s3) ← read_given_char 58 s2;
    let limit := (8 - (length head + 1))%nat in
    let '(tail, _, s4) := read_groups limit limit 0 s3 in
    Some (head ++ replicate (8 - length head - length tail) 0 ++ tail, s4).

(** [host.parse::<IpAddr>()]: all of the text must be read. *)
Definition parse_ip (s : chars) : option IpAddr :=
  match read_ipv4_addr s with
  | Some ((a, b, c, d), rest) => if (length rest =? 0)%nat then Some (V4 a b c d) else None
  | None =>
      match read_ipv6_addr s with
      | Some (gs, rest) => if (length rest =? 0)%nat then Some (V6 gs) else None
      | None => None
      end
  end.

(** ** Hosts and URLs *)

Section Hosts.
Context `{Unicode}.

Definition is_internal_host (host : chars) : bool :=
  match parse_ip host with
  | Some ip => is_internal_ip ip
  | None =>
      let lower := to_lowercase host in
      bool_decide (lower = str "localhost") || ends_with (str ".local") lower
      || ends_with (str ".internal") lower || ends_with (str ".localhost") lower
  end.

Definition not_empty (host : chars) : option chars := match host with [] => None | _ => Some host end.
Definition extract_url_host (raw : chars) : option chars :=
  let after_scheme := match strip_prefix (str "https://") raw with
                      | Some r => r
                      | None => default raw (strip_prefix (str "http://") raw)
                      end in
  host_port ← head (split_char 47 after_scheme);
  host_port ← last (split_char 64 host_port);
  match strip_prefix (str "[") host_port with
  | Some rest => head (split_char 93 rest) ≫= not_empty
  | None => head (split_char 58 host_port) ≫= not_empty
  end.
Definition is_safe_target_url (url : chars) : bool :=
  match extract_url_host url with Some h => negb (is_internal_host h) | None => false end.
End Hosts.

(** ** Internal addresses as blocks *)

(** [base/len] among addresses of [bits] bits. *)
Definition in_block (bits n : Z) (block : Z * Z) : Prop :=
  n / 2 ^ (bits - block.2) = block.1 / 2 ^ (bits - block.2).
Definition v4_num (a b c d : Z) : Z := ((a * 256 + b) * 256 + c) * 256 + d.
Definition v6_num (s : list Z) : Z := foldl (λ n x, n * 65536 + x) 0 s.

(** 127.0.0.0/8, 10.0.0.0/8, 172.16.0.0/12, 192.168.0.0/16, 169.254.0.0/16,
    0.0.0.0/32, 255.255.255.255/32. *)
Definition internal_v4_blocks : list (Z * Z) :=
  [(v4_num 127 0 0 0, 8); (v4_num 10 0 0 0, 8); (v4_num 172 16 0 0, 12); (v4_num 192 168 0 0, 16);
   (v4_num 169 254 0 0, 16); (0, 32); (v4_num 255 255 255 255, 32)].
(** ::1/128, ::/128, fc00::/7, fe80::/10. *)
Definition internal_v6_blocks : list (Z * Z) := [(1, 128); (0, 128); (252 * 2 ^ 120, 7); (65152 * 2 ^ 112, 10)].

Definition internal_v4 (n : Z) : Prop := Exists (in_block 32 n) internal_v4_blocks.
Definition internal_v6 (n : Z) : Prop :=
  if n / 2 ^ 32 =? 65535 then internal_v4 (n mod 2 ^ 32) else Exists (in_block 128 n) internal_v6_blocks.
Definition internal_block (ip : IpAddr) : Prop :=
  match ip with V4 a b c d => internal_v4 (v4_num a b c d) | V6 s => internal_v6 (v6_num s) end.

Definition octet (z : Z) : Prop := 0 <= z < 256.
Definition segment (z : Z) : Prop := 0 <= z < 65536.
Definition ip_ok (ip : IpAddr) : Prop :=
  match ip with V4 a b c d => octet a ∧ octet b ∧ octet c ∧ octet d | V6 s => length s = 8%nat ∧ Forall segment s end.

Lemma v4_num_div a b c d : octet b -> octet c -> octet d ->
  v4_num a b c d / 2 ^ 24 = a ∧ v4_num a b c d / 2 ^ 20 = a * 16 + b / 16 ∧ v4_num a b c d / 2 ^ 16 = a * 256 + b.
Proof.
  unfold octet, v4_num. intros Hb Hc Hd.
  assert (E : ((a * 256 + b) * 256 + c) * 256 + d = (a * 256 + b) * 2 ^ 16 + (c * 256 + d)) by lia.
  assert (((a * 256 + b) * 256 + c) * 256 + d = a * 2 ^ 24 + (b * 65536 + c * 256 + d)) as E1 by lia.
  split_and!.
  - symmetry. apply (Z.div_unique_pos _ _ _ (b * 65536 + c * 256 + d)); lia.
  - symmetry. pose proof (Z.div_mod b 16). pose proof (Z.mod_pos_bound b 16).
    apply (Z.div_unique_pos _ _ _ (b mod 16 * 65536 + c * 256 + d)); lia.
  - symmetry. apply (Z.div_unique_pos _ _ _ (c * 256 + d)); lia.
Qed.

Lemma internal_v4_spec a b c d : octet a -> octet b -> octet c -> octet d ->
  is_internal_ip (V4 a b c d) = true <-> internal_v4 (v4_num a b c d).
Proof.
  intros Ha Hb Hc Hd. destruct (v4_num_div a b c d Hb Hc Hd) as (H24 & H20 & H16).
  unfold internal_v4, internal_v4_blocks. rewrite !Exists_cons, Exists_nil. unfold in_block.
  cbn [fst snd]. change (32 - 8) with 24. change (32 - 12) with 20. change (32 - 16) with 16. change (32 - 32) with 0.
  rewrite H24, H20, H16, !Z.div_1_r. unfold octet in *.
  pose proof (Z.div_mod b 16 ltac:(lia)). pose proof (Z.mod_pos_bound b 16 ltac:(lia)).
  unfold is_internal_ip, v4_is_loopback, v4_is_private, v4_is_link_local, v4_is_unspecified, v4_is_broadcast.
  rewrite !orb_true_iff, !andb_true_iff, !Z.eqb_eq, !Z.leb_le. unfold v4_num.
  change ((((127 * 256 + 0) * 256 + 0) * 256 + 0) / 2 ^ 24) with 127.
  change ((((10 * 256 + 0) * 256 + 0) * 256 + 0) / 2 ^ 24) with 10.
  change ((((172 * 256 + 16) * 256 + 0) * 256 + 0) / 2 ^ 20) with 2753.
  change ((((192 * 256 + 168) * 256 + 0) * 256 + 0) / 2 ^ 16) with 49320.
  change ((((169 * 256 + 254) * 256 + 0) * 256 + 0) / 2 ^ 16) with 43518.
  assert (a * 16 + b / 16 = 2753 <-> a = 172 ∧ 16 <= b <= 31) as -> by lia.
  assert (a * 256 + b = 49320 <-> a = 192 ∧ b = 168) as -> by lia.
  assert (a * 256 + b = 43518 <-> a = 169 ∧ b = 254) as -> by lia.
  assert (((a * 256 + b) * 256 + c) * 256 + d = 0 <-> a = 0 ∧ b = 0 ∧ c = 0 ∧ d = 0) as -> by lia.
  assert (((a * 256 + b) * 256 + c) * 256 + d = ((255 * 256 + 255) * 256 + 255) * 256 + 255
          <-> a = 255 ∧ b = 255 ∧ c = 255 ∧ d = 255) as -> by lia.
  tauto.
Qed.

(** A mask that clears the low [n] of 16 bits. *)
Lemma segment_mask x n : segment x -> 0 <= n ->
  Z.land x (Z.land 65535 (Z.lnot (Z.ones n))) = x / 2 ^ n * 2 ^ n.
Proof.
  intros Hx Hn. rewrite Z.land_assoc. change 65535 with (Z.ones 16).
  rewrite Z.land_ones, Z.mod_small by (unfold segment in Hx; lia).
  rewrite <- Z.ldiff_land, Z.ldiff_ones_r, Z.shiftl_mul_pow2, Z.shiftr_div_pow2 by lia. done.
Qed.

Lemma unique_local_spec x : segment x -> Z.land x 65024 = 64512 <-> x / 512 = 126.
Proof.
  intros Hx. assert (Z.land x 65024 = x / 512 * 512) as -> by apply (segment_mask x 9 Hx ltac:(lia)). lia.
Qed.
Lemma link_local_spec x : segment x -> Z.land x 65472 = 65152 <-> x / 64 = 1018.
Proof.
  intros Hx. assert (Z.land x 65472 = x / 64 * 64) as -> by apply (segment_mask x 6 Hx ltac:(lia)). lia.
Qed.

Lemma div_div_pow n a b : 0 <= a -> 0 <= b -> n / 2 ^ (a + b) = n / 2 ^ a / 2 ^ b.
Proof. intros. rewrite Z.pow_add_r, Z.div_div by lia. done. Qed.

(** The first segment is what is left after 112 bits. *)
Lemma v6_num_first s0 s : length s = 7%nat -> Forall segment s -> v6_num (s0 :: s) / 2 ^ 112 = s0.
Proof.
  intros Hl Hs. destruct s as [|a [|b [|c [|d [|e [|f [|g [|]]]]]]]]; simplify_eq/=.
  repeat match goal with H : Forall _ (_ :: _) |- _ => apply Forall_cons in H as [? H] end. unfold segment in *.
  unfold v6_num. simpl. symmetry.
  apply (Z.div_unique_pos _ _ _ ((((((a * 65536 + b) * 65536 + c) * 65536 + d) * 65536 + e) * 65536 + f) * 65536 + g)); lia.
Qed.

Lemma v6_num_mapped s0 s1 s2 s3 s4 s5 ab cd : Forall segment [s0; s1; s2; s3; s4; s5; ab; cd] ->
  v6_num [s0; s1; s2; s3; s4; s5; ab; cd] / 2 ^ 32 = ((((s0 * 65536 + s1) * 65536 + s2) * 65536 + s3) * 65536 + s4) * 65536 + s5
  ∧ v6_num [s0; s1; s2; s3; s4; s5; ab; cd] mod 2 ^ 32 = ab * 65536 + cd.
Proof.
  intros Hs. repeat match goal with H : Forall _ (_ :: _) |- _ => apply Forall_cons in H as [? H] end. unfold segment in *.
  unfold v6_num. simpl. split.
  - symmetry. apply (Z.div_unique_pos _ _ _ (ab * 65536 + cd)); lia.
  - symmetry. apply (Z.mod_unique_pos _ _ (((((s0 * 65536 + s1) * 65536 + s2) * 65536 + s3) * 65536 + s4) * 65536 + s5)); lia.
Qed.

Lemma v6_num_inj s s' : length s = length s' -> Forall segment s -> Forall segment s' -> v6_num s = v6_num s' -> s = s'.
Proof.
  unfold v6_num. revert s'. induction s as [|x s IH] using rev_ind; intros s' Hl Hs Hs' E.
  - by destruct s'.
  - destruct s' as [|x' s' _] using rev_ind; [rewrite length_app in Hl; simpl in Hl; lia|].
    rewrite !foldl_snoc in E. apply Forall_app in Hs as [Hs [Hx _]%Forall_cons]. apply Forall_app in Hs' as [Hs' [Hx' _]%Forall_cons].
    unfold segment in Hx, Hx'. assert (x = x') as -> by lia. f_equal. rewrite !length_app in Hl. simpl in Hl.
    apply IH; [lia|done|done|lia].
Qed.

Lemma mapped_spec s0 s1 s2 s3 s4 s5 : Forall segment [s0; s1; s2; s3; s4; s5] ->
  (s0 =? 0) && (s1 =? 0) && (s2 =? 0) && (s3 =? 0) && (s4 =? 0) && (s5 =? 65535)
  = (((((s0 * 65536 + s1) * 65536 + s2) * 65536 + s3) * 65536 + s4) * 65536 + s5 =? 65535).
Proof.
  intros Hs. repeat match goal with H : Forall _ (_ :: _) |- _ => apply Forall_cons in H as [? H] end. unfold segment in *.
  apply eq_bool_prop_intro. rewrite !andb_True, !Is_true_true, !Z.eqb_eq. lia.
Qed.

Lemma internal_v6_blocks_spec s0 s : length s = 7%nat -> Forall segment (s0 :: s) ->
  Exists (in_block 128 (v6_num (s0 :: s))) internal_v6_blocks
  <-> s0 :: s = [0; 0; 0; 0; 0; 0; 0; 1] ∨ s0 :: s = [0; 0; 0; 0; 0; 0; 0; 0] ∨ s0 / 512 = 126 ∨ s0 / 64 = 1018.
Proof.
  intros Hl Hs. pose proof Hs as [Hx Ht]%Forall_cons. pose proof (v6_num_first s0 s Hl Ht) as Hf.
  unfold internal_v6_blocks. rewrite !Exists_cons, Exists_nil. unfold in_block. cbn [fst snd].
  change (128 - 128) with 0. change (128 - 7) with (112 + 9). change (128 - 10) with (112 + 6).
  rewrite !div_div_pow, Hf, !Z.div_1_r by lia.
  change (252 * 2 ^ 120 / 2 ^ 112 / 2 ^ 9) with 126. change (65152 * 2 ^ 112 / 2 ^ 112 / 2 ^ 6) with 1018.
  change (2 ^ 9) with 512. change (2 ^ 6) with 64.
  assert (forall l, length l = 8%nat -> Forall segment l -> v6_num (s0 :: s) = v6_num l <-> s0 :: s = l) as Hinj.
  { intros l Hll Hls. split; [|by intros ->]. apply v6_num_inj; simpl; [lia|done|done]. }
  rewrite <- (Hinj [0; 0; 0; 0; 0; 0; 0; 1]), <- (Hinj [0; 0; 0; 0; 0; 0; 0; 0]);
    [|done|by repeat constructor|done|by repeat constructor].
  change (v6_num [0; 0; 0; 0; 0; 0; 0; 1]) with 1. change (v6_num [0; 0; 0; 0; 0; 0; 0; 0]) with 0. tauto.
Qed.

Lemma internal_v6_spec s : length s = 8%nat -> Forall segment s ->
  is_internal_ip (V6 s) = true <-> internal_v6 (v6_num s).
Proof.
  intros Hl Hs. destruct s as [|s0 [|s1 [|s2 [|s3 [|s4 [|s5 [|ab [|cd [|]]]]]]]]]; try done.
  pose proof (v6_num_mapped _ _ _ _ _ _ _ _ Hs) as [Hq Hr]. unfold internal_v6. rewrite Hq, Hr.
  pose proof Hs as Hs'. change [s0; s1; s2; s3; s4; s5; ab; cd] with ([s0; s1; s2; s3; s4; s5] ++ [ab; cd]) in Hs'.
  apply Forall_app in Hs' as [Hfront [Hab [Hcd _]%Forall_cons]%Forall_cons]. unfold is_internal_ip, to_ipv4_mapped.
  rewrite mapped_spec by done. destruct (_ =? 65535).
  - cbn [default from_option id].
    pose proof (Z.div_mod ab 256 ltac:(lia)). pose proof (Z.mod_pos_bound ab 256 ltac:(lia)).
    pose proof (Z.div_mod cd 256 ltac:(lia)). pose proof (Z.mod_pos_bound cd 256 ltac:(lia)). unfold segment in *.
    etrans; [apply (internal_v4_spec (ab / 256) (ab mod 256) (cd / 256) (cd mod 256)); unfold octet; lia|].
    assert (v4_num (ab / 256) (ab mod 256) (cd / 256) (cd mod 256) = ab * 65536 + cd) as -> by (unfold v4_num; lia). done.
  - cbn [default from_option id]. rewrite internal_v6_blocks_spec by done.
    rewrite <- unique_local_spec, <- link_local_spec by by apply Forall_cons in Hs as [].
    unfold is_ipv6_unique_local, is_ipv6_link_local. cbn [nth].
    rewrite !orb_true_iff, !bool_decide_eq_true, !Z.eqb_eq. tauto.
Qed.

Lemma internal_ip_spec ip : ip_ok ip -> is_internal_ip ip = true <-> internal_block ip.
Proof.
  destruct ip as [a b c d|s]; simpl.
  - intros (? & ? & ? & ?). by apply internal_v4_spec.
  - intros [? ?]. by apply internal_v6_spec.
Qed.

(** ** What the parser accepts *)

Lemma to_digit_range radix c v : to_digit radix c = Some v -> 0 <= v < radix.
Proof.
  unfold to_digit. destruct (_ <? radix) eqn:Hlt; [|done]. intros; simplify_eq. bool_to_prop. split; [|done].
  unfold is_ascii_digit, is_ascii_lower, is_ascii_upper in *.
  repeat match goal with |- context [if ?b then _ else _] => destruct b eqn:? end; bool_to_prop; try lia.
Qed.

Lemma read_digits_range radix max md s : forall count acc v n rest, 0 <= acc <= max -> 0 < radix ->
  read_digits radix max md count acc s = Some (v, n, rest) -> 0 <= v <= max.
Proof.
  induction s as [|c s IH]; intros count acc v n rest Hacc Hr; simpl; [by intros; simplify_eq|].
  destruct (to_digit radix c) as [w|] eqn:Hd; [|by intros; simplify_eq].
  apply to_digit_range in Hd. destruct (_ <? _)%nat; [done|]. destruct (max <? _) eqn:Hm; [done|].
  bool_to_prop. intros E. eapply IH; [| |exact E]; nia.
Qed.

Lemma read_number_range radix max md z s v rest : 0 <= max -> 0 < radix ->
  read_number radix max md z s = Some (v, rest) -> 0 <= v <= max.
Proof.
  unfold read_number. intros Hm Hr. destruct (read_digits _ _ _ _ _ _) as [[[w n] r]|] eqn:E; [|done].
  destruct (n =? 0)%nat; [done|]. destruct (_ && _); [done|]. intros; simplify_eq.
  eapply read_digits_range; [| |exact E]; lia.
Qed.

Lemma read_separator_inner {A} sep i (inner : reader A) s x :
  read_separator sep i inner s = Some x -> exists s', inner s' = Some x.
Proof. destruct i; simpl; [eauto|]. destruct (read_given_char _ _) as [[]|]; [eauto|done]. Qed.

Lemma read_octet_range i s v rest : read_octet i s = Some (v, rest) -> octet v.
Proof.
  intros [s' E]%read_separator_inner. apply read_number_range in E; [|lia..]. unfold octet. lia.
Qed.

Lemma read_ipv4_ok s a b c d rest : read_ipv4_addr s = Some ((a, b, c, d), rest) -> octet a ∧ octet b ∧ octet c ∧ octet d.
Proof.
  unfold read_ipv4_addr. intros E.
  apply bind_Some in E as ([a' ?] & Ea & E). apply bind_Some in E as ([b' ?] & Eb & E).
  apply bind_Some in E as ([c' ?] & Ec & E). apply bind_Some in E as ([d' ?] & Ed & E). simplify_eq.
  split_and!; by eapply read_octet_range.
Qed.

Lemma read_groups_ok fuel limit i s gs four rest : fuel = (limit - i)%nat ->
  read_groups fuel limit i s = (gs, four, rest) -> (length gs <= fuel)%nat ∧ Forall segment gs.
Proof.
  revert i s gs four rest. induction fuel as [|fuel IH]; intros i s gs four rest Hf; cbn [read_groups].
  { intros; simplify_eq. split; [done|constructor]. }
  destruct (if (i <? limit - 1)%nat then _ else None) as [[[[[a b] c] d] s']|] eqn:Hv4.
  - intros; simplify_eq. destruct (i <? limit - 1)%nat eqn:Hi; [|done]. apply Nat.ltb_lt in Hi.
    apply read_separator_inner in Hv4 as [s'' E]. apply read_ipv4_ok in E as (? & ? & ? & ?).
    unfold octet, segment in *. split; [simpl; lia|repeat constructor; lia].
  - destruct (read_separator 58 i (read_number _ _ _ _) s) as [[g s']|] eqn:Hg;
      [|intros; simplify_eq; split; [apply Nat.le_0_l|constructor]].
    destruct (read_groups fuel limit (S i) s') as [[gs' four'] s''] eqn:Hrec. intros; simplify_eq.
    apply IH in Hrec as [Hl Hs]; [|lia]. apply read_separator_inner in Hg as [t E].
    apply read_number_range in E; [|lia..]. split; [simpl; lia|constructor; [unfold segment; lia|done]].
Qed.

Lemma read_ipv6_ok s gs rest : read_ipv6_addr s = Some (gs, rest) -> length gs = 8%nat ∧ Forall segment gs.
Proof.
  unfold read_ipv6_addr. destruct (read_groups 8 8 0 s) as [[head four] s1] eqn:Hh.
  apply read_groups_ok in Hh as [Hl Hs]; [|done]. destruct (length head =? 8)%nat eqn:E8.
  { intros; simplify_eq. apply Nat.eqb_eq in E8. done. }
  apply Nat.eqb_neq in E8. destruct four; [done|]. intros E.
  apply bind_Some in E as ([? s2] & _ & E). apply bind_Some in E as ([? s3] & _ & E).
  destruct (read_groups _ _ 0 s3) as [[tail ?] s4] eqn:Ht. apply read_groups_ok in Ht as [Htl Hts]; [|lia]. simplify_eq.
  split.
  - rewrite !length_app, length_replicate. lia.
  - apply Forall_app. split; [done|]. apply Forall_app. split; [|done]. apply Forall_replicate. unfold segment. lia.
Qed.

Lemma parse_ip_ok s ip : parse_ip s = Some ip -> ip_ok ip.
Proof.
  unfold parse_ip. destruct (read_ipv4_addr s) as [[[[[a b] c] d] rest]|] eqn:E4.
  - apply read_ipv4_ok in E4. destruct (_ =? 0)%nat; intros; simplify_eq. done.
  - destruct (read_ipv6_addr s) as [[gs rest]|] eqn:E6; [|done]. apply read_ipv6_ok in E6.
    destruct (_ =? 0)%nat; intros; simplify_eq. done.
Qed.

(** Decimal text of an octet, and dotted text of an address. *)
Definition show_octet (n : Z) : chars :=
  if n <? 10 then [48 + n]
  else if n <? 100 then [48 + n / 10; 48 + n mod 10]
  else [48 + n / 100; 48 + n / 10 mod 10; 48 + n mod 10].
Definition show_v4 (a b c d : Z) : chars :=
  show_octet a ++ 46 :: show_octet b ++ 46 :: show_octet c ++ 46 :: show_octet d.

Definition no_digit (s : chars) : Prop := match s with [] => True | c :: _ => to_digit 10 c = None end.

Lemma to_digit_dec k : 0 <= k < 10 -> to_digit 10 (48 + k) = Some k.
Proof.
  intros Hk. unfold to_digit, is_ascii_digit. rewrite (proj2 (Z.leb_le _ _)), (proj2 (Z.leb_le _ _)) by lia.
  simpl. rewrite (proj2 (Z.ltb_lt _ _)) by lia. f_equal. lia.
Qed.

Lemma read_digits_dec k count acc s : 0 <= k < 10 -> (count < 3)%nat -> acc * 10 + k <= 255 ->
  read_digits 10 255 3 count acc (48 + k :: s) = read_digits 10 255 3 (S count) (acc * 10 + k) s.
Proof.
  intros Hk Hc Ha. cbn [read_digits]. rewrite to_digit_dec by done.
  rewrite (proj2 (Nat.ltb_ge _ _)) by lia. by rewrite (proj2 (Z.ltb_ge _ _)) by lia.
Qed.

Lemma read_shown n rest : octet n -> no_digit rest -> read_number 10 255 3 false (show_octet n ++ rest) = Some (n, rest).
Proof.
  unfold octet. intros Hn Hr.
  assert (Hend : forall acc k, read_digits 10 255 3 k acc rest = Some (acc, k, rest))
    by (intros; destruct rest as [|c rest]; simpl in *; [done|by rewrite Hr]).
  pose proof (Z.div_mod n 10 ltac:(lia)). pose proof (Z.mod_pos_bound n 10 ltac:(lia)).
  assert (n / 100 = n / 10 / 10) as Hdd by (rewrite Z.div_div by lia; done).
  pose proof (Z.div_mod (n / 10) 10 ltac:(lia)). pose proof (Z.mod_pos_bound (n / 10) 10 ltac:(lia)).
  unfold read_number, show_octet. destruct (n <? 10) eqn:H10; [|destruct (n <? 100) eqn:H100]; bool_to_prop; cbn [app].
  - rewrite read_digits_dec, Hend by lia. cbn. by rewrite andb_false_r.
  - rewrite !read_digits_dec, Hend by lia. cbn [Nat.eqb negb andb].
    rewrite (proj2 (Z.eqb_neq _ _)) by lia. cbn. do 2 f_equal. lia.
  - rewrite !read_digits_dec, Hend by lia. cbn [Nat.eqb negb andb].
    rewrite (proj2 (Z.eqb_neq _ _)) by lia. cbn. do 2 f_equal. lia.
Qed.

Lemma parse_show_v4 a b c d : octet a -> octet b -> octet c -> octet d ->
  parse_ip (show_v4 a b c d) = Some (V4 a b c d).
Proof.
  intros Ha Hb Hc Hd. unfold parse_ip, show_v4, read_ipv4_addr, read_octet, read_separator, mbind, option_bind.
  rewrite read_shown by done. cbn [read_given_char Z.eqb Pos.eqb].
  rewrite read_shown by done. cbn [read_given_char Z.eqb Pos.eqb].
  rewrite read_shown by done. cbn [read_given_char Z.eqb Pos.eqb].
  rewrite <- (app_nil_r (show_octet d)). by rewrite read_shown.
Qed.

(** A name of the local machine or network: localhost, or a name under
    .local, .internal or .localhost, in any case. *)
Definition internal_name `{Unicode} (host : chars) : Prop :=
  to_lowercase host = str "localhost" ∨
  ∃ suffix p, suffix ∈ [str ".local"; str ".internal"; str ".localhost"] ∧ to_lowercase host = p ++ suffix.

Lemma internal_name_spec `{Unicode} host : parse_ip host = None -> is_internal_host host = true <-> internal_name host.
Proof.
  intros Hp. unfold is_internal_host, internal_name. rewrite Hp, !orb_true_iff, bool_decide_eq_true, !ends_with_spec.
  setoid_rewrite elem_of_cons. setoid_rewrite elem_of_cons. setoid_rewrite list_elem_of_singleton. naive_solver.
Qed.

(** C25. Which hosts are internal, exactly.  An address is when it lies in one
    of the documented blocks (127/8, 10/8, 172.16/12, 192.168/16, 169.254/16,
    0.0.0.0, 255.255.255.255, ::1, ::, fc00::/7, fe80::/10), also when it is an
    IPv4 address mapped into IPv6.  A host that the parser of addresses
    accepts, which it does for every dotted text of four octets and only with
    a well-formed address, is judged by that address; any other host is
    internal when it is localhost or a name under .local, .internal or
    .localhost, in any case. *)
Theorem internal_host_exact `{Unicode} :
  (∀ ip, ip_ok ip -> is_internal_ip ip = true <-> internal_block ip) ∧
  (∀ host, is_internal_host host = true <->
     match parse_ip host with Some ip => internal_block ip | None => internal_name host end) ∧
  (∀ host ip, parse_ip host = Some ip -> ip_ok ip) ∧
  (∀ a b c d, octet a -> octet b -> octet c -> octet d ->
     parse_ip (show_v4 a b c d) = Some (V4 a b c d)).
Proof.
  split_and!.
  - apply internal_ip_spec.
  - intros host. destruct (parse_ip host) as [ip|] eqn:Hp; [|by apply internal_name_spec].
    unfold is_internal_host. rewrite Hp. apply internal_ip_spec. by eapply parse_ip_ok.
  - apply parse_ip_ok.
  - apply parse_show_v4.
Qed.

(** ** What an accepted upload is *)

(** Walking the components of a relative path climbs above its root. *)
Fixpoint climbs (depth : nat) (components : list chars) : bool :=
  match components with
  | [] => false
  | c :: cs =>
      if bool_decide (c = []) || bool_decide (c = str ".") then climbs depth cs
      else if bool_decide (c = str "..") then
        match depth with O => true | S d => climbs d cs end
      else climbs (S depth) cs
  end.

Lemma climbs_no_parent depth cs : Forall (λ c, c <> str "..") cs -> climbs depth cs = false.
Proof.
  intros Hcs. revert depth. induction Hcs as [|c cs Hc _ IH]; intros depth; [done|]. cbn [climbs].
  rewrite (bool_decide_eq_false_2 (c = str "..")) by done. by destruct (_ || _).
Qed.

(** Two or more dots and nothing else. *)
Definition dots (c : chars) : Prop := ∃ n, c = replicate (S (S n)) 46.

Lemma all_dots_replicate c : all_dots c = true -> c = replicate (length c) 46.
Proof.
  unfold all_dots. induction c as [|x c IH]; [done|]. cbn [forallb length replicate]. intros [Hx Hc]%andb_true_iff.
  apply Z.eqb_eq in Hx as <-. f_equal. auto.
Qed.

Lemma bad_component_spec c : bad_component c = true <-> dots c.
Proof.
  unfold bad_component, dots. split.
  - rewrite !orb_true_iff, !andb_true_iff, !bool_decide_eq_true.
    intros [[->| ->]|[[Hl Hd] _]]; [by exists 0%nat|by exists 1%nat|].
    apply all_dots_replicate in Hd. apply Nat.leb_le in Hl.
    assert (2 <= length c)%nat as Hlen.
    { rewrite Hd in Hl. destruct (length c) as [|[|n]]; [by vm_compute in Hl; lia|by vm_compute in Hl; lia|lia]. }
    rewrite Hd. destruct (length c) as [|[|n]]; [lia|lia|]. by exists n.
  - intros [n ->]. rewrite !orb_true_iff. right. rewrite !andb_true_iff. split_and!.
    + apply Nat.leb_le. etrans; [|apply str_len_ge]. rewrite length_replicate. lia.
    + unfold all_dots. apply forallb_forall. intros x Hx. apply list_elem_of_In, elem_of_replicate in Hx as [-> _]. done.
    + apply Nat.leb_le. rewrite filter_keep; [rewrite length_replicate; lia|]. by intros x [-> _]%elem_of_replicate.
Qed.

(** A relative path without NUL, backslash or a component of dots. *)
Record safe_path (p : chars) : Prop := {
  sp_nul : 0 ∉ p;
  sp_backslash : 92 ∉ p;
  sp_relative : ¬ ∃ q, p = str "/" ++ q;
  sp_dots : Forall (λ c, ¬ dots c) (split_char 47 p);
}.

Lemma safe_path_nil : safe_path [].
Proof.
  constructor; [by intros ?%not_elem_of_nil|by intros ?%not_elem_of_nil|by intros [q ?]|].
  repeat constructor. by intros [n ?].
Qed.

Lemma is_safe_path_spec p : is_safe_path p = true <-> safe_path p.
Proof.
  destruct p as [|c p']; [split; [intros _; apply safe_path_nil|done]|]. set (p := c :: p').
  assert (Hd : existsb bad_component (split_char 47 p) = false <-> Forall (λ c, ¬ dots c) (split_char 47 p)).
  { rewrite Forall_forall. setoid_rewrite <- bad_component_spec. rewrite <- not_true_iff_false, existsb_exists.
    setoid_rewrite list_elem_of_In. naive_solver. }
  assert (Hb : starts_with (str "\") p = true -> 92 ∈ p) by (intros [q ->]%starts_with_spec; left).
  unfold is_safe_path. fold p.
  destruct (contains_char 0 p) eqn:E0; [apply contains_char_spec in E0; split; [done|by intros []]|].
  apply not_true_iff_false in E0. rewrite contains_char_spec in E0.
  destruct (starts_with (str "/") p) eqn:E1; cbn [orb].
  { apply starts_with_spec in E1. split; [done|by intros []]. }
  apply not_true_iff_false in E1. rewrite starts_with_spec in E1.
  destruct (starts_with (str "\") p) eqn:E2; [split; [done|intros []; naive_solver]|].
  destruct (existsb bad_component _) eqn:E3; [split; [done|intros []; naive_solver]|].
  change (negb (contains_char 92 p) = true <-> safe_path p). rewrite negb_true_iff, <- not_true_iff_false, contains_char_spec. split; [|by intros []].
  intros E4. constructor; [done|done|done|by apply Hd].
Qed.

Lemma listed_mime_spec mime l : listed_mime mime l = true <-> mime ∈ (str <$> l).
Proof.
  unfold listed_mime. rewrite existsb_exists, list_elem_of_fmap. setoid_rewrite bool_decide_eq_true.
  setoid_rewrite list_elem_of_In. naive_solver.
Qed.

(** An upload that passes the guard is at most the limit and not empty, its
    name is relative, has no NUL or backslash and never climbs above its
    root, and its detected type is one of the allowed ones or a text/x- type
    and none of the denied ones.  The path check accepts exactly such paths,
    refusing also a component of three or more dots. *)
Theorem upload_guard_sound (tree_magic : bytes -> chars) (data : bytes) (name : option chars) (max : Z) :
  (validate_upload tree_magic data name max = Ok tt ->
   Z.of_nat (length data) <= max ∧ data <> [] ∧
   (∀ p, name = Some p -> safe_path p ∧ climbs 0 (split_char 47 p) = false) ∧
   detect_upload_mime tree_magic data ∉ (str <$> DENIED_MIMES) ∧
   (detect_upload_mime tree_magic data ∈ (str <$> ALLOWED_MIMES) ∨
    starts_with (str "text/x-") (detect_upload_mime tree_magic data) = true)) ∧
  (∀ p, validate_file_path p = Ok tt <-> safe_path p).
Proof.
  assert (Hp : ∀ p, validate_file_path p = Ok tt <-> safe_path p).
  { intros p. rewrite <- is_safe_path_spec. unfold validate_file_path. by destruct (is_safe_path p). }
  split; [|done]. unfold validate_upload, validate_file_size. destruct (max <? _) eqn:Hm; [done|].
  cbn [result_bind]. bool_to_prop. intros Hv.
  assert (is_allowed_mime (detect_upload_mime tree_magic data) ALLOWED_MIMES = true
                ∧ ∀ p, name = Some p -> validate_file_path p = Ok tt) as [Hok Hpath].
  { unfold validate_mime in Hv. destruct name as [p|].
    - destruct (validate_file_path p) as [[]|] eqn:Ev; [|done]. simpl in Hv. destruct (is_allowed_mime _ _); [|done].
      split; [done|]. by intros ? [= <-].
    - simpl in Hv. destruct (is_allowed_mime _ _); [|done]. split; [done|by intros ? [=]]. }
  unfold is_allowed_mime in Hok. destruct (listed_mime _ DENIED_MIMES) eqn:Hden; [done|].
  split_and!; [lia| | | |].
  - intros ->. by vm_compute in Hok.
  - intros p Hn. apply Hpath, Hp in Hn as Hs. split; [done|]. apply climbs_no_parent.
    eapply Forall_impl; [apply Hs|]. intros c Hc ->. apply Hc. by exists 0%nat.
  - rewrite <- listed_mime_spec. congruence.
  - destruct (starts_with _ _); [by right|]. left. by apply listed_mime_spec.
Qed.

(** ** Where the guards are weaker than documented *)

(** A query directly after the host, or a scheme in capitals, is taken for
    part of the host name, which is then not an address. *)
Lemma query_hides_internal_host :
  let safe u := @is_safe_target_url ascii_unicode (str u) in
  safe "http://127.0.0.1/" = false ∧ safe "http://127.0.0.1?x" = true ∧ safe "HTTP://127.0.0.1/" = true.
Proof. by vm_compute. Qed.

(** An e-mail is not recognised when byte 1024 cuts a character in two. *)
Definition mail (pad : nat) : bytes :=
  lit "From: a" ++ [x0a] ++ lit "To: b" ++ [x0a] ++ replicate pad x61 ++ [xc3; xa9].
Lemma cut_character_hides_email : looks_like_email (mail 1008) = true ∧ looks_like_email (mail 1009) = false.
Proof. by vm_compute. Qed.

Lemma upload_guard_sound_witness :
  let tm := λ _ : bytes, str "text/plain" in
  validate_upload tm (lit "hello") (Some (str "a/b.txt")) 10 = Ok tt ∧ climbs 0 (split_char 47 (str "a/b.txt")) = false.
Proof.
  split; [reflexivity|].
  destruct (upload_guard_sound (λ _, str "text/plain") (lit "hello") (Some (str "a/b.txt")) 10) as [Hs _].
  by destruct (Hs eq_refl) as (_ & _ & Hp & _); destruct (Hp _ eq_refl).
Defined.
