(* ===== verification/SourceFetch.v ===== *)
(** * The guarded URL fetcher (extract/src/source_fetch.rs)

    The URL parser, the resolver and the HTTP client are outside: the parser is
    a parameter, what the resolver and the servers answer is a list of replies
    in the state, so that a theorem about every list covers a resolver that
    changes its answers and a server that redirects at will.  The state
    records every connection the client is told to make. *)

From stdpp Require Import base list strings.
From Stdlib Require Import ZArith Lia Strings.Byte.
From S2P Require Import Prelude Text Blob Guards.
Open Scope Z_scope.

Record FetchLimits := mkLimits {
  fl_timeout : Z;
  fl_max_bytes : Z;
  fl_max_redirects : nat;
}.

Record FetchedContent := mkFetched {
  fc_final_url : chars;
  fc_bytes : bytes;
  fc_content_type : option chars;
  fc_sha256 : bytes;
}.

(** What an [InternalAddress] error names. *)
Inductive internal_what :=
| InternalHost (host : chars)
| ResolvesTo (host : chars) (ip : IpAddr)
| MissingLocation.

Inductive FetchError :=
| UnsupportedScheme (what : chars)
| UserInfoRejected (url : chars)
| InternalAddress (what : internal_what)
| DnsFail (host : chars)
| NoAddresses (host : chars)
| Http4xx (status : Z) (url : chars)
| Http5xx (status : Z) (url : chars)
| FetchTooLarge (max_bytes : Z) (url : chars)
| TooManyRedirects (max : nat) (url : chars)
| Timeout (url : chars)
| Network (url : chars)
| InvalidRedirect (location : chars).

Definition is_permanent (e : FetchError) : bool :=
  match e with
  | UnsupportedScheme _ | UserInfoRejected _ | InternalAddress _ | NoAddresses _ | Http4xx _ _
  | FetchTooLarge _ _ | TooManyRedirects _ _ | InvalidRedirect _ => true
  | _ => false
  end.

(** The parts of a [url::Url] the code reads. *)
Record Url := mkUrl {
  u_scheme : chars;
  u_username : chars;
  u_password : option chars;
  u_host_str : option chars;
  u_port : option Z;
  u_as_str : chars;
}.

Inductive http_reply :=
| BuildFailed
| SendTimeout
| SendFailed
| Response (status : Z) (location content_type : option chars) (body : list (option bytes)).

Record conn := mkConn {
  cn_url : chars;
  cn_host : chars;
  cn_addrs : list (IpAddr * Z);
}.

(** Replies of the resolver ([None]: it failed) and of the servers. *)
Record world := mkWorld {
  w_dns : list (option (list IpAddr));
  w_http : list http_reply;
  w_conns : list conn;
}.

Section Fetch.
Context `{Unicode}.
Context (url_parse : chars -> result Url chars).
Context (url_join : Url -> chars -> option Url).
Context (sha256 : bytes -> bytes).

Definition strip_ipv6_brackets (host : chars) : chars :=
  match strip_prefix (str "[") host with
  | Some s => if ends_with (str "]") s then take (length s - 1) s else host
  | None => host
  end.

Definition parse_url (s : chars) : result Url FetchError :=
  match url_parse s with Ok u => Ok u | Err e => Err (UnsupportedScheme e) end.
Definition url_host (u : Url) : result chars FetchError :=
  match u_host_str u with
  | Some h => Ok (strip_ipv6_brackets h)
  | None => Err (UnsupportedScheme (str "missing host"))
  end.

Definition validate_url (url : chars) : result unit FetchError :=
  let? u := parse_url url in
  if negb (bool_decide (u_scheme u = str "http")) && negb (bool_decide (u_scheme u = str "https"))
  then Err (UnsupportedScheme (u_scheme u))
  else if negb (bool_decide (u_username u = [])) || bool_decide (is_Some (u_password u))
  then Err (UserInfoRejected url)
  else
    let? host := url_host u in
    if is_internal_host host then Err (InternalAddress (InternalHost host)) else Ok tt.

Fixpoint first_internal (addrs : list IpAddr) : option IpAddr :=
  match addrs with
  | [] => None
  | a :: addrs' => if is_internal_ip a then Some a else first_internal addrs'
  end.

Definition resolve_and_validate (host : chars) (port : Z) (w : world)
    : result (list (IpAddr * Z)) FetchError * world :=
  let '(reply, dns) := match w_dns w with [] => (None, []) | r :: rs => (r, rs) end in
  let w := mkWorld dns (w_http w) (w_conns w) in
  match reply with
  | None => (Err (DnsFail host), w)
  | Some [] => (Err (NoAddresses host), w)
  | Some addrs =>
      match first_internal addrs with
      | Some ip => (Err (InternalAddress (ResolvesTo host ip)), w)
      | None => (Ok ((λ a, (a, port)) <$> addrs), w)
      end
  end.

Definition validated_addrs (host : chars) (port : Z) (w : world)
    : result (list (IpAddr * Z)) FetchError * world :=
  match parse_ip host with
  | Some ip =>
      if is_internal_ip ip then (Err (InternalAddress (InternalHost host)), w) else (Ok [(ip, port)], w)
  | None => resolve_and_validate host port w
  end.

(** [client.get(&current).send()] with the connection pinned to [addrs]; the
    client is taken to use no proxy of the system. *)
Definition send (c : conn) (w : world) : http_reply * world :=
  match w_http w with
  | [] => (SendFailed, mkWorld (w_dns w) [] (w_conns w ++ [c]))
  | BuildFailed :: rs => (BuildFailed, mkWorld (w_dns w) rs (w_conns w))
  | r :: rs => (r, mkWorld (w_dns w) rs (w_conns w ++ [c]))
  end.

Fixpoint read_body (max_bytes : Z) (url : chars) (chunks : list (option bytes)) (body : bytes)
    : result bytes FetchError :=
  match chunks with
  | [] => Ok body
  | None :: _ => Err (Network url)
  | Some chunk :: chunks' =>
      if max_bytes <? Z.of_nat (length body) + Z.of_nat (length chunk) then Err (FetchTooLarge max_bytes url)
      else read_body max_bytes url chunks' (body ++ chunk)
  end.

Definition between (lo hi s : Z) : bool := (lo <=? s) && (s <? hi).

(** One turn of the loop up to the response. *)
Definition request (current : chars) (w : world)
    : result (Url * Z * option chars * option chars * list (option bytes)) FetchError * world :=
  match (let? u := parse_url current in let? host := url_host u in Ok (u, host)) with
  | Err e => (Err e, w)
  | Ok (u, host) =>
      let port := default (if bool_decide (u_scheme u = str "https") then 443 else 80) (u_port u) in
      match validated_addrs host port w with
      | (Err e, w) => (Err e, w)
      | (Ok addrs, w) =>
          match send (mkConn current host addrs) w with
          | (SendTimeout, w) => (Err (Timeout current), w)
          | (Response status location ctype body, w) => (Ok (u, status, location, ctype, body), w)
          | (_, w) => (Err (Network current), w)
          end
      end
  end.

(** The target of a redirect, validated before it is followed. *)
Definition redirect_target (u : Url) (location : option chars) : result chars FetchError :=
  match location with
  | None => Err (InternalAddress MissingLocation)
  | Some location =>
      match url_join u location with
      | None => Err (InvalidRedirect location)
      | Some next => let? _ := validate_url (u_as_str next) in Ok (u_as_str next)
      end
  end.

Definition finish (limits : FetchLimits) (current : chars) (status : Z) (ctype : option chars)
    (body : list (option bytes)) : result FetchedContent FetchError :=
  if between 400 500 status then Err (Http4xx status current)
  else if between 500 600 status then Err (Http5xx status current)
  else
    let? data := read_body (fl_max_bytes limits) current body [] in
    Ok (mkFetched current data ctype (sha256 data)).

Fixpoint fetch_loop (url : chars) (limits : FetchLimits) (remaining_hops : nat) (current : chars) (w : world)
    : result FetchedContent FetchError * world :=
  match request current w with
  | (Err e, w) => (Err e, w)
  | (Ok (u, status, location, ctype, body), w) =>
      if between 300 400 status then
        match remaining_hops with
        | O => (Err (TooManyRedirects (fl_max_redirects limits) url), w)
        | S hops =>
            match redirect_target u location with
            | Err e => (Err e, w)
            | Ok next => fetch_loop url limits hops next w
            end
        end
      else (finish limits current status ctype body, w)
  end.

Definition fetch_url (url : chars) (limits : FetchLimits) (w : world)
    : result FetchedContent FetchError * world :=
  match validate_url url with
  | Err e => (Err e, w)
  | Ok _ => fetch_loop url limits (fl_max_redirects limits) url w
  end.

(** ** Where a fetch connects *)

(** A request for a URL of the allowed kind, pinned to addresses none of which
    is internal. *)
Record safe_conn (c : conn) : Prop := {
  sc_url : ∃ u, url_parse (cn_url c) = Ok u ∧ (u_scheme u = str "http" ∨ u_scheme u = str "https") ∧
    u_username u = [] ∧ u_password u = None ∧ url_host u = Ok (cn_host c);
  sc_host : is_internal_host (cn_host c) = false;
  sc_some : cn_addrs c <> [];
  sc_external : Forall (λ a, is_internal_ip a.1 = false) (cn_addrs c);
}.

Lemma validate_url_ok url : validate_url url = Ok tt <->
  ∃ u host, url_parse url = Ok u ∧ (u_scheme u = str "http" ∨ u_scheme u = str "https") ∧
    u_username u = [] ∧ u_password u = None ∧ url_host u = Ok host ∧ is_internal_host host = false.
Proof.
  unfold validate_url, parse_url. destruct (url_parse url) as [u|e]; cbn [result_bind]; [|naive_solver].
  assert (Hs : negb (bool_decide (u_scheme u = str "http")) && negb (bool_decide (u_scheme u = str "https")) = false
               <-> u_scheme u = str "http" ∨ u_scheme u = str "https").
  { rewrite andb_false_iff, !negb_false_iff, !bool_decide_eq_true. done. }
  assert (Hu : negb (bool_decide (u_username u = [])) || bool_decide (is_Some (u_password u)) = false
               <-> u_username u = [] ∧ u_password u = None).
  { rewrite orb_false_iff, negb_false_iff, bool_decide_eq_true, bool_decide_eq_false, eq_None_not_Some. done. }
  destruct (_ && _); [split; [done|]; intros (? & ? & [= <-] & Hsc & _); by apply Hs in Hsc|].
  destruct (_ || _); [split; [done|]; intros (? & ? & [= <-] & _ & ? & ? & _); by assert (true = false) by by apply Hu|].
  destruct Hs as [Hs _], Hu as [Hu _]. specialize (Hs eq_refl). specialize (Hu eq_refl) as [? ?].
  destruct (url_host u) as [host|e] eqn:Hh; cbn [result_bind].
  - destruct (is_internal_host host) eqn:Hi.
    + split; [done|]. intros (? & ? & [= <-] & _ & _ & _ & Hh' & Hi'). rewrite Hh in Hh'. simplify_eq. congruence.
    + split; [|done]. intros _. by exists u, host.
  - split; [done|]. intros (? & ? & [= <-] & _ & _ & _ & Hh' & _). congruence.
Qed.

Lemma first_internal_none addrs : first_internal addrs = None <-> Forall (λ a, is_internal_ip a = false) addrs.
Proof.
  induction addrs as [|a l IH]; simpl; [done|]. rewrite Forall_cons, <- IH.
  destruct (is_internal_ip a); naive_solver.
Qed.

Lemma validated_addrs_ok host port w r w' : validated_addrs host port w = (r, w') ->
  w_conns w' = w_conns w ∧ w_http w' = w_http w ∧
  (∀ addrs, r = Ok addrs -> addrs <> [] ∧ Forall (λ a, is_internal_ip a.1 = false) addrs).
Proof.
  unfold validated_addrs, resolve_and_validate. destruct (parse_ip host) as [ip|].
  - destruct (is_internal_ip ip) eqn:Hi; intros; simplify_eq; split_and!; try done.
    intros ? [= <-]. split; [done|by repeat constructor].
  - destruct (match w_dns w with [] => (None, []) | r :: rs => (r, rs) end) as [reply dns].
    destruct reply as [[|a l]|]; [intros; simplify_eq; done| |intros; simplify_eq; done].
    destruct (first_internal (a :: l)) eqn:Hf; intros; simplify_eq; split_and!; try done.
    intros ? [= <-]. split; [done|]. apply first_internal_none in Hf. by apply (Forall_fmap (λ x, (x, port)) (λ a, is_internal_ip a.1 = false) (a :: l)).
Qed.

Lemma request_ok current w r w' : validate_url current = Ok tt -> request current w = (r, w') ->
  ∃ new, w_conns w' = w_conns w ++ new ∧ Forall safe_conn new ∧ (length new <= 1)%nat ∧
    (is_ok r = true -> ∃ c, new = [c] ∧ cn_url c = current).
Proof.
  intros Hv. apply validate_url_ok in Hv as (u & host & Hp & Hs & Hun & Hpw & Hh & Hi).
  unfold request, parse_url. rewrite Hp. cbn [result_bind]. rewrite Hh. cbn [result_bind].
  destruct (validated_addrs _ _ w) as [ra w1] eqn:Ha. apply validated_addrs_ok in Ha as (Hc & _ & Hok).
  destruct ra as [addrs|e]; [|intros; simplify_eq; exists []; rewrite Hc, app_nil_r; split_and!; [done|constructor|simpl; lia|done]].
  destruct (Hok addrs eq_refl) as [Hne Hext].
  assert (Hsafe : safe_conn (mkConn current host addrs)) by (constructor; simpl; [exists u; naive_solver|done..]).
  unfold send. destruct (w_http w1) as [|[] rs]; intros; simplify_eq; cbn [w_conns]; rewrite Hc;
    first [by exists []; rewrite app_nil_r; split_and!; [done|constructor|simpl; lia|done]
          |exists [mkConn current host addrs]; split_and!; [done|by apply Forall_singleton|done|eauto]].
Qed.

Lemma read_body_bound max url chunks body data : Z.of_nat (length body) <= max ->
  read_body max url chunks body = Ok data -> Z.of_nat (length data) <= max.
Proof.
  revert body. induction chunks as [|[chunk|] chunks IH]; intros body Hb; simpl; [by intros; simplify_eq| |done].
  destruct (_ <? _) eqn:Hlt; [done|]. bool_to_prop. apply IH. rewrite length_app. lia.
Qed.

Lemma redirect_target_ok u location next : redirect_target u location = Ok next -> validate_url next = Ok tt.
Proof.
  unfold redirect_target. destruct location as [l|]; [|done]. destruct (url_join u l) as [n|]; [|done].
  destruct (validate_url (u_as_str n)) as [[]|] eqn:Hv; simpl; intros; simplify_eq. done.
Qed.

(** What a fetch may leave behind: the connections it made and its answer. *)
Definition fetch_post (limits : FetchLimits) (hops : nat) (r : result FetchedContent FetchError) (new : list conn) : Prop :=
  Forall safe_conn new ∧ (length new <= S hops)%nat ∧
  (∀ content, r = Ok content -> Z.of_nat (length (fc_bytes content)) <= fl_max_bytes limits ∧
     fc_sha256 content = sha256 (fc_bytes content) ∧ ∃ c, last new = Some c ∧ cn_url c = fc_final_url content).

Lemma fetch_loop_post url limits hops current w r w' : 0 <= fl_max_bytes limits ->
  validate_url current = Ok tt -> fetch_loop url limits hops current w = (r, w') ->
  ∃ new, w_conns w' = w_conns w ++ new ∧ fetch_post limits hops r new.
Proof.
  intros Hmax. revert current w. induction hops as [|hops IH]; intros current w Hv; cbn [fetch_loop];
    destruct (request current w) as [rq w1] eqn:Hrq; destruct (request_ok _ _ _ _ Hv Hrq) as (new & Hc & Hsafe & Hlen & Hok).
  all: destruct rq as [[[[[u status] location] ctype] body]|e];
    [|intros; simplify_eq; exists new; split; [done|]; split_and!; [done|lia|done]].
  all: destruct (Hok eq_refl) as (c & -> & Hcu).
  all: destruct (between 300 400 status).
  1: intros; simplify_eq; exists [c]; split; [done|]; split_and!; [done|done|done].
  2: { destruct (redirect_target u location) as [next|e] eqn:Hr;
         [|intros; simplify_eq; exists [c]; split; [done|]; split_and!; [done|simpl; lia|done]].
       intros E. apply IH in E as (new & Hc' & Hs' & Hl' & Hpost); [|by eapply redirect_target_ok].
       exists (c :: new). split; [by rewrite Hc', Hc, <- app_assoc|]. split_and!.
       - by apply (Forall_app_2 _ [c] new).
       - simpl. lia.
       - intros content Hr'. destruct (Hpost content Hr') as (? & ? & c' & Hlast & ?). split_and!; [done|done|].
         exists c'. split; [|done]. destruct new; [done|]. done. }
  all: intros; simplify_eq; exists [c]; split; [done|]; split_and!; [done|simpl; lia|].
  all: unfold finish; destruct (between 400 500 status); [done|]; destruct (between 500 600 status); [done|].
  all: destruct (read_body _ _ body []) as [data|e] eqn:Hb; [|done]; intros content [= <-]; simpl.
  all: split_and!; [by eapply read_body_bound; [|exact Hb]; simpl; lia|done|by exists c].
Qed.

Lemma fetch_direct url limits w u host addrs dns rs status ctype data :
  validate_url url = Ok tt -> url_parse url = Ok u -> url_host u = Ok host -> parse_ip host = None ->
  w_dns w = Some addrs :: dns -> addrs <> [] -> Forall (λ a, is_internal_ip a = false) addrs ->
  w_http w = Response status None ctype [Some data] :: rs -> 200 <= status < 300 ->
  Z.of_nat (length data) <= fl_max_bytes limits ->
  (fetch_url url limits w).1 = Ok (mkFetched url data ctype (sha256 data)).
Proof.
  intros Hv Hp Hh Hip Hdns Hne Hext Hhttp Hst Hlen.
  assert (Hb : forall lo, 300 <= lo -> forall hi, between lo hi status = false)
    by (intros; unfold between; by rewrite (proj2 (Z.leb_gt _ _)) by lia).
  assert (Hreq : ∃ w', request url w = (Ok (u, status, None, ctype, [Some data]), w')).
  { unfold request, parse_url. rewrite Hp. cbn [result_bind]. rewrite Hh. cbn [result_bind].
    unfold validated_addrs, resolve_and_validate. rewrite Hip, Hdns. destruct addrs as [|a l]; [done|].
    apply first_internal_none in Hext. rewrite Hext. unfold send. cbn [w_http]. rewrite Hhttp. eauto. }
  destruct Hreq as [w' Hreq]. unfold fetch_url. rewrite Hv.
  destruct (fl_max_redirects limits); cbn [fetch_loop]; rewrite Hreq, !Hb by lia; unfold finish; rewrite !Hb by lia;
    cbn [read_body app length]; rewrite (proj2 (Z.ltb_ge _ _)) by (simpl; lia); done.
Qed.

(** C22. The fetcher cannot be turned on the internal network.  Whatever the
    resolver answers from call to call and wherever servers redirect, every
    connection it makes is for an http or https URL without credentials whose
    host is not internal, pinned to addresses of which none is internal; it
    makes at most one more than the allowed redirects, and what it returns is
    within the size limit, carries its digest, and comes from the URL of the
    last connection.  A plain answer within the limit is returned. *)
Theorem fetch_never_internal (url : chars) (limits : FetchLimits) (w : world) : 0 <= fl_max_bytes limits ->
  (∀ r w', fetch_url url limits w = (r, w') ->
     ∃ new, w_conns w' = w_conns w ++ new ∧ fetch_post limits (fl_max_redirects limits) r new) ∧
  (∀ u host addrs dns rs status ctype data,
     validate_url url = Ok tt -> url_parse url = Ok u -> url_host u = Ok host -> parse_ip host = None ->
     w_dns w = Some addrs :: dns -> addrs <> [] -> Forall (λ a, is_internal_ip a = false) addrs ->
     w_http w = Response status None ctype [Some data] :: rs -> 200 <= status < 300 ->
     Z.of_nat (length data) <= fl_max_bytes limits ->
     (fetch_url url limits w).1 = Ok (mkFetched url data ctype (sha256 data))).
Proof.
  intros Hmax. split.
  - intros r w' E. unfold fetch_url in E. destruct (validate_url url) as [[]|e] eqn:Hv.
    + by eapply fetch_loop_post.
    + simplify_eq. exists []. rewrite app_nil_r. split; [done|]. split_and!; [constructor|simpl; lia|done].
  - intros. by eapply fetch_direct.
Qed.
End Fetch.

(** ** Witness: a host that resolves externally once and internally after *)

Definition demo_url : Url := mkUrl (str "http") [] None (Some (str "example.org")) None (str "http://example.org/").
Definition demo_url_parse (s : chars) : result Url chars :=
  if decide (s = str "http://example.org/") then Ok demo_url else Err (str "relative URL without a base").
Definition demo_world (r : http_reply) : world :=
  mkWorld [Some [V4 93 184 215 14]; Some [V4 127 0 0 1]] [r; r] [].
Definition demo_limits : FetchLimits := mkLimits 30 10 3.
Definition demo_fetch (r : http_reply) : result FetchedContent FetchError * world :=
  @fetch_url ascii_unicode demo_url_parse (λ u _, Some u) (λ b, b) (str "http://example.org/") demo_limits (demo_world r).

(** The redirect to the same name is refused when the name now resolves to
    the loopback address. *)
Lemma rebinding_refused :
  (demo_fetch (Response 302 (Some (str "/")) None [])).1
  = Err (InternalAddress (ResolvesTo (str "example.org") (V4 127 0 0 1))) ∧
  length (w_conns (demo_fetch (Response 302 (Some (str "/")) None [])).2) = 1%nat.
Proof. by vm_compute. Qed.

Lemma fetch_never_internal_witness :
  (demo_fetch (Response 200 None None [Some [x41]])).1 = Ok (mkFetched (str "http://example.org/") [x41] None [x41]) ∧
  ∃ new, w_conns (demo_fetch (Response 200 None None [Some [x41]])).2 = new ∧ (length new <= 4)%nat.
Proof.
  destruct (@fetch_never_internal ascii_unicode demo_url_parse (λ u _, Some u) (λ b, b) (str "http://example.org/")
    demo_limits (demo_world (Response 200 None None [Some [x41]])) ltac:(vm_compute; discriminate)) as [Hpost Hdirect].
  split.
  - apply (Hdirect demo_url (str "example.org") [V4 93 184 215 14] [Some [V4 127 0 0 1]]
      [Response 200 None None [Some [x41]]] 200 None [x41]); try reflexivity; try discriminate; try lia.
    repeat constructor.
  - destruct (Hpost _ _ (surjective_pairing _)) as (new & Hc & _ & Hlen & _). exists new. split; [exact Hc|exact Hlen].
Defined.
