(* ===== verification/Archive.v ===== *)
(** * The archive extractor (extract/src/archive.rs)

    What the zip, tar and gzip libraries read from an archive is a parameter:
    a list of entries, each with the bytes its stream yields and whether the
    stream then ends or fails.  [String::from_utf8_lossy] is the standard
    library's. *)

From stdpp Require Import base list strings.
From Stdlib Require Import ZArith Lia Strings.Byte.
From S2P Require Import Prelude Text FloatModel Json Blob Guards.
Open Scope Z_scope.

(** ** [String::from_utf8_lossy]: U+FFFD for each maximal invalid part *)

Definition second_ok (b0 b1 : Z) : bool :=
  if b0 =? 224 then (160 <=? b1) && (b1 <? 192)
  else if b0 =? 237 then (128 <=? b1) && (b1 <? 160)
  else if b0 =? 240 then (144 <=? b1) && (b1 <? 192)
  else if b0 =? 244 then (128 <=? b1) && (b1 <? 144)
  else is_trail b1.

Fixpoint lossy (b : list Z) : chars :=
  match b with
  | [] => []
  | b0 :: r =>
      if b0 <? 128 then b0 :: lossy r
      else if (b0 <? 194) || (244 <? b0) then 65533 :: lossy r
      else
        match r with
        | [] => [65533]
        | b1 :: r1 =>
            if negb (second_ok b0 b1) then 65533 :: lossy r
            else if b0 <? 224 then ((b0 - 192) * 64 + (b1 - 128)) :: lossy r1
            else
              match r1 with
              | [] => [65533]
              | b2 :: r2 =>
                  if negb (is_trail b2) then 65533 :: lossy r1
                  else if b0 <? 240
                  then ((b0 - 224) * 4096 + (b1 - 128) * 64 + (b2 - 128)) :: lossy r2
                  else
                    match r2 with
                    | [] => [65533]
                    | b3 :: r3 =>
                        if negb (is_trail b3) then 65533 :: lossy r2
                        else ((b0 - 240) * 262144 + (b1 - 128) * 4096 + (b2 - 128) * 64 + (b3 - 128)) :: lossy r3
                    end
              end
        end
  end.
Definition from_utf8_lossy (b : bytes) : chars := lossy (byte_val <$> b).

(** ** Streams *)

(** The bytes a reader yields, and whether it fails after them. *)
Record stream := mkStream {
  st_data : bytes;
  st_fails : bool;
}.

Fixpoint take_z {A} (n : Z) (l : list A) : list A :=
  match l with
  | [] => []
  | x :: l' => if n <=? 0 then [] else x :: take_z (n - 1) l'
  end.

(** [reader.take(cap).read_to_end(&mut buf)]: a failure is met only if the
    limit is not reached first. *)
Definition read_capped (cap : Z) (s : stream) : option bytes :=
  if st_fails s && (Z.of_nat (length (st_data s)) <? cap) then None else Some (take_z cap (st_data s)).

Record zip_entry := mkZip {
  ze_is_dir : bool;
  ze_name : chars;
  ze_size : Z;
  ze_compressed_size : Z;
  ze_stream : stream;
}.
Record tar_entry := mkTar {
  te_is_file : bool;
  te_name : chars;
  te_stream : stream;
}.

(** ** The walk *)

Definition MAX_MANIFEST_NAMES : nat := 256.

(** What one [read_to_end] pulls from its stream, kept or not, and whether the
    stream held. *)
Record entry_read := mkRead { rd_bytes : Z; rd_ok : bool }.
Definition read_logged (cap : Z) (s : stream) : entry_read * option bytes :=
  let buf := read_capped cap s in
  (mkRead (Z.min cap (Z.of_nat (length (st_data s)))) (bool_decide (is_Some buf)), buf).

(** The last two fields are not the program's: they log the reads of entries,
    latest first, and the bytes pulled from a gzip stream. *)
Record Harvest := mkHarvest {
  h_text : chars;
  h_extracted : list chars;
  h_skipped : list chars;
  h_truncated : bool;
  h_format : chars;
  h_reads : list entry_read;
  h_gunzipped : Z;
}.
Definition new_harvest (format : chars) : Harvest := mkHarvest [] [] [] false format [] 0.
Definition log_read (r : entry_read) (h : Harvest) : Harvest :=
  mkHarvest (h_text h) (h_extracted h) (h_skipped h) (h_truncated h) (h_format h) (r :: h_reads h) (h_gunzipped h).
Definition log_gunzip (r : entry_read) (h : Harvest) : Harvest :=
  mkHarvest (h_text h) (h_extracted h) (h_skipped h) (h_truncated h) (h_format h) (h_reads h) (rd_bytes r).
Definition default_harvest : Harvest := new_harvest [].

Definition is_tar (b : bytes) : bool := (262 <=? length b)%nat && has_at 257 (lit "ustar") b.

Definition printable (b : byte) : bool :=
  let b := byte_val b in
  (b =? 9) || (b =? 10) || (b =? 13) || ((32 <=? b) && (b <=? 126)) || (128 <=? b).
Definition is_text_like (b : bytes) : bool :=
  if (length b =? 0)%nat || existsb (λ x, byte_val x =? 0) b then false
  else 85 <=? saturating_mul usize (Z.of_nat (length (List.filter printable b))) 100 / Z.of_nat (length b).

(** [str::split([a, b])]. *)
Fixpoint split_any (sep : Z -> bool) (s : chars) : list chars :=
  match s with
  | [] => [[]]
  | c :: s' =>
      match split_any sep s' with
      | [] => [[c]]
      | w :: ws => if sep c then [] :: w :: ws else (c :: w) :: ws
      end
  end.
Definition is_slash (c : Z) : bool := (c =? 47) || (c =? 92).
Definition is_safe_entry_name (name : chars) : bool :=
  negb (bool_decide (name = [])) && negb (starts_with (str "/") name) && negb (starts_with (str "\") name)
  && negb (contains_char 0 name) && negb (existsb (λ seg, bool_decide (seg = str "..")) (split_any is_slash name)).

Definition newline : chars := [10].
Definition push_entry_text (h : Harvest) (name : chars) (content : bytes) : Harvest :=
  mkHarvest (h_text h ++ (newline ++ str "--- ") ++ name ++ (str " ---" ++ newline) ++ from_utf8_lossy content ++ newline)
    (h_extracted h ++ [name]) (h_skipped h) (h_truncated h) (h_format h) (h_reads h) (h_gunzipped h).
Definition push_skipped (h : Harvest) (name : chars) : Harvest :=
  mkHarvest (h_text h) (h_extracted h) (h_skipped h ++ [name]) (h_truncated h) (h_format h) (h_reads h) (h_gunzipped h).
Definition set_truncated (h : Harvest) : Harvest :=
  mkHarvest (h_text h) (h_extracted h) (h_skipped h) true (h_format h) (h_reads h) (h_gunzipped h).

Definition is_bomb (e : zip_entry) : bool :=
  (0 <? ze_compressed_size e) && (MAX_ARCHIVE_ENTRY_BYTES <? ze_size e)
  && (MAX_ARCHIVE_COMPRESSION_RATIO <? ze_size e / ze_compressed_size e).

(** Reading one entry within the budget: [None] ends the walk. *)
Definition take_entry (name : chars) (s : stream) (total : Z) (h : Harvest) : option (Z * Harvest) :=
  let budget := Z.max 0 (MAX_ARCHIVE_TOTAL_UNCOMPRESSED_BYTES - total) in
  if budget =? 0 then None
  else
    let cap := Z.min MAX_ARCHIVE_ENTRY_BYTES budget in
    let (r, buf) := read_logged cap s in
    let h := log_read r h in
    match buf with
    | None => Some (total, h)
    | Some buf =>
        Some (total + Z.of_nat (length buf),
              if is_text_like buf then push_entry_text h name buf else push_skipped h name)
    end.

Fixpoint zip_loop (entries : list (option zip_entry)) (total : Z) (h : Harvest) : Harvest :=
  match entries with
  | [] => h
  | None :: es => zip_loop es total h
  | Some e :: es =>
      if ze_is_dir e then zip_loop es total h
      else if negb (is_safe_entry_name (ze_name e)) then zip_loop es total (push_skipped h (ze_name e))
      else if is_bomb e then zip_loop es total (push_skipped h (ze_name e))
      else
        match take_entry (ze_name e) (ze_stream e) total h with
        | None => set_truncated h
        | Some (total, h) => zip_loop es total h
        end
  end.

Fixpoint tar_loop (entries : list (option tar_entry)) (seen total : Z) (h : Harvest) : Harvest :=
  match entries with
  | [] => h
  | None :: _ => h
  | Some e :: es =>
      let seen := seen + 1 in
      if MAX_ARCHIVE_ENTRIES <? seen then set_truncated h
      else if negb (te_is_file e) then tar_loop es seen total h
      else if negb (is_safe_entry_name (te_name e)) then tar_loop es seen total (push_skipped h (te_name e))
      else
        match take_entry (te_name e) (te_stream e) total h with
        | None => set_truncated h
        | Some (total, h) => tar_loop es seen total h
        end
  end.

Section Walk.
Context (zip_open : bytes -> option (list (option zip_entry))).
Context (tar_open : bytes -> option (list (option tar_entry))).
Context (gunzip : bytes -> stream).

Definition harvest_zip (b : bytes) : Harvest :=
  let h := new_harvest (str "zip") in
  match zip_open b with
  | None => h
  | Some entries =>
      let count := Z.of_nat (length entries) in
      let limit := Z.min count MAX_ARCHIVE_ENTRIES in
      let h := if limit <? count then set_truncated h else h in
      zip_loop (take_z limit entries) 0 h
  end.

Definition harvest_tar (b : bytes) (format : chars) : Harvest :=
  let h := new_harvest format in
  match tar_open b with
  | None => h
  | Some entries => tar_loop entries 0 0 h
  end.

Definition harvest_gzip (b : bytes) : Harvest :=
  let (r, buf) := read_logged MAX_ARCHIVE_TOTAL_UNCOMPRESSED_BYTES (gunzip b) in
  log_gunzip r
    match buf with
    | None => new_harvest (str "gzip")
    | Some buf =>
        if is_tar buf then harvest_tar buf (str "tar.gz")
        else
          let h := new_harvest (str "gzip") in
          if is_text_like buf then push_entry_text h (str "(gzip)") buf else h
    end.

Definition PK56 : bytes := [x50; x4b; x05; x06].
Definition harvest_archive (b : bytes) : Harvest :=
  if has_prefix PK34 b || has_prefix PK56 b then harvest_zip b
  else if has_prefix [x1f; x8b] b then harvest_gzip b
  else if is_tar b then harvest_tar b (str "tar")
  else default_harvest.

(** [extract]: the text and the manifest. *)
Definition manifest (h : Harvest) : json :=
  jobj [("archive:format", JString (h_format h));
        ("archive:extracted_count", JInt (Z.of_nat (length (h_extracted h))));
        ("archive:skipped_count", JInt (Z.of_nat (length (h_skipped h))));
        ("archive:entries", JArray (JString <$> take MAX_MANIFEST_NAMES (h_extracted h)));
        ("archive:truncated", JBool (h_truncated h))].
Definition extract (b : bytes) : chars * json := let h := harvest_archive b in (h_text h, manifest h).
End Walk.

(** ** Facts about reading *)

Lemma length_take_z {A} n (l : list A) : Z.of_nat (length (take_z n l)) = Z.min (Z.max 0 n) (Z.of_nat (length l)).
Proof.
  revert n. induction l as [|x l IH]; intros n; cbn [take_z].
  - simpl. lia.
  - destruct (n <=? 0) eqn:E; bool_to_prop; simpl length; [simpl; lia|]. rewrite !Nat2Z.inj_succ, IH. lia.
Qed.

Lemma take_z_all {A} n (l : list A) : Z.of_nat (length l) <= n -> take_z n l = l.
Proof.
  revert n. induction l as [|x l IH]; intros n; cbn [take_z]; [done|]. simpl length. intros H.
  destruct (n <=? 0) eqn:E; bool_to_prop; [lia|]. f_equal. apply IH. lia.
Qed.

Lemma read_capped_len cap s buf : 0 <= cap -> read_capped cap s = Some buf -> Z.of_nat (length buf) <= cap.
Proof. unfold read_capped. intros Hc. case_match; [done|]. intros [= <-]. rewrite length_take_z. lia. Qed.

Lemma is_text_like_nonempty b : is_text_like b = true -> b <> [].
Proof. by intros H ->. Qed.

(** A lossy decoding yields at most three bytes of UTF-8 per byte read. *)
Lemma lossy_len b : (str_len (lossy b) <= 3 * length b)%nat.
Proof.
  remember (length b) as n eqn:Hn. revert b Hn. induction (lt_wf n) as [n _ IH]. intros b ->.
  assert (Hsub : ∀ r, (length r < length b)%nat -> (str_len (lossy r) <= 3 * length r)%nat) by (intros; eauto).
  clear IH. pose proof char_len_pos as Hc.
  assert (H3 : char_len 65533 = 3%nat) by done.
  destruct b as [|b0 r]; [done|]. cbn [lossy].
  destruct (b0 <? 128) eqn:E0.
  { rewrite str_len_cons. unfold char_len, encode_char. rewrite E0. specialize (Hsub r). simpl in *. lia. }
  assert (Hr : (str_len (65533%Z :: lossy r) <= 3 * length (b0 :: r))%nat).
  { rewrite str_len_cons, H3. specialize (Hsub r). simpl in *. lia. }
  assert (Hb : ∀ k r', (length r' + 2 <= length (b0 :: r))%nat ->
             (str_len (k :: lossy r') <= 3 * length (b0 :: r))%nat).
  { intros k r' Hl. rewrite str_len_cons. specialize (Hsub r'). specialize (Hc k). simpl in *. lia. }
  destruct (_ || _); [done|]. destruct r as [|b1 r1]; [done|]. destruct (negb _); [done|].
  destruct (b0 <? 224); [apply Hb; simpl; lia|]. destruct r1 as [|b2 r2]; [apply (Hb _ []); simpl; lia|].
  destruct (negb _); [apply Hb; simpl; lia|]. destruct (b0 <? 240); [apply Hb; simpl; lia|].
  destruct r2 as [|b3 r3]; [apply (Hb _ []); simpl; lia|].
  destruct (negb _); apply Hb; simpl; lia.
Qed.

(** A string's own bytes are decoded to the string. *)
Lemma lossy_lead b0 b1 r1 : 194 <= b0 -> b0 <= 244 -> second_ok b0 b1 = true ->
  lossy (b0 :: b1 :: r1) =
    if b0 <? 224 then ((b0 - 192) * 64 + (b1 - 128)) :: lossy r1
    else
      match r1 with
      | [] => [65533]
      | b2 :: r2 =>
          if negb (is_trail b2) then 65533 :: lossy r1
          else if b0 <? 240 then ((b0 - 224) * 4096 + (b1 - 128) * 64 + (b2 - 128)) :: lossy r2
          else
            match r2 with
            | [] => [65533]
            | b3 :: r3 =>
                if negb (is_trail b3) then 65533 :: lossy r2
                else ((b0 - 240) * 262144 + (b1 - 128) * 4096 + (b2 - 128) * 64 + (b3 - 128)) :: lossy r3
            end
      end.
Proof.
  intros H1 H2 Hs. cbn [lossy]. rewrite (proj2 (Z.ltb_ge b0 128)), (proj2 (Z.ltb_ge b0 194)), (proj2 (Z.ltb_ge 244 b0)) by lia.
  rewrite Hs. done.
Qed.

Lemma lossy_encode c s : is_scalar c = true -> lossy (encode_char c ++ s) = c :: lossy s.
Proof.
  intros Hc. unfold is_scalar in Hc. bool_to_prop.
  assert (Hsur : c < 55296 ∨ 57343 < c) by lia.
  assert (Ht : ∀ x, is_trail (128 + x mod 64) = true)
    by (intros x; unfold is_trail; pose proof (Z.mod_pos_bound x 64); decide_cmp; done).
  unfold encode_char.
  destruct (Z.ltb_spec c 128); [|destruct (Z.ltb_spec c 2048); [|destruct (Z.ltb_spec c 65536)]]; cbn [app].
  - cbn [lossy]. by rewrite (proj2 (Z.ltb_lt c 128)).
  - assert (2 <= c / 64 < 32) by (Z.to_euclidean_division_equations; lia).
    pose proof (Z.div_mod c 64). pose proof (Z.mod_pos_bound c 64).
    rewrite lossy_lead; [|lia|lia|].
    + rewrite (proj2 (Z.ltb_lt _ 224)) by lia. f_equal. lia.
    + unfold second_ok. rewrite !(proj2 (Z.eqb_neq _ _)) by lia. apply Ht.
  - assert (Hd : c = c / 4096 * 4096 + (c / 64) mod 64 * 64 + c mod 64)
      by (Z.to_euclidean_division_equations; lia).
    pose proof (Z.mod_pos_bound c 64). pose proof (Z.mod_pos_bound (c / 64) 64).
    assert (0 <= c / 4096 < 16) by (Z.to_euclidean_division_equations; lia).
    rewrite lossy_lead; [|lia|lia|].
    + rewrite (proj2 (Z.ltb_ge _ 224)), Ht, (proj2 (Z.ltb_lt _ 240)) by lia. cbn [negb]. f_equal. lia.
    + unfold second_ok, is_trail. repeat (case_match; bool_to_prop); decide_cmp; lia.
  - assert (Hd : c = c / 262144 * 262144 + (c / 4096) mod 64 * 4096 + (c / 64) mod 64 * 64 + c mod 64)
      by (Z.to_euclidean_division_equations; lia).
    pose proof (Z.mod_pos_bound c 64). pose proof (Z.mod_pos_bound (c / 64) 64).
    pose proof (Z.mod_pos_bound (c / 4096) 64).
    assert (0 <= c / 262144 < 5) by (Z.to_euclidean_division_equations; lia).
    rewrite lossy_lead; [|lia|lia|].
    + rewrite (proj2 (Z.ltb_ge _ 224)), !Ht, (proj2 (Z.ltb_ge _ 240)) by lia. cbn [negb]. f_equal. lia.
    + unfold second_ok, is_trail. repeat (case_match; bool_to_prop); decide_cmp; lia.
Qed.

Lemma lossy_as_bytes s : is_str s -> lossy (as_bytes s) = s.
Proof.
  induction 1 as [|c s Hc _ IH]; [done|]. unfold as_bytes in *. csimpl. by rewrite lossy_encode, IH.
Qed.

(** ** What a harvest holds *)

(** One entry's section of the text, and the text of several. *)
Definition section (p : chars * bytes) : chars :=
  (newline ++ str "--- ") ++ p.1 ++ (str " ---" ++ newline) ++ from_utf8_lossy p.2 ++ newline.
Definition kept_bytes (parts : list (chars * bytes)) : Z := sum_Z ((λ p, Z.of_nat (length p.2)) <$> parts).

(** The harvest is exactly these parts. *)
Definition made_of (h : Harvest) (parts : list (chars * bytes)) : Prop :=
  h_extracted h = parts.*1 ∧ h_text h = concat (section <$> parts).

(** A name that stays below the directory it is unpacked in. *)
Definition inside (name : chars) : Prop :=
  name <> [] ∧ 0 ∉ name ∧ Forall (λ seg, seg <> str "..") (split_any is_slash name) ∧
  climbs 0 (split_any is_slash name) = false.

Definition entry_ok (p : chars * bytes) : Prop :=
  inside p.1 ∧ is_text_like p.2 = true ∧ Z.of_nat (length p.2) <= MAX_ARCHIVE_ENTRY_BYTES.

Definition inspected (h : Harvest) : Z := Z.of_nat (length (h_extracted h) + length (h_skipped h)).

Lemma is_safe_entry_name_inside name : is_safe_entry_name name = true -> inside name.
Proof.
  unfold is_safe_entry_name. rewrite !andb_true_iff, !negb_true_iff. intros ((((Hn & _) & _) & H0) & Hd). bool_to_prop.
  assert (Forall (λ seg, seg <> str "..") (split_any is_slash name)) as Hs.
  { apply Forall_forall. intros seg Hseg ->. apply not_true_iff_false in Hd. apply Hd, existsb_exists.
    exists (str ".."). split; [by apply list_elem_of_In|done]. }
  split_and!; [done| |done|by apply climbs_no_parent].
  by rewrite <- contains_char_spec, H0.
Qed.

Lemma made_of_push h parts name buf : made_of h parts -> made_of (push_entry_text h name buf) (parts ++ [(name, buf)]).
Proof.
  intros [He Ht]. split; cbn [push_entry_text h_extracted h_text].
  - by rewrite He, fmap_app.
  - rewrite Ht, fmap_app, concat_app. by cbn [fmap list_fmap concat]; rewrite app_nil_r.
Qed.

(** The bytes of the reads whose stream held. *)
Definition ok_bytes (rs : list entry_read) : Z := sum_Z ((λ r, if rd_ok r then rd_bytes r else 0) <$> rs).
(** At most [n] entries were read, each up to its limit, and those that held
    within [total]. *)
Definition reads_ok (n total : Z) (rs : list entry_read) : Prop :=
  Z.of_nat (length rs) <= n ∧ Forall (λ r, 0 <= rd_bytes r <= MAX_ARCHIVE_ENTRY_BYTES) rs ∧ ok_bytes rs <= total.

(** The walk so far: what was kept, how many entries were listed, and what was
    read. *)
Definition walked (n total : Z) (h : Harvest) : Prop :=
  ∃ parts, made_of h parts ∧ Forall entry_ok parts ∧ kept_bytes parts <= total <= MAX_ARCHIVE_TOTAL_UNCOMPRESSED_BYTES ∧
    inspected h <= n ∧ reads_ok n total (h_reads h).

Lemma walked_new n format : 0 <= n -> walked n 0 (new_harvest format).
Proof.
  intros Hn. exists []. split_and!; done.
Qed.

Lemma walked_truncated n total h : walked n total h -> walked n total (set_truncated h).
Proof. intros (parts & ?). by exists parts. Qed.

Lemma walked_more n n' total h : walked n total h -> n <= n' -> walked n' total h.
Proof.
  intros (parts & ? & ? & ? & ? & ? & ? & ?) Hn. exists parts. split_and!; [done|done|lia|lia|lia|]. split_and!; [lia|done|done].
Qed.

Lemma walked_skip n total h name : walked n total h -> walked (n + 1) total (push_skipped h name).
Proof.
  intros (parts & ? & ? & ? & Hi & ? & ? & ?). exists parts. split_and!; [done|done|lia|lia| |].
  - unfold inspected in *. cbn [push_skipped h_extracted h_skipped]. rewrite length_app. simpl. lia.
  - split_and!; [simpl; lia|done|done].
Qed.

Lemma take_entry_walked n total h name s total' h' : inside name -> walked n total h ->
  take_entry name s total h = Some (total', h') -> walked (n + 1) total' h'.
Proof.
  intros Hin (parts & Hm & Hok & Ht & Hi & Hn & Hf & Hs). unfold take_entry, read_logged. destruct (_ =? 0) eqn:Eb; [done|].
  apply Z.eqb_neq in Eb. set (cap := Z.min MAX_ARCHIVE_ENTRY_BYTES _).
  assert (Hcap : 0 <= cap <= MAX_ARCHIVE_ENTRY_BYTES) by (unfold cap, MAX_ARCHIVE_ENTRY_BYTES; lia).
  destruct (read_capped cap s) as [buf|] eqn:Er; intros [= <- <-].
  - assert (Hlen : Z.min cap (Z.of_nat (length (st_data s))) = Z.of_nat (length buf)).
    { unfold read_capped in Er. destruct (_ && _); [done|]. injection Er as <-. rewrite length_take_z. lia. }
    assert (Hr : reads_ok (n + 1) (total + Z.of_nat (length buf))
      (h_reads (log_read (mkRead (Z.min cap (Z.of_nat (length (st_data s)))) true) h))).
    { split_and!; [simpl; lia|constructor; [simpl; lia|done]|]. unfold ok_bytes in *. csimpl. lia. }
    destruct (is_text_like buf) eqn:Etl.
    + exists (parts ++ [(name, buf)]). split_and!.
      * by apply made_of_push.
      * apply Forall_app. split; [done|]. constructor; [|done]. split_and!; [done|done|simpl; lia].
      * unfold kept_bytes in *. rewrite fmap_app, sum_Z_app. simpl. lia.
      * lia.
      * unfold inspected in *. cbn [push_entry_text log_read h_extracted h_skipped]. rewrite length_app. simpl. lia.
      * exact Hr.
    + exists parts. split_and!; [done|done|lia|lia| |exact Hr].
      unfold inspected in *. cbn [push_skipped log_read h_extracted h_skipped]. rewrite length_app. simpl. lia.
  - exists parts. split_and!; [done|done|lia|lia|unfold inspected in *; simpl; lia|].
    split_and!; [simpl; lia|constructor; [simpl; lia|done]|]. unfold ok_bytes in *. csimpl. lia.
Qed.

Lemma zip_loop_walked entries : ∀ n total h, walked n total h ->
  ∃ total', walked (n + Z.of_nat (length entries)) total' (zip_loop entries total h).
Proof.
  induction entries as [|[e|] es IH]; intros n total h Hw; cbn [zip_loop length].
  - exists total. eapply walked_more; [done|lia].
  - replace (n + Z.of_nat (S (length es))) with (n + 1 + Z.of_nat (length es)) by lia.
    destruct (ze_is_dir e); [apply IH; eapply walked_more; [done|lia]|].
    destruct (is_safe_entry_name (ze_name e)) eqn:Es; cbn [negb]; [|by apply IH, walked_skip].
    apply is_safe_entry_name_inside in Es.
    destruct (is_bomb e); [by apply IH, walked_skip|].
    destruct (take_entry _ _ _ _) as [[total' h']|] eqn:Et; [by eapply IH, take_entry_walked|].
    exists total. eapply walked_truncated, walked_more; [done|lia].
  - destruct (IH n total h Hw) as [t' Ht]. exists t'. eapply walked_more; [done|lia].
Qed.

Lemma tar_loop_walked entries : ∀ seen total h, 0 <= seen <= MAX_ARCHIVE_ENTRIES -> walked seen total h ->
  ∃ total', walked MAX_ARCHIVE_ENTRIES total' (tar_loop entries seen total h).
Proof.
  induction entries as [|[e|] es IH]; intros seen total h Hs Hw; cbn [tar_loop];
    [exists total; eapply walked_more; [done|lia]| |exists total; eapply walked_more; [done|lia]].
  destruct (_ <? _) eqn:El; bool_to_prop; [exists total; eapply walked_truncated, walked_more; [done|lia]|].
  destruct (te_is_file e); cbn [negb]; [|apply IH; [lia|]; eapply walked_more; [done|lia]].
  destruct (is_safe_entry_name (te_name e)) eqn:Es; cbn [negb]; [|apply IH; [lia|]; by apply walked_skip].
  apply is_safe_entry_name_inside in Es.
  destruct (take_entry _ _ _ _) as [[total' h']|] eqn:Et; [eapply IH; [lia|]; by eapply take_entry_walked|].
  exists total. eapply walked_truncated, walked_more; [done|lia].
Qed.

(** ** Archives within the limits *)

(** The files an archive yields when no limit is met. *)
Definition wanted (name : chars) (s : stream) : option (chars * bytes) :=
  if is_safe_entry_name name && negb (st_fails s) && is_text_like (st_data s) then Some (name, st_data s) else None.
Definition wanted_zip (e : option zip_entry) : option (chars * bytes) :=
  e ← e; if ze_is_dir e then None else wanted (ze_name e) (ze_stream e).
Definition wanted_tar (e : tar_entry) : option (chars * bytes) :=
  if te_is_file e then wanted (te_name e) (te_stream e) else None.

Definition stream_len (s : stream) : Z := Z.of_nat (length (st_data s)).
Definition zip_stream (e : option zip_entry) : stream := default (mkStream [] false) (ze_stream <$> e).

(** Fewer bytes than each limit, and the sizes in the directory are the real
    ones. *)
Definition small (ss : list stream) : Prop :=
  Z.of_nat (length ss) <= MAX_ARCHIVE_ENTRIES ∧ Forall (λ s, stream_len s < MAX_ARCHIVE_ENTRY_BYTES) ss ∧
  sum_Z (stream_len <$> ss) < MAX_ARCHIVE_TOTAL_UNCOMPRESSED_BYTES.

(** One entry read in full. *)
Lemma take_entry_small name s total h parts : is_safe_entry_name name = true -> stream_len s < MAX_ARCHIVE_ENTRY_BYTES ->
  0 <= total -> total + stream_len s < MAX_ARCHIVE_TOTAL_UNCOMPRESSED_BYTES -> made_of h parts ->
  ∃ total' h', take_entry name s total h = Some (total', h') ∧ 0 <= total' <= total + stream_len s ∧
    made_of h' (parts ++ option_list (wanted name s)) ∧ h_truncated h' = h_truncated h.
Proof.
  intros Hsafe He Ht Htot Hm. unfold take_entry, wanted. unfold stream_len in *. rewrite Hsafe. cbn [andb].
  rewrite (proj2 (Z.eqb_neq _ 0)) by lia. unfold read_logged, read_capped.
  destruct (st_fails s) eqn:Ef; cbn [andb negb].
  - rewrite (proj2 (Z.ltb_lt _ _)) by lia. eexists _, _. split_and!; [done|lia|lia|by rewrite app_nil_r|done].
  - rewrite take_z_all by lia. eexists _, _. split_and!; [done|lia|lia| |by destruct (is_text_like _)].
    destruct (is_text_like _); [by apply made_of_push|by rewrite app_nil_r].
Qed.

Lemma stream_len_pos s : 0 <= stream_len s.
Proof. unfold stream_len. lia. Qed.

Lemma sum_stream_len ss : 0 <= sum_Z (stream_len <$> ss).
Proof. induction ss as [|s ss IH]; csimpl; [lia|]. pose proof (stream_len_pos s). lia. Qed.

Definition honest (e : option zip_entry) : Prop :=
  match e with Some e => ze_size e = stream_len (ze_stream e) | None => True end.

Lemma honest_no_bomb e : honest (Some e) -> stream_len (ze_stream e) < MAX_ARCHIVE_ENTRY_BYTES -> is_bomb e = false.
Proof.
  intros He Hl. simpl in He. unfold is_bomb.
  rewrite (proj2 (Z.ltb_ge MAX_ARCHIVE_ENTRY_BYTES (ze_size e))) by lia. by rewrite andb_false_r.
Qed.

Lemma zip_loop_small entries : ∀ total h parts, Forall honest entries ->
  Forall (λ s, stream_len s < MAX_ARCHIVE_ENTRY_BYTES) (zip_stream <$> entries) -> 0 <= total ->
  total + sum_Z (stream_len <$> (zip_stream <$> entries)) < MAX_ARCHIVE_TOTAL_UNCOMPRESSED_BYTES -> made_of h parts ->
  made_of (zip_loop entries total h) (parts ++ omap wanted_zip entries) ∧
  h_truncated (zip_loop entries total h) = h_truncated h.
Proof.
  induction entries as [|o es IH]; intros total h parts Hh Hs Ht Hsum Hm; csimpl in *; [by rewrite app_nil_r|].
  apply Forall_cons in Hh as [He Hh]. apply Forall_cons in Hs as [Hl Hs].
  pose proof (stream_len_pos (zip_stream o)). pose proof (sum_stream_len (zip_stream <$> es)).
  destruct o as [e|]; csimpl in *; [|eapply IH; try done; lia]. unfold zip_stream in Hl; simpl in Hl.
  destruct (ze_is_dir e); [eapply IH; try done; lia|].
  destruct (is_safe_entry_name (ze_name e)) eqn:Esafe; cbn [negb].
  2:{ unfold wanted. rewrite Esafe. apply (IH total (push_skipped h (ze_name e)) parts); try done; lia. }
  rewrite honest_no_bomb by done.
  destruct (take_entry_small (ze_name e) (ze_stream e) total h parts) as (t' & h' & -> & ? & ? & <-); try done;
    [unfold zip_stream in *; simpl in *; lia|].
  destruct (IH t' h' (parts ++ option_list (wanted (ze_name e) (ze_stream e)))) as [IHm IHt]; try done; [lia| |].
  { unfold zip_stream in *; simpl in *; lia. }
  split; [|done]. rewrite <- app_assoc in IHm. by destruct (wanted _ _).
Qed.

Lemma tar_loop_small es : ∀ seen total h parts,
  Forall (λ s, stream_len s < MAX_ARCHIVE_ENTRY_BYTES) (te_stream <$> es) -> 0 <= total ->
  seen + Z.of_nat (length es) <= MAX_ARCHIVE_ENTRIES ->
  total + sum_Z (stream_len <$> (te_stream <$> es)) < MAX_ARCHIVE_TOTAL_UNCOMPRESSED_BYTES -> made_of h parts ->
  made_of (tar_loop (Some <$> es) seen total h) (parts ++ omap wanted_tar es) ∧
  h_truncated (tar_loop (Some <$> es) seen total h) = h_truncated h.
Proof.
  induction es as [|e es IH]; intros seen total h parts Hs Ht Hseen Hsum Hm; csimpl in *; [by rewrite app_nil_r|].
  apply Forall_cons in Hs as [Hl Hs].
  pose proof (stream_len_pos (te_stream e)). pose proof (sum_stream_len (te_stream <$> es)).
  rewrite (proj2 (Z.ltb_ge _ _)) by lia. unfold wanted_tar at 1 2.
  destruct (te_is_file e); cbn [negb]; [|eapply IH; try done; lia].
  destruct (is_safe_entry_name (te_name e)) eqn:Esafe; cbn [negb].
  2:{ unfold wanted. rewrite Esafe. apply (IH (seen + 1) total (push_skipped h (te_name e)) parts); try done; lia. }
  destruct (take_entry_small (te_name e) (te_stream e) total h parts) as (t' & h' & -> & ? & ? & <-); try done; [lia|].
  destruct (IH (seen + 1) t' h' (parts ++ option_list (wanted (te_name e) (te_stream e)))) as [IHm IHt]; try done; [lia|lia|lia|].
  split; [|done]. rewrite <- app_assoc in IHm. by destruct (wanted _ _).
Qed.

(** The length of the text a walk can produce. *)
Lemma str_len_section p : (str_len (section p) <= 3 * length p.2 + str_len p.1 + 11)%nat.
Proof.
  unfold section, from_utf8_lossy. rewrite !str_len_app.
  pose proof (lossy_len (byte_val <$> p.2)) as Hl. rewrite length_fmap in Hl.
  change (str_len newline) with 1%nat. change (str_len (str "--- ")) with 4%nat.
  change (str_len (str " ---")) with 4%nat. lia.
Qed.

Lemma str_len_sections parts :
  Z.of_nat (str_len (concat (section <$> parts))) <=
    3 * kept_bytes parts + sum_Z ((λ p, Z.of_nat (str_len p.1) + 11) <$> parts).
Proof.
  unfold kept_bytes. induction parts as [|p parts IH]; [done|]. cbn [fmap list_fmap concat sum_Z]. rewrite str_len_app.
  pose proof (str_len_section p). lia.
Qed.

Section Claims.
Context (zip_open : bytes -> option (list (option zip_entry))).
Context (tar_open : bytes -> option (list (option tar_entry))).
Context (gunzip : bytes -> stream).
Notation harvest := (harvest_archive zip_open tar_open gunzip).

(** Every archive, whatever the readers return for it. *)
Definition bounded (b : bytes) : Prop :=
  ∃ parts, made_of (harvest b) parts ∧ inspected (harvest b) <= MAX_ARCHIVE_ENTRIES ∧
    kept_bytes parts <= MAX_ARCHIVE_TOTAL_UNCOMPRESSED_BYTES ∧
    (Forall entry_ok parts ∨ ∃ content, parts = [(str "(gzip)", content)] ∧ is_text_like content = true) ∧
    Z.of_nat (str_len (h_text (harvest b))) <=
      3 * MAX_ARCHIVE_TOTAL_UNCOMPRESSED_BYTES + sum_Z ((λ p, Z.of_nat (str_len p.1) + 11) <$> parts).

(** Everything that is read, text or not. *)
Definition reads_bounded (b : bytes) : Prop :=
  reads_ok MAX_ARCHIVE_ENTRIES MAX_ARCHIVE_TOTAL_UNCOMPRESSED_BYTES (h_reads (harvest b)) ∧
  h_gunzipped (harvest b) <= MAX_ARCHIVE_TOTAL_UNCOMPRESSED_BYTES.

Definition complete (b : bytes) : Prop :=
  (∀ entries, zip_open b = Some entries -> small (zip_stream <$> entries) -> Forall honest entries ->
     has_prefix PK34 b = true -> made_of (harvest b) (omap wanted_zip entries) ∧ h_truncated (harvest b) = false) ∧
  (∀ es, tar_open b = Some (Some <$> es) -> small (te_stream <$> es) -> is_tar b = true ->
     has_prefix PK34 b || has_prefix PK56 b || has_prefix [x1f; x8b] b = false ->
     made_of (harvest b) (omap wanted_tar es) ∧ h_truncated (harvest b) = false).

Lemma walked_bounded n total b : n <= MAX_ARCHIVE_ENTRIES -> walked n total (harvest b) ->
  bounded b ∧ reads_ok MAX_ARCHIVE_ENTRIES MAX_ARCHIVE_TOTAL_UNCOMPRESSED_BYTES (h_reads (harvest b)).
Proof.
  intros Hn (parts & Hm & Hok & Ht & Hi & ? & ? & ?). split; [|split_and!; [lia|done|lia]].
  exists parts. split_and!; [done|lia|lia|by left|].
  rewrite (proj2 Hm). pose proof (str_len_sections parts). lia.
Qed.

Lemma harvest_zip_walked b : ∃ n total, n <= MAX_ARCHIVE_ENTRIES ∧ walked n total (harvest_zip zip_open b).
Proof.
  unfold harvest_zip. destruct (zip_open b) as [entries|].
  - edestruct (zip_loop_walked (take_z (Z.min (Z.of_nat (length entries)) MAX_ARCHIVE_ENTRIES) entries) 0 0) as [t Ht];
      [|eexists _, t; split; [|exact Ht]].
    + destruct (_ <? _); [apply walked_truncated|]; by apply walked_new.
    + rewrite length_take_z. unfold MAX_ARCHIVE_ENTRIES. lia.
  - exists 0, 0. split; [done|by apply walked_new].
Qed.

Lemma harvest_tar_walked b format : ∃ n total, n <= MAX_ARCHIVE_ENTRIES ∧ walked n total (harvest_tar tar_open b format).
Proof.
  unfold harvest_tar. destruct (tar_open b) as [entries|].
  - destruct (tar_loop_walked entries 0 0 (new_harvest format)) as [t Ht]; [done|by apply walked_new|].
    by eexists _, t.
  - exists 0, 0. split; [done|by apply walked_new].
Qed.

(** Logging the gzip stream changes nothing that is kept. *)
Lemma walked_gunzip n total r h : walked n total h -> walked n total (log_gunzip r h).
Proof. intros (parts & ?). by exists parts. Qed.

Lemma harvest_bounded b : bounded b ∧ reads_ok MAX_ARCHIVE_ENTRIES MAX_ARCHIVE_TOTAL_UNCOMPRESSED_BYTES (h_reads (harvest b)).
Proof.
  destruct (harvest_zip_walked b) as (n & t & Hn & Hz).
  destruct (harvest_tar_walked b (str "tar")) as (n' & t' & Hn' & Ht).
  destruct (has_prefix PK34 b || has_prefix PK56 b) eqn:E1;
    [|destruct (has_prefix [x1f; x8b] b) eqn:E2; [|destruct (is_tar b) eqn:E3]].
  - apply (walked_bounded n t); [done|]. unfold harvest_archive. by rewrite E1.
  - assert (Hg : harvest b = harvest_gzip tar_open gunzip b) by (unfold harvest_archive; by rewrite E1, E2).
    unfold harvest_gzip, read_logged in Hg. destruct (read_capped _ _) as [buf|] eqn:Er.
    2:{ eapply (walked_bounded 0 0); [done|]. rewrite Hg. apply walked_gunzip. by apply walked_new. }
    destruct (is_tar buf).
    { destruct (harvest_tar_walked buf (str "tar.gz")) as (n2 & t2 & Hn2 & Ht2).
      apply (walked_bounded n2 t2); [done|]. rewrite Hg. by apply walked_gunzip. }
    destruct (is_text_like buf) eqn:El; [|eapply (walked_bounded 0 0); [done|]; rewrite Hg; apply walked_gunzip; by apply walked_new].
    apply read_capped_len in Er; [|done].
    assert (Hm : made_of (harvest b) [(str "(gzip)", buf)]) by (rewrite Hg; by apply (made_of_push (new_harvest (str "gzip")) [])).
    assert (Hrb : kept_bytes [(str "(gzip)", buf)] <= MAX_ARCHIVE_TOTAL_UNCOMPRESSED_BYTES) by (unfold kept_bytes; simpl; lia).
    split; [|rewrite Hg; split_and!; [done|constructor|done]].
    exists [(str "(gzip)", buf)]. split_and!; [done|rewrite Hg; unfold inspected, MAX_ARCHIVE_ENTRIES; simpl; lia|done|right; by exists buf|].
    rewrite (proj2 Hm). etrans; [apply str_len_sections|]. apply Z.add_le_mono_r. lia.
  - apply (walked_bounded n' t'); [done|]. unfold harvest_archive. by rewrite E1, E2, E3.
  - eapply (walked_bounded 0 0); [done|]. unfold harvest_archive. rewrite E1, E2, E3. by apply walked_new.
Qed.

(** Only the gzip reader logs a gzip stream. *)
Lemma take_entry_gunzipped name s total h total' h' :
  take_entry name s total h = Some (total', h') -> h_gunzipped h' = h_gunzipped h.
Proof.
  unfold take_entry, read_logged. destruct (_ =? 0); [done|].
  destruct (read_capped _ _) as [buf|]; [destruct (is_text_like buf)|]; by intros [= <- <-].
Qed.
Lemma zip_loop_gunzipped es : ∀ total h, h_gunzipped (zip_loop es total h) = h_gunzipped h.
Proof.
  induction es as [|[e|] es IH]; intros total h; cbn [zip_loop]; [done| |apply IH].
  destruct (ze_is_dir e); [apply IH|]. destruct (negb _); [by rewrite IH|]. destruct (is_bomb e); [by rewrite IH|].
  destruct (take_entry _ _ _ _) as [[t' h']|] eqn:Et; [|done]. by rewrite IH, (take_entry_gunzipped _ _ _ _ _ _ Et).
Qed.
Lemma tar_loop_gunzipped es : ∀ seen total h, h_gunzipped (tar_loop es seen total h) = h_gunzipped h.
Proof.
  induction es as [|[e|] es IH]; intros seen total h; cbn [tar_loop]; [done| |done].
  destruct (_ <? _); [done|]. destruct (negb _); [apply IH|]. destruct (negb _); [by rewrite IH|].
  destruct (take_entry _ _ _ _) as [[t' h']|] eqn:Et; [|done]. by rewrite IH, (take_entry_gunzipped _ _ _ _ _ _ Et).
Qed.

Lemma harvest_gunzipped b : h_gunzipped (harvest b) <= MAX_ARCHIVE_TOTAL_UNCOMPRESSED_BYTES.
Proof.
  assert (Htar : ∀ b f, h_gunzipped (harvest_tar tar_open b f) = 0).
  { intros b' f. unfold harvest_tar. destruct (tar_open b'); [by rewrite tar_loop_gunzipped|done]. }
  unfold harvest_archive. destruct (_ || _); [|destruct (has_prefix [x1f; x8b] b); [|destruct (is_tar b); [by rewrite Htar|done]]].
  - unfold harvest_zip. destruct (zip_open b); [|done]. rewrite zip_loop_gunzipped. by destruct (_ <? _).
  - unfold harvest_gzip, read_logged. simpl. lia.
Qed.

Lemma harvest_complete b : complete b.
Proof.
  split.
  - intros entries Ho (Hn & Hs & Hsum) Hh Hp. unfold harvest_archive, harvest_zip. rewrite Hp, Ho. cbn [orb].
    rewrite length_fmap in Hn. rewrite (proj2 (Z.ltb_ge _ _)), take_z_all by lia.
    by apply (zip_loop_small entries 0 (new_harvest (str "zip")) []).
  - intros es Ho (Hn & Hs & Hsum) Ht Hp. unfold harvest_archive, harvest_tar. apply orb_false_iff in Hp as [Hp1 Hp2].
    rewrite Hp1, Hp2, Ht, Ho. rewrite length_fmap in Hn. apply (tar_loop_small es 0 0 (new_harvest (str "tar")) []); try done; lia.
Qed.

End Claims.

(** An entry whose stream fails is not charged: any number of bytes below the
    limit is decompressed for it, and the budget stays as it was. *)
Lemma failed_entry_free name data total h :
  0 <= total < MAX_ARCHIVE_TOTAL_UNCOMPRESSED_BYTES ->
  Z.of_nat (length data) < Z.min MAX_ARCHIVE_ENTRY_BYTES (MAX_ARCHIVE_TOTAL_UNCOMPRESSED_BYTES - total) ->
  take_entry name (mkStream data true) total h = Some (total, log_read (mkRead (Z.of_nat (length data)) false) h).
Proof.
  intros Ht Hl. unfold take_entry, read_logged, read_capped. cbn [st_fails st_data].
  rewrite (proj2 (Z.eqb_neq _ 0)), (proj2 (Z.ltb_lt _ _)) by lia. simpl. by rewrite Z.min_r by lia.
Qed.

(** A file's own text appears in its section unchanged. *)
Lemma section_text name content t : is_str t -> byte_val <$> content = as_bytes t ->
  section (name, content) = (newline ++ str "--- ") ++ name ++ (str " ---" ++ newline) ++ t ++ newline.
Proof. intros Ht Hb. unfold section, from_utf8_lossy. cbn [fst snd]. by rewrite Hb, lossy_as_bytes. Qed.
