(* ===== verification/DocBuilder.v ===== *)
(** * Documents from files
      (pipeline/src/document_builder.rs, pipeline/src/metadata_merge.rs, core/src/extractor.rs)

    The first and the fourth step of an ingestion: the document and file
    records made of the uploaded bytes, and the merging of what was extracted
    from each page.  The SHA-256 digest and the magic-byte table of
    [tree_magic_mini] are parameters.  The detection helpers repeat those of
    extract/src/security.rs, as the two crates do; that they agree is a
    theorem. *)

From stdpp Require Import base list strings pretty.
From Stdlib Require Import ZArith Lia Strings.Byte.
From S2P Require Import Prelude FloatModel Text Json Role Blob Schema Sessions Guards.
Open Scope Z_scope.

(** [Display] of an integer. *)
Definition show_int (n : Z) : chars := str (pretty n).

(** ** Extraction results *)

Record PageImage := mkPageImage {
  pi_data : bytes;
  pi_mime : chars;
}.
Record Extracted := mkExtracted {
  ex_text : chars;
  ex_meta : json;
  ex_page_images : list PageImage;
}.
Definition default_extracted : Extracted := mkExtracted [] JNull [].

(** ** Detection *)

Definition contains_subslice (haystack needle : bytes) : bool :=
  if (length needle =? 0)%nat || (length haystack <? length needle)%nat then false
  else any_window needle haystack.

Definition SCAN_LIMIT : nat := Z.to_nat (64 * 1024).
Definition classify_zip_container (b : bytes) : chars :=
  let window := take SCAN_LIMIT b in
  if contains_subslice window (lit "[Content_Types].xml") then
    if contains_subslice window (lit "word/") then str (OOXML +:+ "wordprocessingml.document")
    else if contains_subslice window (lit "xl/") then str (OOXML +:+ "spreadsheetml.sheet")
    else if contains_subslice window (lit "ppt/") then str (OOXML +:+ "presentationml.presentation")
    else str (OOXML +:+ "wordprocessingml.document")
  else if contains_subslice window (lit "META-INF/MANIFEST.MF") then str "application/java-archive"
  else str "application/zip".

Definition normalize_octet_stream_magic (b : bytes) : chars :=
  let long := (12 <=? length b)%nat in
  if has_prefix PK34 b then str "application/zip"
  else if long && has_at 0 (lit "RIFF") b && has_at 8 (lit "WAVE") b then str "audio/wav"
  else if long && has_at 0 (lit "RIFF") b && has_at 8 (lit "WEBP") b then str "image/webp"
  else if long && has_at 4 (lit "ftyp") b then
    let brand := take 4 (drop 8 b) in
    let br x := bool_decide (brand = lit x) in
    if br "qt  " then str "video/quicktime"
    else if br "heic" || br "heix" || br "heim" || br "heis" || br "heif" then str "image/heic"
    else if br "mif1" || br "msf1" || br "avif" then str "image/avif"
    else if has_prefix (lit "3gp") brand then str "video/3gpp"
    else str "video/mp4"
  else str "application/octet-stream".

(** ** Kinds *)

Definition archive_mimes : list string :=
  ["application/zip"; "application/x-tar"; "application/gzip"; "application/x-bzip2"; "application/x-xz";
   "application/zstd"; "application/x-7z-compressed"; "application/x-rar-compressed"].
Definition document_mimes : list string :=
  ["application/pdf"; "application/msword";
   "application/vnd.openxmlformats-officedocument.wordprocessingml.document";
   "application/vnd.openxmlformats-officedocument.presentationml.presentation";
   "application/vnd.openxmlformats-officedocument.spreadsheetml.sheet";
   "application/vnd.oasis.opendocument.text"; "application/vnd.oasis.opendocument.presentation";
   "application/vnd.oasis.opendocument.spreadsheet"; "application/rtf"; "application/x-empty"].

Definition mime_to_doc_kind (mime : chars) : DocKind :=
  if starts_with (str "image/") mime then KImage
  else if starts_with (str "audio/") mime then KAudio
  else if starts_with (str "video/") mime then KVideo
  else if bool_decide (mime = str "application/x-matroska") then KVideo
  else if listed_mime mime archive_mimes then KArchive
  else if listed_mime mime document_mimes then KDocument
  else if bool_decide (mime = str "message/rfc822") then KEmail
  else if starts_with (str "text/") mime then KDocument
  else KBinary.

Definition infer_doc_kind (mimes : list chars) : DocKind :=
  match mime_to_doc_kind <$> mimes with
  | [] => KBinary
  | (first :: _) as kinds => if forallb (λ k, bool_decide (k = first)) kinds then first else KDocument
  end.

Definition build_blob_key (tenant_id : Z) (sha256_hex : chars) : chars := show_int tenant_id ++ str "/" ++ sha256_hex.

(** ** The records *)

Record PageInput := mkPageInput {
  pg_bytes : bytes;
  pg_label : option chars;
  pg_path : option chars;
}.

Definition no_sync : SourceSync := mkSync None None None None None 1 0.

Section Build.
Context (tree_magic : bytes -> chars) (sha256 : bytes -> bytes).

Definition detect_mime (b : bytes) : chars :=
  match b with
  | [] => str "application/x-empty"
  | _ =>
      let detected := tree_magic b in
      let mime := if bool_decide (detected = str "application/octet-stream")
                     || bool_decide (detected = str "application/x-riff")
                  then normalize_octet_stream_magic b else detected in
      if bool_decide (mime = str "application/zip") then classify_zip_container b else mime
  end.

Definition file_record (now tenant_id : Z) (idx : nat) (page : PageInput) : FileRecord :=
  let digest := sha256 (pg_bytes page) in
  let len := Z.of_nat (length (pg_bytes page)) in
  mkFileRecord 0 tenant_id 0 (wrap i32 (Z.of_nat (idx + 1))) (pg_label page) digest
    (build_blob_key tenant_id (hex_encode digest)) (pg_path page) (Some (detect_mime (pg_bytes page)))
    (Some (if len <=? ity_max i64 then len else ity_max i64)) (JObject []) Pending now.

Definition build_multi (now tenant_id : Z) (pages : list PageInput) (user_note : option chars)
    : Document * list FileRecord :=
  let page_count := wrap i32 (Z.of_nat (length pages)) in
  let file_records := imap (file_record now tenant_id) pages in
  let mimes := (λ page, detect_mime (pg_bytes page)) <$> pages in
  let kind := infer_doc_kind mimes in
  (mkDocument 0 tenant_id None None user_note kind (JObject []) page_count Pending now false no_sync, file_records).

Definition build_single (now tenant_id : Z) (b : bytes) (path user_note : option chars)
    : Document * list FileRecord :=
  build_multi now tenant_id [mkPageInput b path path] user_note.
End Build.

(** ** Merging pages *)

Record MergedDocument := mkMerged {
  md_text : chars;
  md_meta : json;
  md_kind : DocKind;
  md_page_count : Z;
  md_page_images : list PageImage;
}.

Definition page_separator (file : FileRecord) : chars :=
  match fr_page_label file with
  | Some label => str "--- page " ++ show_int (fr_page_no file) ++ str " (" ++ label ++ str ") ---"
  | None => str "--- page " ++ show_int (fr_page_no file) ++ str " ---"
  end.

Definition page_text (file : FileRecord) (extracted : Extracted) : chars :=
  page_separator file ++ match ex_text extracted with [] => [] | text => [10] ++ text end.

Fixpoint merge_text_from (i : nat) (out : chars) (pages : list (FileRecord * Extracted)) : chars :=
  match pages with
  | [] => out
  | (file, extracted) :: pages' =>
      let out := if (0 <? i)%nat then out ++ [10; 10] else out in
      merge_text_from (S i) (out ++ page_text file extracted) pages'
  end.
Definition merge_text (pages : list (FileRecord * Extracted)) : chars :=
  match pages with [] => [] | _ => merge_text_from 0 [] pages end.

(** [if let Some(v) = field { page_obj.insert(..) }]. *)
Definition insert_some {A} (k : string) (f : A -> json) (v : option A) (m : list (chars * json)) : list (chars * json) :=
  match v with Some a => obj_insert (str k) (f a) m | None => m end.

Definition page_obj (file : FileRecord) (extracted : Extracted) : list (chars * json) :=
  let m := match ex_meta extracted with
           | JObject em => foldl (λ m kv, obj_insert kv.1 kv.2 m) [] em
           | _ => []
           end in
  let m := insert_some "page_label" JString (fr_page_label file) m in
  let m := insert_some "mime" JString (fr_mime file) m in
  let m := insert_some "path" JString (fr_path file) m in
  let m := insert_some "size_bytes" JInt (fr_size_bytes file) m in
  let m := obj_insert (str "sha256") (JString (hex_encode (fr_sha256 file))) m in
  obj_insert (str "blob_key") (JString (fr_blob_key file)) m.

Definition page_key (page_no : Z) : chars := str "page_" ++ show_int page_no.
Definition merge_meta (pages : list (FileRecord * Extracted)) : json :=
  JObject (foldl (λ m fe, obj_insert (page_key (fr_page_no fe.1)) (JObject (page_obj fe.1 fe.2)) m) [] pages).

Definition dominant_kind (pages : list (FileRecord * Extracted)) : DocKind :=
  match pages with
  | [] => KBinary
  | _ => infer_doc_kind ((λ fe, default (str "application/octet-stream") (fr_mime fe.1)) <$> pages)
  end.

Definition merge_images (pages : list (FileRecord * Extracted)) : list PageImage :=
  pages ≫= λ fe, ex_page_images fe.2.

Definition merge (pages : list (FileRecord * Extracted)) : MergedDocument :=
  mkMerged (merge_text pages) (merge_meta pages) (dominant_kind pages) (wrap i32 (Z.of_nat (length pages)))
    (merge_images pages).

(** ** Keys *)

Lemma str_inj : Inj (=) (=) str.
Proof.
  intros a. induction a as [|x a IH]; intros [|y b]; simpl; try done. intros [= Hxy H]. f_equal; [|auto].
  rewrite <- (Ascii.ascii_N_embedding x), <- (Ascii.ascii_N_embedding y). f_equal. lia.
Qed.

Lemma show_int_inj a b : show_int a = show_int b -> a = b.
Proof. intros H%str_inj. by apply (inj pretty) in H. Qed.

(** A printed number is digits and a sign. *)
Definition num_char (c : Z) : Prop := c = 45 ∨ 48 <= c <= 57.

Lemma pretty_N_go_chars x s : Forall num_char (str s) -> Forall num_char (str (pretty_N_go x s)).
Proof.
  revert s. induction (N.lt_wf_0 x) as [x _ IH]; intros s Hs.
  destruct (decide (x = 0%N)) as [->|Hx]; [by rewrite pretty_N_go_0|].
  rewrite pretty_N_go_step by lia. apply IH; [by apply N.div_lt; lia|].
  cbn [str]. constructor; [|done]. right. unfold pretty_N_char. by repeat case_match.
Qed.

Lemma pretty_N_chars (x : N) : Forall num_char (str (pretty x)).
Proof.
  unfold pretty, pretty_N. case_decide; [|by apply pretty_N_go_chars].
  constructor; [|constructor]. right. by split.
Qed.

Lemma show_int_chars n : Forall num_char (show_int n).
Proof.
  unfold show_int. destruct n as [|p|p]; [by apply (pretty_N_chars 0)|by apply (pretty_N_chars (N.pos p))|].
  change (str (pretty (Z.neg p))) with (45 :: str (pretty (N.pos p))).
  constructor; [by left|apply pretty_N_chars].
Qed.

Lemma show_int_no_slash n : 47 ∉ show_int n.
Proof. intros H. pose proof (show_int_chars n) as Hc. rewrite Forall_forall in Hc. destruct (Hc _ H); lia. Qed.

Lemma app_sep_inj (c : Z) a b a' b' : c ∉ a -> c ∉ a' -> a ++ c :: b = a' ++ c :: b' -> a = a' ∧ b = b'.
Proof.
  revert a'. induction a as [|x a IH]; intros [|y a'] Ha Ha' E; simplify_eq/=.
  - done.
  - by destruct Ha'; left.
  - by destruct Ha; left.
  - rewrite not_elem_of_cons in Ha, Ha'. destruct (IH a') as [-> ->]; naive_solver.
Qed.

Lemma hex_digit_inj a b : 0 <= a < 16 -> 0 <= b < 16 -> hex_digit a = hex_digit b -> a = b.
Proof. unfold hex_digit. intros. repeat case_match; bool_to_prop; lia. Qed.

Lemma hex_encode_inj b b' : hex_encode b = hex_encode b' -> b = b'.
Proof.
  unfold hex_encode. revert b'. induction b as [|x b IH]; intros [|y b']; csimpl; try done. intros [= H1 H2 H3].
  f_equal; [|auto]. pose proof (byte_val_bound x). pose proof (byte_val_bound y).
  apply hex_digit_inj in H1, H2; try (Z.to_euclidean_division_equations; lia).
  apply byte_val_inj. rewrite (Z.div_mod (byte_val x) 16), (Z.div_mod (byte_val y) 16) by lia. lia.
Qed.

(** Two blob keys are equal exactly for the same tenant and digest. *)
Lemma build_blob_key_inj t t' d d' :
  build_blob_key t (hex_encode d) = build_blob_key t' (hex_encode d') <-> t = t' ∧ d = d'.
Proof.
  split; [|by intros [-> ->]]. unfold build_blob_key. intros H. change (str "/") with [47] in H. cbn [app] in H.
  apply app_sep_inj in H as [Ht Hd]; [|apply show_int_no_slash..].
  split; [by apply show_int_inj|by apply hex_encode_inj].
Qed.

(** ** The records of an upload *)

Lemma infer_doc_kind_all k mimes : mimes <> [] -> Forall (λ m, mime_to_doc_kind m = k) mimes -> infer_doc_kind mimes = k.
Proof.
  intros Hne Hall. unfold infer_doc_kind. destruct mimes as [|m ms]; [done|]. cbn [fmap list_fmap].
  rewrite (proj2 (forallb_forall _ _)); [by apply Forall_cons in Hall as [-> _]|].
  intros k' (m' & -> & Hm')%list_elem_of_In%(list_elem_of_fmap mime_to_doc_kind (m :: ms)).
  rewrite Forall_forall in Hall. apply bool_decide_eq_true_2. rewrite (Hall m'), (Hall m); [done|left|done].
Qed.

Lemma infer_doc_kind_mixed mimes m m' : m ∈ mimes -> m' ∈ mimes -> mime_to_doc_kind m <> mime_to_doc_kind m' ->
  infer_doc_kind mimes = KDocument.
Proof.
  intros Hm Hm' Hne. unfold infer_doc_kind. destruct (mime_to_doc_kind <$> mimes) as [|k ks] eqn:E.
  { apply fmap_nil_inv in E as ->. by apply not_elem_of_nil in Hm. }
  destruct (forallb _ _) eqn:Ef; [|done]. rewrite forallb_forall in Ef.
  assert (Hk : ∀ x, x ∈ mimes -> mime_to_doc_kind x = k).
  { intros x Hx. specialize (Ef (mime_to_doc_kind x)). apply bool_decide_eq_true in Ef; [done|].
    rewrite <- E. apply list_elem_of_In, list_elem_of_fmap. by exists x. }
  by rewrite (Hk m), (Hk m') in Hne.
Qed.

Section Records.
Context (tree_magic : bytes -> chars) (sha256 : bytes -> bytes).
Notation build_multi := (build_multi tree_magic sha256).
Notation detect_mime := (detect_mime tree_magic).

(** What the record of one page says. *)
Record describes (t : Z) (i : nat) (p : PageInput) (f : FileRecord) : Prop := {
  ds_tenant : fr_tenant f = t;
  ds_page : fr_page_no f = Z.of_nat i + 1;
  ds_label : fr_page_label f = pg_label p;
  ds_path : fr_path f = pg_path p;
  ds_sha : fr_sha256 f = sha256 (pg_bytes p);
  ds_key : fr_blob_key f = build_blob_key t (hex_encode (sha256 (pg_bytes p)));
  ds_mime : fr_mime f = Some (detect_mime (pg_bytes p));
  ds_size : in_ty i64 (Z.of_nat (length (pg_bytes p))) -> fr_size_bytes f = Some (Z.of_nat (length (pg_bytes p)));
  ds_pending : fr_status f = Pending;
}.

(** The kind of a document by the kinds of its pages. *)
Record kind_rule (kinds : list DocKind) (k : DocKind) : Prop := {
  kr_empty : kinds = [] -> k = KBinary;
  kr_same k' : kinds <> [] -> Forall (eq k') kinds -> k = k';
  kr_mixed a b : a ∈ kinds -> b ∈ kinds -> a <> b -> k = KDocument;
}.

Lemma infer_doc_kind_rule mimes : kind_rule (mime_to_doc_kind <$> mimes) (infer_doc_kind mimes).
Proof.
  split.
  - by intros ->%fmap_nil_inv.
  - intros k' Hne Hall. apply infer_doc_kind_all; [by intros ->|]. rewrite Forall_fmap in Hall.
    eapply Forall_impl; [done|]. by intros m ->.
  - intros a b (m & -> & Hm)%list_elem_of_fmap (m' & -> & Hm')%list_elem_of_fmap Hne.
    by apply (infer_doc_kind_mixed mimes m m').
Qed.

Lemma file_record_describes now t i p : Z.of_nat i + 1 <= ity_max i32 -> describes t i p (file_record tree_magic sha256 now t i p).
Proof.
  intros Hi. split; try done; cbn [file_record fr_page_no fr_size_bytes].
  - rewrite wrap_id; [lia|]. unfold in_ty, i32 in *. simpl in *. lia.
  - intros Hl. unfold in_ty in Hl. by rewrite (proj2 (Z.leb_le _ _)) by lia.
Qed.

Lemma build_multi_describes now t pages note i p : Z.of_nat (length pages) <= ity_max i32 -> pages !! i = Some p ->
  ∃ f, (build_multi now t pages note).2 !! i = Some f ∧ describes t i p f.
Proof.
  intros Hl Hp. exists (file_record tree_magic sha256 now t i p). split.
  - cbn [build_multi snd]. by rewrite list_lookup_imap, Hp.
  - apply file_record_describes. apply lookup_lt_Some in Hp. lia.
Qed.

(** The records of an upload: the document is pending and counts its pages,
    file [i] describes page [i] of the input under number [i + 1] with a key made of the tenant
    and the digest of its bytes, and the document's kind is the common kind of
    its pages, [Document] when they differ and [Binary] without pages.  Two
    files of any two uploads share a blob key exactly when they belong to one
    tenant and have one digest. *)
Theorem build_exact now t pages note :
  Z.of_nat (length pages) <= ity_max i32 ->
  let r := build_multi now t pages note in
  doc_page_count r.1 = Z.of_nat (length pages) ∧ length r.2 = length pages ∧ doc_tenant r.1 = t ∧
  doc_status r.1 = Pending ∧ doc_user_note r.1 = note ∧
  (∀ i p, pages !! i = Some p -> ∃ f, r.2 !! i = Some f ∧ describes t i p f) ∧
  kind_rule ((λ p, mime_to_doc_kind (detect_mime (pg_bytes p))) <$> pages) (doc_kind r.1) ∧
  (∀ now' t' pages' note' i j f g, r.2 !! i = Some f -> (build_multi now' t' pages' note').2 !! j = Some g ->
     fr_blob_key f = fr_blob_key g <-> t = t' ∧ fr_sha256 f = fr_sha256 g).
Proof.
  intros Hl r. split_and!; try done.
  - cbn [r build_multi doc_page_count fst]. apply wrap_id. unfold in_ty, i32 in *. simpl in *. lia.
  - apply length_imap.
  - intros i p Hp. by apply build_multi_describes.
  - pose proof (infer_doc_kind_rule ((λ p, detect_mime (pg_bytes p)) <$> pages)) as Hk.
    by rewrite <- list_fmap_compose in Hk.
  - intros now' t' pages' note' i j f g Hf Hg. cbn [r build_multi snd] in Hf, Hg.
    rewrite list_lookup_imap in Hf, Hg. apply fmap_Some in Hf as (p & _ & ->), Hg as (q & _ & ->).
    apply build_blob_key_inj.
Qed.
End Records.

(** ** The upload edge and the pipeline *)

(** The scan limits are compared as names, never as unary numbers. *)
#[local] Strategy opaque [SCAN_LIMIT ZIP_SCAN_LIMIT].

Lemma normalize_in_step b : Guards.normalize_octet_stream_magic b = normalize_octet_stream_magic b.
Proof. reflexivity. Qed.

Lemma contains_in_step : Guards.contains_subslice = contains_subslice.
Proof. reflexivity. Qed.

(** The two scans, as functions of the scanned window. *)
Definition classify_window (window : bytes) : chars :=
  if contains_subslice window (lit "[Content_Types].xml") then
    if contains_subslice window (lit "word/") then str (OOXML +:+ "wordprocessingml.document")
    else if contains_subslice window (lit "xl/") then str (OOXML +:+ "spreadsheetml.sheet")
    else if contains_subslice window (lit "ppt/") then str (OOXML +:+ "presentationml.presentation")
    else str (OOXML +:+ "wordprocessingml.document")
  else if contains_subslice window (lit "META-INF/MANIFEST.MF") then str "application/java-archive"
  else str "application/zip".

Lemma classify_window_eq : classify_zip_container = λ b, classify_window (take SCAN_LIMIT b).
Proof. unfold classify_zip_container, classify_window. reflexivity. Qed.

Lemma classify_in_step : Guards.classify_zip_container = classify_zip_container.
Proof.
  assert (E : ZIP_SCAN_LIMIT = SCAN_LIMIT) by reflexivity.
  unfold Guards.classify_zip_container, classify_zip_container. rewrite E, contains_in_step. reflexivity.
Qed.

Lemma classify_not_text b : classify_zip_container b <> str "text/plain".
Proof.
  rewrite classify_window_eq. generalize (take SCAN_LIMIT b). intros w. unfold classify_window.
  repeat case_match; discriminate.
Qed.

(** What the pipeline detects is what the upload edge accepted, except that
    only the edge recognizes e-mail. *)
Lemma detection_in_step tree_magic b :
  detect_upload_mime tree_magic b =
    if bool_decide (detect_mime tree_magic b = str "text/plain") && looks_like_email b
    then str "message/rfc822" else detect_mime tree_magic b.
Proof.
  destruct b as [|x b]; [reflexivity|]. unfold detect_upload_mime, detect_mime. cbv zeta.
  rewrite normalize_in_step, classify_in_step.
  generalize (x :: b); intros bs. set (mime := if bool_decide (tree_magic bs = _) || _ then _ else _).
  destruct (bool_decide (mime = str "application/zip")); [|reflexivity].
  rewrite (bool_decide_eq_false_2 _ (classify_not_text bs)). generalize (classify_zip_container bs). reflexivity.
Qed.

(** ** What a merge keeps *)

Lemma merge_text_from_join i out pages : (0 < i)%nat ->
  merge_text_from i out pages = out ++ (pages ≫= λ fe, [10; 10] ++ page_text fe.1 fe.2).
Proof.
  revert i out. induction pages as [|[f e] pages IH]; intros i out Hi; cbn [merge_text_from].
  - by rewrite app_nil_r.
  - rewrite (proj2 (Nat.ltb_lt 0 i)) by done. rewrite IH by lia. cbn [mbind list_bind fst snd].
    by rewrite <- !app_assoc.
Qed.

Lemma join_cons sep w ws : join sep (w :: ws) = w ++ (ws ≫= λ w', sep ++ w').
Proof.
  revert w. induction ws as [|w' ws IH]; intros w; [by rewrite app_nil_r|].
  change (join sep (w :: w' :: ws)) with (w ++ sep ++ join sep (w' :: ws)). rewrite IH. csimpl. by rewrite <- app_assoc.
Qed.

Lemma merge_text_join pages : merge_text pages = join [10; 10] ((λ fe, page_text fe.1 fe.2) <$> pages).
Proof.
  destruct pages as [|[f e] pages]; [done|]. unfold merge_text. cbn [merge_text_from]. rewrite (proj2 (Nat.ltb_ge 0 0)) by lia.
  rewrite merge_text_from_join by lia. cbn [app fmap list_fmap fst snd]. rewrite join_cons. f_equal.
  induction pages as [|fe pages IH]; [done|]. cbn [mbind list_bind fmap list_fmap]. by rewrite IH.
Qed.

(** The entries of a page's object that come from its file record. *)
Definition own_fields (f : FileRecord) : list (chars * json) :=
  [(str "blob_key", JString (fr_blob_key f)); (str "sha256", JString (hex_encode (fr_sha256 f)))] ++
  option_list ((λ n, (str "size_bytes", JInt n)) <$> fr_size_bytes f) ++
  option_list ((λ s, (str "path", JString s)) <$> fr_path f) ++
  option_list ((λ s, (str "mime", JString s)) <$> fr_mime f) ++
  option_list ((λ s, (str "page_label", JString s)) <$> fr_page_label f).

Definition meta_map (e : Extracted) : list (chars * json) := match ex_meta e with JObject m => m | _ => [] end.

(** A file field, or else what the extractor found. *)
Definition page_entry (f : FileRecord) (e : Extracted) (k : chars) : option json :=
  match obj_get k (own_fields f) with Some v => Some v | None => obj_get k (meta_map e) end.

Lemma obj_get_none {V} k (m : list (chars * V)) : k ∉ m.*1 -> obj_get k m = None.
Proof.
  induction m as [|[k' v] m IH]; [done|]. csimpl. rewrite not_elem_of_cons. intros [Hne Hm].
  rewrite decide_False by done. auto.
Qed.

Lemma obj_get_foldl {V} k (m acc : list (chars * V)) : NoDup m.*1 ->
  obj_get k (foldl (λ m kv, obj_insert kv.1 kv.2 m) acc m) =
    match obj_get k m with Some v => Some v | None => obj_get k acc end.
Proof.
  revert acc. induction m as [|[k' v] m IH]; intros acc Hnd; [done|]. csimpl in *. apply NoDup_cons in Hnd as [Hk Hnd].
  rewrite IH, obj_get_insert by done. case_decide as E; [|done]. subst. by rewrite obj_get_none.
Qed.

Lemma insert_some_get {A} k key (f : A -> json) v m :
  obj_get k (insert_some key f v m) =
    match obj_get k (option_list ((λ a, (str key, f a)) <$> v)) with Some j => Some j | None => obj_get k m end.
Proof. destruct v as [a|]; [|done]. simpl. rewrite obj_get_insert. by case_decide. Qed.

Lemma obj_get_app {V} k (m m' : list (chars * V)) :
  obj_get k (m ++ m') = match obj_get k m with Some v => Some v | None => obj_get k m' end.
Proof. induction m as [|[k' v] m IH]; [done|]. simpl. by case_decide. Qed.

Lemma page_obj_get f e k : NoDup (meta_map e).*1 -> obj_get k (page_obj f e) = page_entry f e k.
Proof.
  intros Hnd. unfold page_entry, own_fields, page_obj.
  rewrite !obj_get_insert, !insert_some_get, !obj_get_app. cbn [obj_get].
  case_decide; [done|]. case_decide; [done|].
  assert (Hm : obj_get k match ex_meta e with JObject em => foldl (λ m kv, obj_insert kv.1 kv.2 m) [] em | _ => [] end
    = obj_get k (meta_map e)).
  { unfold meta_map in *. destruct (ex_meta e); try done. rewrite obj_get_foldl by done. simpl. by case_match. }
  rewrite Hm. by repeat case_match.
Qed.

Lemma page_key_inj a b : page_key a = page_key b -> a = b.
Proof. intros H%app_inv_head. by apply show_int_inj. Qed.

Definition page_entries (pages : list (FileRecord * Extracted)) : list (chars * json) :=
  (λ fe, (page_key (fr_page_no fe.1), JObject (page_obj fe.1 fe.2))) <$> pages.

Lemma page_entries_NoDup pages : NoDup ((λ fe, fr_page_no fe.1) <$> pages) -> NoDup (page_entries pages).*1.
Proof.
  intros Hnd. unfold page_entries. rewrite <- list_fmap_compose.
  change (NoDup ((page_key ∘ (λ fe : FileRecord * Extracted, fr_page_no fe.1)) <$> pages)).
  rewrite list_fmap_compose. apply NoDup_fmap_2; [|done]. intros a b. apply page_key_inj.
Qed.

Lemma merge_meta_get pages k : NoDup ((λ fe, fr_page_no fe.1) <$> pages) ->
  obj_get k match merge_meta pages with JObject m => m | _ => [] end = obj_get k (page_entries pages).
Proof.
  intros Hnd. unfold merge_meta.
  assert (E : ∀ acc, foldl (λ m fe, obj_insert (page_key (fr_page_no fe.1)) (JObject (page_obj fe.1 fe.2)) m) acc pages
     = foldl (λ m kv, obj_insert kv.1 kv.2 m) acc (page_entries pages)).
  { clear Hnd. induction pages as [|fe pages IH]; [done|]. intros acc. apply IH. }
  rewrite E, obj_get_foldl; [by case_match|]. by apply page_entries_NoDup.
Qed.

Lemma obj_get_elem {V} (m : list (chars * V)) k v : NoDup m.*1 -> (k, v) ∈ m -> obj_get k m = Some v.
Proof.
  induction m as [|[k' v'] m IH]; [by intros _ ?%not_elem_of_nil|]. csimpl. rewrite NoDup_cons, elem_of_cons. intros [Hk Hnd] [[= <- <-]|Hin].
  - by rewrite decide_True.
  - rewrite decide_False; [auto|]. intros ->. apply Hk. apply list_elem_of_fmap. by exists (k', v).
Qed.

(** A merged document against the pages it was made of. *)
Record merged_from (pages : list (FileRecord * Extracted)) (md : MergedDocument) (m : list (chars * json)) : Prop := {
  mf_text : md_text md = join [10; 10] ((λ fe, page_text fe.1 fe.2) <$> pages);
  mf_meta : md_meta md = JObject m;
  mf_page f e : (f, e) ∈ pages -> ∃ o, obj_get (page_key (fr_page_no f)) m = Some (JObject o) ∧
    ∀ k, obj_get k o = page_entry f e k;
  mf_only k : (∀ f e, (f, e) ∈ pages -> k <> page_key (fr_page_no f)) -> obj_get k m = None;
  mf_kind : kind_rule ((λ fe, mime_to_doc_kind (default (str "application/octet-stream") (fr_mime fe.1))) <$> pages) (md_kind md);
  mf_images : md_page_images md = concat ((λ fe, ex_page_images fe.2) <$> pages);
}.

Lemma dominant_kind_infer pages :
  dominant_kind pages = infer_doc_kind ((λ fe, default (str "application/octet-stream") (fr_mime fe.1)) <$> pages).
Proof. by destruct pages. Qed.

Lemma merge_images_concat pages : merge_images pages = concat ((λ fe, ex_page_images fe.2) <$> pages).
Proof. unfold merge_images. induction pages as [|fe pages IH]; [done|]. csimpl. by rewrite IH. Qed.

Lemma merge_merged pages : NoDup ((λ fe, fr_page_no fe.1) <$> pages) -> Forall (λ fe, NoDup (meta_map fe.2).*1) pages ->
  ∃ m, merged_from pages (merge pages) m.
Proof.
  intros Hnd Hmeta. exists (match merge_meta pages with JObject m => m | _ => [] end). split; try done.
  - apply merge_text_join.
  - intros f e Hin. exists (page_obj f e). split.
    + rewrite merge_meta_get by done. apply obj_get_elem; [by apply page_entries_NoDup|].
      apply list_elem_of_fmap. by exists (f, e).
    + intros k. apply page_obj_get. rewrite Forall_forall in Hmeta. by apply (Hmeta (f, e)).
  - intros k Hk. rewrite merge_meta_get by done. apply obj_get_none. unfold page_entries.
    rewrite <- list_fmap_compose. intros ([f e] & -> & Hin)%list_elem_of_fmap. by eapply Hk.
  - cbn [merge md_kind]. rewrite dominant_kind_infer.
    pose proof (infer_doc_kind_rule ((λ fe, default (str "application/octet-stream") (fr_mime fe.1)) <$> pages)) as Hr.
    by rewrite <- list_fmap_compose in Hr.
  - apply merge_images_concat.
Qed.

(** The merge agrees with the builder on kind and page count. *)
Lemma merge_agrees pages tree_magic sha256 now t inputs note :
  pages.*1 = (build_multi tree_magic sha256 now t inputs note).2 ->
  md_kind (merge pages) = doc_kind (build_multi tree_magic sha256 now t inputs note).1 ∧
  md_page_count (merge pages) = doc_page_count (build_multi tree_magic sha256 now t inputs note).1.
Proof.
  intros Hp.
  cbn [merge md_kind md_page_count build_multi fst doc_kind doc_page_count snd] in *. rewrite dominant_kind_infer. split.
  - f_equal. change (λ fe : FileRecord * Extracted, default (str "application/octet-stream") (fr_mime fe.1))
      with ((λ f, default (str "application/octet-stream") (fr_mime f)) ∘ (fst : FileRecord * Extracted -> FileRecord)).
    rewrite list_fmap_compose, Hp. apply list_eq. intros i. rewrite !list_lookup_fmap, list_lookup_imap.
    by destruct (inputs !! i).
  - do 2 f_equal. by rewrite <- (length_fmap fst pages), Hp, length_imap.
Qed.

(** Merging the pages of a document, whose numbers are distinct and whose
    metadata objects have no key twice: the text is every page's marker and
    text, in order, two newlines apart; the metadata has one object per page
    under [page_N] and nothing else, in which the fields of the file record win
    over what the extractor found; the images are all pages' images in order.
    For the pages of an upload the merge gives the kind and the page count the
    builder recorded, whatever was extracted. *)
Theorem merge_exact pages :
  NoDup ((λ fe, fr_page_no fe.1) <$> pages) -> Forall (λ fe, NoDup (meta_map fe.2).*1) pages ->
  (∃ m, merged_from pages (merge pages) m) ∧
  ∀ tree_magic sha256 now t inputs note,
    pages.*1 = (build_multi tree_magic sha256 now t inputs note).2 ->
    md_kind (merge pages) = doc_kind (build_multi tree_magic sha256 now t inputs note).1 ∧
    md_page_count (merge pages) = doc_page_count (build_multi tree_magic sha256 now t inputs note).1.
Proof.
  intros Hnd Hmeta. split; [by apply merge_merged|]. intros tm sha now t inputs note. apply merge_agrees.
Qed.

(** ** Witnesses *)

Definition demo_magic (b : bytes) : chars := str "text/plain".
Definition demo_inputs : list PageInput :=
  [mkPageInput [x61] (Some (str "front")) None; mkPageInput [x62; x63] None (Some (str "b.txt"))].
Definition demo_pages : list (FileRecord * Extracted) :=
  zip (build_multi demo_magic id 5 7 demo_inputs None).2
    [mkExtracted (str "a") (JObject [(str "lang", JString (str "en"))]) []; default_extracted].

Lemma build_exact_witness :
  doc_page_count (build_multi demo_magic id 5 7 demo_inputs None).1 = 2 ∧
  doc_kind (build_multi demo_magic id 5 7 demo_inputs None).1 = KDocument.
Proof.
  assert (Hl : Z.of_nat (length demo_inputs) <= ity_max i32) by (vm_compute; discriminate).
  destruct (build_exact demo_magic id 5 7 demo_inputs None Hl) as (Hc & _ & _ & _ & _ & _ & Hk & _).
  split; [exact Hc|]. apply (kr_same _ _ Hk); [discriminate|]. repeat constructor.
Defined.

Lemma merge_exact_witness :
  ∃ m, merged_from demo_pages (merge demo_pages) m.
Proof.
  refine (proj1 (merge_exact demo_pages _ _)); [|repeat constructor]; apply (bool_decide_unpack _); vm_compute; exact I.
Defined.
