(* ===== verification/IngestText.v ===== *)
(** * The text an ingestion feeds to the tagger (pipeline/src/ingest.rs, lines 779 to 1219)

    Notes, file names and document text are cleaned and cut before they reach
    the store or the model.  A string is its characters; the code's cuts are at
    byte offsets, so the slices go through the string's bytes and a slice off a
    character boundary is the panic it is in Rust. *)

From stdpp Require Import base list sets strings.
From Stdlib Require Import ZArith Lia.
From S2P Require Import Prelude FloatModel Text Json Role Schema Chunker Archive.
Open Scope Z_scope.

(** ** Slices *)

(** [&s[a..b]]; [None] is a panic. *)
Definition str_slice (s : chars) (a b : nat) : option chars :=
  if (a <=? b)%nat && (b <=? str_len s)%nat && is_char_boundary (as_bytes s) a && is_char_boundary (as_bytes s) b
  then from_utf8 (slice (as_bytes s) a b) else None.

(** [s.char_indices()]. *)
Fixpoint char_indices (off : nat) (s : chars) : list (nat * Z) :=
  match s with
  | [] => []
  | c :: s' => (off, c) :: char_indices (off + char_len c) s'
  end.

(** [s.find(p)] and [s.rfind(p)] on bytes: the patterns are ASCII, whose bytes
    occur in a string only as the characters they encode. *)
Fixpoint find_bytes (p b : list Z) : option nat :=
  if starts_with p b then Some 0%nat
  else match b with [] => None | _ :: b' => S <$> find_bytes p b' end.
Fixpoint rfind_bytes (p b : list Z) : option nat :=
  match b with
  | [] => if starts_with p b then Some 0%nat else None
  | _ :: b' => match rfind_bytes p b' with
               | Some i => Some (S i)
               | None => if starts_with p b then Some 0%nat else None
               end
  end.

(** ** Budgets *)

Definition MAX_USER_NOTE_BYTES : nat := Z.to_nat (10 * 1024).
Definition MAX_TAGGER_TEXT_BYTES : nat := Z.to_nat (480 * 1024).
Definition DEFAULT_TAGGER_TEXT_TOKENS : Z := 60000.
Definition DEFAULT_CONTEXT_FALLBACK : Z := 65536.
Definition DEFAULT_USER_NOTE_TOKENS : Z := 1500.
Definition MAX_CONTEXT_SHRINKS : nat := 3.

(** A decimal literal is the nearest double. *)
Definition f64_lit (n d : Z) : f64 := f64_div (f64_of_Z n) (f64_of_Z d).
Definition ESTIMATOR_SAFETY_FACTOR : f64 := f64_lit 5 10.
Definition PROSE_SAFETY_FACTOR : f64 := f64_lit 8 10.
Definition PROSE_RATIO_THRESHOLD : f64 := f64_lit 85 100.

Definition is_ascii_whitespace (c : Z) : bool := (c =? 32) || (c =? 9) || (c =? 10) || (c =? 12) || (c =? 13).
Definition is_prose (c : Z) : bool := is_ascii_alnum c || is_ascii_whitespace c.

Definition SAMPLE_CHARS : nat := Z.to_nat 4096.
Definition compute_dynamic_safety_factor (text : option chars) : f64 :=
  match text with
  | Some ((_ :: _) as t) =>
      let sample := take SAMPLE_CHARS t in
      let prose_count := Z.of_nat (length (List.filter is_prose sample)) in
      let ratio := f64_div (f64_of_Z prose_count) (f64_of_Z (Z.of_nat (length sample))) in
      if f_le PROSE_RATIO_THRESHOLD ratio then PROSE_SAFETY_FACTOR else ESTIMATOR_SAFETY_FACTOR
  | _ => ESTIMATOR_SAFETY_FACTOR
  end.

Definition compute_token_budgets (ctx_tokens : option Z) (text_sample : option chars) : Z * Z :=
  let ctx := default DEFAULT_CONTEXT_FALLBACK ctx_tokens in
  let factor := compute_dynamic_safety_factor text_sample in
  let safe_ctx := f64_to_u64 (f64_mul (f64_of_Z ctx) factor) in
  (Z.max 0 (safe_ctx - 3300), Z.min DEFAULT_USER_NOTE_TOKENS (Z.max 0 (ctx - 1800))).

(** ** Cutting *)

Definition truncate_to_char_boundary (s : chars) (max_bytes : nat) : option chars :=
  if (str_len s <=? max_bytes)%nat then Some s
  else str_slice s 0 (snap_back (as_bytes s) 0 max_bytes).

Definition token_cost_milli (ch : Z) : Z :=
  if is_ascii_alnum ch || is_ascii_whitespace ch then 250
  else if is_ascii ch then 1000
  else 2000.
Definition token_estimate_milli (s : chars) : Z := sum_Z (token_cost_milli <$> s).

(** The byte offset at which a walk first exceeds its limit. *)
Fixpoint first_over (over : Z -> bool) (cost : Z) (l : list (nat * Z)) : option nat :=
  match l with
  | [] => None
  | (i, ch) :: l' =>
      let cost := cost + token_cost_milli ch in
      if over cost then Some i else first_over over cost l'
  end.

Definition truncate_to_token_budget (s : chars) (max_tokens : Z) : option chars :=
  let budget_milli := saturating_mul usize max_tokens 1000 in
  match first_over (λ cost, budget_milli <? cost) 0 (char_indices 0 s) with
  | Some i => str_slice s 0 i
  | None => Some s
  end.

Definition bound_tagger_text (s : chars) (max_tokens : Z) : option chars :=
  s ← truncate_to_char_boundary s MAX_TAGGER_TEXT_BYTES;
  truncate_to_token_budget s max_tokens.

Definition find_paragraph_boundary_backward (s : chars) (from_byte : nat) : nat :=
  let b := as_bytes s in
  let search_start := snap_back b 0 (from_byte - 512) in
  let window := slice b search_start from_byte in
  match rfind_bytes [10; 10] window with
  | Some pos => search_start + pos + 2
  | None =>
      match rfind_bytes [10] window with
      | Some pos => search_start + pos + 1
      | None => from_byte
      end
  end.

Definition find_paragraph_boundary_forward (s : chars) (from_byte : nat) : nat :=
  let b := as_bytes s in
  let e := (length b `min` (from_byte + 512))%nat in
  let search_end := snap_forward b (length b - e) e in
  let window := slice b from_byte search_end in
  match find_bytes [10; 10] window with
  | Some pos => from_byte + pos + 2
  | None =>
      match find_bytes [10] window with
      | Some pos => from_byte + pos + 1
      | None => from_byte
      end
  end.

Definition HEAD_FRACTION : f64 := f64_lit 70 100.
(** "\n\n… [content truncated] …\n\n" *)
Definition TRUNCATION_MARKER : chars :=
  [10; 10; 8230] ++ str " [content truncated] " ++ [8230; 10; 10].

Definition head_budget (budget_milli : Z) : Z := f64_to_u64 (f64_mul (f64_of_Z budget_milli) HEAD_FRACTION).

Definition smart_cut (s : chars) (budget_milli : Z) : option chars :=
  let head_budget_milli := head_budget budget_milli in
  let tail_budget_milli := Z.max 0 (budget_milli - head_budget_milli) in
  let head_cut := default (str_len s) (first_over (λ cost, head_budget_milli <? cost) 0 (char_indices 0 s)) in
  let head_cut := if (head_cut <? str_len s)%nat then find_paragraph_boundary_backward s head_cut else head_cut in
  let tail_start := default 0%nat (first_over (λ cost, tail_budget_milli <? cost) 0 (reverse (char_indices 0 s))) in
  let tail_start := if (0 <? tail_start)%nat then find_paragraph_boundary_forward s tail_start else tail_start in
  if (tail_start <=? head_cut)%nat then str_slice s 0 head_cut
  else
    head ← str_slice s 0 head_cut;
    tail ← str_slice s tail_start (str_len s);
    Some (head ++ TRUNCATION_MARKER ++ tail).

Definition smart_bound_tagger_text (s : chars) (max_tokens : Z) : option chars :=
  s ← truncate_to_char_boundary s MAX_TAGGER_TEXT_BYTES;
  let budget_milli := saturating_mul usize max_tokens 1000 in
  if token_estimate_milli s <=? budget_milli then Some s else smart_cut s budget_milli.

(** ** Cleaning *)

(** [char::is_control]: the category Cc. *)
Definition is_control (c : Z) : bool := ((0 <=? c) && (c <=? 31)) || ((127 <=? c) && (c <=? 159)).
Definition strip_control_chars (input : chars) : chars :=
  List.filter (λ c, negb (is_control c && negb (c =? 9) && negb (c =? 10) && negb (c =? 13))) input.

(** [s.replace("..", "")]. *)
Fixpoint remove_pairs (s : chars) : chars :=
  match s with
  | a :: (b :: s') as r => if (a =? 46) && (b =? 46) then remove_pairs s' else a :: remove_pairs r
  | _ => s
  end.

Definition sanitize_filename (name : chars) : option chars :=
  let basename := default name (last (split_any is_slash name)) in
  let cleaned := remove_pairs basename in
  match trim cleaned with
  | [] => None
  | trimmed => Some trimmed
  end.

(** ** The tagging call *)

Record TagInput := mkTagInput {
  ti_tenant : Z;
  ti_user : option Z;
  ti_text : chars;
  ti_user_note : option chars;
  ti_kind : DocKind;
  ti_meta : json;
}.
Record TagOutput := mkTagOutput {
  to_title : chars;
  to_summary : chars;
  to_tags : list chars;
}.
Definition default_tag_output : TagOutput := mkTagOutput [] [] [].

(** The variants of [LlmError] an error chain may hold. *)
Inductive LlmError := LScheduler | LAllCooldown | LAllFailed | LHttp | LDeserialize.
(** An [anyhow::Error] of a model call: its formatted chain and its root. *)
Record TagError := mkTagError {
  te_message : chars;
  te_llm : option LlmError;
}.
Inductive TagFail := TagErr (e : TagError) | TagPanic.

Definition is_context_overflow (e : TagError) : bool := contains (str "exceeds the available context") (te_message e).
Definition is_backend_unavailable (e : TagError) : bool :=
  match te_llm e with
  | Some LScheduler | Some LAllCooldown | Some LAllFailed => true
  | _ => false
  end.

Definition halve_text (text : chars) : option chars :=
  let current_est := token_estimate_milli text / 1000 in
  let target := Z.max (current_est / 2) 1 in
  let cut := default (str_len text) (first_over (λ cost, target <=? cost / 1000) 0 (char_indices 0 text)) in
  str_slice text 0 cut.

Definition set_text (i : TagInput) (text : chars) : TagInput :=
  mkTagInput (ti_tenant i) (ti_user i) text (ti_user_note i) (ti_kind i) (ti_meta i).

Section Retry.
Context {W : Type} (tag : TagInput -> bool -> W -> result TagOutput TagError * W).

(** The loop with [room] halvings to go. *)
Fixpoint tag_loop (room : nat) (input : TagInput) (local_only : bool) (w : W) : result TagOutput TagFail * W :=
  match tag input local_only w with
  | (Ok out, w) => (Ok out, w)
  | (Err e, w) =>
      match room with
      | S room =>
          if is_context_overflow e then
            match halve_text (ti_text input) with
            | Some text => tag_loop room (set_text input text) local_only w
            | None => (Err TagPanic, w)
            end
          else (Err (TagErr e), w)
      | O => (Err (TagErr e), w)
      end
  end.
Definition tag_with_context_retry : TagInput -> bool -> W -> result TagOutput TagFail * W := tag_loop MAX_CONTEXT_SHRINKS.
End Retry.

#[local] Strategy opaque [MAX_USER_NOTE_BYTES MAX_TAGGER_TEXT_BYTES SAMPLE_CHARS].

(** ** Characters and byte offsets *)

(** The byte offset of character [j]. *)
Definition offset (s : chars) (j : nat) : nat := str_len (take j s).

Lemma as_bytes_app a b : as_bytes (a ++ b) = as_bytes a ++ as_bytes b.
Proof. unfold as_bytes. apply bind_app. Qed.

Lemma as_bytes_cons c s : as_bytes (c :: s) = encode_char c ++ as_bytes s.
Proof. done. Qed.

(** A character's first byte leads, the others continue. *)
Lemma encode_char_lead c : is_scalar c = true ->
  ∃ b0 tl, encode_char c = b0 :: tl ∧ is_cont b0 = false ∧ Forall (λ b, is_cont b = true) tl ∧ (c < 128 ∨ 128 <= b0).
Proof.
  unfold is_scalar, encode_char. intros Hc. bool_to_prop.
  assert (Ht : ∀ x, is_cont (128 + x mod 64) = true)
    by (intros x; unfold is_cont; pose proof (Z.mod_pos_bound x 64); decide_cmp; done).
  assert (Hl : ∀ x, 0 <= x < 128 ∨ 192 <= x -> is_cont x = false)
    by (intros x Hx; unfold is_cont; apply andb_false_iff; destruct Hx; [left; apply Z.leb_gt|right; apply Z.ltb_ge]; lia).
  destruct (Z.ltb_spec c 128); [|destruct (Z.ltb_spec c 2048); [|destruct (Z.ltb_spec c 65536)]];
    (eexists _, _; split; [reflexivity|]; split; [apply Hl|split; [auto|]]);
    first [lia | Z.to_euclidean_division_equations; lia].
Qed.

Lemma offset_all s : offset s (length s) = str_len s.
Proof. unfold offset. by rewrite firstn_all. Qed.

Lemma offset_split s j : as_bytes s = as_bytes (take j s) ++ as_bytes (drop j s).
Proof. by rewrite <- as_bytes_app, take_drop. Qed.

Lemma str_len_split s j : str_len s = (offset s j + str_len (drop j s))%nat.
Proof. unfold offset. by rewrite <- str_len_app, take_drop. Qed.

Lemma offset_le s j : (offset s j <= str_len s)%nat.
Proof. rewrite (str_len_split s j). lia. Qed.

Lemma offset_mono s j k : (j <= k)%nat -> (offset s j <= offset s k)%nat.
Proof.
  intros Hjk. unfold offset. rewrite <- (take_drop j (take k s)), take_take, str_len_app.
  rewrite Nat.min_l by done. lia.
Qed.

Lemma offset_lt s j k : (j < k)%nat -> (j < length s)%nat -> (offset s j < offset s k)%nat.
Proof.
  intros Hjk Hj. eapply Nat.lt_le_trans; [|by apply (offset_mono s (S j))].
  apply lookup_lt_is_Some in Hj as [c Hc]. unfold offset. rewrite (take_S_r _ _ _ Hc), str_len_app.
  change (str_len [c]) with (length (encode_char c ++ [])). rewrite app_nil_r.
  pose proof (char_len_pos c). unfold char_len in *. lia.
Qed.

Lemma is_str_take s j : is_str s -> is_str (take j s).
Proof. apply Forall_take. Qed.
Lemma is_str_drop s j : is_str s -> is_str (drop j s).
Proof. apply Forall_drop. Qed.

(** Every character starts at a boundary. *)
Lemma offset_boundary s j : is_str s -> is_char_boundary (as_bytes s) (offset s j) = true.
Proof.
  intros Hs. unfold is_char_boundary. destruct (drop j s) as [|c r] eqn:Ed.
  - assert (offset s j = length (as_bytes s)) as ->.
    { change (length (as_bytes s)) with (str_len s). rewrite (str_len_split s j), Ed. change (str_len []) with 0%nat. lia. }
    rewrite Nat.eqb_refl. by rewrite orb_true_r.
  - apply (is_str_drop _ j) in Hs. rewrite Ed in Hs. apply Forall_cons in Hs as [Hc _].
    destruct (encode_char_lead c Hc) as (b0 & tl & He & Hb & _).
    rewrite (offset_split s j), Ed, as_bytes_cons, He.
    assert ((as_bytes (take j s) ++ (b0 :: tl) ++ as_bytes r) !! offset s j = Some b0) as ->.
    { unfold offset, str_len. by rewrite lookup_app_r, Nat.sub_diag by lia. }
    by rewrite Hb, orb_true_r.
Qed.

(** And every boundary is the start of a character, or the end. *)
Lemma boundary_offset s i : is_str s -> (i <= str_len s)%nat -> is_char_boundary (as_bytes s) i = true ->
  ∃ j, (j <= length s)%nat ∧ i = offset s j.
Proof.
  intros Hs. revert i. induction Hs as [|c s Hc Hs IH]; intros i Hi Hb.
  { exists 0%nat. split; [done|]. unfold str_len in Hi. simpl in *. unfold offset, str_len. simpl. lia. }
  destruct (encode_char_lead c Hc) as (b0 & tl & He & Hb0 & Htl & _).
  destruct (decide (i = 0%nat)) as [->|Hi0]; [exists 0%nat; split; [lia|done]|].
  assert (Hlen : char_len c = S (length tl)) by (unfold char_len; by rewrite He).
  rewrite str_len_cons in Hi. rewrite as_bytes_cons, He in Hb.
  destruct (decide (i < char_len c)%nat) as [Hlt|Hge].
  - exfalso. unfold is_char_boundary in Hb. destruct i as [|i]; [done|]. simpl in Hb.
    rewrite lookup_app_l in Hb by lia. destruct (lookup_lt_is_Some_2 tl i) as [x Hx]; [lia|]. rewrite Hx in Hb.
    rewrite Forall_lookup in Htl. rewrite (Htl _ _ Hx) in Hb. rewrite orb_false_r in Hb.
    apply Nat.eqb_eq in Hb. rewrite length_app in Hb. lia.
  - destruct (IH (i - char_len c)%nat) as (j & Hj & Ej); [lia| |].
    + unfold is_char_boundary in *. destruct (Nat.eqb_spec (i - char_len c) 0) as [|Hne]; [done|]. cbn [orb].
      rewrite length_app in Hb. simpl in Hb. rewrite (proj2 (Nat.eqb_neq i 0)) in Hb by done. cbn [orb] in Hb.
      destruct (Nat.eqb_spec i (S (length tl + length (as_bytes s)))) as [->|Hne2].
      { rewrite Hlen. replace (S (length tl + length (as_bytes s)) - S (length tl))%nat with (length (as_bytes s)) by lia.
        by rewrite Nat.eqb_refl. }
      cbn [orb] in Hb. change (b0 :: tl ++ as_bytes s) with ((b0 :: tl) ++ as_bytes s) in Hb.
      rewrite lookup_app_r in Hb by (simpl; lia). simpl length in Hb. rewrite Hlen.
      destruct (as_bytes s !! (i - S (length tl))%nat); [by rewrite Hb, orb_true_r|done].
    + exists (S j). split; [simpl; lia|]. unfold offset in *. cbn [take]. rewrite str_len_cons. lia.
Qed.

Lemma offset_drop s j k : (j <= k)%nat -> offset s k = (offset s j + str_len (take (k - j) (drop j s)))%nat.
Proof.
  intros Hjk. unfold offset. rewrite <- str_len_app. f_equal.
  rewrite <- (take_drop j s) at 1. rewrite take_app, length_take, take_take.
  rewrite Nat.min_r by lia. f_equal. destruct (decide (j <= length s)%nat).
  - by rewrite Nat.min_l by lia.
  - by rewrite !drop_ge, !take_nil by lia.
Qed.

Lemma str_slice_offsets s j k : is_str s -> (j <= k)%nat ->
  str_slice s (offset s j) (offset s k) = Some (take (k - j) (drop j s)).
Proof.
  intros Hs Hjk. unfold str_slice. rewrite !offset_boundary by done.
  rewrite (proj2 (Nat.leb_le _ _)) by by apply offset_mono.
  rewrite (proj2 (Nat.leb_le _ _)) by apply offset_le. cbn [andb]. unfold slice.
  rewrite (offset_split s j), drop_app_length' by done.
  rewrite (offset_drop s j k Hjk), Nat.add_comm, Nat.add_sub.
  rewrite (offset_split (drop j s) (k - j)), take_app_length' by done.
  apply from_utf8_as_bytes. by apply is_str_take, is_str_drop.
Qed.

Lemma str_slice_prefix s j : is_str s -> str_slice s 0 (offset s j) = Some (take j s).
Proof.
  intros Hs. change 0%nat with (offset s 0) at 1. rewrite str_slice_offsets by (done || lia).
  by rewrite drop_0, Nat.sub_0_r.
Qed.

(** An ASCII byte is a whole character. *)
Lemma ascii_byte s p b : is_str s -> as_bytes s !! p = Some b -> b < 128 ->
  ∃ j, (j < length s)%nat ∧ p = offset s j ∧ offset s (S j) = S p.
Proof.
  intros Hs Hp Hb.
  assert (Hlt : (p < str_len s)%nat) by (by apply lookup_lt_Some in Hp).
  destruct (boundary_offset s p) as (j & Hj & ->); [done|lia| |].
  { unfold is_char_boundary. rewrite Hp. unfold is_cont. rewrite (proj2 (Z.leb_gt 128 b)) by lia. by rewrite orb_true_r. }
  destruct (decide (j = length s)) as [->|]; [rewrite offset_all in Hlt; lia|].
  assert (Hjl : (j < length s)%nat) by lia. exists j. split; [done|]. split; [done|].
  destruct (lookup_lt_is_Some_2 s j Hjl) as [c Hc]. unfold offset. rewrite (take_S_r _ _ _ Hc), str_len_app.
  change (str_len [c]) with (length (encode_char c ++ [])). rewrite app_nil_r.
  rewrite (offset_split s j), (drop_S _ _ _ Hc), as_bytes_cons in Hp. unfold offset, str_len in Hp.
  rewrite lookup_app_r, Nat.sub_diag in Hp by lia.
  assert (is_scalar c = true) as Hsc by (rewrite Forall_lookup in Hs; by eapply Hs).
  destruct (encode_char_lead c Hsc) as (b0 & tl & He & _ & _ & Hor). rewrite He in Hp. injection Hp as ->.
  unfold encode_char. rewrite (proj2 (Z.ltb_lt c 128)) by lia. simpl. lia.
Qed.

(** ** The byte cap *)

Lemma truncate_to_char_boundary_spec s n : is_str s ->
  ∃ j, truncate_to_char_boundary s n = Some (take j s) ∧ (str_len (take j s) <= n)%nat ∧
    (take j s = s ∨ (n < str_len (take (S j) s))%nat).
Proof.
  intros Hs. unfold truncate_to_char_boundary. destruct (Nat.leb_spec (str_len s) n) as [Hle|Hgt].
  { exists (length s). rewrite firstn_all. auto. }
  destruct (snap_back_spec (as_bytes s) 0 n) as (Hle & Hb & Hmax); [lia|].
  set (e := snap_back _ _ _) in *.
  assert (is_char_boundary (as_bytes s) e = true) as Hbe by (destruct Hb as [->|]; [apply boundary_zero|done]).
  destruct (boundary_offset s e) as (j & Hj & Ej); [done|lia|done|].
  rewrite Ej, str_slice_prefix by done. exists j. split; [done|]. unfold offset in Ej. split; [lia|].
  right. apply Nat.nle_gt. intros Hn.
  destruct (decide (j = length s)) as [->|]; [rewrite firstn_all in Ej; lia|].
  assert (Hlt : (offset s j < offset s (S j))%nat) by (apply offset_lt; lia).
  specialize (Hmax (offset s (S j))). rewrite offset_boundary in Hmax by done.
  unfold offset in *. discriminate Hmax. lia.
Qed.

(** ** Walks *)

Lemma token_cost_pos c : 250 <= token_cost_milli c <= 2000.
Proof. unfold token_cost_milli. repeat case_match; lia. Qed.

Lemma estimate_app a b : token_estimate_milli (a ++ b) = token_estimate_milli a + token_estimate_milli b.
Proof. unfold token_estimate_milli. by rewrite fmap_app, sum_Z_app. Qed.

Lemma estimate_pos s : 0 <= token_estimate_milli s.
Proof.
  induction s as [|c s IH]; [done|]. unfold token_estimate_milli in *. csimpl. pose proof (token_cost_pos c). lia.
Qed.

Lemma estimate_prefix s j k : (j <= k)%nat -> token_estimate_milli (take j s) <= token_estimate_milli (take k s).
Proof.
  intros Hjk. rewrite <- (take_drop j (take k s)), take_take, estimate_app, Nat.min_l by done.
  pose proof (estimate_pos (drop j (take k s))). lia.
Qed.

Lemma estimate_suffix s j k : (j <= k)%nat -> token_estimate_milli (drop k s) <= token_estimate_milli (drop j s).
Proof.
  intros Hjk. rewrite <- (take_drop (k - j) (drop j s)), drop_drop, estimate_app.
  replace (j + (k - j))%nat with k by lia. pose proof (estimate_pos (take (k - j) (drop j s))). lia.
Qed.

Lemma first_over_spec over off cost s :
  match first_over over cost (char_indices off s) with
  | None => ∀ j, (0 < j <= length s)%nat -> over (cost + token_estimate_milli (take j s)) = false
  | Some i => ∃ j, (j < length s)%nat ∧ i = (off + offset s j)%nat ∧
      (∀ k, (0 < k <= j)%nat -> over (cost + token_estimate_milli (take k s)) = false) ∧
      over (cost + token_estimate_milli (take (S j) s)) = true
  end.
Proof.
  revert off cost. induction s as [|c s IH]; intros off cost; cbn [char_indices first_over]; [intros j; simpl; lia|].
  destruct (over (cost + token_cost_milli c)) eqn:Eo.
  - exists 0%nat. split_and!; [simpl; lia|unfold offset; simpl; change (str_len []) with 0%nat; lia|intros; lia|].
    unfold token_estimate_milli. simpl. by rewrite Z.add_0_r.
  - specialize (IH (off + char_len c)%nat (cost + token_cost_milli c)).
    assert (Hstep : ∀ k, cost + token_estimate_milli (take (S k) (c :: s)) = cost + token_cost_milli c + token_estimate_milli (take k s))
      by (intros k; unfold token_estimate_milli; csimpl; lia).
    destruct (first_over over _ _) as [i|].
    + destruct IH as (j & Hj & -> & Hk & Ho). exists (S j). split_and!; [simpl; lia| | |by rewrite Hstep].
      * unfold offset. cbn [take]. rewrite str_len_cons. lia.
      * intros [|k] Hk'; [lia|]. rewrite Hstep. destruct k as [|k]; [|apply Hk; lia].
        unfold token_estimate_milli. simpl. by rewrite Z.add_0_r.
    + intros [|j] Hj; [lia|]. rewrite Hstep. simpl in Hj. destruct j as [|j]; [|apply IH; lia].
      unfold token_estimate_milli. simpl. by rewrite Z.add_0_r.
Qed.

Lemma char_indices_app off a b : char_indices off (a ++ b) = char_indices off a ++ char_indices (off + str_len a) b.
Proof.
  revert off. induction a as [|c a IH]; intros off; simpl.
  - f_equal. change (str_len []) with 0%nat. lia.
  - rewrite IH, str_len_cons. by rewrite Nat.add_assoc.
Qed.

Lemma last_over_spec over cost s :
  match first_over over cost (reverse (char_indices 0 s)) with
  | None => ∀ j, (j < length s)%nat -> over (cost + token_estimate_milli (drop j s)) = false
  | Some i => ∃ j, (j < length s)%nat ∧ i = offset s j ∧
      (∀ k, (j < k < length s)%nat -> over (cost + token_estimate_milli (drop k s)) = false) ∧
      over (cost + token_estimate_milli (drop j s)) = true
  end.
Proof.
  revert cost. induction s as [|c s IH] using rev_ind; intros cost; [intros j; simpl; lia|].
  rewrite char_indices_app, reverse_app. cbn [char_indices reverse rev_append app first_over].
  assert (Hlast : cost + token_estimate_milli (drop (length s) (s ++ [c])) = cost + token_cost_milli c).
  { rewrite drop_app_length. unfold token_estimate_milli. simpl. lia. }
  assert (Hdrop : ∀ j, (j <= length s)%nat ->
    cost + token_estimate_milli (drop j (s ++ [c])) = cost + token_cost_milli c + token_estimate_milli (drop j s)).
  { intros j Hj. rewrite drop_app_le, estimate_app by done. unfold token_estimate_milli. simpl. lia. }
  rewrite length_app. cbn [length].
  change (reverse [((0 + str_len s)%nat, c)]) with [((0 + str_len s)%nat, c)]. cbn [app first_over].
  destruct (over (cost + token_cost_milli c)) eqn:Eo.
  - exists (length s). split_and!; [lia| |lia|by rewrite Hlast]. unfold offset. by rewrite take_app_length.
  - specialize (IH (cost + token_cost_milli c)). destruct (first_over over _ _) as [i|].
    + destruct IH as (j & Hj & -> & Hk & Ho). exists j. split_and!; [lia| | |by rewrite Hdrop by lia].
      * unfold offset. by rewrite take_app_le by lia.
      * intros k Hk'. destruct (decide (k = length s)) as [->|]; [by rewrite Hlast|]. rewrite Hdrop by lia. apply Hk. lia.
    + intros j Hj. destruct (decide (j = length s)) as [->|]; [by rewrite Hlast|]. rewrite Hdrop by lia. apply IH. lia.
Qed.

(** ** Paragraph boundaries *)

Lemma rfind_bytes_at p b i : rfind_bytes p b = Some i -> take (length p) (drop i b) = p.
Proof.
  revert i. induction b as [|x b IH]; intros i; cbn [rfind_bytes].
  - destruct (starts_with p []) eqn:E; [|done]. intros [= <-]. unfold starts_with in E. by apply bool_decide_eq_true in E.
  - destruct (rfind_bytes p b) as [k|]; [intros [= <-]; by apply IH|].
    destruct (starts_with p (x :: b)) eqn:E; [|done]. intros [= <-]. unfold starts_with in E. by apply bool_decide_eq_true in E.
Qed.

Lemma find_bytes_at p b i : find_bytes p b = Some i -> take (length p) (drop i b) = p.
Proof.
  assert (Hs : ∀ b, starts_with p b = true -> take (length p) (drop 0 b) = p)
    by (intros b'; unfold starts_with; by rewrite bool_decide_eq_true).
  revert i. induction b as [|x b IH]; intros i; cbn [find_bytes]; destruct (starts_with p _) eqn:E; try done;
    [by intros [= <-]; apply Hs|by intros [= <-]; apply Hs|].
  destruct (find_bytes p b) as [k|]; [|done]. intros [= <-]. by apply IH.
Qed.

Lemma slice_lookup b a e i x : slice b a e !! i = Some x -> b !! (a + i)%nat = Some x ∧ (a + i < e)%nat.
Proof.
  unfold slice. intros H. pose proof (lookup_lt_Some _ _ _ H) as Hl. rewrite length_take in Hl.
  rewrite lookup_take_lt in H by lia. rewrite lookup_drop in H. split; [done|lia].
Qed.

(** The last byte of a match of a pattern ending in a newline. *)
Lemma newline_end s a e i p : is_str s -> take (length (p ++ [10])) (drop i (slice (as_bytes s) a e)) = p ++ [10] ->
  ∃ h, (h <= length s)%nat ∧ (a + i + length (p ++ [10%Z]))%nat = offset s h ∧ (a + i + length (p ++ [10%Z]) <= e)%nat.
Proof.
  intros Hs Hm. assert (Hx : slice (as_bytes s) a e !! (i + length p)%nat = Some 10).
  { rewrite <- lookup_drop, <- (lookup_take_lt _ (length (p ++ [10]))), Hm by (rewrite length_app; simpl; lia).
    by rewrite lookup_app_r, Nat.sub_diag by lia. }
  apply slice_lookup in Hx as [Hx Hlt]. destruct (ascii_byte s _ _ Hs Hx) as (j & Hj & Ej & Ej'); [lia|].
  exists (S j). rewrite length_app in *. simpl length in *. split_and!; lia.
Qed.

Lemma offset_inj_le s j k : (j <= length s)%nat -> (offset s j <= offset s k)%nat -> (j <= k)%nat.
Proof.
  intros Hj Ho. apply Nat.nlt_ge. intros Hlt. destruct (decide (k < length s)%nat) as [Hk|]; [|lia].
  pose proof (offset_lt s k j Hlt Hk). lia.
Qed.

Lemma backward_spec s j : is_str s -> (j <= length s)%nat ->
  ∃ h, (h <= j)%nat ∧ find_paragraph_boundary_backward s (offset s j) = offset s h.
Proof.
  intros Hs Hj. unfold find_paragraph_boundary_backward. set (a := snap_back _ _ _). set (w := slice _ _ _).
  assert (Hgo : ∀ p i, take (length (p ++ [10])) (drop i w) = p ++ [10] ->
     ∃ h, (h <= j)%nat ∧ (a + i + length (p ++ [10%Z]))%nat = offset s h).
  { intros p i Hm. apply newline_end in Hm as (h & Hh & Eh & Hle); [|done]. exists h. split; [|done].
    apply (offset_inj_le s); lia. }
  destruct (rfind_bytes [10; 10] w) as [i|] eqn:E1.
  { apply rfind_bytes_at in E1. destruct (Hgo [10] i E1) as (h & ? & Eh). exists h. split; [done|exact Eh]. }
  destruct (rfind_bytes [10] w) as [i|] eqn:E2; [|by exists j].
  apply rfind_bytes_at in E2. destruct (Hgo [] i E2) as (h & ? & Eh). exists h. split; [done|exact Eh].
Qed.

Lemma forward_spec s j : is_str s -> (j <= length s)%nat ->
  ∃ h, (j <= h <= length s)%nat ∧ find_paragraph_boundary_forward s (offset s j) = offset s h.
Proof.
  intros Hs Hj. unfold find_paragraph_boundary_forward. set (e := snap_forward _ _ _). set (w := slice _ _ _).
  assert (Hgo : ∀ p i, take (length (p ++ [10])) (drop i w) = p ++ [10] ->
     ∃ h, (j <= h <= length s)%nat ∧ (offset s j + i + length (p ++ [10%Z]))%nat = offset s h).
  { intros p i Hm. apply newline_end in Hm as (h & Hh & Eh & Hle); [|done]. exists h. split; [|done].
    split; [|done]. apply (offset_inj_le s); lia. }
  destruct (find_bytes [10; 10] w) as [i|] eqn:E1.
  { apply find_bytes_at in E1. destruct (Hgo [10] i E1) as (h & ? & Eh). exists h. split; [done|exact Eh]. }
  destruct (find_bytes [10] w) as [i|] eqn:E2; [|by exists j].
  apply find_bytes_at in E2. destruct (Hgo [] i E2) as (h & ? & Eh). exists h. split; [done|exact Eh].
Qed.

(** ** The smart cut *)

Lemma f64_to_u64_pos x : 0 <= f64_to_u64 x.
Proof.
  destruct x as [|[]| |s m e]; try done. simpl. unfold saturate, u64. simpl. lia.
Qed.

Lemma head_budget_pos b : 0 <= head_budget b.
Proof. apply f64_to_u64_pos. Qed.

(** Where the head ends: a prefix within its share. *)
Lemma head_walk s limit : is_str s -> 0 <= limit ->
  let cut := default (str_len s) (first_over (λ cost, limit <? cost) 0 (char_indices 0 s)) in
  ∃ h, (if (cut <? str_len s)%nat then find_paragraph_boundary_backward s cut else cut) = offset s h ∧
    (h <= length s)%nat ∧ token_estimate_milli (take h s) <= limit.
Proof.
  intros Hs Hl cut. pose proof (first_over_spec (λ cost, limit <? cost) 0 0 s) as Hw.
  assert (∃ j, cut = offset s j ∧ (j <= length s)%nat ∧ token_estimate_milli (take j s) <= limit) as (j & -> & Hj & He).
  { unfold cut. destruct (first_over _ _ _) as [i|].
    - destruct Hw as (j & Hj & -> & Hk & _). exists j. split_and!; [done|lia|].
      destruct j as [|j]; [done|]. specialize (Hk (S j)). rewrite Z.add_0_l, Z.ltb_ge in Hk. apply Hk. lia.
    - exists (length s). split_and!; [by rewrite offset_all|done|]. rewrite firstn_all.
      destruct s as [|c s]; [done|]. specialize (Hw (length (c :: s))). rewrite Z.add_0_l, Z.ltb_ge, firstn_all in Hw.
      apply Hw. simpl. lia. }
  destruct (_ <? _)%nat; [|by exists j].
  destruct (backward_spec s j Hs Hj) as (h & Hh & ->). exists h. split_and!; [done|lia|].
  pose proof (estimate_prefix s h j Hh). lia.
Qed.

(** Where the tail starts: a suffix within its share but for one character. *)
Lemma tail_walk s limit : is_str s -> 0 <= limit ->
  let start := default 0%nat (first_over (λ cost, limit <? cost) 0 (reverse (char_indices 0 s))) in
  ∃ t, (if (0 <? start)%nat then find_paragraph_boundary_forward s start else start) = offset s t ∧
    (t <= length s)%nat ∧ token_estimate_milli (drop t s) <= limit + 2000.
Proof.
  intros Hs Hl start. pose proof (last_over_spec (λ cost, limit <? cost) 0 s) as Hw.
  assert (∃ j, start = offset s j ∧ (j <= length s)%nat ∧ token_estimate_milli (drop j s) <= limit + 2000) as (j & -> & Hj & He).
  { unfold start. destruct (first_over _ _ _) as [i|].
    - destruct Hw as (j & Hj & -> & Hk & _). exists j. split_and!; [done|lia|].
      destruct (lookup_lt_is_Some_2 s j Hj) as [c Hc]. rewrite (drop_S _ _ _ Hc).
      change (c :: drop (S j) s) with ([c] ++ drop (S j) s). rewrite estimate_app.
      assert (token_estimate_milli [c] <= 2000) by (unfold token_estimate_milli; simpl; pose proof (token_cost_pos c); lia).
      destruct (decide (S j < length s)%nat) as [Hlt|Hge].
      + specialize (Hk (S j)). rewrite Z.add_0_l, Z.ltb_ge in Hk. lia.
      + rewrite drop_ge by lia. change (token_estimate_milli []) with 0. lia.
    - exists 0%nat. split_and!; [done|lia|]. destruct s as [|c s]; [simpl; change (token_estimate_milli []) with 0; lia|].
      specialize (Hw 0%nat). rewrite Z.add_0_l, Z.ltb_ge in Hw. simpl in *. lia. }
  destruct (_ <? _)%nat; [|by exists j].
  destruct (forward_spec s j Hs Hj) as (t & Ht & ->). exists t. split_and!; [done|lia|].
  pose proof (estimate_suffix s j t (proj1 Ht)). lia.
Qed.

Lemma smart_cut_spec s b : is_str s ->
  ∃ r head mid tail, smart_cut s b = Some r ∧ s = head ++ mid ++ tail ∧ token_estimate_milli head <= head_budget b ∧
    token_estimate_milli tail <= Z.max 0 (b - head_budget b) + 2000 ∧
    (r = head ∨ r = head ++ TRUNCATION_MARKER ++ tail ∧ mid <> []).
Proof.
  intros Hs. unfold smart_cut.
  destruct (head_walk s (head_budget b) Hs (head_budget_pos b)) as (h & -> & Hh & Eh).
  destruct (tail_walk s (Z.max 0 (b - head_budget b)) Hs) as (t & -> & Ht & Et); [lia|].
  destruct (Nat.leb_spec (offset s t) (offset s h)) as [Hle|Hgt].
  - exists (take h s), (take h s), (drop h s), []. rewrite str_slice_prefix by done.
    split_and!; [done|by rewrite app_nil_r, take_drop|done| |by left]. change (token_estimate_milli []) with 0. lia.
  - assert (Hlt : (h < t)%nat).
    { apply Nat.nle_gt. intros Hle. pose proof (offset_mono s t h Hle). lia. }
    rewrite str_slice_prefix by done. rewrite <- (offset_all s), str_slice_offsets by done.
    eexists _, (take h s), (take (t - h) (drop h s)), (drop t s). split_and!; [done| |done|done|].
    + rewrite <- (take_drop h s) at 1. f_equal. rewrite <- (take_drop (t - h) (drop h s)) at 1. f_equal.
      rewrite drop_drop. f_equal. lia.
    + right. rewrite (take_ge (drop t s)) by (rewrite length_drop; lia). split; [done|].
      intros Hnil. apply (f_equal length) in Hnil. rewrite length_take, length_drop in Hnil. simpl in Hnil. lia.
Qed.

(** For every string and budget the tagger's text is made without a panic:
    the longest prefix within the byte cap when its estimate is within the
    budget, and otherwise a head within seven tenths of the budget or such a
    head, the truncation marker and a tail, of which something between was left
    out.  The estimate is at most the budget (or the head's share, which the
    rounding of doubles gives) plus the marker and one character. *)
Theorem tagger_text_bounded s max_tokens : is_str s ->
  let budget := saturating_mul usize max_tokens 1000 in
  ∃ j r, smart_bound_tagger_text s max_tokens = Some r ∧
    (str_len (take j s) <= MAX_TAGGER_TEXT_BYTES)%nat ∧
    (take j s = s ∨ (MAX_TAGGER_TEXT_BYTES < str_len (take (S j) s))%nat) ∧
    (token_estimate_milli (take j s) <= budget -> r = take j s) ∧
    (budget < token_estimate_milli (take j s) ->
       ∃ head mid tail, take j s = head ++ mid ++ tail ∧ token_estimate_milli head <= head_budget budget ∧
         (r = head ∨ r = head ++ TRUNCATION_MARKER ++ tail ∧ mid <> [])) ∧
    token_estimate_milli r <= Z.max budget (head_budget budget) + token_estimate_milli TRUNCATION_MARKER + 2000.
Proof.
  intros Hs budget. destruct (truncate_to_char_boundary_spec s MAX_TAGGER_TEXT_BYTES Hs) as (j & Ej & Hlen & Hmax).
  exists j. unfold smart_bound_tagger_text. rewrite Ej. cbn [mbind option_bind]. fold budget.
  pose proof (estimate_pos TRUNCATION_MARKER).
  destruct (Z.leb_spec (token_estimate_milli (take j s)) budget) as [Hle|Hgt].
  { exists (take j s). split_and!; try done; lia. }
  destruct (smart_cut_spec (take j s) budget (is_str_take s j Hs)) as (r & head & mid & tail & Er & Es & Eh & Et & Hr).
  exists r. split_and!; try done; [lia|by intros _; exists head, mid, tail|].
  pose proof (head_budget_pos budget).
  destruct Hr as [->|[-> _]]; [lia|]. rewrite !estimate_app. lia.
Qed.

Lemma smart_bound_str s n : is_str s -> ∃ r, smart_bound_tagger_text s n = Some r ∧ is_str r.
Proof.
  intros Hs. destruct (truncate_to_char_boundary_spec s MAX_TAGGER_TEXT_BYTES Hs) as (j & Ej & _).
  unfold smart_bound_tagger_text. rewrite Ej. cbn [mbind option_bind]. pose proof (is_str_take s j Hs) as Hj.
  destruct (_ <=? _); [by exists (take j s)|].
  destruct (smart_cut_spec (take j s) (saturating_mul usize n 1000) Hj) as (r & head & mid & tail & Er & Es & _ & _ & Hr).
  exists r. split; [done|]. rewrite Es in Hj. apply Forall_app in Hj as [Hh [_ Ht]%Forall_app].
  destruct Hr as [->|[-> _]]; [done|]. repeat (apply Forall_app; split); try done; by repeat constructor.
Qed.

(** The cut can exceed the budget: the walk for the tail keeps the character
    that broke its share, and the marker is not counted. *)
Lemma smart_cut_exceeds : ∃ r, smart_cut (replicate 40 33) 4000 = Some r ∧ 4000 < token_estimate_milli r.
Proof. eexists. split; [vm_compute; reflexivity|]. vm_compute. reflexivity. Qed.

(** The budget for an unknown context is not the documented default. *)
Lemma default_budget : compute_token_budgets None None = (29468, 1500) ∧ DEFAULT_TAGGER_TEXT_TOKENS <> 29468.
Proof. split; [vm_compute; reflexivity|done]. Qed.

(** ** Retrying the tagger *)

(** Whole tokens of an estimate. *)
Definition tokens (s : chars) : Z := token_estimate_milli s / 1000.

Lemma halve_text_spec s : is_str s ->
  ∃ j, halve_text s = Some (take j s) ∧ tokens (take j s) < Z.max (tokens s / 2) 1.
Proof.
  intros Hs. unfold halve_text. fold (tokens s). set (target := Z.max (tokens s / 2) 1).
  pose proof (first_over_spec (λ cost, target <=? cost / 1000) 0 0 s) as Hw.
  destruct (first_over _ _ _) as [i|]; cbn [from_option id].
  - destruct Hw as (j & Hj & -> & Hk & _). exists j. rewrite Nat.add_0_l, str_slice_prefix by done. split; [done|].
    destruct j as [|j]; [change (tokens (take 0 s)) with 0; lia|].
    specialize (Hk (S j)). rewrite Z.add_0_l, Z.leb_gt in Hk. apply Hk. lia.
  - exists (length s). rewrite firstn_all. split.
    { pose proof (str_slice_prefix s (length s) Hs) as E. by rewrite offset_all, firstn_all in E. }
    destruct s as [|c s]; [change (tokens []) with 0; lia|].
    specialize (Hw (length (c :: s))). rewrite Z.add_0_l, Z.leb_gt, firstn_all in Hw. apply Hw. simpl. lia.
Qed.

Section Retries.
Context {W : Type} (tag : TagInput -> bool -> W -> result TagOutput TagError * W).

(** One call of the tagger: what it was sent and what it replied. *)
Notation call := (TagInput * bool * result TagOutput TagError)%type.

(** The tagger with a record of its calls. *)
Definition logged (i : TagInput) (local_only : bool) (w : list call * W) : result TagOutput TagError * (list call * W) :=
  let (r, w') := tag i local_only w.2 in (r, (w.1 ++ [(i, local_only, r)], w')).

(** The reply is an overflow of the model's context. *)
Definition overflowed (r : result TagOutput TagError) : Prop :=
  match r with Ok _ => False | Err e => is_context_overflow e = true end.

(** The calls of one request for tags and its answer: a call is repeated only
    after an overflow, with a prefix of its text of less than half the tokens
    (but at least one), and the last reply is the answer. *)
Inductive halved (lo : bool) : TagInput -> list call -> result TagOutput TagFail -> Prop :=
| halved_ok i out : halved lo i [(i, lo, Ok out)] (Ok out)
| halved_err i e : halved lo i [(i, lo, Err e)] (Err (TagErr e))
| halved_more i r j calls answer :
    overflowed r -> tokens (take j (ti_text i)) < Z.max (tokens (ti_text i) / 2) 1 ->
    halved lo (set_text i (take j (ti_text i))) calls answer -> halved lo i ((i, lo, r) :: calls) answer.

Lemma tag_loop_halved room : ∀ i lo log w, is_str (ti_text i) ->
  ∃ r calls w', tag_loop logged room i lo (log, w) = (r, (log ++ calls, w')) ∧ halved lo i calls r ∧
    (length calls <= S room)%nat ∧ (∀ e, r = Err (TagErr e) -> is_context_overflow e = true -> length calls = S room).
Proof.
  induction room as [|room IH]; intros i lo log w Hs; cbn [tag_loop]; unfold logged at 1; cbn [fst snd];
    destruct (tag i lo w) as [[out|e] w1].
  - exists (Ok out), [(i, lo, Ok out)], w1. split_and!; try done. constructor.
  - exists (Err (TagErr e)), [(i, lo, Err e)], w1. split_and!; try done. constructor.
  - exists (Ok out), [(i, lo, Ok out)], w1. split_and!; try done; [constructor|simpl; lia].
  - destruct (is_context_overflow e) eqn:Eo.
    + destruct (halve_text_spec (ti_text i) Hs) as (j & -> & Hj).
      destruct (IH (set_text i (take j (ti_text i))) lo (log ++ [(i, lo, Err e)]) w1) as (r & calls & w' & E & Hh & Hl & He);
        [by apply is_str_take|].
      exists r, ((i, lo, Err e) :: calls), w'. rewrite E, <- app_assoc.
      split_and!; [done|by econstructor|simpl; lia|]. intros e' Er Eo'. simpl. by rewrite (He e').
    + exists (Err (TagErr e)), [(i, lo, Err e)], w1. split_and!; try done; [constructor|simpl; lia|].
      intros e' [= <-] Eo'. by rewrite Eo in Eo'.
Qed.

(** The calls but the last were answered by an overflow, the last reply is the
    answer, and the texts sent are prefixes of the given one. *)
Lemma halved_calls lo i calls r : halved lo i calls r ->
  Forall (λ c, overflowed c.2) (removelast calls) ∧
  (∃ c, last calls = Some c ∧ r = match c.2 with Ok out => Ok out | Err e => Err (TagErr e) end) ∧
  Forall (λ c, c.1.2 = lo ∧ ∃ k, c.1.1 = set_text i (take k (ti_text i))) calls.
Proof.
  assert (Hself : ∀ i, ∃ k, i = set_text i (take k (ti_text i))).
  { intros [????? ?]. exists (length ti_text0). unfold set_text. cbn. by rewrite firstn_all. }
  induction 1 as [i out|i e|i r j calls answer Ho Hj Hh (IH1 & (c & IHc & IHr) & IH3)]; cbn.
  - split_and!; [constructor|by eexists|repeat constructor; apply Hself].
  - split_and!; [constructor|by eexists|repeat constructor; apply Hself].
  - destruct calls as [|c0 calls]; [done|]. split_and!.
    + by constructor.
    + by exists c.
    + constructor; [split; [done|apply Hself]|].
      eapply Forall_impl; [exact IH3|]. intros c' [E (k & ->)]. split; [done|].
      exists (Nat.min k j). unfold set_text. cbn. by rewrite take_take.
Qed.

(** C38. The tagger is called at least once and at most four times, first with
    the given input. A call is repeated only when it was answered by an overflow
    of the context, with a prefix of its text estimated below half the tokens of
    the one before (or below one); every other reply is the answer at once. The
    last reply is the answer, and an overflow is the answer only after three
    halvings. The halving never panics. *)
Theorem context_retry_halves i lo w : is_str (ti_text i) ->
  ∃ r calls w', tag_with_context_retry logged i lo ([], w) = (r, (calls, w')) ∧ halved lo i calls r ∧
    Forall (λ c, overflowed c.2) (removelast calls) ∧
    (∃ c, last calls = Some c ∧ r = match c.2 with Ok out => Ok out | Err e => Err (TagErr e) end) ∧
    (length calls <= S MAX_CONTEXT_SHRINKS)%nat ∧ r <> Err TagPanic ∧
    (∀ e, r = Err (TagErr e) -> is_context_overflow e = true -> length calls = S MAX_CONTEXT_SHRINKS).
Proof.
  intros Hs. destruct (tag_loop_halved MAX_CONTEXT_SHRINKS i lo [] w Hs) as (r & calls & w' & E & Hh & Hl & He).
  destruct (halved_calls _ _ _ _ Hh) as (Ho & (c & Hc & Hr) & _).
  exists r, calls, w'. split_and!; try done; [by exists c|]. by rewrite Hr; destruct c as [? []].
Qed.
End Retries.

(** ** Names and notes *)

Lemma split_any_segments sep s : Forall (Forall (λ c, sep c = false)) (split_any sep s) ∧ split_any sep s <> [].
Proof.
  induction s as [|c s [IH Hne]]; cbn [split_any]; [by repeat constructor|].
  destruct (split_any sep s) as [|w ws]; [done|]. apply Forall_cons in IH as [Hw Hws].
  destruct (sep c) eqn:E; split; try done; repeat constructor; done.
Qed.

Lemma split_any_sub sep s seg c : seg ∈ split_any sep s -> c ∈ seg -> c ∈ s.
Proof.
  revert seg. induction s as [|x s IH]; intros seg; cbn [split_any]; [by intros ->%list_elem_of_singleton|].
  destruct (split_any sep s) as [|w ws]; [by intros ->%list_elem_of_singleton ->%list_elem_of_singleton; left|].
  destruct (sep x); rewrite !elem_of_cons; intros [->|Hseg] Hc.
  - by apply not_elem_of_nil in Hc.
  - right. apply (IH seg); [by apply elem_of_cons|done].
  - apply elem_of_cons in Hc as [->|Hc]; [by left|]. right. apply (IH w); [left|done].
  - right. apply (IH seg); [by right|done].
Qed.

Lemma split_any_none sep s : Forall (λ c, sep c = false) s -> split_any sep s = [s].
Proof. induction 1 as [|c s Hc _ IH]; cbn [split_any]; [done|]. by rewrite IH, Hc. Qed.

Definition no_pair (s : chars) : Prop := contains (str "..") s = false.

Lemma remove_pairs_step a b s : remove_pairs (a :: b :: s) = if (a =? 46) && (b =? 46) then remove_pairs s else a :: remove_pairs (b :: s).
Proof. done. Qed.

Lemma remove_pairs_spec s : no_pair (remove_pairs s) ∧ ∀ c, c ∈ remove_pairs s -> c ∈ s.
Proof.
  remember (length s) as n eqn:Hn. revert s Hn. induction (lt_wf n) as [n _ IH]. intros s ->.
  destruct s as [|a [|b s]]; [done| |].
  { split; [|done]. unfold no_pair. apply not_true_iff_false. rewrite contains_spec. intros (x & y & E).
    apply (f_equal length) in E. rewrite !length_app in E. simpl in E. lia. }
  rewrite remove_pairs_step. destruct ((a =? 46) && (b =? 46)) eqn:E.
  - destruct (IH (length s)) with (s := s) as [H1 H2]; [simpl; lia|done|]. split; [done|]. intros c Hc. by do 2 right; apply H2.
  - destruct (IH (length (b :: s))) with (s := b :: s) as [H1 H2]; [simpl; lia|done|]. split.
    + unfold no_pair in *. cbn [contains]. rewrite H1, orb_false_r. unfold starts_with. apply bool_decide_eq_false_2.
      change (str "..") with [46; 46]. destruct (decide (a = 46)) as [->|]; [|simpl; congruence].
      apply andb_false_iff in E as [E|E]; [done|]. apply Z.eqb_neq in E.
      destruct s as [|d s]; [simpl; congruence|]. rewrite remove_pairs_step.
      rewrite (proj2 (Z.eqb_neq b 46)) by done. simpl. congruence.
    + intros c [->|Hc]%elem_of_cons; [left|right; by apply H2].
Qed.

Lemma remove_pairs_id s : no_pair s -> remove_pairs s = s.
Proof.
  unfold no_pair. induction s as [|a [|b s] IH]; [done|done|]. intros Hn. rewrite remove_pairs_step.
  cbn [contains] in Hn. apply orb_false_iff in Hn as [Hh Hn].
  destruct ((a =? 46) && (b =? 46)) eqn:E; [|by rewrite IH].
  apply andb_true_iff in E as [->%Z.eqb_eq ->%Z.eqb_eq]. done.
Qed.

(** A name that names a file of its own directory. *)
Record clean_name (r : chars) : Prop := {
  cn_nonempty : r <> [];
  cn_slash : 47 ∉ r;
  cn_backslash : 92 ∉ r;
  cn_pair : no_pair r;
  cn_trimmed : trim r = r;
}.

Lemma clean_no_slash r : clean_name r -> Forall (λ c, is_slash c = false) r.
Proof.
  intros Hr. apply Forall_forall. intros c Hc. unfold is_slash. apply orb_false_iff.
  split; apply Z.eqb_neq; intros ->; [by apply (cn_slash r Hr)|by apply (cn_backslash r Hr)].
Qed.

Lemma sanitize_sub name r : sanitize_filename name = Some r -> ∀ c, c ∈ r -> c ∈ name.
Proof.
  unfold sanitize_filename. intros E c Hc. destruct (last (split_any is_slash name)) as [base|] eqn:El.
  2:{ by apply last_None, (proj2 (split_any_segments is_slash name)) in El. }
  cbn [from_option id] in E. destruct (trim (remove_pairs base)) as [|x t] eqn:Et; [done|]. injection E as <-.
  destruct (trim_infix (remove_pairs base)) as (a & b & Hab). rewrite Et in Hab.
  apply last_Some_elem_of in El. eapply split_any_sub; [done|]. apply remove_pairs_spec. rewrite Hab. set_solver.
Qed.

(** A sanitized file name is not empty, has no slash, backslash or pair of
    dots and no space around it; it is made of characters of the last part of
    the name given, and a name that is clean already is kept. *)
Theorem sanitized_names_clean name :
  (∀ r, sanitize_filename name = Some r -> clean_name r ∧ (∀ c, c ∈ r -> c ∈ name)) ∧
  (clean_name name -> sanitize_filename name = Some name).
Proof.
  split.
  - intros r. unfold sanitize_filename. destruct (split_any_segments is_slash name) as [Hseg Hne].
    destruct (last (split_any is_slash name)) as [base|] eqn:El; [|by apply last_None in El]. cbn [from_option id].
    destruct (trim (remove_pairs base)) as [|x t] eqn:Et; [done|]. intros [= <-].
    destruct (remove_pairs_spec base) as [Hp Hin]. destruct (trim_infix (remove_pairs base)) as (a & b & Hab). rewrite Et in Hab.
    assert (Hsub : ∀ c, c ∈ x :: t -> c ∈ base) by (intros c Hc; apply Hin; rewrite Hab; set_solver).
    assert (Hno : ∀ c, c ∈ x :: t -> is_slash c = false).
    { intros c Hc. rewrite Forall_forall in Hseg. apply last_Some_elem_of, Hseg in El. rewrite Forall_forall in El. auto. }
    split; [constructor|].
    + done.
    + by intros Hc%Hno.
    + by intros Hc%Hno.
    + unfold no_pair in *. apply not_true_iff_false. intros Hc. apply (contains_infix _ a _ b) in Hc. by rewrite <- Hab, Hp in Hc.
    + rewrite <- Et. apply trim_idem.
    + apply sanitize_sub. unfold sanitize_filename. rewrite El. cbn [from_option id]. by rewrite Et.
  - intros Hc. unfold sanitize_filename. rewrite split_any_none by by apply clean_no_slash. cbn [last from_option id].
    rewrite remove_pairs_id by apply Hc. rewrite (cn_trimmed _ Hc). pose proof (cn_nonempty _ Hc). by destruct name.
Qed.

Lemma truncate_to_token_budget_spec s n : is_str s -> 0 <= n ->
  ∃ j, truncate_to_token_budget s n = Some (take j s) ∧
    token_estimate_milli (take j s) <= saturating_mul usize n 1000 ∧
    (take j s = s ∨ saturating_mul usize n 1000 < token_estimate_milli (take (S j) s)).
Proof.
  intros Hs Hn. unfold truncate_to_token_budget. set (b := saturating_mul usize n 1000).
  assert (Hb : 0 <= b) by (unfold b, saturating_mul, saturate, usize, u64; simpl; lia).
  pose proof (first_over_spec (λ cost, b <? cost) 0 0 s) as Hw. destruct (first_over _ _ _) as [i|].
  - destruct Hw as (j & Hj & -> & Hk & Ho). exists j. rewrite Nat.add_0_l, str_slice_prefix by done.
    rewrite Z.add_0_l, Z.ltb_lt in Ho. split_and!; [done| |by right].
    destruct j as [|j]; [done|]. specialize (Hk (S j)). rewrite Z.add_0_l, Z.ltb_ge in Hk. apply Hk. lia.
  - exists (length s). rewrite firstn_all. split_and!; [done| |by left].
    destruct s as [|c s]; [done|]. specialize (Hw (length (c :: s))). rewrite Z.add_0_l, Z.ltb_ge, firstn_all in Hw.
    apply Hw. simpl. lia.
Qed.

(** The user note as [ingest_inner] prepares it. *)
Definition prepare_note (note : chars) (note_budget : Z) : option chars :=
  s ← truncate_to_char_boundary (strip_control_chars note) MAX_USER_NOTE_BYTES;
  truncate_to_token_budget s note_budget.

Lemma strip_control_str s : is_str s -> is_str (strip_control_chars s).
Proof.
  intros Hs. apply Forall_forall. intros c Hc. apply list_elem_of_In, filter_In in Hc as [Hc _].
  rewrite Forall_forall in Hs. by apply Hs, list_elem_of_In.
Qed.

(** A prepared note can be stored: no control character but tab and line ends. *)
Lemma prepare_note_spec note budget : is_str note -> 0 <= budget ->
  ∃ r, prepare_note note budget = Some r ∧ is_str r ∧ (str_len r <= MAX_USER_NOTE_BYTES)%nat ∧
    token_estimate_milli r <= saturating_mul usize budget 1000 ∧
    r `prefix_of` strip_control_chars note ∧ Forall (λ c, is_control c = true -> c = 9 ∨ c = 10 ∨ c = 13) r.
Proof.
  intros Hs Hb. apply strip_control_str in Hs. unfold prepare_note.
  destruct (truncate_to_char_boundary_spec _ MAX_USER_NOTE_BYTES Hs) as (j & -> & Hl & _). cbn [mbind option_bind].
  destruct (truncate_to_token_budget_spec (take j (strip_control_chars note)) budget) as (k & -> & He & _);
    [by apply is_str_take|done|].
  set (s := strip_control_chars note) in *. exists (take k (take j s)).
  assert (Hp : take k (take j s) `prefix_of` s) by (etrans; apply prefix_take).
  split_and!; [done|by apply is_str_take, is_str_take| |done|done|].
  - pose proof (offset_le (take j s) k) as Ho. unfold offset in Ho. lia.
  - apply Forall_forall. intros c Hc Hctl. destruct Hp as [q Hq].
    assert (c ∈ s) as Hin by (rewrite Hq; set_solver). apply list_elem_of_In, filter_In in Hin as [_ Hf].
    rewrite Hctl in Hf. cbn [andb] in Hf. apply negb_true_iff in Hf. rewrite !andb_false_iff, !negb_false_iff, !Z.eqb_eq in Hf. tauto.
Qed.

(** ** Witnesses *)

Lemma tagger_text_bounded_witness :
  is_str (str "minutes") ∧ ∃ r, smart_bound_tagger_text (str "minutes") 10 = Some r.
Proof.
  assert (Hs : is_str (str "minutes")) by (repeat constructor).
  split; [exact Hs|]. destruct (tagger_text_bounded (str "minutes") 10 Hs) as (j & r & H & _). by exists r.
Defined.

Definition demo_tag (i : TagInput) (_ : bool) (n : nat) : result TagOutput TagError * nat :=
  if (4 <? str_len (ti_text i))%nat then (Err (mkTagError (str "request exceeds the available context size") None), S n)
  else (Ok default_tag_output, S n).
Lemma context_retry_halves_witness :
  is_str (str "aaaa!!!!") ∧
  ∃ r calls w', tag_with_context_retry (logged demo_tag) (mkTagInput 1 None (str "aaaa!!!!") None KDocument JNull) true ([], 0%nat)
    = (r, (calls, w')) ∧ Forall (λ c, overflowed c.2) (removelast calls).
Proof.
  assert (Hs : is_str (str "aaaa!!!!")) by (repeat constructor).
  split; [exact Hs|].
  destruct (context_retry_halves demo_tag (mkTagInput 1 None (str "aaaa!!!!") None KDocument JNull) true 0%nat Hs)
    as (r & calls & w' & E & _ & Ho & _). exists r, calls, w'. split; [exact E|exact Ho].
Defined.
