(* ===== verification/Ingest.v ===== *)
(** * The ingestion pipeline
      (pipeline/src/ingest.rs, pipeline/src/embedder.rs, pipeline/src/ingest_worker.rs)

    The eight steps from raw files to a ready document, over the interfaces of
    the parts they call: a blob store ([Blob]), a tag store ([TagStore]) and a
    document store ([IngestStore]).  The models and the extractors are the
    fields of [IngestPipeline], functions of a state of their own ([W]); the
    digest, the magic-byte table and the clock are parameters. *)

From stdpp Require Import base gmap list sets strings.
From Stdlib Require Import ZArith Lia Strings.Byte.
From S2P Require Import Prelude StableSort FloatModel Text Json Role JobQueue Chunker Blob Envelope ColumnCrypt Schema PgStore StoreInvariant StoreReads StoreIngest Tags Sessions Guards Archive DocBuilder IngestText.
Open Scope Z_scope.

Create HintDb frame discriminated.
Create HintDb tagging discriminated.

(** ** Interfaces *)

Class IngestStore (S : Type) := {
  is_transactional_ingest : Document -> list FileRecord -> list Z -> list (list Chunk) -> S -> result Z DbError * S;
}.
Class QueuedIngestStore (S : Type) := {
  qs_get_document : Z -> Z -> S -> result (option Document) DbError * S;
  qs_get_files_for_document : Z -> Z -> S -> result (list FileRecord) DbError * S;
}.

Record IngestFile := mkIngestFile {
  if_bytes : bytes;
  if_page_label : option chars;
  if_path : option chars;
}.
Record IngestOutput := mkIngestOutput {
  io_document_id : Z;
  io_tag_ids : list Z;
  io_chunk_count : Z;
}.
Record RawFile := mkRawFile {
  rf_bytes : bytes;
  rf_mime : option chars;
  rf_kind : DocKind;
  rf_path : option chars;
}.

Inductive EmbedError :=
| BatchFailed (cause : TagError)
| DimensionMismatch (expected got index : nat)
| CountMismatch (vectors submitted : nat).

(** The errors of a run; [IngestPanic] is a call that does not return. *)
Inductive IngestFailure :=
| NoFiles
| BadDocumentId (id : Z)
| BlobFailed (key : chars) (e : BlobError)
| ExtractionFailed (page : Z) (path : option chars) (cause : chars)
| ContextOverflow (e : TagError)
| BackendUnavailable (e : TagError)
| TaggerFailed (e : TagError)
| CanonFailed (e : CanonError)
| EmbedFailed (e : EmbedError)
| StoreFailed (e : DbError)
| IngestPanic.

Record UsageEvent := mkUsageEvent {
  ue_tenant : Z;
  ue_user : option Z;
  ue_prompt_tokens : Z;
  ue_completion_tokens : Z;
}.

(** The reply of an embedding call: its vectors and its token counts. *)
Record EmbedResp := mkEmbedResp {
  er_vectors : list (list f32);
  er_prompt_tokens : Z;
  er_completion_tokens : Z;
}.

(** The parts that are models or talk to one. *)
Record IngestPipeline (W : Type) := mkPipeline {
  ip_extractors : DocKind -> option (RawFile -> W -> result Extracted chars * W);
  ip_tag : TagInput -> bool -> W -> result TagOutput TagError * W;
  ip_context_tokens : option Z;
  ip_threshold : f32;
  ip_llm_embed : list chars -> bool -> W -> result EmbedResp TagError * W;
  ip_expected_dim : nat;
  ip_recorder : bool;
  ip_describe_many : option (list PageImage -> bool -> W -> result chars chars * W);
}.
Arguments mkPipeline {W}.
Arguments ip_extractors {W}.
Arguments ip_tag {W}.
Arguments ip_context_tokens {W}.
Arguments ip_threshold {W}.
Arguments ip_llm_embed {W}.
Arguments ip_expected_dim {W}.
Arguments ip_recorder {W}.
Arguments ip_describe_many {W}.

(** Everything a run may change. *)
Record Sys (B S W : Type) := mkSys {
  sy_blob : B;
  sy_store : S;
  sy_names : Embedder;
  sy_models : W;
  sy_usage : list UsageEvent;
}.
Arguments mkSys {B S W}.
Arguments sy_blob {B S W}.
Arguments sy_store {B S W}.
Arguments sy_names {B S W}.
Arguments sy_models {B S W}.
Arguments sy_usage {B S W}.

(** A blob key is ASCII. *)
Definition key_string (key : chars) : string :=
  foldr (λ c s, String (Ascii.ascii_of_N (Z.to_N c)) s) EmptyString key.

(** [slice::chunks(n)]. *)
Fixpoint batches_from {A} (fuel n : nat) (l : list A) : list (list A) :=
  match fuel, l with
  | _, [] => []
  | O, _ => []
  | S fuel, _ => take n l :: batches_from fuel n (drop n l)
  end.
Definition batches {A} (n : nat) (l : list A) : list (list A) := batches_from (length l) n l.
Definition MAX_EMBED_BATCH_SIZE : nat := 32.
Definition EMBED_QUERY_PREFIX : chars :=
  str "Instruct: Given a web search query, retrieve relevant passages that answer the query" ++ [10] ++ str "Query: ".
Inductive EmbedKind := EmbedQuery | EmbedDocument.

(** The kind that chooses the extractor. *)
Definition infer_kind_from_mime (mime : option chars) : DocKind :=
  match mime with
  | None => KBinary
  | Some m =>
      if starts_with (str "image/") m then KImage
      else if starts_with (str "audio/") m then KAudio
      else if starts_with (str "video/") m then KVideo
      else if bool_decide (m = str "application/x-matroska") then KVideo
      else if starts_with (str "text/") m then KDocument
      else if starts_with (str "application/pdf") m || starts_with (str "application/msword") m
              || starts_with (str "application/vnd.openxmlformats-officedocument") m
              || starts_with (str "application/vnd.oasis.opendocument") m
              || bool_decide (m = str "application/rtf") then KDocument
      else if listed_mime m ["application/zip"; "application/x-tar"; "application/gzip"; "application/x-bzip2";
                             "application/x-xz"; "application/zstd"] then KArchive
      else if bool_decide (m = str "message/rfc822") then KEmail
      else KBinary
  end.

Definition is_media (k : DocKind) : bool :=
  match k with KImage | KAudio | KVideo => true | _ => false end.

Definition set_ready (f : FileRecord) : FileRecord :=
  mkFileRecord (fr_id f) (fr_tenant f) (fr_document f) (fr_page_no f) (fr_page_label f) (fr_sha256 f) (fr_blob_key f)
    (fr_path f) (fr_mime f) (fr_size_bytes f) (fr_meta f) Ready (fr_ingested_at f).
Definition set_ex_text (e : Extracted) (text : chars) : Extracted := mkExtracted text (ex_meta e) (ex_page_images e).
Definition set_md_text (m : MergedDocument) (text : chars) : MergedDocument :=
  mkMerged text (md_meta m) (md_kind m) (md_page_count m) (md_page_images m).

Definition captioned_text (caption text : chars) : chars :=
  str "--- image description ---" ++ [10] ++ caption ++ [10] ++ str "---" ++ [10; 10] ++ text.

(** [iter_mut().find(..)]: the first page with images and no text. *)
Fixpoint attach_caption (caption : chars) (pairs : list (FileRecord * Extracted)) : list (FileRecord * Extracted) :=
  match pairs with
  | [] => []
  | (f, e) :: pairs' =>
      if bool_decide (ex_text e = []) && (0 <? length (ex_page_images e))%nat
      then (f, set_ex_text e caption) :: pairs'
      else (f, e) :: attach_caption caption pairs'
  end.

Section Pipeline.
Context {B S W : Type} `{!Blob B} `{!TagStore S} `{!IngestStore S} `{!Unicode}.
Context (tree_magic : bytes -> chars) (sha256 : bytes -> bytes) (now : Z).
Context (p : IngestPipeline W).
Notation Sys := (Sys B S W).

Definition ing (A : Type) : Type := Sys -> result A IngestFailure * Sys.
#[local] Instance ing_ret : MRet ing := λ A a s, (Ok a, s).
#[local] Instance ing_bind : MBind ing := λ A B k m s,
  match m s with
  | (Ok a, s') => k a s'
  | (Err e, s') => (Err e, s')
  end.
Definition ing_fail {A} (e : IngestFailure) : ing A := λ s, (Err e, s).
Definition ing_ensure (b : bool) (e : IngestFailure) : ing unit := if b then mret tt else ing_fail e.
Definition no_ing_panic {A} (o : option A) : ing A := match o with Some a => mret a | None => ing_fail IngestPanic end.

(** A call of each part, with the error it becomes. *)
Definition on_blob {A} (f : BlobError -> IngestFailure) (m : prog B A) : ing A := λ s,
  let (r, b) := m (sy_blob s) in
  (match r with Ok a => Ok a | Err e => Err (f e) end, mkSys b (sy_store s) (sy_names s) (sy_models s) (sy_usage s)).
Definition on_store {A} (m : S -> result A DbError * S) : ing A := λ s,
  let (r, st) := m (sy_store s) in
  (match r with Ok a => Ok a | Err e => Err (StoreFailed e) end,
   mkSys (sy_blob s) st (sy_names s) (sy_models s) (sy_usage s)).
Definition on_names {A} (m : canon A) : ing A := λ s,
  let '(r, (st, em)) := m (sy_store s, sy_names s) in
  (match r with Ok a => Ok a | Err e => Err (CanonFailed e) end,
   mkSys (sy_blob s) st em (sy_models s) (sy_usage s)).
(** A model's reply is inspected by the caller. *)
Definition on_models {A E} (m : W -> result A E * W) : ing (result A E) := λ s,
  let (r, w) := m (sy_models s) in (Ok r, mkSys (sy_blob s) (sy_store s) (sy_names s) w (sy_usage s)).

(** ** The embedder *)

Definition meter (t : Z) (user : option Z) (r : EmbedResp) : ing unit := λ s,
  (Ok tt,
   if ip_recorder p
   then mkSys (sy_blob s) (sy_store s) (sy_names s) (sy_models s)
          (sy_usage s ++ [mkUsageEvent t user (wrap i32 (er_prompt_tokens r)) (wrap i32 (er_completion_tokens r))])
   else s).

Fixpoint send_all (bs : list (list chars)) (local_only : bool) : ing (list (result EmbedResp TagError)) :=
  match bs with
  | [] => mret []
  | b :: bs' =>
      r ← on_models (ip_llm_embed p b local_only);
      rs ← send_all bs' local_only;
      mret (r :: rs)
  end.

(** The dimension check of one reply. *)
Fixpoint check_dims (i : nat) (vs : list (list f32)) : result (list (list f32)) IngestFailure :=
  match vs with
  | [] => Ok []
  | v :: vs' =>
      if negb (length v =? ip_expected_dim p)%nat then Err (EmbedFailed (DimensionMismatch (ip_expected_dim p) (length v) i))
      else let? rest := check_dims (i + 1) vs' in Ok (v :: rest)
  end.

Fixpoint gather (t : option Z) (user : option Z) (rs : list (result EmbedResp TagError)) : ing (list (list f32)) :=
  match rs with
  | [] => mret []
  | Err cause :: _ => ing_fail (EmbedFailed (BatchFailed cause))
  | Ok r :: rs' =>
      match t with Some t => meter t user r | None => mret tt end;;
      vs ← (λ s, (check_dims 0 (er_vectors r), s));
      rest ← gather t user rs';
      mret (vs ++ rest)
  end.

Definition batch_embed (texts : list chars) (kind : EmbedKind) (t user : option Z) (local_only : bool) : ing (list (list f32)) :=
  let processed := match kind with EmbedQuery => app EMBED_QUERY_PREFIX <$> texts | EmbedDocument => texts end in
  results ← send_all (batches MAX_EMBED_BATCH_SIZE processed) local_only;
  gather t user results.

(** The text of a chunk, from its bytes. *)
Definition chunk_str (c : TextChunk) : chars := default [] (from_utf8 (Chunker.content c)).

Definition embed_chunks (cs : list TextChunk) (t : Z) (user : option Z) (document_id : Z) (local_only : bool) : ing (list Chunk) :=
  match cs with
  | [] => mret []
  | _ =>
      vectors ← batch_embed (chunk_str <$> cs) EmbedDocument (Some t) user local_only;
      ing_ensure (length vectors =? length cs)%nat (EmbedFailed (CountMismatch (length vectors) (length cs)));;
      mret (zip_with (λ tc v, mkChunk t document_id (page_no tc) (idx tc) (chunk_str tc) (ts_offset tc) v) cs vectors)
  end.

Definition embed_query (query_text : chars) (t : Z) (user : option Z) (local_only : bool) : ing (list f32) :=
  vectors ← batch_embed [query_text] EmbedQuery (Some t) user local_only;
  ing_ensure (length vectors =? 1)%nat (EmbedFailed (CountMismatch (length vectors) 1));;
  mret (default [] (head vectors)).

(** ** The eight steps *)

Definition sanitize (f : IngestFile) : IngestFile :=
  mkIngestFile (if_bytes f) (if_page_label f ≫= sanitize_filename) (if_path f ≫= sanitize_filename).

Definition build (t : Z) (files : list IngestFile) (note : option chars) : Document * list FileRecord :=
  match files with
  | [f] => build_single tree_magic sha256 now t (if_bytes f) (if_path f) note
  | _ => build_multi tree_magic sha256 now t ((λ f, mkPageInput (if_bytes f) (if_page_label f) (if_path f)) <$> files) note
  end.

Fixpoint put_blobs (l : list (FileRecord * IngestFile)) : ing unit :=
  match l with
  | [] => mret tt
  | (f, input) :: l' =>
      on_blob (BlobFailed (fr_blob_key f)) (blob_put (key_string (fr_blob_key f)) (if_bytes input));;
      put_blobs l'
  end.

Definition extract_one (f : FileRecord) (input : IngestFile) : ing Extracted :=
  let kind := infer_kind_from_mime (fr_mime f) in
  match ip_extractors p kind with
  | None => mret default_extracted
  | Some extractor =>
      r ← on_models (extractor (mkRawFile (if_bytes input) (fr_mime f) kind (fr_path f)));
      match r with
      | Ok e => mret e
      | Err cause =>
          if is_media kind then mret default_extracted
          else ing_fail (ExtractionFailed (fr_page_no f) (fr_path f) cause)
      end
  end.

Fixpoint extract_all (l : list (FileRecord * IngestFile)) : ing (list (FileRecord * Extracted)) :=
  match l with
  | [] => mret []
  | (f, input) :: l' =>
      e ← extract_one f input;
      rest ← extract_all l';
      mret ((f, e) :: rest)
  end.

Definition caption (merged : MergedDocument) (pairs : list (FileRecord * Extracted)) (local_only : bool)
    : ing (MergedDocument * list (FileRecord * Extracted)) :=
  match ip_describe_many p with
  | None => mret (merged, pairs)
  | Some describe =>
      if (length (md_page_images merged) =? 0)%nat then mret (merged, pairs)
      else
        r ← on_models (describe (md_page_images merged) local_only);
        match r with
        | Ok [] | Err _ => mret (merged, pairs)
        | Ok c => mret (set_md_text merged (captioned_text c (md_text merged)), attach_caption c pairs)
        end
  end.

Definition tag_document (input : TagInput) (local_only : bool) : ing TagOutput :=
  r ← on_models (tag_with_context_retry (ip_tag p) input local_only);
  match r with
  | Ok out => mret out
  | Err TagPanic => ing_fail IngestPanic
  | Err (TagErr e) =>
      if is_media (ti_kind input) then mret default_tag_output
      else if is_context_overflow e then ing_fail (ContextOverflow e)
      else if is_backend_unavailable e then ing_fail (BackendUnavailable e)
      else ing_fail (TaggerFailed e)
  end.

(** [chunk_text] returns for these constants; [None] would be its panic. *)
Definition chunks_of (f : FileRecord) (e : Extracted) : option (list TextChunk) :=
  match chunk_text (as_bytes (ex_text e)) (fr_id f) (Some (fr_page_no f)) None DEFAULT_CHUNK_SIZE_CHARS DEFAULT_OVERLAP_CHARS with
  | Ok (Some cs) => Some (dedup_identical_chunks cs)
  | _ => None
  end.

Fixpoint embed_all (pairs : list (FileRecord * Extracted)) (t : Z) (user : option Z) (doc : Z) (local_only : bool)
    : ing (list (list Chunk)) :=
  match pairs with
  | [] => mret []
  | (f, e) :: pairs' =>
      cs ← no_ing_panic (chunks_of f e);
      embedded ← match cs with [] => mret [] | _ => embed_chunks cs t user doc local_only end;
      rest ← embed_all pairs' t user doc local_only;
      mret (embedded :: rest)
  end.

Definition final_document (t : Z) (existing : option Z) (document : Document) (out : TagOutput) (merged : MergedDocument)
    (local_only : bool) : Document :=
  mkDocument (default (doc_id document) existing) t (Some (to_title out)) (Some (to_summary out)) (doc_user_note document)
    (md_kind merged) (md_meta merged) (md_page_count merged) Ready (doc_created_at document) local_only (doc_sync document).

Definition ingest_inner (t : Z) (user : option Z) (files : list IngestFile) (user_note : option chars) (local_only : bool)
    (existing_doc_id : option Z) : ing IngestOutput :=
  ing_ensure (negb (length files =? 0)%nat) NoFiles;;
  let '(text_budget, note_budget) := compute_token_budgets (ip_context_tokens p) None in
  user_note ← match user_note with
              | None => mret None
              | Some note => note ← no_ing_panic (prepare_note note note_budget); mret (Some note)
              end;
  let files := sanitize <$> files in
  let '(document, file_records) := build t files user_note in
  put_blobs (zip file_records files);;
  pairs ← extract_all (zip file_records files);
  mp ← caption (merge pairs) pairs local_only;
  let '(merged, pairs) := mp in
  text ← no_ing_panic (smart_bound_tagger_text (md_text merged) text_budget);
  out ← tag_document (mkTagInput t user text (doc_user_note document) (md_kind merged) (md_meta merged)) local_only;
  tag_ids ← on_names (canonicalize t (ip_threshold p) (to_tags out));
  file_chunks ← embed_all pairs t user (doc_id document) local_only;
  let chunk_count := sum_Z ((λ cs, Z.of_nat (length cs)) <$> file_chunks) in
  id ← on_store (is_transactional_ingest (final_document t existing_doc_id document out merged local_only)
    (set_ready <$> file_records) tag_ids file_chunks);
  mret (mkIngestOutput id tag_ids chunk_count).

Definition ingest (t : Z) (user : option Z) (files : list IngestFile) (user_note : option chars) (local_only : bool)
    : ing IngestOutput :=
  ingest_inner t user files user_note local_only None.

Definition ingest_into (t : Z) (user : option Z) (document_id : Z) (files : list IngestFile) (user_note : option chars)
    (local_only : bool) : ing IngestOutput :=
  ing_ensure (0 <? document_id) (BadDocumentId document_id);;
  ingest_inner t user files user_note local_only (Some document_id).
End Pipeline.

(** ** Queued ingestion *)

Record QueuedIngestInputs := mkInputs {
  qi_document_id : Z;
  qi_files : list IngestFile;
  qi_user_note : option chars;
  qi_local_only : bool;
  qi_already_ready : bool;
}.

Definition permanent (msg : chars) : chars := str PERMANENT_ERROR_PREFIX ++ msg.

Definition classify_pipeline_error (formatted : chars) : chars :=
  if starts_with (str "extraction failed") formatted then permanent formatted else formatted.

Section Messages.
(** The formatted errors of other parts. *)
Context (show_blob : BlobError -> chars) (show_db : DbError -> chars) (show_canon : CanonError -> chars).

Definition show_embed_error (e : EmbedError) : chars :=
  match e with
  | BatchFailed cause => str "failed to embed batch: " ++ te_message cause
  | DimensionMismatch expected got i =>
      str "embedding dimension mismatch: expected " ++ show_int (Z.of_nat expected) ++ str " but got " ++
      show_int (Z.of_nat got) ++ str " for text index " ++ show_int (Z.of_nat i)
  | CountMismatch vectors submitted =>
      str "embedder returned " ++ show_int (Z.of_nat vectors) ++ str " vectors but " ++
      show_int (Z.of_nat submitted) ++ str " chunks were submitted"
  end.

(** [format!("{e:#}")] of a run's error. *)
Definition show_failure (e : IngestFailure) : chars :=
  match e with
  | NoFiles => str "at least one file is required"
  | BadDocumentId id => str "ingest_into requires a positive document_id (got " ++ show_int id ++ str ")"
  | BlobFailed key e => str "failed to store blob for " ++ key ++ str ": " ++ show_blob e
  | ExtractionFailed page path cause =>
      str "extraction failed for page " ++ show_int page ++ str " (" ++ default (str "?") path ++ str "): " ++ cause
  | ContextOverflow e => permanent (str "context overflow after 3 text halvings: " ++ te_message e)
  | BackendUnavailable e => str "model backend temporarily unavailable: " ++ te_message e
  | TaggerFailed e => str "tagger failed: " ++ te_message e
  | CanonFailed e => show_canon e
  | EmbedFailed e => show_embed_error e
  | StoreFailed e => show_db e
  | IngestPanic => []
  end.

Section Worker.
Context {B S W : Type} `{!Blob B} `{!TagStore S} `{!IngestStore S} `{!QueuedIngestStore S} `{!Unicode}.
Context (tree_magic : bytes -> chars) (sha256 : bytes -> bytes) (now : Z).
Context (p : IngestPipeline W).
Notation Sys := (Sys B S W).

(** [Result<_, String>] over the same state. *)
Definition work (A : Type) : Type := Sys -> result A chars * Sys.
#[local] Instance work_ret : MRet work := λ A a s, (Ok a, s).
#[local] Instance work_bind : MBind work := λ A B k m s,
  match m s with
  | (Ok a, s') => k a s'
  | (Err e, s') => (Err e, s')
  end.
Definition work_fail {A} (e : chars) : work A := λ s, (Err e, s).
Definition work_store {A} (f : DbError -> chars) (m : S -> result A DbError * S) : work A := λ s,
  let (r, st) := m (sy_store s) in
  (match r with Ok a => Ok a | Err e => Err (f e) end, mkSys (sy_blob s) st (sy_names s) (sy_models s) (sy_usage s)).
Definition work_blob {A} (f : BlobError -> chars) (m : prog B A) : work A := λ s,
  let (r, b) := m (sy_blob s) in
  (match r with Ok a => Ok a | Err e => Err (f e) end, mkSys b (sy_store s) (sy_names s) (sy_models s) (sy_usage s)).

Fixpoint fetch_files (rows : list FileRecord) : work (list IngestFile) :=
  match rows with
  | [] => mret []
  | row :: rows' =>
      b ← work_blob (λ e, str "failed to read blob '" ++ fr_blob_key row ++ str "': " ++ show_blob e)
            (blob_get (key_string (fr_blob_key row)));
      rest ← fetch_files rows';
      mret (mkIngestFile b (fr_page_label row) (fr_path row) :: rest)
  end.

Definition load_queued_ingest_inputs (job : Job) (plan_local_only : bool) : work QueuedIngestInputs :=
  match j_document_id job with
  | None => work_fail (permanent (str "ingest job " ++ show_int (j_id job) ++ str " carries no document_id (legacy job?)"))
  | Some document_id =>
      let t := j_tenant_id job in
      odoc ← work_store (λ e, str "failed to load staged document " ++ show_int document_id ++ str ": " ++ show_db e)
               (qs_get_document t document_id);
      match odoc with
      | None => work_fail (permanent (str "staged document " ++ show_int document_id ++ str " not found for tenant"))
      | Some doc =>
          if bool_decide (doc_status doc = Ready)
          then mret (mkInputs document_id [] None (doc_local_only doc) true)
          else
            file_rows ← work_store (λ e, str "failed to load files for document " ++ show_int document_id ++ str ": " ++ show_db e)
                          (qs_get_files_for_document t document_id);
            match file_rows with
            | [] => work_fail (permanent (str "staged document " ++ show_int document_id ++ str " has no file rows"))
            | _ =>
                files ← fetch_files file_rows;
                mret (mkInputs document_id files (doc_user_note doc) (doc_local_only doc || plan_local_only) false)
            end
      end
  end.

Definition process_queued_ingest (job : Job) (plan_local_only : bool) : work unit :=
  inputs ← load_queued_ingest_inputs job plan_local_only;
  if qi_already_ready inputs then mret tt
  else λ s,
    match ingest_into tree_magic sha256 now p (j_tenant_id job) (j_created_by job) (qi_document_id inputs) (qi_files inputs)
            (qi_user_note inputs) (qi_local_only inputs) s with
    | (Ok _, s') => (Ok tt, s')
    | (Err e, s') => (Err (classify_pipeline_error (show_failure e)), s')
    end.
End Worker.
End Messages.

(** ** What every step leaves alone *)

(** What the tag operations of a store leave as it was, as a relation between
    a state and a later one. *)
Class TagOpsKeep (S : Type) `{!TagStore S} (R : relation S) : Prop := {
  #[global] tk_pre :: PreOrder R;
  tk_lookup t a s : R s (ts_lookup_alias t a s).2;
  tk_similar t s : R s (ts_find_similar_tags t s).2;
  tk_alias t a tag s : R s (ts_insert_tag_alias t a tag s).2;
  tk_upsert t name e s : R s (ts_upsert_tag t name e s).2;
}.
(** What an ingest that fails leaves as it was. *)
Class FailedIngestKeeps (S : Type) `{!IngestStore S} (R : relation S) : Prop :=
  fk_ingest doc recs ids fcs s e s' : is_transactional_ingest doc recs ids fcs s = (Err e, s') -> R s s'.

Section Tagging.
Context {B S W : Type} `{!TagStore S} `{!Unicode} (R : relation S) `{!TagOpsKeep S R}.
#[local] Existing Instances ing_ret ing_bind canon_ret canon_bind.

Definition untouched {A} (m : ing (B:=B) (S:=S) (W:=W) A) : Prop := ∀ s, R (sy_store s) (sy_store (m s).2).

Lemma untouched_bind {A C} (m : ing A) (k : A -> ing C) : untouched m -> (∀ a, untouched (k a)) -> untouched (m ≫= k).
Proof.
  intros Hm Hk s. unfold mbind, ing_bind. specialize (Hm s). destruct (m s) as [[a|e] s1]; simpl in *; [|done].
  etrans; [done|apply Hk].
Qed.

Definition canon_keeps {A} (m : canon (S:=S) A) : Prop := ∀ st em, R st (m (st, em)).2.1.

Lemma untouched_canon {A} (m : canon A) : canon_keeps m -> untouched (on_names m).
Proof. intros Hm s. unfold on_names. specialize (Hm (sy_store s) (sy_names s)). by destruct (m _) as [r [st em]]. Qed.

Lemma canon_keeps_ret {A} (a : A) : canon_keeps (mret a).
Proof. by intros st em. Qed.
Lemma canon_keeps_bind {A C} (m : canon A) (k : A -> canon C) : canon_keeps m -> (∀ a, canon_keeps (k a)) -> canon_keeps (m ≫= k).
Proof.
  intros Hm Hk st em. unfold mbind, canon_bind. specialize (Hm st em).
  destruct (m (st, em)) as [[a|e] [st1 em1]]; simpl in *; [|done]. etrans; [done|apply Hk].
Qed.
Lemma canon_keeps_store {A} (m : S -> result A DbError * S) : (∀ st, R st (m st).2) -> canon_keeps (store_call m).
Proof. intros Hm st em. unfold store_call. specialize (Hm st). by destruct (m st) as [[a|e] st1]. Qed.
Lemma canon_keeps_embed name : canon_keeps (embed_tag_name name).
Proof. intros st em. unfold embed_tag_name. by repeat case_match. Qed.
#[local] Hint Resolve canon_keeps_ret canon_keeps_embed canon_keeps_store : tagging.
#[local] Hint Extern 1 (R _ _) => first [apply tk_lookup|apply tk_similar|apply tk_alias|apply tk_upsert] : tagging.

Lemma canonicalize_keeps t threshold raws : canon_keeps (canonicalize t threshold raws).
Proof.
  assert (Hone : ∀ existing raw, canon_keeps (canonicalize_one t threshold existing raw)).
  { intros existing raw. unfold canonicalize_one. apply canon_keeps_bind; [by intros st em; unfold no_panic; case_match|].
    intros normalized. apply canon_keeps_bind; [auto with tagging|].
    intros [tag|]; [auto with tagging|]. apply canon_keeps_bind; [auto with tagging|]. intros v.
    destruct (find_best_match _ _ _) as [[best ?]|]; repeat (apply canon_keeps_bind; [auto with tagging|intros ?]); auto with tagging. }
  apply canon_keeps_bind; [auto with tagging|]. intros existing.
  revert existing. induction raws as [|raw raws IH]; intros existing; [by intros st em|]. cbn [canonicalize_all].
  apply canon_keeps_bind; [done|]. intros r. apply canon_keeps_bind; auto with tagging.
Qed.
End Tagging.

(** The steps that talk to the models only. *)
Section Frame.
Context {B S W : Type} `{!Blob B} `{!TagStore S} `{!IngestStore S} `{!Unicode}.
Context (p : IngestPipeline W).
#[local] Existing Instances ing_ret ing_bind.

Definition models_only {A} (m : ing (B:=B) (S:=S) (W:=W) A) : Prop :=
  ∀ s, sy_blob (m s).2 = sy_blob s ∧ sy_store (m s).2 = sy_store s ∧ sy_names (m s).2 = sy_names s.

Lemma mo_bind {A C} (m : ing A) (k : A -> ing C) : models_only m -> (∀ a, models_only (k a)) -> models_only (m ≫= k).
Proof using Type.
  intros Hm Hk s. unfold mbind, ing_bind. destruct (Hm s) as (Hb & Hs & Hn). destruct (m s) as [[a|e] s1]; simpl in *; [|done].
  destruct (Hk a s1) as (? & ? & ?). split_and!; congruence.
Qed.
Lemma mo_ret {A} (a : A) : models_only (mret a).
Proof using Type. done. Qed.
Lemma mo_fail {A} e : models_only (ing_fail (A:=A) e).
Proof using Type. done. Qed.
Lemma mo_ensure b e : models_only (ing_ensure b e).
Proof using Type. by destruct b. Qed.
Lemma mo_no_panic {A} (o : option A) : models_only (no_ing_panic o).
Proof using Type. by destruct o. Qed.
Lemma mo_models {A E} (m : W -> result A E * W) : models_only (on_models m).
Proof using Type. intros s. unfold on_models. by destruct (m _) as [r w]. Qed.
Lemma mo_meter t user r : models_only (meter p t user r).
Proof using Type. intros s. unfold meter. simpl. by destruct (ip_recorder p). Qed.

#[local] Hint Resolve mo_ret mo_fail mo_ensure mo_no_panic mo_models mo_meter : frame.
Ltac frame := repeat (apply mo_bind; [auto with frame|intros ?]); auto with frame.

Lemma mo_extract l : models_only (extract_all p l).
Proof using Type.
  induction l as [|[f i] l IH]; cbn [extract_all]; [by frame|]. apply mo_bind; [|intros e; frame].
  unfold extract_one. destruct (ip_extractors p _); frame. repeat case_match; auto with frame.
Qed.
Lemma mo_caption md pairs lo : models_only (caption p md pairs lo).
Proof using Type. unfold caption. destruct (ip_describe_many p); [|by frame]. case_match; frame. repeat case_match; auto with frame. Qed.
Lemma mo_tag input lo : models_only (tag_document p input lo).
Proof using Type. unfold tag_document. frame. repeat case_match; auto with frame. Qed.
Lemma mo_send bs lo : models_only (send_all p bs lo).
Proof using Type. induction bs as [|b bs IH]; cbn [send_all]; frame. Qed.
Lemma mo_gather t user rs : models_only (gather p t user rs).
Proof using Type.
  induction rs as [|[r|e] rs IH]; cbn [gather]; auto with frame.
  apply mo_bind; [destruct t; auto with frame|intros _]. apply mo_bind; [done|intros vs]. frame.
Qed.
Lemma mo_embed pairs t user doc lo : models_only (embed_all p pairs t user doc lo).
Proof using Type.
  induction pairs as [|[f e] pairs IH]; cbn [embed_all]; [by frame|]. apply mo_bind; [auto with frame|]. intros cs.
  apply mo_bind; [|intros c; frame]. destruct cs as [|c cs]; [auto with frame|]. cbn [embed_chunks].
  apply mo_bind; [|intros vs; frame]. unfold batch_embed.
  apply mo_bind; [apply mo_send|intros rs; apply mo_gather].
Qed.
Lemma mo_note note budget :
  models_only match note with None => mret None | Some n => n ← no_ing_panic (prepare_note n budget); mret (Some n) end.
Proof using Type. destruct note; frame. Qed.
End Frame.
#[export] Hint Resolve mo_ensure mo_no_panic mo_extract mo_caption mo_tag mo_embed mo_note : frame.

Section Failures.
Context {B S W : Type} `{!Blob B} `{!TagStore S} `{!IngestStore S} `{!Unicode}.
Context (R : relation S) `{!TagOpsKeep S R} `{!FailedIngestKeeps S R}.
Context (tree_magic : bytes -> chars) (sha256 : bytes -> bytes) (now : Z).
Context (p : IngestPipeline W).
#[local] Existing Instances ing_ret ing_bind.

Lemma models_only_untouched {A} (m : ing (B:=B) (W:=W) A) : models_only m -> untouched R m.
Proof using TagOpsKeep0. intros Hm s. by destruct (Hm s) as (_ & -> & _). Qed.

Lemma put_untouched l : untouched (B:=B) (W:=W) R (put_blobs l).
Proof using TagOpsKeep0.
  induction l as [|[f i] l IH]; cbn [put_blobs]; [by intros s|]. eapply untouched_bind; [apply _| |done].
  intros s. unfold on_blob. by destruct (blob_put _ _ _) as [[a|e] b].
Qed.

(** A run that fails anywhere leaves the documents as they were. *)
Definition clean_failure {A} (m : ing (B:=B) (S:=S) (W:=W) A) : Prop :=
  ∀ s e s', m s = (Err e, s') -> R (sy_store s) (sy_store s').

Lemma clean_bind {A C} (m : ing A) (k : A -> ing C) : untouched R m -> (∀ a, clean_failure (k a)) -> clean_failure (m ≫= k).
Proof using TagOpsKeep0.
  intros Hm Hk s e s'. unfold mbind, ing_bind. specialize (Hm s). destruct (m s) as [[a|e1] s1]; simpl in *.
  - intros E. etrans; [done|by eapply Hk].
  - by intros [= _ <-].
Qed.

Lemma ingest_inner_clean t user files note lo existing : clean_failure (ingest_inner tree_magic sha256 now p t user files note lo existing).
Proof.
  assert (Hb : ∀ A C (m : ing A) (k : A -> ing C), models_only m -> (∀ a, clean_failure (k a)) -> clean_failure (m ≫= k)).
  { intros A C m k Hm. apply clean_bind. by apply models_only_untouched. }
  unfold ingest_inner. apply Hb; [auto with frame|intros _]. destruct (compute_token_budgets _ _) as [tb nb].
  apply Hb; [auto with frame|intros un]. destruct (build _ _ _ _ _ _) as [document recs].
  apply clean_bind; [apply put_untouched|intros _]. apply Hb; [auto with frame|intros pairs].
  apply Hb; [auto with frame|intros [merged pairs']]. apply Hb; [auto with frame|intros text].
  apply Hb; [auto with frame|intros out].
  apply clean_bind; [apply untouched_canon, canonicalize_keeps, _|intros ids].
  apply Hb; [auto with frame|intros fcs]. intros s e s'. unfold mbind, ing_bind, on_store.
  destruct (is_transactional_ingest _ _ _ _ _) as [[id|e1] st] eqn:E; [done|]. intros [= _ <-]. simpl. by eapply fk_ingest.
Qed.
End Failures.

(** ** What a successful run stores *)

(** A part that returns strings returns valid ones. *)
Record typed {W} (p : IngestPipeline W) : Prop := {
  ty_extract k ex raw w e w' : ip_extractors p k = Some ex -> ex raw w = (Ok e, w') -> is_str (ex_text e);
  ty_describe d imgs lo w c w' : ip_describe_many p = Some d -> d imgs lo w = (Ok c, w') -> is_str c;
}.

Section Chunks.
Context (text : chars) (Htext : is_str text).

Lemma as_bytes_inj a b : is_str a -> is_str b -> as_bytes a = as_bytes b -> a = b.
Proof using Type.
  intros Ha Hb E. apply (f_equal from_utf8) in E. rewrite !from_utf8_as_bytes in E by done. by injection E.
Qed.

(** A stretch between two boundaries is a stretch of characters. *)
Lemma slice_chars a e : (a < e <= str_len text)%nat ->
  is_char_boundary (as_bytes text) a = true -> is_char_boundary (as_bytes text) e = true ->
  ∃ sub, slice (as_bytes text) a e = as_bytes sub ∧ is_str sub ∧ sub <> [] ∧ ∃ x y, text = x ++ sub ++ y.
Proof using Htext.
  intros Hae Ha He. destruct (boundary_offset text a) as (j & Hj & ->); [done|lia|done|].
  destruct (boundary_offset text e) as (k & Hk & ->); [done|lia|done|].
  assert (Hjk : (j < k)%nat).
  { apply Nat.nle_gt. intros Hle. pose proof (offset_mono text k j Hle). lia. }
  exists (take (k - j) (drop j text)). split_and!.
  - unfold slice. rewrite (offset_split text j), drop_app_length' by done.
    rewrite (offset_drop text j k) by lia. rewrite Nat.add_comm, Nat.add_sub.
    by rewrite (offset_split (drop j text) (k - j)), take_app_length' by done.
  - by apply is_str_take, is_str_drop.
  - intros E. apply (f_equal length) in E. rewrite length_take, length_drop in E. simpl in E. lia.
  - exists (take j text), (drop (k - j) (drop j text)). by rewrite !take_drop.
Qed.

(** The text of a chunk: a part of the page's text, without loss. *)
Definition part_of (c : TextChunk) : Prop :=
  Chunker.content c = as_bytes (chunk_str c) ∧ is_str (chunk_str c) ∧ chunk_str c <> [] ∧ ∃ x y, text = x ++ chunk_str c ++ y.

Lemma chunked_parts fid page ts n i cs spans : chunked (as_bytes text) fid page ts n i cs spans ->
  Forall (λ c, part_of c ∧ page_no c = page) cs.
Proof using Htext.
  induction 1 as [|i c cs a e spans Hc Ha He Hae Hn _ IH]; constructor; [|done]. rewrite Hc. split; [|done].
  destruct (slice_chars a e Hae Ha He) as (sub & E & Hs & Hne & Hxy). unfold part_of, chunk_str. cbn [Chunker.content].
  by rewrite E, from_utf8_as_bytes.
Qed.

Lemma chunks_of_parts f e : ex_text e = text ->
  ∃ cs, chunks_of f e = Some cs ∧ Forall (λ c, part_of c ∧ page_no c = Some (fr_page_no f)) cs ∧ NoDup (chunk_str <$> cs).
Proof using Htext.
  intros E. unfold chunks_of, chunk_text. rewrite E.
  rewrite (proj2 (Nat.ltb_lt DEFAULT_OVERLAP_CHARS DEFAULT_CHUNK_SIZE_CHARS)) by (vm_compute; lia).
  destruct (length (as_bytes text) =? 0)%nat.
  { exists []. repeat split; constructor. }
  edestruct (chunk_loop_chunked (length (as_bytes text)) (as_bytes text) (fr_id f) (Some (fr_page_no f)) None
    DEFAULT_CHUNK_SIZE_CHARS (DEFAULT_CHUNK_SIZE_CHARS - DEFAULT_OVERLAP_CHARS) 0 0) as (cs & spans & -> & Hc & _);
    [lia|vm_compute; lia|by right; apply boundary_zero|].
  apply chunked_parts in Hc. exists (dedup_identical_chunks cs). split; [done|].
  unfold dedup_identical_chunks. destruct (dedup_from_spec ∅ cs) as (Hsub & Hnd & _).
  assert (Hall : Forall (λ c, part_of c ∧ page_no c = Some (fr_page_no f)) (dedup_from ∅ cs)).
  { apply Forall_forall. intros c Hin. rewrite Forall_forall in Hc. apply Hc. by eapply elem_of_sublist. }
  split; [done|]. apply (NoDup_fmap_1 as_bytes). rewrite <- list_fmap_compose. clear Hsub Hc.
  rewrite (list_fmap_ext _ Chunker.content); [done|]. intros i c Hi.
  rewrite Forall_lookup in Hall. destruct (Hall _ _ Hi) as [[-> _] _]. done.
Qed.
End Chunks.

Section Success.
Context {B S W : Type} `{!Blob B} `{!TagStore S} `{!IngestStore S} `{!Unicode}.
Context (tree_magic : bytes -> chars) (sha256 : bytes -> bytes) (now : Z).
Context (p : IngestPipeline W) (Htyped : typed p).
#[local] Existing Instances ing_ret ing_bind.
Notation ing := (ing (B:=B) (S:=S) (W:=W)).

Lemma ing_bind_ok {A C} (m : ing A) (k : A -> ing C) s c s' : (m ≫= k) s = (Ok c, s') ->
  ∃ a s1, m s = (Ok a, s1) ∧ k a s1 = (Ok c, s').
Proof using Type. unfold mbind, ing_bind. destruct (m s) as [[a|e] s1]; [eauto|done]. Qed.

Lemma ensure_ok b e s u s' : ing_ensure (B:=B) (S:=S) (W:=W) b e s = (Ok u, s') -> b = true ∧ s' = s.
Proof using Type. destruct b; [by intros [= _ <-]|done]. Qed.

Lemma no_panic_ok {A} (o : option A) s a s' : no_ing_panic (B:=B) (S:=S) (W:=W) o s = (Ok a, s') -> o = Some a ∧ s' = s.
Proof using Type. destruct o; [by intros [= -> <-]|done]. Qed.

Lemma mo_ok {A} (m : ing A) s r s' : models_only m -> m s = (r, s') ->
  sy_blob s' = sy_blob s ∧ sy_store s' = sy_store s ∧ sy_names s' = sy_names s.
Proof using Type. intros Hm E. specialize (Hm s). by rewrite E in Hm. Qed.

Lemma on_models_ok {A E} (m : W -> result A E * W) s r s' :
  on_models (B:=B) (S:=S) m s = (Ok r, s') -> ∃ w', m (sy_models s) = (r, w').
Proof using Type. unfold on_models. destruct (m (sy_models s)) as [r0 w]. intros [= -> _]. eauto. Qed.

Lemma extract_all_ok l (s : Sys B S W) pairs s' : extract_all p l s = (Ok pairs, s') ->
  pairs.*1 = l.*1 ∧ Forall (λ fe, is_str (ex_text fe.2)) pairs.
Proof using Htyped.
  revert s pairs s'. induction l as [|[f i] l IH]; intros s pairs s'; cbn [extract_all]; [by intros [= <- _]|].
  intros (e & s1 & He & (rest & s2 & Hr & [= <- _])%ing_bind_ok)%ing_bind_ok. apply IH in Hr as [Hl Hs].
  csimpl. rewrite Hl. split; [done|]. constructor; [|done]. unfold extract_one in He.
  destruct (ip_extractors p _) as [ex|] eqn:Ex; [|by injection He as <- _; constructor].
  apply ing_bind_ok in He as (r & s3 & Hm & He). apply on_models_ok in Hm as [w' Hm]. destruct r as [e0|c].
  - injection He as <- _. by eapply ty_extract.
  - destruct (is_media _); [|done]. injection He as <- _. constructor.
Qed.

Lemma attach_caption_files c pairs : (attach_caption c pairs).*1 = pairs.*1.
Proof using Type. induction pairs as [|[f e] pairs IH]; [done|]. simpl. case_match; csimpl; by rewrite ?IH. Qed.

Lemma attach_caption_str c pairs : is_str c -> Forall (λ fe, is_str (ex_text fe.2)) pairs ->
  Forall (λ fe, is_str (ex_text fe.2)) (attach_caption c pairs).
Proof using Type.
  intros Hc. induction 1 as [|[f e] pairs He Hp IH]; [constructor|]. simpl. case_match; by constructor.
Qed.

(** Captioning changes texts only. *)
Lemma caption_ok md pairs lo (s : Sys B S W) md' pairs' s' : caption p md pairs lo s = (Ok (md', pairs'), s') ->
  Forall (λ fe, is_str (ex_text fe.2)) pairs ->
  md_kind md' = md_kind md ∧ md_meta md' = md_meta md ∧ md_page_count md' = md_page_count md ∧
  pairs'.*1 = pairs.*1 ∧ Forall (λ fe, is_str (ex_text fe.2)) pairs' ∧ (is_str (md_text md) -> is_str (md_text md')).
Proof using Htyped.
  intros Hc Hs. unfold caption in Hc. destruct (ip_describe_many p) as [d|] eqn:Ed; [|by injection Hc as <- <- _].
  destruct (_ =? 0)%nat; [by injection Hc as <- <- _|]. apply ing_bind_ok in Hc as (r & s1 & Hm & Hc).
  apply on_models_ok in Hm as [w' Hm]. destruct r as [[|x c]|e]; injection Hc as <- <- _; try done.
  assert (Hx : is_str (x :: c)) by by eapply ty_describe. split_and!; try done.
  - apply attach_caption_files.
  - by apply attach_caption_str.
  - intros Ht. cbn [set_md_text md_text]. unfold captioned_text. repeat (apply Forall_app; split); try done; by repeat constructor.
Qed.

Lemma check_dims_ok i vs vs' : check_dims p i vs = Ok vs' -> vs' = vs ∧ Forall (λ v, length v = ip_expected_dim p) vs.
Proof using Type.
  revert i vs'. induction vs as [|v vs IH]; intros i vs'; cbn [check_dims]; [by intros [= <-]|].
  destruct (Nat.eqb_spec (length v) (ip_expected_dim p)) as [Hv|]; cbn [negb]; [|done].
  destruct (check_dims p (i + 1) vs) as [rest|e] eqn:E; [|done]. intros [= <-]. apply IH in E as [-> Hf]. auto.
Qed.

Lemma gather_ok t user rs (s : Sys B S W) vs s' : gather p t user rs s = (Ok vs, s') -> Forall (λ v, length v = ip_expected_dim p) vs.
Proof using Type.
  revert s vs s'. induction rs as [|[r|e] rs IH]; intros s vs s'; cbn [gather]; [by intros [= <- _]| |done].
  intros (_ & s1 & _ & (v1 & s2 & Hv & (rest & s3 & Hr & [= <- _])%ing_bind_ok)%ing_bind_ok)%ing_bind_ok.
  injection Hv as Hv _. apply check_dims_ok in Hv as [-> Hv]. apply Forall_app. split; [done|by eapply IH].
Qed.

(** One embedded chunk for each chunk, in order. *)
Definition embeds (t doc : Z) (tc : TextChunk) (c : Chunk) : Prop :=
  ch_tenant c = t ∧ ch_document c = doc ∧ ch_page_no c = page_no tc ∧ ch_idx c = idx tc ∧ ch_content c = chunk_str tc ∧
  length (ch_embedding c) = ip_expected_dim p.

Lemma zip_embeds t doc cs vs : length vs = length cs -> Forall (λ v, length v = ip_expected_dim p) vs ->
  Forall2 (embeds t doc) cs
    (zip_with (λ tc v, mkChunk t doc (page_no tc) (idx tc) (chunk_str tc) (ts_offset tc) v) cs vs).
Proof using Type.
  revert vs. induction cs as [|c cs IH]; intros [|v vs] Hl Hg; try done.
  apply Forall_cons in Hg as [Hv Hg]. cbn [zip_with]. constructor; [done|]. apply IH; [simpl in Hl; lia|done].
Qed.

Lemma embed_chunks_ok cs t user doc lo (s : Sys B S W) out s' : embed_chunks p cs t user doc lo s = (Ok out, s') ->
  Forall2 (embeds t doc) cs out.
Proof using Type.
  destruct cs as [|c0 cs0]; [intros [= <- _]; constructor|]. unfold embed_chunks.
  intros (vs & s1 & (rs & s2 & _ & Hg)%ing_bind_ok & (u & s3 & [Hl _]%ensure_ok & [= <- _])%ing_bind_ok)%ing_bind_ok.
  apply Nat.eqb_eq in Hl. apply gather_ok in Hg. by apply (zip_embeds t doc (c0 :: cs0) vs).
Qed.

(** What is stored for the text of a page. *)
Record page_chunks (t doc page : Z) (text : chars) (cs : list Chunk) : Prop := {
  pc_own : Forall (λ c, ch_tenant c = t ∧ ch_document c = doc ∧ ch_page_no c = Some page) cs;
  pc_dim : Forall (λ c, length (ch_embedding c) = ip_expected_dim p) cs;
  pc_part : Forall (λ c, ch_content c <> [] ∧ ∃ x y, text = x ++ ch_content c ++ y) cs;
  pc_distinct : NoDup (ch_content <$> cs);
}.

Lemma embeds_page_chunks t doc page text tcs cs : Forall2 (embeds t doc) tcs cs ->
  Forall (λ c, part_of text c ∧ page_no c = Some page) tcs -> NoDup (chunk_str <$> tcs) -> page_chunks t doc page text cs.
Proof using Type.
  intros Hem Hp Hnd.
  assert (Hall : Forall (λ c, ∃ tc, embeds t doc tc c ∧ part_of text tc ∧ page_no tc = Some page) cs).
  { clear Hnd. induction Hem as [|tc c tcs cs H1 _ IH]; [constructor|]. apply Forall_cons in Hp as [Hp1 Hp].
    constructor; [|auto]. exists tc. naive_solver. }
  split.
  - eapply Forall_impl; [done|]. intros c (tc & (? & ? & ? & _) & _ & ?). split_and!; congruence.
  - eapply Forall_impl; [done|]. by intros c (tc & (_ & _ & _ & _ & _ & ?) & _).
  - eapply Forall_impl; [done|]. intros c (tc & (_ & _ & _ & _ & -> & _) & (_ & _ & ? & ?) & _). done.
  - assert (ch_content <$> cs = chunk_str <$> tcs) as ->; [|done].
    clear -Hem. induction Hem as [|tc c tcs cs (_ & _ & _ & _ & Hc & _) _ IH]; [done|]. csimpl. by rewrite Hc, IH.
Qed.

Lemma embed_all_ok pairs t user doc lo (s : Sys B S W) fcs s' : Forall (λ fe, is_str (ex_text fe.2)) pairs ->
  embed_all p pairs t user doc lo s = (Ok fcs, s') ->
  Forall2 (λ fe cs, is_str (ex_text fe.2) ∧ page_chunks t doc (fr_page_no fe.1) (ex_text fe.2) cs) pairs fcs.
Proof using Type.
  intros Hs. revert s fcs s'. induction Hs as [|[f e] pairs He Hs IH]; intros s fcs s'; cbn [embed_all].
  { intros [= <- _]. constructor. }
  destruct (chunks_of_parts (ex_text e) He f e eq_refl) as (tcs & -> & Hparts & Hnd).
  intros (tcs' & s1 & [[= <-] ->]%no_panic_ok & (emb & s2 & Hem & (rest & s3 & Hr & [= <- _])%ing_bind_ok)%ing_bind_ok)%ing_bind_ok.
  constructor; [|by eapply IH]. cbn [fst snd]. split; [done|]. eapply embeds_page_chunks; [|done|done].
  destruct tcs as [|c tcs]; [by injection Hem as <- _|by eapply embed_chunks_ok].
Qed.

(** ** What the models made of an upload *)

(** The reply of a model, in some state of it. *)
Definition replied {A} (m : W -> A * W) (r : A) : Prop := ∃ w w', m w = (r, w').

(** What is extracted from a file: its extractor's reply; nothing where there
    is no extractor, or where the one for media fails. *)
Definition extracted_as (f : FileRecord) (input : IngestFile) (e : Extracted) : Prop :=
  let kind := infer_kind_from_mime (fr_mime f) in
  match ip_extractors p kind with
  | None => e = default_extracted
  | Some extractor =>
      let call := extractor (mkRawFile (if_bytes input) (fr_mime f) kind (fr_path f)) in
      replied call (Ok e) ∨ (is_media kind = true ∧ e = default_extracted ∧ ∃ cause, replied call (Err cause))
  end.

(** The images are described, where there are any and a model for it that
    says something, in the text and on the first page that has no other. *)
Definition captioned_as (lo : bool) (md : MergedDocument) (pairs : list (FileRecord * Extracted))
    (md' : MergedDocument) (pairs' : list (FileRecord * Extracted)) : Prop :=
  let plain := md' = md ∧ pairs' = pairs in
  match ip_describe_many p with
  | None => plain
  | Some describe =>
      if (length (md_page_images md) =? 0)%nat then plain
      else ∃ r, replied (describe (md_page_images md) lo) r ∧
        match r with
        | Ok [] | Err _ => plain
        | Ok c => md' = set_md_text md (captioned_text c (md_text md)) ∧ pairs' = attach_caption c pairs
        end
  end.

(** The tagger's reply, or nothing for media it fails on. *)
Definition tagged_as (lo : bool) (input : TagInput) (out : TagOutput) : Prop :=
  let call := tag_with_context_retry (ip_tag p) input lo in
  replied call (Ok out) ∨ (is_media (ti_kind input) = true ∧ out = default_tag_output ∧ ∃ e, replied call (Err (TagErr e))).

(** The vectors of some texts: those replied to the batches of them, in order
    and of the right dimension. *)
Definition embedded_as (lo : bool) (texts : list chars) (vs : list (list f32)) : Prop :=
  Forall (λ v, length v = ip_expected_dim p) vs ∧
  ∃ rs, Forall2 (λ b r, replied (ip_llm_embed p b lo) (Ok r)) (batches MAX_EMBED_BATCH_SIZE texts) rs ∧
    vs = mjoin (er_vectors <$> rs).

(** The chunks of a page: its text cut and without repetitions, one chunk and
    one vector for each piece. *)
Definition chunked_as (t : Z) (lo : bool) (fe : FileRecord * Extracted) (cs : list Chunk) : Prop :=
  ∃ tcs vs, chunks_of fe.1 fe.2 = Some tcs ∧ embedded_as lo (chunk_str <$> tcs) vs ∧ length vs = length tcs ∧
    cs = zip_with (λ tc v, mkChunk t 0 (page_no tc) (idx tc) (chunk_str tc) (ts_offset tc) v) tcs vs.

(** The title, summary, metadata, tags and chunks of a document, from the
    replies. *)
Record drafted (t : Z) (user : option Z) (files : list IngestFile) (note : option chars) (lo : bool) (recs : list FileRecord)
    (names : S * Embedder) (title summary : option chars) (meta : json) (ids : list Z) (fcs : list (list Chunk))
    (pairs : list (FileRecord * Extracted)) (merged : MergedDocument) (pairs' : list (FileRecord * Extracted))
    (text : chars) (out : TagOutput) : Prop := {
  dft_extracted : Forall2 (λ fi fe, fe.1 = fi.1 ∧ extracted_as fi.1 fi.2 fe.2) (zip recs (sanitize <$> files)) pairs;
  dft_captioned : captioned_as lo (merge pairs) pairs merged pairs';
  dft_text : smart_bound_tagger_text (md_text merged) (compute_token_budgets (ip_context_tokens p) None).1 = Some text;
  dft_tagged : tagged_as lo (mkTagInput t user text note (md_kind merged) (md_meta merged)) out;
  dft_named : title = Some (to_title out) ∧ summary = Some (to_summary out) ∧ meta = md_meta merged;
  dft_ids : (canonicalize t (ip_threshold p) (to_tags out) names).1 = Ok ids;
  dft_chunks : Forall2 (chunked_as t lo) pairs' fcs;
}.

Lemma extract_all_replies l (s : Sys B S W) pairs s' : extract_all p l s = (Ok pairs, s') ->
  Forall2 (λ fi fe, fe.1 = fi.1 ∧ extracted_as fi.1 fi.2 fe.2) l pairs.
Proof using Type.
  revert s pairs s'. induction l as [|[f i] l IH]; intros s pairs s'; cbn [extract_all]; [intros [= <- _]; constructor|].
  intros (e & s1 & He & (rest & s2 & Hr & [= <- _])%ing_bind_ok)%ing_bind_ok. constructor; [|by eapply IH].
  split; [done|]. cbn [fst snd]. unfold extract_one in He. unfold extracted_as.
  destruct (ip_extractors p _) as [ex|]; [|by injection He as <- _].
  apply ing_bind_ok in He as (r & s3 & [w' Hm]%on_models_ok & He). destruct r as [e0|c].
  - injection He as <- _. left. by eexists _, _.
  - destruct (is_media _) eqn:Em; [|done]. injection He as <- _. right. split_and!; [done|done|]. by eexists c, _, _.
Qed.

Lemma caption_replies md pairs lo (s : Sys B S W) md' pairs' s' : caption p md pairs lo s = (Ok (md', pairs'), s') ->
  captioned_as lo md pairs md' pairs'.
Proof using Type.
  unfold caption, captioned_as. destruct (ip_describe_many p) as [d|]; [|by intros [= <- <- _]].
  destruct (_ =? 0)%nat; [by intros [= <- <- _]|].
  intros (r & s1 & [w' Hm]%on_models_ok & Hc)%ing_bind_ok. exists r. split; [by eexists _, _|].
  by destruct r as [[|x c]|e]; injection Hc as <- <- _.
Qed.

Lemma tag_replies input lo (s : Sys B S W) out s' : tag_document p input lo s = (Ok out, s') -> tagged_as lo input out.
Proof using Type.
  unfold tag_document, tagged_as. intros (r & s1 & [w' Hm]%on_models_ok & Hc)%ing_bind_ok. destruct r as [o|[e|]]; [| |done].
  - injection Hc as <- _. left. by eexists _, _.
  - destruct (is_media _); [|by destruct (is_context_overflow e), (is_backend_unavailable e)].
    injection Hc as <- _. right. split_and!; [done|done|]. by eexists e, _, _.
Qed.

Lemma send_all_replies bs lo (s : Sys B S W) rs s' : send_all p bs lo s = (Ok rs, s') ->
  Forall2 (λ b r, replied (ip_llm_embed p b lo) r) bs rs.
Proof using Type.
  revert s rs s'. induction bs as [|b bs IH]; intros s rs s'; cbn [send_all]; [intros [= <- _]; constructor|].
  intros (r & s1 & [w' Hm]%on_models_ok & (rest & s2 & Hr & [= <- _])%ing_bind_ok)%ing_bind_ok.
  constructor; [by eexists _, _|by eapply IH].
Qed.

Lemma gather_replies t user rs (s : Sys B S W) vs s' : gather p t user rs s = (Ok vs, s') ->
  ∃ oks, rs = Ok <$> oks ∧ vs = mjoin (er_vectors <$> oks).
Proof using Type.
  revert s vs s'. induction rs as [|[r|e] rs IH]; intros s vs s'; cbn [gather]; [by intros [= <- _]; exists []| |done].
  intros (_ & s1 & _ & (v1 & s2 & Hv & (rest & s3 & Hr & [= <- _])%ing_bind_ok)%ing_bind_ok)%ing_bind_ok.
  injection Hv as Hv _. apply check_dims_ok in Hv as [-> _]. apply IH in Hr as (oks & -> & ->). by exists (r :: oks).
Qed.

Lemma embed_chunks_replies cs t user lo (s : Sys B S W) out s' : embed_chunks p cs t user 0 lo s = (Ok out, s') -> cs <> [] ->
  ∃ vs, embedded_as lo (chunk_str <$> cs) vs ∧ length vs = length cs ∧
    out = zip_with (λ tc v, mkChunk t 0 (page_no tc) (idx tc) (chunk_str tc) (ts_offset tc) v) cs vs.
Proof using Type.
  destruct cs as [|c0 cs0]; [done|]. unfold embed_chunks.
  intros (vs & s1 & (rs & s2 & Hs & Hg)%ing_bind_ok & (u & s3 & [Hl _]%ensure_ok & [= <- _])%ing_bind_ok)%ing_bind_ok _.
  apply Nat.eqb_eq in Hl. exists vs. split_and!; [|done|done]. split; [by eapply gather_ok|].
  apply gather_replies in Hg as (oks & -> & ->). apply send_all_replies in Hs. rewrite Forall2_fmap_r in Hs. by exists oks.
Qed.

Lemma embed_all_replies pairs t user lo (s : Sys B S W) fcs s' : embed_all p pairs t user 0 lo s = (Ok fcs, s') ->
  Forall2 (chunked_as t lo) pairs fcs.
Proof using Type.
  revert s fcs s'. induction pairs as [|[f e] pairs IH]; intros s fcs s'; cbn [embed_all]; [intros [= <- _]; constructor|].
  intros (tcs & s1 & [Hc ->]%no_panic_ok & (emb & s2 & Hem & (rest & s3 & Hr & [= <- _])%ing_bind_ok)%ing_bind_ok)%ing_bind_ok.
  constructor; [|by eapply IH]. exists tcs. destruct tcs as [|tc tcs].
  - injection Hem as <- _. exists []. split_and!; [done| |done|done]. split; [constructor|]. exists []. split; [constructor|done].
  - apply embed_chunks_replies in Hem as (vs & Hv & Hl & ->); [|done]. by exists vs.
Qed.

(** The pages a run builds its records from: sanitized names, and for a
    single file its path as its label. *)
Definition pages_of (files : list IngestFile) : list PageInput :=
  match sanitize <$> files with
  | [f] => [mkPageInput (if_bytes f) (if_path f) (if_path f)]
  | fs => (λ f, mkPageInput (if_bytes f) (if_page_label f) (if_path f)) <$> fs
  end.

Lemma build_pages t files note :
  build tree_magic sha256 now t (sanitize <$> files) note = build_multi tree_magic sha256 now t (pages_of files) note.
Proof using Type. unfold build, pages_of, build_single. destruct (sanitize <$> files) as [|f [|g fs]]; done. Qed.

Lemma pages_of_bytes files : pg_bytes <$> pages_of files = if_bytes <$> files.
Proof using Type.
  unfold pages_of. transitivity (if_bytes <$> (sanitize <$> files)).
  - destruct (sanitize <$> files) as [|f [|g fs]]; [done|done|]. by rewrite <- list_fmap_compose.
  - by rewrite <- list_fmap_compose.
Qed.

Lemma pages_of_length files : length (pages_of files) = length files.
Proof using Type. rewrite <- (length_fmap pg_bytes), pages_of_bytes. apply length_fmap. Qed.

(** The request a run makes of the document store. *)
Record request_ok (t : Z) (files : list IngestFile) (note : option chars) (lo : bool) (existing : option Z)
    (doc : Document) (recs : list FileRecord) (fcs : list (list Chunk)) : Prop := {
  rq_tenant : doc_tenant doc = t;
  rq_id : doc_id doc = default 0 existing;
  rq_ready : doc_status doc = Ready ∧ Forall (λ f, fr_status f = Ready) recs;
  rq_local : doc_local_only doc = lo;
  rq_pages : doc_page_count doc = Z.of_nat (length files);
  rq_note : doc_user_note doc = note ≫= λ n, prepare_note n (compute_token_budgets (ip_context_tokens p) None).2;
  rq_records : recs = set_ready <$> imap (file_record tree_magic sha256 now t) (pages_of files);
  rq_kind : kind_rule ((λ f, mime_to_doc_kind (detect_mime tree_magic (if_bytes f))) <$> files) (doc_kind doc);
  rq_chunks : Forall2 (λ f cs, ∃ text, is_str text ∧ page_chunks t 0 (fr_page_no f) text cs) recs fcs;
}.

(** A call of the canonicalizer leaves the blobs and the documents alone. *)
Lemma on_names_ok {A} (R : relation S) (m : canon A) (s : Sys B S W) a s' : canon_keeps R m ->
  on_names m s = (Ok a, s') -> sy_blob s' = sy_blob s ∧ R (sy_store s) (sy_store s').
Proof using Type.
  intros Hm. unfold on_names. specialize (Hm (sy_store s) (sy_names s)). destruct (m _) as [[x|e] [st em]]; [|done].
  by intros [= _ <-].
Qed.

Lemma on_names_reply {A} (m : canon A) (s : Sys B S W) a s' : on_names m s = (Ok a, s') -> (m (sy_store s, sy_names s)).1 = Ok a.
Proof using Type. unfold on_names. destruct (m _) as [[x|e] [st em]]; [by intros [= -> _]|done]. Qed.

Definition blob_key (t : Z) (b : bytes) : string := key_string (build_blob_key t (hex_encode (sha256 b))).

Lemma put_blobs_ok (key : string -> Prop) (valid : string -> bytes -> Prop) (inv : B -> Prop) (has : B -> string -> Prop)
    `{!BlobLaws B key valid inv has} l (s s' : Sys B S W) :
  put_blobs l s = (Ok tt, s') -> inv (sy_blob s) ->
  Forall (λ fi, key (key_string (fr_blob_key fi.1)) ∧ valid (key_string (fr_blob_key fi.1)) (if_bytes fi.2)) l ->
  inv (sy_blob s') ∧ sy_store s' = sy_store s ∧ sy_names s' = sy_names s ∧
  ∀ k, key k -> has (sy_blob s') k <-> k ∈ ((λ fi, key_string (fr_blob_key fi.1)) <$> l) ∨ has (sy_blob s) k.
Proof using Type.
  revert s. induction l as [|[f i] l IH]; intros s; cbn [put_blobs].
  { intros [= <-] Hi _. split_and!; [done..|]. intros k _. csimpl. rewrite elem_of_nil. tauto. }
  intros (u & s1 & Hp & Hrest)%ing_bind_ok Hi Hall. apply Forall_cons in Hall as [[Hk Hv] Hall].
  unfold on_blob in Hp. destruct (blob_put _ _ _) as [[[]|e] b] eqn:Eb; [|done]. injection Hp as _ <-.
  destruct (put_law _ _ _ _ _ Hi Hk Hv Eb) as [Hi1 [Hh|[_ ?]]]; [|done].
  destruct (IH _ Hrest Hi1 Hall) as (? & ? & ? & Hhas). split_and!; [done..|]. simpl in *.
  intros k Hkk. rewrite Hhas, Hh by done. csimpl. rewrite elem_of_cons. tauto.
Qed.

(** A run that succeeds, taken apart. *)
Lemma ingest_inner_ok (R : relation S) `{!TagOpsKeep S R} t user files note lo existing (s : Sys B S W) out s' :
  Z.of_nat (length files) <= ity_max i32 ->
  ingest_inner tree_magic sha256 now p t user files note lo existing s = (Ok out, s') ->
  ∃ doc recs fcs st s1, request_ok t files note lo existing doc recs fcs ∧ files <> [] ∧
    put_blobs (zip (imap (file_record tree_magic sha256 now t) (pages_of files)) (sanitize <$> files)) s = (Ok tt, s1) ∧
    sy_blob s' = sy_blob s1 ∧ R (sy_store s1) st ∧
    is_transactional_ingest doc recs (io_tag_ids out) fcs st = (Ok (io_document_id out), sy_store s') ∧
    io_chunk_count out = sum_Z ((λ cs, Z.of_nat (length cs)) <$> fcs) ∧
    ∃ pairs merged pairs' text tagout, drafted t user files (doc_user_note doc) lo
      (imap (file_record tree_magic sha256 now t) (pages_of files)) (sy_store s1, sy_names s1)
      (doc_title doc) (doc_summary doc) (doc_meta doc) (io_tag_ids out) fcs pairs merged pairs' text tagout.
Proof using Htyped.
  intros Hlen. unfold ingest_inner. destruct (compute_token_budgets _ _) as [tb nb] eqn:Eb.
  intros (u & s0 & [Hne ->]%ensure_ok & (un & s1 & Hnote & Hrun)%ing_bind_ok)%ing_bind_ok.
  assert (Hun : s1 = s ∧ un = note ≫= λ n, prepare_note n nb).
  { destruct note as [n|]; [|by injection Hnote as <- <-].
    apply ing_bind_ok in Hnote as (n' & s2 & [En ->]%no_panic_ok & [= <- <-]). simpl. by rewrite En. }
  destruct Hun as [-> Hun]. rewrite build_pages in Hrun. unfold build_multi in Hrun.
  set (recs := imap _ (pages_of files)) in *. cbv beta iota zeta in Hrun.
  apply ing_bind_ok in Hrun as ([] & s2 & Hput & Hrun). apply ing_bind_ok in Hrun as (pairs & s3 & Hex & Hrun).
  pose proof (mo_ok _ _ _ _ (mo_extract p _) Hex) as (Eb3 & Es3 & En3). pose proof (extract_all_replies _ _ _ _ Hex) as Rx.
  apply extract_all_ok in Hex as [Hfst Hstr].
  assert (Hrecs : pairs.*1 = recs).
  { rewrite Hfst. apply fst_zip. unfold recs. rewrite length_imap, length_fmap, pages_of_length. lia. }
  apply ing_bind_ok in Hrun as ([merged pairs'] & s4 & Hcap & Hrun).
  pose proof (mo_ok _ _ _ _ (mo_caption p _ _ _) Hcap) as (Eb4 & Es4 & En4). pose proof (caption_replies _ _ _ _ _ _ _ Hcap) as Rc.
  apply caption_ok in Hcap as (Hk & Hmeta & Hcount & Hfst' & Hstr' & _); [|done].
  apply ing_bind_ok in Hrun as (text & s5 & [Htext ->]%no_panic_ok & Hrun).
  apply ing_bind_ok in Hrun as (tagout & s6 & Htag & Hrun).
  pose proof (mo_ok _ _ _ _ (mo_tag p _ _) Htag) as (Eb6 & Es6 & En6). apply tag_replies in Htag.
  apply ing_bind_ok in Hrun as (ids & s7 & Hcan & Hrun). pose proof (on_names_reply _ _ _ _ Hcan) as Rn.
  apply (on_names_ok R) in Hcan as [Eb7 Es7]; [|apply canonicalize_keeps, _].
  apply ing_bind_ok in Hrun as (fcs & s8 & Hem & Hrun).
  pose proof (mo_ok _ _ _ _ (mo_embed p _ _ _ _ _) Hem) as (Eb8 & Es8 & _). pose proof (embed_all_replies _ _ _ _ _ _ _ Hem) as Re.
  apply embed_all_ok in Hem; [|done].
  apply ing_bind_ok in Hrun as (id & s9 & Hst & [= <- <-]). unfold on_store in Hst.
  destruct (is_transactional_ingest _ _ _ _ _) as [[id'|e] st] eqn:Eti; [|done]. injection Hst as -> <-.
  eexists _, _, fcs, (sy_store s8), s2.
  split_and!; [|by intros ->|done|simpl; congruence|by rewrite Es8, <- Es3, <- Es4, <- Es6|exact Eti|done|].
  2:{ exists pairs, merged, pairs', text, tagout. split; try done; [by rewrite Eb|]. by rewrite <- Es3, <- Es4, <- Es6, <- En3, <- En4, <- En6. }
  destruct (merge_agrees pairs tree_magic sha256 now t (pages_of files) un Hrecs) as [Hmk Hmc].
  split; cbn [final_document doc_tenant doc_id doc_status doc_local_only doc_page_count doc_user_note doc_kind]; try done.
  - split; [done|]. apply Forall_fmap, Forall_forall. done.
  - rewrite Hcount, Hmc. cbn [build_multi fst doc_page_count]. rewrite pages_of_length. apply wrap_id.
    unfold in_ty, i32 in *. simpl in *. lia.
  - by rewrite Eb.
  - rewrite Hk, Hmk. cbn [build_multi fst doc_kind].
    change (λ page : PageInput, detect_mime tree_magic (pg_bytes page)) with (detect_mime tree_magic ∘ pg_bytes).
    rewrite (list_fmap_compose pg_bytes), pages_of_bytes.
    assert ((λ f, mime_to_doc_kind (detect_mime tree_magic (if_bytes f))) <$> files
      = mime_to_doc_kind <$> (detect_mime tree_magic <$> (if_bytes <$> files))) as -> by (by rewrite <- !list_fmap_compose).
    apply infer_doc_kind_rule.
  - rewrite Forall2_fmap_l. rewrite <- Hrecs, <- Hfst', Forall2_fmap_l. eapply Forall2_impl; [exact Hem|].
    intros [f e] cs Hpc. by exists (ex_text e).
Qed.
End Success.

(** ** The document store implements the interfaces *)

Section Postgres.
Context `{!Aead} `{!QueryBuilder}.

Definition pg_ingest_store (now : Z) : IngestStore Store := {| is_transactional_ingest := transactional_ingest now |}.
Definition pg_queued_store : QueuedIngestStore Store := {|
  qs_get_document := get_document;
  qs_get_files_for_document := get_files_for_document;
|}.

(** Documents, files, chunks and their tags; and the store's invariant. *)
Definition tables_kept (s s' : Store) : Prop :=
  StoreIngest.content s' = StoreIngest.content s ∧ doc_tags (st_db s') = doc_tags (st_db s) ∧ (db_ok (st_db s) -> db_ok (st_db s')).
Definition content_kept (s s' : Store) : Prop := StoreIngest.content s' = StoreIngest.content s.

Lemma tables_kept_safe {A} t (m : dbm A) : safe t m ->
  (∀ s, StoreIngest.content (m s).2 = StoreIngest.content s ∧ doc_tags (st_db (m s).2) = doc_tags (st_db s)) ->
  ∀ s, tables_kept s (m s).2.
Proof using Type. intros Hsafe Hm s. destruct (Hm s). split_and!; [done|done|]. intros Hok. by apply Hsafe. Qed.

#[global] Instance pg_tables_kept : TagOpsKeep Store tables_kept.
Proof.
  split.
  - split; [done|]. intros a b c (? & ? & ?) (? & ? & ?). split_and!; [congruence|congruence|auto].
  - intros t a s. unfold ts_lookup_alias, pg_tag_store, lookup_alias, tx. by destruct (st_connected s).
  - intros t s. unfold ts_find_similar_tags, pg_tag_store, find_similar_tags, tx. by destruct (st_connected s).
  - intros t a tag. apply (tables_kept_safe t); [apply safe_insert_tag_alias|]. intros s. cbn [ts_insert_tag_alias pg_tag_store].
    unfold insert_tag_alias, tx, stmt. destruct (st_connected s); [|done]. simpl.
    destruct (aliases (st_db s) !! (t, a)); [done|]. by case_decide.
  - intros t name e. apply (tables_kept_safe t); [apply safe_upsert_tag|]. intros s. cbn [ts_upsert_tag pg_tag_store].
    unfold upsert_tag, tx, next_tag. destruct (st_connected s); [|done]. simpl. unfold mbind, dbm_bind, stmt. simpl.
    destruct (vector_ok e); [|done]. simpl. destruct (find_tag _ t name); [done|]. by case_decide.
Qed.

#[global] Instance pg_content_kept : TagOpsKeep Store content_kept.
Proof.
  split; [split; [done|intros ???; unfold content_kept; congruence]|..]; intros; unfold content_kept.
  - apply (tk_lookup (R:=tables_kept)).
  - apply (tk_similar (R:=tables_kept)).
  - apply (tk_alias (R:=tables_kept)).
  - apply (tk_upsert (R:=tables_kept)).
Qed.

#[global] Instance pg_failed_ingest now : @FailedIngestKeeps Store (pg_ingest_store now) content_kept.
Proof.
  intros doc recs ids fcs s e s' E. pose proof (ingest_fails_clean now doc recs ids fcs s) as Hc.
  simpl in E. rewrite E in Hc. by apply Hc.
Qed.

Lemma upload_rows_length did fids fcs : length fids = length fcs ->
  Z.of_nat (length (upload_rows did (zip fids fcs))) = sum_Z ((λ cs, Z.of_nat (length cs)) <$> fcs).
Proof using Type.
  revert fids. induction fcs as [|cs fcs IH]; intros [|f fids] Hl; try done. unfold upload_rows in *.
  csimpl in *. rewrite length_app, Nat2Z.inj_add, IH by lia. by rewrite length_fmap.
Qed.

Lemma forall2_zip {A C D} (P : A -> C -> Prop) (Q : C -> D -> Prop) (X : A -> D -> Prop) l k m :
  Forall2 P l k -> Forall2 Q k m -> (∀ a c d, P a c -> Q c d -> X a d) -> Forall2 X l m.
Proof using Type. intros Hp. revert m. induction Hp; intros m Hq HX; inv Hq; constructor; eauto. Qed.

Context {B W : Type} `{!Blob B} `{!Unicode}.
Context (key : string -> Prop) (valid : string -> bytes -> Prop) (inv : B -> Prop) (has : B -> string -> Prop).
Context `{!BlobLaws B key valid inv has}.
Context (tree_magic : bytes -> chars) (sha256 : bytes -> bytes) (now : Z) (p : IngestPipeline W).
#[local] Instance local_ingest_store : IngestStore Store := pg_ingest_store now.

(** The row of a file, and its bytes in the blob store. *)
Definition file_stored (t id : Z) (db : Db) (blobs : B) (fid : Z) (f : IngestFile) : Prop :=
  ∃ r, files db !! fid = Some r ∧ f_tenant r = t ∧ f_document r = id ∧ f_sha256 r = sha256 (if_bytes f) ∧
    f_blob_key r = build_blob_key t (hex_encode (sha256 (if_bytes f))) ∧ f_status r = as_str Ready ∧
    has blobs (blob_key sha256 t (if_bytes f)).

(** The upload as rows and blobs. *)
Record upload_stored (t : Z) (files : list IngestFile) (existing : option Z) (out : IngestOutput) (s s' : Sys B Store W) : Prop := {
  us_ok : db_ok (st_db (sy_store s')) ∧ inv (sy_blob s');
  us_row : ∃ row k, documents (st_db (sy_store s')) !! io_document_id out = Some row ∧ dr_tenant row = t ∧
    dr_status row = as_str Ready ∧ dr_page_count row = Z.of_nat (length files) ∧ dr_kind row = as_str k ∧
    kind_rule ((λ f, mime_to_doc_kind (detect_mime tree_magic (if_bytes f))) <$> files) k;
  us_files : ∃ fids,
    Forall2 (file_stored t (io_document_id out) (st_db (sy_store s')) (sy_blob s')) fids files ∧
    (rows_where (doc_files t (io_document_id out)) (Schema.files (st_db (sy_store s')))).*1 ≡ₚ fids;
  us_chunks : Z.of_nat (length (rows_where (doc_chunks t (io_document_id out)) (chunks (st_db (sy_store s'))))) = io_chunk_count out;
  us_tags tag : doc_tags (st_db (sy_store s')) !! (io_document_id out, tag) =
    tags_after (io_tag_ids out) tag (doc_tags (st_db (sy_store s)) !! (io_document_id out, tag));
  us_target id : existing = Some id -> 0 < id -> io_document_id out = id;
  us_others : ∃ row, documents (st_db (sy_store s')) = <[io_document_id out := row]> (documents (st_db (sy_store s))) ∧
    kept_columns (documents (st_db (sy_store s)) !! io_document_id out) row;
}.

(** The document's texts and chunks are those the models replied: title and
    summary of the tagger, metadata and text of the extractors, and for each
    file, in order, one live chunk for each piece of its text with the vector
    replied for it; each chunk is a part of its page's text with a vector of the
    expected dimension. *)
Definition content_stored (t : Z) (user : option Z) (files : list IngestFile) (note : option chars) (lo : bool)
    (out : IngestOutput) (s s' : Sys B Store W) : Prop :=
  let note' := note ≫= λ n, prepare_note n (compute_token_budgets (ip_context_tokens p) None).2 in
  let recs := imap (file_record tree_magic sha256 now t) (pages_of files) in
  ∃ row fids fcs pairs merged pairs' text tagged,
    documents (st_db (sy_store s')) !! io_document_id out = Some row ∧ dr_user_note row = note' ∧
    drafted p t user files note' lo recs (sy_store s, sy_names s) (dr_title row) (dr_summary row) (dr_meta row)
      (io_tag_ids out) fcs pairs merged pairs' text tagged ∧
    Forall2 (file_stored t (io_document_id out) (st_db (sy_store s')) (sy_blob s')) fids files ∧
    plain <$> (rows_where (doc_chunks t (io_document_id out)) (chunks (st_db (sy_store s')))).*2
      ≡ₚ upload_rows (io_document_id out) (zip fids fcs) ∧
    Forall2 (λ f cs, ∃ text, is_str text ∧ page_chunks p t 0 (fr_page_no f) text cs) (set_ready <$> recs) fcs.

Lemma record_field {A} t (files : list IngestFile) (get : FileRecord -> A) (g : bytes -> A) :
  (∀ i q, get (file_record tree_magic sha256 now t i q) = g (pg_bytes q)) ->
  get <$> imap (file_record tree_magic sha256 now t) (pages_of files) = (λ f, g (if_bytes f)) <$> files.
Proof using Type.
  intros Hg. transitivity (g <$> (pg_bytes <$> pages_of files)).
  - apply list_eq. intros i. rewrite !list_lookup_fmap, list_lookup_imap. destruct (pages_of files !! i); simpl; [by rewrite Hg|done].
  - by rewrite pages_of_bytes, <- list_fmap_compose.
Qed.

Lemma records_length t (files : list IngestFile) :
  length (imap (file_record tree_magic sha256 now t) (pages_of files)) = length (sanitize <$> files).
Proof using Type. by rewrite length_imap, length_fmap, pages_of_length. Qed.

(** The blobs of a run are the files' bytes under their keys. *)
Lemma put_pairs t (files : list IngestFile) :
  (λ fi, (key_string (fr_blob_key fi.1), if_bytes fi.2))
    <$> zip (imap (file_record tree_magic sha256 now t) (pages_of files)) (sanitize <$> files)
  = (λ f, (blob_key sha256 t (if_bytes f), if_bytes f)) <$> files.
Proof using Type.
  set (recs := imap _ _).
  assert (Hk : (λ r, key_string (fr_blob_key r)) <$> recs = (λ f, blob_key sha256 t (if_bytes f)) <$> files).
  { apply (record_field t files (λ r, key_string (fr_blob_key r)) (blob_key sha256 t)). done. }
  assert (Hb : if_bytes <$> (sanitize <$> files) = if_bytes <$> files) by by rewrite <- list_fmap_compose.
  pose proof (records_length t files) as Hl. fold recs in Hl.
  transitivity (zip ((λ r, key_string (fr_blob_key r)) <$> recs) (if_bytes <$> (sanitize <$> files))).
  - clear Hk Hb. revert Hl. generalize (sanitize <$> files). induction recs as [|r rs IH]; intros [|g gs] Hl; try done.
    csimpl. f_equal. apply IH. by injection Hl.
  - rewrite Hk, Hb. clear. induction files as [|f fs IH]; [done|]. csimpl. by rewrite IH.
Qed.

Lemma forall2_right {A C} (P : A -> C -> Prop) (Q : C -> Prop) l k : Forall2 P l k -> Forall Q k -> Forall2 (λ a c, P a c ∧ Q c) l k.
Proof using Type. induction 1; intros Hk; [constructor|]. apply Forall_cons in Hk as [??]. constructor; auto. Qed.

Lemma records_match t files recs : recs = set_ready <$> imap (file_record tree_magic sha256 now t) (pages_of files) ->
  Forall2 (λ r f, fr_tenant r = t ∧ fr_sha256 r = sha256 (if_bytes f) ∧
    fr_blob_key r = build_blob_key t (hex_encode (sha256 (if_bytes f))) ∧ fr_status r = Ready) recs files.
Proof using Type.
  intros ->. pose (get r := (fr_tenant (set_ready r), fr_sha256 (set_ready r), fr_blob_key (set_ready r), fr_status (set_ready r))).
  pose proof (record_field t files get (λ b, (t, sha256 b, build_blob_key t (hex_encode (sha256 b)), Ready)) (λ i q, eq_refl)) as Hf.
  apply Forall2_fmap_l. eapply Forall2_impl; [apply (Forall2_fmap_1 get (λ f, (t, sha256 (if_bytes f), build_blob_key t (hex_encode (sha256 (if_bytes f))), Ready)) eq)|].
  - rewrite Hf. by apply Forall_Forall2_diag, Forall_forall.
  - intros r f E. unfold get in E. by simplify_eq.
Qed.

Lemma ingest_stored_whole t user files note lo existing (s s' : Sys B Store W) out :
  typed p -> (∀ b, length (sha256 b) = 32%nat) -> Z.of_nat (length files) <= ity_max i32 ->
  NoDup ((λ f, sha256 (if_bytes f)) <$> files) -> db_ok (st_db (sy_store s)) -> inv (sy_blob s) ->
  Forall (λ f, key (blob_key sha256 t (if_bytes f)) ∧ valid (blob_key sha256 t (if_bytes f)) (if_bytes f)) files ->
  ingest_inner tree_magic sha256 now p t user files note lo existing s = (Ok out, s') ->
  upload_stored t files existing out s s' ∧ content_stored t user files note lo out s s'.
Proof.
  intros Hty Hsha Hlen Hnd Hok Hinv Hkeys Hrun.
  apply (ingest_inner_ok _ _ _ _ Hty tables_kept) in Hrun as (doc & recs & fcs & st & s1 & Hrq & _ & Hput & Hbl & Hkept & Hti & Hcount & pairs & merged & pairs' & text & tagged & Hdraft); [|done].
  apply (put_blobs_ok key valid inv has) in Hput as (Hinv1 & Hst1 & Hnm1 & Hhas); [|done|].
  2:{ apply (Forall_fmap (λ fi, (key_string (fr_blob_key fi.1), if_bytes fi.2)) (λ kb : string * bytes, key kb.1 ∧ valid kb.1 kb.2)).
      rewrite put_pairs. by apply Forall_fmap. }
  destruct Hkept as (Hcont & Htags & Hokst). rewrite Hst1, ?Hnm1 in *. specialize (Hokst Hok). simpl in Hti.
  pose proof (rq_records _ _ _ _ _ _ _ _ _ _ _ _ Hrq) as Hrecs.
  assert (Hshas : fr_sha256 <$> recs = (λ f, sha256 (if_bytes f)) <$> files).
  { rewrite Hrecs, <- list_fmap_compose. by apply (record_field t files (fr_sha256 ∘ set_ready) sha256). }
  assert (Hall : Forall (λ f, has (sy_blob s1) (blob_key sha256 t (if_bytes f))) files).
  { apply Forall_forall. intros f Hf. rewrite Forall_forall in Hkeys. apply Hhas; [by apply Hkeys|]. left.
    change (λ fi : FileRecord * IngestFile, key_string (fr_blob_key fi.1))
      with (fst ∘ (λ fi : FileRecord * IngestFile, (key_string (fr_blob_key fi.1), if_bytes fi.2))).
    rewrite list_fmap_compose, put_pairs, <- list_fmap_compose. apply list_elem_of_fmap. by exists f. }
  apply ingest_ok in Hti as (Hl & Hok' & se & ue & fids & Hdone); [|done| |by rewrite Hshas].
  2:{ rewrite Hrecs. apply Forall_fmap, Forall_forall. intros r Hr.
      apply list_elem_of_lookup in Hr as [i Hi]. rewrite list_lookup_imap in Hi.
      apply fmap_Some in Hi as (q & _ & ->). apply Hsha. }
  pose proof Hdone as Hd. destruct Hdone. pose proof (rq_tenant _ _ _ _ _ _ _ _ _ _ _ _ Hrq) as Ht.
  assert (Hfiles : Forall2 (file_stored t (io_document_id out) (st_db (sy_store s')) (sy_blob s')) fids files).
  { rewrite Hbl. eapply forall2_zip; [exact id_files| |].
    + apply forall2_right; [|exact Hall]. apply (records_match t files recs Hrecs).
    + intros fid r f Hrow ((E1 & E2 & E3 & E4) & Hh). eexists. split; [exact Hrow|].
      cbn [file_row f_tenant f_document f_sha256 f_blob_key f_status]. rewrite E1, E2, E3, E4. by split_and!. }
  split.
  2:{ unfold content_stored. cbv zeta. destruct id_row as (r & Hr & -> & _). exists r, fids, fcs, pairs, merged, pairs', text, tagged.
      pose proof (rq_note _ _ _ _ _ _ _ _ _ _ _ _ Hrq) as Hnote. rewrite <- Hnote, <- Hrecs. destruct Hr.
      rewrite ir_title, ir_summary, ir_meta, ir_note, <- Ht, lookup_insert_eq. rewrite Ht at 1 2.
      split_and!; try done; [by rewrite Ht|]. rewrite Ht. apply (rq_chunks _ _ _ _ _ _ _ _ _ _ _ _ Hrq). }
  split; rewrite ?Hbl.
  - done.
  - destruct id_row as (r & Hr & -> & _). exists r, (doc_kind doc). rewrite lookup_insert_eq. destruct Hr, Hrq. split_and!; congruence || done.
  - exists fids. rewrite <- Hbl. split; [done|]. rewrite <- Ht. by eapply live_rows.
  - rewrite Hcount, <- (upload_rows_length (io_document_id out) fids fcs).
    + rewrite <- Ht, <- id_chunks, !length_fmap. done.
    + rewrite <- Hl. by eapply Forall2_length.
  - intros tag. rewrite id_tags. by rewrite Htags.
  - intros id Hid Hpos. pose proof (rq_id _ _ _ _ _ _ _ _ _ _ _ _ Hrq) as Hdid. rewrite Hid in Hdid. simpl in Hdid.
    unfold target_document in id_target. rewrite Hdid in id_target.
    rewrite (proj2 (Z.gtb_lt id 0)) in id_target by lia. rewrite (proj2 (Z.gtb_lt id 0)) in id_target by lia. done.
  - destruct id_row as (r & _ & Ed & Hk). exists r. unfold StoreIngest.content in Hcont. injection Hcont as E1 _ _. by rewrite <- E1.
Qed.

Lemma ingest_stored t user files note lo existing (s s' : Sys B Store W) out :
  typed p -> (∀ b, length (sha256 b) = 32%nat) -> Z.of_nat (length files) <= ity_max i32 ->
  NoDup ((λ f, sha256 (if_bytes f)) <$> files) -> db_ok (st_db (sy_store s)) -> inv (sy_blob s) ->
  Forall (λ f, key (blob_key sha256 t (if_bytes f)) ∧ valid (blob_key sha256 t (if_bytes f)) (if_bytes f)) files ->
  ingest_inner tree_magic sha256 now p t user files note lo existing s = (Ok out, s') ->
  upload_stored t files existing out s s'.
Proof. intros ??????? Hrun. eapply ingest_stored_whole; [..|exact Hrun]; done. Qed.


(** An ingest over the document store that fails, in whatever step, leaves
    documents, files and chunks as they were. *)
Theorem failed_ingest_keeps_documents t user files note lo existing (s s' : Sys B Store W) e :
  ingest_inner tree_magic sha256 now p t user files note lo existing s = (Err e, s') ->
  StoreIngest.content (sy_store s') = StoreIngest.content (sy_store s).
Proof. apply (ingest_inner_clean content_kept tree_magic sha256 now p t user files note lo existing). Qed.
End Postgres.

(** ** Which errors a run reports *)

Section Errors.
Context {B S W : Type} `{!Blob B} `{!TagStore S} `{!IngestStore S} `{!Unicode}.
Context (tree_magic : bytes -> chars) (sha256 : bytes -> bytes) (now : Z).
Context (p : IngestPipeline W) (Htyped : typed p).
#[local] Existing Instances ing_ret ing_bind.
Notation ing := (ing (B:=B) (S:=S) (W:=W)).

Lemma ing_bind_err {A C} (m : ing A) (k : A -> ing C) s e s' : (m ≫= k) s = (Err e, s') ->
  m s = (Err e, s') ∨ ∃ a s1, m s = (Ok a, s1) ∧ k a s1 = (Err e, s').
Proof using Type. unfold mbind, ing_bind. destruct (m s) as [[a|e1] s1]; [right; eauto|intros [= -> ->]; by left]. Qed.

Definition fails_in {A} (P : IngestFailure -> Prop) (m : ing A) : Prop := ∀ s e s', m s = (Err e, s') -> P e.

Lemma fails_bind {A C} P (m : ing A) (k : A -> ing C) :
  fails_in P m -> (∀ a, fails_in P (k a)) -> fails_in P (m ≫= k).
Proof using Type. intros Hm Hk s e s' [E|(a & s1 & _ & E)]%ing_bind_err; [by apply (Hm s e s')|by apply (Hk a s1 e s')]. Qed.
Lemma fails_ret {A} P (a : A) : fails_in P (mret a).
Proof using Type. by intros s e s'. Qed.
Lemma fails_fail {A} (P : IngestFailure -> Prop) e : P e -> fails_in P (ing_fail (A:=A) e).
Proof using Type. by intros Hp s e' s' [= <- _]. Qed.
Lemma fails_models {A E} P (m : W -> result A E * W) : fails_in P (on_models m).
Proof using Type. intros s e s'. unfold on_models. by destruct (m _). Qed.

(** The errors of each step. *)
Definition extraction_error (l : list (FileRecord * IngestFile)) (e : IngestFailure) : Prop :=
  ∃ f i cause extractor, (f, i) ∈ l ∧ e = ExtractionFailed (fr_page_no f) (fr_path f) cause ∧
    is_media (infer_kind_from_mime (fr_mime f)) = false ∧ ip_extractors p (infer_kind_from_mime (fr_mime f)) = Some extractor ∧
    replied (extractor (mkRawFile (if_bytes i) (fr_mime f) (infer_kind_from_mime (fr_mime f)) (fr_path f))) (Err cause).

Lemma extract_all_err l : fails_in (extraction_error l) (extract_all p l).
Proof using Type.
  induction l as [|[f i] l IH]; [apply fails_ret|]. cbn [extract_all]. apply fails_bind.
  - unfold extract_one. destruct (ip_extractors p _) as [ex|] eqn:Ex; [|apply fails_ret].
    intros s e s' [E|(r & s1 & [w' Hm]%on_models_ok & E)]%ing_bind_err; [by eapply (fails_models (λ _, False)) in E|].
    destruct r as [e0|c]; [done|]. destruct (is_media _) eqn:Em; [done|]. injection E as <- _.
    exists f, i, c, ex. split_and!; [left|done|done|done|by eexists _, _].
  - intros e. apply fails_bind; [|intros r; apply fails_ret]. intros s e' s' E. apply IH in E as (f' & i' & c & ex & ? & ?).
    exists f', i', c, ex. split_and!; [by right|naive_solver..].
Qed.

(** The error that reports a failure of the tagger. *)
Definition tag_failure (te : TagError) : IngestFailure :=
  if is_context_overflow te then ContextOverflow te
  else if is_backend_unavailable te then BackendUnavailable te else TaggerFailed te.

Lemma retry_no_panic (input : TagInput) lo w : is_str (ti_text input) ->
  (tag_with_context_retry (ip_tag p) input lo w).1 <> Err TagPanic.
Proof using Type.
  unfold tag_with_context_retry. generalize MAX_CONTEXT_SHRINKS as n. intros n. revert input w.
  induction n as [|n IH]; intros input w Hs; cbn [tag_loop]; destruct (ip_tag p input lo w) as [[o|e] w']; try done.
  destruct (is_context_overflow e); [|done]. destruct (halve_text_spec (ti_text input) Hs) as (j & -> & _).
  apply IH. by apply is_str_take.
Qed.

Lemma tag_document_err input lo : is_str (ti_text input) ->
  fails_in (λ e, is_media (ti_kind input) = false ∧
    ∃ te, e = tag_failure te ∧ replied (tag_with_context_retry (ip_tag p) input lo) (Err (TagErr te))) (tag_document p input lo).
Proof using Type.
  intros Hs s e s' [E|(r & s1 & Hm & E)]%ing_bind_err; [by eapply (fails_models (λ _, False)) in E|].
  apply on_models_ok in Hm as [w' Hm]. pose proof (retry_no_panic input lo (sy_models s) Hs) as Hp. rewrite Hm in Hp.
  destruct r as [o|[te|]]; [done| |done]. destruct (is_media _); [done|]. split; [done|]. exists te. split; [|by eexists _, _].
  unfold tag_failure. by destruct (is_context_overflow te); [|destruct (is_backend_unavailable te)]; injection E as <- _.
Qed.

(** A failed embedding: the error a batch was answered with, the first vector
    of a batch that has the wrong dimension, or as many vectors as there are no
    chunks. *)
Definition embed_error (lo : bool) (e : IngestFailure) : Prop :=
  match e with
  | EmbedFailed (BatchFailed te) => ∃ batch, replied (ip_llm_embed p batch lo) (Err te)
  | EmbedFailed (DimensionMismatch expected got i) => expected = ip_expected_dim p ∧ got <> expected ∧
      ∃ batch r v, replied (ip_llm_embed p batch lo) (Ok r) ∧ er_vectors r !! i = Some v ∧ length v = got
  | EmbedFailed (CountMismatch vectors submitted) => vectors <> submitted
  | _ => False
  end.

Lemma check_dims_err i vs e : check_dims p i vs = Err e ->
  ∃ j v, e = EmbedFailed (DimensionMismatch (ip_expected_dim p) (length v) (i + j)) ∧ vs !! j = Some v ∧ length v <> ip_expected_dim p.
Proof using Type.
  revert i. induction vs as [|v vs IH]; intros i; cbn [check_dims]; [done|].
  destruct (Nat.eqb_spec (length v) (ip_expected_dim p)) as [Hv|Hv]; cbn [negb].
  - destruct (check_dims p (i + 1) vs) eqn:E; [done|]. intros [= <-]. apply IH in E as (j & v' & -> & Hj & Hd).
    exists (Datatypes.S j), v'. split_and!; [|done|done]. do 2 f_equal. lia.
  - intros [= <-]. exists 0%nat, v. by rewrite Nat.add_0_r.
Qed.

Lemma gather_err t user lo rs : Forall (λ r, ∃ batch, replied (ip_llm_embed p batch lo) r) rs ->
  fails_in (embed_error lo) (gather p (Some t) user rs).
Proof using Type.
  induction 1 as [|r rs [batch Hr] _ IH]; [apply fails_ret|]. destruct r as [r|c]; cbn [gather].
  - apply fails_bind; [by intros s e s'|]. intros _. apply fails_bind.
    + intros s e s' [= E _]. apply check_dims_err in E as (j & v & -> & Hv & Hd). simpl. split_and!; [done|done|].
      by exists batch, r, v.
    + intros vs. apply fails_bind; [done|]. intros rest. apply fails_ret.
  - apply fails_fail. by exists batch.
Qed.

Lemma embed_all_err pairs t user doc lo : Forall (λ fe, is_str (ex_text fe.2)) pairs ->
  fails_in (embed_error lo) (embed_all p pairs t user doc lo).
Proof using Type.
  assert (Hsend : ∀ bs P, fails_in P (send_all p bs lo)).
  { intros bs P. induction bs as [|b bs IH]; [apply fails_ret|]. cbn [send_all]. apply fails_bind; [apply fails_models|]. intros r.
    apply fails_bind; [done|]. intros rs. apply fails_ret. }
  induction 1 as [|[f e] pairs He _ IH]; [apply fails_ret|]. cbn [embed_all].
  destruct (chunks_of_parts (ex_text e) He f e eq_refl) as (tcs & -> & _). apply fails_bind; [apply fails_ret|].
  intros cs. apply fails_bind; [|intros x; apply fails_bind; [done|intros y; apply fails_ret]].
  destruct cs as [|c cs]; [apply fails_ret|]. unfold embed_chunks. apply fails_bind.
  - unfold batch_embed. intros s e' s' [E|(rs & s1 & Hrs & E)]%ing_bind_err; [by apply (Hsend _ (embed_error lo)) in E|].
    revert E. apply gather_err. apply send_all_replies in Hrs. clear -Hrs. induction Hrs; constructor; eauto.
  - intros vs. apply fails_bind; [|intros u; apply fails_ret]. unfold ing_ensure.
    destruct (Nat.eqb_spec (length vs) (length (c :: cs))); [apply fails_ret|by apply fails_fail].
Qed.

(** Strings are valid all the way to the tagger. *)
Definition opt_str (o : option chars) : Prop := match o with Some s => is_str s | None => True end.

Lemma sanitize_str o : opt_str o -> opt_str (o ≫= sanitize_filename).
Proof using Type.
  destruct o as [s|]; [|done]. simpl. intros Hs. destruct (sanitize_filename s) as [r|] eqn:E; [|done]. simpl.
  apply Forall_forall. intros c Hc. rewrite Forall_forall in Hs. by eapply Hs, sanitize_sub.
Qed.

Lemma show_int_str n : is_str (show_int n).
Proof using Type.
  eapply Forall_impl; [apply show_int_chars|]. intros c [->|Hc]; [done|]. unfold is_scalar. decide_cmp. done.
Qed.

Lemma join_str sep ws : is_str sep -> Forall (λ w, is_str w) ws -> is_str (join sep ws).
Proof using Type.
  intros Hs. induction 1 as [|w [|w' ws] Hw _ IH]; [constructor|done|].
  change (join sep (w :: w' :: ws)) with (w ++ sep ++ join sep (w' :: ws)). by repeat (apply Forall_app; split).
Qed.

Lemma merge_text_str pairs : Forall (λ fe, opt_str (fr_page_label fe.1)) pairs -> Forall (λ fe, is_str (ex_text fe.2)) pairs ->
  is_str (merge_text pairs).
Proof using Type.
  intros Hl Ht. rewrite merge_text_join. apply join_str; [by repeat constructor|]. apply Forall_fmap, Forall_forall.
  intros [f e] Hin. rewrite Forall_forall in Hl, Ht. specialize (Hl _ Hin). specialize (Ht _ Hin). simpl in *.
  unfold page_text, page_separator. apply Forall_app. split; [|destruct (ex_text e); [constructor|by constructor]].
  destruct (fr_page_label f); repeat (apply Forall_app; split); auto using show_int_str; by repeat constructor.
Qed.

Lemma labels_str t files : Forall (λ f, opt_str (if_page_label f) ∧ opt_str (if_path f)) files ->
  Forall (λ r, opt_str (fr_page_label r)) (imap (file_record tree_magic sha256 now t) (pages_of files)).
Proof using Type.
  intros Hf. apply Forall_forall. intros r [i Hi]%list_elem_of_lookup. rewrite list_lookup_imap in Hi.
  apply fmap_Some in Hi as (q & Hq & ->). simpl. apply list_elem_of_lookup_2 in Hq.
  assert (Hs : Forall (λ f, opt_str (if_page_label f) ∧ opt_str (if_path f)) (sanitize <$> files)).
  { apply Forall_fmap. eapply Forall_impl; [done|]. intros f [? ?]. split; by apply sanitize_str. }
  unfold pages_of in Hq. destruct (sanitize <$> files) as [|f [|g fs]]; [by apply not_elem_of_nil in Hq| |].
  - apply list_elem_of_singleton in Hq as ->. by apply Forall_cons in Hs as [[??] _].
  - apply list_elem_of_fmap in Hq as (f' & -> & Hin). rewrite Forall_forall in Hs. by apply Hs.
Qed.

(** The model could not be reached or had no capacity. *)
Definition no_backend (te : TagError) : Prop :=
  te_llm te = Some LScheduler ∨ te_llm te = Some LAllCooldown ∨ te_llm te = Some LAllFailed.
Lemma backend_unavailable_exact te : is_backend_unavailable te = true <-> no_backend te.
Proof using Type. unfold is_backend_unavailable, no_backend. destruct (te_llm te) as [[]|]; naive_solver. Qed.

(** What a failed run reports: which step failed, on what, and with which
    answer of the part that it called. *)
Definition failure_ok (t : Z) (user : option Z) (files : list IngestFile) (lo : bool) (e : IngestFailure) : Prop :=
  let tagger te := ∃ input, ti_tenant input = t ∧ ti_user input = user ∧ is_media (ti_kind input) = false ∧
    kind_rule ((λ f, mime_to_doc_kind (detect_mime tree_magic (if_bytes f))) <$> files) (ti_kind input) ∧
    replied (tag_with_context_retry (ip_tag p) input lo) (Err (TagErr te)) in
  match e with
  | NoFiles => files = []
  | BadDocumentId _ | IngestPanic => False
  | BlobFailed k be => ∃ f b b', f ∈ files ∧ k = build_blob_key t (hex_encode (sha256 (if_bytes f))) ∧
      blob_put (key_string k) (if_bytes f) b = (Err be, b')
  | ExtractionFailed page path cause => ∃ i f extractor, files !! i = Some f ∧ page = Z.of_nat i + 1 ∧
      let mime := Some (detect_mime tree_magic (if_bytes f)) in let kind := infer_kind_from_mime mime in
      path = if_path f ≫= sanitize_filename ∧ is_media kind = false ∧ ip_extractors p kind = Some extractor ∧
      replied (extractor (mkRawFile (if_bytes f) mime kind path)) (Err cause)
  | ContextOverflow te => tagger te ∧ is_context_overflow te = true
  | BackendUnavailable te => tagger te ∧ is_context_overflow te = false ∧ no_backend te
  | TaggerFailed te => tagger te ∧ is_context_overflow te = false ∧ ~ no_backend te
  | CanonFailed ce => ∃ names st, (canonicalize t (ip_threshold p) names st).1 = Err ce
  | EmbedFailed _ => embed_error lo e
  | StoreFailed de => ∃ doc recs ids fcs st, doc_tenant doc = t ∧ (is_transactional_ingest doc recs ids fcs st).1 = Err de
  end.

Lemma put_blobs_err l (s : Sys B S W) e s' : put_blobs l s = (Err e, s') ->
  ∃ f i b b' be, (f, i) ∈ l ∧ e = BlobFailed (fr_blob_key f) be ∧ blob_put (key_string (fr_blob_key f)) (if_bytes i) b = (Err be, b').
Proof using Type.
  revert s. induction l as [|[f i] l IH]; intros s; [done|]. cbn [put_blobs].
  intros [E|([] & s1 & _ & E)]%ing_bind_err.
  - unfold on_blob in E. destruct (blob_put _ _ _) as [[x|be] b] eqn:Eb; [done|]. injection E as <- _.
    exists f, i, (sy_blob s), b, be. split_and!; [left|done|done].
  - apply IH in E as (f' & i' & b & b' & be & ? & ?). exists f', i', b, b', be. split; [by right|done].
Qed.

(** A record and its input are those of one file. *)
Lemma zip_describes t (files : list IngestFile) f i : Z.of_nat (length files) <= ity_max i32 ->
  (f, i) ∈ zip (imap (file_record tree_magic sha256 now t) (pages_of files)) (sanitize <$> files) ->
  ∃ j g, files !! j = Some g ∧ fr_page_no f = Z.of_nat j + 1 ∧ if_bytes i = if_bytes g ∧
    fr_mime f = Some (detect_mime tree_magic (if_bytes g)) ∧ fr_path f = if_path g ≫= sanitize_filename ∧
    fr_blob_key f = build_blob_key t (hex_encode (sha256 (if_bytes g))).
Proof using Type.
  intros Hlen [j Hj]%list_elem_of_lookup. apply lookup_zip_Some in Hj as [Hf Hi]. rewrite list_lookup_imap in Hf.
  apply fmap_Some in Hf as (q & Hq & ->). rewrite list_lookup_fmap in Hi. apply fmap_Some in Hi as (g & Hg & ->).
  assert (Hpage : pg_bytes q = if_bytes g ∧ pg_path q = if_path g ≫= sanitize_filename).
  { assert (Hs : (sanitize <$> files) !! j = Some (sanitize g)) by (by rewrite list_lookup_fmap, Hg).
    unfold pages_of in Hq. destruct (sanitize <$> files) as [|h [|h' hs]]; [done| |].
    - destruct j; [|done]. injection Hs as ->. by injection Hq as <-.
    - rewrite list_lookup_fmap, Hs in Hq. by injection Hq as <-. }
  destruct Hpage as [Hb Hp]. exists j, g. apply lookup_lt_Some in Hg as Hlt.
  destruct (file_record_describes tree_magic sha256 now t j q) as []; [lia|]. rewrite <- Hb, <- Hp. by split_and!.
Qed.

Lemma caption_no_err md pairs lo (s : Sys B S W) e s' : caption p md pairs lo s <> (Err e, s').
Proof using Type.
  unfold caption. destruct (ip_describe_many p); [|done]. destruct (_ =? 0)%nat; [done|].
  intros [E|([[|x c]|er] & s1 & _ & E)]%ing_bind_err; [|done|done|done]. by apply (fails_models (λ _, False)) in E.
Qed.

Lemma built_kind_rule pages (files : list IngestFile) note t : pg_bytes <$> pages = if_bytes <$> files ->
  kind_rule ((λ f, mime_to_doc_kind (detect_mime tree_magic (if_bytes f))) <$> files)
    (doc_kind (build_multi tree_magic sha256 now t pages note).1).
Proof using Type.
  intros Hp. cbn [build_multi fst doc_kind]. change (λ q, detect_mime tree_magic (pg_bytes q)) with (detect_mime tree_magic ∘ pg_bytes).
  rewrite (list_fmap_compose pg_bytes), Hp.
  assert ((λ f, mime_to_doc_kind (detect_mime tree_magic (if_bytes f))) <$> files
    = mime_to_doc_kind <$> (detect_mime tree_magic <$> (if_bytes <$> files))) as -> by (by rewrite <- !list_fmap_compose).
  apply infer_doc_kind_rule.
Qed.

(** C37. The error of a run on valid strings tells which step failed, on what
    and why, and a run never panics.  A blob error carries the key of a file
    and the blob store's answer; an extraction error the page, path and cause
    of a file that is not media, from its extractor's answer; a tagger error is
    reported only for uploads that are not media, as a context overflow exactly
    when the last answer was one, as an unavailable backend exactly for the
    scheduler's, the cooldown and the all-failed errors among the others, else
    as a failure of the tagger; an embedding error carries the error a batch was answered with,
    or the dimension and index of a wrong vector; errors of the canonicalizer
    and of the store are theirs. *)
Theorem ingest_errors t user files note lo existing (s s' : Sys B S W) e :
  Z.of_nat (length files) <= ity_max i32 -> opt_str note ->
  Forall (λ f, opt_str (if_page_label f) ∧ opt_str (if_path f)) files ->
  ingest_inner tree_magic sha256 now p t user files note lo existing s = (Err e, s') -> failure_ok t user files lo e.
Proof.
  intros Hlen Hnote Hnames. unfold ingest_inner. destruct (compute_token_budgets _ _) as [tb nb] eqn:Eb.
  intros [E|(u & s0 & [Hne ->]%ensure_ok & [E|(un & s1 & Hn & Hrun)]%ing_bind_err)]%ing_bind_err.
  { unfold ing_ensure in E. destruct (Nat.eqb_spec (length files) 0); [|done]. injection E as <- _. by apply nil_length_inv. }
  { exfalso. destruct note as [n|]; [|done]. apply ing_bind_err in E as [E|(n' & s2 & _ & E)]; [|done].
    destruct (prepare_note_spec n nb) as (r & Hr & _); [done| |by rewrite Hr in E].
    unfold compute_token_budgets in Eb. injection Eb as _ <-. unfold DEFAULT_USER_NOTE_TOKENS. lia. }
  clear Hn. rewrite build_pages in Hrun. unfold build_multi in Hrun. set (recs := imap _ (pages_of files)) in *.
  cbv beta iota zeta in Hrun.
  apply ing_bind_err in Hrun as [E|([] & s2 & _ & Hrun)].
  { apply put_blobs_err in E as (f & i & b & b' & be & Hin & -> & Hput).
    apply zip_describes in Hin as (j & g & Hj & _ & Eb' & _ & _ & Ek); [|done]. rewrite Ek, Eb' in *. simpl.
    exists g, b, b'. split_and!; [by eapply list_elem_of_lookup_2|done|done]. }
  apply ing_bind_err in Hrun as [E|(pairs & s3 & Hex & Hrun)].
  { apply extract_all_err in E as (f & i & cause & ex & Hin & -> & Hm & Hex & Hr).
    apply zip_describes in Hin as (j & g & Hj & Ep & Eb' & Em & Epath & _); [|done]. rewrite Ep, Eb', Em, Epath in *. by exists j, g, ex. }
  apply extract_all_ok in Hex as [Hfst Hstr]; [|done].
  assert (Hrecs : pairs.*1 = recs) by (rewrite Hfst; apply fst_zip; unfold recs; by rewrite records_length).
  assert (Hmd : is_str (md_text (merge pairs))).
  { apply merge_text_str; [|done]. apply (Forall_fmap fst (λ r, opt_str (fr_page_label r))). rewrite Hrecs. by apply labels_str. }
  apply ing_bind_err in Hrun as [E|([merged pairs'] & s4 & Hcap & Hrun)]; [by apply caption_no_err in E|].
  apply caption_ok in Hcap as (Hk & _ & _ & _ & Hstr' & Hmd'); [|done|done].
  destruct (smart_bound_str (md_text merged) tb) as (text & Htext & Hts); [auto|]. rewrite Htext in Hrun.
  apply ing_bind_err in Hrun as [E|(text' & s5 & [= <- <-] & Hrun)]; [done|].
  apply ing_bind_err in Hrun as [E|(out & s6 & _ & Hrun)].
  { apply tag_document_err in E as (Hm & te & -> & Hr); [|done]. unfold tag_failure.
    match type of Hr with replied (tag_with_context_retry _ ?input _) _ => assert (Hin : ti_tenant input = t ∧ ti_user input = user ∧
      is_media (ti_kind input) = false ∧
      kind_rule ((λ f, mime_to_doc_kind (detect_mime tree_magic (if_bytes f))) <$> files) (ti_kind input)) end.
    { split_and!; [done|done|done|]. cbn [ti_kind]. rewrite Hk, (proj1 (merge_agrees pairs tree_magic sha256 now t (pages_of files) un Hrecs)).
      apply built_kind_rule, pages_of_bytes. }
    destruct Hin as (? & ? & ? & ?). destruct (is_context_overflow te) eqn:Eo; [|destruct (is_backend_unavailable te) eqn:Eu];
      (split; [eexists; by split_and!|]; try rewrite <- backend_unavailable_exact; by rewrite ?Eo, ?Eu). }
  apply ing_bind_err in Hrun as [E|(ids & s7 & _ & Hrun)].
  { unfold on_names in E. destruct (canonicalize _ _ _ _) as [[x|ce] [st em]] eqn:Ec; [done|]. injection E as <- _.
    eexists _, _. by rewrite Ec. }
  apply ing_bind_err in Hrun as [E|(fcs & s8 & _ & Hrun)].
  { apply embed_all_err in E; [|done]. by destruct e. }
  apply ing_bind_err in Hrun as [E|(id & s9 & _ & E)]; [|done]. unfold on_store in E.
  destruct (is_transactional_ingest _ _ _ _ _) as [[x|de] st] eqn:Est; [done|]. injection E as <- _.
  eexists _, _, _, _, _. split; [|by rewrite Est]. done.
Qed.
End Errors.

(** ** The worker's errors *)

(** The messages of other parts are not taken for a permanent failure. *)
Definition unmarked (msg : chars) : Prop :=
  starts_with (str PERMANENT_ERROR_PREFIX) msg = false ∧ starts_with (str "extraction failed") msg = false.
Definition marked (msg : chars) : bool := starts_with (str PERMANENT_ERROR_PREFIX) msg.

(** Failures every retry would repeat. *)
Definition deterministic (e : IngestFailure) : bool :=
  match e with ExtractionFailed _ _ _ | ContextOverflow _ => true | _ => false end.

Section Outcomes.
Context (show_blob : BlobError -> chars) (show_db : DbError -> chars) (show_canon : CanonError -> chars).
Context (Hdb : ∀ e, unmarked (show_db e)) (Hcanon : ∀ e, unmarked (show_canon e)).
Context {B S W : Type} `{!Blob B} `{!TagStore S} `{!IngestStore S} `{!QueuedIngestStore S} `{!Unicode}.
Context (tree_magic : bytes -> chars) (sha256 : bytes -> bytes) (now : Z).
Context (p : IngestPipeline W).
#[local] Existing Instances work_ret work_bind.
Notation load := (load_queued_ingest_inputs (B:=B) (S:=S) (W:=W) show_blob show_db).
Notation process := (process_queued_ingest show_blob show_db show_canon tree_magic sha256 now p).

Lemma marked_permanent msg : marked (permanent msg) = true.
Proof using Type. apply starts_with_spec. by exists msg. Qed.

Lemma unmarked_app a b : (11 <= length a)%nat -> marked a = false -> marked (a ++ b) = false.
Proof using Type.
  intros Hl. unfold marked, starts_with. change (length (str PERMANENT_ERROR_PREFIX)) with 11%nat. by rewrite take_app_le.
Qed.

Lemma classify_marked e : marked (classify_pipeline_error (show_failure show_blob show_db show_canon e)) = deterministic e.
Proof using Hdb Hcanon.
  assert (Hplain : ∀ a b, (17 <= length a)%nat -> marked a = false -> starts_with (str "extraction failed") a = false ->
    marked (classify_pipeline_error (a ++ b)) = false).
  { intros a b Hl Hm He. unfold classify_pipeline_error. unfold starts_with at 1.
    change (length (str "extraction failed")) with 17%nat. rewrite take_app_le by done.
    unfold starts_with in He. change (length (str "extraction failed")) with 17%nat in He. rewrite He.
    apply unmarked_app; [lia|done]. }
  assert (Hforeign : ∀ m, unmarked m -> marked (classify_pipeline_error m) = false).
  { intros m [H1 H2]. unfold classify_pipeline_error. by rewrite H2. }
  destruct e as [|id|k be|pg path cause|te|te|te|ce|[c|a b i|a b]|de|]; cbn [show_failure show_embed_error deterministic];
    try (by apply Hforeign); try (by apply Hplain; vm_compute; first [lia | done]).
  - unfold classify_pipeline_error.
    assert (starts_with (str "extraction failed")
      (str "extraction failed for page " ++ show_int pg ++ str " (" ++ default (str "?") path ++ str "): " ++ cause) = true) as ->.
    { apply starts_with_spec. by eexists. }
    apply marked_permanent.
  - unfold classify_pipeline_error.
    assert (starts_with (str "extraction failed") (permanent (str "context overflow after 3 text halvings: " ++ te_message te)) = false) as ->
      by done.
    apply marked_permanent.
Qed.

Lemma work_bind_err {A C} (m : work (B:=B) (S:=S) (W:=W) A) (k : A -> work C) s e s' : (m ≫= k) s = (Err e, s') ->
  m s = (Err e, s') ∨ ∃ a s1, m s = (Ok a, s1) ∧ k a s1 = (Err e, s').
Proof using Type. unfold mbind, work_bind. destruct (m s) as [[a|e1] s1]; [right; eauto|intros [= -> ->]; by left]. Qed.

Lemma work_store_err {A} f (m : S -> result A DbError * S) (s : Sys B S W) e s' : work_store f m s = (Err e, s') -> ∃ de, e = f de.
Proof using Type. unfold work_store. destruct (m _) as [[a|de] st]; [done|]. intros [= <- _]. by exists de. Qed.

Lemma fetch_files_err rows (s : Sys B S W) e s' : fetch_files show_blob rows s = (Err e, s') -> marked e = false.
Proof using Type.
  revert s. induction rows as [|row rows IH]; intros s; [done|]. cbn [fetch_files].
  intros [E|(b & s1 & _ & [E|(rest & s2 & _ & E)]%work_bind_err)]%work_bind_err; [|by eapply IH|done].
  unfold work_blob in E. destruct (blob_get _ _) as [[b|be] bl]; [done|].
  assert (e = str "failed to read blob '" ++ fr_blob_key row ++ str "': " ++ show_blob be) as -> by congruence.
  apply unmarked_app; [simpl; lia|done].
Qed.

(** The staged rows can never be processed. *)
Definition unloadable (job : Job) (s : Sys B S W) : Prop :=
  j_document_id job = None ∨
  ∃ d, j_document_id job = Some d ∧
    ((∃ st, qs_get_document (j_tenant_id job) d (sy_store s) = (Ok None, st)) ∨
     ∃ doc st st', qs_get_document (j_tenant_id job) d (sy_store s) = (Ok (Some doc), st) ∧ doc_status doc <> Ready ∧
       qs_get_files_for_document (j_tenant_id job) d st = (Ok [], st')).

Lemma load_err job plan (s : Sys B S W) msg s' : load job plan s = (Err msg, s') -> marked msg = true <-> unloadable job s.
Proof using Type.
  unfold load_queued_ingest_inputs, unloadable. destruct (j_document_id job) as [d|].
  2:{ intros [= <- _]. rewrite marked_permanent. split; [by left|done]. }
  intros [E|(odoc & s1 & Hg & E)]%work_bind_err.
  { pose proof E as [de ->]%work_store_err. unfold work_store in E.
    destruct (qs_get_document _ _ _) as [[x|de'] st] eqn:Eg; [done|]. cbv beta. rewrite unmarked_app by (simpl; lia || done).
    split; [done|]. intros [?|(d' & [= <-] & [[st' ?]|(doc & st' & st'' & ? & _)])]; congruence. }
  unfold work_store in Hg. destruct (qs_get_document _ _ _) as [[x|de'] st] eqn:Eg; [|done]. injection Hg as -> <-.
  destruct odoc as [doc|].
  2:{ injection E as <- _. rewrite marked_permanent. split; [|done]. intros _. right. exists d. split; [done|]. left. by exists st. }
  destruct (bool_decide_reflect (doc_status doc = Ready)) as [|Hnr]; [done|].
  apply work_bind_err in E as [E|(rows & s2 & Hf & E)].
  { pose proof E as [de ->]%work_store_err. unfold work_store in E. cbn [sy_store] in E.
    destruct (qs_get_files_for_document _ _ _) as [[x|de'] st1] eqn:Ef; [done|]. cbv beta. rewrite unmarked_app by (simpl; lia || done).
    split; [done|]. intros [?|(d' & [= <-] & [[st' ?]|(doc' & st' & st'' & ? & _ & ?)])]; congruence. }
  unfold work_store in Hf. cbn [sy_store] in Hf. destruct (qs_get_files_for_document _ _ _) as [[x|de'] st1] eqn:Ef; [|done].
  injection Hf as -> <-. destruct rows as [|r rows].
  - injection E as <- _. rewrite marked_permanent. split; [|done]. intros _. right. exists d. split; [done|]. right. by exists doc, st, st1.
  - apply work_bind_err in E as [E|(fs & s3 & _ & E)]; [|done]. rewrite (fetch_files_err _ _ _ _ E). split; [done|].
    intros [?|(d' & [= <-] & [[st' ?]|(doc' & st' & st'' & ? & _ & ?)])]; congruence.
Qed.

Lemma loadable job plan (s : Sys B S W) inputs s1 : load job plan s = (Ok inputs, s1) -> unloadable job s -> False.
Proof using Type.
  unfold load_queued_ingest_inputs, unloadable. destruct (j_document_id job) as [d|]; [|done]. unfold mbind, work_bind, work_store.
  intros E [?|(d' & [= <-] & [[st Hg]|(doc & st & st' & Hg & Hnr & Hf)])]; [done| |]; rewrite Hg in E; [done|].
  rewrite bool_decide_eq_false_2 in E by done. cbn [sy_store] in E. by rewrite Hf in E.
Qed.

(** C26. A queued job: one whose document is ready already succeeds, and nothing
    but the read of the document happens.  One that fails is marked permanent,
    so that the queue gives it up at once, exactly when its staged rows are
    missing or the run failed in a way the stored bytes determine (an
    extraction failure, or a text that overflows after every halving). *)
Theorem queued_ingest_outcomes job plan (s : Sys B S W) :
  (∀ d doc st, j_document_id job = Some d -> qs_get_document (j_tenant_id job) d (sy_store s) = (Ok (Some doc), st) ->
     doc_status doc = Ready -> process job plan s = (Ok tt, mkSys (sy_blob s) st (sy_names s) (sy_models s) (sy_usage s))) ∧
  (∀ msg s', process job plan s = (Err msg, s') ->
     marked msg = true <-> unloadable job s ∨
       ∃ inputs s1 e s2, load job plan s = (Ok inputs, s1) ∧ deterministic e = true ∧
         ingest_into tree_magic sha256 now p (j_tenant_id job) (j_created_by job) (qi_document_id inputs) (qi_files inputs)
           (qi_user_note inputs) (qi_local_only inputs) s1 = (Err e, s2)).
Proof.
  split.
  - intros d doc st Hd Hg Hr. unfold process_queued_ingest, load_queued_ingest_inputs. rewrite Hd.
    unfold mbind, work_bind, work_store. rewrite Hg. by rewrite bool_decide_eq_true_2.
  - intros msg s' [E|(inputs & s1 & Hl & E)]%work_bind_err.
    + rewrite (load_err _ _ _ _ _ E). split; [by left|]. intros [?|(i & s1 & e & s2 & El & _)]; [done|]. by rewrite E in El.
    + destruct (qi_already_ready inputs); [done|]. destruct (ingest_into _ _ _ _ _ _ _ _ _ _ _) as [[o|e] s2] eqn:Ei; [done|].
      injection E as <- <-. rewrite classify_marked. split.
      * intros He. right. by exists inputs, s1, e, s2.
      * intros [Hu|(i & s3 & e' & s4 & El & He & Ei')]; [|congruence]. exfalso. by apply (loadable _ _ _ _ _ Hl).
Qed.
End Outcomes.

(** ** Two classifications of one file *)

(** The kind stored with a document and the kind that chooses the extractor
    come from two tables, which differ. *)
Lemma kinds_disagree :
  mime_to_doc_kind (str "application/x-7z-compressed") = KArchive ∧
  infer_kind_from_mime (Some (str "application/x-7z-compressed")) = KBinary ∧
  mime_to_doc_kind (str "application/x-empty") = KDocument ∧
  infer_kind_from_mime (Some (str "application/x-empty")) = KBinary.
Proof. split_and!; reflexivity. Qed.

(** ** Examples *)

(** Blobs in memory. *)
#[local] Instance mem_blob : Blob (gmap string bytes) := {|
  blob_put k d := λ s, (Ok tt, <[k := d]> s);
  blob_get k := λ s, (match s !! k with Some d => Ok d | None => Err NotFound end, s);
  blob_get_range k a b := λ s, (match s !! k with Some d => Ok (byte_range a b d) | None => Err NotFound end, s);
  blob_exists k := λ s, (Ok (bool_decide (is_Some (s !! k))), s);
  blob_delete k := λ s, (Ok tt, delete k s);
  blob_presigned_get_url k := λ s, (Err Unsupported, s);
|}.

#[local] Instance mem_blob_laws :
  BlobLaws (gmap string bytes) (λ _, True) (λ _ _, True) (λ _, True) (λ s k, is_Some (s !! k)).
Proof.
  split.
  - intros k d s r s' _ _ _ [= <- <-]. split; [done|]. left. intros k' _.
    destruct (decide (k' = k)) as [->|Hne]; [rewrite lookup_insert_eq; naive_solver|rewrite lookup_insert_ne by done; naive_solver].
  - intros k s r s' _ _ [= <- <-]. split_and!; [done|done|done|]. intros Hn [d Hd]. by rewrite Hd in Hn.
  - intros k a b s r s' _ _ _ [= <- <-]. split_and!; [done|done| |].
    + intros x. destruct (s !! k) as [d|]; [|done]. intros [= <-]. by exists d.
    + intros Hn [d Hd]. by rewrite Hd in Hn.
  - intros k s r s' _ _ [= <- <-]. split_and!; [done|done|]. intros b [= <-]. by rewrite bool_decide_eq_true.
  - intros k s r s' _ _ [= <- <-]. split; [done|]. left. intros k' _.
    destruct (decide (k' = k)) as [->|Hne]; [rewrite lookup_delete_eq; split; [by intros []|naive_solver]|
      rewrite lookup_delete_ne by done; naive_solver].
Qed.

Definition demo_sha (b : bytes) : bytes := replicate 32 (default x00 (head b)).
(** Every document reads "hello"; the tagger proposes nothing. *)
Definition demo_pipeline : IngestPipeline unit :=
  mkPipeline
    (λ k, match k with KDocument => Some (λ _ w, (Ok (mkExtracted (str "hello") JNull []), w)) | _ => None end)
    (λ _ _ w, (Ok (mkTagOutput (str "Greeting") (str "A greeting") []), w)) None (f32_of_Z 1)
    (λ texts _ w, (Ok (mkEmbedResp (replicate (length texts) (replicate 2560 (f32_of_Z 1))) 1 0), w)) 2560 true None.
Definition demo_files : list IngestFile :=
  [mkIngestFile [x61] (Some (str "front")) (Some (str "a.txt")); mkIngestFile [x62] None (Some (str "../b.txt"))].
Definition demo_sys : Sys (gmap string bytes) Store unit := mkSys ∅ demo_store (mkEmbedder [] true []) tt [].
Definition demo_run (files : list IngestFile) : result IngestOutput IngestFailure * Sys (gmap string bytes) Store unit :=
  ingest_inner (IngestStore0 := @pg_ingest_store plain_aead demo_builder 5) (H := ascii_unicode) demo_magic demo_sha 5
    demo_pipeline 1 None files (Some (str "a note")) false None demo_sys.

Lemma demo_typed : typed demo_pipeline.
Proof. split; [|done]. intros k ex raw w e w' Hk. destruct k; try done. injection Hk as <-. intros [= <- _]. by repeat constructor. Qed.

Lemma demo_run_ok : (demo_run demo_files).1 = Ok (mkIngestOutput 1 [] 2).
Proof. vm_compute. reflexivity. Qed.


(** A tagger that is down. *)
Definition down_pipeline : IngestPipeline unit :=
  mkPipeline (ip_extractors demo_pipeline)
    (λ _ _ w, (Err (mkTagError (str "no healthy backend") (Some LScheduler)), w)) None (f32_of_Z 1) (ip_llm_embed demo_pipeline) 2560 true None.
Definition down_run : result IngestOutput IngestFailure * Sys (gmap string bytes) Store unit :=
  ingest_inner (IngestStore0 := @pg_ingest_store plain_aead demo_builder 5) (H := ascii_unicode) demo_magic demo_sha 5
    down_pipeline 1 None demo_files None false None demo_sys.

Lemma down_run_err : down_run.1 = Err (BackendUnavailable (mkTagError (str "no healthy backend") (Some LScheduler))).
Proof. vm_compute. reflexivity. Qed.
Lemma down_run_eq : down_run = (Err (BackendUnavailable (mkTagError (str "no healthy backend") (Some LScheduler))), down_run.2).
Proof. rewrite <- down_run_err. exact (surjective_pairing down_run). Qed.
Lemma down_typed : typed down_pipeline.
Proof. split; [|done]. intros k ex raw w e w'. apply demo_typed. Qed.

Lemma failed_ingest_keeps_documents_witness : StoreIngest.content (sy_store down_run.2) = StoreIngest.content demo_store.
Proof.
  exact (@failed_ingest_keeps_documents plain_aead demo_builder (gmap string bytes) unit mem_blob ascii_unicode
    demo_magic demo_sha 5 down_pipeline 1 None demo_files None false None demo_sys down_run.2 _ down_run_eq).
Defined.

Lemma ingest_errors_witness :
  failure_ok (H:=ascii_unicode) (B:=gmap string bytes) (S:=Store) (IngestStore0:=@pg_ingest_store plain_aead demo_builder 5) demo_magic demo_sha down_pipeline 1 None demo_files false (BackendUnavailable (mkTagError (str "no healthy backend") (Some LScheduler))).
Proof.
  apply (@ingest_errors (gmap string bytes) Store unit mem_blob pg_tag_store (@pg_ingest_store plain_aead demo_builder 5) ascii_unicode
    demo_magic demo_sha 5 down_pipeline down_typed 1 None demo_files None false None demo_sys down_run.2
    (BackendUnavailable (mkTagError (str "no healthy backend") (Some LScheduler)))).
  - vm_compute. discriminate.
  - exact I.
  - repeat constructor.
  - exact down_run_eq.
Defined.

(** A job whose document is missing. *)
Definition demo_job : Job := mkJob 3 1 None (Some 77) Role.Ingest 0 Running 1 None 0 0 None.
Definition demo_process : result unit chars * Sys (gmap string bytes) Store unit :=
  process_queued_ingest (IngestStore0 := @pg_ingest_store plain_aead demo_builder 5) (QueuedIngestStore0 := @pg_queued_store plain_aead)
    (H := ascii_unicode) (λ _, []) (λ _, []) (λ _, []) demo_magic demo_sha 5 demo_pipeline demo_job false demo_sys.

Lemma demo_process_eq : demo_process = (Err (permanent (str "staged document 77 not found for tenant")), demo_sys).
Proof. reflexivity. Qed.

Lemma queued_ingest_outcomes_witness : marked (permanent (str "staged document 77 not found for tenant")) = true.
Proof.
  assert (Hdb : ∀ e : DbError, unmarked []) by (split; reflexivity).
  assert (Hcanon : ∀ e : CanonError, unmarked []) by (split; reflexivity).
  apply (proj2 (@queued_ingest_outcomes (λ _, []) (λ _, []) (λ _, []) Hdb Hcanon
    (gmap string bytes) Store unit mem_blob pg_tag_store (@pg_ingest_store plain_aead demo_builder 5)
    (@pg_queued_store plain_aead) ascii_unicode
    demo_magic demo_sha 5 demo_pipeline demo_job false demo_sys) _ _ demo_process_eq).
  left. right. exists 77. split; [reflexivity|]. left. exists demo_store. reflexivity.
Defined.

(** ** A short reply among several *)

(** Thirty-three chunks are sent as two batches; the first reply is one vector
    short and the second one too long. *)
Definition short_pipeline : IngestPipeline nat :=
  mkPipeline (λ _, None) (λ _ _ w, (Ok default_tag_output, w)) None (f32_of_Z 1)
    (λ texts _ n, (Ok (mkEmbedResp (if (n =? 0)%nat then replicate 31 [f32_of_Z 1] else [[f32_of_Z 2]; [f32_of_Z 3]]) 1 0), S n))
    1 true None.
Definition many_chunks : list TextChunk := (λ i, mkTextChunk [65 + Z.of_nat i] (Z.of_nat i) None 0 None) <$> seq 0 33.

(** The total is right, so the vectors are taken: the last chunk of the first
    batch gets the vector of another text. *)
Lemma short_reply_misaligns :
  ∃ out s', embed_chunks (B:=unit) (S:=unit) short_pipeline many_chunks 1 None 0 false (mkSys tt tt (mkEmbedder [] true []) 0%nat [])
    = (Ok out, s') ∧ (ch_embedding <$> out) !! 31%nat = Some [f32_of_Z 2].
Proof. eexists _, _. split; [vm_compute; reflexivity|]. vm_compute. reflexivity. Qed.
