(* ===== verification/Retag.v ===== *)
(** * Retagging a document (pipeline/src/ingest.rs, [process_retag_job])

    The model's tags of a document are cleared and proposed anew, the locked
    ones kept.  The operations are those of the document store; the tagger is
    a field of the pipeline. *)

From stdpp Require Import base gmap list sets strings.
From Stdlib Require Import ZArith Lia Strings.Byte.
From S2P Require Import Prelude StableSort FloatModel Text Json Role Blob Envelope ColumnCrypt Schema PgStore StoreInvariant StoreReads StoreIngest Tags DocBuilder IngestText Ingest.
Open Scope Z_scope.

(** The operations of the trait [RetagStore]. *)
Class RetagStore (S : Type) := {
  rs_get_locked_document_tags : Z -> Z -> S -> result (list Z) DbError * S;
  rs_clear_llm_document_tags : Z -> Z -> S -> result Z DbError * S;
  rs_insert_document_tags : Z -> Z -> list Z -> TagSource -> S -> result unit DbError * S;
}.

(** The step that failed, with its cause. *)
Inductive RetagFailure :=
| FetchLocked (e : DbError)
| ClearLlm (e : DbError)
| RetagTagger (e : TagError)
| RetagCanon (e : CanonError)
| InsertLlm (e : DbError)
| InsertLocked (e : DbError)
| RetagPanic.

Record RetagSys (S W : Type) := mkRetag {
  rg_store : S;
  rg_names : Embedder;
  rg_models : W;
}.
Arguments mkRetag {S W}.
Arguments rg_store {S W}.
Arguments rg_names {S W}.
Arguments rg_models {S W}.

(** The ids of both lists, the locked ones first, none twice. *)
Fixpoint merge_ids (all : list Z) (ids : list Z) : list Z :=
  match ids with
  | [] => all
  | id :: ids' => merge_ids (if bool_decide (id ∈ all) then all else all ++ [id]) ids'
  end.

Section Retag.
Context {S W : Type} `{!TagStore S} `{!RetagStore S} `{!Unicode} (p : IngestPipeline W).

Definition retag (A : Type) : Type := RetagSys S W -> result A RetagFailure * RetagSys S W.
#[local] Instance retag_ret : MRet retag := λ A a s, (Ok a, s).
#[local] Instance retag_bind : MBind retag := λ A B k m s,
  match m s with
  | (Ok a, s') => k a s'
  | (Err e, s') => (Err e, s')
  end.
Definition rg_store_call {A} (f : DbError -> RetagFailure) (m : S -> result A DbError * S) : retag A := λ s,
  let (r, st) := m (rg_store s) in
  (match r with Ok a => Ok a | Err e => Err (f e) end, mkRetag st (rg_names s) (rg_models s)).
Definition rg_canon {A} (m : canon A) : retag A := λ s,
  let '(r, (st, em)) := m (rg_store s, rg_names s) in
  (match r with Ok a => Ok a | Err e => Err (RetagCanon e) end, mkRetag st em (rg_models s)).
Definition rg_tag (input : TagInput) (local_only : bool) : retag TagOutput := λ s,
  let (r, w) := tag_with_context_retry (ip_tag p) input local_only (rg_models s) in
  (match r with Ok o => Ok o | Err (TagErr e) => Err (RetagTagger e) | Err TagPanic => Err RetagPanic end,
   mkRetag (rg_store s) (rg_names s) w).
Definition rg_no_panic {A} (o : option A) : retag A := λ s, (match o with Some a => Ok a | None => Err RetagPanic end, s).
(** [if !ids.is_empty() { insert }]. *)
Definition rg_insert (f : DbError -> RetagFailure) (t doc : Z) (ids : list Z) (src : TagSource) : retag unit :=
  match ids with [] => mret tt | _ => rg_store_call f (rs_insert_document_tags t doc ids src) end.

Definition process_retag_job (t : Z) (user : option Z) (doc : Z) (document_text : chars) (local_only : bool) : retag (list Z) :=
  locked_ids ← rg_store_call FetchLocked (rs_get_locked_document_tags t doc);
  rg_store_call ClearLlm (rs_clear_llm_document_tags t doc);;
  let text_budget := (compute_token_budgets (ip_context_tokens p) (Some document_text)).1 in
  text ← rg_no_panic (smart_bound_tagger_text document_text text_budget);
  out ← rg_tag (mkTagInput t user text None KDocument JNull) local_only;
  new_tag_ids ← rg_canon (canonicalize t (ip_threshold p) (to_tags out));
  rg_insert InsertLlm t doc new_tag_ids TsLlm;;
  rg_insert InsertLocked t doc locked_ids TsUser;;
  mret (merge_ids locked_ids new_tag_ids).
End Retag.

#[global] Instance pg_retag_store : RetagStore Store := {|
  rs_get_locked_document_tags := get_locked_document_tags;
  rs_clear_llm_document_tags := clear_llm_document_tags;
  rs_insert_document_tags := insert_document_tags;
|}.

(** ** Merging ids *)

Lemma merge_ids_elem all ids x : x ∈ merge_ids all ids <-> x ∈ all ∨ x ∈ ids.
Proof.
  revert all. induction ids as [|i ids IH]; intros all; cbn [merge_ids]; [set_solver|]. rewrite IH.
  case_bool_decide; set_solver.
Qed.

Lemma merge_ids_NoDup all ids : NoDup all -> NoDup (merge_ids all ids).
Proof.
  revert all. induction ids as [|i ids IH]; intros all Hall; cbn [merge_ids]; [done|]. apply IH.
  case_bool_decide as Hi; [done|]. apply NoDup_app. split_and!; [done|set_solver|apply NoDup_singleton].
Qed.

(** ** The tags after each step *)

Section Effects.
Context (t doc : Z).

(** The link between the document and a tag. *)
Definition tag_link (s : Store) (tag : Z) : option DocTag := doc_tags (st_db s) !! (doc, tag).
(** The links of the other documents. *)
Definition others_kept (s s' : Store) : Prop :=
  ∀ k, k.1 <> doc -> doc_tags (st_db s') !! k = doc_tags (st_db s) !! k.

Lemma get_locked_ok (s : Store) ids s' : get_locked_document_tags t doc s = (Ok ids, s') ->
  doc_visible (st_db s) t doc = true ->
  s' = s ∧ NoDup ids ∧ ∀ tag, tag ∈ ids <-> ∃ dt, tag_link s tag = Some dt ∧ dt_locked dt = true.
Proof.
  intros [_ [= <- <-]]%tx_ok Hv. split; [done|].
  set (m := filter _ (doc_tags (st_db s))).
  assert (Hin : ∀ d tag dt, ((d, tag), dt) ∈ map_to_list m <-> d = doc ∧ tag_link s tag = Some dt ∧ dt_locked dt = true).
  { intros d tag dt. rewrite elem_of_map_to_list. unfold m, tag_link. rewrite map_lookup_filter_Some. unfold own_doc_tag. simpl.
    rewrite !andb_true_iff, Z.eqb_eq. naive_solver. }
  split.
  - apply (NoDup_fmap_2_strong _ (map_to_list m)); [|apply NoDup_map_to_list].
    intros [[d1 g1] dt1] [[d2 g2] dt2] H1%Hin H2%Hin. simpl. naive_solver.
  - intros tag. rewrite list_elem_of_fmap. split.
    + intros ([[d g] dt] & -> & (-> & ? & ?)%Hin). by exists dt.
    + intros (dt & H1 & H2). exists ((doc, tag), dt). split; [done|]. by apply Hin.
Qed.

Lemma clear_llm_ok (s : Store) n s' : clear_llm_document_tags t doc s = (Ok n, s') ->
  doc_visible (st_db s) t doc = true ->
  StoreIngest.content s' = StoreIngest.content s ∧ others_kept s s' ∧
  ∀ tag, tag_link s' tag = dt ← tag_link s tag; if unlocked_llm dt then None else Some dt.
Proof.
  intros [_ (db & [= _ <-] & ->)%stmt_ok]%tx_ok Hv. split; [done|]. unfold others_kept, tag_link. cbn.
  split; [intros k Hk|intros tag]; apply option_eq; intros dt; rewrite map_lookup_filter_Some; unfold own_doc_tag; cbn.
  - destruct (Z.eqb_spec k.1 doc); [done|]. simpl. naive_solver.
  - rewrite Z.eqb_refl, Hv. simpl. destruct (doc_tags (st_db s) !! (doc, tag)) as [dt'|]; simpl; [|naive_solver].
    split; [intros [[= ->] H]; by destruct (unlocked_llm dt)|].
    destruct (unlocked_llm dt') eqn:E; [done|]. intros [= <-]. by rewrite E.
Qed.

Lemma link_all_spec (dt : DocTag) (tl : list Z) (m : gmap (Z * Z) DocTag) (k : Z * Z) :
  foldr (λ tag m, <[(doc, tag) := dt]> m) m tl !! k = if decide (k.1 = doc ∧ k.2 ∈ tl) then Some dt else m !! k.
Proof.
  induction tl as [|tag tl IH]; cbn [foldr]; [case_decide; [set_solver|done]|].
  destruct (decide (k = (doc, tag))) as [->|Hne].
  - rewrite lookup_insert_eq, decide_True; [done|set_solver].
  - rewrite lookup_insert_ne, IH by done. destruct k as [d g]. apply decide_ext. simpl in *. rewrite elem_of_cons.
    split; [tauto|]. intros [-> [->|]]; [done|tauto].
Qed.

Lemma insert_tags_ok (s : Store) ids src s' : insert_document_tags t doc ids src s = (Ok tt, s') ->
  StoreIngest.content s' = StoreIngest.content s ∧ others_kept s s' ∧
  ∀ tag, tag_link s' tag = if decide (tag ∈ ids) then Some (mkDocTag src (bool_decide (src = TsUser))) else tag_link s tag.
Proof.
  destruct ids as [|i l]; [intros [= <-]; split_and!; [done|done|intros; by rewrite decide_False by set_solver]|].
  intros [_ (db & E & ->)%stmt_ok]%tx_ok. destruct (doc_visible _ _ _); [|done]. destruct (forallb _ _); [|done].
  destruct (bool_decide (NoDup _)); [|done]. injection E as <-. split; [done|]. unfold others_kept, tag_link.
  split; [intros k Hk|intros tag];
    (etrans; [apply (link_all_spec (mkDocTag src (bool_decide (src = TsUser))) (i :: l) (doc_tags (st_db s)))|]).
  - rewrite decide_False by tauto. done.
  - apply decide_ext. simpl. tauto.
Qed.

(** A statement on the links leaves the tags and their aliases alone. *)
Definition names_of (s : Store) : gmap Z TagRow * gmap (Z * chars) Z := (tags (st_db s), aliases (st_db s)).

Lemma insert_tags_names (s : Store) ids src s' : insert_document_tags t doc ids src s = (Ok tt, s') -> names_of s' = names_of s.
Proof.
  destruct ids as [|i l]; [by intros [= <-]|]. intros [_ (db & E & ->)%stmt_ok]%tx_ok.
  destruct (doc_visible _ _ _); [|done]. destruct (forallb _ _); [|done]. destruct (bool_decide (NoDup _)); [|done].
  by injection E as <-.
Qed.
End Effects.

(** ** The whole job *)

Section Job.
Context {W : Type} `{!Unicode} (p : IngestPipeline W).
#[local] Existing Instances retag_ret retag_bind.
Notation sys := (RetagSys Store W).

Lemma rg_bind_ok {A C} (m : retag A) (k : A -> retag C) (s : sys) c s' : (m ≫= k) s = (Ok c, s') ->
  ∃ a s1, m s = (Ok a, s1) ∧ k a s1 = (Ok c, s').
Proof. unfold mbind, retag_bind. destruct (m s) as [[a|e] s1]; [eauto|done]. Qed.

Lemma rg_store_ok {A} f (m : Store -> result A DbError * Store) (s : sys) a s' : rg_store_call f m s = (Ok a, s') ->
  m (rg_store s) = (Ok a, rg_store s') ∧ rg_names s' = rg_names s ∧ rg_models s' = rg_models s.
Proof. unfold rg_store_call. destruct (m _) as [[?|?] st]; intros; by simplify_eq/=. Qed.

Lemma rg_insert_ok f t doc ids src (s s' : sys) : rg_insert f t doc ids src s = (Ok tt, s') ->
  insert_document_tags t doc ids src (rg_store s) = (Ok tt, rg_store s') ∧
  rg_names s' = rg_names s ∧ rg_models s' = rg_models s.
Proof. destruct ids; [by intros [= <-]|apply rg_store_ok]. Qed.

Lemma rg_no_panic_ok {A} (o : option A) (s : sys) a s' : rg_no_panic o s = (Ok a, s') -> o = Some a ∧ s' = s.
Proof. unfold rg_no_panic. destruct o; intros; by simplify_eq. Qed.

Lemma rg_tag_ok input lo (s : sys) out s' : rg_tag p input lo s = (Ok out, s') ->
  tag_with_context_retry (ip_tag p) input lo (rg_models s) = (Ok out, rg_models s') ∧
  rg_store s' = rg_store s ∧ rg_names s' = rg_names s.
Proof. unfold rg_tag. destruct (tag_with_context_retry _ _ _ _) as [[o|[]] w]; intros; by simplify_eq/=. Qed.

Lemma rg_canon_ok t threshold raws (s : sys) new s' : rg_canon (canonicalize t threshold raws) s = (Ok new, s') ->
  canonicalize t threshold raws (rg_store s, rg_names s) = (Ok new, (rg_store s', rg_names s')) ∧
  tables_kept (rg_store s) (rg_store s') ∧ rg_models s' = rg_models s.
Proof.
  unfold rg_canon. intros Hrun.
  pose proof (canonicalize_keeps (S:=Store) tables_kept t threshold raws (rg_store s) (rg_names s)) as Hk.
  destruct (canonicalize _ _ _ _) as [[?|?] [st em]]; by simplify_eq/=.
Qed.

(** The link of a tag once the job is done. *)
Definition retagged (locked new : list Z) (old : option DocTag) (tag : Z) : option DocTag :=
  if decide (tag ∈ locked) then Some (mkDocTag TsUser true)
  else if decide (tag ∈ new) then Some (mkDocTag TsLlm false)
  else dt ← old; if unlocked_llm dt then None else Some dt.

(** The tags the model proposes for the text: its answer on the text cut to the
    token budget, canonicalized in the run's own store once the document's
    earlier tags are cleared. What the canonicalizer makes of the tags and
    aliases is what the run leaves of them. *)
Definition proposed (t : Z) (user : option Z) (doc : Z) (document_text : chars) (lo : bool) (new : list Z) (s s' : sys) : Prop :=
  ∃ text out st',
    smart_bound_tagger_text document_text (compute_token_budgets (ip_context_tokens p) (Some document_text)).1 = Some text ∧
    tag_with_context_retry (ip_tag p) (mkTagInput t user text None KDocument JNull) lo (rg_models s) = (Ok out, rg_models s') ∧
    canonicalize t (ip_threshold p) (to_tags out) ((clear_llm_document_tags t doc (rg_store s)).2, rg_names s)
      = (Ok new, (st', rg_names s')) ∧
    names_of (rg_store s') = names_of st'.

(** C27. A retag job that succeeds on a document of the tenant leaves the
    document, its files and chunks and the tags of every other document as
    they were; tags and aliases of the tenant are added only as the
    canonicalizer adds them for the names the model proposes (its answer on
    the text cut to the token budget). Of the document's own tags, those that
    were locked are the user's and locked, the proposed ones that were not
    locked are the model's and unlocked, the model's earlier unlocked tags
    are gone, and all others keep their links. The ids returned are those of
    the locked and of the proposed tags, each once, and each is linked. *)
Theorem retag_exact t user doc document_text lo (s s' : sys) ids :
  doc_visible (st_db (rg_store s)) t doc = true ->
  process_retag_job p t user doc document_text lo s = (Ok ids, s') ->
  StoreIngest.content (rg_store s') = StoreIngest.content (rg_store s) ∧
  others_kept doc (rg_store s) (rg_store s') ∧
  ∃ locked new,
    (∀ tag, tag ∈ locked <-> ∃ dt, tag_link doc (rg_store s) tag = Some dt ∧ dt_locked dt = true) ∧
    proposed t user doc document_text lo new s s' ∧
    (∀ tag, tag_link doc (rg_store s') tag = retagged locked new (tag_link doc (rg_store s) tag) tag) ∧
    NoDup ids ∧ (∀ tag, tag ∈ ids <-> tag ∈ locked ∨ tag ∈ new) ∧
    ∀ tag, tag ∈ ids -> is_Some (tag_link doc (rg_store s') tag).
Proof.
  intros Hv. unfold process_retag_job.
  intros (locked & s1 & [E1 [N1 M1]]%rg_store_ok & Hrun)%rg_bind_ok.
  apply rg_bind_ok in Hrun as (n & s2 & [E2 [N2 M2]]%rg_store_ok & Hrun).
  apply rg_bind_ok in Hrun as (text & s3 & Htext & Hrun).
  apply rg_bind_ok in Hrun as (out & s4 & Hout & Hrun).
  apply rg_bind_ok in Hrun as (new & s5 & Hnew & Hrun).
  apply rg_bind_ok in Hrun as ([] & s6 & [E3 [N3 M3]]%rg_insert_ok & Hrun).
  apply rg_bind_ok in Hrun as ([] & s7 & [E4 [N4 M4]]%rg_insert_ok & [= <- <-]).
  apply get_locked_ok in E1 as (S1 & Hnd & Hlocked); [|done].
  cbn [rs_clear_llm_document_tags pg_retag_store] in E2. rewrite S1 in E2. pose proof E2 as E2'. apply clear_llm_ok in E2 as (C2 & O2 & L2); [|done].
  apply rg_no_panic_ok in Htext as [Htext ->]. apply rg_tag_ok in Hout as (Hout & S4 & N5).
  apply rg_canon_ok in Hnew as (Hnew & (C5 & T5 & _) & M5). rewrite S4 in C5, T5.
  pose proof (insert_tags_names _ _ _ _ _ _ E3) as T6. pose proof (insert_tags_names _ _ _ _ _ _ E4) as T7.
  apply insert_tags_ok in E3 as (C6 & O6 & L6). apply insert_tags_ok in E4 as (C7 & O7 & L7).
  assert (Hlink : ∀ tag, tag_link doc (rg_store s7) tag = retagged locked new (tag_link doc (rg_store s) tag) tag).
  { intros tag. rewrite L7, L6. unfold retagged. destruct (decide (tag ∈ locked)); [done|].
    destruct (decide (tag ∈ new)); [done|]. unfold tag_link at 1. rewrite T5. apply L2. }
  split; [congruence|]. split.
  { intros k Hk. rewrite O7, O6, T5, O2 by done. done. }
  exists locked, new. split_and!; [done| |done|by apply merge_ids_NoDup|apply merge_ids_elem|].
  - exists text, out, (rg_store s5). rewrite E2', <- S4. cbn [snd]. split_and!; congruence.
  - intros tag [Hi|Hi]%merge_ids_elem; rewrite Hlink; unfold retagged; destruct (decide (tag ∈ locked)); [done| |done|];
    destruct (decide (tag ∈ new)); done.
Qed.
End Job.

(** ** Concrete runs *)

(** Document 1 carries the tags [links]; the tag 5 is "invoice". *)
Definition retag_store (links : gmap (Z * Z) DocTag) : Store :=
  set_db demo_store (with_doc_tags (λ _, links) (with_aliases <[(1, str "Invoice") := 5]> (st_db (sy_store (demo_run demo_files).2)))).
Definition retag_pipeline (names : list chars) : IngestPipeline unit :=
  mkPipeline (λ _, None) (λ _ _ w, (Ok (mkTagOutput (str "T") (str "S") names), w)) None (f32_of_Z 1)
    (ip_llm_embed demo_pipeline) 2560 true None.
Definition demo_retag (names : list chars) (links : gmap (Z * Z) DocTag) : result (list Z) RetagFailure * RetagSys Store unit :=
  process_retag_job (H := ascii_unicode) (retag_pipeline names) 1 None 1 (str "hello") false
    (mkRetag (retag_store links) demo_embedder tt).

Definition links_locked : gmap (Z * Z) DocTag := {[(1, 5) := mkDocTag TsUser true]}.
Definition links_llm : gmap (Z * Z) DocTag := {[(1, 5) := mkDocTag TsLlm false]}.

Definition locked_run : result (list Z) RetagFailure * RetagSys Store unit := demo_retag [str "Machine-Learning"] links_locked.
#[local] Strategy expand [locked_run demo_retag].
Lemma locked_run_ok : locked_run.1 = Ok [5; 9].
Proof. vm_compute. reflexivity. Qed.
Lemma locked_run_eq : locked_run = (Ok [5; 9], locked_run.2).
Proof. rewrite <- locked_run_ok. exact (surjective_pairing locked_run). Qed.

Lemma retag_exact_witness :
  tag_link 1 (rg_store locked_run.2) 5 = Some (mkDocTag TsUser true) ∧ is_Some (tag_link 1 (rg_store locked_run.2) 9).
Proof.
  destruct (@retag_exact unit ascii_unicode (retag_pipeline [str "Machine-Learning"]) 1 None 1 (str "hello") false
    (mkRetag (retag_store links_locked) demo_embedder tt) locked_run.2 [5; 9])
    as (_ & _ & locked & new & Hlocked & _ & Hlinks & _ & _ & Hall); [vm_compute; reflexivity|exact locked_run_eq|].
  split; [|apply Hall; by do 2 constructor]. rewrite Hlinks. unfold retagged.
  destruct (decide (5 ∈ locked)) as [_|Hn]; [reflexivity|]. destruct Hn.
  apply Hlocked. exists (mkDocTag TsUser true). split; reflexivity.
Defined.

(** Two names the model gives for one tag make the insert fail, after the
    model's earlier tags are gone. *)
Lemma duplicate_tag_loses_links :
  (demo_retag [str "Invoice"; str "Invoice"] links_llm).1 = Err (InsertLlm RowTwice) ∧
  tag_link 1 (retag_store links_llm) 5 = Some (mkDocTag TsLlm false) ∧
  tag_link 1 (rg_store (demo_retag [str "Invoice"; str "Invoice"] links_llm).2) 5 = None.
Proof. vm_compute. done. Qed.

(** Writing the model's tags takes the lock of a locked tag it proposes; only
    the last step puts it back. *)
Lemma llm_insert_unlocks t doc tag (s s' : Store) : tag_link doc s tag = Some (mkDocTag TsUser true) ->
  insert_document_tags t doc [tag] TsLlm s = (Ok tt, s') -> tag_link doc s' tag = Some (mkDocTag TsLlm false).
Proof. intros _ (_ & _ & E)%insert_tags_ok. rewrite E, decide_True by set_solver. done. Qed.
