(* ===== verification/RequestGate.v ===== *)
(** * The request gate (api/src/middleware.rs, api/src/billing_cache.rs)

    What a request passes before a handler runs: the credential, the e-mail
    gate, the rate limiters, and the idempotency store in front of uploads.
    The inner stack is an argument; the requests it was run with, and its
    answers, are kept in a log of the state.

    Monotonic time is in nanoseconds, the wall clock in microseconds.  A
    request reads the monotonic clock when it enters and, when it stores a
    response, when the handler is done.  The [http] and [axum] types are
    parameters. *)

From stdpp Require Import base gmap list strings sorting.
From Stdlib Require Import ZArith Lia Strings.Byte.
From S2P Require Import Prelude StableSort FloatModel Text Json Role Quota Blob Schema Auth Sessions DocBuilder Guards.
Open Scope Z_scope.

(** ** HTTP *)

Notation HeaderValue := (list byte).
(** [HeaderValue::from_static]. *)
Definition from_static (s : string) : HeaderValue := str_bytes (str s).

(** The calls of [http], [axum] and [serde_json]: a header value as text
    ([to_str]), a header value from text ([from_str]), a body from bytes, the
    bytes of a body up to a limit, and a JSON value as text. *)
Class Http := {
  Body : Type;
  hv_to_str : HeaderValue -> option chars;
  hv_from_str : chars -> option HeaderValue;
  body_from : bytes -> Body;
  to_bytes : Z -> Body -> option bytes;
  json_to_string : Json.json -> chars;
}.

Record AuthUser := mkAuthUser {
  au_tenant : Z;
  au_user : Z;
  au_role : UserRole;
  au_verified : bool;
}.
Definition auth_user (info : SessionInfo) : AuthUser :=
  mkAuthUser (si_tenant info) (si_user info) (si_role info) (si_verified info).

(** [rq_header] is [headers().get]; [rq_user] the extension. *)
Record Request := mkRequest {
  rq_method : string;
  rq_path : chars;
  rq_header : string -> option HeaderValue;
  rq_user : option AuthUser;
}.
Definition with_user (user : AuthUser) (rq : Request) : Request :=
  mkRequest (rq_method rq) (rq_path rq) (rq_header rq) (Some user).

(** ** Sliding logs of hits *)

Definition SECOND : Z := 1000000000.

(** The three limiters keep, per key, the times of the hits they granted. *)
Notation Limiter K := (gmap K (list Z)).

Definition recent (cutoff : Z) (hits : list Z) : list Z := filter (λ t : Z, cutoff < t) hits.
Definition oldest (now : Z) (hits : list Z) : Z :=
  match hits with [] => now | t :: ts => foldl Z.min t ts end.
Definition retry_after (window now : Z) (hits : list Z) : Z :=
  let elapsed := Z.max 0 (now - oldest now hits) / SECOND in
  Z.max 1 (Z.max 0 (window / SECOND - elapsed)).

Definition limiter_check {K} `{Countable K} (window max : Z) (k : K) (now : Z) (l : Limiter K) : result unit Z * Limiter K :=
  let attempts := recent (now - window) (default [] (l !! k)) in
  if max <=? Z.of_nat (length attempts)
  then (Err (retry_after window now attempts), <[k := attempts]> l)
  else (Ok tt, <[k := attempts ++ [now]]> l).

Definition limiter_prune {K} `{Countable K} (window now : Z) (l : Limiter K) : Limiter K :=
  omap (λ hits, match recent (now - window) hits with [] => None | hits => Some hits end) l.

Definition RATE_WINDOW : Z := 60 * SECOND.
Definition TOKEN_MAX_REQUESTS : Z := 100.

#[global] Instance ip_addr_countable : Countable IpAddr.
Proof.
  refine (inj_countable'
    (λ ip, match ip with V4 a b c d => inl (a, b, c, d) | V6 s => inr s end)
    (λ x, match x with inl (a, b, c, d) => V4 a b c d | inr s => V6 s end) _).
  by intros [].
Defined.

(** ** Headers *)

Section Headers.
Context `{!Http}.

Definition header_str (name : string) (rq : Request) : option chars := rq_header rq name ≫= hv_to_str.

Definition MAX_REQUEST_ID_LEN : nat := 200.
Definition is_ascii_graphic (c : Z) : bool := (33 <=? c) && (c <=? 126).
(** [fresh] is the new UUID. *)
Definition resolve_request_id (fresh : chars) (rq : Request) : chars :=
  match header_str "x-request-id" rq with
  | Some raw =>
      let candidate := trim raw in
      if negb (bool_decide (candidate = [])) && (str_len candidate <=? MAX_REQUEST_ID_LEN)%nat
         && forallb (λ b : Z, is_ascii_graphic b || (b =? 32)) (as_bytes candidate) && negb (contains_char 32 candidate)
      then candidate else fresh
  | None => fresh
  end.

Definition extract_bearer_token (rq : Request) : option chars :=
  auth_header ← header_str "authorization" rq;
  remainder ← match strip_prefix (str "Bearer ") auth_header with
              | Some r => Some r
              | None => strip_prefix (str "bearer ") auth_header
              end;
  not_empty (trim remainder).

(** [str::split_once]. *)
Fixpoint split_once (c : Z) (s : chars) : option (chars * chars) :=
  match s with
  | [] => None
  | x :: s' => if x =? c then Some ([], s') else (λ p : chars * chars, (x :: p.1, p.2)) <$> split_once c s'
  end.
Definition session_pair (pair : chars) : option chars :=
  nv ← split_once 61 (trim pair);
  if bool_decide (trim nv.1 = str "__Host-session") then not_empty (trim nv.2) else None.
Fixpoint first_some {A B} (f : A -> option B) (l : list A) : option B :=
  match l with [] => None | a :: l' => match f a with Some b => Some b | None => first_some f l' end end.
Definition extract_session_cookie (rq : Request) : option chars :=
  cookie_header ← header_str "cookie" rq;
  first_some session_pair (split_char 59 cookie_header).

Definition is_api_path (path : chars) : bool := starts_with (str "/api/") path.

Definition extract_client_ip (rq : Request) : IpAddr :=
  match (forwarded ← header_str "x-forwarded-for" rq; first ← head (split_char 44 forwarded); parse_ip (trim first)) with
  | Some ip => ip
  | None => default (V4 127 0 0 1) (header_str "x-real-ip" rq ≫= parse_ip)
  end.

Definition extract_idempotency_key (rq : Request) : option chars := header_str "idempotency-key" rq ≫= not_empty.
Definition idempotency_key_for_user (user : AuthUser) (raw_key : chars) : chars :=
  show_int (au_tenant user) ++ str ":" ++ show_int (au_user user) ++ str ":" ++ raw_key.
End Headers.

(** [str::parse::<usize>]. *)
Fixpoint parse_digits (acc : Z) (s : chars) : option Z :=
  match s with
  | [] => Some acc
  | c :: s' =>
      if is_ascii_digit c
      then let acc := acc * 10 + (c - 48) in if acc <=? ity_max usize then parse_digits acc s' else None
      else None
  end.
Definition parse_usize (s : chars) : option Z :=
  match s with
  | [] => None
  | c :: s' => if c =? 43 then (if bool_decide (s' = []) then None else parse_digits 0 s') else parse_digits 0 s
  end.
Definition parse_login_rate_max_attempts (raw : option chars) : Z :=
  match raw ≫= parse_usize with
  | Some n => if 0 <? n then n else 5
  | None => 5
  end.

(** ** Billing look-ups, cached for a minute *)

Definition TTL : Z := 60 * SECOND.
Record Entry := mkEntry {
  en_rate_cap : option Z;
  en_remote_models_allowed : option bool;
  en_at : Z;
}.
Definition fresh_entry (now : Z) (e : Entry) : bool := Z.max 0 (now - en_at e) <? TTL.
Definition get_at (now tenant : Z) (cache : gmap Z Entry) : option (option Z * option bool) :=
  e ← cache !! tenant;
  if fresh_entry now e then Some (en_rate_cap e, en_remote_models_allowed e) else None.
Definition prune_at (now : Z) (cache : gmap Z Entry) : gmap Z Entry := filter (λ ke, fresh_entry now ke.2 = true) cache.

(** The plans' database; [None] when it cannot be reached. *)
Notation Plans := (option Quota.db).
Definition resolve_rate_cap_cached (now : Z) (plans : Plans) (tenant : Z) (cache : gmap Z Entry)
    : result (option Z) unit * gmap Z Entry :=
  match get_at now tenant cache with
  | Some (rate_cap, _) => (Ok rate_cap, cache)
  | None =>
      match plans with
      | None => (Err tt, cache)
      | Some d =>
          let plan := Quota.get_tenant_billing d tenant ≫= id in
          let rate_cap := plan ≫= per_minute_rate_cap in
          let remote := Quota.remote_models_allowed <$> plan in
          (Ok rate_cap, <[tenant := mkEntry rate_cap remote now]> cache)
      end
  end.
Definition is_remote_models_allowed_cached (now : Z) (plans : Plans) (tenant : Z) (cache : gmap Z Entry) : bool :=
  match get_at now tenant cache with
  | Some (_, Some allowed) => allowed
  | _ => match plans with Some d => Quota.is_remote_models_allowed d tenant | None => false end
  end.

(** ** Responses *)

Section Gate.
Context `{!Http}.

Record Response := mkResponse {
  rs_status : Z;
  rs_headers : gmap string HeaderValue;
  rs_body : Body;
}.
Definition is_success (status : Z) : bool := (200 <=? status) && (status <? 300).

Definition error_body (error message : chars) : Body :=
  body_from (str_bytes (json_to_string (jobj [("error", JString error); ("message", JString message)]))).
Definition auth_error_response (status : Z) (error message : string) : Response :=
  mkResponse status {["content-type" := from_static "application/json"]} (error_body (str error) (str message)).
Definition retry_header (retry : Z) : HeaderValue := default (from_static "60") (hv_from_str (show_int retry)).
Definition rate_limit_response (retry : Z) : Response :=
  mkResponse 429 (<["content-type" := from_static "application/json"]> {["retry-after" := retry_header retry]})
    (error_body (str "rate_limited") (str "Too many requests. Please try again in " ++ show_int retry ++ str "s.")).
Definition login_limited_response (retry : Z) : Response :=
  mkResponse 429 {["retry-after" := retry_header retry]}
    (body_from (str_bytes (
       [123; 34] ++ str "error" ++ [34; 58; 34] ++ str "rate_limited" ++ [34; 44; 34] ++ str "message" ++ [34; 58; 34]
       ++ str "Too many login attempts. Please try again in " ++ show_int retry ++ str "s." ++ [34; 125]))).

Definition is_html (v : HeaderValue) : bool := has_prefix (from_static "text/html") v.
Definition add_private_cache_control_if_html (r : Response) : Response :=
  match rs_headers r !! "content-type" with
  | Some v => if is_html v
              then mkResponse (rs_status r) (<["cache-control" := from_static "private, no-store"]> (rs_headers r)) (rs_body r)
              else r
  | None => r
  end.

(** ** The idempotency store *)

Definition IDEMPOTENCY_TTL : Z := 86400 * SECOND.
Definition MAX_CACHED_BODY : Z := 1024 * 1024.

Record CachedIdempotentResponse := mkCached {
  ci_status : Z;
  ci_content_type : option chars;
  ci_body : bytes;
  ci_created_at : Z;
}.
Notation IdempotencyStore := (gmap chars CachedIdempotentResponse).

Definition idem_prune (now : Z) (m : IdempotencyStore) : IdempotencyStore :=
  filter (λ kc, now - IDEMPOTENCY_TTL < ci_created_at kc.2) m.
Definition idem_get (now : Z) (key : chars) (m : IdempotencyStore) : option CachedIdempotentResponse * IdempotencyStore :=
  let m := idem_prune now m in (m !! key, m).

Definition replay (c : CachedIdempotentResponse) : Response :=
  mkResponse (ci_status c)
    (match ci_content_type c ≫= hv_from_str with Some v => {["content-type" := v]} | None => ∅ end)
    (body_from (ci_body c)).
(** The entry kept for a response, and the response rebuilt from its parts. *)
Definition keep_response (done : Z) (r : Response) : CachedIdempotentResponse * Response :=
  let body := default [] (to_bytes MAX_CACHED_BODY (rs_body r)) in
  (mkCached (rs_status r) (rs_headers r !! "content-type" ≫= hv_to_str) body done,
   mkResponse (rs_status r) (rs_headers r) (body_from body)).

(** ** The state of the server *)

Context {S T W : Type}.

(** What handlers work on: the stores, the plans, and the rest. *)
Record App := mkApp {
  a_sessions : S;
  a_tokens : option T;
  a_plans : Plans;
  a_session_ttl : Z;
  a_world : W;
}.
(** A run of the inner stack. *)
Record Served := mkServed {
  sv_request : Request;
  sv_response : Response;
  sv_started : Z;
  sv_done : Z;
}.
Record Gate := mkGate {
  g_app : App;
  g_token_hits : Limiter chars;
  g_plan_hits : Limiter Z;
  g_cache : gmap Z Entry;
  g_idem : IdempotencyStore;
  g_served : list Served;
}.
Definition with_app (f : App -> App) (g : Gate) : Gate :=
  mkGate (f (g_app g)) (g_token_hits g) (g_plan_hits g) (g_cache g) (g_idem g) (g_served g).
Definition with_idem (m : IdempotencyStore) (g : Gate) : Gate :=
  mkGate (g_app g) (g_token_hits g) (g_plan_hits g) (g_cache g) m (g_served g).

Record Tick := mkTick { tk_utc : Z; tk_mono : Z; tk_done : Z }.

(** [validate_token] of the trait [ApiTokenStore]. *)
Class TokenValidator (T' : Type) := {
  tv_validate : Z -> chars -> T' -> result (option SessionInfo) SessError * T';
}.
End Gate.
Arguments App : clear implicits.
Arguments Gate {_} S T W.
Arguments Served {_}.

(** ** The middleware *)

Section Middleware.
Context `{!Http} {S T W : Type} `{!SessionStore S} `{!TokenValidator T} (next : Request -> App S T W -> Response * App S T W).

Definition run_next (tick : Tick) (rq : Request) (g : Gate S T W) : Response * Gate S T W :=
  let (resp, app) := next rq (g_app g) in
  (resp, mkGate app (g_token_hits g) (g_plan_hits g) (g_cache g) (g_idem g)
           (g_served g ++ [mkServed rq resp (tk_mono tick) (tk_done tick)])).

Definition is_ingest (rq : Request) : bool :=
  bool_decide (rq_method rq = "POST") && bool_decide (rq_path rq = str "/api/ingest").
(** The key a request stores its response under. *)
Definition scoped_key (rq : Request) : option chars :=
  if is_ingest rq
  then key ← extract_idempotency_key rq; user ← rq_user rq; Some (idempotency_key_for_user user key)
  else None.

Definition run_maybe_idempotent (tick : Tick) (rq : Request) (g : Gate S T W) : Response * Gate S T W :=
  match scoped_key rq with
  | None => run_next tick rq g
  | Some key =>
      let (cached, idem) := idem_get (tk_mono tick) key (g_idem g) in
      let g := with_idem idem g in
      match cached with
      | Some c => (replay c, g)
      | None =>
          let (resp, g) := run_next tick rq g in
          if negb (is_success (rs_status resp)) then (resp, g)
          else
            let (entry, resp) := keep_response (tk_done tick) resp in
            (resp, with_idem (<[key := entry]> (g_idem g)) g)
      end
  end.

Definition with_token_hits (l : Limiter chars) (g : Gate S T W) : Gate S T W :=
  mkGate (g_app g) l (g_plan_hits g) (g_cache g) (g_idem g) (g_served g).
Definition token_gate (tick : Tick) (token : chars) (rq : Request) (g : Gate S T W) : result unit Z * Gate S T W :=
  if is_api_path (rq_path rq)
  then let (r, l) := limiter_check RATE_WINDOW TOKEN_MAX_REQUESTS token (tk_mono tick) (g_token_hits g) in (r, with_token_hits l g)
  else (Ok tt, g).

(** A cap of zero and a failed look-up let the request pass. *)
Definition plan_gate (tick : Tick) (tenant : Z) (rq : Request) (g : Gate S T W) : result unit Z * Gate S T W :=
  if is_api_path (rq_path rq)
  then
    let (cap, cache) := resolve_rate_cap_cached (tk_mono tick) (a_plans (g_app g)) tenant (g_cache g) in
    let pass := λ r l, (r, mkGate (g_app g) (g_token_hits g) l cache (g_idem g) (g_served g)) in
    match cap with
    | Ok (Some cap) =>
        if 0 <? cap
        then let (r, l) := limiter_check RATE_WINDOW cap tenant (tk_mono tick) (g_plan_hits g) in pass r l
        else pass (Ok tt) (g_plan_hits g)
    | _ => pass (Ok tt) (g_plan_hits g)
    end
  else (Ok tt, g).

Definition authorize (tick : Tick) (user : AuthUser) (token : option chars) (rq : Request) (g : Gate S T W) : Response * Gate S T W :=
  let rq := with_user user rq in
  if negb (au_verified user) && is_api_path (rq_path rq)
  then (auth_error_response 403 "email_not_verified" "Email verification required to access this resource", g)
  else
    let (r, g) := match token with Some tok => token_gate tick tok rq g | None => (Ok tt, g) end in
    match r with
    | Err retry => (rate_limit_response retry, g)
    | Ok tt =>
        let (r, g) := plan_gate tick (au_tenant user) rq g in
        match r with
        | Err retry => (rate_limit_response retry, g)
        | Ok tt =>
            let (resp, g) := run_maybe_idempotent tick rq g in (add_private_cache_control_if_html resp, g)
        end
    end.

Definition bearer_auth (tick : Tick) (token : chars) (g : Gate S T W) : option AuthUser * Gate S T W :=
  match a_tokens (g_app g) with
  | None => (None, g)
  | Some store =>
      let (r, store) := tv_validate (tk_utc tick) token store in
      let g := with_app (λ a, mkApp (a_sessions a) (Some store) (a_plans a) (a_session_ttl a) (a_world a)) g in
      match r with
      | Ok (Some info) => (Some (auth_user info), g)
      | _ => (None, g)
      end
  end.
(** The session slides even when the request is refused afterwards. *)
Definition slide_session (tick : Tick) (token : chars) (g : Gate S T W) : Gate S T W :=
  with_app (λ a, mkApp (ss_extend (tk_utc tick) token (a_session_ttl a) (a_sessions a)).2 (a_tokens a) (a_plans a)
                   (a_session_ttl a) (a_world a)) g.

Definition auth_middleware (tick : Tick) (rq : Request) (g : Gate S T W) : Response * Gate S T W :=
  match extract_bearer_token rq with
  | Some token =>
      let (user, g) := bearer_auth tick token g in
      match user with
      | Some user => authorize tick user (Some token) rq g
      | None => (auth_error_response 401 "unauthorized" "Invalid or expired API token", g)
      end
  | None =>
      match extract_session_cookie rq with
      | None => (auth_error_response 401 "unauthorized" "Authentication required", g)
      | Some token =>
          match ss_validate (tk_utc tick) token (a_sessions (g_app g)) with
          | Ok (Some info) => authorize tick (auth_user info) None rq (slide_session tick token g)
          | Ok None => (auth_error_response 401 "unauthorized" "Invalid or expired session", g)
          | Err _ => (auth_error_response 401 "unauthorized" "Authentication required", g)
          end
      end
  end.

(** [require_email_verified_middleware]: the status alone when it refuses. *)
Definition require_email_verified {X A} (inner : Request -> X -> A * X) (rq : Request) (x : X) : result A Z * X :=
  if default false (au_verified <$> rq_user rq) then let (a, x) := inner rq x in (Ok a, x) else (Err 403, x).

(** [spawn_cleanup_task]: one round. *)
Definition cleanup (now : Z) (g : Gate S T W) : Gate S T W :=
  mkGate (g_app g) (limiter_prune RATE_WINDOW now (g_token_hits g)) (limiter_prune RATE_WINDOW now (g_plan_hits g))
    (prune_at now (g_cache g)) (idem_prune now (g_idem g)) (g_served g).
End Middleware.

(** The login limiter, in front of any inner stack. *)
Definition login_rate_limit_with `{!Http} {X} (inner : Request -> X -> Response * X) (now : Z) (env : option chars)
    (rq : Request) (l : Limiter IpAddr) (x : X) : Response * Limiter IpAddr * X :=
  if negb (bool_decide (rq_method rq = "POST")) || negb (bool_decide (rq_path rq = str "/auth/login"))
  then let (r, x) := inner rq x in (r, l, x)
  else
    match limiter_check RATE_WINDOW (parse_login_rate_max_attempts env) (extract_client_ip rq) now l with
    | (Ok tt, l) => let (r, x) := inner rq x in (r, l, x)
    | (Err retry, l) => (login_limited_response retry, l, x)
    end.

(** ** Logs of hits *)

Lemma recent_recent c c' l : c' <= c -> recent c (recent c' l) = recent c l.
Proof.
  intros Hc. unfold recent. rewrite list_filter_filter. apply list_filter_iff. intros t. lia.
Qed.

Lemma recent_app c l k : recent c (l ++ k) = recent c l ++ recent c k.
Proof. apply filter_app. Qed.

Lemma filter_le {A} (P Q : A -> Prop) `{!∀ x, Decision (P x), !∀ x, Decision (Q x)} l :
  (∀ x, P x -> Q x) -> (length (filter P l) <= length (filter Q l))%nat.
Proof.
  intros HPQ. induction l as [|x l IH]; [done|]. rewrite !filter_cons.
  destruct (decide (P x)), (decide (Q x)); simpl; [lia|naive_solver|lia..].
Qed.

Lemma recent_mono c c' l : c' <= c -> (length (recent c l) <= length (recent c' l))%nat.
Proof. intros Hc. rewrite <-(recent_recent c c' l Hc). apply length_filter. Qed.

Lemma omap_prune `{Countable K} window now (l : Limiter K) k :
  default [] (limiter_prune window now l !! k) = recent (now - window) (default [] (l !! k)).
Proof.
  unfold limiter_prune. rewrite lookup_omap. destruct (l !! k) as [hits|]; simpl; [|done].
  by destruct (recent _ hits).
Qed.

(** [s]: the times counted against a key, [h]: the times the limiter keeps. *)
Record within (window max last : Z) (h s : list Z) : Prop := {
  wi_last : Forall (λ t, t <= last) s;
  wi_cover c : last - window <= c -> (length (recent c s) <= length (recent c h))%nat;
  wi_window lo : Z.of_nat (length (filter (λ t : Z, lo < t ∧ t <= lo + window) s)) <= max;
}.

Section Within.
Context (window max : Z).

Lemma within_nil last h : 0 <= max -> within window max last h [].
Proof. intros Hm. split; [done| |done]. intros c _. simpl. lia. Qed.

Lemma within_kept last now h h' s : last <= now -> within window max last h s ->
  (∀ c, now - window <= c -> (length (recent c h) <= length (recent c h'))%nat) -> within window max now h' s.
Proof.
  intros Hn [Hl Hc Hwin] Hh. split; [|intros c Hcut|done].
  - eapply Forall_impl; [exact Hl|]. simpl. lia.
  - specialize (Hc c). specialize (Hh c). lia.
Qed.

Lemma within_time last now h s : last <= now -> within window max last h s -> within window max now h s.
Proof. intros Hn Hs. by apply (within_kept last now h). Qed.

Lemma within_recent last now h s : last <= now -> within window max last h s -> within window max now (recent (now - window) h) s.
Proof. intros Hn Hs. apply (within_kept last now h); [done|done|]. intros c Hc. by rewrite recent_recent. Qed.

Lemma within_spare last now h s : last <= now -> within window max last h s ->
  within window max now (recent (now - window) h ++ [now]) s.
Proof.
  intros Hn Hs. apply (within_kept last now h); [done|done|]. intros c Hc.
  rewrite recent_app, length_app, recent_recent by done. lia.
Qed.

Lemma within_hit last now h s : last <= now -> within window max last h s ->
  Z.of_nat (length (recent (now - window) h)) < max -> within window max now (recent (now - window) h ++ [now]) (s ++ [now]).
Proof.
  intros Hn [Hl Hc Hwin] Hlt. split.
  - apply Forall_app. split; [eapply Forall_impl; [exact Hl|simpl; lia]|]. by constructor.
  - intros c Hcut. rewrite !recent_app, !length_app, recent_recent by done. specialize (Hc c). lia.
  - intros lo. rewrite filter_app, length_app. specialize (Hwin lo).
    destruct (decide (lo < now ∧ now <= lo + window)) as [Hin|Hout];
      [|rewrite (filter_cons_False _ now []) by done; simpl; lia].
    rewrite (filter_cons_True _ now []) by done. simpl.
    assert (Hle : (length (filter (λ t : Z, (lo < t ∧ t <= lo + window)%Z) s) <= length (recent lo s))%nat).
    { apply filter_le. tauto. }
    pose proof (Hc lo ltac:(lia)). pose proof (recent_mono lo (now - window) h ltac:(lia)). lia.
Qed.
End Within.

(** One check, seen from a key that [max] caps. *)
Lemma limiter_within {K} `{Countable K} window max m (k k' : K) last now l s r l' :
  limiter_check window m k' now l = (r, l') -> last <= now -> (k' = k -> m <= max) ->
  within window max last (default [] (l !! k)) s ->
  within window max now (default [] (l' !! k)) s ∧
  (r = Ok tt -> k' = k -> within window max now (default [] (l' !! k)) (s ++ [now])).
Proof.
  intros Hc Hn Hm Hs. unfold limiter_check in Hc. destruct (decide (k' = k)) as [->|Hne].
  - specialize (Hm eq_refl). destruct (Z.leb_spec m (Z.of_nat (length (recent (now - window) (default [] (l !! k)))))) as [|Hlt];
      injection Hc as <- <-; rewrite lookup_insert_eq; simpl.
    + split; [|done]. by apply (within_recent _ _ last).
    + split; [by apply (within_spare _ _ last)|]. intros _ _. apply (within_hit _ _ last); [done|done|lia].
  - assert (E : l' !! k = l !! k) by (destruct (_ <=? _); injection Hc as <- <-; by rewrite lookup_insert_ne).
    rewrite E. split; [|done]. by apply (within_kept _ _ last now (default [] (l !! k))).
Qed.

Lemma prune_within {K} `{Countable K} window max (k : K) last now l s : last <= now ->
  within window max last (default [] (l !! k)) s ->
  within window max now (default [] (limiter_prune window now l !! k)) s.
Proof. intros Hn Hs. rewrite omap_prune. by apply (within_recent _ _ last). Qed.

(** *** Histories of a limiter *)

Inductive lim_event (K : Type) :=
| Hit (k : K) (max now : Z)
| Prune (now : Z).
Arguments Hit {K}.
Arguments Prune {K}.
Definition lim_time {K} (ev : lim_event K) : Z := match ev with Hit _ _ now | Prune now => now end.

Section Limiter.
Context {K : Type} `{Countable K}.

(** The limiter beside the log of the hits it granted. *)
Definition lim_step (st : Limiter K * list (K * Z)) (ev : lim_event K) : Limiter K * list (K * Z) :=
  match ev with
  | Hit k max now =>
      match limiter_check RATE_WINDOW max k now st.1 with
      | (Ok _, l) => (l, st.2 ++ [(k, now)])
      | (Err _, l) => (l, st.2)
      end
  | Prune now => (limiter_prune RATE_WINDOW now st.1, st.2)
  end.
Definition lim_run (evs : list (lim_event K)) : Limiter K * list (K * Z) := foldl lim_step (∅, []) evs.

Lemma lim_run_snoc evs ev : lim_run (evs ++ [ev]) = lim_step (lim_run evs) ev.
Proof. unfold lim_run. by rewrite foldl_app. Qed.

Definition times (k : K) (log : list (K * Z)) : list Z := (filter (λ e : K * Z, e.1 = k) log).*2.
Definition in_order (evs : list (lim_event K)) : Prop := StronglySorted Z.le (lim_time <$> evs).

Lemma times_snoc k log k' now : times k (log ++ [(k', now)]) = times k log ++ (if decide (k' = k) then [now] else []).
Proof. unfold times. rewrite filter_app, fmap_app. f_equal. rewrite filter_cons. simpl. by destruct (decide _). Qed.

(** The hits of a key that still count are those of the log. *)
Definition same_log (last : Z) (st : Limiter K * list (K * Z)) : Prop :=
  ∀ k c, last - RATE_WINDOW <= c -> recent c (default [] (st.1 !! k)) = recent c (times k st.2).

Lemma same_log_step last st ev : last <= lim_time ev -> same_log last st -> same_log (lim_time ev) (lim_step st ev).
Proof.
  intros Hl Hs k c Hc. destruct st as [l log]. destruct ev as [k' max now|now]; cbn [lim_time lim_step fst snd] in *.
  - unfold limiter_check. destruct (_ <=? _); simpl.
    + destruct (decide (k = k')) as [->|Hne].
      * rewrite lookup_insert_eq. simpl. rewrite recent_recent by done. apply Hs. lia.
      * rewrite lookup_insert_ne by done. apply Hs. lia.
    + rewrite times_snoc. destruct (decide (k = k')) as [->|Hne].
      * rewrite lookup_insert_eq, decide_True by done. simpl. rewrite !recent_app, recent_recent by done. f_equal. apply Hs. lia.
      * rewrite lookup_insert_ne, decide_False, app_nil_r by done. apply Hs. lia.
  - rewrite omap_prune, recent_recent by done. apply Hs. lia.
Qed.

Lemma in_order_snoc evs ev : in_order (evs ++ [ev]) -> in_order evs ∧ Forall (λ t, t <= lim_time ev) (lim_time <$> evs).
Proof.
  unfold in_order. rewrite fmap_app. simpl. induction evs as [|e evs IH]; [by split; constructor|].
  simpl. intros [Hs Hf]%StronglySorted_inv. apply IH in Hs as [Hs Hle]. apply Forall_app in Hf as [Hf Hx].
  split; constructor; try done. by apply Forall_cons in Hx as [? _].
Qed.

Lemma same_log_run evs now : in_order evs -> Forall (λ t, t <= now) (lim_time <$> evs) -> same_log now (lim_run evs).
Proof.
  revert now. induction evs as [|ev evs IH] using rev_ind; intros now Ho Hn.
  - intros k c _. simpl. by rewrite lookup_empty.
  - apply in_order_snoc in Ho as [Ho Hle]. rewrite fmap_app in Hn. apply Forall_app in Hn as [_ [Hev _]%Forall_cons].
    rewrite lim_run_snoc.
    pose proof (same_log_step _ _ ev ltac:(reflexivity) (IH _ Ho Hle)) as Hs.
    intros k c Hc. apply Hs. lia.
Qed.
Lemma oldest_elem now hits : hits <> [] -> oldest now hits ∈ hits.
Proof.
  destruct hits as [|t ts]; [done|]. intros _. simpl. revert t. induction ts as [|t' ts IH]; intros t; simpl; [by left|].
  destruct (Z.min_spec t t') as [[_ ->]|[_ ->]]; [specialize (IH t)|specialize (IH t')]; rewrite !elem_of_cons in *; tauto.
Qed.

Lemma length_pos {A} (l : list A) : (0 < length l)%nat -> l <> [].
Proof. by destruct l; simpl; [lia|]. Qed.

(** The hits granted under a key capped at [max] are within it. *)
Lemma within_run k max evs now : in_order evs -> Forall (λ t, t <= now) (lim_time <$> evs) -> 0 <= max ->
  (∀ m t, Hit k m t ∈ evs -> m <= max) ->
  within RATE_WINDOW max now (default [] ((lim_run evs).1 !! k)) (times k (lim_run evs).2).
Proof.
  revert now. induction evs as [|ev evs IH] using rev_ind; intros now Ho Hn Hmax Hcap; [by apply within_nil|].
  apply in_order_snoc in Ho as [Ho Hle]. rewrite fmap_app in Hn. apply Forall_app in Hn as [_ [Hev _]%Forall_cons].
  specialize (IH _ Ho Hle Hmax ltac:(set_solver)).
  rewrite lim_run_snoc. destruct (lim_run evs) as [l log].
  destruct ev as [k' m t|t]; cbn [lim_step lim_time fst snd] in *.
  - destruct (limiter_check RATE_WINDOW m k' t l) as [r l'] eqn:E.
    destruct (limiter_within RATE_WINDOW max m k k' t t l (times k log) r l' E) as [Hskip Hgrant];
      [reflexivity|intros ->; apply (Hcap m t); set_solver|done|].
    destruct r as [[]|r]; simpl; [rewrite times_snoc; destruct (decide (k' = k)) as [->|]; [|rewrite app_nil_r]|].
    + apply (within_time _ _ t); auto.
    + by apply (within_time _ _ t).
    + by apply (within_time _ _ t).
  - apply (within_time _ _ t); [done|]. by apply (prune_within _ _ _ t).
Qed.

Definition check_at (evs : list (lim_event K)) (k : K) (max now : Z) : result unit Z :=
  (limiter_check RATE_WINDOW max k now (lim_run evs).1).1.
(** How many hits of a key were granted in the window that ends at [now]. *)
Definition granted (evs : list (lim_event K)) (k : K) (now : Z) : Z :=
  Z.of_nat (length (recent (now - RATE_WINDOW) (times k (lim_run evs).2))).
Definition no_hit (k : K) (ev : lim_event K) : Prop := match ev with Hit k' _ _ => k' <> k | Prune _ => True end.

Lemma check_granted evs k max now : in_order evs -> Forall (λ t, t <= now) (lim_time <$> evs) ->
  check_at evs k max now = if max <=? granted evs k now
    then Err (retry_after RATE_WINDOW now (recent (now - RATE_WINDOW) (times k (lim_run evs).2))) else Ok tt.
Proof.
  intros Ho Hn. unfold check_at, granted, limiter_check.
  rewrite (same_log_run evs now Ho Hn k (now - RATE_WINDOW)) by reflexivity. by case_match.
Qed.

Lemma refused_keeps_log evs k max now r later :
  check_at evs k max now = Err r -> Forall (no_hit k) later ->
  times k (lim_run (evs ++ Hit k max now :: later)).2 = times k (lim_run evs).2.
Proof.
  intros Hr Hl. assert (E : evs ++ Hit k max now :: later = (evs ++ [Hit k max now]) ++ later) by by rewrite <-app_assoc.
  rewrite E. clear E. induction later as [|ev later IH] using rev_ind.
  - rewrite app_nil_r. rewrite lim_run_snoc. unfold check_at in Hr. simpl.
    destruct (limiter_check _ _ _ _ _) as [[?|?] l]; [done|]. done.
  - apply Forall_app in Hl as [Hl [Hev _]%Forall_cons]. rewrite app_assoc, lim_run_snoc, <-(IH Hl).
    destruct ev as [k' m t|t]; [|done]. simpl. destruct (limiter_check _ _ _ _ _) as [[?|?] l]; [|done].
    simpl. rewrite times_snoc, decide_False by done. by rewrite app_nil_r.
Qed.

Lemma retry_covers now hits : Forall (λ t, t <= now) hits ->
  oldest now hits + RATE_WINDOW <= now + retry_after RATE_WINDOW now hits * SECOND.
Proof.
  intros Hle. assert (Ho : oldest now hits <= now).
  { destruct hits as [|t ts]; [simpl; lia|]. rewrite Forall_forall in Hle. by apply Hle, oldest_elem. }
  unfold retry_after. rewrite (Z.max_r 0 (now - _)) by lia. set (d := now - oldest now hits).
  assert (Hd : d / SECOND * SECOND <= d) by (pose proof (Z.mul_div_le d SECOND); unfold SECOND in *; lia).
  assert (Hw : RATE_WINDOW / SECOND = 60) by reflexivity. rewrite Hw. unfold RATE_WINDOW, SECOND in *. lia.
Qed.

(** The rate limiters are exact. After any history of requests and
    clean-ups, a request is granted exactly when fewer than its cap were
    granted to its key in the last sixty seconds. A key whose cap never
    exceeds [max] is granted at most [max] requests in any sixty seconds,
    wherever they begin. And the time a refusal asks to wait is enough: with
    no request of the key in between, the next one after it is granted. *)
Theorem limiter_exact (evs : list (lim_event K)) (k : K) (max now : Z) :
  in_order evs -> Forall (λ t, t <= now) (lim_time <$> evs) -> 0 < max ->
  (check_at evs k max now = Ok tt <-> granted evs k now < max) ∧
  ((∀ m t, Hit k m t ∈ evs -> m <= max) ->
   (∀ lo, Z.of_nat (length (filter (λ t : Z, lo < t ∧ t <= lo + RATE_WINDOW) (times k (lim_run evs).2))) <= max) ∧
   ∀ r later now', check_at evs k max now = Err r -> in_order (evs ++ Hit k max now :: later) -> Forall (no_hit k) later ->
     Forall (λ t, t <= now') (lim_time <$> (evs ++ Hit k max now :: later)) -> now + r * SECOND <= now' ->
     check_at (evs ++ Hit k max now :: later) k max now' = Ok tt).
Proof.
  intros Ho Hn Hmax. split.
  { rewrite check_granted by done. destruct (Z.leb_spec max (granted evs k now)); split; try done; lia. }
  intros Hcap. pose proof (within_run k max evs now Ho Hn ltac:(lia) Hcap) as [Hle _ Hwin]. split; [done|].
  intros r later now' Hr Ho' Hl Hn' Hwait. rewrite check_granted by done. unfold granted.
  rewrite (refused_keeps_log _ _ _ _ r) by done. rewrite check_granted in Hr by done.
  destruct (Z.leb_spec max (granted evs k now)) as [Hfull|]; [|done]. injection Hr as <-. unfold granted in Hfull.
  set (all := times k (lim_run evs).2) in *. set (hits := recent (now - RATE_WINDOW) all) in *.
  assert (Hhits : Forall (λ t, t <= now) hits) by (apply Forall_forall; intros t [_ Ht]%list_elem_of_filter; by eapply Forall_forall in Hle).
  pose proof (retry_covers now hits Hhits) as Hcov.
  assert (Hin : oldest now hits ∈ hits) by (apply oldest_elem, length_pos; lia).
  assert (Hnow : now <= now').
  { eapply Forall_forall in Hn'; [exact Hn'|]. rewrite fmap_app. simpl. set_solver. }
  assert (E : recent (now' - RATE_WINDOW) all = recent (now' - RATE_WINDOW) hits) by (unfold hits; rewrite recent_recent; [done|lia]).
  rewrite E. assert (Hlt : (length (recent (now' - RATE_WINDOW) hits) < length hits)%nat).
  { unfold recent at 1. eapply length_filter_lt; [exact Hin|]. simpl. lia. }
  assert (Hb : Z.of_nat (length hits) <= max).
  { etrans; [|exact (Hwin (now - RATE_WINDOW))]. apply Nat2Z.inj_le. unfold hits, recent.
    clear -Hle. induction all as [|t all IH]; [done|]. apply Forall_cons in Hle as [Ht Hle]. rewrite !filter_cons.
    destruct (decide (now - RATE_WINDOW < t)), (decide (now - RATE_WINDOW < t ∧ t <= now - RATE_WINDOW + RATE_WINDOW));
      simpl; [apply le_n_S|lia| |]; auto. }
  destruct (Z.leb_spec max (Z.of_nat (length (recent (now' - RATE_WINDOW) hits)))); [lia|done].
Qed.
End Limiter.

(** ** What one request does *)

Section Steps.
Context `{!Http} {S T W : Type} `{!SessionStore S} `{!TokenValidator T} (next : Request -> App S T W -> Response * App S T W).
Notation gate := (Gate S T W).
Notation middleware := (auth_middleware next).

(** The parts of the state two gates share. *)
Record same_but_hits (g g' : gate) : Prop := {
  sh_app : g_app g' = g_app g;
  sh_idem : g_idem g' = g_idem g;
  sh_served : g_served g' = g_served g;
}.

Lemma token_gate_spec tick tok rq g r g' : token_gate tick tok rq g = (r, g') ->
  same_but_hits g g' ∧ g_plan_hits g' = g_plan_hits g ∧ g_cache g' = g_cache g ∧
  if is_api_path (rq_path rq)
  then limiter_check RATE_WINDOW TOKEN_MAX_REQUESTS tok (tk_mono tick) (g_token_hits g) = (r, g_token_hits g')
  else r = Ok tt ∧ g_token_hits g' = g_token_hits g.
Proof.
  unfold token_gate. destruct (is_api_path _); [|by intros [= <- <-]].
  destruct (limiter_check _ _ _ _ _) as [r0 l]. by intros [= <- <-].
Qed.

(** The cap a look-up finds. *)
Definition cap_for (tick : Tick) (tenant : Z) (g : gate) : result (option Z) unit :=
  (resolve_rate_cap_cached (tk_mono tick) (a_plans (g_app g)) tenant (g_cache g)).1.

Lemma plan_gate_spec tick tenant rq g r g' : plan_gate tick tenant rq g = (r, g') ->
  same_but_hits g g' ∧ g_token_hits g' = g_token_hits g ∧
  if is_api_path (rq_path rq)
  then g_cache g' = (resolve_rate_cap_cached (tk_mono tick) (a_plans (g_app g)) tenant (g_cache g)).2 ∧
    ((∃ cap, cap_for tick tenant g = Ok (Some cap) ∧ 0 < cap ∧
        limiter_check RATE_WINDOW cap tenant (tk_mono tick) (g_plan_hits g) = (r, g_plan_hits g')) ∨
     ((∀ cap, cap_for tick tenant g = Ok (Some cap) -> cap <= 0) ∧ r = Ok tt ∧ g_plan_hits g' = g_plan_hits g))
  else r = Ok tt ∧ g' = g.
Proof.
  unfold plan_gate, cap_for. destruct (is_api_path _); [|by intros [= <- <-]].
  destruct (resolve_rate_cap_cached _ _ _ _) as [[[cap|]|] cache]; cbn [fst snd].
  - destruct (Z.ltb_spec 0 cap) as [Hc|Hc].
    + destruct (limiter_check _ _ _ _ _) as [r0 l] eqn:E. intros [= <- <-]. split_and!; [done|done|done|]. left. by exists cap.
    + intros [= <- <-]. split_and!; [done|done|done|]. right. split_and!; [naive_solver|done|done].
  - intros [= <- <-]. split_and!; [done|done|done|]. by right.
  - intros [= <- <-]. split_and!; [done|done|done|]. by right.
Qed.

(** The gates a request with a credential passed. *)
Record passed (tick : Tick) (user : AuthUser) (token : option chars) (rq : Request) (g g2 : gate) : Prop := {
  ps_same : same_but_hits g g2;
  ps_verified : is_api_path (rq_path rq) = true -> au_verified user = true;
  ps_gates : ∃ g1, (match token with
                    | Some tok => token_gate tick tok (with_user user rq) g
                    | None => (Ok tt, g) end) = (Ok tt, g1) ∧
    plan_gate tick (au_tenant user) (with_user user rq) g1 = (Ok tt, g2);
}.
(** A request that was turned away. *)
Record refused (tick : Tick) (user : AuthUser) (token : option chars) (rq : Request) (g : gate) (resp : Response) (g' : gate) : Prop := {
  rf_same : same_but_hits g g';
  rf_status : rs_status resp = 403 ∨ rs_status resp = 429;
  rf_gates : (g' = g ∧ is_api_path (rq_path rq) = true) ∨ (∃ r, (match token with
                    | Some tok => token_gate tick tok (with_user user rq) g
                    | None => (Ok tt, g) end) = (Err r, g')) ∨
    ∃ g1 r, (match token with
                    | Some tok => token_gate tick tok (with_user user rq) g
                    | None => (Ok tt, g) end) = (Ok tt, g1) ∧
    plan_gate tick (au_tenant user) (with_user user rq) g1 = (Err r, g');
}.

Lemma same_but_hits_trans g1 g2 g3 : same_but_hits g1 g2 -> same_but_hits g2 g3 -> same_but_hits g1 g3.
Proof. intros [? ? ?] [? ? ?]. split; congruence. Qed.

Lemma admit_spec tick user token rq g resp g' : authorize next tick user token rq g = (resp, g') ->
  refused tick user token rq g resp g' ∨
  ∃ g2 resp0, passed tick user token rq g g2 ∧
    run_maybe_idempotent next tick (with_user user rq) g2 = (resp0, g') ∧ resp = add_private_cache_control_if_html resp0.
Proof.
  unfold authorize. destruct (negb (au_verified user) && is_api_path (rq_path (with_user user rq))) eqn:Ev.
  { intros [= <- <-]. left. apply andb_true_iff in Ev as [_ Ev]. split; [done|by left|by left]. }
  destruct (match token with Some tok => _ | None => _ end) as [r1 g1] eqn:E1.
  assert (H1 : same_but_hits g g1).
  { destruct token; [by apply token_gate_spec in E1 as [? _]|by injection E1 as <- <-]. }
  destruct r1 as [[]|retry].
  - destruct (plan_gate tick (au_tenant user) (with_user user rq) g1) as [r2 g2] eqn:E2.
    assert (H2 : same_but_hits g g2) by (eapply same_but_hits_trans; [exact H1|]; by apply plan_gate_spec in E2 as [? _]).
    destruct r2 as [[]|retry].
    + destruct (run_maybe_idempotent _ _ _ _) as [resp0 g3] eqn:E3. intros [= <- <-]. right. exists g2, resp0.
      split; [|done]. split; [done| |eauto]. intros Ha. simpl in Ev. rewrite Ha, andb_true_r in Ev. by apply negb_false_iff.
    + intros [= <- <-]. left. split; [done|by right|]. right. right. eauto.
  - intros [= <- <-]. left. split; [done|by right|]. right. left. eauto.
Qed.

(** What the idempotency store does with a request. *)
Lemma idempotent_spec tick rq g resp g' : run_maybe_idempotent next tick rq g = (resp, g') ->
  (∃ key c, scoped_key rq = Some key ∧ (idem_prune (tk_mono tick) (g_idem g)) !! key = Some c ∧ resp = replay c ∧
     g' = with_idem (idem_prune (tk_mono tick) (g_idem g)) g) ∨
  ∃ resp0 app, next rq (g_app g) = (resp0, app) ∧
    g_app g' = app ∧ g_token_hits g' = g_token_hits g ∧ g_plan_hits g' = g_plan_hits g ∧ g_cache g' = g_cache g ∧
    g_served g' = g_served g ++ [mkServed rq resp0 (tk_mono tick) (tk_done tick)] ∧
    match scoped_key rq with
    | None => resp = resp0 ∧ g_idem g' = g_idem g
    | Some key => idem_prune (tk_mono tick) (g_idem g) !! key = None ∧
        if is_success (rs_status resp0)
        then resp = (keep_response (tk_done tick) resp0).2 ∧
             g_idem g' = <[key := (keep_response (tk_done tick) resp0).1]> (idem_prune (tk_mono tick) (g_idem g))
        else resp = resp0 ∧ g_idem g' = idem_prune (tk_mono tick) (g_idem g)
    end.
Proof.
  unfold run_maybe_idempotent, run_next, idem_get. destruct (scoped_key rq) as [key|].
  - destruct (_ !! key) as [c|] eqn:Ec.
    + intros [= <- <-]. left. by exists key, c.
    + cbn [g_app with_idem]. destruct (next rq (g_app g)) as [resp0 app] eqn:En.
      destruct (is_success (rs_status resp0)) eqn:Es; simpl; intros [= <- <-]; right; exists resp0, app;
        rewrite ?Es; simpl; auto 10.
  - destruct (next rq (g_app g)) as [resp0 app] eqn:En. intros [= <- <-]. right. exists resp0, app. simpl. auto 10.
Qed.

(** The credential a request carries, as the stores judge it. *)
Definition credential (tick : Tick) (rq : Request) (g : gate) (user : AuthUser) (token : option chars) : Prop :=
  match extract_bearer_token rq with
  | Some tok => token = Some tok ∧ ∃ store info, a_tokens (g_app g) = Some store ∧
      (tv_validate (tk_utc tick) tok store).1 = Ok (Some info) ∧ user = auth_user info
  | None => token = None ∧ ∃ tok info, extract_session_cookie rq = Some tok ∧
      ss_validate (tk_utc tick) tok (a_sessions (g_app g)) = Ok (Some info) ∧ user = auth_user info
  end.
(** Validating a credential changes the two stores only. *)
Record same_but_stores (g g' : gate) : Prop := {
  ss_plans : a_plans (g_app g') = a_plans (g_app g);
  ss_ttl : a_session_ttl (g_app g') = a_session_ttl (g_app g);
  ss_world : a_world (g_app g') = a_world (g_app g);
  ss_token_hits : g_token_hits g' = g_token_hits g;
  ss_plan_hits : g_plan_hits g' = g_plan_hits g;
  ss_cache : g_cache g' = g_cache g;
  ss_idem : g_idem g' = g_idem g;
  ss_served : g_served g' = g_served g;
}.

Lemma middleware_spec tick rq g resp g' : middleware tick rq g = (resp, g') ->
  (rs_status resp = 401 ∧ same_but_stores g g' ∧ ∀ user token, ~ credential tick rq g user token) ∨
  ∃ user token g0, credential tick rq g user token ∧ same_but_stores g g0 ∧ authorize next tick user token rq g0 = (resp, g').
Proof.
  unfold auth_middleware, credential. destruct (extract_bearer_token rq) as [tok|].
  - unfold bearer_auth. destruct (a_tokens (g_app g)) as [store|] eqn:Et.
    + destruct (tv_validate (tk_utc tick) tok store) as [[[info|]|e] store'] eqn:Ev.
      * intros Hrun. right. exists (auth_user info), (Some tok).
        eexists. split; [|split; [|exact Hrun]]; [|done]. split; [done|]. exists store, info. by rewrite Ev.
      * intros [= <- <-]. left. split_and!; [done|done|]. intros user token (_ & store0 & info & Hs & Hv & _). simplify_eq.
        by rewrite Ev in Hv.
      * intros [= <- <-]. left. split_and!; [done|done|]. intros user token (_ & store0 & info & Hs & Hv & _). simplify_eq.
        by rewrite Ev in Hv.
    + intros [= <- <-]. left. split_and!; [done|done|]. by intros user token (_ & store0 & info & Hs & _).
  - destruct (extract_session_cookie rq) as [tok|].
    + destruct (ss_validate _ _ _) as [[info|]|e] eqn:Ev.
      * intros Hrun. right. exists (auth_user info), None. eexists. split; [|split; [|exact Hrun]]; [|done]. eauto 10.
      * intros [= <- <-]. left. split_and!; [done|done|]. intros user token (_ & tok0 & info & Hs & Hv & _). simplify_eq; by rewrite Ev in Hv.
      * intros [= <- <-]. left. split_and!; [done|done|]. intros user token (_ & tok0 & info & Hs & Hv & _). simplify_eq; by rewrite Ev in Hv.
    + intros [= <- <-]. left. split_and!; [done|done|]. by intros user token (_ & tok0 & info & Hs & _).
Qed.

(** *** Histories *)

Inductive gate_event := GRequest (tick : Tick) (rq : Request) | GCleanup (now : Z).
Definition gate_step (g : gate) (ev : gate_event) : gate :=
  match ev with GRequest tick rq => (middleware tick rq g).2 | GCleanup now => cleanup now g end.
Definition gate_run (evs : list gate_event) (g : gate) : gate := foldl gate_step g evs.

Definition ev_start (ev : gate_event) : Z := match ev with GRequest tick _ => tk_mono tick | GCleanup now => now end.
Definition ev_end (ev : gate_event) : Z := match ev with GRequest tick _ => tk_done tick | GCleanup now => now end.
(** One after the other, by the monotonic clock. *)
Fixpoint timely (last : Z) (evs : list gate_event) : Prop :=
  match evs with
  | [] => True
  | ev :: evs' => last <= ev_start ev ∧ ev_start ev <= ev_end ev ∧ timely (ev_end ev) evs'
  end.
Definition new_gate (app : App S T W) : gate := mkGate app ∅ ∅ ∅ ∅ [].

Lemma run_invariant (I : Z -> gate -> Prop) :
  (∀ last ev g, I last g -> last <= ev_start ev -> ev_start ev <= ev_end ev -> I (ev_end ev) (gate_step g ev)) ->
  ∀ evs last g, I last g -> timely last evs -> ∃ last', I last' (gate_run evs g).
Proof.
  intros Hstep. induction evs as [|ev evs IH]; intros last g HI Ht; [by exists last|].
  destruct Ht as (H1 & H2 & Ht). apply (IH (ev_end ev)); [|done]. by apply (Hstep last).
Qed.

(** *** The plan's cap *)

Definition plan_cap (d : Quota.db) (t : Z) : option Z := (Quota.get_tenant_billing d t ≫= id) ≫= per_minute_rate_cap.
Definition has_cap (t c : Z) (app : App S T W) : Prop := ∃ d, a_plans app = Some d ∧ plan_cap d t = Some c.

Definition starts (P : Served -> bool) (l : list Served) : list Z := sv_started <$> filter (λ sv, P sv = true) l.
Definition api_of_tenant (t : Z) (sv : Served) : bool :=
  is_api_path (rq_path (sv_request sv)) && bool_decide (au_tenant <$> rq_user (sv_request sv) = Some t).
Definition api_with_token (tok : chars) (sv : Served) : bool :=
  is_api_path (rq_path (sv_request sv)) && bool_decide (extract_bearer_token (sv_request sv) = Some tok).

Lemma starts_snoc P l sv : starts P (l ++ [sv]) = starts P l ++ (if P sv then [sv_started sv] else []).
Proof.
  unfold starts. rewrite filter_app, fmap_app. f_equal. rewrite filter_cons.
  destruct (P sv); [rewrite decide_True by done|rewrite decide_False by done]; done.
Qed.

Record tenant_inv (t c last : Z) (g : gate) : Prop := {
  ti_plan : has_cap t c (g_app g);
  ti_cache e : g_cache g !! t = Some e -> en_rate_cap e = Some c;
  ti_within : within RATE_WINDOW c last (default [] (g_plan_hits g !! t)) (starts (api_of_tenant t) (g_served g));
}.

Lemma resolve_cap t c now t' (g : gate) : has_cap t c (g_app g) -> (∀ e, g_cache g !! t = Some e -> en_rate_cap e = Some c) ->
  let '(r, cache) := resolve_rate_cap_cached now (a_plans (g_app g)) t' (g_cache g) in
  (t' = t -> r = Ok (Some c)) ∧ ∀ e, cache !! t = Some e -> en_rate_cap e = Some c.
Proof.
  intros (d & Hd & Hcap) Hc. unfold resolve_rate_cap_cached, get_at.
  destruct (g_cache g !! t') as [e|] eqn:Ee; simpl; [destruct (fresh_entry now e) eqn:Ef; simpl|].
  - split; [|done]. intros ->. by rewrite (Hc e Ee).
  - rewrite Hd. split; [by intros ->; fold (plan_cap d t); rewrite Hcap|]. intros e'.
    destruct (decide (t' = t)) as [->|]; [rewrite lookup_insert_eq; by intros [= <-]|rewrite lookup_insert_ne by done; auto].
  - rewrite Hd. split; [by intros ->; fold (plan_cap d t); rewrite Hcap|]. intros e'.
    destruct (decide (t' = t)) as [->|]; [rewrite lookup_insert_eq; by intros [= <-]|rewrite lookup_insert_ne by done; auto].
Qed.

Lemma plan_gate_inv t c last tick t' rq g r g' : plan_gate tick t' rq g = (r, g') -> 0 < c -> last <= tk_mono tick ->
  tenant_inv t c last g ->
  tenant_inv t c (tk_mono tick) g' ∧
  (r = Ok tt -> is_api_path (rq_path rq) = true -> t' = t ->
   within RATE_WINDOW c (tk_mono tick) (default [] (g_plan_hits g' !! t)) (starts (api_of_tenant t) (g_served g') ++ [tk_mono tick])).
Proof.
  intros ([Ha Hi Hs] & _ & Hg)%plan_gate_spec Hc Hn [Hp Hcache Hw].
  pose proof (within_time _ _ _ (tk_mono tick) _ _ Hn Hw) as Hw'.
  destruct (is_api_path (rq_path rq)); [|destruct Hg as [-> ->]; split; [by split|done]].
  destruct Hg as [Hca Hg]. pose proof (resolve_cap t c (tk_mono tick) t' g Hp Hcache) as Hr. unfold cap_for in Hg.
  destruct (resolve_rate_cap_cached _ _ _ _) as [cap cache]. cbn [fst snd] in *. destruct Hr as [Hr Hcache'].
  rewrite <-Hca in Hcache'. destruct Hg as [(cap' & -> & Hpos & Hl)|(Hnone & -> & Hh)].
  - destruct (limiter_within RATE_WINDOW c cap' t t' last (tk_mono tick) (g_plan_hits g) (starts (api_of_tenant t) (g_served g))
      _ _ Hl Hn) as [H1 H2]; [intros E; specialize (Hr E); simplify_eq; lia|done|].
    rewrite Hs. split; [|by auto]. split; [by rewrite Ha|done|by rewrite Hs].
  - split; [split; [by rewrite Ha|done|by rewrite Hs, Hh]|]. intros _ _ E. specialize (Hr E). subst.
    specialize (Hnone c eq_refl). lia.
Qed.

Lemma run_effect tick rq g resp g' : run_maybe_idempotent next tick rq g = (resp, g') ->
  g_token_hits g' = g_token_hits g ∧ g_plan_hits g' = g_plan_hits g ∧ g_cache g' = g_cache g ∧
  ((g_app g' = g_app g ∧ g_served g' = g_served g) ∨
   (g_app g' = (next rq (g_app g)).2 ∧
    g_served g' = g_served g ++ [mkServed rq (next rq (g_app g)).1 (tk_mono tick) (tk_done tick)])).
Proof.
  intros [(key & c & _ & _ & _ & ->)|(resp0 & app & En & Ha & Ht & Hp & Hc & Hs & _)]%idempotent_spec.
  - split_and!; [done..|]. by left.
  - split_and!; [done..|]. right. by rewrite En.
Qed.

Lemma tenant_step t c last ev g : 0 < c -> (∀ rq app, has_cap t c app -> has_cap t c (next rq app).2) ->
  tenant_inv t c last g -> last <= ev_start ev -> ev_start ev <= ev_end ev -> tenant_inv t c (ev_end ev) (gate_step g ev).
Proof.
  intros Hc Hnext Hinv Hstart Hend.
  assert (Hlater : ∀ g', tenant_inv t c (ev_start ev) g' -> tenant_inv t c (ev_end ev) g').
  { intros g' [? ? Hw]. split; [done|done|]. by apply (within_time _ _ (ev_start ev)). }
  apply Hlater. clear Hlater Hend. destruct ev as [tick rq|now]; cbn [ev_start gate_step] in *.
  - destruct (middleware tick rq g) as [resp g'] eqn:E. simpl. destruct Hinv as [Hp Hcache Hw].
    assert (Hinv0 : ∀ g0, same_but_stores g g0 -> tenant_inv t c last g0).
    { intros g0 [Hpl _ _ _ Hph Hca _ Hsv]. destruct Hp as (d & Hd & Hcap).
      split; [exists d; by rewrite Hpl|by rewrite Hca|by rewrite Hph, Hsv]. }
    apply middleware_spec in E as [(_ & Hss & _)|(user & token & g0 & _ & Hss & E)].
    { specialize (Hinv0 _ Hss). destruct Hinv0 as [? ? ?]. split; [done|done|]. by apply (within_time _ _ last). }
    specialize (Hinv0 _ Hss). clear Hp Hcache Hw Hss.
    assert (Htok : ∀ r g1, (match token with Some tok => token_gate tick tok (with_user user rq) g0 | None => (Ok tt, g0) end) = (r, g1) ->
      tenant_inv t c last g1).
    { intros r g1 E1. destruct token as [tok|]; [|by injection E1 as <- <-].
      apply token_gate_spec in E1 as ([Ha _ Hs] & Hph & Hca & _). destruct Hinv0 as [? ? ?].
      split; [by rewrite Ha|by rewrite Hca|by rewrite Hph, Hs]. }
    assert (Htime : ∀ g1, tenant_inv t c last g1 -> tenant_inv t c (tk_mono tick) g1).
    { intros g1 [? ? ?]. split; [done|done|]. by apply (within_time _ _ last). }
    apply admit_spec in E as [[_ _ [[-> _]|[[r Hr]|(g1 & r & H1 & H2)]]]|(g2 & resp0 & [_ _ (g1 & H1 & H2)] & E & _)].
    + by apply Htime.
    + eapply Htime, Htok, Hr.
    + apply (plan_gate_inv t c last) in H2 as [H2 _]; [done|done|done|by eapply Htok].
    + apply (plan_gate_inv t c last) in H2 as [[Hp Hcache Hw] Hgrant]; [|done|done|by eapply Htok].
      apply run_effect in E as (_ & Hph & Hca & [[Ha Hs]|[Ha Hs]]).
      * split; [by rewrite Ha|by rewrite Hca|by rewrite Hph, Hs].
      * split; [rewrite Ha; by apply Hnext|by rewrite Hca|]. rewrite Hph, Hs, starts_snoc. unfold api_of_tenant at 2. simpl.
        destruct (is_api_path (rq_path rq)) eqn:Hapi; simpl; [|by rewrite app_nil_r].
        case_bool_decide as Ht; [|by rewrite app_nil_r]. injection Ht as Ht. by apply Hgrant.
  - destruct Hinv as [Hp Hcache Hw]. split; [done| |by apply (prune_within _ _ _ last)].
    intros e. simpl. unfold prune_at. intros [He _]%map_lookup_filter_Some. by apply Hcache.
Qed.

Record token_inv (tok : chars) (last : Z) (g : gate) : Prop := {
  ki_within : within RATE_WINDOW TOKEN_MAX_REQUESTS last (default [] (g_token_hits g !! tok)) (starts (api_with_token tok) (g_served g));
}.

Lemma token_step tok last ev g : token_inv tok last g -> last <= ev_start ev -> ev_start ev <= ev_end ev ->
  token_inv tok (ev_end ev) (gate_step g ev).
Proof.
  intros [Hw] Hstart Hend. split. apply (within_time _ _ (ev_start ev)); [done|]. clear Hend.
  destruct ev as [tick rq|now]; cbn [ev_start gate_step] in *; [|by apply (prune_within _ _ _ last)].
  destruct (middleware tick rq g) as [resp g'] eqn:E. simpl.
  apply middleware_spec in E as [(_ & [_ _ _ -> _ _ _ ->] & _)|(user & token & g0 & Hcred & [_ _ _ Hth _ _ _ Hsv] & E)];
    [by apply (within_time _ _ last)|].
  assert (Hgate : ∀ r g1, (match token with Some k => token_gate tick k (with_user user rq) g0 | None => (Ok tt, g0) end) = (r, g1) ->
    g_served g1 = g_served g ∧
    within RATE_WINDOW TOKEN_MAX_REQUESTS (tk_mono tick) (default [] (g_token_hits g1 !! tok)) (starts (api_with_token tok) (g_served g)) ∧
    (r = Ok tt -> is_api_path (rq_path rq) = true -> token = Some tok ->
     within RATE_WINDOW TOKEN_MAX_REQUESTS (tk_mono tick) (default [] (g_token_hits g1 !! tok))
       (starts (api_with_token tok) (g_served g) ++ [tk_mono tick]))).
  { rewrite <-Hth in Hw. pose proof (within_time _ _ _ _ _ _ Hstart Hw) as Hw'. intros r g1 E1. destruct token as [k|]; [|by injection E1 as <- <-].
    apply token_gate_spec in E1 as ([_ _ Hs] & _ & _ & Hl). simpl in Hl.
    destruct (is_api_path (rq_path rq)); [|destruct Hl as [_ ->]; split_and!; [congruence|done|done]].
    destruct (limiter_within _ TOKEN_MAX_REQUESTS _ tok k last (tk_mono tick) _ _ _ _ Hl Hstart ltac:(done) Hw) as [H1 H2].
    split_and!; [congruence|done|]. intros Hr _ [= ->]. by apply H2. }
  apply admit_spec in E as [[_ _ [[-> _]|[[r Hr]|(g1 & r & H1 & H2)]]]|(g2 & resp0 & [_ _ (g1 & H1 & H2)] & E & _)].
  - rewrite Hth, Hsv. by apply (within_time _ _ last).
  - apply Hgate in Hr as (-> & Hr & _). done.
  - apply Hgate in H1 as (Hs1 & H1 & _). apply plan_gate_spec in H2 as ([_ _ Hs2] & -> & _). by rewrite Hs2, Hs1.
  - apply Hgate in H1 as (Hs1 & H1 & Hgrant). apply plan_gate_spec in H2 as ([_ _ Hs2] & Ht2 & _).
    apply run_effect in E as (-> & _ & _ & [[_ ->]|[_ ->]]); rewrite Hs2, Hs1, Ht2; [done|].
    rewrite starts_snoc. unfold api_with_token at 2. simpl.
    destruct (is_api_path (rq_path rq)) eqn:Hapi; simpl; [|by rewrite app_nil_r].
    case_bool_decide as Ht; [|by rewrite app_nil_r]. apply Hgrant; [done|done|].
    unfold credential in Hcred. change (extract_bearer_token (with_user user rq)) with (extract_bearer_token rq) in Ht.
    rewrite Ht in Hcred. by destruct Hcred as [-> _].
Qed.


(** *** Who reaches a handler *)

Lemma is_api_ingest rq : is_ingest rq = true -> is_api_path (rq_path rq) = true.
Proof. unfold is_ingest. intros [_ Hp]%andb_true_iff. apply bool_decide_eq_true in Hp. by rewrite Hp. Qed.

Lemma not_api_no_key rq : is_api_path (rq_path rq) = false -> scoped_key rq = None.
Proof.
  intros Ha. unfold scoped_key. destruct (is_ingest rq) eqn:E; [|done]. apply is_api_ingest in E. congruence.
Qed.

Definition private_html (r : Response) : Prop := ∀ v, rs_headers r !! "content-type" = Some v -> is_html v = true ->
  rs_headers r !! "cache-control" = Some (from_static "private, no-store").

Lemma cache_control_private r : private_html (add_private_cache_control_if_html r).
Proof.
  unfold private_html, add_private_cache_control_if_html. intros v.
  destruct (rs_headers r !! "content-type") as [v0|] eqn:E; [|by rewrite E].
  destruct (is_html v0) eqn:Eh; [|rewrite E; congruence]. simpl. intros _ _. by rewrite lookup_insert_eq.
Qed.
Lemma json_is_private status headers body : headers !! "content-type" = Some (from_static "application/json") ->
  private_html (mkResponse status headers body).
Proof. intros E v Hv. simpl in Hv. rewrite E in Hv. injection Hv as <-. vm_compute. discriminate. Qed.

Lemma admit_private tick user token rq g resp g' : authorize next tick user token rq g = (resp, g') -> private_html resp.
Proof.
  unfold authorize. destruct (_ && _); [intros [= <- _]; by apply json_is_private|].
  destruct (match token with Some tok => _ | None => _ end) as [[[]|r1] g1];
    [|intros [= <- _]; apply json_is_private; by rewrite lookup_insert_eq].
  destruct (plan_gate _ _ _ _) as [[[]|r2] g2]; [|intros [= <- _]; apply json_is_private; by rewrite lookup_insert_eq].
  destruct (run_maybe_idempotent _ _ _ _) as [resp0 g3]. intros [= <- _]. apply cache_control_private.
Qed.

Lemma middleware_private tick rq g resp g' : middleware tick rq g = (resp, g') -> private_html resp.
Proof.
  unfold auth_middleware. repeat case_match; try (by apply admit_private);
    intros [= <- _]; by apply json_is_private.
Qed.

(** A request carries one credential. *)
Lemma credential_unique tick rq g user user' token token' :
  credential tick rq g user token -> credential tick rq g user' token' -> user = user' ∧ token = token'.
Proof.
  unfold credential. destruct (extract_bearer_token rq); intros (-> & ? & ? & ? & ? & ->) (-> & ? & ? & ? & ? & ->);
    simplify_eq; split; congruence.
Qed.

Lemma cache_control_status r : rs_status (add_private_cache_control_if_html r) = rs_status r.
Proof. unfold add_private_cache_control_if_html. destruct (rs_headers r !! _); [|done]. by destruct (is_html _). Qed.

(** The window of a limiter has no room. *)
Definition window_full {K} `{Countable K} (max : Z) (k : K) (now : Z) (l : Limiter K) : bool :=
  max <=? Z.of_nat (length (recent (now - RATE_WINDOW) (default [] (l !! k)))).
(** A token has had its hundred requests of the minute; a tenant those of the
    cap its plan is found to have, where that is positive. *)
Definition token_full (tick : Tick) (token : option chars) (g : gate) : bool :=
  match token with
  | Some tok => window_full TOKEN_MAX_REQUESTS tok (tk_mono tick) (g_token_hits g)
  | None => false
  end.
Definition plan_full (tick : Tick) (tenant : Z) (g : gate) : bool :=
  match cap_for tick tenant g with
  | Ok (Some cap) => (0 <? cap) && window_full cap tenant (tk_mono tick) (g_plan_hits g)
  | _ => false
  end.

Lemma limiter_check_full {K} `{Countable K} max (k : K) now l r l' : limiter_check RATE_WINDOW max k now l = (r, l') ->
  is_ok r = negb (window_full max k now l).
Proof. unfold limiter_check, window_full. by destruct (max <=? _); intros [= <- _]. Qed.

(** Each gate's verdict, in the order they are asked. *)
Lemma authorize_verdict tick user token rq g resp g' : authorize next tick user token rq g = (resp, g') ->
  let api := is_api_path (rq_path rq) in
  if api && negb (au_verified user) then rs_status resp = 403 ∧ same_but_hits g g'
  else if api && (token_full tick token g || plan_full tick (au_tenant user) g) then rs_status resp = 429 ∧ same_but_hits g g'
  else ∃ g2 resp0, same_but_hits g g2 ∧
    run_maybe_idempotent next tick (with_user user rq) g2 = (resp0, g') ∧ resp = add_private_cache_control_if_html resp0.
Proof.
  unfold authorize. cbv zeta. change (rq_path (with_user user rq)) with (rq_path rq).
  rewrite (andb_comm (negb _)). destruct (is_api_path (rq_path rq) && negb (au_verified user)); [by intros [= <- <-]|].
  destruct (match token with Some tok => _ | None => _ end) as [r1 g1] eqn:E1.
  assert (H1 : same_but_hits g g1 ∧ g_plan_hits g1 = g_plan_hits g ∧ g_cache g1 = g_cache g ∧
    is_ok r1 = negb (is_api_path (rq_path rq) && token_full tick token g)).
  { destruct token as [tok|]; [|injection E1 as <- <-; simpl; by rewrite andb_false_r].
    apply token_gate_spec in E1 as (? & ? & ? & E1). simpl in E1. split_and!; [done..|].
    destruct (is_api_path (rq_path rq)); [by eapply limiter_check_full|by destruct E1 as [-> _]]. }
  destruct H1 as (H1 & Hp1 & Hc1 & Hr1).
  destruct r1 as [[]|retry]; [|intros [= <- <-]].
  2:{ symmetry in Hr1. apply negb_false_iff, andb_true_iff in Hr1 as [-> ->]. done. }
  destruct (plan_gate tick (au_tenant user) (with_user user rq) g1) as [r2 g2] eqn:E2.
  apply plan_gate_spec in E2 as (H2 & _ & E2). simpl in E2. pose proof (same_but_hits_trans _ _ _ H1 H2) as H12.
  assert (Hcap : cap_for tick (au_tenant user) g1 = cap_for tick (au_tenant user) g).
  { unfold cap_for. destruct H1 as [-> _ _]. by rewrite Hc1. }
  assert (Hr2 : is_ok r2 = negb (is_api_path (rq_path rq) && plan_full tick (au_tenant user) g)).
  { unfold plan_full. rewrite <- Hcap, <- Hp1. destruct (is_api_path (rq_path rq)); [|by destruct E2 as [-> _]].
    destruct E2 as [_ [(cap & -> & Hcap0 & E2)|(Hno & -> & _)]]; simpl.
    - apply limiter_check_full in E2. by rewrite E2, (proj2 (Z.ltb_lt _ _) Hcap0).
    - destruct (cap_for _ _ _) as [[cap|]|]; [|done|done]. specialize (Hno cap eq_refl). by rewrite (proj2 (Z.ltb_ge _ _)). }
  assert (Hrun : match r2 with
      | Err retry => resp = rate_limit_response retry ∧ g' = g2
      | Ok _ => ∃ resp0, run_maybe_idempotent next tick (with_user user rq) g2 = (resp0, g') ∧ resp = add_private_cache_control_if_html resp0
      end -> if is_api_path (rq_path rq) && (token_full tick token g || plan_full tick (au_tenant user) g)
        then rs_status resp = 429 ∧ same_but_hits g g'
        else ∃ g2 resp0, same_but_hits g g2 ∧
          run_maybe_idempotent next tick (with_user user rq) g2 = (resp0, g') ∧ resp = add_private_cache_control_if_html resp0).
  { destruct (is_api_path (rq_path rq)), (token_full tick token g), (plan_full tick (au_tenant user) g), r2;
      try discriminate; simpl; naive_solver. }
  intros E. apply Hrun. destruct r2 as [[]|retry]; [|by injection E as <- <-].
  destruct (run_maybe_idempotent _ _ _ _) as [resp0 g3]. injection E as <- <-. by exists resp0.
Qed.

(** A request with a credential is let through to the handlers. *)
Definition admitted (tick : Tick) (user : AuthUser) (token : option chars) (rq : Request) (g : gate) : Prop :=
  is_api_path (rq_path rq) = true ->
  au_verified user = true ∧ token_full tick token g = false ∧ plan_full tick (au_tenant user) g = false.
(** No handler ran, and what handlers work on is untouched. *)
Definition turned_away (g g' : gate) : Prop :=
  g_served g' = g_served g ∧ a_world (g_app g') = a_world (g_app g) ∧ a_plans (g_app g') = a_plans (g_app g).

Lemma middleware_verdict tick rq (g : gate) resp g' user token : middleware tick rq g = (resp, g') -> credential tick rq g user token ->
  (is_api_path (rq_path rq) = true -> au_verified user = false -> rs_status resp = 403 ∧ turned_away g g') ∧
  (is_api_path (rq_path rq) = true -> au_verified user = true ->
     token_full tick token g = true ∨ plan_full tick (au_tenant user) g = true -> rs_status resp = 429 ∧ turned_away g g') ∧
  (admitted tick user token rq g ->
     (∃ answer, g_served g' = g_served g ++ [mkServed (with_user user rq) answer (tk_mono tick) (tk_done tick)] ∧
        rs_status resp = rs_status answer) ∨
     (∃ key c, scoped_key (with_user user rq) = Some key ∧ idem_prune (tk_mono tick) (g_idem g) !! key = Some c ∧
        resp = add_private_cache_control_if_html (replay c) ∧ turned_away g g')).
Proof.
  intros E Hcred'.
  apply middleware_spec in E as [(_ & _ & Hno)|(user' & token' & g0 & Hcred & [Hpl _ Hwo Hth Hph Hca Hid Hsv] & E)].
  { by apply Hno in Hcred'. }
  destruct (credential_unique _ _ _ _ _ _ _ Hcred Hcred') as [-> ->].
  assert (Hfull : token_full tick token g0 = token_full tick token g ∧ plan_full tick (au_tenant user) g0 = plan_full tick (au_tenant user) g).
  { unfold token_full, plan_full, cap_for. by rewrite Hth, Hph, Hca, Hpl. }
  destruct Hfull as [Ht Hp]. apply authorize_verdict in E. rewrite Ht, Hp in E.
  assert (Hoff : same_but_hits g0 g' -> turned_away g g') by (intros [Ha _ Hs]; split_and!; congruence).
  split_and!.
  - intros Hapi Hv. rewrite Hapi, Hv in E. simpl in E. destruct E. auto.
  - intros Hapi Hv Hfull. apply orb_true_iff in Hfull. rewrite Hapi, Hv, Hfull in E. simpl in E. destruct E. auto.
  - intros Hadm. assert (∃ g2 resp0, same_but_hits g0 g2 ∧ run_maybe_idempotent next tick (with_user user rq) g2 = (resp0, g') ∧
      resp = add_private_cache_control_if_html resp0) as (g2 & resp0 & [Ha Hi Hs] & Hrun & ->).
    { destruct (is_api_path (rq_path rq)) eqn:Eapi; [|done]. destruct (Hadm Eapi) as (Hv & Ht' & Hp'). by rewrite Hv, Ht', Hp' in E. }
    apply idempotent_spec in Hrun as [(key & c & Hk & Hc & -> & ->)|(r0 & app & _ & _ & _ & _ & _ & Hs' & Hm)].
    + right. exists key, c. rewrite <- Hid, <- Hi. split_and!; [done..|]. split_and!; simpl; congruence.
    + left. exists r0. split; [by rewrite Hs', Hs, Hsv|]. rewrite cache_control_status.
      destruct (scoped_key _); [|by destruct Hm as [-> _]]. destruct Hm as [_ Hm]. by destruct (is_success _); destruct Hm as [-> _].
Qed.


(** *** Uploads under an idempotency key *)

Lemma show_int_no_colon n : 58 ∉ show_int n.
Proof. intros Hin. pose proof (show_int_chars n) as Hc. rewrite Forall_forall in Hc. destruct (Hc _ Hin); lia. Qed.

Lemma idempotency_key_inj u u' k k' : idempotency_key_for_user u k = idempotency_key_for_user u' k' ->
  au_tenant u = au_tenant u' ∧ au_user u = au_user u' ∧ k = k'.
Proof.
  unfold idempotency_key_for_user. change (str ":") with [58]. simpl. intros E.
  apply app_sep_inj in E as [E1 E]; [|apply show_int_no_colon..]. apply app_sep_inj in E as [E2 E]; [|apply show_int_no_colon..].
  split_and!; [by apply show_int_inj..|done].
Qed.

Lemma scoped_key_Some rq K : scoped_key rq = Some K -> ∃ user key, is_ingest rq = true ∧ rq_user rq = Some user ∧
  extract_idempotency_key rq = Some key ∧ K = idempotency_key_for_user user key.
Proof.
  unfold scoped_key. destruct (is_ingest rq); [|done]. destruct (extract_idempotency_key rq) as [key|]; [|done].
  destruct (rq_user rq) as [user|]; [|done]. intros [= <-]. by exists user, key.
Qed.

(** The key a run's answer was kept under. *)
Definition stored (sv : Served) : option chars :=
  if is_success (rs_status (sv_response sv)) then scoped_key (sv_request sv) else None.
Definition entry_of (sv : Served) : CachedIdempotentResponse := (keep_response (sv_done sv) (sv_response sv)).1.

Record idem_inv (last : Z) (g : gate) : Prop := {
  ii_sound K c : g_idem g !! K = Some c -> ∃ sv, sv ∈ g_served g ∧ stored sv = Some K ∧ c = entry_of sv;
  ii_complete sv K : sv ∈ g_served g -> stored sv = Some K -> last - IDEMPOTENCY_TTL < sv_done sv -> g_idem g !! K = Some (entry_of sv);
  ii_apart i j sv sv' K : (i < j)%nat -> g_served g !! i = Some sv -> g_served g !! j = Some sv' ->
    stored sv = Some K -> stored sv' = Some K -> sv_done sv + IDEMPOTENCY_TTL <= sv_started sv';
}.

Lemma idem_inv_prune last now g g' : last <= now -> idem_inv last g -> g_served g' = g_served g ->
  g_idem g' = idem_prune now (g_idem g) -> idem_inv now g'.
Proof.
  intros Hn [Hs Hc Ha] Hsv Hi. split.
  - intros K c. rewrite Hi, Hsv. unfold idem_prune. intros [HK _]%map_lookup_filter_Some. by apply Hs.
  - intros sv K. rewrite Hsv, Hi. intros Hin Hst Hd. unfold idem_prune. apply map_lookup_filter_Some. split; [|done].
    apply Hc; [done|done|lia].
  - rewrite Hsv. exact Ha.
Qed.

Lemma idem_inv_time last now g g' : last <= now -> idem_inv last g -> g_served g' = g_served g -> g_idem g' = g_idem g ->
  idem_inv now g'.
Proof.
  intros Hn [Hs Hc Ha] Hsv Hi. split; [rewrite Hi, Hsv; exact Hs| |rewrite Hsv; exact Ha].
  intros sv K. rewrite Hi, Hsv. intros ? ? ?. apply Hc; [done|done|lia].
Qed.

(** One more run, kept under no key or under one that was free. *)
Lemma idem_inv_serve now done sv g g' : idem_inv now g -> sv_started sv = now -> sv_done sv = done -> now <= done ->
  g_served g' = g_served g ++ [sv] ->
  match stored sv with
  | None => g_idem g' = g_idem g
  | Some K => g_idem g !! K = None ∧ g_idem g' = <[K := entry_of sv]> (g_idem g)
  end -> idem_inv done g'.
Proof.
  intros [Hs Hc Ha] Hst Hd Hle Hsv Hi.
  assert (Hfree : ∀ sv' K, stored sv = Some K -> sv' ∈ g_served g -> stored sv' = Some K -> sv_done sv' + IDEMPOTENCY_TTL <= now).
  { intros sv' K E Hin E'. rewrite E in Hi. destruct Hi as [Hi _].
    destruct (Z.le_gt_cases (sv_done sv' + IDEMPOTENCY_TTL) now); [done|]. rewrite (Hc sv' K) in Hi; [done..|lia]. }
  split.
  - intros K c. rewrite Hsv. destruct (stored sv) as [K'|] eqn:E.
    + destruct Hi as [_ ->]. destruct (decide (K = K')) as [->|].
      * rewrite lookup_insert_eq. intros [= <-]. exists sv. split_and!; [set_solver|done|done].
      * rewrite lookup_insert_ne by done. intros (sv' & ? & ? & ?)%Hs. exists sv'. split_and!; [set_solver|done|done].
    + rewrite Hi. intros (sv' & ? & ? & ?)%Hs. exists sv'. split_and!; [set_solver|done|done].
  - intros sv' K. rewrite Hsv. intros [Hin| ->%list_elem_of_singleton]%elem_of_app E' Hlt.
    + specialize (Hc sv' K Hin E' ltac:(lia)). destruct (stored sv) as [K'|] eqn:E; [|by rewrite Hi].
      destruct Hi as [Hf ->]. destruct (decide (K = K')) as [->|]; [congruence|]. by rewrite lookup_insert_ne.
    + rewrite E' in Hi. destruct Hi as [_ ->]. by rewrite lookup_insert_eq.
  - intros i j a b K Hij. rewrite Hsv. intros Hi' Hj' Ea Eb.
    assert (Hlast : (j < length (g_served g) ∨ j = length (g_served g))%nat).
    { apply lookup_lt_Some in Hj'. rewrite length_app in Hj'. simpl in Hj'. lia. }
    rewrite lookup_app_l in Hi' by lia. destruct Hlast as [Hj| ->].
    + rewrite lookup_app_l in Hj' by done. by apply (Ha i j a b K).
    + rewrite lookup_app_r, Nat.sub_diag in Hj' by lia. injection Hj' as <-. rewrite Hst.
      eapply Hfree; [done|by eapply list_elem_of_lookup_2|done].
Qed.

Lemma idem_step last ev g : idem_inv last g -> last <= ev_start ev -> ev_start ev <= ev_end ev -> idem_inv (ev_end ev) (gate_step g ev).
Proof.
  intros Hinv Hstart Hend. destruct ev as [tick rq|now]; cbn [ev_start ev_end gate_step] in *;
    [|by apply (idem_inv_prune last now g)].
  destruct (middleware tick rq g) as [resp g'] eqn:E. simpl.
  apply middleware_spec in E as [(_ & [_ _ _ _ _ _ Hi Hs] & _)|(user & token & g0 & _ & [_ _ _ _ _ _ Hi Hs] & E)];
    [by apply (idem_inv_time last _ g); [lia|..]|].
  apply admit_spec in E as [[[_ Hi' Hs'] _ _]|(g2 & resp0 & [[_ Hi' Hs'] _ _] & E & _)];
    [apply (idem_inv_time last _ g); [lia|done|congruence..]|].
  rewrite Hi in Hi'. rewrite Hs in Hs'. clear Hi Hs.
  apply idempotent_spec in E as [(key & c & _ & _ & _ & ->)|(r0 & app & _ & _ & _ & _ & _ & Hs & Hm)].
  - apply (idem_inv_time (tk_mono tick) _ (with_idem (idem_prune (tk_mono tick) (g_idem g2)) g2)); [lia| |done|done].
    apply (idem_inv_prune last _ g); [lia|done|done|]. simpl. by rewrite Hi'.
  - set (sv := mkServed _ _ _ _) in *. rewrite Hs' in Hs. rewrite Hi' in Hm.
    set (gp := with_idem (idem_prune (tk_mono tick) (g_idem g)) g).
    assert (Hp : idem_inv (tk_mono tick) gp) by (by apply (idem_inv_prune last _ g)).
    assert (Hst : stored sv = if is_success (rs_status r0) then scoped_key (with_user user rq) else None) by done.
    destruct (scoped_key (with_user user rq)) as [key|].
    + apply (idem_inv_serve (tk_mono tick) (tk_done tick) sv gp); [done..|]. rewrite Hst.
      destruct Hm as [Hf Hm]. destruct (is_success (rs_status r0)); destruct Hm as [_ Hm]; [by split|done].
    + destruct Hm as [_ Hm]. apply (idem_inv_serve (tk_mono tick) (tk_done tick) sv g); [|done..|].
      * by apply (idem_inv_time last _ g).
      * rewrite Hst. by destruct (is_success _).
Qed.

(** The answer to a repeated upload: status and body of the first, and its
    content type as far as it is text. *)
Record answers_as (sv : Served) (resp : Response) : Prop := {
  as_status : rs_status resp = rs_status (sv_response sv);
  as_body : rs_body resp = body_from (default [] (to_bytes MAX_CACHED_BODY (rs_body (sv_response sv))));
  as_type : rs_headers resp !! "content-type" = (rs_headers (sv_response sv) !! "content-type" ≫= hv_to_str) ≫= hv_from_str;
}.
(** The same upload by the same user: another request with the key. *)
Definition same_upload (user : AuthUser) (rq : Request) (sv : Served) : Prop :=
  is_ingest rq = true ∧ is_ingest (sv_request sv) = true ∧
  (∃ key, extract_idempotency_key rq = Some key ∧ extract_idempotency_key (sv_request sv) = Some key) ∧
  ∃ first, rq_user (sv_request sv) = Some first ∧ au_tenant first = au_tenant user ∧ au_user first = au_user user.

Lemma replay_answers sv : answers_as sv (replay (entry_of sv)).
Proof.
  split; [done|done|]. unfold replay, entry_of, keep_response. simpl.
  destruct (_ ≫= hv_from_str); [by rewrite lookup_singleton_eq|by rewrite lookup_empty].
Qed.

Lemma answers_private sv r : answers_as sv r -> answers_as sv (add_private_cache_control_if_html r).
Proof.
  intros Ha. pose proof Ha as [H1 H2 H3]. unfold add_private_cache_control_if_html.
  destruct (rs_headers r !! "content-type") as [v|] eqn:E; [|exact Ha]. destruct (is_html v); [|exact Ha]. split; [done|done|]. simpl. rewrite lookup_insert_ne by done. congruence.
Qed.

Lemma same_upload_key user rq sv K : stored sv = Some K -> scoped_key (with_user user rq) = Some K -> same_upload user rq sv.
Proof.
  unfold stored. destruct (is_success _); [|done].
  intros (u1 & k1 & I1 & U1 & K1 & ->)%scoped_key_Some (u2 & k2 & I2 & U2 & K2 & E)%scoped_key_Some.
  apply idempotency_key_inj in E as (Ht & Hu & ->). injection U2 as <-. split_and!; [done|done|by exists k2|by exists u1].
Qed.

Lemma same_upload_stored user rq sv : same_upload user rq sv -> is_success (rs_status (sv_response sv)) = true ->
  ∃ K, stored sv = Some K ∧ scoped_key (with_user user rq) = Some K.
Proof.
  intros (I1 & I2 & (key & K1 & K2) & first & U & Ht & Hu) Hs. unfold stored. rewrite Hs. unfold scoped_key.
  rewrite I2, K2, U. change (is_ingest (with_user user rq)) with (is_ingest rq). rewrite I1.
  change (extract_idempotency_key (with_user user rq)) with (extract_idempotency_key rq). rewrite K1. simpl.
  eexists. split; [done|]. unfold idempotency_key_for_user. by rewrite Ht, Hu.
Qed.

Lemma served_in_place (g g' : gate) (sv : Served) : g_served g' = g_served g ++ [sv] -> g_served g' = g_served g -> False.
Proof. intros -> E. apply (f_equal length) in E. rewrite length_app in E. simpl in E. lia. Qed.

Lemma idem_entries last g : idem_inv last g -> ∀ K c, g_idem g !! K = Some c ->
  ∃ sv, sv ∈ g_served g ∧ is_success (rs_status (sv_response sv)) = true ∧ scoped_key (sv_request sv) = Some K ∧ c = entry_of sv.
Proof.
  intros Hinv K c Hc. destruct (ii_sound _ _ Hinv K c Hc) as (sv & Hin & Hst & ->). exists sv. unfold stored in Hst.
  destruct (is_success _); [|done]. by split_and!.
Qed.

(** An admitted request that no handler ran for repeats a success. *)
Lemma replay_success last tick rq g resp g' user token : idem_inv last g -> middleware tick rq g = (resp, g') ->
  credential tick rq g user token -> admitted tick user token rq g -> g_served g' = g_served g -> is_success (rs_status resp) = true.
Proof.
  intros Hinv E Hc Hadm Hsame. destruct (middleware_verdict _ _ _ _ _ _ _ E Hc) as (_ & _ & Hv).
  destruct (Hv Hadm) as [(answer & Hs & _)|(key & c & _ & Hk & -> & _)]; [by destruct (served_in_place _ _ _ Hs Hsame)|].
  unfold idem_prune in Hk. apply map_lookup_filter_Some in Hk as [Hk _].
  apply (idem_entries _ _ Hinv) in Hk as (sv & _ & Hsucc & _ & ->). rewrite cache_control_status. exact Hsucc.
Qed.

(** C23. An upload is done at most once per idempotency key.  Over any history
    of requests and clean-ups handled one after the other, two successful runs
    of the upload handler for the same tenant, user and key are at least
    twenty-four hours apart.  A request that repeats a successful upload within
    that time is never handed to the handler (it is answered as before, or
    refused by the gates); a success that comes without running the handler
    answers as an earlier run of the same tenant, user and key did, never as
    another user's.  Only successes are remembered: every remembered answer is
    that of a successful run of an upload with that key, and a request the
    gates admit is answered without running the handler only with such an
    answer, so a failed upload is done anew. *)
Theorem idempotent_uploads (app : App S T W) (evs : list gate_event) (from : Z) tick rq resp g' :
  timely from (evs ++ [GRequest tick rq]) ->
  let g := gate_run evs (new_gate app) in
  middleware tick rq g = (resp, g') ->
  (∀ i j a b K, (i < j)%nat -> g_served g' !! i = Some a -> g_served g' !! j = Some b ->
     stored a = Some K -> stored b = Some K -> sv_done a + IDEMPOTENCY_TTL <= sv_started b) ∧
  (∀ sv user token, sv ∈ g_served g -> is_success (rs_status (sv_response sv)) = true ->
     tk_mono tick - IDEMPOTENCY_TTL < sv_done sv -> credential tick rq g user token -> same_upload user rq sv ->
     g_served g' = g_served g) ∧
  (g_served g' = g_served g -> is_success (rs_status resp) = true ->
     ∃ sv user token, sv ∈ g_served g ∧ credential tick rq g user token ∧ same_upload user rq sv ∧ answers_as sv resp) ∧
  (∀ K c, g_idem g' !! K = Some c ->
     ∃ sv, sv ∈ g_served g' ∧ is_success (rs_status (sv_response sv)) = true ∧ scoped_key (sv_request sv) = Some K ∧ c = entry_of sv) ∧
  (∀ user token, credential tick rq g user token -> admitted tick user token rq g -> g_served g' = g_served g ->
     is_success (rs_status resp) = true).
Proof.
  intros Ht g E.
  assert (Hg : ∃ last, idem_inv last g ∧ last <= tk_mono tick ∧ tk_mono tick <= tk_done tick).
  { clear E. subst g. assert (H0 : idem_inv from (new_gate app)) by
      (split; [by intros K c|by intros sv K ?%elem_of_nil|intros i j a b K _ Hx; by destruct i]).
    revert from H0 Ht. generalize (new_gate app). induction evs as [|ev evs IH]; intros g0 from H0 Ht; simpl in Ht.
    - exists from. naive_solver.
    - destruct Ht as (H1 & H2 & Ht). apply (IH (gate_step g0 ev) (ev_end ev)); [by eapply idem_step|done]. }
  destruct Hg as (last & Hinv & Hl & Hd).
  pose proof (idem_step last (GRequest tick rq) g Hinv Hl Hd) as Hinv'. cbn [gate_step] in Hinv'. rewrite E in Hinv'.
  split; [exact (ii_apart _ _ Hinv')|].
  assert (Hkept : (∀ K c, g_idem g' !! K = Some c ->
      ∃ sv, sv ∈ g_served g' ∧ is_success (rs_status (sv_response sv)) = true ∧ scoped_key (sv_request sv) = Some K ∧ c = entry_of sv) ∧
    (∀ user token, credential tick rq g user token -> admitted tick user token rq g -> g_served g' = g_served g ->
      is_success (rs_status resp) = true)).
  { split; [exact (idem_entries _ _ Hinv')|]. intros user token Hc Hadm Hsame. exact (replay_success _ _ _ _ _ _ _ _ Hinv E Hc Hadm Hsame). }
  assert (Hrun : (∀ sv user token, sv ∈ g_served g -> is_success (rs_status (sv_response sv)) = true ->
     tk_mono tick - IDEMPOTENCY_TTL < sv_done sv -> credential tick rq g user token -> same_upload user rq sv ->
     g_served g' = g_served g) ∧
    (g_served g' = g_served g -> is_success (rs_status resp) = true ->
     ∃ sv user token, sv ∈ g_served g ∧ credential tick rq g user token ∧ same_upload user rq sv ∧ answers_as sv resp));
    [clear Hkept|by destruct Hrun].
  apply middleware_spec in E as [(Hst & _ & Hno)|(user & token & g0 & Hcred & [_ _ _ _ _ _ Hi Hs] & E)].
  { split; [intros sv u tok _ _ _ Hc; by apply Hno in Hc|]. intros _ Hsucc. by rewrite Hst in Hsucc. }
  assert (Hone : ∀ user' token', credential tick rq g user' token' -> user' = user).
  { unfold credential in *. destruct (extract_bearer_token rq); intros user' token';
      destruct Hcred as (_ & ? & ? & ? & ? & ->); intros (_ & ? & ? & ? & ? & ->); simplify_eq; congruence. }
  apply admit_spec in E as [[[_ Hi' Hs'] Hst _]|(g2 & resp0 & [[_ Hi' Hs'] _ _] & E & ->)].
  { split; [intros; congruence|]. intros _ Hsucc. destruct Hst as [Hst|Hst]; by rewrite Hst in Hsucc. }
  apply idempotent_spec in E as [(key & c & Hk & Hc & -> & ->)|(r0 & app' & _ & _ & _ & _ & _ & Hs3 & Hm)].
  - split; [intros; simpl; congruence|]. intros _ Hsucc. rewrite Hi', Hi in Hc. unfold idem_prune in Hc.
    apply map_lookup_filter_Some in Hc as [Hc _]. apply (ii_sound _ _ Hinv) in Hc as (sv & Hin & Hst & ->).
    exists sv, user, token. split_and!; [done|done|by eapply same_upload_key|]. apply answers_private, replay_answers.
  - rewrite Hs', Hs in Hs3. split; [|intros Hs4; destruct (served_in_place _ _ _ Hs3 Hs4)].
    intros sv user' token' Hin Hsucc Hlt Hc' Hsame. apply Hone in Hc' as ->.
    destruct (same_upload_stored _ _ _ Hsame Hsucc) as (K & Hst & Hk). rewrite Hk in Hm. destruct Hm as [Hfree _].
    rewrite Hi', Hi in Hfree. exfalso. apply (ii_complete _ _ Hinv) with (K := K) in Hin; [|done|lia].
    assert (Hsome : idem_prune (tk_mono tick) (g_idem g) !! K = Some (entry_of sv)); [|congruence].
    unfold idem_prune. apply map_lookup_filter_Some. by split.
Qed.
End Steps.

(** ** The stores the server is run with *)

#[global] Instance mem_token_validator (sha256_hex : chars -> chars) : TokenValidator InMemoryApiTokenStore := {|
  tv_validate now token s := (Ok (validate_token sha256_hex now token s), s);
|}.
Definition pg_token_validator (sha256_hex : chars -> chars) (users : gmap Z UserRow) : TokenValidator PgTokens := {|
  tv_validate := pg_validate_token sha256_hex users;
|}.

(** ** What the documentation says otherwise *)

Section Divergences.
Context `{!Http} {S T W : Type} `{!SessionStore S} `{!TokenValidator T} (next : Request -> App S T W -> Response * App S T W).

(** A cap of zero, documented as a locked plan, limits nothing. *)
Lemma zero_cap_passes tick tenant rq (g : Gate S T W) : cap_for tick tenant g = Ok (Some 0) ->
  (plan_gate tick tenant rq g).1 = Ok tt.
Proof using Type.
  unfold cap_for, plan_gate. destruct (is_api_path _); [|done]. destruct (resolve_rate_cap_cached _ _ _ _) as [cap cache].
  simpl. by intros ->.
Qed.

(** Without the plans' database every request passes. *)
Lemma plans_down_pass tick tenant rq (g : Gate S T W) : a_plans (g_app g) = None -> g_cache g !! tenant = None ->
  (plan_gate tick tenant rq g).1 = Ok tt.
Proof using Type.
  intros Hp Hc. unfold plan_gate, resolve_rate_cap_cached, get_at. destruct (is_api_path _); [|done]. by rewrite Hc, Hp.
Qed.

(** A body past the limit is replaced by nothing, in the store and in the
    answer under way. *)
Lemma large_answer_emptied tick rq (g : Gate S T W) key resp app :
  scoped_key rq = Some key -> idem_prune (tk_mono tick) (g_idem g) !! key = None ->
  next rq (g_app g) = (resp, app) -> is_success (rs_status resp) = true -> to_bytes MAX_CACHED_BODY (rs_body resp) = None ->
  rs_status (run_maybe_idempotent next tick rq g).1 = rs_status resp ∧
  rs_body (run_maybe_idempotent next tick rq g).1 = body_from [].
Proof using Type.
  intros Hk Hf Hn Hs Hb. unfold run_maybe_idempotent, run_next, idem_get. rewrite Hk, Hf. simpl. rewrite Hn. simpl.
  rewrite Hs. simpl. by rewrite Hb.
Qed.

(** Other spellings of the scheme are not seen, and the cookie decides. *)
Lemma bearer_in_capitals rq tok : header_str "authorization" rq = Some (str "BEARER " ++ tok) -> extract_bearer_token rq = None.
Proof using Type. unfold extract_bearer_token. by intros ->. Qed.
End Divergences.

(** ** Concrete runs *)

(** Bodies are bytes and every header value is text. *)
#[local] Instance demo_http : Http := {|
  Body := bytes;
  hv_to_str := bytes_str;
  hv_from_str s := Some (str_bytes s);
  body_from b := b;
  to_bytes limit b := if Z.of_nat (length b) <=? limit then Some b else None;
  json_to_string _ := str "{}";
|}.
Definition demo_app : App InMemorySessionStore InMemoryApiTokenStore Z :=
  mkApp (mkMem {[str "s1" := mkSession 7 3 Member true 5000000 0]} ∅) None
    (Some {| plans := [{| plan_id := 1; plan_code := "free"; quota_bytes := 0; token_budget := None; price_cents := None;
               features := JObj [("rate_caps", JObj [("per_minute", JInt 2)])] |}];
             Quota.tenants := {[7 := {| tenant_plan_id := Some 1; quota_override_bytes := None; quota_override_tokens := None;
               budget_monthly_cents := None |}]};
             storage_usage := λ _, 0; token_usage := λ _, 0; month_token_rollup := λ _, 0; user_count := λ _, 0; monthly_cost := λ _, 0 |})
    3600 0.
(** The handler answers 201 with the number of its runs. *)
Definition demo_next (rq : Request) (app : App InMemorySessionStore InMemoryApiTokenStore Z)
    : Response * App InMemorySessionStore InMemoryApiTokenStore Z :=
  let n := a_world app + 1 in
  (mkResponse 201 ∅ (str_bytes (show_int n)), mkApp (a_sessions app) (a_tokens app) (a_plans app) (a_session_ttl app) n).
Definition demo_upload : Request :=
  mkRequest "POST" (str "/api/ingest")
    (λ name, if bool_decide (name = "cookie") then Some (str_bytes (str "a=b; __Host-session=s1"))
             else if bool_decide (name = "idempotency-key") then Some (str_bytes (str "k")) else None) None.
Definition demo_search : Request :=
  mkRequest "GET" (str "/api/search")
    (λ name, if bool_decide (name = "cookie") then Some (str_bytes (str "__Host-session=s1")) else None) None.
Definition demo_tick (s : Z) : Tick := mkTick (s * 1000000) (s * SECOND) (s * SECOND + 5).
Definition demo_validator : TokenValidator InMemoryApiTokenStore := mem_token_validator (λ t, t).
Definition demo_gate (evs : list gate_event) : Gate InMemorySessionStore InMemoryApiTokenStore Z :=
  gate_run (TokenValidator0 := demo_validator) demo_next evs (new_gate demo_app).

Lemma limiter_exact_witness : check_at [Hit 7 1 0] 7 1 (60 * SECOND) = Ok tt ∧
  check_at ([Hit 7 1 0] ++ [Hit 7 1 (30 * SECOND)]) 7 1 (60 * SECOND) = Ok tt.
Proof.
  split.
  - apply (limiter_exact [Hit 7 1 0] 7 1 (60 * SECOND)); [repeat constructor|by repeat constructor|done|]. vm_compute. done.
  - destruct (limiter_exact [Hit 7 1 0] 7 1 (30 * SECOND)) as [_ Hw]; [repeat constructor|by repeat constructor|done|].
    destruct Hw as [_ Hw]; [intros m t Hin; apply list_elem_of_singleton in Hin as [= -> ->]; done|].
    apply (Hw 30 [] (60 * SECOND)); [vm_compute; reflexivity|repeat constructor; done|constructor|by repeat constructor|done].
Defined.

Definition demo_day : list gate_event :=
  [GRequest (demo_tick 1) demo_search; GRequest (demo_tick 2) demo_search; GRequest (demo_tick 3) demo_search].



Definition demo_first : Served :=
  mkServed (with_user (mkAuthUser 7 3 Member true) demo_upload) (@mkResponse demo_http 201 ∅ (str_bytes (show_int 1)))
    SECOND (SECOND + 5).
(** The same upload twice: the handler runs once. *)
Definition demo_again : Response * Gate InMemorySessionStore InMemoryApiTokenStore Z :=
  auth_middleware (TokenValidator0 := demo_validator) demo_next (demo_tick 2) demo_upload (demo_gate [GRequest (demo_tick 1) demo_upload]).
Lemma idempotent_uploads_witness :
  g_served (demo_gate ([GRequest (demo_tick 1) demo_upload] ++ [GRequest (demo_tick 2) demo_upload]))
  = g_served (demo_gate [GRequest (demo_tick 1) demo_upload]).
Proof.
  set (g := demo_gate [GRequest (demo_tick 1) demo_upload]).
  destruct (@idempotent_uploads demo_http _ _ _ in_memory_session_store demo_validator demo_next demo_app
    [GRequest (demo_tick 1) demo_upload] 0 (demo_tick 2) demo_upload demo_again.1 demo_again.2)
    as (_ & Hrepeat & _ & _ & _).
  - repeat split; vm_compute; discriminate.
  - exact (surjective_pairing demo_again).
  - apply (Hrepeat demo_first (mkAuthUser 7 3 Member true) None).
    + assert (E : g_served g = [demo_first]) by reflexivity.
      change (demo_first ∈ g_served g). rewrite E. by left.
    + reflexivity.
    + vm_compute. reflexivity.
    + split; [reflexivity|]. exists (str "s1"), (mkSessionInfo 7 3 Member true). split_and!; vm_compute; reflexivity.
    + split_and!; [vm_compute; reflexivity..| |].
      * exists (str "k"). split; vm_compute; reflexivity.
      * eexists. split_and!; reflexivity.
Defined.
