(* ===== verification/Backpressure.v ===== *)
(** * Backpressure on uploads (api/src/backpressure.rs)

    A global ceiling and one per tenant, each a semaphore.  A request takes a
    permit of its tenant and then a global one; other requests run between the
    two, so a history is a list of such half steps. *)

From stdpp Require Import base gmap list.
From Stdlib Require Import ZArith Lia.
From S2P Require Import Prelude.
Open Scope Z_scope.

(** Semaphores are the numbers of permits left. *)
Record InflightLimiter := mkLimiter {
  il_global : Z;
  il_tenants : gmap Z Z;
  il_max : Z;
  il_per_tenant_max : Z;
}.
Inductive Permit := PTenant (t : Z) | PUnlimited.

Definition default_per_tenant_max (global_max : Z) : Z := Z.max 1 (global_max / 4).

Section Limiter.
(** [Semaphore::MAX_PERMITS]. *)
Context (MAX_PERMITS : Z).

Definition unlimited_permits : Z := MAX_PERMITS / 2.

Definition with_per_tenant (max per_tenant_max : Z) : InflightLimiter :=
  if max =? 0 then mkLimiter unlimited_permits ∅ 0 0
  else
    let effective := if per_tenant_max =? 0 then default_per_tenant_max max else Z.min max (Z.max 1 per_tenant_max) in
    mkLimiter max ∅ max effective.
Definition new (max : Z) : InflightLimiter := with_per_tenant max 0.
End Limiter.

Definition tenant_semaphore (t : Z) (l : InflightLimiter) : Z := default (il_per_tenant_max l) (il_tenants l !! t).
Definition set_tenant (t n : Z) (l : InflightLimiter) : InflightLimiter :=
  mkLimiter (il_global l) (<[t := n]> (il_tenants l)) (il_max l) (il_per_tenant_max l).
Definition set_global (n : Z) (l : InflightLimiter) : InflightLimiter :=
  mkLimiter n (il_tenants l) (il_max l) (il_per_tenant_max l).

Definition take_tenant (t : Z) (l : InflightLimiter) : bool * InflightLimiter :=
  let n := tenant_semaphore t l in
  if 0 <? n then (true, set_tenant t (n - 1) l) else (false, set_tenant t n l).
Definition give_tenant (t : Z) (l : InflightLimiter) : InflightLimiter := set_tenant t (tenant_semaphore t l + 1) l.
Definition take_global (l : InflightLimiter) : bool * InflightLimiter :=
  if 0 <? il_global l then (true, set_global (il_global l - 1) l) else (false, l).
Definition give_global (l : InflightLimiter) : InflightLimiter := set_global (il_global l + 1) l.

(** The permit of the tenant is given back when there is no global one. *)
Definition finish_acquire (t : Z) (l : InflightLimiter) : option Permit * InflightLimiter :=
  match take_global l with
  | (true, l) => (Some (PTenant t), l)
  | (false, l) => (None, give_tenant t l)
  end.
Definition try_acquire (t : Z) (l : InflightLimiter) : option Permit * InflightLimiter :=
  if il_max l =? 0
  then
    match take_global l with
    | (false, l) => (None, l)
    | (true, l) =>
        match take_global l with
        | (true, l) => (Some PUnlimited, l)
        | (false, l) => (None, give_global l)
        end
    end
  else
    match take_tenant t l with
    | (false, l) => (None, l)
    | (true, l) => finish_acquire t l
    end.
(** [Drop], field by field: first the permit of the tenant, then the global
    one. Other requests may come in between. *)
Definition drop_first (p : Permit) (l : InflightLimiter) : InflightLimiter :=
  match p with PTenant t => give_tenant t l | PUnlimited => give_global l end.
Definition drop_permit (p : Permit) (l : InflightLimiter) : InflightLimiter := give_global (drop_first p l).

Definition in_flight (l : InflightLimiter) : Z := if il_max l =? 0 then 0 else Z.max 0 (il_max l - il_global l).

(** ** Histories *)

(** The limiter with the requests between their two permits and those that
    hold both, by tenant, and the number of those that have given back the
    tenant's permit and not yet the global one. *)
Record Traffic := mkTraffic {
  tr_limiter : InflightLimiter;
  tr_pending : list Z;
  tr_held : list Z;
  tr_leaving : nat;
}.
Inductive traffic_event := EBegin (t : Z) | EFinish (i : nat) | EDrop (i : nat) | EReturn.

Definition traffic_step (st : Traffic) (ev : traffic_event) : Traffic :=
  match ev with
  | EBegin t =>
      let (got, l) := take_tenant t (tr_limiter st) in
      mkTraffic l (if got then t :: tr_pending st else tr_pending st) (tr_held st) (tr_leaving st)
  | EFinish i =>
      match tr_pending st !! i with
      | None => st
      | Some t =>
          let (got, l) := finish_acquire t (tr_limiter st) in
          mkTraffic l (delete i (tr_pending st)) (match got with Some _ => t :: tr_held st | None => tr_held st end)
            (tr_leaving st)
      end
  | EDrop i =>
      match tr_held st !! i with
      | None => st
      | Some t => mkTraffic (drop_first (PTenant t) (tr_limiter st)) (tr_pending st) (delete i (tr_held st)) (S (tr_leaving st))
      end
  | EReturn =>
      match tr_leaving st with
      | O => st
      | S n => mkTraffic (give_global (tr_limiter st)) (tr_pending st) (tr_held st) n
      end
  end.
Definition traffic_run (evs : list traffic_event) (l : InflightLimiter) : Traffic :=
  foldl traffic_step (mkTraffic l [] [] 0) evs.
(** The global permits in use. *)
Definition under_way (st : Traffic) : Z := Z.of_nat (length (tr_held st)) + Z.of_nat (tr_leaving st).

Definition count (t : Z) (l : list Z) : Z := Z.of_nat (length (filter (λ u : Z, u = t) l)).

Lemma count_nonneg t l : 0 <= count t l. Proof. unfold count. lia. Qed.
Lemma count_cons t u l : count t (u :: l) = (if decide (u = t) then 1 else 0) + count t l.
Proof. unfold count. rewrite filter_cons. destruct (decide (u = t)); simpl length; lia. Qed.
Lemma count_delete t i u l : l !! i = Some u -> count t l = (if decide (u = t) then 1 else 0) + count t (delete i l).
Proof.
  intros Hi. rewrite <-count_cons. unfold count. by rewrite <-(delete_Permutation l i u Hi).
Qed.
Lemma length_delete_Z (i : nat) (u : Z) l : l !! i = Some u -> Z.of_nat (length l) = 1 + Z.of_nat (length (delete i l)).
Proof. intros Hi. rewrite (delete_Permutation l i u Hi) at 1. simpl length. lia. Qed.

Record balanced (max p : Z) (st : Traffic) : Prop := {
  bl_max : il_max (tr_limiter st) = max;
  bl_per : il_per_tenant_max (tr_limiter st) = p;
  bl_global : il_global (tr_limiter st) = max - under_way st;
  bl_global_ok : 0 <= il_global (tr_limiter st);
  bl_tenant t : tenant_semaphore t (tr_limiter st) = p - count t (tr_pending st) - count t (tr_held st);
  bl_tenant_ok t : 0 <= tenant_semaphore t (tr_limiter st);
}.

Lemma semaphore_set t u n l : tenant_semaphore t (set_tenant u n l) = if decide (u = t) then n else tenant_semaphore t l.
Proof.
  unfold tenant_semaphore. simpl. case_decide as E; [subst; by rewrite lookup_insert_eq|by rewrite lookup_insert_ne].
Qed.

Lemma balanced_step max p st ev : balanced max p st -> balanced max p (traffic_step st ev).
Proof.
  intros [Hm Hp Hg Hgo Ht Hto]. pose proof Hto as Hall. destruct st as [l pend held leaving]. unfold under_way in *. simpl in *.
  destruct ev as [t|i|i|]; simpl.
  - unfold take_tenant. destruct (Z.ltb_spec 0 (tenant_semaphore t l)) as [Hpos|Hz]; simpl; split; unfold under_way; simpl; try done;
      intros u; rewrite semaphore_set; specialize (Ht u); specialize (Hto u); try rewrite count_cons; case_decide; subst; lia.
  - destruct (pend !! i) as [t|] eqn:Ei; [|done]. unfold finish_acquire, take_global.
    destruct (Z.ltb_spec 0 (il_global l)) as [Hpos|Hz]; simpl; split; unfold under_way; simpl; try done; try lia; intros u;
      pose proof (count_delete u i t pend Ei) as Hd; specialize (Ht u); specialize (Hto u).
    + change (tenant_semaphore u (set_global _ l)) with (tenant_semaphore u l). rewrite count_cons. lia.
    + unfold give_tenant. rewrite semaphore_set. case_decide; subst; lia.
    + unfold give_tenant. rewrite semaphore_set. pose proof (Hall t). case_decide; subst; lia.
  - destruct (held !! i) as [t|] eqn:Ei; [|done]. pose proof (length_delete_Z i t held Ei) as Hl.
    split; unfold under_way; simpl; try done; try lia; intros u; pose proof (count_delete u i t held Ei) as Hd; specialize (Ht u); specialize (Hto u);
      unfold give_tenant; rewrite semaphore_set; pose proof (Hall t); case_decide; subst; lia.
  - destruct leaving as [|n]; [done|]. split; unfold under_way; simpl; try done; lia.
Qed.

Lemma with_per_tenant_range M max per : 0 < max -> 0 <= per ->
  il_max (with_per_tenant M max per) = max ∧ il_global (with_per_tenant M max per) = max ∧
  il_tenants (with_per_tenant M max per) = ∅ ∧ 1 <= il_per_tenant_max (with_per_tenant M max per) <= max.
Proof.
  intros Hm Hp. unfold with_per_tenant, default_per_tenant_max. rewrite (proj2 (Z.eqb_neq max 0)) by lia. simpl.
  split_and!; [done..| |]; destruct (Z.eqb_spec per 0); pose proof (Z.div_le_upper_bound max 4 max); lia.
Qed.

Lemma balanced_run M max per evs : 0 < max -> 0 <= per ->
  balanced max (il_per_tenant_max (with_per_tenant M max per)) (traffic_run evs (with_per_tenant M max per)).
Proof.
  intros Hm Hp. unfold traffic_run. destruct (with_per_tenant_range M max per Hm Hp) as (E1 & E2 & E3 & Hr).
  set (l := with_per_tenant M max per) in *.
  assert (H0 : balanced max (il_per_tenant_max l) (mkTraffic l [] [] 0)).
  { split; unfold under_way; simpl; try done; try lia; intros t; unfold tenant_semaphore, count; rewrite E3, lookup_empty; simpl; lia. }
  revert H0. generalize (mkTraffic l [] [] 0). induction evs as [|ev evs IH]; intros st H0; [done|].
  apply IH, balanced_step, H0.
Qed.

Lemma length_split t l : Z.of_nat (length l) = count t l + Z.of_nat (length (filter (λ u, u <> t) l)).
Proof.
  induction l as [|u l IH]; [done|]. rewrite count_cons, filter_cons. simpl length.
  destruct (decide (u = t)), (decide (u <> t)); try done; simpl length; lia.
Qed.

Lemma count_filter t v l : count v (filter (λ u, u <> t) l) <= count v l.
Proof.
  unfold count. rewrite list_filter_filter. apply Nat2Z.inj_le. induction l as [|u l IH]; [done|]. rewrite !filter_cons.
  repeat case_decide; simpl; try lia; naive_solver lia.
Qed.

(** No more than [p] permits for each of the tenants that hold any. *)
Lemma held_bound p ts : ∀ l, (∀ u, u ∈ l -> u ∈ ts) -> (∀ u, count u l <= p) -> Z.of_nat (length l) <= p * Z.of_nat (length ts).
Proof.
  induction ts as [|t ts IH]; intros l Hin Hc; [destruct l as [|u l]; [simpl; lia|specialize (Hin u ltac:(by left)); by apply elem_of_nil in Hin]|].
  rewrite (length_split t l). specialize (IH (filter (λ u, u <> t) l)). simpl length. specialize (Hc t) as Ht.
  assert (Hle : Z.of_nat (length (filter (λ u, u <> t) l)) <= p * Z.of_nat (length ts)); [|lia].
  apply IH.
  - intros u [Hne Hu]%list_elem_of_filter. specialize (Hin u Hu). by apply elem_of_cons in Hin as [|].
  - intros u. pose proof (count_filter t u l). specialize (Hc u). lia.
Qed.

Lemma try_acquire_iff max p st t : 0 < max -> balanced max p st ->
  (try_acquire t (tr_limiter st)).1 =
    if decide (count t (tr_held st) + count t (tr_pending st) < p ∧ under_way st < max)
    then Some (PTenant t) else None.
Proof.
  intros Hpos [Hm Hp Hg Hgo Ht Hto]. unfold try_acquire. rewrite Hm, (proj2 (Z.eqb_neq max 0)) by lia.
  unfold take_tenant. specialize (Ht t). destruct (Z.ltb_spec 0 (tenant_semaphore t (tr_limiter st))).
  - unfold finish_acquire, take_global. simpl. destruct (Z.ltb_spec 0 (il_global (tr_limiter st))); case_decide; try done; lia.
  - case_decide; [lia|done].
Qed.

(** C35. The ceilings hold and one tenant cannot starve another. In every
    interleaving of requests that take, fail to take and give back permits, each
    in its two steps: at most [max] uploads are under way and [in_flight] counts
    them; a tenant has at most its own ceiling, between one and [max]. An
    attempt succeeds exactly when the tenant is below its ceiling and fewer
    than [max] are under way, so when [n] other tenants hold permits and
    [n + 1] full shares fit under [max], a tenant below its ceiling is refused
    only while a finished upload has yet to give back its global permit.
    Giving back what an attempt took restores every count. *)
Theorem backpressure_fair (M max per : Z) (evs : list traffic_event) (t : Z) :
  0 < max -> 0 <= per ->
  let p := il_per_tenant_max (with_per_tenant M max per) in
  let st := traffic_run evs (with_per_tenant M max per) in
  let l := tr_limiter st in
  1 <= p <= max ∧
  under_way st <= max ∧ in_flight l = under_way st ∧
  count t (tr_held st) + count t (tr_pending st) <= p ∧
  ((try_acquire t l).1 = Some (PTenant t) <->
    count t (tr_held st) + count t (tr_pending st) < p ∧ under_way st < max) ∧
  (tr_leaving st = 0%nat -> ∀ others, (∀ u, u ∈ tr_held st -> u = t ∨ u ∈ others) -> p * (Z.of_nat (length others) + 1) <= max ->
    count t (tr_held st) + count t (tr_pending st) < p -> (try_acquire t l).1 = Some (PTenant t)) ∧
  (∀ permit l', try_acquire t l = (Some permit, l') ->
    il_global (drop_permit permit l') = il_global l ∧
    ∀ u, tenant_semaphore u (drop_permit permit l') = tenant_semaphore u l).
Proof.
  intros Hmax Hper p st l. pose proof (balanced_run M max per evs Hmax Hper) as Hb.
  destruct (with_per_tenant_range M max per Hmax Hper) as (_ & _ & _ & Hr).
  fold p st in Hb, Hr. pose proof Hb as [Hm Hp Hg Hgo Ht Hto].
  pose proof (try_acquire_iff max p st t Hmax Hb) as Htry. fold l in Htry, Hm, Hp, Hg, Hgo, Ht, Hto.
  assert (Hall : ∀ u, count u (tr_held st) + count u (tr_pending st) <= p).
  { intros u. specialize (Ht u). specialize (Hto u). lia. }
  split_and!; [lia|lia|unfold under_way in *; lia| |exact (Hall t)| | |].
  - unfold in_flight. rewrite Hm, (proj2 (Z.eqb_neq max 0)) by lia. unfold under_way in *. lia.
  - rewrite Htry. case_decide; [done|]. split; [done|tauto].
  - intros Hleft others Hin Hfit Hbelow. rewrite Htry, decide_True; [done|]. split; [done|]. unfold under_way. rewrite Hleft, Z.add_0_r.
    rewrite (length_split t). pose proof (count_nonneg t (tr_pending st)).
    assert (Z.of_nat (length (filter (λ u, u <> t) (tr_held st))) <= p * Z.of_nat (length others)); [|lia].
    apply held_bound.
    + intros u [Hne Hu]%list_elem_of_filter. destruct (Hin u Hu); [done|done].
    + intros u. pose proof (count_filter t u (tr_held st)). pose proof (count_nonneg u (tr_pending st)). specialize (Hall u). lia.
  - intros permit l'. unfold try_acquire. rewrite Hm, (proj2 (Z.eqb_neq max 0)) by lia.
    unfold take_tenant, finish_acquire, take_global. destruct (0 <? tenant_semaphore t l); [|done]. simpl.
    destruct (0 <? il_global l); [|done]. intros [= <- <-]. simpl. split; [lia|]. intros u.
    unfold drop_permit. change (tenant_semaphore u (give_global ?x)) with (tenant_semaphore u x). simpl. unfold give_tenant. rewrite semaphore_set.
    change (tenant_semaphore ?x (set_global _ ?y)) with (tenant_semaphore x y). rewrite !semaphore_set.
    destruct (decide (t = u)) as [->|]; [rewrite decide_True by done; lia|done].
Qed.

(** With the limiter off, a permit is two of the unlimited pool. *)
Lemma disabled_acquire M per t : 4 <= M -> (try_acquire t (with_per_tenant M 0 per)).1 = Some PUnlimited ∧
  in_flight (try_acquire t (with_per_tenant M 0 per)).2 = 0.
Proof.
  intros HM. unfold with_per_tenant, unlimited_permits, try_acquire, take_global. simpl.
  assert (2 <= M / 2) by (apply Z.div_le_lower_bound; lia).
  destruct (Z.ltb_spec 0 (M / 2)); [|lia]. simpl. destruct (Z.ltb_spec 0 (M / 2 - 1)); [done|lia].
Qed.

(** Between the two steps of a drop even an idle limiter refuses. *)
Lemma refused_while_returning :
  let st := traffic_run [EBegin 1; EFinish 0; EDrop 0] (with_per_tenant 100 1 0) in
  tr_held st = [] ∧ (try_acquire 1 (tr_limiter st)).1 = None ∧
  (try_acquire 1 (tr_limiter (traffic_step st EReturn))).1 = Some (PTenant 1).
Proof. vm_compute. done. Qed.

Lemma backpressure_fair_witness :
  (try_acquire 2 (tr_limiter (traffic_run [EBegin 1; EFinish 0; EBegin 1; EFinish 0; EBegin 1] (with_per_tenant 100 8 0)))).1
  = Some (PTenant 2).
Proof.
  set (st := traffic_run [EBegin 1; EFinish 0; EBegin 1; EFinish 0; EBegin 1] (with_per_tenant 100 8 0)).
  assert (Eh : tr_held st = [1; 1]) by (vm_compute; reflexivity).
  assert (El : tr_leaving st = 0%nat) by (vm_compute; reflexivity).
  assert (Ep : il_per_tenant_max (with_per_tenant 100 8 0) = 2) by (vm_compute; reflexivity).
  assert (Ec : count 2 (tr_held st) + count 2 (tr_pending st) = 0) by (vm_compute; reflexivity).
  destruct (backpressure_fair 100 8 0 [EBegin 1; EFinish 0; EBegin 1; EFinish 0; EBegin 1] 2) as (_ & _ & _ & _ & _ & H & _);
    [lia|lia|].
  fold st in H. rewrite Eh, El, Ep in H. rewrite Eh in Ec. apply (H eq_refl [1]).
  - intros u Hu. right. set_solver.
  - simpl. lia.
  - lia.
Defined.
