(* ===== verification/SourceSync.v ===== *)
(** * Source sync (core/src/source_sync.rs, store/src/document_versions.rs)

    A document may follow a web address: a scanner claims the documents that
    are due, a job fetches the address and either notes that nothing changed
    or ingests the new bytes, and every change is recorded as a version.  The
    statements work on the tables of [Schema] and the table of versions.
    Times are microseconds.  Rows that tie in an order come in that of the
    table's enumeration, and claimed rows in the order of the claim. *)

From stdpp Require Import base gmap list strings sorting.
From Stdlib Require Import ZArith Lia Strings.Byte.
From S2P Require Import Prelude StableSort FloatModel Text Json Role Blob Envelope ColumnCrypt Schema PgStore StoreInvariant StoreIngest.
Open Scope Z_scope.

(** ** Schedules *)

(** [Ord::clamp]: panics when the bounds are crossed. *)
Definition clamp (lo hi x : Z) : option Z := if hi <? lo then None else Some (Z.max lo (Z.min hi x)).
Definition clamp_fetch_interval (interval : option Z) (min_secs max_secs : Z) : option (option Z) :=
  match interval with
  | None => Some None
  | Some s => c ← clamp min_secs max_secs s; Some (Some c)
  end.

(** [now + Duration::seconds(secs)]: both steps panic out of range. *)
Definition MAX_CHRONO_MICROS : Z := 8210266876799999999.
Definition add_secs (now secs : Z) : option Z :=
  if Z.abs (secs * 1000) <=? ity_max i64
  then if Z.abs (now + secs * 1000000) <=? MAX_CHRONO_MICROS then Some (now + secs * 1000000) else None
  else None.
Definition compute_next_fetch_at (now : Z) (interval : option Z) : option (option Z) :=
  match interval with
  | None => Some None
  | Some secs => t ← add_secs now secs; Some (Some t)
  end.

Definition compute_failure_backoff (base_secs failure_count max_backoff_secs : Z) : Z :=
  let exp := Z.min (wrap u32 failure_count) 5 in
  Z.min (saturating_mul i64 base_secs (Z.shiftl 1 exp)) max_backoff_secs.

Inductive RefetchAction := Unchanged | Changed.
Definition decide_refetch_action (last_fetch_sha256 new_sha256 : bytes) : RefetchAction :=
  if bool_decide (last_fetch_sha256 = new_sha256) then Unchanged else Changed.

(** ** Tables *)

Record TagSnapshotEntry := mkSnap { sn_name : chars; sn_source : string; sn_locked : bool }.
Record VersionRow := mkVersion {
  v_id : Z;
  v_tenant : Z;
  v_sha256 : option bytes;
  v_title : option chars;
  v_summary : option chars;
  v_tags : list TagSnapshotEntry;
  v_chunk_count : Z;
  v_diff : option chars;
  v_created_at : Z;
}.
Record AuditRow := mkAuditRow { ar_actor : Z; ar_tenant : Z; ar_action : string; ar_target : Z; ar_details : json }.

(** The document store with the versions by document and number. *)
Record SyncStore := mkSyncStore {
  sn_store : Store;
  sn_versions : gmap (Z * Z) VersionRow;
  sn_next : Z;
  sn_audit : list AuditRow;
}.
Definition sync_db (s : SyncStore) : Db := st_db (sn_store s).

Inductive SyncError :=
| SDb (e : DbError)
| SNotNull
| SOutOfRange
| SPanic.

Definition sync (A : Type) : Type := SyncStore -> result A SyncError * SyncStore.
#[global] Instance sync_ret : MRet sync := λ A a s, (Ok a, s).
#[global] Instance sync_bind : MBind sync := λ A B k m s,
  match m s with
  | (Ok a, s') => k a s'
  | (Err e, s') => (Err e, s')
  end.
Definition sync_fail {A} (e : SyncError) : sync A := λ s, (Err e, s).
Definition sync_asks {A} (f : SyncStore -> A) : sync A := λ s, (Ok (f s), s).
Definition no_sync_panic {A} (o : option A) : sync A := λ s, (match o with Some a => Ok a | None => Err SPanic end, s).
(** A call of the document store. *)
Definition on_docs {A} (m : dbm A) : sync A := λ s,
  let (r, st) := m (sn_store s) in
  (match r with Ok a => Ok a | Err e => Err (SDb e) end, mkSyncStore st (sn_versions s) (sn_next s) (sn_audit s)).
(** A transaction: what fails, a panic included, leaves the tables. *)
Definition stx {A} (body : sync A) : sync A := λ s,
  if negb (st_connected (sn_store s)) then (Err (SDb NotConnected), s)
  else
    match body s with
    | (Ok a, s') => (Ok a, s')
    | (Err e, s') => (Err e, mkSyncStore (sn_store s) (sn_versions s) (sn_next s') (sn_audit s))
    end.

Definition set_sync (f : SourceSync -> SourceSync) (r : DocumentRow) : DocumentRow :=
  mkDocumentRow (dr_tenant r) (dr_title r) (dr_summary r) (dr_summary_enc r) (dr_user_note r) (dr_user_note_enc r) (dr_kind r)
    (dr_meta r) (dr_page_count r) (dr_local_only r) (dr_status r) (dr_created_at r) (f (dr_sync r)).
Definition update_sync (P : Z -> DocumentRow -> bool) (f : SourceSync -> SourceSync) : sync unit := λ s,
  (Ok tt, mkSyncStore (set_db (sn_store s) (with_documents (update_where P (set_sync f)) (sync_db s)))
            (sn_versions s) (sn_next s) (sn_audit s)).
(** [UPDATE documents SET .. WHERE id = $1 AND tenant_id = $2]. *)
Definition update_doc_sync (t doc : Z) (f : SourceSync -> SourceSync) : sync unit :=
  update_sync (λ k r, (k =? doc) && rls t (dr_tenant r)) f.
Definition visible_doc (t doc : Z) (db : Db) : option DocumentRow :=
  match documents db !! doc with Some r => if rls t (dr_tenant r) then Some r else None | None => None end.

(** ** Versions *)

Definition fetch_tags_snapshot (db : Db) (t doc : Z) : list TagSnapshotEntry :=
  omap (λ kr : Z * TagRow, dt ← doc_tags db !! (doc, kr.1); Some (mkSnap (t_name kr.2) (as_str (dt_source dt)) (dt_locked dt)))
    (by_name (document_tags db t doc)).
Definition count_live_chunks (db : Db) (t doc : Z) : Z :=
  Z.of_nat (length (rows_where (λ _ c, rls t (c_tenant c) && (c_document c =? doc) && live_chunk c) (chunks db))).

(** [INSERT]: the row's id is taken whether or not the row is. *)
Definition insert_version (doc n : Z) (row : Z -> VersionRow) (or_nothing : bool) : sync unit := λ s,
  let next := sn_next s + 1 in
  match sn_versions s !! (doc, n) with
  | Some _ => (if or_nothing then Ok tt else Err (SDb UniqueViolation), mkSyncStore (sn_store s) (sn_versions s) next (sn_audit s))
  | None => (Ok tt, mkSyncStore (sn_store s) (<[(doc, n) := row (sn_next s)]> (sn_versions s)) next (sn_audit s))
  end.

Definition bump_version (now : Z) (sha : option bytes) (y : SourceSync) : SourceSync :=
  mkSync (source_url y) (fetch_interval_secs y) (next_fetch_at y) (Some now) sha (current_version y + 1) 0.

(** The two statements: the version row with the number the statement read (and
    tags and chunks read before it), and the bump of the number [m] the row has
    when it is updated. *)
Definition version_stmt (now t doc n : Z) (db : Db) (sha : option bytes) (title summary diff : option chars) : sync unit :=
  insert_version doc n
    (λ id, mkVersion id t sha title summary (fetch_tags_snapshot db t doc) (count_live_chunks db t doc) diff now) true.
Definition advance_stmt (now t doc m : Z) (sha : option bytes) : sync unit :=
  if m + 1 <=? ity_max i32 then update_doc_sync t doc (bump_version now sha) else sync_fail SOutOfRange.

(** In one transaction, and on its own: nothing locks the row between the two
    statements, see [raced_advances_skip_a_number]. *)
Definition insert_document_version_and_advance (now t doc : Z) (new_sha256 : option bytes)
    (new_title new_summary diff_summary : option chars) : sync unit :=
  stx (
    db ← sync_asks sync_db;
    match visible_doc t doc db with
    | None => sync_fail SNotNull
    | Some r =>
        version_stmt now t doc (current_version (dr_sync r)) db new_sha256 new_title new_summary diff_summary;;
        advance_stmt now t doc (current_version (dr_sync r)) new_sha256
    end).

Record DocumentVersion := mkDocVersion { dv_document : Z; dv_version : Z; dv_row : VersionRow }.
(** A stored hash that is not 32 bytes reads as none. *)
Definition version_of_row (kr : (Z * Z) * VersionRow) : DocumentVersion :=
  let r := kr.2 in
  mkDocVersion kr.1.1 kr.1.2
    (mkVersion (v_id r) (v_tenant r) (b ← v_sha256 r; if (length b =? 32)%nat then Some b else None) (v_title r) (v_summary r)
       (v_tags r) (v_chunk_count r) (v_diff r) (v_created_at r)).
(** Newest first. *)
Definition list_document_versions (t doc : Z) : sync (list DocumentVersion) :=
  stx (sync_asks (λ s, version_of_row <$>
    sort_by_key (λ kr : (Z * Z) * VersionRow, - kr.1.2)
      (map_to_list (filter (λ kr : (Z * Z) * VersionRow, (kr.1.1 =? doc) && rls t (v_tenant kr.2) = true) (sn_versions s))))).
Definition get_document_version (t doc n : Z) : sync (option DocumentVersion) :=
  stx (sync_asks (λ s,
    match sn_versions s !! (doc, n) with
    | Some r => if rls t (v_tenant r) then Some (version_of_row ((doc, n), r)) else None
    | None => None
    end)).

Definition snapshot_current_version_if_none (now t doc : Z) : sync unit :=
  stx (
    existing ← sync_asks (λ s, match sn_versions s !! (doc, 1) with Some r => rls t (v_tenant r) | None => false end);
    if existing : bool then mret tt
    else
      db ← sync_asks sync_db;
      match visible_doc t doc db with
      | None => mret tt
      | Some r =>
          insert_version doc 1
            (λ id, mkVersion id t None (dr_title r) (dr_summary r) (fetch_tags_snapshot db t doc) (count_live_chunks db t doc)
                     (Some (str "Snapshot at sync enablement")) now) false
      end).

(** ** Settings and the schedule *)

Definition cleared_sync (y : SourceSync) : SourceSync := mkSync None None None None None (current_version y) 0.
Definition armed_sync (url : chars) (interval next : option Z) (y : SourceSync) : SourceSync :=
  mkSync (Some url) interval next (last_fetched_at y) (last_fetch_sha256 y) (current_version y) 0.

Definition update_source_settings (now t doc : Z) (source_url : option chars) (fetch_interval_secs : option Z)
    (min_fetch_interval max_fetch_interval : Z) : sync unit :=
  stx (
    match source_url with
    | None | Some [] => update_doc_sync t doc cleared_sync
    | Some url =>
        clamped ← no_sync_panic (clamp_fetch_interval fetch_interval_secs min_fetch_interval max_fetch_interval);
        next_fetch ← no_sync_panic (compute_next_fetch_at now clamped);
        update_doc_sync t doc (armed_sync url clamped next_fetch)
    end).

(** Due documents, the longest overdue first; [locked] are the rows another
    scanner holds. *)
Definition is_due (now : Z) (locked : gset Z) (k : Z) (r : DocumentRow) : bool :=
  negb (bool_decide (source_url (dr_sync r) = None)) &&
  match next_fetch_at (dr_sync r) with Some n => n <=? now | None => false end && bool_decide (k ∉ locked).
Definition due_key (kr : Z * DocumentRow) : Z := default 0 (next_fetch_at (dr_sync kr.2)).
Definition due_documents (now : Z) (locked : gset Z) (batch : nat) (db : Db) : list (Z * DocumentRow) :=
  take batch (sort_by_key due_key (rows_where (is_due now locked) (documents db))).
Definition rearm (now min_interval : Z) (y : SourceSync) : SourceSync :=
  mkSync (source_url y) (fetch_interval_secs y)
    (Some (now + Z.max min_interval (default min_interval (fetch_interval_secs y)) * 1000000))
    (last_fetched_at y) (last_fetch_sha256 y) (current_version y) (fetch_failure_count y).
(** One statement, with the privileged role. *)
Definition claim_due_documents (now : Z) (locked : gset Z) (batch : nat) (min_interval_secs : Z) : sync (list (Z * Z)) := λ s,
  if negb (st_connected (sn_store s)) then (Err (SDb NotConnected), s)
  else
    let due := due_documents now locked batch (sync_db s) in
    let (_, s) := update_sync (λ k _, bool_decide (k ∈ due.*1)) (rearm now min_interval_secs) s in
    (Ok ((λ kr : Z * DocumentRow, (kr.1, dr_tenant kr.2)) <$> due), s).

Definition unchanged_sync (now : Z) (sha : bytes) (next : Z) (y : SourceSync) : SourceSync :=
  mkSync (source_url y) (fetch_interval_secs y) (Some next) (Some now) (Some sha) (current_version y) 0.
Definition mark_document_fetch_unchanged (now t doc : Z) (new_sha256 : bytes) (next_fetch : Z) : sync unit :=
  stx (update_doc_sync t doc (unchanged_sync now new_sha256 next_fetch)).

Definition failed_sync (now count : Z) (next : option Z) (y : SourceSync) : SourceSync :=
  mkSync (source_url y) (fetch_interval_secs y) next (Some now) (last_fetch_sha256 y) (current_version y) count.
Definition mark_document_fetch_failed (now t doc min_fetch_interval max_backoff : Z) : sync unit :=
  stx (
    db ← sync_asks sync_db;
    match visible_doc t doc db with
    | None => sync_fail (SDb RowNotFound)
    | Some r =>
        let new_count := Z.min (wrapping_add i32 (fetch_failure_count (dr_sync r)) 1) 10 in
        let base := default min_fetch_interval (fetch_interval_secs (dr_sync r)) in
        if 10 <=? new_count then update_doc_sync t doc (failed_sync now 10 None)
        else
          next ← no_sync_panic (add_secs now (compute_failure_backoff base new_count max_backoff));
          update_doc_sync t doc (failed_sync now new_count (Some next))
    end).

Definition scheduled_sync (next : Z) (y : SourceSync) : SourceSync :=
  mkSync (source_url y) (fetch_interval_secs y) (Some next) (last_fetched_at y) (last_fetch_sha256 y) (current_version y)
    (fetch_failure_count y).
Definition set_document_next_fetch_at (t doc next_fetch : Z) : sync unit := stx (update_doc_sync t doc (scheduled_sync next_fetch)).

(** ** What the document store leaves alone *)

(** Documents stay, with their tenant and version number; new ones start at
    version 1. *)
Definition numbered (r : DocumentRow) : Z * Z := (dr_tenant r, current_version (dr_sync r)).
Definition docs_grow (db db' : Db) : Prop := ∀ k,
  match documents db !! k, documents db' !! k with
  | Some r, Some r' => numbered r' = numbered r
  | Some _, None => False
  | None, Some r' => current_version (dr_sync r') = 1
  | None, None => True
  end.

Lemma docs_grow_same db db' : documents db' = documents db -> docs_grow db db'.
Proof. intros E k. rewrite E. by destruct (documents db !! k). Qed.
Lemma docs_grow_trans db1 db2 db3 : docs_grow db1 db2 -> docs_grow db2 db3 -> docs_grow db1 db3.
Proof.
  intros H1 H2 k. specialize (H1 k). specialize (H2 k).
  destruct (documents db1 !! k), (documents db2 !! k), (documents db3 !! k); try done; [congruence|].
  unfold numbered in *. simplify_eq. congruence.
Qed.
Lemma docs_grow_put db id r : match documents db !! id with
    | Some r0 => numbered r = numbered r0 | None => current_version (dr_sync r) = 1 end ->
  docs_grow db (with_documents <[id := r]> db).
Proof.
  intros Hr k. simpl. destruct (decide (k = id)) as [->|].
  - rewrite lookup_insert_eq. by destruct (documents db !! id).
  - rewrite lookup_insert_ne by done. by destruct (documents db !! k).
Qed.

Section Store.
Context `{Aead} `{QueryBuilder}.

Definition same_docs {A} (m : dbm A) : Prop := ∀ s, documents (st_db (m s).2) = documents (st_db s).

Lemma sd_ret {A} (a : A) : same_docs (mret a). Proof. done. Qed.
Lemma sd_throw {A} e : same_docs (throw (A:=A) e). Proof. done. Qed.
Lemma sd_of_res {A} (r : result A DbError) : same_docs (of_res r). Proof. done. Qed.
Lemma sd_asks {A} (f : Store -> A) : same_docs (asks f). Proof. done. Qed.
Lemma sd_next get bump : same_docs (nextval get bump). Proof. done. Qed.
Lemma sd_pool : same_docs admin_pool.
Proof using Type. intros s. unfold admin_pool. by destruct (st_connected s). Qed.
Lemma sd_bind {A B} (m : dbm A) (k : A -> dbm B) : same_docs m -> (∀ a, same_docs (k a)) -> same_docs (m ≫= k).
Proof using Type.
  intros Hm Hk s. unfold mbind, dbm_bind. specialize (Hm s). destruct (m s) as [[a|e] s1]; simpl in *; [|done].
  by rewrite Hk.
Qed.
Lemma sd_stmt {A} (f : Db -> result (A * Db) DbError) :
  (∀ db a db', f db = Ok (a, db') -> documents db' = documents db) -> same_docs (stmt f).
Proof using Type.
  intros Hf s. unfold stmt. destruct (f (st_db s)) as [[a db]|] eqn:E; [|done]. by apply Hf in E.
Qed.
Lemma sd_tx {A} (m : dbm A) : same_docs m -> same_docs (tx m).
Proof using Type.
  intros Hm s. unfold tx. destruct (st_connected s); [|done]. simpl. specialize (Hm s).
  by destruct (m s) as [[a|e] s1].
Qed.
Lemma sd_keeps {A} (m : dbm A) : keeps m -> same_docs m.
Proof using Type. intros Hm s. apply Hm. Qed.

#[local] Hint Resolve sd_ret sd_throw sd_of_res sd_asks sd_next sd_pool sd_tx : store.
#[local] Hint Resolve sd_keeps keeps_write_dek keeps_encrypt_with keeps_encrypt_field : store.
#[local] Hint Extern 2 (same_docs (_ ≫= _)) => apply sd_bind; [|intros ?] : store.
#[local] Hint Extern 3 (same_docs (stmt _)) => apply sd_stmt; intros; case_all; done : store.
#[local] Hint Extern 4 (same_docs (match ?x with _ => _ end)) => destruct x : store.

Lemma sd_replace t dof fid dek cs : same_docs (replace_chunks t dof fid dek cs).
Proof using Type.
  assert (Hec : same_docs (encrypt_chunks dek cs)) by (induction cs; simpl; eauto 10 with store).
  assert (Hic : ∀ rows, same_docs (insert_chunks t dof fid rows))
    by (induction rows as [|[]]; simpl; unfold insert_chunk, next_chunk; eauto 10 with store).
  unfold replace_chunks, delete_live_chunks. eauto 10 with store.
Qed.

Lemma sd_ingest_rest t now did recs tag_ids fcs dek : same_docs (
  fids ← upsert_files t did recs;
  stmt (clear_llm t did);;
  insert_llm_tags t did tag_ids;;
  replace_all_chunks t did dek (zip fids fcs);;
  supersede_files t now did fids;;
  supersede_chunks t now did fids;;
  mret did).
Proof using Type.
  assert (Hra : ∀ fs, same_docs (replace_all_chunks t did dek fs))
    by (induction fs as [|[]]; simpl; eauto using sd_replace with store).
  assert (Hfs : same_docs (upsert_files t did recs))
    by (induction recs; simpl; unfold upsert_file_row, next_file; eauto 10 with store).
  unfold insert_llm_tags, supersede_files, supersede_chunks, clear_llm. eauto 40 with store.
Qed.

Definition grows {A} (m : dbm A) : Prop := ∀ s, db_ok (st_db s) -> docs_grow (st_db s) (st_db (m s).2).

Lemma grows_same {A} (m : dbm A) : same_docs m -> grows m.
Proof using Type. intros Hm s _. by apply docs_grow_same. Qed.
Lemma grows_then {A B} (m : dbm A) (k : A -> dbm B) : grows m -> (∀ a, same_docs (k a)) -> grows (m ≫= k).
Proof using Type.
  intros Hm Hk s Hok. unfold mbind, dbm_bind. specialize (Hm s Hok). destruct (m s) as [[a|e] s1]; simpl in *; [|done].
  eapply docs_grow_trans; [done|]. apply docs_grow_same, Hk.
Qed.
Lemma grows_after {A B} t (m : dbm A) (k : A -> dbm B) : same_docs m -> safe t m -> (∀ a, grows (k a)) -> grows (m ≫= k).
Proof using Type.
  intros Hm Hs Hk s Hok. unfold mbind, dbm_bind. specialize (Hm s). destruct (Hs s Hok) as [Hok1 _].
  destruct (m s) as [[a|e] s1]; simpl in *; [|by apply docs_grow_same].
  eapply docs_grow_trans; [by apply docs_grow_same|]. by apply Hk.
Qed.
Lemma grows_tx {A} (m : dbm A) : grows m -> grows (tx m).
Proof using Type.
  intros Hm s Hok. unfold tx. destruct (st_connected s); [|by apply docs_grow_same]. simpl. specialize (Hm s Hok).
  destruct (m s) as [[a|e] s1]; [done|]. by apply docs_grow_same.
Qed.

Lemma grows_update t id doc st se ue : grows (update_document t id doc st se ue).
Proof using Type.
  intros s _. unfold update_document, stmt. destruct (documents (st_db s) !! id) as [r|] eqn:Hr; [|by apply docs_grow_same].
  unfold rls. destruct (dr_tenant r =? t) eqn:Ht; [|by apply docs_grow_same]. simpl.
  destruct (doc_tenant doc =? t) eqn:Hd; [|by apply docs_grow_same]. simpl.
  destruct (kind_check _); [|by apply docs_grow_same]. simpl. apply docs_grow_put. rewrite Hr. unfold numbered. simpl.
  bool_to_prop. congruence.
Qed.
Lemma grows_insert t now doc st se ue : grows (insert_document t now doc st se ue).
Proof using Type.
  intros s Hok. unfold insert_document, next_document, nextval, mbind, dbm_bind, stmt. simpl. unfold rls.
  destruct (doc_tenant doc =? t); [|by apply docs_grow_same]. simpl.
  destruct (kind_check _); [|by apply docs_grow_same]. simpl. case_decide; [|by apply docs_grow_same]. simpl.
  apply (docs_grow_put (st_db s)). by rewrite fresh_document.
Qed.

Lemma store_exec_grows op s : store_op_ok op -> db_ok (st_db s) -> docs_grow (st_db s) (st_db (store_exec op s)).
Proof using Type.
  intros Hop Hok. destruct op; simpl; unfold discard.
  1: { revert s Hok. unfold upsert_document. apply (grows_after (doc_tenant doc)); [eauto with store|apply safe_write_dek|intros dek].
       do 2 (apply (grows_after 0); [eauto with store|apply safe_encrypt_field|intros ?]).
       apply grows_tx. destruct (_ >? _); [apply grows_update|apply grows_insert]. }
  10: { revert s Hok. unfold transactional_ingest. apply (grows_after 0); [destruct (_ =? _)%nat; done|apply safe_guard|intros ?].
        apply (grows_after (doc_tenant doc)); [eauto with store|apply safe_write_dek|intros ?].
        do 2 (apply (grows_after 0); [eauto with store|apply safe_encrypt_field|intros ?]).
        apply grows_tx. unfold ingest_body. apply (grows_after 0); [done|apply safe_asks|intros target].
        apply grows_then; [|intros; apply sd_ingest_rest]. destruct (_ >? _); [apply grows_update|apply grows_insert]. }
  all: apply docs_grow_same; clear Hok Hop; revert s.
  - change (same_docs (upsert_file rec)). unfold upsert_file, upsert_file_row, next_file. eauto 10 with store.
  - change (same_docs (upsert_chunks fid cs)). unfold upsert_chunks. pose proof sd_replace.
    apply sd_bind; [destruct cs; eauto 10 with store|]. intros u. apply sd_bind; [eauto with store|]. intros dek. by apply sd_tx.
  - change (same_docs (upsert_tag t name e)). unfold upsert_tag, next_tag. eauto 10 with store.
  - change (same_docs (insert_tag_alias t alias tag)). unfold insert_tag_alias. eauto 10 with store.
  - change (same_docs (insert_document_tags t doc tag_ids src)). unfold insert_document_tags. eauto 10 with store.
  - change (same_docs (clear_llm_document_tags t doc)). unfold clear_llm_document_tags, clear_llm. eauto 10 with store.
  - change (same_docs (set_document_tag_locked t doc tag locked)). unfold set_document_tag_locked. eauto 10 with store.
  - change (same_docs (remove_document_tag t doc tag)). unfold remove_document_tag. eauto 10 with store.
  - change (same_docs (update_file_page_order t fid page)). unfold update_file_page_order. eauto 10 with store.
Qed.
End Store.

(** ** The history of a document *)

(** Versions 1 to one below the current number exist; beyond them there is at
    most the snapshot taken when the address was attached. *)
Record history_ok (s : SyncStore) : Prop := {
  ho_db : db_ok (sync_db s);
  ho_number k r : documents (sync_db s) !! k = Some r -> 1 <= current_version (dr_sync r) <= ity_max i32;
  ho_row k n row : sn_versions s !! (k, n) = Some row -> ∃ r, documents (sync_db s) !! k = Some r ∧
    dr_tenant r = v_tenant row ∧ 1 <= n ∧ (n < current_version (dr_sync r) ∨ n = 1);
  ho_gapless k r n : documents (sync_db s) !! k = Some r -> 1 <= n < current_version (dr_sync r) ->
    is_Some (sn_versions s !! (k, n));
}.

(** A step that adds at most rows to the history, and keeps the documents. *)
Record history_step (s s' : SyncStore) : Prop := {
  hs_versions : sn_versions s ⊆ sn_versions s';
  hs_docs k r : documents (sync_db s) !! k = Some r -> ∃ r', documents (sync_db s') !! k = Some r' ∧
    dr_tenant r' = dr_tenant r ∧ current_version (dr_sync r) <= current_version (dr_sync r');
}.

Lemma history_step_refl s : history_step s s.
Proof. split; [done|]. intros k r Hr. exists r. split_and!; [done..|lia]. Qed.
Lemma history_step_trans s1 s2 s3 : history_step s1 s2 -> history_step s2 s3 -> history_step s1 s3.
Proof.
  intros H1 H2. split; [etrans; [apply H1|apply H2]|]. intros k r Hr.
  apply (hs_docs _ _ H1) in Hr as (r1 & Hr & Ht & Hv). apply (hs_docs _ _ H2) in Hr as (r2 & Hr & Ht2 & Hv2).
  exists r2. split_and!; [done|congruence|lia].
Qed.

(** Both, for a call from a good history. *)
Definition keeps_history {A} (m : sync A) : Prop := ∀ s, history_ok s -> history_ok (m s).2 ∧ history_step s (m s).2.

(** The versions are as they were, and the documents only grew. *)
Lemma history_grow s s' : sn_versions s' = sn_versions s -> db_ok (sync_db s') -> docs_grow (sync_db s) (sync_db s') ->
  history_ok s -> history_ok s' ∧ history_step s s'.
Proof.
  intros Ev Hok Hg [_ Hn Hr Hgap].
  assert (Hold : ∀ k r', documents (sync_db s') !! k = Some r' -> current_version (dr_sync r') = 1 ∨
    ∃ r, documents (sync_db s) !! k = Some r ∧ numbered r' = numbered r).
  { intros k r' E. specialize (Hg k). rewrite E in Hg. destruct (documents (sync_db s) !! k); eauto. }
  assert (Hnew : ∀ k r, documents (sync_db s) !! k = Some r -> ∃ r', documents (sync_db s') !! k = Some r' ∧ numbered r' = numbered r).
  { intros k r E. specialize (Hg k). rewrite E in Hg. destruct (documents (sync_db s') !! k); [eauto|done]. }
  unfold numbered in *. split; split; rewrite ?Ev; try done.
  - intros k r' E. destruct (Hold k r' E) as [->|(r & Er & [= Et ->])]; [done|eauto].
  - intros k n row E. destruct (Hr k n row E) as (r & Er & Ht & Hrest). destruct (Hnew k r Er) as (r' & Er' & [= Et Ec]).
    exists r'. rewrite Et, Ec. done.
  - intros k r' n E Hlt. destruct (Hold k r' E) as [E1|(r & Er & [= Et Ec])]; [lia|]. rewrite Ec in Hlt. eauto.
  - intros k r E. destruct (Hnew k r E) as (r' & Er' & [= Et Ec]). exists r'. split_and!; [done..|lia].
Qed.

Lemma history_same s s' : sn_versions s' = sn_versions s -> sync_db s' = sync_db s -> history_ok s ->
  history_ok s' ∧ history_step s s'.
Proof.
  intros Ev Ed Hs. apply history_grow; rewrite ?Ed; try done; [apply Hs|by apply docs_grow_same].
Qed.

Lemma kh_same {A} (m : sync A) : (∀ s, sn_versions (m s).2 = sn_versions s ∧ sync_db (m s).2 = sync_db s) -> keeps_history m.
Proof. intros Hm s. by apply history_same; apply Hm. Qed.
Lemma kh_bind {A B} (m : sync A) (k : A -> sync B) : keeps_history m -> (∀ a, keeps_history (k a)) -> keeps_history (m ≫= k).
Proof.
  intros Hm Hk s Hs. unfold mbind, sync_bind. destruct (Hm s Hs) as [Hok Hst]. destruct (m s) as [[a|e] s1]; simpl in *; [|done].
  destruct (Hk a s1 Hok) as [Hok2 Hst2]. split; [done|]. by eapply history_step_trans.
Qed.
Lemma kh_stx {A} (m : sync A) : keeps_history m -> keeps_history (stx m).
Proof.
  intros Hm s Hs. unfold stx. destruct (st_connected (sn_store s)); [|by apply history_same]. simpl.
  specialize (Hm s Hs). destruct (m s) as [[a|e] s1]; [done|]. by apply history_same.
Qed.

(** Settings and schedule do not touch what the tables' invariant speaks of. *)
Lemma update_sync_ok P f db : db_ok db -> db_ok (with_documents (update_where P (set_sync f)) db).
Proof.
  intros Hok.
  assert (Hi : ∀ k, is_Some (documents db !! k) -> is_Some (update_where P (set_sync f) (documents db) !! k))
    by (intros k [r Hr]; rewrite lookup_update_where, Hr; eauto).
  split; simpl; try apply Hok.
  - intros k r. rewrite lookup_update_where. intros (r0 & E & ->)%fmap_Some. apply (ok_documents _ Hok) in E.
    by destruct (P k r0).
  - intros k r E. apply (ok_files _ Hok) in E as (? & ? & ? & ? & ?). split_and!; auto.
  - intros k c E. apply (ok_chunks _ Hok) in E as (? & ? & ? & ? & ?). split_and!; auto.
  - intros k dt E. apply (ok_doc_tags _ Hok) in E as [? ?]. auto.
Qed.

Lemma kh_update P f : (∀ y, current_version (f y) = current_version y) -> keeps_history (update_sync P f).
Proof.
  intros Hf s Hs. apply history_grow; [done|apply update_sync_ok, Hs| |done]. intros k. unfold update_sync, sync_db. simpl.
  rewrite lookup_update_where. destruct (documents (st_db (sn_store s)) !! k) as [r|]; [|done]. simpl.
  destruct (P k r); [|done]. unfold numbered. simpl. by rewrite Hf.
Qed.

Lemma visible_doc_Some t doc db r : visible_doc t doc db = Some r <-> documents db !! doc = Some r ∧ dr_tenant r = t.
Proof.
  unfold visible_doc, rls. destruct (documents db !! doc) as [r0|]; [|naive_solver].
  destruct (Z.eqb_spec (dr_tenant r0) t); naive_solver.
Qed.

Lemma update_doc_lookup t doc f s k : documents (sync_db (update_doc_sync t doc f s).2) !! k =
  (λ r, if (k =? doc) && rls t (dr_tenant r) then set_sync f r else r) <$> documents (sync_db s) !! k.
Proof. unfold update_doc_sync, update_sync, sync_db. simpl. by rewrite lookup_update_where. Qed.

(** A row for a version the document has reached, or the snapshot. *)
Lemma kh_insert doc n row b s r : history_ok s -> documents (sync_db s) !! doc = Some r ->
  (∀ id, v_tenant (row id) = dr_tenant r) -> 1 <= n -> (n <= current_version (dr_sync r) ∨ n = 1) ->
  sn_versions s !! (doc, n) = None ∨ b = true ->
  ∃ s', insert_version doc n row b s = (Ok tt, s') ∧ sync_db s' = sync_db s ∧ sn_versions s ⊆ sn_versions s' ∧
    is_Some (sn_versions s' !! (doc, n)) ∧
    (∀ k m v, sn_versions s' !! (k, m) = Some v -> sn_versions s !! (k, m) = Some v ∨ k = doc ∧ m = n ∧ v_tenant v = dr_tenant r).
Proof.
  intros Hs Hr Ht Hn Hc Hb. unfold insert_version. destruct (sn_versions s !! (doc, n)) as [v|] eqn:E.
  - destruct Hb as [? | -> ]; [done|]. eexists. split_and!; [done|done|done|simpl; eauto|simpl; eauto].
  - eexists. split_and!; [done|done|by apply insert_subseteq|simpl; rewrite lookup_insert_eq; eauto|].
    simpl. intros k m v. destruct (decide ((k, m) = (doc, n))) as [[= -> ->]|Hne].
    + rewrite lookup_insert_eq. intros [= <-]. by right.
    + rewrite lookup_insert_ne by done. by left.
Qed.

Lemma kh_snapshot now t doc : keeps_history (snapshot_current_version_if_none now t doc).
Proof.
  apply kh_stx. intros s Hs. unfold mbind, sync_bind, sync_asks. simpl.
  set (b := match sn_versions s !! (doc, 1) with Some r => rls t (v_tenant r) | None => false end).
  destruct b eqn:Eb; [by apply history_same|]. destruct (visible_doc t doc (sync_db s)) as [r|] eqn:Er; [|by apply history_same].
  apply visible_doc_Some in Er as [Er Ht].
  assert (E1 : sn_versions s !! (doc, 1) = None).
  { subst b. destruct (sn_versions s !! (doc, 1)) as [v|] eqn:Ev; [|done]. exfalso.
    destruct (ho_row _ Hs _ _ _ Ev) as (r' & Er' & Ht' & _). unfold rls in Eb. bool_to_prop. congruence. }
  match goal with |- context [insert_version doc 1 ?row false s] =>
    destruct (kh_insert doc 1 row false s r) as (s' & -> & Ed & Hsub & Hnew & Hrow); [done..|simpl; auto|lia|auto|auto|] end.
  simpl.
  destruct Hs as [Hok Hnum Hr Hg]. split; split; rewrite ?Ed; try done.
  - intros k m v [Hv|(-> & -> & Hv)]%Hrow; [eauto|]. exists r. split_and!; [done|by rewrite Hv|lia|by right].
  - intros k r' n Hk Hlt. destruct (Hg k r' n Hk Hlt) as [v Hv]. exists v. by eapply lookup_weaken.
  - intros k r' Hk. exists r'. split_and!; [done..|lia].
Qed.

(** The version row goes in unless there is one, and the number moves on. *)
Lemma advance_ok now t doc sha title summary diff s s' : history_ok s ->
  insert_document_version_and_advance now t doc sha title summary diff s = (Ok tt, s') ->
  ∃ r row, st_connected (sn_store s) = true ∧ documents (sync_db s) !! doc = Some r ∧ dr_tenant r = t ∧
    current_version (dr_sync r) < ity_max i32 ∧
    row = mkVersion (sn_next s) t sha title summary (fetch_tags_snapshot (sync_db s) t doc)
            (count_live_chunks (sync_db s) t doc) diff now ∧
    sn_versions s' = (if decide (is_Some (sn_versions s !! (doc, current_version (dr_sync r)))) then sn_versions s
                      else <[(doc, current_version (dr_sync r)) := row]> (sn_versions s)) ∧
    sync_db s' = with_documents (update_where (λ k r, (k =? doc) && rls t (dr_tenant r)) (set_sync (bump_version now sha))) (sync_db s).
Proof.
  intros Hs. unfold insert_document_version_and_advance, stx. destruct (st_connected (sn_store s)); [|done]. simpl.
  unfold mbind, sync_bind, sync_asks. simpl.
  destruct (visible_doc t doc (sync_db s)) as [r|] eqn:Er; [|done]. apply visible_doc_Some in Er as [Er Ht].
  unfold version_stmt, advance_stmt, insert_version. set (row := mkVersion _ _ _ _ _ _ _ _ _).
  pose proof (ho_number _ Hs _ _ Er) as Hn.
  destruct (sn_versions s !! (doc, current_version (dr_sync r))) as [v|] eqn:Ev; simpl;
    (destruct (_ <=? _) eqn:Hle; [|done]); bool_to_prop; intros [= <-]; exists r, row; simpl;
    (split_and!; [done|done|done|simpl in *; lia|done| |done]).
  - by rewrite decide_True by eauto.
  - rewrite decide_False; [done|]. rewrite Ev. by intros [? ?].
Qed.

Lemma kh_advance now t doc sha title summary diff :
  keeps_history (insert_document_version_and_advance now t doc sha title summary diff).
Proof.
  intros s Hs. destruct (insert_document_version_and_advance now t doc sha title summary diff s) as [[[]|e] s'] eqn:E.
  2: { unfold insert_document_version_and_advance, stx in E. destruct (st_connected _); [|injection E as _ <-; by apply history_same].
       simpl in E. destruct ((sync_asks sync_db ≫= _) s) as [[[]|e'] s1]; [done|]. injection E as _ <-. by apply history_same. }
  apply advance_ok in E as (r & row & _ & Er & Ht & Hmax & -> & Ev & Ed); [|done]. simpl.
  assert (Hdoc : ∀ k, documents (sync_db s') !! k = (λ r, if (k =? doc) && rls t (dr_tenant r)
    then set_sync (bump_version now sha) r else r) <$> documents (sync_db s) !! k) by (intros k; by rewrite Ed; simpl; rewrite lookup_update_where).
  assert (Hown : documents (sync_db s') !! doc = Some (set_sync (bump_version now sha) r)).
  { rewrite Hdoc, Er. simpl. unfold rls. by rewrite Z.eqb_refl, (proj2 (Z.eqb_eq _ _) Ht). }
  assert (Hother : ∀ k, k <> doc -> documents (sync_db s') !! k = documents (sync_db s) !! k).
  { intros k Hk. rewrite Hdoc, (proj2 (Z.eqb_neq k doc)) by done. simpl. by destruct (documents (sync_db s) !! k). }
  assert (Hsub : sn_versions s ⊆ sn_versions s').
  { rewrite Ev. case_decide as Hd; [done|]. apply insert_subseteq. destruct (sn_versions s !! _); [|done]. destruct Hd. eauto. }
  pose proof (ho_number _ Hs _ _ Er) as Hcur.
  split; split; try done.
  - rewrite Ed. apply update_sync_ok, Hs.
  - intros k r'. destruct (decide (k = doc)) as [->|]; [rewrite Hown; intros [= <-]; simpl in *; lia|].
    rewrite Hother by done. apply Hs.
  - intros k n v Hv.
    assert (Hold : sn_versions s !! (k, n) = Some v ∨ (k = doc ∧ n = current_version (dr_sync r) ∧ v_tenant v = t)).
    { rewrite Ev in Hv. case_decide; [by left|]. destruct (decide ((k, n) = (doc, current_version (dr_sync r)))) as [[= -> ->]|].
      - rewrite lookup_insert_eq in Hv. injection Hv as <-. by right.
      - rewrite lookup_insert_ne in Hv by done. by left. }
    destruct Hold as [Hv'|(-> & -> & Hvt)]; [|exists (set_sync (bump_version now sha) r); simpl; split_and!; [done|congruence|lia|lia]].
    destruct (ho_row _ Hs _ _ _ Hv') as (r0 & E0 & Ht0 & Hn & Hc). destruct (decide (k = doc)) as [->|].
    + simplify_eq. exists (set_sync (bump_version now sha) r). simpl. split_and!; [done|done|lia|lia].
    + exists r0. rewrite Hother by done. done.
  - intros k r' n Hk Hlt. destruct (decide (k = doc)) as [->|]; [|rewrite Hother in Hk by done; eapply lookup_weaken_is_Some; [by eapply ho_gapless|done]].
    rewrite Hown in Hk. injection Hk as <-. simpl in Hlt.
    destruct (decide (n = current_version (dr_sync r))) as [->|].
    + rewrite Ev. case_decide; [done|]. rewrite lookup_insert_eq. eauto.
    + eapply lookup_weaken_is_Some; [|done]. eapply ho_gapless; [done..|lia].
  - intros k r' Hk. destruct (decide (k = doc)) as [->|]; [simplify_eq; eexists; split_and!; [done|done|simpl; lia]|].
    exists r'. rewrite Hother by done. split_and!; [done..|lia].
Qed.

Inductive sync_op :=
| SAdvance (now t doc : Z) (sha : option bytes) (title summary diff : option chars)
| SSnapshot (now t doc : Z)
| SSettings (now t doc : Z) (url : option chars) (interval : option Z) (min_secs max_secs : Z)
| SClaim (now : Z) (locked : gset Z) (batch : nat) (min_secs : Z)
| SUnchanged (now t doc : Z) (sha : bytes) (next : Z)
| SFailed (now t doc min_secs max_backoff : Z)
| SNextFetch (t doc next : Z)
| SDocs (op : store_op).

Section Histories.
Context `{Aead} `{QueryBuilder}.

Definition sync_exec (op : sync_op) (s : SyncStore) : SyncStore :=
  match op with
  | SAdvance now t doc sha title summary diff => (insert_document_version_and_advance now t doc sha title summary diff s).2
  | SSnapshot now t doc => (snapshot_current_version_if_none now t doc s).2
  | SSettings now t doc url interval lo hi => (update_source_settings now t doc url interval lo hi s).2
  | SClaim now locked batch lo => (claim_due_documents now locked batch lo s).2
  | SUnchanged now t doc sha next => (mark_document_fetch_unchanged now t doc sha next s).2
  | SFailed now t doc lo hi => (mark_document_fetch_failed now t doc lo hi s).2
  | SNextFetch t doc next => (set_document_next_fetch_at t doc next s).2
  | SDocs op => mkSyncStore (store_exec op (sn_store s)) (sn_versions s) (sn_next s) (sn_audit s)
  end.
Definition sync_op_ok (op : sync_op) : Prop := match op with SDocs op => store_op_ok op | _ => True end.
Definition sync_run (ops : list sync_op) (s : SyncStore) : SyncStore := foldl (λ s op, sync_exec op s) s ops.

Lemma sync_exec_history op s : sync_op_ok op -> history_ok s -> history_ok (sync_exec op s) ∧ history_step s (sync_exec op s).
Proof using Type.
  intros Hop. destruct op as [| |now t doc url interval lo hi|now locked batch lo| |now t doc lo hi| |]; cbn [sync_exec].
  - apply kh_advance.
  - apply kh_snapshot.
  - apply kh_stx. destruct url as [[|c url]|]; [by apply kh_update| |by apply kh_update].
    do 2 (apply kh_bind; [by apply kh_same|intros ?]). by apply kh_update.
  - intros Hs. unfold claim_due_documents. destruct (st_connected (sn_store s)); [|by apply history_same]. simpl.
    eapply (kh_update _ (rearm now lo)); done.
  - by apply kh_stx, kh_update.
  - apply kh_stx, kh_bind; [by apply kh_same|]. intros db. destruct (visible_doc t doc db); [|by apply kh_same].
    cbv zeta. destruct (Z.leb _ _); [by apply kh_update|]. apply kh_bind; [by apply kh_same|]. intros next. by apply kh_update.
  - by apply kh_stx, kh_update.
  - intros Hs. destruct (store_exec_safe op (sn_store s) Hop (ho_db _ Hs)) as [Hok _].
    apply history_grow; [done|done| |done]. apply (store_exec_grows op (sn_store s) Hop), Hs.
Qed.

Lemma sync_run_history ops s : Forall sync_op_ok ops -> history_ok s -> history_ok (sync_run ops s) ∧ history_step s (sync_run ops s).
Proof using Type.
  intros Hops. revert s. induction Hops as [|op ops Hop _ IH]; intros s Hs; [split; [done|apply history_step_refl]|]. simpl.
  destruct (sync_exec_history op s Hop Hs) as [Hok Hst]. destruct (IH _ Hok) as [Hok2 Hst2].
  split; [done|]. by eapply history_step_trans.
Qed.
End Histories.

(** ** Reading the history *)

Definition countdown (n : nat) : list Z := reverse (Z.of_nat <$> seq 1 n).

Lemma countdown_elem n x : x ∈ countdown n <-> 1 <= x <= Z.of_nat n.
Proof.
  unfold countdown. rewrite elem_of_reverse, list_elem_of_fmap. split.
  - intros (i & -> & Hi%elem_of_seq). lia.
  - intros Hx. exists (Z.to_nat x). split; [lia|]. apply elem_of_seq. lia.
Qed.

(** A list of the numbers 1 to n, from the greatest down. *)
Lemma countdown_unique (l : list Z) n : StronglySorted (λ x y, y <= x) l -> NoDup l ->
  (∀ x, x ∈ l <-> 1 <= x <= Z.of_nat n) -> l = countdown n.
Proof.
  intros Hs Hnd Hl. assert (AntiSymm (=) (λ x y : Z, y <= x)) by (intros x y ??; lia).
  apply (StronglySorted_unique (λ x y : Z, y <= x)).
  - done.
  - unfold countdown. clear. induction n as [|n IH]; [constructor|].
    rewrite seq_S, fmap_app, reverse_app. simpl. constructor; [done|]. apply Forall_forall. intros x Hx.
    fold (countdown n) in Hx. apply countdown_elem in Hx. lia.
  - apply NoDup_Permutation; [done| |intros x; by rewrite Hl, countdown_elem].
    unfold countdown. rewrite reverse_Permutation. apply NoDup_fmap; [intros ???; lia|apply NoDup_seq].
Qed.

Lemma versions_read s t doc r : history_ok s -> st_connected (sn_store s) = true ->
  documents (sync_db s) !! doc = Some r -> dr_tenant r = t ->
  ∃ l n, list_document_versions t doc s = (Ok l, s) ∧ dv_version <$> l = countdown n ∧
    (Z.of_nat n = current_version (dr_sync r) - 1 ∨ current_version (dr_sync r) = 1 ∧ n = 1%nat) ∧
    ∀ v, v ∈ l -> dv_document v = doc ∧ ∃ row, sn_versions s !! (doc, dv_version v) = Some row ∧ v = version_of_row ((doc, dv_version v), row).
Proof.
  intros Hs Hc Hr Ht. unfold list_document_versions, stx, sync_asks. rewrite Hc. simpl.
  set (own := map_to_list _). set (rows := sort_by_key _ own).
  assert (Hown : ∀ k m v, ((k, m), v) ∈ own <-> k = doc ∧ sn_versions s !! (doc, m) = Some v).
  { intros k m v. unfold own. rewrite elem_of_map_to_list, map_lookup_filter_Some. simpl. split.
    - intros [Hv HP]. bool_to_prop. by subst.
    - intros [-> Hv]. split; [done|]. destruct (ho_row _ Hs _ _ _ Hv) as (r' & Er' & Ht' & _). unfold rls.
      rewrite Z.eqb_refl. simpl. apply Z.eqb_eq. congruence. }
  assert (Hin : ∀ x, x ∈ rows <-> x ∈ own) by (intros x; apply sort_by_elem_of).
  assert (Hkeys : ∀ m, m ∈ (λ kr : (Z * Z) * VersionRow, kr.1.2) <$> rows <-> is_Some (sn_versions s !! (doc, m))).
  { intros m. rewrite list_elem_of_fmap. split.
    - intros ([[k m'] v] & -> & Hv). apply Hin, Hown in Hv as [-> Hv]. eauto.
    - intros [v Hv]. exists ((doc, m), v). split; [done|]. by apply Hin, Hown. }
  assert (Hnum : ∀ m, is_Some (sn_versions s !! (doc, m)) -> 1 <= m ∧ (m < current_version (dr_sync r) ∨ m = 1)).
  { intros m [v Hv]. destruct (ho_row _ Hs _ _ _ Hv) as (r' & Er' & _ & ? & ?). simplify_eq. done. }
  pose proof (ho_number _ Hs _ _ Hr) as Hcur.
  assert (Hn : ∃ n, (Z.of_nat n = current_version (dr_sync r) - 1 ∨ current_version (dr_sync r) = 1 ∧ n = 1%nat) ∧
    ∀ m, is_Some (sn_versions s !! (doc, m)) <-> 1 <= m <= Z.of_nat n).
  { destruct (decide (current_version (dr_sync r) = 1)) as [E1|Hne].
    - destruct (sn_versions s !! (doc, 1)) as [v|] eqn:E.
      + exists 1%nat. split; [by right|]. intros m. split; [intros Hm; specialize (Hnum m Hm); lia|].
        intros ?. replace m with 1 by lia. eauto.
      + exists 0%nat. split; [left; lia|]. intros m. split; [|lia]. intros Hm. specialize (Hnum m Hm).
        replace m with 1 in Hm by lia. rewrite E in Hm. by destruct Hm.
    - exists (Z.to_nat (current_version (dr_sync r) - 1)). split; [left; lia|]. intros m. split; [intros Hm; specialize (Hnum m Hm); lia|].
      intros ?. eapply ho_gapless; [done..|lia]. }
  destruct Hn as (n & Hn & Hm). exists (version_of_row <$> rows), n. split_and!; [done| |done|].
  - rewrite <- list_fmap_compose. apply countdown_unique; [| |intros m; rewrite <- Hm; apply Hkeys].
    + eapply (StronglySorted_fmap (dv_version ∘ version_of_row) (λ x y, leb_by_key (λ kr : (Z * Z) * VersionRow, - kr.1.2) x y = true)); [|apply sort_by_ordered; [apply leb_by_key_total|apply leb_by_key_trans]].
      intros x y Hxy. unfold leb_by_key in Hxy. simpl in *. bool_to_prop. lia.
    + change ((dv_version ∘ version_of_row) <$> rows) with ((λ kr : (Z * Z) * VersionRow, kr.1.2) <$> rows).
      rewrite (sort_by_perm _ own : rows ≡ₚ own).
      assert (Hsnd : ∀ k m v, ((k, m), v) ∈ own -> k = doc) by (intros k m v Hv; by apply Hown in Hv as [-> _]).
      pose proof (NoDup_fst_map_to_list (filter (λ kr : (Z * Z) * VersionRow, (kr.1.1 =? doc) && rls t (v_tenant kr.2) = true) (sn_versions s))) as Hnd.
      fold own in Hnd. clear -Hsnd Hnd. induction own as [|[[k m] v] own IH]; [constructor|]. csimpl in *.
      apply NoDup_cons in Hnd as [Hk Hnd]. constructor; [|apply IH; [intros; eapply Hsnd; by right|done]].
      rewrite list_elem_of_fmap. intros ([[k' m'] v'] & Em & Hv'). simpl in Em. subst m'. apply Hk.
      apply list_elem_of_fmap. exists ((k', m), v'). split; [|done]. simpl.
      rewrite (Hsnd k m v) by (by left). by rewrite (Hsnd k' m v') by (by right).
  - intros v ([[k m] row] & -> & Hv)%list_elem_of_fmap. apply Hin, Hown in Hv as [-> Hv]. simpl. eauto.
Qed.


(** The number of a change is the document's current one, so the first change
    after the snapshot finds version 1 taken: its row is dropped and the
    number moves on, and the history does not show that change. *)
Lemma first_change_lost now t doc sha title summary diff s s' r : history_ok s ->
  documents (sync_db s) !! doc = Some r -> current_version (dr_sync r) = 1 -> is_Some (sn_versions s !! (doc, 1)) ->
  insert_document_version_and_advance now t doc sha title summary diff s = (Ok tt, s') ->
  sn_versions s' = sn_versions s ∧ ∃ r', documents (sync_db s') !! doc = Some r' ∧ current_version (dr_sync r') = 2.
Proof.
  intros Hs Hr H1 Hv E. apply advance_ok in E as (r0 & row & _ & Hr0 & Ht & _ & _ & Ev & Ed); [|done]. simplify_eq.
  rewrite H1 in Ev. rewrite decide_True in Ev by done. split; [done|].
  eexists. rewrite Ed. simpl. rewrite lookup_update_where, Hr. simpl. unfold rls. rewrite !Z.eqb_refl. simpl.
  split; [done|]. simpl. lia.
Qed.

(** Two calls that overlap: the second's insert reads the number before the
    first commits, waits for its row, finds it and does nothing; then it bumps
    the number again. The second change is not recorded, and the number between
    is skipped. *)
Lemma raced_advances_skip_a_number now now' t doc db db' sha sha' title title' summary summary' diff diff' s r :
  documents (sync_db s) !! doc = Some r -> dr_tenant r = t -> current_version (dr_sync r) + 2 <= ity_max i32 ->
  sn_versions s !! (doc, current_version (dr_sync r) + 1) = None ->
  let n := current_version (dr_sync r) in
  let first := version_stmt now t doc n db sha title summary diff;; advance_stmt now t doc n sha in
  let second := version_stmt now' t doc n db' sha' title' summary' diff';; advance_stmt now' t doc (n + 1) sha' in
  let s' := (first;; second) s in
  s'.1 = Ok tt ∧ sn_versions s'.2 = sn_versions (first s).2 ∧ sn_versions s'.2 !! (doc, n + 1) = None ∧
  ∃ r', documents (sync_db s'.2) !! doc = Some r' ∧ current_version (dr_sync r') = n + 2.
Proof.
  intros Hr Ht Hmax Hnone n. subst t. unfold version_stmt, advance_stmt. fold n in Hmax, Hnone.
  rewrite (proj2 (Z.leb_le (n + 1) _)), (proj2 (Z.leb_le (n + 1 + 1) _)) by lia.
  cbv zeta. unfold mbind, sync_bind, insert_version.
  destruct (sn_versions s !! (doc, n)) as [v|] eqn:Ev; cbn; [rewrite Ev|rewrite lookup_insert_eq]; cbn.
  - split_and!; [done|done|done|]. unfold sync_db. cbn. rewrite !lookup_update_where.
    change (documents (st_db (sn_store s)) !! doc) with (documents (sync_db s) !! doc). rewrite Hr. cbn.
    unfold rls. rewrite !Z.eqb_refl. cbn. eexists. split; [done|]. cbn. lia.
  - split_and!; [done|done|rewrite lookup_insert_ne; [done|intros [= E]; lia]|]. unfold sync_db. cbn. rewrite !lookup_update_where.
    change (documents (st_db (sn_store s)) !! doc) with (documents (sync_db s) !! doc). rewrite Hr. cbn.
    unfold rls. rewrite !Z.eqb_refl. cbn. eexists. split; [done|]. cbn. lia.
Qed.

(** ** Claiming *)

Lemma due_elem now locked batch db k r : (k, r) ∈ due_documents now locked batch db -> documents db !! k = Some r ∧ is_due now locked k r = true.
Proof.
  unfold due_documents. intros Hin%elem_of_take. destruct Hin as (i & Hi & _). apply list_elem_of_lookup_2, sort_by_elem_of in Hi.
  by apply rows_where_elem in Hi.
Qed.

Lemma due_NoDup now locked batch db : NoDup (due_documents now locked batch db).*1.
Proof.
  unfold due_documents. rewrite fmap_take. eapply sublist_NoDup; [|apply sublist_take].
  rewrite (sort_by_perm _ (rows_where (is_due now locked) (documents db)) : sort_by_key due_key _ ≡ₚ _). apply rows_where_NoDup.
Qed.

(** What is left behind is not overdue for longer than what is claimed. *)
Lemma due_first now locked batch db k r : documents db !! k = Some r -> is_due now locked k r = true ->
  k ∉ (due_documents now locked batch db).*1 ->
  length (due_documents now locked batch db) = batch ∧
  ∀ kr, kr ∈ due_documents now locked batch db -> due_key kr <= due_key (k, r).
Proof.
  intros Hr Hdue Hnot. unfold due_documents in *.
  assert (Hin : (k, r) ∈ sort_by_key due_key (rows_where (is_due now locked) (documents db))) by (apply sort_by_elem_of, rows_where_elem; done).
  pose proof (sort_by_ordered _ (leb_by_key_total due_key) (leb_by_key_trans due_key) (rows_where (is_due now locked) (documents db))) as Hs.
  fold (sort_by_key due_key (rows_where (is_due now locked) (documents db))) in Hs.
  set (l := sort_by_key due_key _) in *. unfold ordered in Hs.
  rewrite <- (take_drop batch l) in Hs, Hin. apply elem_of_app in Hin as [Hin|Hin].
  { destruct Hnot. apply list_elem_of_fmap. by exists (k, r). }
  split.
  - rewrite length_take. apply list_elem_of_lookup in Hin as [i Hi]. apply lookup_lt_Some in Hi. rewrite length_drop in Hi. lia.
  - intros kr Hkr. eapply StronglySorted_app_1_elem_of in Hs; [|exact Hkr|exact Hin]. unfold leb_by_key in Hs. by apply Z.leb_le.
Qed.

Lemma claim_ok now locked batch lo s claimed s' : claim_due_documents now locked batch lo s = (Ok claimed, s') ->
  claimed = (λ kr : Z * DocumentRow, (kr.1, dr_tenant kr.2)) <$> due_documents now locked batch (sync_db s) ∧
  claimed.*1 = (due_documents now locked batch (sync_db s)).*1 ∧
  ∀ k, documents (sync_db s') !! k =
    (λ r, if bool_decide (k ∈ claimed.*1) then set_sync (rearm now lo) r else r) <$> documents (sync_db s) !! k.
Proof.
  unfold claim_due_documents. destruct (st_connected (sn_store s)); [|done]. simpl. intros [= <- <-].
  assert (Hk : ((λ kr : Z * DocumentRow, (kr.1, dr_tenant kr.2)) <$> due_documents now locked batch (sync_db s)).*1
    = (due_documents now locked batch (sync_db s)).*1) by (by rewrite <- list_fmap_compose).
  split_and!; [done|done|]. intros k. rewrite Hk. unfold sync_db. simpl. by rewrite lookup_update_where.
Qed.

(** C30. Claiming is exact and spaced.  A claim takes at most the batch, no
    document twice, and only documents that have an address, are due and are
    not held by another scanner; a due document it leaves means the batch is
    full of documents overdue at least as long.  Only the next fetch time of
    the claimed documents changes, and none of them is claimed again before
    the minimum interval has passed, by any scanner. *)
Theorem claims_spaced (now lo : Z) (locked : gset Z) (batch : nat) (s s' : SyncStore) (claimed : list (Z * Z)) :
  claim_due_documents now locked batch lo s = (Ok claimed, s') ->
  (length claimed <= batch)%nat ∧ NoDup claimed.*1 ∧
  (∀ k t, (k, t) ∈ claimed -> ∃ r n, documents (sync_db s) !! k = Some r ∧ dr_tenant r = t ∧ is_Some (source_url (dr_sync r)) ∧
     next_fetch_at (dr_sync r) = Some n ∧ n <= now ∧ k ∉ locked ∧
     documents (sync_db s') !! k = Some (set_sync (rearm now lo) r)) ∧
  (∀ k r, documents (sync_db s) !! k = Some r -> k ∉ claimed.*1 -> documents (sync_db s') !! k = Some r ∧
     (is_due now locked k r = true -> length claimed = batch ∧ ∀ k' r', k' ∈ claimed.*1 ->
        documents (sync_db s) !! k' = Some r' -> due_key (k', r') <= due_key (k, r))) ∧
  (∀ now' locked' batch' lo' claimed' s2, now' < now + lo * 1000000 ->
     claim_due_documents now' locked' batch' lo' s' = (Ok claimed', s2) -> ∀ k, k ∈ claimed.*1 -> k ∉ claimed'.*1).
Proof.
  intros E. apply claim_ok in E as (Hc & Hkeys & Hdocs). split_and!.
  - rewrite Hc, length_fmap. unfold due_documents. rewrite length_take. lia.
  - rewrite Hkeys. apply due_NoDup.
  - intros k t Hin. assert (Hk : k ∈ claimed.*1) by (apply list_elem_of_fmap; by exists (k, t)).
    rewrite Hc in Hin. apply list_elem_of_fmap in Hin as ([k' r] & [= -> ->] & Hin). apply due_elem in Hin as [Hr Hdue].
    unfold is_due in Hdue. destruct (next_fetch_at (dr_sync r)) as [n|] eqn:En; [|by rewrite andb_false_r in Hdue]. bool_to_prop.
    exists r, n. split_and!; try done; [|by rewrite Hdocs, Hr, bool_decide_eq_true_2].
    by destruct (source_url (dr_sync r)).
  - intros k r Hr Hk. rewrite Hdocs, Hr, bool_decide_eq_false_2 by done. split; [done|]. intros Hdue. rewrite Hkeys in Hk.
    destruct (due_first _ _ _ _ _ _ Hr Hdue Hk) as [Hl Hle]. split; [by rewrite Hc, length_fmap|].
    intros k' r' Hk' Hr'. rewrite Hkeys in Hk'. apply list_elem_of_fmap in Hk' as ([k2 r2] & -> & Hin). apply Hle.
    pose proof (due_elem _ _ _ _ _ _ Hin) as [Hr2 _]. simpl in Hr'. by simplify_eq.
  - intros now' locked' batch' lo' claimed' s2 Hlt E k Hk Hk'. apply claim_ok in E as (_ & Hkeys' & _). rewrite Hkeys' in Hk'.
    apply list_elem_of_fmap in Hk' as ([k2 r2] & -> & Hin). apply due_elem in Hin as [Hr Hdue]. simpl in Hk.
    rewrite Hdocs, bool_decide_eq_true_2 in Hr by done. apply fmap_Some in Hr as (r & Hr & ->).
    unfold is_due in Hdue. simpl in Hdue. bool_to_prop. lia.
Qed.

(** ** Failures *)

Lemma add_secs_ok now secs : 0 <= now -> 0 <= secs -> secs * 1000 <= ity_max i64 -> now + secs * 1000000 <= MAX_CHRONO_MICROS ->
  add_secs now secs = Some (now + secs * 1000000).
Proof.
  intros. unfold add_secs. rewrite (proj2 (Z.leb_le _ _)) by (rewrite Z.abs_eq; lia).
  by rewrite (proj2 (Z.leb_le _ _)) by (rewrite Z.abs_eq; lia).
Qed.

(** The delay after the [n]-th failure in a row. *)
Definition backoff (base n hi : Z) : Z := Z.min (base * 2 ^ Z.min n 5) hi.

Lemma failure_backoff_exact base n hi : 0 <= base -> base * 32 <= ity_max i64 -> 0 <= n <= 10 ->
  compute_failure_backoff base n hi = backoff base n hi.
Proof.
  intros Hb Hmax Hn. unfold compute_failure_backoff, backoff. rewrite wrap_id by (unfold in_ty; simpl; lia).
  rewrite Z.shiftl_1_l. f_equal. unfold saturating_mul. apply saturate_id.
  assert (1 <= 2 ^ Z.min n 5 <= 32) by (split; [apply (Z.pow_le_mono_r 2 0); lia|apply (Z.pow_le_mono_r 2 _ 5); lia]).
  unfold in_ty. simpl in *. nia.
Qed.

Section Failures.
Context (t doc lo hi : Z) (Hhi : 0 <= hi) (Hhi64 : hi * 1000 <= ity_max i64).

Definition next_after (base n now : Z) : option Z := if n =? 10 then None else Some (now + backoff base n hi * 1000000).

Lemma set_sync_set_sync f g r : set_sync f (set_sync g r) = set_sync (λ y, f (g y)) r.
Proof using Type. done. Qed.

Lemma failed_once now s r (base := default lo (fetch_interval_secs (dr_sync r))) (n := Z.min (fetch_failure_count (dr_sync r) + 1) 10) :
  st_connected (sn_store s) = true -> documents (sync_db s) !! doc = Some r -> dr_tenant r = t ->
  0 <= fetch_failure_count (dr_sync r) <= 10 -> 0 <= base -> base * 32 <= ity_max i64 ->
  0 <= now -> now + hi * 1000000 <= MAX_CHRONO_MICROS ->
  ∃ s', mark_document_fetch_failed now t doc lo hi s = (Ok tt, s') ∧ st_connected (sn_store s') = true ∧
    sn_versions s' = sn_versions s ∧
    ∀ k, documents (sync_db s') !! k =
      if decide (k = doc) then Some (set_sync (failed_sync now n (next_after base n now)) r) else documents (sync_db s) !! k.
Proof using Hhi Hhi64.
  intros Hc Hr Ht Hcount Hb Hb32 Hnow Hmax.
  assert (Hupd : ∀ f k, documents (sync_db (update_doc_sync t doc f s).2) !! k =
    if decide (k = doc) then Some (set_sync f r) else documents (sync_db s) !! k).
  { intros f k. rewrite update_doc_lookup. unfold rls. case_decide as Hk.
    - subst k. rewrite Hr. simpl. by rewrite Z.eqb_refl, (proj2 (Z.eqb_eq _ _) Ht).
    - rewrite (proj2 (Z.eqb_neq k doc)) by done. simpl. by destruct (documents (sync_db s) !! k). }
  unfold mark_document_fetch_failed, stx. rewrite Hc. simpl. unfold mbind, sync_bind, sync_asks. simpl.
  rewrite (proj2 (visible_doc_Some t doc (sync_db s) r)) by done.
  assert (wrapping_add i32 (fetch_failure_count (dr_sync r)) 1 = fetch_failure_count (dr_sync r) + 1) as ->
    by (unfold wrapping_add; apply wrap_id; unfold in_ty; simpl; lia).
  fold n base. unfold next_after. destruct (10 <=? n) eqn:H10; bool_to_prop.
  - assert (n = 10) as -> by lia. eexists. split_and!; [done|done|done|]. exact (Hupd _).
  - rewrite (proj2 (Z.eqb_neq n 10)) by lia. unfold no_sync_panic. rewrite failure_backoff_exact by lia.
    assert (0 <= backoff base n hi <= hi).
    { unfold backoff. assert (0 <= base * 2 ^ Z.min n 5) by (apply Z.mul_nonneg_nonneg; [lia|apply Z.pow_nonneg; lia]). lia. }
    rewrite add_secs_ok by lia. eexists. split_and!; [done|done|done|]. exact (Hupd _).
Qed.

Definition fail_run (nows : list Z) (s : SyncStore) : SyncStore :=
  foldl (λ s now, (mark_document_fetch_failed now t doc lo hi s).2) s nows.

Lemma fail_run_state (nows : list Z) (now : Z) (s : SyncStore) (r : DocumentRow) (base := default lo (fetch_interval_secs (dr_sync r))) :
  st_connected (sn_store s) = true -> documents (sync_db s) !! doc = Some r -> dr_tenant r = t ->
  0 <= fetch_failure_count (dr_sync r) <= 10 -> 0 <= base -> base * 32 <= ity_max i64 ->
  Forall (λ w, 0 <= w ∧ w + hi * 1000000 <= MAX_CHRONO_MICROS) (nows ++ [now]) ->
  let s' := fail_run (nows ++ [now]) s in
  let n := Z.min (fetch_failure_count (dr_sync r) + Z.of_nat (length nows) + 1) 10 in
  st_connected (sn_store s') = true ∧ sn_versions s' = sn_versions s ∧
  documents (sync_db s') !! doc = Some (set_sync (failed_sync now n (next_after base n now)) r) ∧
  (∀ k, k <> doc -> documents (sync_db s') !! k = documents (sync_db s) !! k).
Proof using Hhi Hhi64.
  intros Hc Hr Ht Hcount Hb Hb32. revert now. induction nows as [|w nows IH] using rev_ind; intros now Hnows s' n.
  - apply Forall_singleton in Hnows as [Hw Hmax]. destruct (failed_once now s r) as (s1 & E & Hc1 & Ev & Hk); [done..|].
    assert (Hs : s' = s1) by (unfold s', fail_run; simpl; by rewrite E). rewrite Hs. clear Hs s'.
    assert (Hn : n = Z.min (fetch_failure_count (dr_sync r) + 1) 10) by (unfold n; simpl; f_equal; lia). rewrite Hn.
    split_and!; [done|done|by rewrite Hk, decide_True|by intros k Hne; rewrite Hk, decide_False].
  - apply Forall_app in Hnows as [Hnows Hnow]. apply Forall_singleton in Hnow as [Hw Hmax].
    destruct (IH w Hnows) as (Hc1 & Ev1 & Hr1 & Hk1). set (s1 := fail_run (nows ++ [w]) s) in *.
    set (n1 := Z.min _ 10) in Hr1. set (r1 := set_sync _ r) in Hr1.
    destruct (failed_once now s1 r1) as (s2 & E & Hc2 & Ev2 & Hk2); [done..|simpl; unfold n1; lia|done|done|done|done|].
    assert (Hs : s' = s2) by (unfold s', fail_run; rewrite foldl_app; fold (fail_run (nows ++ [w]) s); fold s1; simpl; by rewrite E).
    rewrite Hs. clear Hs s'.
    assert (Hn : n = Z.min (fetch_failure_count (dr_sync r1) + 1) 10)
      by (unfold n; cbn [r1 set_sync dr_sync failed_sync fetch_failure_count]; unfold n1; rewrite length_app; simpl; lia).
    split_and!; [done|congruence| |intros k Hne; rewrite Hk2, decide_False by done; by apply Hk1].
    rewrite Hk2, decide_True, Hn by done. done.
Qed.

End Failures.

(** ** Witnesses: a document that changes, fails and is claimed again *)

Definition demo_start : SyncStore := mkSyncStore (mkStore true empty_db None []) ∅ 1 [].
Definition demo_exec (ops : list sync_op) : SyncStore := @sync_run plain_aead demo_builder ops demo_start.
Definition demo_attach : list sync_op :=
  [SDocs (OUpsertDocument 0 (demo_doc KDocument)); SSettings 0 1 1 (Some (str "http://example.org/")) (Some 3600) 300 86400].
Definition demo_changes : list sync_op :=
  [SAdvance 5 1 1 None (Some (str "First")) None None; SAdvance 6 1 1 None (Some (str "Second")) None None].
Definition demo_synced : SyncStore := demo_exec demo_attach.
Definition demo_row : DocumentRow := default (mkDocumentRow 0 None None None None None "" JNull 0 false "" 0 (mkSync None None None None None 0 0))
  (documents (sync_db demo_synced) !! 1).

Lemma demo_start_ok : history_ok demo_start.
Proof. split; [exact empty_db_ok|done..]. Qed.
Lemma demo_row_eq : documents (sync_db demo_synced) !! 1 = Some demo_row.
Proof. vm_compute. reflexivity. Qed.


Definition demo_claim : result (list (Z * Z)) SyncError * SyncStore := claim_due_documents 4000000000 ∅ 5 300 demo_synced.
Lemma demo_claim_eq : demo_claim = (Ok [(1, 1)], demo_claim.2).
Proof. vm_compute. reflexivity. Qed.

Lemma claims_spaced_witness :
  demo_claim.1 = Ok [(1, 1)] ∧ ∀ claimed s2, claim_due_documents 4000000001 ∅ 5 300 demo_claim.2 = (Ok claimed, s2) -> 1 ∉ claimed.*1.
Proof.
  split; [vm_compute; reflexivity|]. intros claimed s2 E.
  destruct (claims_spaced 4000000000 300 ∅ 5 demo_synced demo_claim.2 [(1, 1)] demo_claim_eq) as (_ & _ & _ & _ & Hspaced).
  apply (Hspaced 4000000001 ∅ 5%nat 300 claimed s2 ltac:(lia) E). by left.
Defined.

