(* ===== verification/LocalBlob.v ===== *)
(** * The local-disk blob store (store/src/blob.rs)

    The file system is a map from paths, as lists of components, to
    directories and files; there are no symbolic links, so canonicalizing a
    path only fails or returns it.  System calls consume a list of outcomes
    kept in the state, so that any of them can fail; a failing write keeps
    the bytes that were written. *)

From stdpp Require Import base gmap list strings.
From Stdlib Require Import ZArith Lia Strings.Byte Ascii.
From S2P Require Import Prelude Blob Envelope.
Open Scope Z_scope.

Notation path := (list string).

(** ** Paths *)

(** [Path::components] of a relative path: separators split, empty components
    and [.] are dropped, [..] is kept. *)
Definition keep_component (c : string) : bool :=
  negb (bool_decide (c = "")) && negb (bool_decide (c = ".")).
Definition snoc (c : string) (a : ascii) : string := (c +:+ String a EmptyString)%string.

Fixpoint split_from (current : string) (s : string) : path :=
  match s with
  | EmptyString => [current]
  | String a s =>
      if Ascii.eqb a "/" then current :: split_from "" s else split_from (snoc current a) s
  end.
Definition components (s : string) : path :=
  List.filter keep_component (split_from "" s).

Definition starts_with (a : ascii) (s : string) : bool :=
  match s with String b _ => Ascii.eqb a b | EmptyString => false end.

(** [key.contains("..")]. *)
Fixpoint contains_dotdot (s : string) : bool :=
  match s with
  | String a s => (Ascii.eqb a "." && starts_with "." s) || contains_dotdot s
  | EmptyString => false
  end.

(** [Path::join]: an absolute argument replaces the path. *)
Definition join (p : path) (key : string) : path :=
  if starts_with "/" key then components key else p ++ components key.

(** ** Files *)

Inductive node := Dir | File (b : bytes).

Record LocalBlob := mkLocalBlob {
  lb_prefix : path;
  lb_disk : gmap path node;
  lb_kek : option KeyEncryptionKey;
  lb_entropy : entropy;
  (** Whether the next system calls fail. *)
  lb_faults : list bool;
  (** Where the next writes stop, [None] for one that completes. *)
  lb_torn : list (option nat);
}.

Definition set_disk (s : LocalBlob) (d : gmap path node) : LocalBlob :=
  mkLocalBlob (lb_prefix s) d (lb_kek s) (lb_entropy s) (lb_faults s) (lb_torn s).
Definition set_entropy (s : LocalBlob) (e : entropy) : LocalBlob :=
  mkLocalBlob (lb_prefix s) (lb_disk s) (lb_kek s) e (lb_faults s) (lb_torn s).

(** [set_root] (with the prefix joined on) and [set_kek]. *)
Definition lb_set_root (s : LocalBlob) (p : path) : LocalBlob :=
  mkLocalBlob p (lb_disk s) (lb_kek s) (lb_entropy s) (lb_faults s) (lb_torn s).
Definition lb_set_kek (s : LocalBlob) (k : option KeyEncryptionKey) : LocalBlob :=
  mkLocalBlob (lb_prefix s) (lb_disk s) k (lb_entropy s) (lb_faults s) (lb_torn s).

(** One system call. *)
Definition sys : prog LocalBlob unit := λ s,
  match lb_faults s with
  | [] => (Ok tt, s)
  | f :: fs =>
      (if f then Err Io else Ok tt,
       mkLocalBlob (lb_prefix s) (lb_disk s) (lb_kek s) (lb_entropy s) fs (lb_torn s))
  end.

Fixpoint mkdirs (disk : gmap path node) (made todo : path) : bool * gmap path node :=
  match todo with
  | [] => (true, disk)
  | c :: todo =>
      let p := made ++ [c] in
      match disk !! p with
      | None => mkdirs (<[p := Dir]> disk) p todo
      | Some Dir => mkdirs disk p todo
      | Some (File _) => (false, disk)
      end
  end.

(** [create_dir_all]. *)
Definition create_dir_all (p : path) : prog LocalBlob unit :=
  _ ← sys;
  act (λ s, let '(ok, disk) := mkdirs (lb_disk s) [] p in
            (if ok then Ok tt else Err Io, set_disk s disk)).

(** [File::create]. *)
Definition create (p : path) : prog LocalBlob unit :=
  _ ← sys;
  act (λ s, match lb_disk s !! p with
            | Some Dir => (Err Io, s)
            | _ => (Ok tt, set_disk s (<[p := File []]> (lb_disk s)))
            end).

(** [write_all] on the file just created. *)
Definition write_all (p : path) (data : bytes) : prog LocalBlob unit := λ s,
  let torn := head (lb_torn s) ≫= id in
  let s' := mkLocalBlob (lb_prefix s)
              (<[p := File (match torn with Some n => take n data | None => data end)]> (lb_disk s))
              (lb_kek s) (lb_entropy s) (lb_faults s) (tail (lb_torn s)) in
  (match torn with Some _ => Err Io | None => Ok tt end, s').

(** The error for a path with no node: [NotADirectory] when a component above
    it is a file, [NotFound] otherwise. *)
Definition absent (disk : gmap path node) (p : path) : BlobError :=
  if existsb (λ n, match disk !! take n p with Some (File _) => true | _ => false end) (seq 1 (length p - 1))
  then Io else NotFound.

(** [fs::read]. *)
Definition read (p : path) : prog LocalBlob bytes :=
  _ ← sys;
  act (λ s, (match lb_disk s !! p with
             | Some (File b) => Ok b
             | Some Dir => Err Io
             | None => Err (absent (lb_disk s) p)
             end, s)).

(** [fs::remove_file]. *)
Definition remove_file (p : path) : prog LocalBlob unit :=
  _ ← sys;
  act (λ s, match lb_disk s !! p with
            | Some (File _) => (Ok tt, set_disk s (delete p (lb_disk s)))
            | Some Dir => (Err Io, s)
            | None => (Err (absent (lb_disk s) p), s)
            end).

(** ** The store *)

Definition bad_key (key : string) : bool :=
  contains_dotdot key || starts_with "/" key || starts_with "092" key.

Definition blob_path (key : string) : prog LocalBlob path :=
  if bad_key key then bail InvalidKey
  else
    prefix_dir ← ask lb_prefix;
    _ ← create_dir_all prefix_dir;
    _ ← sys;
    mret (join prefix_dir key).

Definition path_exists (p : path) : prog LocalBlob bool :=
  ask (λ s, bool_decide (is_Some (lb_disk s !! p))).

Definition parent (p : path) : path := take (length p - 1) p.

Definition display (p : path) : string := ("/" +:+ String.concat "/" p)%string.

Section store.
Context `{Aead}.

(** The bytes [put] writes and what [get] makes of stored bytes. *)
Definition encode (data : bytes) : prog LocalBlob bytes :=
  kek ← ask lb_kek;
  match kek with
  | Some kek => sealed ← zoom lb_entropy set_entropy (seal kek data);
                mret (assemble sealed.1 sealed.2)
  | None => mret data
  end.
Definition decode (kek : option KeyEncryptionKey) (raw : bytes) : result bytes BlobError :=
  match kek with
  | Some kek => if is_envelope raw then open kek raw else Ok raw
  | None => Ok raw
  end.

Definition lb_put (key : string) (data : bytes) : prog LocalBlob unit :=
  p ← blob_path key;
  present ← path_exists p;
  if (present : bool) then mret tt
  else
    to_store ← encode data;
    _ ← create_dir_all (parent p);
    _ ← create p;
    _ ← write_all p to_store;
    sys.

Definition lb_get (key : string) : prog LocalBlob bytes :=
  p ← blob_path key;
  raw ← read p;
  kek ← ask lb_kek;
  of_result (decode kek raw).

Definition lb_get_range (key : string) (start end_ : Z) : prog LocalBlob bytes :=
  kek ← ask lb_kek;
  match kek with
  | Some _ =>
      plaintext ← lb_get key;
      let e := Z.min end_ (Z.of_nat (length plaintext)) in
      if e <=? start then mret [] else mret (byte_range start e plaintext)
  | None =>
      p ← blob_path key;
      data ← read p;
      _ ← sys;
      let file_len := Z.of_nat (length data) in
      if file_len <=? start then mret []
      else
        let e := Z.min end_ file_len in
        if e <? start then bail Panicked
        else _ ← sys; _ ← sys; mret (byte_range start e data)
  end.

Definition lb_exists (key : string) : prog LocalBlob bool :=
  p ← blob_path key; path_exists p.

Definition lb_delete (key : string) : prog LocalBlob unit :=
  p ← blob_path key;
  r ← attempt (remove_file p);
  match r with
  | Err NotFound => mret tt
  | r => of_result r
  end.

Definition lb_presigned_get_url (key : string) : prog LocalBlob string :=
  kek ← ask lb_kek;
  match kek with
  | Some _ => bail Unsupported
  | None =>
      p ← blob_path key;
      present ← path_exists p;
      if (present : bool) then mret ("file://" +:+ display p)%string else bail NotFound
  end.

#[global] Instance local_blob : Blob LocalBlob := {
  blob_put := lb_put;
  blob_get := lb_get;
  blob_get_range := lb_get_range;
  blob_exists := lb_exists;
  blob_delete := lb_delete;
  blob_presigned_get_url := lb_presigned_get_url;
}.
End store.

(** ** Containment *)

Lemma contains_dotdot_snoc c s : contains_dotdot s = true -> contains_dotdot (c +:+ s)%string = true.
Proof. intros Hs. induction c as [|a c IH]; simpl; [done|]. by rewrite IH, orb_true_r. Qed.

Lemma contains_dotdot_app_l c s : contains_dotdot c = true -> contains_dotdot (c +:+ s)%string = true.
Proof.
  induction c as [|a c IH]; simpl; [done|]. intros [Ha|Hc]%orb_true_iff.
  - apply orb_true_iff. left. destruct c as [|b c]; simpl in *; [by rewrite andb_false_r in Ha|done].
  - rewrite IH by done. apply orb_true_r.
Qed.

Lemma string_app_snoc c a s : (snoc c a +:+ s)%string = (c +:+ String a s)%string.
Proof. unfold snoc. induction c as [|b c IH]; [done|]. apply (f_equal (String b)), IH. Qed.

(** A component is a piece of the string it was split from. *)
Lemma split_from_dotdot c cur s :
  c ∈ split_from cur s -> contains_dotdot c = true -> contains_dotdot (cur +:+ s)%string = true.
Proof.
  revert cur. induction s as [|a s IH]; intros cur Hc Hd; simpl in Hc.
  - apply list_elem_of_singleton in Hc as ->. by apply contains_dotdot_app_l.
  - destruct (Ascii.eqb a "/").
    + apply elem_of_cons in Hc as [->|Hc]; [by apply contains_dotdot_app_l|].
      apply contains_dotdot_snoc. simpl. 
      rewrite (IH "" Hc Hd : contains_dotdot s = true). apply orb_true_r.
    + specialize (IH _ Hc Hd). by rewrite string_app_snoc in IH.
Qed.

Lemma components_dotdot s : contains_dotdot s = false -> ".." ∉ components s.
Proof.
  intros Hs Hin. unfold components in Hin. apply list_elem_of_In, filter_In in Hin as [Hin _].
  apply list_elem_of_In in Hin.
  pose proof (split_from_dotdot ".." "" s Hin eq_refl : contains_dotdot s = true). congruence.
Qed.

(** ** What the system calls leave alone *)

Definition frame (s s' : LocalBlob) : Prop :=
  lb_prefix s' = lb_prefix s ∧ lb_kek s' = lb_kek s ∧
  (Forall (.= None) (lb_torn s) -> Forall (.= None) (lb_torn s')).

Lemma frame_trans s1 s2 s3 : frame s1 s2 -> frame s2 s3 -> frame s1 s3.
Proof. unfold frame. intros (->&->&?) (->&->&?). auto. Qed.

(** The disk gained directories on the way to [top], and nothing else. *)
Definition dirs_added (top : path) (d d' : gmap path node) : Prop :=
  ∀ q, d' !! q = d !! q ∨ (d !! q = None ∧ d' !! q = Some Dir ∧ q `prefix_of` top).

Lemma dirs_added_refl top d : dirs_added top d d.
Proof. by left. Qed.

Lemma mkdirs_added todo made disk ok disk' :
  mkdirs disk made todo = (ok, disk') -> dirs_added (made ++ todo) disk disk'.
Proof.
  revert made disk. induction todo as [|c todo IH]; intros made disk; simpl.
  - intros [= <- <-]. apply dirs_added_refl.
  - replace (made ++ c :: todo) with ((made ++ [c]) ++ todo) by (by rewrite <-app_assoc).
    destruct (disk !! (made ++ [c])) as [[|b]|] eqn:E.
    + apply IH.
    + intros [= <- <-]. apply dirs_added_refl.
    + intros Hm q. destruct (IH _ _ Hm q) as [->|(Hn&->&Hp)].
      * destruct (decide (q = made ++ [c])) as [->|?]; [|left; by rewrite lookup_insert_ne].
        right. rewrite lookup_insert_eq. split_and!; [done..|]. by eexists.
      * right. split_and!; [|done..]. destruct (decide (q = made ++ [c])) as [->|?]; [done|].
        by rewrite lookup_insert_ne in Hn.
Qed.

Lemma sys_spec s r s' :
  sys s = (r, s') -> frame s s' ∧ lb_disk s' = lb_disk s ∧ r <> Err NotFound.
Proof. unfold sys. destruct (lb_faults s) as [|[]]; intros [= <- <-]; by split_and!. Qed.

Lemma create_dir_all_spec p s r s' :
  create_dir_all p s = (r, s') ->
  frame s s' ∧ dirs_added p (lb_disk s) (lb_disk s') ∧ r <> Err NotFound.
Proof.
  unfold create_dir_all. rewrite bind_run. destruct (sys s) as [r1 s1] eqn:E.
  destruct (sys_spec _ _ _ E) as (Hf & Hd & Hn). destruct r1 as [[]|e].
  - unfold act. destruct (mkdirs (lb_disk s1) [] p) as [ok disk] eqn:Em. apply mkdirs_added in Em.
    rewrite Hd in Em. intros [= <- <-]. split_and!; [done..|by destruct ok].
  - intros [= <- <-]. split_and!; [done| |done]. rewrite Hd. apply dirs_added_refl.
Qed.

Lemma blob_path_spec k s r s' :
  blob_path k s = (r, s') ->
  frame s s' ∧ dirs_added (lb_prefix s) (lb_disk s) (lb_disk s') ∧ r <> Err NotFound ∧
  ∀ p, r = Ok p -> bad_key k = false ∧ p = lb_prefix s ++ components k.
Proof.
  unfold blob_path. destruct (bad_key k) eqn:Ek.
  { intros [= <- <-]. split_and!; [by split_and!|apply dirs_added_refl|done|done]. }
  rewrite bind_run. unfold ask. rewrite bind_run.
  destruct (create_dir_all (lb_prefix s) s) as [r1 s1] eqn:E.
  destruct (create_dir_all_spec _ _ _ _ E) as (Hf & Hd & Hn).
  destruct r1 as [[]|e]; [|intros [= <- <-]; split_and!; congruence || done].
  rewrite bind_run. destruct (sys s1) as [r2 s2] eqn:E2.
  destruct (sys_spec _ _ _ E2) as (Hf2 & Hd2 & Hn2).
  pose proof (frame_trans _ _ _ Hf Hf2).
  destruct r2 as [[]|e]; intros [= <- <-]; rewrite Hd2; split_and!; congruence || done || idtac.
  intros p [= <-]. unfold join. unfold bad_key in Ek. bool_to_prop.
  by destruct (starts_with "/" k).
Qed.

(** The path of a blob stays inside the store's directory: it extends the
    prefix directory, and no component after it is [..], whatever the key. *)
Theorem local_paths_contained (key : string) (s s' : LocalBlob) (p : path) :
  blob_path key s = (Ok p, s') ->
  ∃ rest, p = lb_prefix s ++ rest ∧ ".." ∉ rest ∧
    (∀ q n, lb_disk s' !! q = Some n -> lb_disk s !! q = Some n ∨
            (n = Dir ∧ q `prefix_of` lb_prefix s)).
Proof.
  intros Hb. destruct (blob_path_spec _ _ _ _ Hb) as (_ & Hd & _ & Hp).
  destruct (Hp p eq_refl) as [Hk ->]. exists (components key). split_and!; [done| |].
  - apply components_dotdot. unfold bad_key in Hk. by bool_to_prop.
  - intros q n Hq. destruct (Hd q) as [He|(?&He&?)]; rewrite He in Hq; [by left|right].
    by simplify_eq.
Qed.

(** ** The contract of the local store *)

(** Keys that name pairwise different files, none inside another: content
    addresses under a tenant directory are such a family. *)
Definition key_family (key : string -> Prop) : Prop :=
  (∀ k, key k -> components k <> []) ∧
  ∀ k1 k2, key k1 -> key k2 -> components k1 `prefix_of` components k2 -> k1 = k2.

Section contract.
Context `{cipher : Aead} `{cipher_laws : !AeadLaws}.
Context (key : string -> Prop) (valid : string -> bytes -> Prop) (root : path)
  (kek : option KeyEncryptionKey) (family : key_family key).

(** Under the prefix directory there are only valid blobs and directories that lead to
    blobs, and no write is going to be torn. *)
Record local_inv (s : LocalBlob) : Prop := {
  li_root : lb_prefix s = root;
  li_kek : lb_kek s = kek;
  li_torn : Forall (.= None) (lb_torn s);
  li_file p b : lb_disk s !! (root ++ p) = Some (File b) ->
    ∃ k d, key k ∧ p = components k ∧ decode kek b = Ok d ∧ valid k d;
  li_dir p : lb_disk s !! (root ++ p) = Some Dir ->
    p = [] ∨ ∃ k, key k ∧ p `prefix_of` components k ∧ p <> components k;
}.

Definition local_has (s : LocalBlob) (k : string) : Prop :=
  ∃ b, lb_disk s !! (root ++ components k) = Some (File b).

Lemma family_inj k1 k2 : key k1 -> key k2 -> components k1 = components k2 -> k1 = k2.
Proof using family. intros ?? He. apply family; [done..|]. by rewrite He. Qed.

(** The node at a key's path is never a directory. *)
Lemma local_inv_node s k n :
  local_inv s -> key k -> lb_disk s !! (root ++ components k) = Some n ->
  ∃ b d, n = File b ∧ decode kek b = Ok d ∧ valid k d.
Proof using family.
  intros Hs Hk Hn. destruct n as [|b].
  - destruct (li_dir _ Hs _ Hn) as [He|(k' & Hk' & Hp & Hne)]; [by apply family in Hk|].
    apply (proj2 family) in Hp; [by subst|done..].
  - destruct (li_file _ Hs _ _ Hn) as (k' & d & ? & He & ? & ?).
    apply family_inj in He as ->; eauto.
Qed.

Lemma has_dirs top s s' :
  dirs_added top (lb_disk s) (lb_disk s') -> ∀ k, local_has s' k <-> local_has s k.
Proof using Type.
  intros Hd k. unfold local_has. destruct (Hd (root ++ components k)) as [->|(->&->&_)]; [done|].
  split; intros [? [=]].
Qed.

Lemma local_inv_dirs p s s' :
  local_inv s -> frame s s' -> dirs_added (root ++ p) (lb_disk s) (lb_disk s') ->
  (p = [] ∨ ∃ k, key k ∧ p `prefix_of` components k ∧ p <> components k) ->
  local_inv s'.
Proof using Type.
  intros [H1 H2 H3 H4 H5] (Hp & Hk & Ht) Hd Hpk. constructor; [congruence|congruence|auto|..].
  - intros q b Hq. destruct (Hd (root ++ q)) as [He|(_&He&_)]; rewrite He in Hq; eauto. done.
  - intros q Hq. destruct (Hd (root ++ q)) as [He|(_&_&Hpre)]; [rewrite He in Hq; eauto|].
    apply prefix_app_inv in Hpre. destruct Hpk as [->|(k & Hk' & Hpre' & Hne)].
    { left. by apply prefix_nil_inv in Hpre. }
    right. exists k. split_and!; [done|by trans p|]. intros ->.
    apply Hne. apply (anti_symm prefix); done.
Qed.

Lemma blob_path_inv k s r s' :
  local_inv s -> blob_path k s = (r, s') ->
  local_inv s' ∧ (∀ k', local_has s' k' <-> local_has s k') ∧ r <> Err NotFound ∧
  (∀ p, r = Ok p -> p = root ++ components k) ∧ (∀ k', key k' -> 
     lb_disk s' !! (root ++ components k') = lb_disk s !! (root ++ components k')).
Proof using family.
  intros Hs Hb. destruct (blob_path_spec _ _ _ _ Hb) as (Hf & Hd & Hn & Hp).
  rewrite (li_root _ Hs) in *. split_and!; [|by eapply has_dirs|done|intros; by apply Hp|].
  - eapply (local_inv_dirs []); [done..| |by left]. by rewrite app_nil_r.
  - intros k' Hk'. destruct (Hd (root ++ components k')) as [?|(_&_&Hpre)]; [done|].
    exfalso. rewrite <-(app_nil_r root) in Hpre at 2. apply prefix_app_inv in Hpre.
    apply prefix_nil_inv in Hpre. by apply family in Hk'.
Qed.

Lemma sys_inv s r s' : local_inv s -> sys s = (r, s') ->
  local_inv s' ∧ lb_disk s' = lb_disk s ∧ r <> Err NotFound.
Proof using Type.
  intros Hs He. destruct (sys_spec _ _ _ He) as (Hf & Hd & ?). split_and!; [|done..].
  destruct Hs, Hf as (?&?&?). constructor; try rewrite Hd; auto; congruence.
Qed.

Lemma has_disk s s' k : lb_disk s' = lb_disk s -> local_has s' k <-> local_has s k.
Proof using Type. unfold local_has. by intros ->. Qed.

Lemma local_inv_insert s s' k b d :
  local_inv s -> frame s s' -> lb_disk s' = <[root ++ components k := File b]> (lb_disk s) ->
  key k -> decode kek b = Ok d -> valid k d ->
  local_inv s' ∧ (∀ k', key k' -> local_has s' k' <-> k' = k ∨ local_has s k').
Proof using family.
  intros [H1 H2 H3 H4 H5] (Hp & Hkk & Ht) Hd Hk Hb Hv. split.
  - constructor; [congruence|congruence|auto|..]; rewrite Hd.
    + intros q b' Hq. destruct (decide (q = components k)) as [->|Hne].
      * rewrite lookup_insert_eq in Hq. simplify_eq. eauto 10.
      * rewrite lookup_insert_ne in Hq; [eauto|]. intros ?%(inj (app root)). congruence.
    + intros q Hq. destruct (decide (q = components k)) as [->|Hne].
      * by rewrite lookup_insert_eq in Hq.
      * rewrite lookup_insert_ne in Hq; [eauto|]. intros ?%(inj (app root)). congruence.
  - intros k' Hk'. unfold local_has. rewrite Hd. destruct (decide (k' = k)) as [->|Hne].
    + rewrite lookup_insert_eq. naive_solver.
    + rewrite lookup_insert_ne; [naive_solver|]. intros He%(inj (app root)).
      by apply Hne, family_inj.
Qed.

Lemma local_inv_delete s s' k :
  local_inv s -> frame s s' -> lb_disk s' = delete (root ++ components k) (lb_disk s) -> key k ->
  local_inv s' ∧ (∀ k', key k' -> local_has s' k' <-> k' <> k ∧ local_has s k').
Proof using family.
  intros [H1 H2 H3 H4 H5] (Hp & Hkk & Ht) Hd Hk. split.
  - constructor; [congruence|congruence|auto|..]; rewrite Hd; intros q; intros.
    + eapply H4. by eapply lookup_delete_Some.
    + eapply H5. by eapply lookup_delete_Some.
  - intros k' Hk'. unfold local_has. rewrite Hd. destruct (decide (k' = k)) as [->|Hne].
    + rewrite lookup_delete_eq. naive_solver.
    + rewrite lookup_delete_ne; [naive_solver|]. intros He%(inj (app root)).
      by apply Hne, family_inj.
Qed.

Lemma read_spec p s r s' : local_inv s -> read p s = (r, s') ->
  local_inv s' ∧ lb_disk s' = lb_disk s ∧
  (∀ b, r = Ok b -> lb_disk s !! p = Some (File b)) ∧ (r = Err NotFound -> lb_disk s !! p = None).
Proof using Type.
  intros Hs. unfold read. rewrite bind_run. destruct (sys s) as [r1 s1] eqn:E.
  destruct (sys_inv _ _ _ Hs E) as (?&Hd&?). destruct r1 as [[]|e].
  - unfold act. intros [= <- <-]. rewrite Hd. destruct (lb_disk s !! p) as [[]|]; naive_solver.
  - intros [= <- <-]. split_and!; congruence || done.
Qed.

Lemma store_file_spec k b d s r s' :
  local_inv s -> key k -> decode kek b = Ok d -> valid k d ->
  (_ ← create (root ++ components k); _ ← write_all (root ++ components k) b; sys) s = (r, s') ->
  local_inv s' ∧ ((∀ k', key k' -> local_has s' k' <-> k' = k ∨ local_has s k') ∨
                  ((∀ k', key k' -> local_has s' k' <-> local_has s k') ∧ r <> Ok tt)).
Proof using family.
  intros Hs Hk Hb Hv. rewrite bind_run. unfold create. rewrite bind_run.
  destruct (sys s) as [r1 s1] eqn:E1. destruct (sys_inv _ _ _ Hs E1) as (Hs1&Hd1&_).
  destruct r1 as [[]|e].
  2: { intros [= <- <-]. split; [done|]. right. split; [|done]. intros. by apply has_disk. }
  unfold act. destruct (lb_disk s1 !! (root ++ components k)) as [[|b0]|] eqn:En.
  { destruct (local_inv_node _ _ _ Hs1 Hk En) as (?&?&?&_). done. }
  all: rewrite bind_run; unfold write_all; simpl;
    assert (Ht : head (lb_torn s1) ≫= id = None)
      by (destruct (li_torn _ Hs1) as [|o l ->]; done);
    rewrite Ht; intros He; destruct (sys_spec _ _ _ He) as (Hf & Hd & _);
    simpl in Hf, Hd; rewrite insert_insert_eq in Hd;
    destruct (local_inv_insert s1 s' k b d) as [? Hh]; try done;
    [ destruct Hf as (?&?&Hf); split_and!; [done..|]; intros Htn; apply Hf;
      by destruct (lb_torn s1); [|apply Forall_cons in Htn as []]
    | split; [done|]; left; intros k' Hk'; rewrite Hh by done; unfold local_has; by rewrite Hd1 ].
Qed.

Lemma parent_prefix (p : path) : parent p `prefix_of` p.
Proof using Type. exists (drop (length p - 1) p). unfold parent. by rewrite take_drop. Qed.
Lemma parent_ne (p : path) : p <> [] -> parent p <> p.
Proof using Type.
  intros Hp He. apply (f_equal length) in He. unfold parent in He. rewrite length_take in He.
  destruct p; [done|]. simpl in He. lia.
Qed.
Lemma parent_app (p q : path) : q <> [] -> parent (p ++ q) = p ++ parent q.
Proof using Type.
  intros Hq. unfold parent. rewrite length_app. destruct q as [|x q]; [done|]. simpl.
  rewrite take_app_ge by lia. f_equal. f_equal. lia.
Qed.

Lemma lb_get_spec k s r s' :
  local_inv s -> key k -> lb_get k s = (r, s') ->
  local_inv s' ∧ (∀ k', key k' -> local_has s' k' <-> local_has s k') ∧
  (∀ d, r = Ok d -> valid k d) ∧ (r = Err NotFound -> ~ local_has s k).
Proof using family.
  intros Hs Hk. unfold lb_get. rewrite bind_run. destruct (blob_path k s) as [r1 s1] eqn:E1.
  destruct (blob_path_inv _ _ _ _ Hs E1) as (Hs1&Hh1&Hn1&Hp&_).
  destruct r1 as [p|e]; [|intros [= <- <-]; split_and!; congruence || auto].
  rewrite (Hp p eq_refl). rewrite bind_run.
  destruct (read (root ++ components k) s1) as [r2 s2] eqn:E2.
  destruct (read_spec _ _ _ _ Hs1 E2) as (Hs2&Hd2&Hok&Hno).
  assert (Hh2 : ∀ k', key k' -> local_has s2 k' <-> local_has s k').
  { intros k' _. rewrite <-Hh1. by apply has_disk. }
  destruct r2 as [b|e].
  - rewrite bind_run. unfold ask, of_result. rewrite (li_kek _ Hs2). intros [= <- <-].
    destruct (local_inv_node _ _ _ Hs1 Hk (Hok b eq_refl)) as (b'&d&?&Hdec&Hv). simplify_eq.
    rewrite Hdec. split_and!; [done..| |done]. by intros d' [= <-].
  - intros [= <- <-]. split_and!; [done..|]. intros He. rewrite <-Hh1. intros [b Hb].
    rewrite Hno in Hb; [done|congruence].
Qed.

Lemma sys_twice_range s (a e : Z) (data : bytes) r s' :
  local_inv s -> (_ ← sys; _ ← sys; mret (byte_range a e data)) s = (r, s') ->
  local_inv s' ∧ lb_disk s' = lb_disk s ∧ (∀ x, r = Ok x -> x = byte_range a e data) ∧
  r <> Err NotFound.
Proof using Type.
  intros Hs. rewrite bind_run. destruct (sys s) as [r1 s1] eqn:E1.
  destruct (sys_inv _ _ _ Hs E1) as (Hs1&Hd1&Hn1).
  destruct r1 as [[]|e1]; [|intros [= <- <-]; split_and!; congruence || done].
  rewrite bind_run. destruct (sys s1) as [r2 s2] eqn:E2.
  destruct (sys_inv _ _ _ Hs1 E2) as (Hs2&Hd2&Hn2).
  destruct r2 as [[]|e2]; intros [= <- <-]; split_and!; congruence || done.
Qed.

Lemma byte_range_empty a b (d : bytes) :
  0 <= a -> Z.min b (Z.of_nat (length d)) <= a -> byte_range a b d = [].
Proof using Type.
  intros Ha Hb. rewrite <-byte_range_clamp by done. unfold byte_range.
  by replace (Z.to_nat _) with 0%nat by lia.
Qed.

Lemma lb_get_range_spec k a b s r s' :
  local_inv s -> key k -> 0 <= a -> lb_get_range k a b s = (r, s') ->
  local_inv s' ∧ (∀ k', key k' -> local_has s' k' <-> local_has s k') ∧
  (∀ x, r = Ok x -> ∃ d, valid k d ∧ x = byte_range a b d) ∧ (r = Err NotFound -> ~ local_has s k).
Proof using family.
  intros Hs Hk Ha. unfold lb_get_range. rewrite bind_run. unfold ask. rewrite (li_kek _ Hs).
  destruct kek as [kk|] eqn:Hkk.
  - rewrite bind_run. destruct (lb_get k s) as [r1 s1] eqn:E1.
    destruct (lb_get_spec _ _ _ _ Hs Hk E1) as (Hs1&Hh1&Hv&Hn).
    destruct r1 as [d|e]; [|intros [= <- <-]; split_and!; congruence || auto].
    destruct (Z.leb_spec (Z.min b (Z.of_nat (length d))) a) as [Hle|Hlt]; intros [= <- <-];
      (split_and!; [done..| |done]); intros x [= <-]; exists d; (split; [by apply Hv|]).
    + by rewrite byte_range_empty.
    + by apply byte_range_clamp.
  - rewrite bind_run. destruct (blob_path k s) as [r1 s1] eqn:E1.
    destruct (blob_path_inv _ _ _ _ Hs E1) as (Hs1&Hh1&Hn1&Hp&_).
    destruct r1 as [p|e]; [|intros [= <- <-]; split_and!; congruence || auto].
    rewrite (Hp p eq_refl). rewrite bind_run.
    destruct (read (root ++ components k) s1) as [r2 s2] eqn:E2.
    destruct (read_spec _ _ _ _ Hs1 E2) as (Hs2&Hd2&Hok&Hno).
    assert (Hh2 : ∀ s3, lb_disk s3 = lb_disk s2 -> ∀ k', key k' -> local_has s3 k' <-> local_has s k').
    { intros s3 Hd3 k' _. rewrite <-Hh1. apply has_disk. congruence. }
    destruct r2 as [d|e].
    2: { intros [= <- <-]. split_and!; [done|auto|done|]. intros He. rewrite <-Hh1. intros [b' Hb].
         rewrite Hno in Hb; [done|congruence]. }
    destruct (local_inv_node _ _ _ Hs1 Hk (Hok d eq_refl)) as (b'&d'&?&Hdec&Hv). simplify_eq.
    rewrite Hkk in Hdec. simpl in Hdec. injection Hdec as ->.
    rewrite bind_run. destruct (sys s2) as [r3 s3] eqn:E3.
    destruct (sys_inv _ _ _ Hs2 E3) as (Hs3&Hd3&Hn3).
    destruct r3 as [[]|e]; [|intros [= <- <-]; split_and!; congruence || auto].
    destruct (Z.leb_spec (Z.of_nat (length d')) a) as [Hle|Hlt].
    { intros [= <- <-]. split_and!; [done|auto| |done]. intros x [= <-]. exists d'. split; [done|].
      rewrite byte_range_empty; [done..|lia]. }
    destruct (Z.ltb_spec (Z.min b (Z.of_nat (length d'))) a) as [Hlt'|Hge].
    { intros [= <- <-]. split_and!; [done|auto|done|done]. }
    intros Hr. destruct (sys_twice_range _ _ _ _ _ _ Hs3 Hr) as (Hs'&Hd'&Hx&Hn').
    split_and!; [done|apply Hh2; congruence| |congruence].
    intros x Hx'. exists d'. split; [done|]. rewrite (Hx x Hx'). by apply byte_range_clamp.
Qed.

Lemma remove_file_spec k s r s' :
  local_inv s -> key k -> remove_file (root ++ components k) s = (r, s') ->
  local_inv s' ∧
  ((r = Ok tt ∧ ∀ k', key k' -> local_has s' k' <-> k' <> k ∧ local_has s k') ∨
   (r <> Ok tt ∧ r <> Err NotFound ∧ ∀ k', local_has s' k' <-> local_has s k') ∨
   (r = Err NotFound ∧ ~ local_has s k ∧ ∀ k', local_has s' k' <-> local_has s k')).
Proof using family.
  intros Hs Hk. unfold remove_file. rewrite bind_run. destruct (sys s) as [r1 s1] eqn:E1.
  destruct (sys_inv _ _ _ Hs E1) as (Hs1&Hd1&Hn1). pose proof (has_disk s s1) as Hh1.
  destruct r1 as [[]|e].
  2: { intros [= <- <-]. split; [done|]. right. left. split_and!; [done|congruence|auto]. }
  unfold act. destruct (lb_disk s1 !! (root ++ components k)) as [[|b]|] eqn:En; intros [= <- <-].
  - split; [done|]. right. left. split_and!; [done..|auto].
  - destruct (local_inv_delete s1 (set_disk s1 (delete (root ++ components k) (lb_disk s1))) k)
      as [? Hh]; [done|by split_and!|done..|].
    split; [done|]. left. split; [done|]. intros k' Hk'. rewrite Hh by done. by rewrite Hh1.
  - split; [done|]. right. unfold absent. destruct (existsb _ _); [left; by split_and!; auto|right].
    split_and!; [done| |auto]. intros [b Hb]. rewrite Hd1 in En. congruence.
Qed.

Lemma lb_exists_spec k s r s' :
  local_inv s -> key k -> lb_exists k s = (r, s') ->
  local_inv s' ∧ (∀ k', key k' -> local_has s' k' <-> local_has s k') ∧
  (∀ b, r = Ok b -> (b = true <-> local_has s k)).
Proof using family.
  intros Hs Hk. unfold lb_exists. rewrite bind_run.
  destruct (blob_path k s) as [r1 s1] eqn:E1.
  destruct (blob_path_inv _ _ _ _ Hs E1) as (Hs1&Hh1&Hn1&Hp&_).
  destruct r1 as [p|e]; [|intros [= <- <-]; by split_and!]. rewrite (Hp p eq_refl).
  unfold path_exists, ask. intros [= <- <-]. split_and!; [done|auto|]. intros b [= <-].
  rewrite bool_decide_eq_true, <-Hh1. split; [|intros [b ->]; done]. intros [n Hn].
  destruct (local_inv_node _ _ _ Hs1 Hk Hn) as (b&?&->&_). by exists b.
Qed.

Lemma lb_delete_spec k s r s' :
  local_inv s -> key k -> lb_delete k s = (r, s') ->
  local_inv s' ∧ ((∀ k', key k' -> local_has s' k' <-> k' <> k ∧ local_has s k') ∨
                  ((∀ k', key k' -> local_has s' k' <-> local_has s k') ∧ r <> Ok tt)).
Proof using family.
  intros Hs Hk. unfold lb_delete. rewrite bind_run.
  destruct (blob_path k s) as [r1 s1] eqn:E1.
  destruct (blob_path_inv _ _ _ _ Hs E1) as (Hs1&Hh1&Hn1&Hp&_).
  destruct r1 as [p|e]; [|intros [= <- <-]; split; [done|]; right; split; [auto|done]].
  rewrite (Hp p eq_refl). rewrite bind_run. unfold attempt.
  destruct (remove_file (root ++ components k) s1) as [r2 s2] eqn:E2.
  destruct (remove_file_spec k _ _ _ Hs1 Hk E2) as (Hs2&Hc). intros Hr.
  assert (s' = s2) as ->. { destruct r2 as [[]|[]]; cbv in Hr; congruence. }
  split; [done|]. destruct Hc as [[-> Hh]|[(Hne & Hnn & Hh)|(-> & Hno & Hh)]].
  - left. intros k' Hk'. by rewrite Hh, Hh1.
  - right. split; [intros; by rewrite Hh, Hh1|]. destruct r2 as [[]|[]]; cbv in Hr; congruence.
  - left. intros k' Hk'. rewrite Hh, Hh1 by done. split; [|naive_solver]. intros ?. split; [|done].
    intros ->. apply Hno. by apply Hh1.
Qed.

Context (kek_ok : from_option KekLaws True kek).

Lemma encode_spec data s r s' : local_inv s -> encode data s = (r, s') ->
  local_inv s' ∧ lb_disk s' = lb_disk s ∧ (∀ b, r = Ok b -> decode kek b = Ok data).
Proof using cipher_laws kek_ok.
  intros Hs. unfold encode. rewrite bind_run. unfold ask. rewrite (li_kek _ Hs).
  destruct kek as [kk|] eqn:Hk.
  - simpl in kek_ok. rewrite bind_run. unfold zoom.
    destruct (seal kk data (lb_entropy s)) as [[[w p]|e] ent] eqn:E; intros [= <- <-].
    + split_and!; [destruct Hs; by constructor|done|]. intros b [= <-]. simpl.
      by apply (seal_opens kk) in E.
    + split_and!; [destruct Hs; by constructor|done|done].
  - intros [= <- <-]. split_and!; [done..|]. by intros b [= <-].
Qed.

Lemma lb_put_spec k d s r s' :
  local_inv s -> key k -> valid k d -> lb_put k d s = (r, s') ->
  local_inv s' ∧ ((∀ k', key k' -> local_has s' k' <-> k' = k ∨ local_has s k') ∨
                  ((∀ k', key k' -> local_has s' k' <-> local_has s k') ∧ r <> Ok tt)).
Proof using All.
  intros Hs Hk Hv. unfold lb_put. rewrite bind_run.
  destruct (blob_path k s) as [r1 s1] eqn:E1.
  destruct (blob_path_inv _ _ _ _ Hs E1) as (Hs1&Hh1&Hn1&Hp&_).
  destruct r1 as [p|e]; [|intros [= <- <-]; split; [done|]; right; split; [auto|done]].
  rewrite (Hp p eq_refl). rewrite bind_run. unfold path_exists, ask.
  destruct (bool_decide_reflect (is_Some (lb_disk s1 !! (root ++ components k)))) as [[n En]|Hno].
  { intros [= <- <-]. split; [done|]. left. intros k' Hk'. rewrite Hh1.
    destruct (local_inv_node _ _ _ Hs1 Hk En) as (b&?&->&_). split; [by right|].
    intros [->|?]; [|done]. apply Hh1. by exists b. }
  rewrite bind_run. destruct (encode d s1) as [r2 s2] eqn:E2.
  destruct (encode_spec _ _ _ _ Hs1 E2) as (Hs2&Hd2&Hdec).
  assert (Hh2 : ∀ k', local_has s2 k' <-> local_has s k').
  { intros k'. rewrite <-Hh1. by apply has_disk. }
  destruct r2 as [b|e]; [|intros [= <- <-]; split; [done|]; right; split; [auto|done]].
  rewrite bind_run. destruct (create_dir_all (parent (root ++ components k)) s2) as [r3 s3] eqn:E3.
  destruct (create_dir_all_spec _ _ _ _ E3) as (Hf3&Hd3&_).
  rewrite parent_app in Hd3 by (by apply family in Hk).
  assert (Hs3 : local_inv s3).
  { eapply (local_inv_dirs (parent (components k))); [done..|]. right. exists k.
    split_and!; [done|apply parent_prefix|]. apply parent_ne. by apply family in Hk. }
  assert (Hh3 : ∀ k', local_has s3 k' <-> local_has s k').
  { intros k'. rewrite <-Hh2. by eapply has_dirs. }
  destruct r3 as [[]|e]; [|intros [= <- <-]; split; [done|]; right; split; [auto|done]].
  intros Hst. destruct (store_file_spec k b d s3 r s') as [? Hh]; auto.
  split; [done|]. destruct Hh as [Hh|[Hh ?]]; [left|right; split; [|done]];
    intros k' Hk'; rewrite Hh, Hh3; done.
Qed.

#[global] Instance local_blob_laws : BlobLaws LocalBlob key valid local_inv local_has.
Proof using All.
  constructor; [exact lb_put_spec|exact lb_get_spec|exact lb_get_range_spec|exact lb_exists_spec
               |exact lb_delete_spec].
Qed.
End contract.

(** ** A put that is interrupted *)

Definition empty_store (prefix_dir : path) (torn : list (option nat)) : LocalBlob :=
  mkLocalBlob prefix_dir ∅ None [] [] torn.

(** An interrupted put leaves a torn blob that is never repaired: if the
    write of a new blob stops after [n] bytes, the put reports an error, but
    repeating it with the same content reports success without writing, and
    reading returns the first [n] bytes. *)
Theorem interrupted_put_sticks `{Aead} (n : nat) (data : bytes) :
  let '(r1, s1) := lb_put "7/ab" data (empty_store ["var"; "blobs"] [Some n]) in
  let '(r2, s2) := lb_put "7/ab" data s1 in
  r1 = Err Io ∧ r2 = Ok tt ∧ (lb_exists "7/ab" s2).1 = Ok true ∧
  (lb_get "7/ab" s2).1 = Ok (take n data).
Proof. vm_compute. split_and!; reflexivity. Qed.

(** ** Witnesses *)

Definition demo_store : LocalBlob := empty_store ["var"; "blobs"] [].

Lemma local_paths_contained_witness :
  ∃ rest, ["var"; "blobs"; "7"; "ab"] = ["var"; "blobs"] ++ rest ∧ ".." ∉ rest ∧
    (∀ q n, lb_disk (blob_path "7/./ab" demo_store).2 !! q = Some n ->
            lb_disk demo_store !! q = Some n ∨ (n = Dir ∧ q `prefix_of` ["var"; "blobs"])).
Proof.
  apply (local_paths_contained "7/./ab" demo_store (blob_path "7/./ab" demo_store).2
           ["var"; "blobs"; "7"; "ab"]).
  vm_compute. reflexivity.
Defined.
