(* ===== verification/BlobCache.v ===== *)
(** * The read-through blob cache (store/src/blob_cache.rs)

    [BlobCache] over any store of the [Blob] class: the rows of its SQLite
    table, the cached files, the access counter, and a list of outcomes for
    the database and file-system calls, so that every best-effort step can
    fail.  SHA-256 is a parameter.

    The cache keeps the blob contract of the store below whatever fails; when
    nothing fails it is an exact LRU cache, its eviction order is the order
    of the last accesses and its size stays under the cap. *)

From stdpp Require Import base gmap list strings sorting.
From Stdlib Require Import ZArith Lia Strings.Byte.
From S2P Require Import Prelude StableSort Blob Envelope LocalBlob.
Open Scope Z_scope.

Definition DEFAULT_CACHE_MAX_GB : Z := 10.

Record CacheRow := mkCacheRow {
  cr_file_path : path;
  cr_size_bytes : Z;
  cr_access_seq : Z;
  cr_sha256_hex : option string;
}.

Record BlobCache (B : Type) := mkBlobCache {
  bc_inner : B;
  bc_max_bytes : Z;
  bc_paranoid : bool;
  bc_rows : gmap string CacheRow;
  bc_files : gmap path bytes;
  bc_next_seq : Z;
  (** Whether the next calls fail, and where the next file writes stop. *)
  bc_faults : list bool;
  bc_torn : list (option nat);
}.
Arguments mkBlobCache {B}.
Arguments bc_inner {B}.
Arguments bc_max_bytes {B}.
Arguments bc_paranoid {B}.
Arguments bc_rows {B}.
Arguments bc_files {B}.
Arguments bc_next_seq {B}.
Arguments bc_faults {B}.
Arguments bc_torn {B}.

Section cache.
Context {B : Type} `{!Blob B}.
Notation M := (prog (BlobCache B)).

(** [hex::encode(Sha256::digest(..))] and the cache directory. *)
Context (sha256_hex : bytes -> string) (cache_dir : path).

Definition cache_file_path (key : string) : path :=
  let hash := sha256_hex (String.list_byte_of_string key) in
  cache_dir ++ [String.substring 0 2 hash; hash].

(** [BlobCache::new] on a directory that may hold a cache already. *)
Definition cache_new (inner : B) (max_bytes : Z) (paranoid : bool) (rows : gmap string CacheRow)
    (files : gmap path bytes) : BlobCache B :=
  mkBlobCache inner
    (if max_bytes =? 0 then DEFAULT_CACHE_MAX_GB * 1024 * 1024 * 1024 else max_bytes)
    paranoid rows files 0 [] [].

Definition set_inner (s : BlobCache B) (b : B) : BlobCache B :=
  mkBlobCache b (bc_max_bytes s) (bc_paranoid s) (bc_rows s) (bc_files s) (bc_next_seq s)
    (bc_faults s) (bc_torn s).
Definition set_rows (s : BlobCache B) (r : gmap string CacheRow) : BlobCache B :=
  mkBlobCache (bc_inner s) (bc_max_bytes s) (bc_paranoid s) r (bc_files s) (bc_next_seq s)
    (bc_faults s) (bc_torn s).
Definition set_files (s : BlobCache B) (f : gmap path bytes) : BlobCache B :=
  mkBlobCache (bc_inner s) (bc_max_bytes s) (bc_paranoid s) (bc_rows s) f (bc_next_seq s)
    (bc_faults s) (bc_torn s).

Definition on_inner {A} (m : prog B A) : M A := zoom bc_inner set_inner m.

(** One database or file-system call. *)
Definition call : M unit := λ s,
  match bc_faults s with
  | [] => (Ok tt, s)
  | f :: fs =>
      (if f then Err Io else Ok tt,
       mkBlobCache (bc_inner s) (bc_max_bytes s) (bc_paranoid s) (bc_rows s) (bc_files s)
         (bc_next_seq s) fs (bc_torn s))
  end.

(** ** The metadata table *)

Definition db_lookup (key : string) : M (option (path * option string)) :=
  _ ← call;
  ask (λ s, (λ r, (cr_file_path r, cr_sha256_hex r)) <$> bc_rows s !! key).

(** [fetch_add]; 2^63 accesses are out of reach, so the cast to the signed
    column is exact. *)
Definition next_access_seq : M Z := λ s,
  (Ok (bc_next_seq s),
   mkBlobCache (bc_inner s) (bc_max_bytes s) (bc_paranoid s) (bc_rows s) (bc_files s)
     (bc_next_seq s + 1) (bc_faults s) (bc_torn s)).

Definition db_upsert (key : string) (file_path : path) (size_bytes : Z) (sha : option string)
    : M unit :=
  seq ← next_access_seq;
  _ ← call;
  act (λ s, (Ok tt, set_rows s (<[key := mkCacheRow file_path size_bytes seq sha]> (bc_rows s)))).

Definition db_update_access (key : string) : M unit :=
  seq ← next_access_seq;
  _ ← call;
  act (λ s, (Ok tt, set_rows s (alter (λ r, mkCacheRow (cr_file_path r) (cr_size_bytes r) seq
                                              (cr_sha256_hex r)) key (bc_rows s)))).

Definition db_delete (key : string) : M unit :=
  _ ← call; act (λ s, (Ok tt, set_rows s (delete key (bc_rows s)))).
Definition db_delete_all : M unit :=
  _ ← call; act (λ s, (Ok tt, set_rows s ∅)).

(** [SUM] fails beyond 64 bits, which is one of the failures of the call. *)
Definition db_total_size : M Z :=
  _ ← call; ask (λ s, sum_Z ((λ kr, cr_size_bytes kr.2) <$> map_to_list (bc_rows s))).

(** The rows by [access_seq], least recently accessed first. *)
Definition entries (rows : gmap string CacheRow) : list (string * CacheRow) :=
  sort_by_key (λ kr, cr_access_seq kr.2) (map_to_list rows).

Definition listed (kr : string * CacheRow) : string * path * Z :=
  (kr.1, cr_file_path kr.2, cr_size_bytes kr.2).
Definition db_all_entries_with_sizes : M (list (string * path * Z)) :=
  _ ← call; ask (λ s, listed <$> entries (bc_rows s)).

Fixpoint evict_loop (rows : list (string * path * Z)) (freed needed : Z)
    : M (list (string * path)) :=
  match rows with
  | [] => mret []
  | (key, file_path, size_bytes) :: rows =>
      if needed <=? freed then mret []
      else
        _ ← db_delete key;
        evicted ← evict_loop rows (freed + size_bytes) needed;
        mret ((key, file_path) :: evicted)
  end.
Definition db_evict_lru (needed : Z) : M (list (string * path)) :=
  rows ← db_all_entries_with_sizes;
  evict_loop rows 0 needed.

(** ** Files *)

(** [if path.exists() { let _ = fs::remove_file(path); }]. *)
Definition remove_if_exists (p : path) : M unit :=
  present ← ask (λ s, bool_decide (is_Some (bc_files s !! p)));
  if (present : bool) then
    _ ← attempt (_ ← call; act (λ s, (Ok tt, set_files s (delete p (bc_files s)))));
    mret tt
  else mret tt.

Fixpoint remove_files (evicted : list (string * path)) : M unit :=
  match evicted with
  | [] => mret tt
  | (_, p) :: evicted => _ ← remove_if_exists p; remove_files evicted
  end.

Definition ensure_capacity (incoming : Z) : M unit :=
  current ← db_total_size;
  max ← ask bc_max_bytes;
  if current + incoming <=? max then mret tt
  else
    evicted ← db_evict_lru (current + incoming - max);
    remove_files evicted.

(** [fs::write]. *)
Definition write_file (p : path) (data : bytes) : M unit :=
  _ ← call;
  act (λ s,
    let torn := head (bc_torn s) ≫= id in
    (match torn with Some _ => Err Io | None => Ok tt end,
     mkBlobCache (bc_inner s) (bc_max_bytes s) (bc_paranoid s) (bc_rows s)
       (<[p := match torn with Some n => take n data | None => data end]> (bc_files s))
       (bc_next_seq s) (bc_faults s) (tail (bc_torn s)))).

Definition write_to_cache (key : string) (data : bytes) : M unit :=
  let p := cache_file_path key in
  _ ← call;
  _ ← write_file p data;
  db_upsert key p (Z.of_nat (length data)) (Some (sha256_hex data)).

Definition read_from_cache (p : path) (expected_sha : option string) : M (option bytes) :=
  file ← ask (λ s, bc_files s !! p);
  match file with
  | None => mret None
  | Some data =>
      _ ← call;
      paranoid ← ask bc_paranoid;
      match expected_sha with
      | Some expected =>
          if (paranoid : bool) && negb (bool_decide (sha256_hex data = expected)) then mret None
          else mret (Some data)
      | None => mret (Some data)
      end
  end.

(** ** The store *)

Definition bc_put (key : string) (data : bytes) : M unit :=
  _ ← on_inner (blob_put key data);
  room ← attempt (ensure_capacity (Z.of_nat (length data)));
  match room with
  | Err _ => mret tt
  | Ok _ => _ ← attempt (write_to_cache key data); mret tt
  end.

(** The lookup of [get]: the cached bytes, if the entry is usable. *)
Definition cached (key : string) : M (option bytes) :=
  row ← db_lookup key;
  match row with
  | None => mret None
  | Some (p, sha) =>
      hit ← read_from_cache p sha;
      match hit with
      | Some data => _ ← attempt (db_update_access key); mret (Some data)
      | None => _ ← attempt (db_delete key); mret None
      end
  end.

Definition bc_get (key : string) : M bytes :=
  hit ← cached key;
  match hit with
  | Some data => mret data
  | None =>
      data ← on_inner (blob_get key);
      _ ← attempt (ensure_capacity (Z.of_nat (length data)));
      _ ← attempt (write_to_cache key data);
      mret data
  end.

Definition bc_delete (key : string) : M unit :=
  _ ← on_inner (blob_delete key);
  row ← attempt (db_lookup key);
  match row with
  | Ok (Some (p, _)) =>
      _ ← attempt (_ ← call; act (λ s, (Ok tt, set_files s (delete p (bc_files s)))));
      _ ← attempt (db_delete key);
      mret tt
  | _ => mret tt
  end.

#[global] Instance blob_cache : Blob (BlobCache B) := {
  blob_put := bc_put;
  blob_get := bc_get;
  blob_get_range k a b := on_inner (blob_get_range k a b);
  blob_exists k := on_inner (blob_exists k);
  blob_delete := bc_delete;
  blob_presigned_get_url k := on_inner (blob_presigned_get_url k);
}.

(** ** Maintenance *)

Fixpoint clear_files (rows : list (string * path * Z)) : M bool :=
  match rows with
  | [] => mret true
  | (_, p, _) :: rows =>
      present ← ask (λ s, bool_decide (is_Some (bc_files s !! p)));
      r ← (if (present : bool)
           then attempt (_ ← call; act (λ s, (Ok tt, set_files s (delete p (bc_files s)))))
           else mret (Ok tt));
      rest ← clear_files rows;
      mret (is_ok r && rest)
  end.

Definition clear : M unit :=
  rows ← db_all_entries_with_sizes;
  removed ← clear_files rows;
  deleted ← attempt db_delete_all;
  ensure (removed && is_ok deleted) Io.

Fixpoint trim_files (evicted : list (string * path)) (freed : Z) : M Z :=
  match evicted with
  | [] => mret freed
  | (_, p) :: evicted =>
      file ← ask (λ s, bc_files s !! p);
      match file with
      | Some b =>
          meta ← attempt call;
          _ ← remove_if_exists p;
          trim_files evicted (if is_ok meta then freed + Z.of_nat (length b) else freed)
      | None => trim_files evicted freed
      end
  end.

Definition trim : M Z :=
  current ← db_total_size;
  max ← ask bc_max_bytes;
  if current <=? max then mret 0
  else
    evicted ← db_evict_lru (current - max);
    trim_files evicted 0.

(** ** The contract, whatever fails *)

Section contract.
Context (sha_inj : ∀ d d', sha256_hex d = sha256_hex d' -> d = d').
Context (key : string -> Prop) (valid : string -> bytes -> Prop).

Lemma list_byte_of_string_inj k k' :
  String.list_byte_of_string k = String.list_byte_of_string k' -> k = k'.
Proof using Type.
  intros He. rewrite <-(String.string_of_list_byte_of_string k), He.
  apply String.string_of_list_byte_of_string.
Qed.

Lemma cache_file_path_inj k k' : cache_file_path k = cache_file_path k' -> k = k'.
Proof using sha_inj.
  unfold cache_file_path. intros He%(inj (app cache_dir)). injection He as _ He.
  by apply list_byte_of_string_inj, sha_inj.
Qed.

(** Rows name valid blobs; without validation on reads, so do the files, and
    no file write is going to be torn. *)
Record cache_ok (s : BlobCache B) : Prop := {
  co_rows k row : bc_rows s !! k = Some row ->
    cr_file_path row = cache_file_path k ∧
    ∃ d, valid k d ∧ cr_sha256_hex row = Some (sha256_hex d);
  co_files k b : bc_paranoid s = false -> bc_files s !! cache_file_path k = Some b -> valid k b;
  co_torn : bc_paranoid s = false -> Forall (.= None) (bc_torn s);
}.

Definition keeps {A} (m : M A) : Prop := ∀ s r s',
  cache_ok s -> m s = (r, s') ->
  cache_ok s' ∧ bc_inner s' = bc_inner s ∧ r <> Err NotFound.

Lemma keeps_ret {A} (a : A) : keeps (mret a).
Proof using Type. intros s r s' Hs [= <- <-]. by split_and!. Qed.
Lemma keeps_ask {A} (f : BlobCache B -> A) : keeps (ask f).
Proof using Type. intros s r s' Hs [= <- <-]. by split_and!. Qed.
Lemma keeps_bind {A C} (m : M A) (k : A -> M C) :
  keeps m -> (∀ a, keeps (k a)) -> keeps (m ≫= k).
Proof using Type.
  intros Hm Hk s r s' Hs. rewrite bind_run. destruct (m s) as [[a|e] s1] eqn:E.
  - destruct (Hm _ _ _ Hs E) as (Hs1 & Hi & _). intros Hr.
    destruct (Hk a _ _ _ Hs1 Hr) as (?&?&?). split_and!; congruence || done.
  - intros [= <- <-]. destruct (Hm _ _ _ Hs E) as (?&?&?). split_and!; congruence || done.
Qed.
Lemma keeps_attempt {A} (m : M A) : keeps m -> keeps (attempt m).
Proof using Type.
  intros Hm s r s' Hs. unfold attempt. destruct (m s) as [r1 s1] eqn:E. intros [= <- <-].
  destruct (Hm _ _ _ Hs E) as (?&?&?). by split_and!.
Qed.
Lemma keeps_call : keeps call.
Proof using Type.
  intros s r s' [] . unfold call. destruct (bc_faults s) as [|[]]; intros [= <- <-]; by split_and!.
Qed.
Lemma keeps_seq : keeps next_access_seq.
Proof using Type. intros s r s' [] [= <- <-]. by split_and!. Qed.

(** Removing rows or files keeps everything. *)
Lemma keeps_rows (f : gmap string CacheRow -> gmap string CacheRow) :
  (∀ rows k row, f rows !! k = Some row -> ∃ row0, rows !! k = Some row0 ∧
     cr_file_path row = cr_file_path row0 ∧ cr_sha256_hex row = cr_sha256_hex row0) ->
  keeps (act (λ s, (Ok tt, set_rows s (f (bc_rows s))))).
Proof using Type.
  intros Hf s r s' Hs [= <- <-]. split_and!; [|done..].
  destruct Hs as [Hr ??]. constructor; simpl; auto.
  intros k row Hk. destruct (Hf _ _ _ Hk) as (row0 & H0 & -> & ->). eauto.
Qed.
Lemma keeps_remove p : keeps (act (λ s, (Ok tt, set_files s (delete p (bc_files s))))).
Proof using Type.
  intros s r s' [] [= <- <-]. split_and!; [|done..]. constructor; simpl; auto.
  intros k b Hp Hb. apply lookup_delete_Some in Hb as [_ ?]. eauto.
Qed.

Hint Resolve keeps_ret keeps_ask keeps_bind keeps_attempt keeps_call keeps_seq keeps_remove : keeps.

Lemma keeps_db_delete k : keeps (db_delete k).
Proof using Type.
  apply keeps_bind; [apply keeps_call|intros _]. apply keeps_rows.
  intros rows k' row Hk. apply lookup_delete_Some in Hk as [_ ?]. eauto.
Qed.
Lemma keeps_db_update_access k : keeps (db_update_access k).
Proof using Type.
  apply keeps_bind; [apply keeps_seq|intros seq]. apply keeps_bind; [apply keeps_call|intros _].
  apply keeps_rows. intros rows k' row Hk.
  apply lookup_alter_Some in Hk as [(-> & row0 & ? & ->)|[_ ?]]; eauto.
Qed.
Hint Resolve keeps_db_delete keeps_db_update_access : keeps.

Lemma keeps_evict_loop rows freed needed : keeps (evict_loop rows freed needed).
Proof using Type.
  revert freed. induction rows as [|[[k p] sz] rows IH]; intros freed; simpl; [auto with keeps|].
  destruct (needed <=? freed); auto with keeps.
Qed.
Lemma keeps_remove_if_exists p : keeps (remove_if_exists p).
Proof using Type. apply keeps_bind; [auto with keeps|]. intros []; auto 8 with keeps. Qed.
Hint Resolve keeps_evict_loop keeps_remove_if_exists : keeps.

Lemma keeps_ensure_capacity n : keeps (ensure_capacity n).
Proof using Type.
  unfold ensure_capacity, db_total_size, db_evict_lru, db_all_entries_with_sizes.
  apply keeps_bind; [auto with keeps|intros cur]. apply keeps_bind; [auto with keeps|intros max].
  case_match; [auto with keeps|]. apply keeps_bind; [auto 8 with keeps|intros ev].
  induction ev as [|[k p] ev IH]; simpl; auto with keeps.
Qed.

Lemma keeps_write_to_cache k d : valid k d -> keeps (write_to_cache k d).
Proof using sha_inj.
  intros Hv. apply keeps_bind; [auto with keeps|intros _]. apply keeps_bind.
  - apply keeps_bind; [auto with keeps|intros _]. intros s r s' [Hr Hf Ht]. unfold act.
    intros [= <- <-]. split_and!; [|done|by destruct (_ ≫= _)]. constructor; simpl; [done| |].
    + intros k' b Hp. destruct (decide (k' = k)) as [->|Hne].
      * rewrite lookup_insert_eq. intros [= <-]. by destruct (Ht Hp) as [|o l ->].
      * rewrite lookup_insert_ne; [by apply Hf|]. by intros ?%cache_file_path_inj.
    + intros Hp. destruct (Ht Hp); [done|by simpl].
  - intros _. apply keeps_bind; [auto with keeps|intros seq].
    apply keeps_bind; [auto with keeps|intros _].
    intros s r s' [Hr Hf Ht]. unfold act. intros [= <- <-]. split_and!; [|done..].
    constructor; simpl; [|done..]. intros k' row. destruct (decide (k' = k)) as [->|Hne].
    + rewrite lookup_insert_eq. intros [= <-]. simpl. eauto.
    + rewrite lookup_insert_ne by done. apply Hr.
Qed.
Hint Resolve keeps_ensure_capacity keeps_write_to_cache : keeps.

Lemma read_from_cache_spec k p sha d s r s' :
  cache_ok s -> p = cache_file_path k -> sha = Some (sha256_hex d) -> valid k d ->
  read_from_cache p sha s = (r, s') ->
  cache_ok s' ∧ bc_inner s' = bc_inner s ∧ r <> Err NotFound ∧ ∀ b, r = Ok (Some b) -> valid k b.
Proof using sha_inj.
  intros Hs -> -> Hv. unfold read_from_cache. rewrite bind_run. unfold ask at 1.
  destruct (bc_files s !! cache_file_path k) as [data|] eqn:Ef; [|intros [= <- <-]; by split_and!].
  rewrite bind_run. destruct (call s) as [r1 s1] eqn:E1.
  destruct (keeps_call _ _ _ Hs E1) as (Hs1 & Hi1 & Hn1).
  assert (Hf1 : bc_files s1 = bc_files s ∧ bc_paranoid s1 = bc_paranoid s).
  { unfold call in E1. destruct (bc_faults s); by simplify_eq. }
  destruct Hf1 as [Hf1 Hp1].
  destruct r1 as [[]|e]; [|intros [= <- <-]; split_and!; congruence || done].
  rewrite bind_run. unfold ask. rewrite Hp1. destruct (bc_paranoid s) eqn:Hp; simpl.
  - destruct (bool_decide_reflect (sha256_hex data = sha256_hex d)) as [He|]; simpl;
      intros [= <- <-]; (split_and!; [done..|]); [|done].
    intros b [= <-]. apply sha_inj in He. by subst.
  - intros [= <- <-]. split_and!; [done..|]. intros b [= <-].
    eapply co_files; [exact Hs|done..].
Qed.

Lemma cached_spec k s r s' :
  cache_ok s -> cached k s = (r, s') ->
  cache_ok s' ∧ bc_inner s' = bc_inner s ∧ r <> Err NotFound ∧ ∀ b, r = Ok (Some b) -> valid k b.
Proof using sha_inj.
  intros Hs. unfold cached. rewrite bind_run. unfold db_lookup. rewrite bind_run.
  destruct (call s) as [r1 s1] eqn:E1. destruct (keeps_call _ _ _ Hs E1) as (Hs1 & Hi1 & Hn1).
  destruct r1 as [[]|e]; [|intros [= <- <-]; split_and!; congruence || done].
  unfold ask at 1. destruct (bc_rows s1 !! k) as [row|] eqn:Er; simpl.
  2: { intros [= <- <-]. by split_and!. }
  destruct (co_rows _ Hs1 _ _ Er) as (Hp & d & Hv & Hsha). rewrite bind_run.
  destruct (read_from_cache _ _ s1) as [r2 s2] eqn:E2.
  destruct (read_from_cache_spec k _ _ d _ _ _ Hs1 Hp Hsha Hv E2) as (Hs2 & Hi2 & Hn2 & Hb).
  destruct r2 as [[data|]|e]; [| |intros [= <- <-]; split_and!; congruence || done];
    rewrite bind_run; unfold attempt;
    match goal with |- context [let '(_, _) := ?m s2 in _] =>
      destruct (m s2) as [r3 s3] eqn:E3; assert (Hk : keeps m) by auto with keeps end;
    destruct (Hk _ _ _ Hs2 E3) as (Hs3 & Hi3 & _); intros [= <- <-];
    (split_and!; [done|congruence|done|]); [|done].
  intros b [= <-]. by apply Hb.
Qed.

Context (inv : B -> Prop) (has : B -> string -> Prop) `{inner_laws : !BlobLaws B key valid inv has}.

Definition cache_inv (s : BlobCache B) : Prop := inv (bc_inner s) ∧ cache_ok s.
Definition cache_has (s : BlobCache B) : string -> Prop := has (bc_inner s).

Lemma cache_ok_inner s b : cache_ok s -> cache_ok (set_inner s b).
Proof using Type. intros []. by constructor. Qed.

(** A best-effort tail after the call to the inner store. *)
Lemma keeps_run {A} (m : M A) s r s' :
  keeps m -> cache_ok s -> m s = (r, s') -> cache_ok s' ∧ bc_inner s' = bc_inner s.
Proof using Type. intros Hm Hs He. destruct (Hm _ _ _ Hs He) as (?&?&_). done. Qed.

Definition put_tail (k : string) (data : bytes) : M unit :=
  room ← attempt (ensure_capacity (Z.of_nat (length data)));
  match room with
  | Err _ => mret tt
  | Ok _ => _ ← attempt (write_to_cache k data); mret tt
  end.
Definition get_tail (k : string) (data : bytes) : M bytes :=
  _ ← attempt (ensure_capacity (Z.of_nat (length data)));
  _ ← attempt (write_to_cache k data);
  mret data.
Definition delete_tail (k : string) : M unit :=
  row ← attempt (db_lookup k);
  match row with
  | Ok (Some (p, _)) =>
      _ ← attempt (_ ← call; act (λ s, (Ok tt, set_files s (delete p (bc_files s)))));
      _ ← attempt (db_delete k);
      mret tt
  | _ => mret tt
  end.

Lemma keeps_put_tail k d : valid k d -> keeps (put_tail k d).
Proof using sha_inj. intros Hv. apply keeps_bind; [auto with keeps|]. intros []; auto with keeps. Qed.
Lemma keeps_get_tail k d : valid k d -> keeps (get_tail k d).
Proof using sha_inj. intros Hv. unfold get_tail. auto 8 with keeps. Qed.
Lemma keeps_delete_tail k : keeps (delete_tail k).
Proof using Type.
  apply keeps_bind; [unfold db_lookup; auto 8 with keeps|]. intros [[[p sha]|]|]; auto 8 with keeps.
Qed.

(** The tails always report success. *)
Lemma put_tail_ok k d s : (put_tail k d s).1 = Ok tt.
Proof using Type.
  unfold put_tail. rewrite bind_run. unfold attempt at 1. destruct (ensure_capacity _ s) as [[] s1]; [|done].
  rewrite bind_run. unfold attempt. by destruct (write_to_cache k d s1).
Qed.
Lemma get_tail_ok k d s : (get_tail k d s).1 = Ok d.
Proof using Type.
  unfold get_tail. rewrite bind_run. unfold attempt at 1. destruct (ensure_capacity _ s) as [? s1].
  rewrite bind_run. unfold attempt. by destruct (write_to_cache k d s1).
Qed.
Lemma delete_tail_ok k s : (delete_tail k s).1 = Ok tt.
Proof using Type.
  unfold delete_tail. rewrite bind_run. unfold attempt at 1.
  destruct (db_lookup k s) as [[[[p sha]|]|] s1]; [|done..]. rewrite bind_run. unfold attempt at 1.
  destruct ((call ≫= _) s1) as [? s2]. rewrite bind_run. unfold attempt. by destruct (db_delete k s2).
Qed.

(** Each call is the inner call followed by its tail. *)
Lemma bc_put_run k d s :
  bc_put k d s = let '(r, b) := blob_put k d (bc_inner s) in
    match r with Ok _ => put_tail k d (set_inner s b) | Err e => (Err e, set_inner s b) end.
Proof using Type.
  unfold bc_put. rewrite bind_run. unfold on_inner, zoom. by destruct (blob_put k d (bc_inner s)) as [[] b].
Qed.
Lemma bc_delete_run k s :
  bc_delete k s = let '(r, b) := blob_delete k (bc_inner s) in
    match r with Ok _ => delete_tail k (set_inner s b) | Err e => (Err e, set_inner s b) end.
Proof using Type.
  unfold bc_delete. rewrite bind_run. unfold on_inner, zoom. by destruct (blob_delete k (bc_inner s)) as [[] b].
Qed.
Lemma bc_get_run k s :
  bc_get k s = match cached k s with
    | (Ok (Some d), s1) => (Ok d, s1)
    | (Ok None, s1) =>
        let '(r, b) := blob_get k (bc_inner s1) in
        match r with Ok d => get_tail k d (set_inner s1 b) | Err e => (Err e, set_inner s1 b) end
    | (Err e, s1) => (Err e, s1)
    end.
Proof using Type.
  unfold bc_get. rewrite bind_run. destruct (cached k s) as [[[d|]|e] s1]; [done| |done].
  rewrite bind_run. unfold on_inner, zoom. by destruct (blob_get k (bc_inner s1)) as [[] b].
Qed.

#[global] Instance blob_cache_laws : BlobLaws (BlobCache B) key valid cache_inv cache_has.
Proof using All.
  constructor.
  - intros k d s r s' [Hi Hc] Hk Hv. simpl. rewrite bc_put_run.
    destruct (blob_put k d (bc_inner s)) as [r1 b] eqn:E1.
    destruct (put_law k d _ r1 b Hi Hk Hv E1) as [Hi' Hh].
    destruct r1 as [[]|e]; [|intros [= <- <-]; split; [split; [done|by apply cache_ok_inner]|done]].
    intros E2. pose proof (put_tail_ok k d (set_inner s b)) as Hok. rewrite E2 in Hok. simpl in Hok.
    destruct (keeps_run _ _ _ _ (keeps_put_tail k d Hv) (cache_ok_inner s b Hc) E2) as [Hc' Hin].
    unfold cache_inv, cache_has. rewrite Hin. subst. done.
  - intros k s r s' [Hi Hc] Hk. simpl. rewrite bc_get_run. destruct (cached k s) as [rc s1] eqn:E1.
    destruct (cached_spec _ _ _ _ Hc E1) as (Hc1 & Hi1 & Hn1 & Hb).
    unfold cache_inv, cache_has. destruct rc as [[d|]|e].
    + intros [= <- <-]. rewrite Hi1. split_and!; [done..| |done]. intros d' [= <-]. by apply Hb.
    + rewrite Hi1. destruct (blob_get k (bc_inner s)) as [r2 b] eqn:E2.
      destruct (get_law k _ r2 b Hi Hk E2) as (Hi2 & Hh2 & Hv & Hnf).
      destruct r2 as [d|e].
      2: { intros [= <- <-]. split_and!; try done. by apply cache_ok_inner. }
      intros E3. pose proof (get_tail_ok k d (set_inner s1 b)) as Hok. rewrite E3 in Hok.
      simpl in Hok. subst r.
      destruct (keeps_run _ _ _ _ (keeps_get_tail k d (Hv d eq_refl)) (cache_ok_inner s1 b Hc1) E3)
        as [Hc' Hin]. rewrite Hin. simpl. split_and!; auto.
    + intros [= <- <-]. rewrite Hi1. split_and!; congruence || done.
  - intros k a b s r s' [Hi Hc] Hk Ha. simpl. unfold on_inner, zoom.
    destruct (blob_get_range k a b (bc_inner s)) as [r1 b1] eqn:E1. intros [= <- <-].
    destruct (get_range_law k a b _ r1 b1 Hi Hk Ha E1) as (?&?&?&?).
    split_and!; try done. split; [done|by apply cache_ok_inner].
  - intros k s r s' [Hi Hc] Hk. simpl. unfold on_inner, zoom.
    destruct (blob_exists k (bc_inner s)) as [r1 b1] eqn:E1. intros [= <- <-].
    destruct (exists_law k _ r1 b1 Hi Hk E1) as (?&?&?).
    split_and!; try done. split; [done|by apply cache_ok_inner].
  - intros k s r s' [Hi Hc] Hk. simpl. rewrite bc_delete_run.
    destruct (blob_delete k (bc_inner s)) as [r1 b] eqn:E1.
    destruct (delete_law k _ r1 b Hi Hk E1) as [Hi' Hh].
    destruct r1 as [[]|e]; [|intros [= <- <-]; split; [split; [done|by apply cache_ok_inner]|done]].
    intros E2. pose proof (delete_tail_ok k (set_inner s b)) as Hok. rewrite E2 in Hok. simpl in Hok.
    destruct (keeps_run _ _ _ _ (keeps_delete_tail k) (cache_ok_inner s b Hc) E2) as [Hc' Hin].
    unfold cache_inv, cache_has. rewrite Hin. subst. done.
Qed.
End contract.

(** ** Eviction order *)

Definition seq_inj (rows : gmap string CacheRow) : Prop :=
  ∀ k k' row row', rows !! k = Some row -> rows !! k' = Some row' ->
    cr_access_seq row = cr_access_seq row' -> k = k'.

Notation by_seq := (λ x y : string * CacheRow,
  leb_by_key (λ kr : string * CacheRow, cr_access_seq kr.2) x y = true).

Lemma entries_perm rows : entries rows ≡ₚ map_to_list rows.
Proof using Type. apply sort_by_perm. Qed.
Lemma entries_elem rows k row : (k, row) ∈ entries rows <-> rows !! k = Some row.
Proof using Type. rewrite entries_perm. apply elem_of_map_to_list. Qed.
Lemma entries_NoDup rows : NoDup (entries rows).*1.
Proof using Type. rewrite entries_perm. apply NoDup_fst_map_to_list. Qed.
Lemma entries_sorted rows : StronglySorted by_seq (entries rows).
Proof using Type. apply sort_by_ordered; auto with kb. apply leb_by_key_trans. Qed.

(** A list that is sorted and holds exactly the rows is the table. *)
Lemma entries_unique rows l :
  seq_inj rows -> NoDup l.*1 -> (∀ k row, (k, row) ∈ l <-> rows !! k = Some row) ->
  StronglySorted by_seq l -> entries rows = l.
Proof using Type.
  intros Hinj Hnd Hel Hs. apply (StronglySorted_unique_strong by_seq).
  - intros [k1 r1] [k2 r2] H1 H2. unfold leb_by_key. simpl. intros Hle1 Hle2.
    apply entries_elem in H1. apply Hel in H2.
    assert (k1 = k2) as -> by (eapply Hinj; [done..|lia]). congruence.
  - apply entries_sorted.
  - done.
  - rewrite entries_perm. apply NoDup_Permutation.
    + apply NoDup_map_to_list.
    + by eapply NoDup_fmap_1.
    + intros [k row]. by rewrite elem_of_map_to_list, Hel.
Qed.

Lemma StronglySorted_filter {A} (R : A -> A -> Prop) (P : A -> Prop) `{!∀ x, Decision (P x)} l :
  StronglySorted R l -> StronglySorted R (filter P l).
Proof using Type.
  induction 1 as [|x l Hs IH Hx]; [constructor|]. rewrite filter_cons.
  case_decide; [|done]. constructor; [done|]. by apply filter_Forall.
Qed.

Lemma StronglySorted_snoc {A} (R : A -> A -> Prop) l x :
  StronglySorted R l -> Forall (λ y, R y x) l -> StronglySorted R (l ++ [x]).
Proof using Type.
  induction 1 as [|y l Hs IH Hy]; intros Hf; simpl; [repeat constructor|].
  apply Forall_cons in Hf as [? Hf]. constructor; [by apply IH|].
  apply Forall_app. by repeat constructor.
Qed.

Lemma NoDup_fst_filter {A C} (P : A * C -> Prop) `{!∀ x, Decision (P x)} (l : list (A * C)) :
  NoDup l.*1 -> NoDup (filter P l).*1.
Proof using Type.
  induction l as [|[a c] l IH]; [done|]. rewrite fmap_cons. intros [Hn Hd]%NoDup_cons.
  rewrite filter_cons. case_decide; [|by apply IH]. rewrite fmap_cons. constructor; [|by apply IH].
  intros ([a' c'] & ? & [_ Hin]%list_elem_of_filter)%list_elem_of_fmap. simpl in *. subst.
  apply Hn. apply list_elem_of_fmap. by exists (a', c').
Qed.

(** Storing a row with a fresh sequence number moves it to the end. *)
Lemma entries_insert rows k row :
  seq_inj rows -> (∀ k' row', rows !! k' = Some row' -> cr_access_seq row' < cr_access_seq row) ->
  seq_inj (<[k := row]> rows) ∧
  entries (<[k := row]> rows) = filter (λ kr, kr.1 <> k) (entries rows) ++ [(k, row)].
Proof using Type.
  intros Hinj Hlt.
  assert (Hinj' : seq_inj (<[k := row]> rows)).
  { intros k1 k2 r1 r2. rewrite !lookup_insert_Some. intros [[<- <-]|[? H1]] [[<- <-]|[? H2]] He; auto.
    - apply Hlt in H2. lia.
    - apply Hlt in H1. lia.
    - eauto. }
  split; [done|]. apply entries_unique; [done|..].
  - rewrite fmap_app. apply NoDup_app. split_and!; [apply NoDup_fst_filter, entries_NoDup| |].
    + intros k' ([k'' r'] & -> & [Hne _]%list_elem_of_filter)%list_elem_of_fmap. simpl in *.
      rewrite list_elem_of_singleton. done.
    + apply NoDup_singleton.
  - intros k' row'. rewrite elem_of_app, list_elem_of_filter, list_elem_of_singleton, entries_elem.
    rewrite lookup_insert_Some. simpl. naive_solver.
  - apply StronglySorted_snoc; [apply StronglySorted_filter, entries_sorted|].
    apply filter_Forall, Forall_forall. intros [k' row'] Hin%entries_elem%Hlt.
    unfold leb_by_key. simpl. lia.
Qed.

Lemma entries_delete rows k :
  seq_inj rows ->
  seq_inj (delete k rows) ∧ entries (delete k rows) = filter (λ kr, kr.1 <> k) (entries rows).
Proof using Type.
  intros Hinj.
  assert (Hinj' : seq_inj (delete k rows)).
  { intros k1 k2 r1 r2. rewrite !lookup_delete_Some. intros [? H1] [? H2]. by eapply Hinj. }
  split; [done|]. apply entries_unique; [done|apply NoDup_fst_filter, entries_NoDup|..].
  - intros k' row'. rewrite list_elem_of_filter, entries_elem, lookup_delete_Some. simpl. naive_solver.
  - apply StronglySorted_filter, entries_sorted.
Qed.

(** Deleting the first rows drops a prefix. *)
Lemma entries_head rows k row es :
  seq_inj rows -> entries rows = (k, row) :: es -> entries (delete k rows) = es.
Proof using Type.
  intros Hinj He. rewrite (proj2 (entries_delete rows k Hinj)), He.
  pose proof (entries_NoDup rows) as Hnd. rewrite He in Hnd. apply NoDup_cons in Hnd as [Hn _].
  rewrite filter_cons_False by naive_solver. apply filter_keep.
  intros [k' r'] Hin Heq. simpl in Heq. subst k'. apply Hn. apply list_elem_of_fmap. by exists (k, r').
Qed.

(** ** The specification: keys with their sizes, least recently used first *)

Fixpoint spec_evict (freed needed : Z) (l : list (string * Z)) : list (string * Z) :=
  match l with
  | [] => []
  | (k, size) :: l' => if needed <=? freed then l else spec_evict (freed + size) needed l'
  end.
Definition spec_room (max incoming : Z) (l : list (string * Z)) : list (string * Z) :=
  if sum_Z l.*2 + incoming <=? max then l else spec_evict 0 (sum_Z l.*2 + incoming - max) l.
Definition spec_remove (k : string) (l : list (string * Z)) : list (string * Z) :=
  filter (λ x, x.1 <> k) l.
Definition spec_store (max : Z) (k : string) (d : bytes) (l : list (string * Z))
    : list (string * Z) :=
  spec_remove k (spec_room max (Z.of_nat (length d)) l) ++ [(k, Z.of_nat (length d))].
Definition spec_touch (k : string) (l : list (string * Z)) : list (string * Z) :=
  spec_remove k l ++ filter (λ x, x.1 = k) l.

Definition spec_step (max : Z) (l : list (string * Z)) (c : blob_op * blob_reply)
    : list (string * Z) :=
  match c with
  | (OpPut k d, ReplyUnit (Ok _)) => spec_store max k d l
  | (OpGet k, ReplyBytes (Ok d)) =>
      if decide (k ∈ l.*1) then spec_touch k l else spec_store max k d l
  | (OpDelete k, ReplyUnit (Ok _)) => spec_remove k l
  | _ => l
  end.

Definition sized (kr : string * CacheRow) : string * Z := (kr.1, cr_size_bytes kr.2).
Definition lru (s : BlobCache B) : list (string * Z) := sized <$> entries (bc_rows s).

(** ** When nothing fails *)

Section exact.
(** Rows and files correspond one to one, and the sequence numbers order the
    accesses. *)
Record exact (s : BlobCache B) : Prop := {
  ex_faults : bc_faults s = [];
  ex_torn : bc_torn s = [];
  ex_row k row : bc_rows s !! k = Some row ->
    cr_file_path row = cache_file_path k ∧
    ∃ b, bc_files s !! cache_file_path k = Some b ∧ cr_size_bytes row = Z.of_nat (length b) ∧
         cr_sha256_hex row = Some (sha256_hex b);
  ex_file p b : bc_files s !! p = Some b -> ∃ k, is_Some (bc_rows s !! k) ∧ p = cache_file_path k;
  ex_seq k row : bc_rows s !! k = Some row -> cr_access_seq row < bc_next_seq s;
  ex_inj : seq_inj (bc_rows s);
}.

Lemma call_exact s : bc_faults s = [] -> call s = (Ok tt, s).
Proof using Type. intros Hf. unfold call. by rewrite Hf. Qed.

Lemma evict_loop_exact es s freed needed :
  bc_faults s = [] -> seq_inj (bc_rows s) -> entries (bc_rows s) = es ->
  ∃ ev rows',
    evict_loop (listed <$> es) freed needed s
      = (Ok ev, set_rows s rows') ∧ seq_inj rows' ∧
    sized <$> entries rows' = spec_evict freed needed (sized <$> es) ∧
    (∀ k, rows' !! k = if decide (k ∈ ev.*1) then None else bc_rows s !! k) ∧
    (∀ k p, (k, p) ∈ ev -> ∃ row, bc_rows s !! k = Some row ∧ p = cr_file_path row).
Proof using Type.
  revert s freed. induction es as [|[k row] es IH]; intros s freed Hf Hinj He.
  { exists [], (bc_rows s). rewrite He. split_and!; try done; [by destruct s|set_solver]. }
  rewrite !fmap_cons. cbn [evict_loop spec_evict listed sized fst snd].
  destruct (needed <=? freed) eqn:En.
  { exists [], (bc_rows s). rewrite He. split_and!; try done; [by destruct s|set_solver]. }
  assert (Hk : bc_rows s !! k = Some row) by (apply entries_elem; rewrite He; left).
  destruct (IH (set_rows s (delete k (bc_rows s))) (freed + cr_size_bytes row))
    as (ev & rows' & Hev & Hi & Hl & Hr & Hp).
  { done. } { by apply entries_delete. } { by eapply entries_head. }
  exists ((k, cr_file_path row) :: ev), rows'. rewrite bind_run. unfold db_delete. rewrite bind_run.
  rewrite call_exact by done. unfold act. rewrite bind_run, Hev. split_and!; [done..| |].
  - intros k'. rewrite Hr. simpl. destruct (decide (k' = k)) as [->|Hne].
    + rewrite lookup_delete_eq. by repeat case_decide; set_solver.
    + rewrite lookup_delete_ne by done. repeat case_decide; set_solver.
  - intros k' p [?|Hin]%elem_of_cons; [simplify_eq; eauto|].
    destruct (Hp k' p Hin) as (row' & Hrow' & ?). simpl in Hrow'.
    apply lookup_delete_Some in Hrow' as [_ ?]. eauto.
Qed.

Lemma remove_if_exists_exact p s :
  bc_faults s = [] -> remove_if_exists p s = (Ok tt, set_files s (delete p (bc_files s))).
Proof using Type.
  intros Hf. unfold remove_if_exists. rewrite bind_run. unfold ask at 1.
  destruct (bool_decide_reflect (is_Some (bc_files s !! p))) as [Hs|Hn].
  - rewrite bind_run. unfold attempt. rewrite bind_run. by rewrite call_exact.
  - rewrite delete_id by (by apply eq_None_not_Some). by destruct s.
Qed.

Lemma remove_files_exact ev s :
  bc_faults s = [] ->
  ∃ files', remove_files ev s = (Ok tt, set_files s files') ∧
    ∀ p, files' !! p = if decide (p ∈ ev.*2) then None else bc_files s !! p.
Proof using Type.
  revert s. induction ev as [|[k p] ev IH]; intros s Hf; simpl.
  { exists (bc_files s). split; [by destruct s|set_solver]. }
  rewrite bind_run, remove_if_exists_exact by done.
  destruct (IH (set_files s (delete p (bc_files s)))) as (f & He & Hp); [done|].
  exists f. split; [done|]. intros q. rewrite Hp. simpl. destruct (decide (q = p)) as [->|Hne].
  - rewrite lookup_delete_eq. by repeat case_decide; set_solver.
  - rewrite lookup_delete_ne by done. repeat case_decide; set_solver.
Qed.

Context (sha_inj : ∀ d d', sha256_hex d = sha256_hex d' -> d = d').

(** Evicting rows together with their files keeps the correspondence. *)
Lemma exact_evict s ev rows' files' :
  exact s -> seq_inj rows' ->
  (∀ k, rows' !! k = if decide (k ∈ ev.*1) then None else bc_rows s !! k) ->
  (∀ k p, (k, p) ∈ ev -> ∃ row, bc_rows s !! k = Some row ∧ p = cr_file_path row) ->
  (∀ p, files' !! p = if decide (p ∈ ev.*2) then None else bc_files s !! p) ->
  exact (set_files (set_rows s rows') files').
Proof using sha_inj.
  intros Hs Hi Hr Hp Hf. constructor; simpl; [by apply Hs..| | | |done].
  - intros k row. rewrite Hr. case_decide as Hk; [done|]. intros Hrow.
    destruct (ex_row _ Hs _ _ Hrow) as (? & b & Hb & ? & ?). split; [done|]. exists b.
    split_and!; [|done..]. rewrite Hf, decide_False; [done|].
    intros ([k' p'] & Heq & Hin)%list_elem_of_fmap. simpl in Heq.
    destruct (Hp _ _ Hin) as (row' & Hrow' & ->).
    destruct (ex_row _ Hs _ _ Hrow') as (Hpath & _). rewrite Hpath in Heq.
    apply cache_file_path_inj in Heq; [|done]. subst k'. apply Hk.
    apply list_elem_of_fmap. by exists (k, cr_file_path row').
  - intros p b. rewrite Hf. case_decide as Hk; [done|]. intros Hb.
    destruct (ex_file _ Hs _ _ Hb) as (k & [row Hrow] & ->). exists k. split; [|done].
    rewrite Hr, decide_False; [by eexists|].
    intros ([k' p'] & Heq & Hin)%list_elem_of_fmap. simpl in Heq. subst k'.
    destruct (Hp _ _ Hin) as (row' & Hrow' & ->). simplify_eq.
    destruct (ex_row _ Hs _ _ Hrow) as (Hpath & _). apply Hk. rewrite <-Hpath.
    apply list_elem_of_fmap. by exists (k, cr_file_path row).
  - intros k row. rewrite Hr. case_decide; [done|]. apply Hs.
Qed.

(** The new state of an exact operation. *)
Definition becomes (s s' : BlobCache B) (l : list (string * Z)) : Prop :=
  exact s' ∧ bc_inner s' = bc_inner s ∧ bc_max_bytes s' = bc_max_bytes s ∧ lru s' = l.

Lemma db_total_size_exact s : bc_faults s = [] -> db_total_size s = (Ok (sum_Z (lru s).*2), s).
Proof using Type.
  intros Hf. unfold db_total_size. rewrite bind_run, call_exact by done. unfold ask.
  do 2 f_equal. unfold lru. rewrite <-list_fmap_compose. apply sum_Z_perm.
  by rewrite (entries_perm (bc_rows s)).
Qed.

Lemma ensure_capacity_exact n s :
  exact s -> ∃ s', ensure_capacity n s = (Ok tt, s') ∧
    becomes s s' (spec_room (bc_max_bytes s) n (lru s)).
Proof using sha_inj.
  intros Hs. unfold ensure_capacity, spec_room.
  rewrite bind_run, db_total_size_exact by apply Hs. rewrite bind_run. unfold ask at 1.
  destruct (_ <=? bc_max_bytes s); [exists s; by split_and!|].
  rewrite bind_run. unfold db_evict_lru. rewrite bind_run. unfold db_all_entries_with_sizes.
  rewrite bind_run, call_exact by apply Hs. unfold ask.
  destruct (evict_loop_exact (entries (bc_rows s)) s 0 (sum_Z (lru s).*2 + n - bc_max_bytes s))
    as (ev & rows' & -> & Hi & Hl & Hr & Hp); [apply Hs|apply Hs|done|].
  destruct (remove_files_exact ev (set_rows s rows')) as (files' & -> & Hf); [apply Hs|].
  eexists. split; [done|]. split_and!; [|done|done|exact Hl].
  by apply (exact_evict s ev rows' files').
Qed.

Lemma sized_filter k (l : list (string * CacheRow)) :
  sized <$> filter (λ kr, kr.1 <> k) l = spec_remove k (sized <$> l).
Proof using Type.
  induction l as [|[k' row] l IH]; [done|]. unfold spec_remove in *. rewrite fmap_cons, !filter_cons.
  simpl. destruct (decide (k' <> k)); simpl; by rewrite <-IH.
Qed.

Lemma write_to_cache_exact k d s :
  exact s -> ∃ s', write_to_cache k d s = (Ok tt, s') ∧
    becomes s s' (spec_remove k (lru s) ++ [(k, Z.of_nat (length d))]).
Proof using sha_inj.
  intros Hs. unfold write_to_cache. rewrite bind_run, call_exact by apply Hs.
  rewrite bind_run. unfold write_file. rewrite bind_run, call_exact by apply Hs.
  unfold act at 1. rewrite (ex_torn _ Hs). cbn [head mbind option_bind].
  unfold db_upsert. rewrite bind_run. unfold next_access_seq. rewrite bind_run.
  rewrite call_exact by apply Hs. unfold act. eexists. split; [reflexivity|].
  set (row := mkCacheRow _ _ _ _).
  destruct (entries_insert (bc_rows s) k row (ex_inj _ Hs)) as [Hi He].
  { intros k' row' Hk'. apply (ex_seq _ Hs _ _ Hk'). }
  split_and!; [|done|done|].
  - constructor; simpl; [apply Hs|done| | | |done].
    + intros k' row'. rewrite lookup_insert_Some. intros [[<- <-]|[Hne Hk']].
      * split; [done|]. exists d. by rewrite lookup_insert_eq.
      * rewrite lookup_insert_ne; [by apply Hs|]. by intros ?%cache_file_path_inj.
    + intros p b. rewrite lookup_insert_Some. intros [[<- <-]|[Hne Hb]].
      * exists k. by rewrite lookup_insert_eq.
      * destruct (ex_file _ Hs _ _ Hb) as (k' & Hk' & ->). exists k'. split; [|done].
        rewrite lookup_insert_is_Some. destruct (decide (k = k')); auto.
    + intros k' row'. rewrite lookup_insert_Some. intros [[<- <-]|[_ Hk']]; simpl; [lia|].
      apply (ex_seq _ Hs) in Hk'. lia.
  - unfold lru. cbn [bc_rows set_rows]. rewrite He, fmap_app, sized_filter. done.
Qed.

Lemma lru_elem s k : k ∈ (lru s).*1 <-> is_Some (bc_rows s !! k).
Proof using Type.
  unfold lru. rewrite <-list_fmap_compose, list_elem_of_fmap. split.
  - intros ([k' row] & -> & Hin%entries_elem). by eexists.
  - intros [row Hk%entries_elem]. by exists (k, row).
Qed.

Lemma read_exact k row s :
  exact s -> bc_rows s !! k = Some row ->
  ∃ b, read_from_cache (cr_file_path row) (cr_sha256_hex row) s = (Ok (Some b), s).
Proof using Type.
  intros Hs Hk. destruct (ex_row _ Hs _ _ Hk) as (-> & b & Hb & _ & ->). exists b.
  unfold read_from_cache. rewrite bind_run. unfold ask at 1. rewrite Hb.
  rewrite bind_run, call_exact by apply Hs. rewrite bind_run. unfold ask.
  rewrite bool_decide_true by done. by rewrite andb_false_r.
Qed.

Lemma touched_row k row (l : list (string * CacheRow)) :
  NoDup l.*1 -> (k, row) ∈ l -> filter (λ x, x.1 = k) (sized <$> l) = [(k, cr_size_bytes row)].
Proof using Type.
  induction l as [|[k' row'] l IH]; intros Hnd Hin; [by apply elem_of_nil in Hin|].
  apply NoDup_cons in Hnd as [Hn Hnd]. rewrite fmap_cons, filter_cons. simpl in *.
  apply elem_of_cons in Hin as [[= <- <-]|Hin].
  - rewrite decide_True by done. f_equal. apply filter_none.
    intros [k' z] ([k0 r0] & [= -> _] & Hin)%list_elem_of_fmap Heq. simpl in Heq. subst.
    apply Hn, list_elem_of_fmap. by exists (k, r0).
  - rewrite decide_False; [by apply IH|]. intros <-. apply Hn, list_elem_of_fmap. by exists (k', row).
Qed.

Lemma alter_as_insert {A} (f : A -> A) (m : gmap string A) k x :
  m !! k = Some x -> alter f k m = <[k := f x]> m.
Proof using Type.
  intros Hk. apply map_eq. intros k'. destruct (decide (k' = k)) as [->|Hne].
  - by rewrite lookup_alter_eq, Hk, lookup_insert_eq.
  - by rewrite lookup_alter_ne, lookup_insert_ne.
Qed.

Lemma cached_hit k s :
  exact s -> is_Some (bc_rows s !! k) ->
  ∃ b s', cached k s = (Ok (Some b), s') ∧ becomes s s' (spec_touch k (lru s)).
Proof using sha_inj.
  intros Hs [row Hk]. destruct (read_exact k row s Hs Hk) as [b Hb].
  unfold cached. rewrite bind_run. unfold db_lookup. rewrite bind_run, call_exact by apply Hs.
  unfold ask at 1. rewrite Hk. simpl. rewrite bind_run, Hb. rewrite bind_run. unfold attempt.
  unfold db_update_access. rewrite bind_run. unfold next_access_seq. rewrite bind_run.
  rewrite call_exact by apply Hs. unfold act. exists b. eexists. split; [reflexivity|].
  simpl. rewrite (alter_as_insert _ _ _ row Hk).
  set (row' := mkCacheRow _ _ _ _).
  destruct (entries_insert (bc_rows s) k row' (ex_inj _ Hs)) as [Hi He].
  { intros k1 row1 Hk1. apply (ex_seq _ Hs _ _ Hk1). }
  split_and!; [|done|done|].
  - constructor; simpl; [apply Hs|apply Hs| | | |done].
    + intros k1 row1. rewrite lookup_insert_Some. intros [[<- <-]|[Hne Hk1]];
        [exact (ex_row _ Hs _ _ Hk)|exact (ex_row _ Hs _ _ Hk1)].
    + intros p b1 Hp. destruct (ex_file _ Hs _ _ Hp) as (k1 & Hk1 & ->). exists k1. split; [|done].
      rewrite lookup_insert_is_Some. destruct (decide (k = k1)); auto.
    + intros k1 row1. rewrite lookup_insert_Some. intros [[<- <-]|[_ Hk1]]; simpl; [lia|].
      apply (ex_seq _ Hs) in Hk1. lia.
  - unfold lru, spec_touch. cbn [bc_rows set_rows]. rewrite He, fmap_app, sized_filter. f_equal.
    rewrite (touched_row k row); [done|apply entries_NoDup|by apply entries_elem].
Qed.

Lemma cached_miss k s : exact s -> bc_rows s !! k = None -> cached k s = (Ok None, s).
Proof using Type.
  intros Hs Hk. unfold cached. rewrite bind_run. unfold db_lookup.
  rewrite bind_run, call_exact by apply Hs. unfold ask. by rewrite Hk.
Qed.

Lemma becomes_inner s b s' l : becomes (set_inner s b) s' l -> bc_max_bytes s' = bc_max_bytes s ∧ exact s' ∧ lru s' = l.
Proof using Type. by intros (?&_&?&?). Qed.

Lemma exact_inner s b : exact s -> exact (set_inner s b).
Proof using Type. intros []. by constructor. Qed.

Lemma put_tail_exact k d s :
  exact s -> ∃ s', put_tail k d s = (Ok tt, s') ∧ becomes s s' (spec_store (bc_max_bytes s) k d (lru s)).
Proof using sha_inj.
  intros Hs. destruct (ensure_capacity_exact (Z.of_nat (length d)) s Hs) as (s1 & E1 & Hs1 & Hi1 & Hm1 & Hl1).
  destruct (write_to_cache_exact k d s1 Hs1) as (s2 & E2 & Hs2 & Hi2 & Hm2 & Hl2).
  exists s2. unfold put_tail. rewrite bind_run. unfold attempt at 1. rewrite E1, bind_run.
  unfold attempt. rewrite E2. split; [done|]. split_and!; [done|congruence|congruence|].
  by rewrite Hl2, Hl1.
Qed.

Lemma get_tail_exact k d s :
  exact s -> ∃ s', get_tail k d s = (Ok d, s') ∧ becomes s s' (spec_store (bc_max_bytes s) k d (lru s)).
Proof using sha_inj.
  intros Hs. destruct (ensure_capacity_exact (Z.of_nat (length d)) s Hs) as (s1 & E1 & Hs1 & Hi1 & Hm1 & Hl1).
  destruct (write_to_cache_exact k d s1 Hs1) as (s2 & E2 & Hs2 & Hi2 & Hm2 & Hl2).
  exists s2. unfold get_tail. rewrite bind_run. unfold attempt at 1. rewrite E1, bind_run.
  unfold attempt. rewrite E2. split; [done|]. split_and!; [done|congruence|congruence|].
  by rewrite Hl2, Hl1.
Qed.

Lemma delete_tail_exact k s :
  exact s -> ∃ s', delete_tail k s = (Ok tt, s') ∧ becomes s s' (spec_remove k (lru s)).
Proof using sha_inj.
  intros Hs. unfold delete_tail. rewrite bind_run. unfold attempt at 1, db_lookup.
  rewrite bind_run, call_exact by apply Hs. unfold ask.
  destruct (bc_rows s !! k) as [row|] eqn:Hk; cbn [fmap option_fmap option_map].
  - destruct (ex_row _ Hs _ _ Hk) as (Hp & b & Hb & _). rewrite Hp.
    rewrite bind_run. unfold attempt at 1. rewrite bind_run, call_exact by apply Hs. unfold act at 1.
    rewrite bind_run. unfold attempt, db_delete. rewrite bind_run, call_exact by apply Hs.
    unfold act. eexists. split; [reflexivity|].
    destruct (entries_delete (bc_rows s) k (ex_inj _ Hs)) as [Hi He].
    split_and!; [|done|done|unfold lru; cbn [bc_rows set_rows set_files]; by rewrite He, sized_filter].
    constructor; simpl; [apply Hs|apply Hs| | | |done].
    + intros k' row' [Hne Hk']%lookup_delete_Some. rewrite lookup_delete_ne; [by apply Hs|].
      by intros ?%cache_file_path_inj.
    + intros p b' [Hne Hb']%lookup_delete_Some. destruct (ex_file _ Hs _ _ Hb') as (k' & Hk' & ->).
      exists k'. split; [|done]. rewrite lookup_delete_ne; [done|]. by intros ->.
    + intros k' row' [_ Hk']%lookup_delete_Some. by apply (ex_seq _ Hs) in Hk'.
  - exists s. split; [done|]. split_and!; [done..|]. unfold spec_remove. symmetry.
    apply filter_keep. intros x Hx Heq. assert (Hin : k ∈ (lru s).*1).
    { apply list_elem_of_fmap. by exists x. } apply lru_elem in Hin as [row Hrow]. congruence.
Qed.

Lemma blob_step_exact op s r s' :
  exact s -> blob_step op s = (r, s') ->
  exact s' ∧ bc_max_bytes s' = bc_max_bytes s ∧ lru s' = spec_step (bc_max_bytes s) (lru s) (op, r).
Proof using sha_inj.
  intros Hs. destruct op as [k d|k|k a b|k|k]; simpl.
  - rewrite bc_put_run. destruct (blob_put k d (bc_inner s)) as [[[]|e] b1].
    + destruct (put_tail_exact k d _ (exact_inner s b1 Hs)) as (s2 & -> & Hb). intros [= <- <-].
      apply becomes_inner in Hb. naive_solver.
    + intros [= <- <-]. split_and!; [by apply exact_inner|done..].
  - rewrite bc_get_run. destruct (bc_rows s !! k) as [row|] eqn:Hk.
    + destruct (cached_hit k s Hs) as (d & s1 & -> & Hs1 & _ & Hm & Hl); [by eexists|].
      intros [= <- <-]. split_and!; [done..|]. rewrite decide_True; [done|]. apply lru_elem. by eexists.
    + rewrite (cached_miss k s Hs Hk). destruct (blob_get k (bc_inner s)) as [[d|e] b1].
      * destruct (get_tail_exact k d _ (exact_inner s b1 Hs)) as (s2 & -> & Hb). intros [= <- <-].
        apply becomes_inner in Hb as (?&?&Hl). split_and!; [done..|].
        rewrite decide_False; [done|]. rewrite lru_elem, Hk. by intros [? [=]].
      * intros [= <- <-]. split_and!; [by apply exact_inner|done..].
  - unfold on_inner, zoom. destruct (blob_get_range k a b (bc_inner s)) as [r1 b1].
    intros [= <- <-]. split_and!; [by apply exact_inner|done..].
  - unfold on_inner, zoom. destruct (blob_exists k (bc_inner s)) as [r1 b1].
    intros [= <- <-]. split_and!; [by apply exact_inner|done..].
  - rewrite bc_delete_run. destruct (blob_delete k (bc_inner s)) as [[[]|e] b1].
    + destruct (delete_tail_exact k _ (exact_inner s b1 Hs)) as (s2 & -> & Hb). intros [= <- <-].
      apply becomes_inner in Hb. naive_solver.
    + intros [= <- <-]. split_and!; [by apply exact_inner|done..].
Qed.

(** ** Maintenance, when nothing fails *)

Lemma trim_files_exact ev s freed :
  bc_faults s = [] ->
  ∃ n, trim_files ev freed s = (Ok n, (remove_files ev s).2).
Proof using Type.
  revert s freed. induction ev as [|[k p] ev IH]; intros s freed Hf; simpl; [by eexists|].
  rewrite !bind_run. unfold ask. rewrite remove_if_exists_exact by done.
  destruct (bc_files s !! p) as [b|] eqn:Ep.
  - rewrite bind_run. unfold attempt. rewrite call_exact by done.
    rewrite bind_run, remove_if_exists_exact by done. by apply IH.
  - rewrite delete_id by done. destruct s. by apply IH.
Qed.

Lemma trim_exact s :
  exact s -> ∃ n s', trim s = (Ok n, s') ∧ becomes s s' (spec_room (bc_max_bytes s) 0 (lru s)).
Proof using sha_inj.
  intros Hs. unfold trim, spec_room.
  rewrite bind_run, db_total_size_exact by apply Hs. rewrite bind_run. unfold ask at 1.
  rewrite Z.add_0_r. destruct (_ <=? bc_max_bytes s); [exists 0, s; by split_and!|].
  rewrite bind_run. unfold db_evict_lru. rewrite bind_run. unfold db_all_entries_with_sizes.
  rewrite bind_run, call_exact by apply Hs. unfold ask.
  destruct (evict_loop_exact (entries (bc_rows s)) s 0 (sum_Z (lru s).*2 - bc_max_bytes s))
    as (ev & rows' & -> & Hi & Hl & Hr & Hp); [apply Hs|apply Hs|done|].
  destruct (trim_files_exact ev (set_rows s rows') 0) as [n ->]; [apply Hs|].
  destruct (remove_files_exact ev (set_rows s rows')) as (files' & -> & Hf); [apply Hs|].
  eexists _, _. split; [done|]. split_and!; [|done|done|exact Hl].
  by apply (exact_evict s ev rows' files').
Qed.

Lemma clear_files_exact rows s :
  bc_faults s = [] ->
  ∃ files', clear_files rows s = (Ok true, set_files s files') ∧
    ∀ p, files' !! p = if decide (p ∈ (λ x, x.1.2) <$> rows) then None else bc_files s !! p.
Proof using sha_inj.
  revert s. induction rows as [|[[k p] sz] rows IH]; intros s Hf; simpl.
  { exists (bc_files s). split; [by destruct s|set_solver]. }
  rewrite bind_run. unfold ask at 1.
  destruct (IH (set_files s (delete p (bc_files s)))) as (f & He & Hp); [done|]. exists f. split.
  - rewrite bind_run. destruct (bool_decide_reflect (is_Some (bc_files s !! p))) as [Hs|Hn].
    + unfold attempt. rewrite bind_run, call_exact by done. unfold act. by rewrite bind_run, He.
    + rewrite delete_id in He by (by apply eq_None_not_Some). unfold mret, prog_ret at 1.
      assert (set_files s (bc_files s) = s) as Hid by (by destruct s). rewrite Hid in He.
      by rewrite bind_run, He.
  - intros q. rewrite Hp. simpl. destruct (decide (q = p)) as [->|Hne].
    + rewrite lookup_delete_eq. by repeat case_decide; set_solver.
    + rewrite lookup_delete_ne by done. repeat case_decide; set_solver.
Qed.

Lemma clear_exact s : exact s -> ∃ s', clear s = (Ok tt, s') ∧ becomes s s' [].
Proof using sha_inj.
  intros Hs. unfold clear. rewrite bind_run. unfold db_all_entries_with_sizes.
  rewrite bind_run, call_exact by apply Hs. unfold ask. rewrite bind_run.
  destruct (clear_files_exact (listed <$> entries (bc_rows s)) s) as (files' & -> & Hf); [apply Hs|].
  rewrite bind_run. unfold attempt, db_delete_all. rewrite bind_run, call_exact by apply Hs.
  unfold act. eexists. split; [reflexivity|].
  assert (files' = ∅) as ->.
  { apply map_eq. intros p. rewrite Hf, lookup_empty. case_decide as Hp; [done|].
    destruct (bc_files s !! p) as [b|] eqn:Eb; [|done]. exfalso. apply Hp.
    destruct (ex_file _ Hs _ _ Eb) as (k & [row Hk] & ->).
    destruct (ex_row _ Hs _ _ Hk) as [Hpath _]. rewrite <-list_fmap_compose.
    apply list_elem_of_fmap. exists (k, row). split; [done|]. by apply entries_elem. }
  split_and!; [|done..]. constructor; simpl; [apply Hs|apply Hs|..].
  all: by intros ??; rewrite lookup_empty.
Qed.

(** ** Histories of an exact cache *)

Inductive cache_event := EvBlob (op : blob_op) | EvTrim | EvClear.

Definition cache_step (ev : cache_event) (s : BlobCache B) : option blob_reply * BlobCache B :=
  match ev with
  | EvBlob op => let '(r, s') := blob_step op s in (Some r, s')
  | EvTrim => (None, (trim s).2)
  | EvClear => (None, (clear s).2)
  end.

Fixpoint cache_run (evs : list cache_event) (s : BlobCache B)
    : list (cache_event * option blob_reply) * BlobCache B :=
  match evs with
  | [] => ([], s)
  | ev :: evs =>
      let '(r, s1) := cache_step ev s in
      let '(h, s2) := cache_run evs s1 in ((ev, r) :: h, s2)
  end.

Definition spec_event (max : Z) (l : list (string * Z)) (c : cache_event * option blob_reply)
    : list (string * Z) :=
  match c with
  | (EvBlob op, Some r) => spec_step max l (op, r)
  | (EvTrim, _) => spec_room max 0 l
  | (EvClear, _) => []
  | _ => l
  end.

Lemma cache_step_exact ev s r s' :
  exact s -> cache_step ev s = (r, s') ->
  exact s' ∧ bc_max_bytes s' = bc_max_bytes s ∧ lru s' = spec_event (bc_max_bytes s) (lru s) (ev, r).
Proof using sha_inj.
  intros Hs. destruct ev as [op| |]; simpl.
  - destruct (blob_step op s) as [r1 s1] eqn:E. intros [= <- <-]. by apply (blob_step_exact op s r1).
  - destruct (trim_exact s Hs) as (n & s1 & -> & ?&?&?&?). by intros [= <- <-].
  - destruct (clear_exact s Hs) as (s1 & -> & ?&?&?&?). by intros [= <- <-].
Qed.

Lemma cache_run_exact evs s h s' :
  exact s -> cache_run evs s = (h, s') ->
  exact s' ∧ bc_max_bytes s' = bc_max_bytes s ∧
  lru s' = fold_left (spec_event (bc_max_bytes s)) h (lru s).
Proof using sha_inj.
  revert s h s'. induction evs as [|ev evs IH]; intros s h s' Hs; simpl.
  { by intros [= <- <-]. }
  destruct (cache_step ev s) as [r s1] eqn:E1. destruct (cache_run evs s1) as [h1 s2] eqn:E2.
  intros [= <- <-]. destruct (cache_step_exact ev s r s1 Hs E1) as (Hs1 & Hm1 & Hl1).
  destruct (IH s1 h1 s2 Hs1 E2) as (Hs2 & Hm2 & Hl2).
  split_and!; [done|congruence|]. simpl. by rewrite Hl2, Hl1, Hm1.
Qed.

(** ** The cap *)

Definition fits (max : Z) (c : cache_event * option blob_reply) : Prop :=
  match c with
  | (EvBlob (OpPut _ d), _) => Z.of_nat (length d) <= max
  | (EvBlob (OpGet _), Some (ReplyBytes (Ok d))) => Z.of_nat (length d) <= max
  | _ => True
  end.

Definition sizes_ok (l : list (string * Z)) : Prop := Forall (λ x, 0 <= x.2) l.

Lemma sum_sizes_nonneg l : sizes_ok l -> 0 <= sum_Z l.*2.
Proof using Type. induction 1; csimpl in *; lia. Qed.

Lemma sum_remove k l : sizes_ok l -> sizes_ok (spec_remove k l) ∧ sum_Z (spec_remove k l).*2 <= sum_Z l.*2.
Proof using Type.
  unfold spec_remove. induction 1 as [|x l Hx Hl IH]; [by split; [constructor|]|].
  rewrite filter_cons. case_decide; csimpl; [|split; [tauto|lia]].
  split; [constructor; tauto|csimpl; lia].
Qed.

Lemma spec_evict_sum freed needed l :
  sizes_ok l -> 0 <= freed ->
  sizes_ok (spec_evict freed needed l) ∧ sum_Z (spec_evict freed needed l).*2 <= sum_Z l.*2 ∧
  (spec_evict freed needed l = [] ∨ sum_Z (spec_evict freed needed l).*2 <= sum_Z l.*2 + freed - needed).
Proof using Type.
  revert freed. induction l as [|[k z] l IH]; intros freed Hl Hf; csimpl.
  { split_and!; [done|lia|by left]. }
  destruct (Z.leb_spec needed freed); csimpl; [split_and!; [done|lia|right; lia]|].
  inversion Hl as [|?? Hz Hl']; subst. simpl in Hz.
  destruct (IH (freed + z) Hl') as (?&?&?); [lia|]. split_and!; [done|lia|].
  intuition lia.
Qed.

Lemma spec_room_fits max incoming l :
  sizes_ok l -> 0 <= incoming <= max ->
  sizes_ok (spec_room max incoming l) ∧ sum_Z (spec_room max incoming l).*2 + incoming <= max.
Proof using Type.
  intros Hl Hi. unfold spec_room. destruct (Z.leb_spec (sum_Z l.*2 + incoming) max); [done|].
  destruct (spec_evict_sum 0 (sum_Z l.*2 + incoming - max) l Hl) as (?&?&[He|?]); [lia|..].
  - rewrite He. split; [constructor|simpl; lia].
  - split; [done|lia].
Qed.

Lemma spec_store_fits max k d l :
  sizes_ok l -> Z.of_nat (length d) <= max ->
  sizes_ok (spec_store max k d l) ∧ sum_Z (spec_store max k d l).*2 <= max.
Proof using Type.
  intros Hl Hd. destruct (spec_room_fits max (Z.of_nat (length d)) l Hl) as [Hr Hs]; [lia|].
  destruct (sum_remove k _ Hr) as [Hr' Hs']. unfold spec_store. split.
  - apply Forall_app. split; [done|]. repeat constructor. simpl. lia.
  - rewrite fmap_app, sum_Z_app. simpl. lia.
Qed.

Lemma sum_touch k l : sizes_ok l -> sizes_ok (spec_touch k l) ∧ sum_Z (spec_touch k l).*2 = sum_Z l.*2.
Proof using Type.
  intros Hl. assert (Hp : spec_touch k l ≡ₚ l).
  { unfold spec_touch, spec_remove. clear Hl. induction l as [|x l IH]; [done|].
    rewrite !filter_cons. destruct (decide (x.1 = k)); destruct (decide (x.1 <> k)); try done; simpl.
    - by rewrite <-Permutation_middle, IH.
    - by rewrite IH. }
  split; [unfold sizes_ok; by rewrite Hp|]. apply sum_Z_perm. by rewrite Hp.
Qed.

Lemma spec_event_fits max l c :
  0 <= max -> sizes_ok l -> sum_Z l.*2 <= max -> fits max c ->
  sizes_ok (spec_event max l c) ∧ sum_Z (spec_event max l c).*2 <= max.
Proof using Type.
  intros Hm Hl Hs. destruct c as [[op| |] r]; simpl.
  - destruct r as [r|]; [|done]. destruct op as [k d|k|k a b|k|k]; simpl; [| |done..|].
    + intros Hf. destruct r as [[]| |]; [by apply spec_store_fits|done..].
    + destruct r as [|[d|]|]; [done| |done..]. intros Hf. case_decide; [|by apply spec_store_fits].
      destruct (sum_touch k l Hl) as [? ->]. done.
    + intros _. destruct r as [[]| |]; [|done..]. destruct (sum_remove k l Hl). split; [done|lia].
  - intros _. destruct (spec_room_fits max 0 l Hl); [lia|]. split; [done|lia].
  - intros _. split; [constructor|done].
Qed.

Lemma spec_run_fits max h l :
  0 <= max -> sizes_ok l -> sum_Z l.*2 <= max -> Forall (fits max) h ->
  sum_Z (fold_left (spec_event max) h l).*2 <= max.
Proof using Type.
  intros Hm. revert l. induction h as [|c h IH]; intros l Hl Hs Hf; [done|].
  apply Forall_cons in Hf as [Hc Hf]. simpl.
  destruct (spec_event_fits max l c Hm Hl Hs Hc). by apply IH.
Qed.

Lemma lru_sizes_ok s : exact s -> sizes_ok (lru s).
Proof using Type.
  intros Hs. unfold lru, sizes_ok. apply Forall_fmap, Forall_forall.
  intros [k row] Hin%entries_elem. destruct (ex_row _ Hs _ _ Hin) as (_ & b & _ & Hsz & _).
  simpl. lia.
Qed.
End exact.
End cache.

(** ** The cache as a whole *)

(** An undisturbed cache is an exact LRU cache: after every history of
    blob calls, trims and clears on a cache opened over an empty directory,
    over whatever store, the rows in eviction order are those the
    specification computes from the calls and their replies - every stored or
    hit key moves to the recent end, and room is made by dropping the least
    recently used keys, as few as suffice. *)
Theorem cache_lru_refines {B} `{!Blob B} (sha256_hex : bytes -> string) (cache_dir : path)
    (inner : B) (max_bytes : Z) (paranoid : bool) (evs : list cache_event)
    (h : list (cache_event * option blob_reply)) (s' : BlobCache B) :
  let s := cache_new inner max_bytes paranoid ∅ ∅ in
  (∀ d d', sha256_hex d = sha256_hex d' -> d = d') ->
  cache_run sha256_hex cache_dir evs s = (h, s') ->
  lru s' = fold_left (spec_event (bc_max_bytes s)) h [].
Proof.
  intros s Hsha Hr.
  destruct (cache_run_exact sha256_hex cache_dir Hsha evs s h s') as (_ & _ & Hl); [|done|done].
  by constructor.
Qed.

(** The cap holds on disk: if no single blob is larger than the cap, then
    after every such history the cached bytes are within the cap, and every
    file in the cache directory is accounted for by a row of its size. *)
Theorem cache_within_cap {B} `{!Blob B} (sha256_hex : bytes -> string) (cache_dir : path)
    (inner : B) (max_bytes : Z) (paranoid : bool) (evs : list cache_event)
    (h : list (cache_event * option blob_reply)) (s' : BlobCache B) :
  let s := cache_new inner max_bytes paranoid ∅ ∅ in
  (∀ d d', sha256_hex d = sha256_hex d' -> d = d') -> 0 <= max_bytes ->
  cache_run sha256_hex cache_dir evs s = (h, s') -> Forall (fits (bc_max_bytes s)) h ->
  sum_Z (lru s').*2 <= bc_max_bytes s ∧
  ∀ p b, bc_files s' !! p = Some b ->
    ∃ k, (k, Z.of_nat (length b)) ∈ lru s' ∧ p = cache_file_path sha256_hex cache_dir k.
Proof.
  intros s Hsha Hm Hr Hf.
  destruct (cache_run_exact sha256_hex cache_dir Hsha evs s h s') as (Hs' & _ & Hl);
    [by constructor|done|]. split.
  - assert (0 <= bc_max_bytes s).
    { unfold s, cache_new; simpl. destruct (max_bytes =? 0); unfold DEFAULT_CACHE_MAX_GB; lia. }
    rewrite Hl. change (lru s) with (@nil (string * Z)). by apply spec_run_fits; [|constructor|..].
  - intros p b Hb. destruct (ex_file _ _ _ Hs' _ _ Hb) as (k & [row Hk] & ->). exists k.
    split; [|done]. destruct (ex_row _ _ _ Hs' _ _ Hk) as (_ & b' & Hb' & Hsz & _).
    simplify_eq. apply list_elem_of_fmap. exists (k, row). unfold sized. simpl. rewrite Hsz.
    split; [done|]. by apply entries_elem.
Qed.


(** ** Reopening *)

(** The names of the demonstration: SHA-256 replaced by the identity, a
    local store without encryption that holds every blob it is asked for. *)
Definition demo_sha : bytes -> string := String.string_of_list_byte.
Lemma demo_sha_inj d d' : demo_sha d = demo_sha d' -> d = d'.
Proof.
  intros He. rewrite <-(String.list_byte_of_string_of_list_byte d), <-(String.list_byte_of_string_of_list_byte d').
  unfold demo_sha in He. by rewrite He.
Qed.

Definition demo_backend_store : LocalBlob :=
  blob_exec (H := @local_blob plain_aead)
    [OpPut "7/a" [x61]; OpPut "7/b" [x62]; OpPut "7/c" [x63]] demo_store.

Definition demo_cache : BlobCache LocalBlob := cache_new demo_backend_store 2 false ∅ ∅.
Definition demo_run (evs : list cache_event) (s : BlobCache LocalBlob) : BlobCache LocalBlob :=
  (@cache_run _ (@local_blob plain_aead) demo_sha ["cache"] evs s).2.
Definition reopen (s : BlobCache LocalBlob) : BlobCache LocalBlob :=
  cache_new (bc_inner s) (bc_max_bytes s) (bc_paranoid s) (bc_rows s) (bc_files s).

(** The access counter starts at zero again when a cache directory is
    reopened, while the rows keep their old numbers: here [7/b] is the last
    key read before and after the restart, yet reading [7/c] then evicts
    [7/b] and keeps [7/a], which without the restart is evicted. *)
Theorem reopened_cache_evicts_recent :
  let before := demo_run [EvBlob (OpGet "7/b"); EvBlob (OpGet "7/a"); EvBlob (OpGet "7/b");
                          EvBlob (OpGet "7/a"); EvBlob (OpGet "7/b")] demo_cache in
  (lru before).*1 = ["7/a"; "7/b"] ∧
  (lru (demo_run [EvBlob (OpGet "7/b"); EvBlob (OpGet "7/c")] before)).*1 = ["7/b"; "7/c"] ∧
  (lru (demo_run [EvBlob (OpGet "7/b"); EvBlob (OpGet "7/c")] (reopen before))).*1 = ["7/c"; "7/a"].
Proof. vm_compute. split_and!; reflexivity. Qed.

(** ** Witnesses *)

Definition demo_events : list cache_event :=
  [EvBlob (OpGet "7/b"); EvBlob (OpPut "7/a" [x61]); EvTrim; EvBlob (OpGet "7/c");
   EvBlob (OpDelete "7/a")].

Lemma cache_lru_refines_witness :
  lru (demo_run demo_events demo_cache) = [("7/c", 1)] ∧
  lru (demo_run demo_events demo_cache) =
    fold_left (spec_event 2)
      (@cache_run _ (@local_blob plain_aead) demo_sha ["cache"] demo_events demo_cache).1 [].
Proof.
  split; [vm_compute; reflexivity|].
  apply (@cache_lru_refines _ (@local_blob plain_aead) demo_sha ["cache"] demo_backend_store 2 false
           demo_events).
  - exact demo_sha_inj.
  - vm_compute. reflexivity.
Defined.

Lemma cache_within_cap_witness :
  bc_files (demo_run demo_events demo_cache) = {[cache_file_path demo_sha ["cache"] "7/c" := [x63]]} ∧
  sum_Z (lru (demo_run demo_events demo_cache)).*2 <= 2 ∧
  ∀ p b, bc_files (demo_run demo_events demo_cache) !! p = Some b ->
    ∃ k, (k, Z.of_nat (length b)) ∈ lru (demo_run demo_events demo_cache) ∧
         p = cache_file_path demo_sha ["cache"] k.
Proof.
  split; [vm_compute; reflexivity|].
  apply (@cache_within_cap _ (@local_blob plain_aead) demo_sha ["cache"] demo_backend_store 2 false
           demo_events
           (@cache_run _ (@local_blob plain_aead) demo_sha ["cache"] demo_events demo_cache).1).
  - exact demo_sha_inj.
  - lia.
  - vm_compute. reflexivity.
  - vm_compute. repeat constructor; discriminate.
Defined.

Definition demo_key_family (k : string) : Prop := k = "7/a" ∨ k = "7/b".
Definition demo_valid (k : string) (d : bytes) : Prop := d = String.list_byte_of_string k.

Lemma demo_family_ok : key_family demo_key_family.
Proof.
  split.
  - intros k [-> | ->]; vm_compute; discriminate.
  - intros k1 k2 [-> | ->] [-> | ->] [q Hq]; try done; vm_compute in Hq; discriminate.
Qed.

(** A stack whose first system call fails and whose first cache file is torn. *)
Definition demo_stack : BlobCache (EncryptedBlob LocalBlob) :=
  mkBlobCache
    (mkEncryptedBlob (mkLocalBlob ["var"; "blobs"] ∅ None [] [true] [])
       (@FileKek plain_aead demo_key) (demo_draws ++ demo_draws ++ demo_draws))
    100 true ∅ ∅ 0 [] [Some 2%nat].

Definition demo_calls : list blob_op :=
  [OpPut "7/a" (String.list_byte_of_string "7/a"); OpPut "7/a" (String.list_byte_of_string "7/a");
   OpGet "7/a"; OpGet "7/a"; OpExists "7/b"; OpGetRange "7/a" 1 3; OpDelete "7/a"; OpGet "7/a"].
Definition demo_replies : list blob_reply :=
  snd <$> @blob_run _ (@blob_cache _ (@encrypted_blob plain_aead _ (@local_blob plain_aead))
                         demo_sha ["cache"]) demo_calls demo_stack.

