(* ===== verification/Staging.v ===== *)
(** * Staged uploads (store/src/ingest_staging.rs)

    The first half of a queued ingest: an upload becomes a pending document
    with pending files in one transaction, found again by what it holds, and a
    job is queued that carries the document.  The statements are on the tables
    of [Schema]; the counts are on the jobs of [JobQueue]. *)

From stdpp Require Import base gmap list sets strings sorting.
From Stdlib Require Import ZArith Lia Strings.Byte.
From S2P Require Import JobQueue Prelude StableSort FloatModel Text Json Role Blob Envelope ColumnCrypt Schema PgStore StoreInvariant StoreReads StoreIngest.
Open Scope Z_scope.

Record PendingIngest := mkPending {
  document_id : Z;
  file_ids : list Z;
  reused : bool;
}.

Section Staging.
Context `{Aead} `{QueryBuilder}.

(** Every file of the document counts, retired ones too. *)
Definition all_count (db : Db) (t d : Z) : nat :=
  length (rows_where (λ _ r, rls t (f_tenant r) && (f_document r =? d)) (files db)).
Definition staged_same (db : Db) (t : Z) (recs : list FileRecord) (d : Z) : bool :=
  (join_count db t d recs =? length recs)%nat && (all_count db t d =? length recs)%nat.
Definition find_staged (db : Db) (t : Z) (recs : list FileRecord) : option Z :=
  head (filter (λ d, staged_same db t recs d && negb (join_count db t d recs =? 0)%nat = true) (file_documents db t)).

Definition set_pending (rec : FileRecord) : FileRecord :=
  mkFileRecord (fr_id rec) (fr_tenant rec) (fr_document rec) (fr_page_no rec) (fr_page_label rec) (fr_sha256 rec)
    (fr_blob_key rec) (fr_path rec) (fr_mime rec) (fr_size_bytes rec) (fr_meta rec) Pending (fr_ingested_at rec).
Definition set_row_status (st : string) (r : DocumentRow) : DocumentRow :=
  mkDocumentRow (dr_tenant r) (dr_title r) (dr_summary r) (dr_summary_enc r) (dr_user_note r) (dr_user_note_enc r) (dr_kind r)
    (dr_meta r) (dr_page_count r) (dr_local_only r) st (dr_created_at r) (dr_sync r).
Definition set_file_status (st : string) (r : FileRow) : FileRow :=
  mkFileRow (f_tenant r) (f_document r) (f_page_no r) (f_page_label r) (f_sha256 r) (f_blob_key r) (f_path r) (f_mime r)
    (f_size_bytes r) (f_meta r) st (f_ingested_at r) (f_superseded_at r).

Definition restage_row (doc : Document) (ue : option bytes) (r : DocumentRow) : DocumentRow :=
  mkDocumentRow (dr_tenant r) (dr_title r) (dr_summary r) (dr_summary_enc r) (doc_user_note doc) ue (dr_kind r) (dr_meta r)
    (dr_page_count r) (doc_local_only doc) (as_str Pending) (dr_created_at r) (dr_sync r).
Definition pending_row (now : Z) (doc : Document) (ue : option bytes) : DocumentRow :=
  mkDocumentRow (doc_tenant doc) None None None (doc_user_note doc) ue (as_str (doc_kind doc)) (doc_meta doc)
    (doc_page_count doc) (doc_local_only doc) (as_str Pending) now (mkSync None None None None None 1 0).

(** [WHERE id = ..] under row-level security. *)
Definition own_document (t id : Z) (k : Z) (r : DocumentRow) : bool := (k =? id) && rls t (dr_tenant r).
Definition update_own (t id : Z) (f : DocumentRow -> DocumentRow) : dbm Z :=
  stmt (λ db, Ok (Z.of_nat (length (rows_where (own_document t id) (documents db))),
                  with_documents (update_where (own_document t id) f) db)).

Definition insert_pending (t now : Z) (doc : Document) (ue : option bytes) : dbm Z :=
  id ← next_document;
  stmt (λ db,
    if negb (rls t (doc_tenant doc)) then Err RlsViolation
    else if negb (kind_check (as_str (doc_kind doc))) then Err CheckViolation
    else if decide (doc_tenant doc ∈ tenants db) then Ok (id, with_documents <[id := pending_row now doc ue]> db)
    else Err FkViolation).

(** The text that stands for a file until it is processed. *)
Definition stub_content (doc : Document) (rec : FileRecord) : chars :=
  default (str "unnamed") (fr_path rec) ++ match doc_user_note doc with Some note => [32] ++ note | None => [] end.
Definition zero_vec : list f32 := replicate VECTOR_DIM (f32_of_Z 0).
Definition stub_chunk (doc : Document) (rec : FileRecord) : Chunk :=
  mkChunk (doc_tenant doc) 0 (Some (fr_page_no rec)) 0 (stub_content doc rec) None zero_vec.
Fixpoint insert_stubs (doc : Document) (did : Z) (dek : option bytes) (l : list (FileRecord * Z)) : dbm unit :=
  match l with
  | [] => mret tt
  | (rec, fid) :: l' =>
      enc ← encrypt_with dek (stub_content doc rec);
      insert_chunk (doc_tenant doc) did fid (stub_chunk doc rec) enc;;
      insert_stubs doc did dek l'
  end.

Definition staging_body (now : Z) (doc : Document) (recs : list FileRecord) (dek ue : option bytes) : dbm PendingIngest :=
  let t := doc_tenant doc in
  existing ← asks (λ s, find_staged (st_db s) t recs);
  did ← match existing with
        | Some id => update_own t id (restage_row doc ue);; mret id
        | None => insert_pending t now doc ue
        end;
  fids ← upsert_files t did (set_pending <$> recs);
  match existing with Some _ => mret tt | None => insert_stubs doc did dek (zip recs fids) end;;
  mret (mkPending did fids (match existing with Some _ => true | None => false end)).

Definition create_pending_ingest (now : Z) (doc : Document) (recs : list FileRecord) : dbm PendingIngest :=
  guard_ok (negb (length recs =? 0)%nat) BadArgument;;
  guard_ok (doc_id doc =? 0) BadArgument;;
  dek ← write_dek (doc_tenant doc);
  ue ← encrypt_field dek (doc_user_note doc);
  tx (staging_body now doc recs dek ue).

(** A document without files, whose address is fetched later. *)
Definition create_pending_url_ingest (now t : Z) (url : chars) (interval : option Z) (local_only : bool) : dbm Z :=
  guard_ok (negb (bool_decide (url = []))) BadArgument;;
  tx (id ← next_document;
      stmt (λ db,
        if decide (t ∈ tenants db)
        then Ok (id, with_documents <[id := mkDocumentRow t None None None None None (as_str KDocument) (JObject []) 1 local_only
               (as_str Pending) now (mkSync (Some url) interval None None None 1 0)]> db)
        else Err FkViolation)).

Definition own_tenant (t : Z) (rec : FileRecord) : FileRecord :=
  mkFileRecord (fr_id rec) t (fr_document rec) (fr_page_no rec) (fr_page_label rec) (fr_sha256 rec)
    (fr_blob_key rec) (fr_path rec) (fr_mime rec) (fr_size_bytes rec) (fr_meta rec) (fr_status rec) (fr_ingested_at rec).
Definition stage_pending_files (t doc : Z) (recs : list FileRecord) : dbm (list Z) :=
  guard_ok (negb (length recs =? 0)%nat) BadArgument;;
  guard_ok (0 <? doc) BadArgument;;
  tx (updated ← update_own t doc (set_row_status (as_str Pending));
      guard_ok (0 <? updated) RowNotFound;;
      upsert_files t doc (set_pending ∘ own_tenant t <$> recs)).

Definition set_document_status (t doc : Z) (st : ProcessingStatus) : dbm unit :=
  tx (update_own t doc (set_row_status (as_str st));;
      stmt (λ db, Ok (tt, with_files (update_where
        (λ _ r, rls t (f_tenant r) && (f_document r =? doc) && negb (bool_decide (f_status r = as_str Ready)))
        (set_file_status (as_str st))) db))).
End Staging.

(** ** Counts over the jobs *)

Definition owed (j : Job) : bool :=
  bool_decide (j_kind j = Role.Ingest ∨ j_kind j = Role.Refetch) && bool_decide (j_status j = Queued ∨ j_status j = Running ∨ j_status j = JobFailed).
Definition count_jobs (P : Job -> bool) (q : JobDb) : Z :=
  Z.of_nat (length (filter (λ r, P (row_job r) = true) (map_to_list (jobs q)).*2)).
Definition count_pending_ingest_jobs (t : Z) (q : JobDb) : Z * Z :=
  (count_jobs (λ j, owed j && (j_tenant_id j =? t)) q, count_jobs owed q).
Definition count_active_ingest_jobs (t : Z) (q : JobDb) : Z :=
  count_jobs (λ j, (j_tenant_id j =? t) && bool_decide (j_kind j = Role.Ingest) &&
    bool_decide (j_status j = Queued ∨ j_status j = Running)) q.
Record PendingJobInfo := mkJobInfo { pj_attempts : Z; pj_run_after : option Z; pj_last_error : option string }.
Definition latest_ingest_job_info (t doc : Z) (q : JobDb) : option PendingJobInfo :=
  (λ r, mkJobInfo (j_attempts (row_job r)) (Some (j_run_after (row_job r))) (j_last_error (row_job r))) <$> latest_ingest q t doc.
Definition latest_ingest_job_error (t doc : Z) (q : JobDb) : option string := latest_ingest_job_info t doc q ≫= pj_last_error.

(** ** Every statement keeps the store's invariant and its tenant *)

Section Safe.
Context `{Aead} `{QueryBuilder}.

Lemma update_own_safe t id f : (∀ r, dr_tenant (f r) = dr_tenant r ∧ dr_kind (f r) = dr_kind r ∧
    (status_ok (dr_status r) -> status_ok (dr_status (f r)))) -> safe t (update_own t id f).
Proof.
  intros Hf. apply safe_stmt. intros db a db' Hok [= <- <-]. split.
  - split; simpl; try apply Hok.
    + intros k r. rewrite lookup_update_where. intros (r0 & Hr & ->)%fmap_Some.
      destruct (ok_documents _ Hok _ _ Hr) as (Hk & Ht & Hkind & Hst). destruct (Hf r0) as (E1 & E2 & E3).
      destruct (own_document t id k r0); [|exact (ok_documents _ Hok _ _ Hr)]. unfold document_ok. simpl. rewrite E1, E2. split; [done|]. split; [done|]. split; [done|]. by apply E3.
    + intros k r Hr. destruct (ok_files _ Hok _ _ Hr) as (?&?&[d Hd]&?&?). split_and!; simpl; try done.
      rewrite lookup_update_where, Hd. by eexists.
    + intros k c Hc. destruct (ok_chunks _ Hok _ _ Hc) as (?&?&[d Hd]&?&?). split_and!; simpl; try done.
      rewrite lookup_update_where, Hd. by eexists.
    + intros k dt Hk. destruct (ok_doc_tags _ Hok _ _ Hk) as ([d Hd] & ?). split; [|done]. simpl.
      rewrite lookup_update_where, Hd. by eexists.
  - split; simpl; eauto using same_rows_refl, seqs_le_refl. apply same_rows_update_where.
    + intros k r Hr. unfold own_document, rls. by rewrite (proj2 (Z.eqb_neq _ _) Hr), andb_false_r.
    + intros k r. unfold own_document, rls. intros Ho Hr. destruct (Hf r) as (E & _). congruence.
Qed.

Lemma safe_restage t id doc ue : safe t (update_own t id (restage_row doc ue)).
Proof. apply update_own_safe. intros r. repeat split. intros _. apply status_ok_str. Qed.
Lemma safe_row_status t id (st : ProcessingStatus) : safe t (update_own t id (set_row_status (as_str st))).
Proof. apply update_own_safe. intros r. repeat split. intros _. apply status_ok_str. Qed.

Lemma safe_insert_pending t now doc ue : safe t (insert_pending t now doc ue).
Proof.
  apply safe_next; [intros []; unfold seqs_le; simpl; lia|]. intros db a db' Hok E Hok'. unfold rls in E.
  destruct (Z.eqb_spec (doc_tenant doc) t) as [Ht|]; [|done]. simpl in E.
  destruct (kind_check _) eqn:Hk; [|done]. simpl in E. case_decide; [|done]. injection E as <- <-.
  pose proof (ok_seq _ Hok). split.
  - apply ok_put_document; [done|]. split_and!; simpl; auto using status_ok_str; lia.
  - apply frame_put_document; [done|]. simpl. rewrite fresh_document by done. done.
Qed.

Lemma safe_insert_stubs doc did dek l : safe (doc_tenant doc) (insert_stubs doc did dek l).
Proof.
  induction l as [|[rec fid] l IH]; simpl; [apply safe_ret|]. apply safe_bind; [apply safe_encrypt_with|]. intros enc.
  apply safe_bind; [apply safe_insert_chunk|done].
Qed.

Lemma pending_recs_ok recs : Forall rec_ok recs -> Forall (λ rec, length (fr_sha256 rec) = 32%nat) (set_pending <$> recs).
Proof. intros Hr. by apply Forall_fmap. Qed.

Lemma safe_staging_body now doc recs dek ue : Forall rec_ok recs -> safe (doc_tenant doc) (staging_body now doc recs dek ue).
Proof.
  intros Hr. unfold staging_body. apply safe_bind; [apply safe_asks|]. intros existing. apply safe_bind.
  { destruct existing; [|apply safe_insert_pending]. apply safe_bind; [apply safe_restage|intros; apply safe_ret]. }
  intros did. apply safe_bind; [by apply safe_upsert_files, pending_recs_ok|]. intros fids.
  apply safe_bind; [destruct existing; [apply safe_ret|apply safe_insert_stubs]|intros; apply safe_ret].
Qed.

Lemma safe_create_pending now doc recs : Forall rec_ok recs -> safe (doc_tenant doc) (create_pending_ingest now doc recs).
Proof.
  intros Hr. unfold create_pending_ingest. apply safe_bind; [apply safe_guard|]. intros _. apply safe_bind; [apply safe_guard|].
  intros _. apply safe_bind; [apply safe_write_dek|]. intros dek. apply safe_bind; [apply safe_encrypt_field|]. intros ue.
  by apply safe_tx, safe_staging_body.
Qed.

Lemma safe_create_url now t url i l : safe t (create_pending_url_ingest now t url i l).
Proof.
  unfold create_pending_url_ingest. apply safe_bind; [apply safe_guard|]. intros _. apply safe_tx.
  apply safe_next; [intros []; unfold seqs_le; simpl; lia|]. intros db a db' Hok E Hok'. case_decide; [|done].
  injection E as <- <-. pose proof (ok_seq _ Hok). split.
  - apply ok_put_document; [done|]. split; [simpl; lia|]. split; [done|]. split; [done|]. apply (status_ok_str Pending).
  - apply frame_put_document; [done|]. simpl. by rewrite fresh_document.
Qed.

Lemma safe_stage_files t doc recs : Forall rec_ok recs -> safe t (stage_pending_files t doc recs).
Proof.
  intros Hr. unfold stage_pending_files. apply safe_bind; [apply safe_guard|]. intros _. apply safe_bind; [apply safe_guard|].
  intros _. apply safe_tx, safe_bind; [apply safe_row_status|]. intros n. apply safe_bind; [apply safe_guard|]. intros _.
  apply safe_upsert_files. by apply Forall_fmap.
Qed.

Lemma update_files_status t db Q g : (∀ k r, Q k r = true -> f_tenant r = t) ->
  (∀ r, file_key (g r) = file_key r ∧ status_ok (f_status (g r))) -> db_ok db ->
  db_ok (with_files (update_where Q g) db) ∧ frame t db (with_files (update_where Q g) db).
Proof.
  intros HQ Hg Hok.
  assert (Hl : ∀ k r', update_where Q g (files db) !! k = Some r' ->
            ∃ r, files db !! k = Some r ∧ file_key r' = file_key r ∧ (status_ok (f_status r) -> status_ok (f_status r'))).
  { intros k r'. rewrite lookup_update_where. intros (r & -> & Hr)%fmap_Some. exists r. split; [done|].
    destruct (Q k r); rewrite Hr; [|done]. destruct (Hg r). by split. }
  split.
  - split; simpl; try apply Hok.
    + intros k r' (r & Hr & Hk & Hst)%Hl. destruct (ok_files _ Hok k r Hr) as (?&?&?&?&?).
      unfold file_key in Hk. injection Hk as E1 E2 E3. unfold file_ok. simpl. rewrite E1, E2, E3. by split_and!; auto.
    + intros k c Hk. destruct (ok_chunks _ Hok k c Hk) as (?&?&?&Hf&?). split_and!; simpl; auto.
      rewrite lookup_update_where. by destruct Hf as [f ->].
    + intros k k' r1 r2 (r1' & H1 & E1 & _)%Hl (r2' & H2 & E2 & _)%Hl E.
      eapply (ok_unique_files _ Hok); eauto. congruence.
  - split; simpl; eauto using same_rows_refl, seqs_le_refl. apply same_rows_update_where.
    + intros k r Hr. destruct (Q k r) eqn:E; [|done]. by apply HQ in E.
    + intros k r E Hp. apply HQ in E. destruct (Hg r) as [Hk _]. unfold file_key in Hk. injection Hk as E1 _ _. congruence.
Qed.

Lemma safe_set_status t doc st : safe t (set_document_status t doc st).
Proof.
  apply safe_tx, safe_bind; [apply safe_row_status|]. intros _. apply safe_stmt. intros db a db' Hok [= <- <-].
  apply update_files_status; [|intros r; split; [done|apply status_ok_str]|done].
  intros k r. unfold rls. rewrite !andb_true_iff, !Z.eqb_eq. tauto.
Qed.
End Safe.

(** ** What staging leaves *)

Section Exact.
Context `{Aead} `{QueryBuilder}.

Definition of_document (t d : Z) (_ : Z) (r : FileRow) : bool := rls t (f_tenant r) && (f_document r =? d).

(** When an upload is found again, every file of the document is one of it. *)
Lemma same_rows_covered db t recs d : NoDup (fr_sha256 <$> recs) -> staged_same db t recs d = true ->
  ∀ k r, files db !! k = Some r -> of_document t d k r = true -> f_sha256 r ∈ (fr_sha256 <$> recs).
Proof.
  unfold staged_same, join_count, all_count. intros Hnd Hs k r Hr Ho. bool_to_prop.
  match goal with A : (length ?j =? _)%nat = true, B : (length ?a =? _)%nat = true |- _ =>
    apply Nat.eqb_eq in A; apply Nat.eqb_eq in B; set (J := j) in *; set (R := a) in * end.
  assert (HJ : ∀ kr, kr ∈ J -> kr ∈ R ∧ f_sha256 kr.2 ∈ (fr_sha256 <$> recs)).
  { intros [k' r'] Hin. apply list_elem_of_bind in Hin as (rec & Hin & Hrec). apply rows_where_elem in Hin as [Hk HP].
    bool_to_prop. simpl. split; [|by apply list_elem_of_fmap; exists rec]. apply rows_where_elem. split; [done|].
    apply andb_true_iff. split; [done|by apply Z.eqb_eq]. }
  assert (HndJ : NoDup J).
  { apply NoDup_bind.
    - intros r1 r2 [k' r'] Hr1 Hr2 Hin1 Hin2. apply rows_where_elem in Hin1 as [_ P1], Hin2 as [_ P2]. bool_to_prop.
      apply list_elem_of_lookup in Hr1 as [i Hi], Hr2 as [j Hj].
      assert (i = j) as ->; [|congruence]. eapply (NoDup_lookup _ _ _ (fr_sha256 r1) Hnd); rewrite list_lookup_fmap; [by rewrite Hi|].
      rewrite Hj. simpl. congruence.
    - intros rec _. eapply NoDup_fmap_1, rows_where_NoDup.
    - eapply NoDup_fmap_1, Hnd. }
  assert (Hp : J ≡ₚ R).
  { apply submseteq_length_Permutation; [|lia]. apply NoDup_submseteq; [done|]. intros x Hx. by apply HJ. }
  assert (Hin : (k, r) ∈ R) by (by apply rows_where_elem). rewrite <- Hp in Hin. by apply HJ in Hin as [_ ?].
Qed.

Definition stub_row (doc : Document) (did fid : Z) (rec : FileRecord) : ChunkRec :=
  chunk_row did fid (stub_chunk doc rec) None.

Lemma insert_stubs_ok doc did dek l s u s' : db_ok (st_db s) -> insert_stubs doc did dek l s = (Ok u, s') ->
  ∃ new : list (Z * ChunkRec), chunks (st_db s') = list_to_map new ∪ chunks (st_db s) ∧ NoDup new.*1 ∧
    Forall (λ k, sq_chunks (seqs (st_db s)) <= k) new.*1 ∧
    plain <$> new.*2 = (λ rf, stub_row doc did rf.2 rf.1) <$> l ∧ chunks_only s s'.
Proof.
  revert s. induction l as [|[rec fid] l IH]; intros s Hok E; cbn [insert_stubs] in E.
  - injection E as _ <-. exists []. split_and!; try constructor; simpl; [by rewrite map_empty_union| |]; done.
  - apply dbind_ok in E as (enc & s0 & He & E). pose proof (quiet_ok _ _ _ _ (quiet_encrypt_with _ _) He) as Hdb.
    rewrite <- Hdb in Hok. apply dbind_ok in E as ([] & s1 & Hi & E).
    assert (Hone : insert_chunks (doc_tenant doc) (λ _, did) fid [(stub_chunk doc rec, enc)] s0 = (Ok tt, s1)).
    { cbn [insert_chunks]. unfold mbind, dbm_bind. by rewrite Hi. }
    pose proof (safe_insert_chunk (doc_tenant doc) did fid (stub_chunk doc rec) enc s0 Hok) as [Hok1 Hfr].
    rewrite Hi in Hok1, Hfr. cbn [snd] in Hok1, Hfr. pose proof (fr_seqs _ _ _ Hfr) as (_ & _ & Hq & _).
    apply insert_chunks_ok in Hone as (new1 & Hc1 & Hnd1 & Hge1 & Hrow1 & _ & Hon1); [|done].
    destruct (IH s1 Hok1 E) as (new2 & Hc2 & Hnd2 & Hge2 & Hrow2 & Hon2). rewrite Hdb in Hc1, Hge1, Hq.
    assert (Hlt : ∀ k, k ∈ new1.*1 -> k < sq_chunks (seqs (st_db s1))).
    { intros k Hk. apply list_elem_of_fmap in Hk as ([k' c] & -> & Hin).
      assert (chunks (st_db s1) !! k' = Some c) as Hk by (rewrite Hc1; apply lookup_union_Some_l; by apply elem_of_list_to_map_1).
      by apply (ok_chunks _ Hok1) in Hk as [? _]. }
    assert (Hdis : ∀ k, k ∈ new1.*1 -> k ∉ new2.*1).
    { intros k H1 H2. rewrite Forall_forall in Hge2. apply Hlt in H1. apply Hge2 in H2. lia. }
    exists (new1 ++ new2). rewrite !fmap_app. split_and!.
    + rewrite Hc2, Hc1, list_to_map_app, !map_union_assoc. f_equal. apply map_union_comm.
      apply map_disjoint_spec. intros k c c' H1 H2.
      apply elem_of_list_to_map_2, (list_elem_of_fmap_2 fst) in H1, H2. by eapply Hdis.
    + apply NoDup_app. auto.
    + apply Forall_app. split; [done|]. eapply Forall_impl; [exact Hge2|]. simpl. lia.
    + rewrite Hrow1, Hrow2. csimpl. done.
    + eapply chunks_only_trans; [|exact Hon2]. unfold chunks_only in *. by rewrite Hdb in Hon1.
Qed.

(** The tables after a successful staging. *)
Record staged (now : Z) (doc : Document) (recs : list FileRecord) (ue : option bytes) (db db' : Db) (p : PendingIngest) : Prop := {
  sg_reused : find_staged db (doc_tenant doc) recs = if reused p then Some (document_id p) else None;
  sg_documents : if reused p
    then documents db' = update_where (own_document (doc_tenant doc) (document_id p)) (restage_row doc ue) (documents db)
    else documents db !! document_id p = None ∧ documents db' = <[document_id p := pending_row now doc ue]> (documents db);
  sg_tenant : Forall (λ rec, fr_tenant rec = doc_tenant doc) recs;
  sg_nodup : NoDup (file_ids p);
  sg_files : Forall2 (λ fid rec, files db' !! fid = Some (file_row (document_id p) (set_pending rec))) (file_ids p) recs;
  sg_rest k : k ∉ file_ids p -> files db' !! k = files db !! k;
  sg_own k r : k ∈ file_ids p -> files db !! k = Some r -> f_document r = document_id p;
  sg_keys k r : files db !! k = Some r -> ∃ r', files db' !! k = Some r' ∧ file_key r' = file_key r;
  sg_all : (rows_where (of_document (doc_tenant doc) (document_id p)) (files db')).*1 ≡ₚ file_ids p;
  sg_chunks : ∃ new : list (Z * ChunkRec), chunks db' = list_to_map new ∪ chunks db ∧ NoDup new.*1 ∧
    plain <$> new.*2 = if reused p then [] else zip_with (stub_row doc (document_id p)) (file_ids p) recs;
  sg_tags : doc_tags db' = doc_tags db ∧ tags db' = tags db;
}.

Lemma find_staged_Some db t recs d : find_staged db t recs = Some d -> staged_same db t recs d = true.
Proof. unfold find_staged. intros Hh%head_Some_elem_of. apply list_elem_of_filter in Hh as [Hd _]. by apply andb_true_iff in Hd as [? _]. Qed.

Lemma stub_rows_zip doc did recs fids :
  (λ rf : FileRecord * Z, stub_row doc did rf.2 rf.1) <$> zip recs fids = zip_with (stub_row doc did) fids recs.
Proof. revert fids. induction recs as [|rec recs IH]; intros [|fid fids]; try done. csimpl. by rewrite IH. Qed.

(** The document of an upload that is not found again has no rows yet. *)
Lemma fresh_rows db t d k r : db_ok db -> documents db !! d = None -> files db !! k = Some r -> of_document t d k r = false.
Proof.
  intros Hok Hd Hr. destruct (ok_files _ Hok _ _ Hr) as (_ & _ & Hsome & _). unfold of_document.
  destruct (Z.eqb_spec (f_document r) d) as [E|]; [|by rewrite andb_false_r]. rewrite E, Hd in Hsome. by destruct Hsome.
Qed.

(** Files upserted over those of a document that is new or the same upload
    are all of its files. *)
Lemma upserted_all t did recs fids db db' : db_ok db ->
  (documents db !! did = None ∨ staged_same db t recs did = true) -> NoDup (fr_sha256 <$> recs) -> NoDup fids ->
  Forall (λ rec, fr_tenant rec = t) recs ->
  Forall2 (λ fid rec, files db' !! fid = Some (file_row did (set_pending rec))) fids recs ->
  (∀ k, k ∉ fids -> files db' !! k = files db !! k) ->
  (∀ k r, files db !! k = Some r -> f_tenant r = t -> f_document r = did -> f_sha256 r ∈ (fr_sha256 <$> recs) -> k ∈ fids) ->
  (rows_where (of_document t did) (files db')).*1 ≡ₚ fids.
Proof.
  intros Hok Hcase Hnd Hndf Hten Hfiles Hrest Hback. apply NoDup_Permutation; [apply rows_where_NoDup|done|]. intros k.
  rewrite list_elem_of_fmap. split.
  - intros ([k' r] & -> & [Hr HP]%rows_where_elem). simpl. destruct (decide (k' ∈ fids)) as [|Hn]; [done|].
    rewrite Hrest in Hr by done. destruct Hcase as [Hnew|Hsame]; [by rewrite (fresh_rows db) in HP|].
    pose proof (same_rows_covered _ _ _ _ Hnd Hsame _ _ Hr HP) as Hsha. unfold of_document, rls in HP. bool_to_prop. by eapply Hback.
  - intros Hin. apply list_elem_of_lookup in Hin as [i Hi].
    destruct (Forall2_lookup_l _ _ _ _ _ Hfiles Hi) as (rec & Hrec & Hrow). eexists (k, _). split; [done|].
    apply rows_where_elem. split; [exact Hrow|]. unfold of_document, rls. simpl.
    rewrite Forall_lookup in Hten. by rewrite (Hten _ _ Hrec), !Z.eqb_refl.
Qed.

Lemma set_pending_fields (recs : list FileRecord) : fr_sha256 <$> (set_pending <$> recs) = fr_sha256 <$> recs.
Proof. by rewrite <- list_fmap_compose. Qed.

(** An upsert keeps the key of every row. *)
Lemma upsert_files_keys t doc recs s fids s' : db_ok (st_db s) -> Forall rec_ok recs ->
  upsert_files t doc recs s = (Ok fids, s') ->
  ∀ k r, files (st_db s) !! k = Some r -> ∃ r', files (st_db s') !! k = Some r' ∧ file_key r' = file_key r.
Proof.
  revert s fids s'. induction recs as [|rec recs IH]; intros s fids s' Hok Hrec E k r Hk; [injection E as _ <-; by exists r|].
  simpl in E. apply dbind_ok in E as (fid & s1 & Hu & E). apply dbind_ok in E as (fids' & s2 & Hus & [= <- <-]).
  apply Forall_cons in Hrec as [Hr Hrec].
  assert (Hok1 : db_ok (st_db s1)).
  { pose proof (safe_upsert_file_row t doc rec Hr s Hok) as [Hs1 _]. by rewrite Hu in Hs1. }
  apply upsert_file_row_ok in Hu as (_ & Hf & Hkey & _); [|done].
  assert (H1 : ∃ r1, files (st_db s1) !! k = Some r1 ∧ file_key r1 = file_key r).
  { rewrite Hf. destruct (decide (k = fid)) as [->|Hne].
    - rewrite lookup_insert_eq. eexists. split; [done|]. symmetry. by apply (Hkey fid r).
    - rewrite lookup_insert_ne by done. by exists r. }
  destruct H1 as (r1 & Hk1 & <-). by eapply IH.
Qed.

(** The document statement of the staging. *)
Lemma staging_document now doc recs ue s did s' existing : db_ok (st_db s) ->
  existing = find_staged (st_db s) (doc_tenant doc) recs ->
  match existing with
  | Some id => update_own (doc_tenant doc) id (restage_row doc ue);; mret id
  | None => insert_pending (doc_tenant doc) now doc ue
  end s = (Ok did, s') ->
  (match existing with
   | Some id => did = id ∧ documents (st_db s') = update_where (own_document (doc_tenant doc) did) (restage_row doc ue) (documents (st_db s))
   | None => documents (st_db s) !! did = None ∧ documents (st_db s') = <[did := pending_row now doc ue]> (documents (st_db s))
   end) ∧ files (st_db s') = files (st_db s) ∧ chunks (st_db s') = chunks (st_db s) ∧
  doc_tags (st_db s') = doc_tags (st_db s) ∧ tags (st_db s') = tags (st_db s) ∧ db_ok (st_db s').
Proof.
  intros Hok -> E. assert (Hok' : db_ok (st_db s')).
  { destruct (find_staged _ _ _) as [id|].
    - pose proof (safe_bind _ _ _ (safe_restage (doc_tenant doc) id doc ue) (λ _, safe_ret (doc_tenant doc) id) s Hok) as [Hs _]. by rewrite E in Hs.
    - pose proof (safe_insert_pending (doc_tenant doc) now doc ue s Hok) as [Hs _]. by rewrite E in Hs. }
  destruct (find_staged _ _ _) as [id|].
  - apply dbind_ok in E as (n & s1 & Hu & [= <- <-]). unfold update_own in Hu. apply stmt_ok in Hu as (db & [= _ <-] & ->). by split_and!.
  - apply next_ok in E as (db & E & ->). unfold rls in E. rewrite Z.eqb_refl in E. simpl in E. destruct (kind_check _); [|done].
    simpl in E. case_decide; [|done]. injection E as <- <-. split_and!; try done. by apply fresh_document.
Qed.

Lemma staging_body_ok now doc recs dek ue s p s' : db_ok (st_db s) -> Forall rec_ok recs -> NoDup (fr_sha256 <$> recs) ->
  staging_body now doc recs dek ue s = (Ok p, s') -> staged now doc recs ue (st_db s) (st_db s') p.
Proof.
  intros Hok Hrec Hnd. unfold staging_body. intros (existing & s0 & [= <- <-] & E)%dbind_ok.
  set (existing := find_staged _ _ _) in *. apply dbind_ok in E as (did & s1 & Hdoc & E).
  apply (staging_document now doc recs ue) in Hdoc as (Hrow & Hf1 & Hc1 & Hdt1 & Htg1 & Hok1); [|done|done].
  apply dbind_ok in E as (fids & s2 & Hfs & E). apply dbind_ok in E as (u & s3 & Hstub & [= <- <-]).
  pose proof (safe_upsert_files (doc_tenant doc) did _ (pending_recs_ok _ Hrec) s1 Hok1) as [Hok2 _].
  rewrite Hfs in Hok2. cbn [snd] in Hok2.
  pose proof (upsert_files_keys _ _ _ _ _ _ Hok1 (pending_recs_ok _ Hrec) Hfs) as Hkeys.
  apply upsert_files_ok in Hfs as (Hten & Hndf & Hfiles & Hrest & Hown & Hback & Hd2 & Hc2 & Hdt2 & Htg2);
    [|done|by apply Forall_fmap|by rewrite set_pending_fields].
  rewrite set_pending_fields in Hback. rewrite Hf1 in Hrest, Hown, Hback, Hkeys. apply Forall2_fmap_r in Hfiles. apply Forall_fmap in Hten.
  assert (Hst : ∃ new : list (Z * ChunkRec), chunks (st_db s3) = list_to_map new ∪ chunks (st_db s) ∧ NoDup new.*1 ∧
    plain <$> new.*2 = (if existing then [] else zip_with (stub_row doc did) fids recs) ∧ chunks_only s2 s3).
  { clear - Hstub Hok2 Hc1 Hc2. destruct existing as [id|].
    - injection Hstub as _ <-. exists []. split_and!; [simpl; by rewrite map_empty_union, Hc2, Hc1|constructor|done|done].
    - apply insert_stubs_ok in Hstub as (new & Hc3 & Hndn & _ & Hrows & Hon); [|done]. exists new. rewrite Hc3, Hc2, Hc1.
      split_and!; [done|done|by rewrite Hrows, stub_rows_zip|done]. }
  destruct Hst as (new & Hc3 & Hndn & Hrows & (Hd3 & Hf3 & Hdt3 & Htg3)).
  assert (Hall : (rows_where (of_document (doc_tenant doc) did) (files (st_db s2))).*1 ≡ₚ fids).
  { apply (upserted_all _ _ recs _ (st_db s)); try done. clear - Hrow. subst existing.
    destruct (find_staged _ _ _) as [id|] eqn:E; [right|left; apply Hrow]. destruct Hrow as [-> _]. by apply find_staged_Some in E. }
  split; simpl; rewrite ?Hf3; try done.
  - fold existing. clear - Hrow. destruct existing; [|done]. by destruct Hrow as [-> _].
  - rewrite Hd3, Hd2. clear - Hrow. destruct existing; [by destruct Hrow|done].
  - intros k r Hk Hr. by destruct (Hown k r Hk Hr) as (_ & ? & _).
  - exists new. split_and!; [done|done|]. by destruct existing.
  - split; congruence.
Qed.

Lemma create_pending_ok now doc recs s p s' : db_ok (st_db s) -> Forall rec_ok recs -> NoDup (fr_sha256 <$> recs) ->
  create_pending_ingest now doc recs s = (Ok p, s') ->
  recs <> [] ∧ db_ok (st_db s') ∧ frame (doc_tenant doc) (st_db s) (st_db s') ∧
  ∃ dek s1 ue s2, write_dek (doc_tenant doc) s = (Ok dek, s1) ∧ encrypt_field dek (doc_user_note doc) s1 = (Ok ue, s2) ∧
    staging_body now doc recs dek ue s2 = (Ok p, s') ∧ st_connected s2 = true ∧ staged now doc recs ue (st_db s) (st_db s') p.
Proof.
  intros Hok Hrec Hnd E. pose proof (safe_create_pending now doc recs Hrec s Hok) as [Hok' Hfr]. rewrite E in Hok', Hfr.
  unfold create_pending_ingest in E. apply guard_bind_ok in E as [Hne E]. apply guard_bind_ok in E as [_ E].
  split; [by destruct recs|]. split; [done|]. split; [done|].
  apply dbind_ok in E as (dek & s1 & Hdek & E). apply dbind_ok in E as (ue & s2 & Hue & [Hconn E]%tx_ok).
  exists dek, s1, ue, s2. split; [done|]. split; [done|]. split; [done|]. split; [done|].
  assert (Hok2 : db_ok (st_db s2)).
  { pose proof (safe_write_dek (doc_tenant doc) s Hok) as [Hs1 _]. rewrite Hdek in Hs1.
    by rewrite (quiet_ok _ _ _ _ (quiet_encrypt_field _ _) Hue). }
  assert (Hsame : core_same s s2).
  { eapply core_same_trans; [by eapply keeps_ok; [apply keeps_write_dek|]|by eapply keeps_ok; [apply keeps_encrypt_field|]]. }
  apply staging_body_ok in E; [|done..]. destruct Hsame as ((Hd & Hf & Hdt & Htg) & Hc & _). destruct E.
  assert (Hfind : find_staged (st_db s2) (doc_tenant doc) recs = find_staged (st_db s) (doc_tenant doc) recs).
  { unfold find_staged, file_documents, staged_same, join_count, all_count. by rewrite Hf. }
  rewrite Hfind in sg_reused0. rewrite Hd in sg_documents0. rewrite Hf in sg_rest0, sg_own0, sg_keys0. rewrite Hc in sg_chunks0.
  rewrite Hdt, Htg in sg_tags0. by split.
Qed.

(** *** The rows are read back as they were staged *)

Definition staged_file (did fid : Z) (rec : FileRecord) : FileRecord :=
  mkFileRecord fid (fr_tenant rec) did (fr_page_no rec) (fr_page_label rec) (fr_sha256 rec) (fr_blob_key rec) (fr_path rec)
    (fr_mime rec) (fr_size_bytes rec) (fr_meta rec) Pending (fr_ingested_at rec).

Lemma sort_by_sorted {A} (key : A -> Z) l : StronglySorted (λ x y, key x < key y) l -> sort_by_key key l = l.
Proof.
  intros Hs. unfold sort_by_key. induction Hs as [|x l Hs IH Hx]; [done|]. simpl. rewrite IH.
  destruct l as [|y l]; [done|]. simpl. apply Forall_cons in Hx as [Hxy _]. unfold leb_by_key. by rewrite (proj2 (Z.leb_le _ _)) by lia.
Qed.

Lemma strict_key_inj {A} (key : A -> Z) l x y : StronglySorted (λ x y, key x < key y) l -> x ∈ l -> y ∈ l -> key x = key y -> x = y.
Proof.
  induction 1 as [|z l Hs IH Hz]; intros Hx Hy E; [by apply elem_of_nil in Hx|]. rewrite Forall_forall in Hz.
  apply elem_of_cons in Hx as [->|Hx], Hy as [->|Hy]; [done|apply Hz in Hy; lia|apply Hz in Hx; lia|by apply IH].
Qed.

Lemma sort_by_key_perm {A} (key : A -> Z) l k : StronglySorted (λ x y, key x < key y) k -> l ≡ₚ k -> sort_by_key key l = k.
Proof.
  intros Hs Hp. etrans; [|by apply sort_by_sorted]. apply sort_by_deterministic.
  - apply leb_by_key_total.
  - apply leb_by_key_trans.
  - done.
  - intros x y Hx Hy H1 H2. rewrite Hp in Hx, Hy. unfold leb_by_key in H1, H2. bool_to_prop.
    apply (strict_key_inj key k); [done..|lia].
Qed.

Lemma staged_live now doc recs ue db db' p : staged now doc recs ue db db' p -> StronglySorted (λ a b, fr_page_no a < fr_page_no b) recs ->
  live_files db' (doc_tenant doc) (document_id p) = zip_with (λ fid rec, (fid, file_row (document_id p) (set_pending rec))) (file_ids p) recs.
Proof.
  intros [] Hsort. apply sort_by_key_perm.
  - clear - Hsort sg_files0. induction sg_files0 as [|fid rec fids recs Hrow Hall IH]; [constructor|].
    apply StronglySorted_inv in Hsort as [Hsort Hrec]. cbn [zip_with]. constructor; [by apply IH|].
    apply Forall_forall. intros [k r] (i & f & rec' & [= -> ->] & _ & Hi)%elem_of_lookup_zip_with.
    rewrite Forall_forall in Hrec. apply list_elem_of_lookup_2 in Hi. exact (Hrec _ Hi).
  - apply NoDup_Permutation.
    + eapply NoDup_fmap_1, rows_where_NoDup.
    + apply (NoDup_fmap_1 fst). assert (fst <$> zip_with (λ fid rec, (fid, file_row (document_id p) (set_pending rec))) (file_ids p) recs = file_ids p) as ->; [|done].
      clear - sg_files0. induction sg_files0; csimpl; [done|]. by f_equal.
    + intros [k r]. rewrite rows_where_elem, elem_of_lookup_zip_with. split.
      * intros [Hr HP]. assert (Hin : k ∈ file_ids p).
        { rewrite <- sg_all0. apply list_elem_of_fmap. exists (k, r). split; [done|]. apply rows_where_elem. split; [done|].
          by apply andb_true_iff in HP as [? _]. }
        apply list_elem_of_lookup in Hin as [i Hi]. destruct (Forall2_lookup_l _ _ _ _ _ sg_files0 Hi) as (rec & Hrec & Hrow).
        exists i, k, rec. split_and!; [congruence|done|done].
      * intros (i & fid & rec & [= -> ->] & Hi & Hrec). pose proof (Forall2_lookup_lr _ _ _ _ _ _ sg_files0 Hi Hrec) as Hrow.
        split; [exact Hrow|]. rewrite Forall_lookup in sg_tenant0. unfold rls, live_file. simpl.
        by rewrite (sg_tenant0 _ _ Hrec), !Z.eqb_refl.
Qed.

Lemma staged_read now doc recs ue s s' p : staged now doc recs ue (st_db s) (st_db s') p -> st_connected s' = true ->
  Forall rec_ok recs -> StronglySorted (λ a b, fr_page_no a < fr_page_no b) recs ->
  get_files_for_document (doc_tenant doc) (document_id p) s' = (Ok (zip_with (staged_file (document_id p)) (file_ids p) recs), s').
Proof.
  intros Hst Hc Hrec Hsort. unfold get_files_for_document, mbind, dbm_bind, tx, asks. rewrite Hc. simpl.
  rewrite (staged_live _ _ _ _ _ _ _ Hst Hsort). unfold of_res. f_equal. destruct Hst. clear - sg_files0 Hrec.
  revert Hrec. induction sg_files0 as [|fid rec fids recs Hrow Hall IH]; intros Hrec; [done|].
  apply Forall_cons in Hrec as [Hr Hrec]. cbn [zip_with collect]. rewrite (IH Hrec).
  unfold file_from_row. simpl. unfold rec_ok in Hr. by rewrite Hr.
Qed.

(** *** The same upload again *)

Definition staged_candidate (db : Db) (t : Z) (recs : list FileRecord) (d : Z) : Prop :=
  staged_same db t recs d && negb (join_count db t d recs =? 0)%nat = true.

Lemma find_staged_iff db t recs d : find_staged db t recs = Some d <->
  staged_candidate db t recs d ∧ ∀ d', staged_candidate db t recs d' -> d <= d'.
Proof.
  assert (Hin : ∀ d, staged_candidate db t recs d -> d ∈ remove_dups (f_document <$> (rows_where (λ _ r, rls t (f_tenant r)) (files db)).*2)).
  { intros d' Hc. unfold staged_candidate in Hc. apply andb_true_iff in Hc as [_ Hj]. apply negb_true_iff, Nat.eqb_neq in Hj.
    apply join_document in Hj. unfold file_documents, sort_by_key in Hj. by rewrite sort_by_elem_of in Hj. }
  unfold find_staged, file_documents. rewrite head_sorted_min. split.
  - intros (_ & Hc & Hmin). split; [done|]. intros d' Hd'. by apply Hmin; [apply Hin|].
  - intros [Hc Hmin]. split_and!; [by apply Hin|done|]. intros d' _. apply Hmin.
Qed.

Lemma find_staged_None db t recs d : find_staged db t recs = None -> staged_candidate db t recs d -> False.
Proof.
  intros Hn Hc. unfold find_staged in Hn.
  assert (Hin : d ∈ filter (λ d, staged_same db t recs d && negb (join_count db t d recs =? 0)%nat = true) (file_documents db t)).
  { apply list_elem_of_filter. split; [done|]. apply (join_document _ _ recs). unfold staged_candidate in Hc.
    apply andb_true_iff in Hc as [_ Hj]. by apply negb_true_iff, Nat.eqb_neq in Hj. }
  destruct (filter _ _); [by apply elem_of_nil in Hin|done].
Qed.

Lemma staged_rows_other now doc recs ue db db' p d (P : Z -> FileRow -> bool) : staged now doc recs ue db db' p -> d <> document_id p ->
  (∀ k r, P k r = true -> f_document r = d) -> rows_where P (files db') = rows_where P (files db).
Proof.
  intros [] Hd HP. unfold rows_where. f_equal. apply map_eq. intros k. apply option_eq. intros r.
  rewrite !map_lookup_filter_Some. simpl. destruct (decide (k ∈ file_ids p)) as [Hin|Hn]; [|by rewrite sg_rest0].
  split; intros [Hr Hp]; exfalso; pose proof (HP k r Hp) as Hdoc.
  - apply list_elem_of_lookup in Hin as [i Hi]. destruct (Forall2_lookup_l _ _ _ _ _ sg_files0 Hi) as (rec & _ & Hrow).
    rewrite Hrow in Hr. injection Hr as <-. simpl in Hdoc. done.
  - apply (sg_own0 k r Hin) in Hr. congruence.
Qed.

Lemma staged_candidate_other now doc recs ue db db' p d recs' : staged now doc recs ue db db' p -> d <> document_id p ->
  staged_candidate db' (doc_tenant doc) recs' d <-> staged_candidate db (doc_tenant doc) recs' d.
Proof.
  intros Hst Hd. unfold staged_candidate, staged_same, all_count.
  rewrite (staged_rows_other _ _ _ _ _ _ _ d _ Hst Hd) by (intros k r Hp; bool_to_prop; done).
  assert (join_count db' (doc_tenant doc) d recs' = join_count db (doc_tenant doc) d recs') as ->; [|done].
  unfold join_count. f_equal. apply list_bind_ext; [|done]. intros rec. apply (staged_rows_other _ _ _ _ _ _ _ d _ Hst Hd).
  intros k r Hp. bool_to_prop. done.
Qed.

Lemma restage_found now doc recs ue db db' p : recs <> [] -> db_ok db' -> staged now doc recs ue db db' p ->
  find_staged db' (doc_tenant doc) recs = Some (document_id p).
Proof.
  intros Hne Hok' Hst. pose proof Hst as [].
  assert (Hj : join_count db' (doc_tenant doc) (document_id p) recs = length recs).
  { by apply (join_full _ _ _ _ (file_ids p) (λ rec, file_row (document_id p) (set_pending rec))). }
  assert (Ha : all_count db' (doc_tenant doc) (document_id p) = length recs).
  { unfold all_count. rewrite <- (Forall2_length _ _ _ sg_files0), <- (length_fmap fst). by apply Permutation_length. }
  apply find_staged_iff. split.
  - unfold staged_candidate, staged_same. rewrite Hj, Ha, Nat.eqb_refl. simpl. by destruct recs.
  - intros d Hd. destruct (decide (d = document_id p)) as [->|Hne']; [lia|].
    apply (staged_candidate_other _ _ _ _ _ _ _ _ _ Hst Hne') in Hd. destruct (reused p).
    + by apply find_staged_iff in sg_reused0 as [_ Hmin]; apply Hmin.
    + by apply find_staged_None in Hd.
Qed.
End Exact.

(** ** The staged document is read back *)

Section ReadBack.
Context `{Aead} `{!AeadLaws} `{QueryBuilder}.

#[local] Hint Resolve fk_ret fk_throw fk_asks fk_keyed fk_nextval : store.
#[local] Hint Extern 2 (fixed_keys (_ ≫= _)) => apply fk_bind; [|intros ?] : store.
#[local] Hint Extern 3 (fixed_keys (stmt _)) => apply fk_stmt; intros; case_all; done : store.
#[local] Hint Extern 4 (fixed_keys (match ?x with _ => _ end)) => destruct x : store.

Lemma fk_staging_body now doc recs dek ue : fixed_keys (staging_body now doc recs dek ue).
Proof.
  assert (Hew : ∀ d s, fixed_keys (encrypt_with d s)) by (intros []; simpl; eauto 10 with store).
  assert (Hst : ∀ did d l, fixed_keys (insert_stubs doc did d l))
    by (intros did d; induction l as [|[]]; simpl; unfold insert_chunk, next_chunk; eauto 10 with store).
  assert (Hfs : ∀ t d rs, fixed_keys (upsert_files t d rs))
    by (intros t d; induction rs; simpl; unfold upsert_file_row, next_file; eauto 10 with store).
  unfold staging_body, update_own, insert_pending, next_document. eauto 40 with store.
Qed.

(** The files of a tenant belong to its documents. *)
Definition own_files (t : Z) (db : Db) : Prop :=
  ∀ k r, files db !! k = Some r -> f_tenant r = t -> ∃ d, documents db !! f_document r = Some d ∧ dr_tenant d = t.

(** The row of a staged document. *)
Lemma staged_row now doc recs ue db db' p : own_files (doc_tenant doc) db -> staged now doc recs ue db db' p ->
  ∃ r, documents db' !! document_id p = Some r ∧ dr_tenant r = doc_tenant doc ∧ dr_status r = as_str Pending ∧
    dr_user_note r = doc_user_note doc ∧ dr_user_note_enc r = ue ∧ dr_local_only r = doc_local_only doc.
Proof.
  intros Hown []. destruct (reused p).
  - assert (Hd : ∃ r, documents db !! document_id p = Some r ∧ dr_tenant r = doc_tenant doc).
    { apply find_staged_iff in sg_reused0 as [Hc _]. unfold staged_candidate in Hc. apply andb_true_iff in Hc as [_ Hj].
      apply negb_true_iff, Nat.eqb_neq in Hj. apply join_document in Hj. unfold file_documents, sort_by_key in Hj.
      rewrite sort_by_elem_of, elem_of_remove_dups in Hj.
      apply list_elem_of_fmap in Hj as (r & -> & ([k r'] & -> & [Hr Ht]%rows_where_elem)%list_elem_of_fmap).
      apply (Hown k r' Hr). by apply Z.eqb_eq. }
    destruct Hd as (r & Hr & Ht). exists (restage_row doc ue r). rewrite sg_documents0, lookup_update_where, Hr. simpl.
    unfold own_document, rls. by rewrite Ht, !Z.eqb_refl.
  - destruct sg_documents0 as [_ ->]. eexists. rewrite lookup_insert_eq. by split_and!.
Qed.

Lemma staged_own_files now doc recs ue db db' p : own_files (doc_tenant doc) db -> db_ok db ->
  staged now doc recs ue db db' p -> own_files (doc_tenant doc) db'.
Proof.
  intros Hown Hok Hst k r Hr Ht. destruct (staged_row _ _ _ _ _ _ _ Hown Hst) as (d & Hd & Hdt & _). destruct Hst.
  destruct (decide (k ∈ file_ids p)) as [Hin|Hn].
  - apply list_elem_of_lookup in Hin as [i Hi]. destruct (Forall2_lookup_l _ _ _ _ _ sg_files0 Hi) as (rec & _ & Hrow).
    rewrite Hrow in Hr. injection Hr as <-. by exists d.
  - rewrite sg_rest0 in Hr by done. destruct (Hown k r Hr Ht) as (d0 & Hd0 & Ht0). destruct (reused p).
    + rewrite sg_documents0, lookup_update_where, Hd0. eexists. split; [done|]. by destruct (own_document _ _ _ _).
    + destruct sg_documents0 as [Hnone ->]. exists d0. by rewrite lookup_insert_ne by congruence.
Qed.

(** What decryption shows of a row: its sealed fields opened, nothing else. *)
Lemma decrypt_row_some t dek r s :
  (match dek with None => st_kek s = None | Some d => has_key t d (keyring s) end) ->
  ∃ r' s', decrypt_document_row t r s = (Ok r', s') ∧ (r' = r ∨ ∃ d, dek = Some d ∧ r' = open_row d r) ∧
    core_same s s' ∧ (st_connected s = true -> st_connected s' = true).
Proof.
  intros Hd. unfold decrypt_document_row. destruct dek as [d|].
  - destruct (has_key_dek _ _ _ Hd) as (s' & Hget & Hcore). destruct Hd as (kek & dk & Hkek & _).
    unfold keyring in Hkek. simpl in Hkek. unfold mbind, dbm_bind. cbn. rewrite Hkek. cbn.
    destruct (has_enc r); cbn; [|eauto 10 using core_same_refl]. rewrite Hget. pose proof (dek_has_key _ _ _ _ Hget) as (? & ? & _ & Hc & _). eauto 10 using core_same_refl.
  - unfold mbind, dbm_bind. cbn. rewrite Hd. cbn. eauto 10 using core_same_refl.
Qed.

(** Files are read from the tables alone. *)
Lemma files_read_same t d s s' l : core_same s s' -> st_connected s' = true -> get_files_for_document t d s = (Ok l, s) ->
  get_files_for_document t d s' = (Ok l, s').
Proof.
  intros ((_ & Hf & _) & _) Hc. unfold get_files_for_document, mbind, dbm_bind, tx, asks. rewrite Hc.
  destruct (st_connected s); [|done]. simpl. unfold live_files. rewrite Hf. unfold of_res. by destruct (collect _ _); intros [= ->].
Qed.

(** The staged document as its worker reads it. *)
Definition reads_pending (did : Z) (doc d : Document) : Prop :=
  doc_id d = did ∧ doc_tenant d = doc_tenant doc ∧ doc_status d = Pending ∧ doc_user_note d = doc_user_note doc ∧
  doc_local_only d = doc_local_only doc.

Lemma staged_document now doc recs ue dek s s' p :
  db_ok (st_db s') -> st_connected s' = true -> own_files (doc_tenant doc) (st_db s) ->
  staged now doc recs ue (st_db s) (st_db s') p ->
  (match dek with None => st_kek s' = None | Some d => has_key (doc_tenant doc) d (keyring s') end) ->
  (∀ d, dek = Some d -> open_column d ue (doc_user_note doc) = doc_user_note doc) ->
  ∃ d s'', get_document (doc_tenant doc) (document_id p) s' = (Ok (Some d), s'') ∧ reads_pending (document_id p) doc d ∧
    core_same s' s'' ∧ st_connected s'' = true.
Proof.
  intros Hok Hc Hown Hst Hkey Hnote. destruct (staged_row _ _ _ _ _ _ _ Hown Hst) as (r & Hr & Ht & Hs & Hn & He & Hl).
  destruct (decrypt_row_some _ dek r s' Hkey) as (r' & s'' & Hdec & Hr' & Hcore & Hconn).
  assert (Hsame : dr_tenant r' = doc_tenant doc ∧ dr_status r' = as_str Pending ∧ dr_user_note r' = doc_user_note doc ∧
    dr_local_only r' = doc_local_only doc ∧ dr_kind r' = dr_kind r).
  { destruct Hr' as [->|(d & Hd & ->)]; [done|]. simpl. rewrite Hn, He. by split_and!; try done; apply Hnote. }
  destruct Hsame as (Ht' & Hs' & Hn' & Hl' & Hk').
  assert (Hdoc : document_ok (st_db s') (document_id p) r').
  { destruct (ok_documents _ Hok _ _ Hr) as (Hid & Htn & Hkd & _). split; [done|]. split; [congruence|]. split; [congruence|]. rewrite Hs'. apply status_ok_str. }
  destruct (document_from_row_ok _ _ _ Hdoc) as [d Hd]. exists d, s''.
  unfold get_document, mbind, dbm_bind, tx. rewrite Hc. cbn. rewrite Hr. unfold rls. rewrite Ht, Z.eqb_refl. cbn. rewrite Hdec.
  cbn. rewrite Hd. cbn. split; [done|]. split; [|by auto]. unfold document_from_row in Hd. unfold parse_enum in Hd.
  destruct (from_str (dr_kind r')); [|done]. rewrite Hs', from_str_as_str in Hd. injection Hd as <-. by split_and!.
Qed.

(** What a successful staging leaves. *)
Record staging_done (doc : Document) (recs : list FileRecord) (s : Store) (p : PendingIngest) (s' : Store) : Prop := {
  sd_ok : db_ok (st_db s');
  sd_frame : frame (doc_tenant doc) (st_db s) (st_db s');
  sd_own : own_files (doc_tenant doc) (st_db s');
  sd_document : ∃ d s'', get_document (doc_tenant doc) (document_id p) s' = (Ok (Some d), s'') ∧
    reads_pending (document_id p) doc d ∧
    get_files_for_document (doc_tenant doc) (document_id p) s'' = (Ok (zip_with (staged_file (document_id p)) (file_ids p) recs), s'');
  sd_length : length (file_ids p) = length recs;
  sd_before : find_staged (st_db s) (doc_tenant doc) recs = if reused p then Some (document_id p) else None;
  sd_after : find_staged (st_db s') (doc_tenant doc) recs = Some (document_id p);
}.

Lemma create_pending_done now doc recs s p s' :
  db_ok (st_db s) -> own_files (doc_tenant doc) (st_db s) -> Forall rec_ok recs -> NoDup (fr_sha256 <$> recs) ->
  StronglySorted (λ a b, fr_page_no a < fr_page_no b) recs -> from_option (λ x, is_str x) True (doc_user_note doc) ->
  create_pending_ingest now doc recs s = (Ok p, s') -> staging_done doc recs s p s'.
Proof.
  intros Hok Hown Hrec Hnd Hsort Hnote E.
  apply create_pending_ok in E as (Hne & Hok' & Hfr & dek & s1 & ue & s2 & Hdek & Hue & Hbody & Hconn & Hst); [|done..].
  pose proof (fk_ok _ _ _ _ (fk_encrypt_field _ _) Hue) as Hk2. pose proof (fk_ok _ _ _ _ (fk_staging_body _ _ _ _ _) Hbody) as Hk3.
  assert (Hc' : st_connected s' = true) by (apply (f_equal (λ k, k.1.2)) in Hk3; simpl in Hk3; congruence).
  pose proof (staged_read _ _ _ _ _ _ _ Hst Hc' Hrec Hsort) as Hread.
  split; [done|done|by eapply staged_own_files| | |by destruct Hst|by eapply restage_found].
  - destruct (staged_document now doc recs ue dek s s' p) as (d & s'' & Hg & Hr & Hcore & Hc''); try done.
    + apply write_dek_key in Hdek. rewrite Hk2 in Hk3. destruct dek; [by rewrite Hk3|]. destruct Hdek as [Hk1 Hnone].
      apply (f_equal (λ k, k.1.1)) in Hk1, Hk3. simpl in *. congruence.
    + intros d ->. by apply (encrypt_field_opens _ _ _ _ _ Hnote Hue).
    + exists d, s''. split; [done|]. split; [done|]. by eapply files_read_same.
  - destruct Hst. by eapply Forall2_length.
Qed.

(** C20. An upload of files with different contents is staged whole and read back
    as it was sent: a successful [create_pending_ingest] keeps the store's
    invariant and every other tenant's rows; the document reads as pending, with
    the note and the routing choice of the upload, sealed or not, and its files
    are exactly those of the upload, pending and in page order; every file of
    the tenant still belongs to one of its documents; and the same upload is
    found again as this document.  (Two pages with the same bytes collapse to
    one row and are not found again, see [duplicate_pages_stage_twice].) *)
Theorem staging_exact (now : Z) (doc : Document) (recs : list FileRecord) (s : Store) (p : PendingIngest) (s' : Store) :
  db_ok (st_db s) -> own_files (doc_tenant doc) (st_db s) -> Forall rec_ok recs -> NoDup (fr_sha256 <$> recs) ->
  StronglySorted (λ a b, fr_page_no a < fr_page_no b) recs -> from_option (λ x, is_str x) True (doc_user_note doc) ->
  create_pending_ingest now doc recs s = (Ok p, s') -> staging_done doc recs s p s'.
Proof. apply create_pending_done. Qed.

(** Rows that carry the same records before and after are the same rows. *)
Lemma same_keys db db' d recs fids fids' : db_ok db' ->
  Forall2 (λ fid rec, files db !! fid = Some (file_row d (set_pending rec))) fids recs ->
  Forall2 (λ fid rec, files db' !! fid = Some (file_row d (set_pending rec))) fids' recs ->
  (∀ k r, files db !! k = Some r -> ∃ r', files db' !! k = Some r' ∧ file_key r' = file_key r) -> fids' = fids.
Proof.
  intros Hok Hf Hf' Hkeys. revert fids' Hf'. induction Hf as [|fid rec fids recs Hrow Hf IH]; intros fids' Hf'; inversion Hf' as [|fid' ? ? ? Hrow']; [done|].
  subst. f_equal; [|by apply IH]. destruct (Hkeys _ _ Hrow) as (r' & Hr' & Hk).
  eapply (ok_unique_files _ Hok); [exact Hrow'|exact Hr'|]. by rewrite Hk.
Qed.

(** C21. Staging an upload of files with different contents twice is staging it
    once: the second run takes the same document and the same file rows, says
    so, and adds no chunk. *)
Theorem staging_idempotent (now now' : Z) (doc doc' : Document) (recs : list FileRecord) (s s1 s2 : Store) (p1 p2 : PendingIngest) :
  db_ok (st_db s) -> Forall rec_ok recs -> NoDup (fr_sha256 <$> recs) -> doc_tenant doc' = doc_tenant doc ->
  create_pending_ingest now doc recs s = (Ok p1, s1) -> create_pending_ingest now' doc' recs s1 = (Ok p2, s2) ->
  p2 = mkPending (document_id p1) (file_ids p1) true ∧ chunks (st_db s2) = chunks (st_db s1).
Proof.
  intros Hok Hrec Hnd Ht E1 E2.
  apply create_pending_ok in E1 as (Hne & Hok1 & _ & _ & _ & ue1 & _ & _ & _ & _ & _ & Hst1); [|done..].
  apply create_pending_ok in E2 as (_ & Hok2 & _ & _ & _ & ue2 & _ & _ & _ & _ & _ & Hst2); [|done..].
  pose proof (restage_found _ _ _ _ _ _ _ Hne Hok1 Hst1) as Hf. rewrite <- Ht in Hf.
  destruct Hst2. rewrite Hf in sg_reused0. destruct p2 as [d2 fids2 []]; [|done]. simpl in *. injection sg_reused0 as <-.
  destruct Hst1 as []. split.
  - f_equal. apply (same_keys (st_db s1) (st_db s2) (document_id p1) recs); done.
  - destruct sg_chunks0 as (new & -> & _ & Hnew). apply fmap_nil_inv in Hnew. destruct new; [|done]. simpl. by rewrite map_empty_union.
Qed.
End ReadBack.

(** ** Two notions of the same upload *)

(** A document whose file was revised is found again by the ingest, which
    counts its live files, and not by the staging, which counts the retired
    ones too: the upload makes a second document. *)
Lemma staging_misses_revised :
  find_staged versioned_db 1 [demo_file x0b "a.pdf"] = None ∧ find_upload versioned_db 1 [demo_file x0b "a.pdf"] = Some 1.
Proof. vm_compute. done. Qed.

(** ** Concrete runs *)

Definition noted_doc (note : string) : Document :=
  mkDocument 0 1 None None (Some (str note)) KDocument JNull 1 Pending 0 true (mkSync None None None None None 1 0).
Definition demo_stage (note : string) (s : Store) : result PendingIngest DbError * Store :=
  @create_pending_ingest plain_aead 100 (noted_doc note) [demo_file x0a "a.pdf"] s.
Definition demo_staged : Store := (demo_stage "urgent" demo_store).2.

Lemma demo_stage_eq : demo_stage "urgent" demo_store = (Ok (mkPending 1 [1] false), demo_staged).
Proof.
  assert ((demo_stage "urgent" demo_store).1 = Ok (mkPending 1 [1] false)) as <- by (vm_compute; reflexivity).
  unfold demo_staged. by destruct (demo_stage _ _).
Qed.

Lemma empty_own_files : own_files 1 empty_db.
Proof. intros k r Hr. simpl in Hr. by rewrite lookup_empty in Hr. Qed.

(** An upload that lists the same bytes twice is staged as one file, and staged
    again as another document. *)
Lemma duplicate_pages_stage_twice :
  let up s := @create_pending_ingest plain_aead 100 (noted_doc "") [demo_file x0a "a.pdf"; demo_file x0a "b.pdf"] s in
  let s1 := (up demo_store).2 in
  (up demo_store).1 = Ok (mkPending 1 [1; 1] false) ∧ size (files (st_db s1)) = 1%nat ∧
  (up s1).1 = Ok (mkPending 2 [3; 3] false).
Proof. vm_compute. done. Qed.

Lemma staging_exact_witness :
  ∃ d s'', @get_document plain_aead 1 1 demo_staged = (Ok (Some d), s'') ∧ doc_status d = Pending ∧
    doc_user_note d = Some (str "urgent") ∧ doc_local_only d = true.
Proof.
  destruct (@staging_exact plain_aead plain_aead_laws 100 (noted_doc "urgent") [demo_file x0a "a.pdf"] demo_store
    (mkPending 1 [1] false) demo_staged empty_db_ok empty_own_files demo_recs_ok demo_recs_nodup
    ltac:(repeat constructor) ltac:(repeat constructor) demo_stage_eq)
    as [_ _ _ (d & s'' & Hg & (_ & _ & Hs & Hn & Hl) & _) _ _ _].
  exists d, s''. split; [exact Hg|]. split; [exact Hs|]. split; [exact Hn|exact Hl].
Defined.

Lemma staging_idempotent_witness :
  let s2 := (demo_stage "again" demo_staged).2 in
  (demo_stage "again" demo_staged).1 = Ok (mkPending 1 [1] true) ∧ chunks (st_db s2) = chunks (st_db demo_staged).
Proof.
  assert (E : (demo_stage "again" demo_staged).1 = Ok (mkPending 1 [1] true)) by (vm_compute; reflexivity).
  cbv zeta. split; [exact E|].
  refine (proj2 (@staging_idempotent plain_aead 100 100 (noted_doc "urgent") (noted_doc "again")
    [demo_file x0a "a.pdf"] demo_store demo_staged _ (mkPending 1 [1] false) (mkPending 1 [1] true) empty_db_ok demo_recs_ok
    demo_recs_nodup eq_refl demo_stage_eq _)).
  rewrite <- E. change (demo_stage "again" demo_staged = ((demo_stage "again" demo_staged).1, (demo_stage "again" demo_staged).2)).
  by destruct (demo_stage "again" demo_staged).
Defined.
