(* ===== verification/Upload.v ===== *)
(** * Accepting an upload (api/src/handlers/ingest.rs)

    From the multipart form to a queued job, and pages added to a document:
    the bytes go to the blob store, the rows to the database, the work to the
    queue, and a failure after the bytes are written is compensated by
    deleting them.  The form arrives as a list of parts; the clock, the digest
    and the magic-byte table are parameters. *)

From stdpp Require Import base gmap list sets strings sorting.
From Stdlib Require Import ZArith Lia Strings.Byte.
From S2P Require Import JobQueue Prelude StableSort FloatModel Text Json Role Blob Envelope ColumnCrypt Schema PgStore StoreInvariant StoreReads StoreIngest.
From S2P Require Import Tags Sessions Guards DocBuilder IngestText Ingest Staging.
Open Scope Z_scope.

(** ** The form *)

(** A part of the body; reading its content may fail. *)
Record MultipartError := mkMpError { mp_too_large : bool; mp_message : chars }.
Record Field := mkField {
  fd_name : option chars;
  fd_file_name : option chars;
  fd_bytes : result bytes MultipartError;
  fd_text : result chars MultipartError;
}.
Inductive UploadParseError :=
| ParseTooLarge (msg : chars)
| ParseMalformed (msg : chars).
Record ParsedUpload := mkParsed {
  pu_files : list IngestFile;
  pu_user_note : option chars;
  pu_group_as_document : bool;
  pu_csrf_token : chars;
}.

Definition classify_multipart_err (e : MultipartError) : UploadParseError :=
  if mp_too_large e then ParseTooLarge (mp_message e) else ParseMalformed (mp_message e).
Definition read_part {A} (r : result A MultipartError) : result A UploadParseError :=
  match r with Ok a => Ok a | Err e => Err (classify_multipart_err e) end.

(** The loop over the parts, with the bytes counted so far. *)
Fixpoint parse_parts (max : Z) (total : Z) (acc : ParsedUpload) (parts : list (result Field MultipartError))
    : result ParsedUpload UploadParseError :=
  match parts with
  | [] => Ok acc
  | part :: parts' =>
      let? f := read_part part in
      let name := default [] (fd_name f) in
      if bool_decide (name = str "files") then
        let? b := read_part (fd_bytes f) in
        let total := saturating_add u64 total (Z.of_nat (length b)) in
        if max <? total
        then Err (ParseTooLarge (str "total upload size exceeds limit of " ++ show_int max ++ str " bytes"))
        else parse_parts max total (mkParsed (pu_files acc ++ [mkIngestFile b (fd_file_name f) (fd_file_name f)])
               (pu_user_note acc) (pu_group_as_document acc) (pu_csrf_token acc)) parts'
      else if bool_decide (name = str "user_note") then
        let? text := read_part (fd_text f) in
        parse_parts max total (mkParsed (pu_files acc) (if bool_decide (text = []) then pu_user_note acc else Some text)
          (pu_group_as_document acc) (pu_csrf_token acc)) parts'
      else if bool_decide (name = str "group_as_document") then
        let? text := read_part (fd_text f) in
        parse_parts max total (mkParsed (pu_files acc) (pu_user_note acc) (eq_ignore_ascii_case (trim text) (str "true"))
          (pu_csrf_token acc)) parts'
      else if bool_decide (name = str "csrf_token") then
        let? text := read_part (fd_text f) in
        parse_parts max total (mkParsed (pu_files acc) (pu_user_note acc) (pu_group_as_document acc) text) parts'
      else parse_parts max total acc parts'
  end.
Definition parse_multipart (max : Z) (parts : list (result Field MultipartError)) : result ParsedUpload UploadParseError :=
  parse_parts max 0 (mkParsed [] None false []) parts.

(** ** Errors and their answers *)

Inductive UploadError :=
| Rejected (e : UploadRejected)
| QueueFull (tenant_pending tenant_cap global_pending global_cap : Z)
| UploadBlob (key : chars) (e : BlobError)
| UploadDb (e : DbError)
| UploadQueue
| DocumentMissing (id : Z)
| PipelineFailed (e : IngestFailure)
| UploadPanic.

(** The HTTP status and the error code. *)
Definition map_ingest_error (e : UploadError) : Z * string :=
  match e with
  | Rejected _ => (400, "invalid_upload")
  | PipelineFailed (BackendUnavailable _) => (503, "service_unavailable")
  | QueueFull _ _ _ _ => (429, "queue_full")
  | _ => (500, "internal_error")
  end%string.
Definition multipart_error_to_response (e : UploadParseError) : Z * string :=
  match e with
  | ParseTooLarge _ => (413, "payload_too_large")
  | ParseMalformed _ => (400, "invalid_multipart")
  end%string.

(** ** Notes, keys and clean-up *)

Definition bound_note (note : chars) : option chars :=
  let note := strip_control_chars note in
  if (MAX_USER_NOTE_BYTES <? str_len note)%nat then truncate_to_char_boundary note MAX_USER_NOTE_BYTES else Some note.

Definition set_local_only (l : bool) (d : Document) : Document :=
  mkDocument (doc_id d) (doc_tenant d) (doc_title d) (doc_summary d) (doc_user_note d) (doc_kind d) (doc_meta d)
    (doc_page_count d) (doc_status d) (doc_created_at d) l (doc_sync d).
Definition place_page (offset document_id : Z) (r : FileRecord) : FileRecord :=
  mkFileRecord (fr_id r) (fr_tenant r) document_id (wrap i32 (fr_page_no r + offset)) (fr_page_label r) (fr_sha256 r)
    (fr_blob_key r) (fr_path r) (fr_mime r) (fr_size_bytes r) (fr_meta r) (fr_status r) (fr_ingested_at r).

(** The guards, file by file. *)
Fixpoint validate_files (tree_magic : bytes -> chars) (fs : list IngestFile) : result unit UploadRejected :=
  match fs with
  | [] => Ok tt
  | f :: fs' => let? _ := validate_upload tree_magic (if_bytes f) (if_path f) MAX_INDIVIDUAL_FILE_BYTES in validate_files tree_magic fs'
  end.

Section Upload.
Context {B : Type} `{!Blob B} `{!Aead} `{!QueryBuilder}.
Context (tree_magic : bytes -> chars) (sha256 : bytes -> bytes) (now jnow : Z).

(** The stores a request changes; the queue has a connection of its own. *)
Record Desk := mkDesk {
  dk_blob : B;
  dk_store : Store;
  dk_jobs : JobDb;
  dk_queue_up : bool;
}.

Definition upl (A : Type) : Type := Desk -> result A UploadError * Desk.
#[local] Instance upl_ret : MRet upl := λ A a s, (Ok a, s).
#[local] Instance upl_bind : MBind upl := λ A C k m s,
  match m s with
  | (Ok a, s') => k a s'
  | (Err e, s') => (Err e, s')
  end.
Definition upl_fail {A} (e : UploadError) : upl A := λ s, (Err e, s).
Definition upl_store {A} (m : dbm A) : upl A := λ s,
  let (r, st) := m (dk_store s) in
  (match r with Ok a => Ok a | Err e => Err (UploadDb e) end, mkDesk (dk_blob s) st (dk_jobs s) (dk_queue_up s)).
Definition upl_blob {A} (f : BlobError -> UploadError) (m : prog B A) : upl A := λ s,
  let (r, b) := m (dk_blob s) in
  (match r with Ok a => Ok a | Err e => Err (f e) end, mkDesk b (dk_store s) (dk_jobs s) (dk_queue_up s)).

Fixpoint delete_blobs (seen : list chars) (recs : list FileRecord) (b : B) : B :=
  match recs with
  | [] => b
  | r :: recs' =>
      if bool_decide (fr_blob_key r ∈ seen) then delete_blobs seen recs' b
      else delete_blobs (fr_blob_key r :: seen) recs' (blob_delete (key_string (fr_blob_key r)) b).2
  end.
Definition cleanup_blobs (recs : list FileRecord) : upl unit := λ s,
  (Ok tt, mkDesk (delete_blobs [] recs (dk_blob s)) (dk_store s) (dk_jobs s) (dk_queue_up s)).
(** [Err(e) => { cleanup_blobs(..); return Err(e) }]. *)
Definition or_cleanup {A} (recs : list FileRecord) (m : upl A) : upl A := λ s,
  match m s with
  | (Ok a, s') => (Ok a, s')
  | (Err e, s') => (Err e, (cleanup_blobs recs s').2)
  end.

Definition validate_all (fs : list IngestFile) : upl unit := λ s,
  (match validate_files tree_magic fs with Ok _ => Ok tt | Err e => Err (Rejected e) end, s).

Fixpoint store_blobs (l : list (FileRecord * IngestFile)) : upl unit :=
  match l with
  | [] => mret tt
  | (r, f) :: l' =>
      upl_blob (UploadBlob (fr_blob_key r)) (blob_put (key_string (fr_blob_key r)) (if_bytes f));;
      store_blobs l'
  end.

(** [count_pending_ingest_jobs] goes through the store's admin pool. *)
Definition pending_jobs (t : Z) : upl (Z * Z) :=
  upl_store admin_pool;;
  ((λ s, (Ok (count_pending_ingest_jobs t (dk_jobs s)), s)) : upl (Z * Z)).
Definition enqueue_ingest (t : Z) (user : option Z) (document_id : Z) : upl Z := λ s,
  if dk_queue_up s then
    let (id, q) := enqueue (dk_jobs s) jnow t user None (Some document_id) Role.Ingest 0 in
    (Ok id, mkDesk (dk_blob s) (dk_store s) q (dk_queue_up s))
  else (Err UploadQueue, s).

Record QueuedIngestResult := mkQueued { qr_job_id : Z; qr_document_id : Z }.

Definition process_upload_queued (cap_tenant cap_global t : Z) (user : option Z) (parsed : ParsedUpload) (local_only : bool)
    : upl QueuedIngestResult :=
  validate_all (pu_files parsed);;
  pending ← pending_jobs t;
  if (cap_tenant <=? pending.1) || (cap_global <=? pending.2)
  then upl_fail (QueueFull pending.1 cap_tenant pending.2 cap_global)
  else
    user_note ← match pu_user_note parsed with
                | None => mret None
                | Some note => match bound_note note with Some n => mret (Some n) | None => upl_fail UploadPanic end
                end;
    let cleaned := sanitize <$> pu_files parsed in
    let '(document, records) := build tree_magic sha256 now t cleaned user_note in
    let document := set_local_only local_only document in
    store_blobs (zip records cleaned);;
    p ← or_cleanup records (upl_store (create_pending_ingest now document records));
    job ← or_cleanup records (enqueue_ingest t user (document_id p));
    mret (mkQueued job (document_id p)).

Definition process_add_page_queued (t : Z) (user : option Z) (did : Z) (parsed : ParsedUpload) : upl (Z * Z) :=
  validate_all (pu_files parsed);;
  existing ← upl_store (get_files_for_document t did);
  odoc ← upl_store (get_document t did);
  match odoc with
  | None => upl_fail (DocumentMissing did)
  | Some _ =>
      let cleaned := sanitize <$> pu_files parsed in
      let pages := (λ f, mkPageInput (if_bytes f) (if_page_label f) (if_path f)) <$> cleaned in
      let '(_, built) := build_multi tree_magic sha256 now t pages None in
      let records := place_page (wrap i32 (Z.of_nat (length existing))) did <$> built in
      store_blobs (zip records cleaned);;
      or_cleanup records (upl_store (stage_pending_files t did records));;
      job ← or_cleanup records (enqueue_ingest t user did);
      mret (job, Z.of_nat (length records))
  end.
End Upload.
Arguments mkDesk {B}.
Arguments dk_blob {B}.
Arguments dk_store {B}.
Arguments dk_jobs {B}.
Arguments dk_queue_up {B}.

(** ** Counting the queue *)

Lemma count_jobs_enqueue P (q : JobDb) id row : jobs q !! id = None ->
  count_jobs P (mkJobDb (<[id := row]> (jobs q)) (id + 1) (JobQueue.documents q) (JobQueue.files q) (audit q))
  = count_jobs P q + (if P (row_job row) then 1 else 0).
Proof.
  intros Hn. unfold count_jobs. simpl.
  assert (Hp : (map_to_list (<[id := row]> (jobs q))).*2 ≡ₚ row :: (map_to_list (jobs q)).*2) by (by rewrite map_to_list_insert).
  rewrite Hp. rewrite filter_cons. destruct (P (row_job row)) eqn:E.
  - rewrite decide_True by done. simpl. lia.
  - rewrite decide_False by congruence. lia.
Qed.

Lemma fresh_job q db : jobs_ok q db -> jobs db !! next_job db = None.
Proof.
  intros Hok. destruct (jobs db !! next_job db) as [r|] eqn:E; [|done]. apply Hok in E as [].
  lia.
Qed.

(** The job of an upload. *)
Definition upload_job (jnow id t : Z) (user : option Z) (document_id : Z) : Job :=
  mkJob id t None (Some document_id) Role.Ingest 0 Queued 0 None jnow jnow user.

Section Accepted.
Context {B : Type} `{!Blob B} `{!Aead} `{!AeadLaws} `{!QueryBuilder}.
Context (key : string -> Prop) (valid : string -> bytes -> Prop) (inv : B -> Prop) (has : B -> string -> Prop).
Context `{!BlobLaws B key valid inv has}.
Context (tree_magic : bytes -> chars) (sha256 : bytes -> bytes) (now jnow : Z).
#[local] Existing Instances upl_ret upl_bind.
Notation upl := (upl (B:=B)).

Lemma upl_bind_ok {A C} (m : upl A) (k : A -> upl C) s c s' : (m ≫= k) s = (Ok c, s') ->
  ∃ a s1, m s = (Ok a, s1) ∧ k a s1 = (Ok c, s').
Proof using Type. unfold mbind, upl_bind. destruct (m s) as [[a|e] s1]; [eauto|done]. Qed.

Lemma upl_store_ok {A} (m : dbm A) (s : Desk (B:=B)) a s' : upl_store m s = (Ok a, s') ->
  m (dk_store s) = (Ok a, dk_store s') ∧ dk_blob s' = dk_blob s ∧ dk_jobs s' = dk_jobs s ∧ dk_queue_up s' = dk_queue_up s.
Proof using Type. unfold upl_store. destruct (m (dk_store s)) as [[x|e] st]; [|done]. by intros [= -> <-]. Qed.

Lemma or_cleanup_ok {A} recs (m : upl A) s a s' : or_cleanup recs m s = (Ok a, s') -> m s = (Ok a, s').
Proof using Type. unfold or_cleanup. by destruct (m s) as [[x|e] s1]. Qed.

Definition valid_upload (f : IngestFile) : Prop :=
  validate_upload tree_magic (if_bytes f) (if_path f) MAX_INDIVIDUAL_FILE_BYTES = Ok tt.
Lemma validate_all_ok fs (s s' : Desk (B:=B)) u : validate_all tree_magic fs s = (Ok u, s') -> s' = s ∧ Forall valid_upload fs.
Proof using Type.
  unfold validate_all. destruct (validate_files tree_magic fs) eqn:E; [|done]. intros [= _ <-]. split; [done|].
  revert E. induction fs as [|f fs IH]; cbn [validate_files]; [constructor|].
  destruct (validate_upload _ _ _ _) as [[]|e] eqn:E; [|done]. intros Hfs. constructor; [exact E|by apply IH].
Qed.

Lemma pending_jobs_ok t (s : Desk (B:=B)) n s' : pending_jobs t s = (Ok n, s') -> s' = s ∧ n = count_pending_ingest_jobs t (dk_jobs s).
Proof using Type.
  unfold pending_jobs. intros ([] & s1 & E & [= <- <-])%upl_bind_ok. unfold upl_store, admin_pool in E.
  destruct (st_connected (dk_store s)); [|done]. injection E as <-. by destruct s.
Qed.

Lemma store_blobs_ok l (s s' : Desk (B:=B)) : store_blobs l s = (Ok tt, s') -> inv (dk_blob s) ->
  Forall (λ fi, key (key_string (fr_blob_key fi.1)) ∧ valid (key_string (fr_blob_key fi.1)) (if_bytes fi.2)) l ->
  inv (dk_blob s') ∧ dk_store s' = dk_store s ∧ dk_jobs s' = dk_jobs s ∧ dk_queue_up s' = dk_queue_up s ∧
  ∀ k, key k -> has (dk_blob s') k <-> k ∈ ((λ fi, key_string (fr_blob_key fi.1)) <$> l) ∨ has (dk_blob s) k.
Proof.
  revert s. induction l as [|[r f] l IH]; intros s; cbn [store_blobs].
  - intros [= <-] Hi _. split_and!; try done. intros k _. csimpl. set_solver.
  - intros ([] & s1 & Hp & Hl)%upl_bind_ok Hi [[Hk Hv] Hf]%Forall_cons. unfold upl_blob in Hp.
    destruct (blob_put _ _ (dk_blob s)) as [[[]|e] b] eqn:E; [|done]. injection Hp as <-.
    destruct (put_law _ _ _ _ _ Hi Hk Hv E) as [Hib [Hhas|[_ Hbad]]]; [|done].
    destruct (IH _ Hl Hib Hf) as (Hi' & Hst & Hj & Hu & Hhas'). simpl in *. split_and!; try done.
    intros k Hkk. rewrite Hhas', Hhas by done. csimpl. set_solver.
Qed.

Lemma enqueue_ingest_ok t user did (s : Desk (B:=B)) id s' : enqueue_ingest jnow t user did s = (Ok id, s') ->
  id = next_job (dk_jobs s) ∧ dk_blob s' = dk_blob s ∧ dk_store s' = dk_store s ∧
  dk_jobs s' = (enqueue (dk_jobs s) jnow t user None (Some did) Role.Ingest 0).2.
Proof using Type. unfold enqueue_ingest. destruct (dk_queue_up s); [|done]. simpl. by intros [= <- <-]. Qed.

(** *** What the worker reads *)

(** The inputs of the worker for a page of the upload. *)
Definition page_file (pg : PageInput) : IngestFile := mkIngestFile (pg_bytes pg) (pg_label pg) (pg_path pg).

(** A read that fails says anything but that the blob is missing. *)
Definition read_failure (show_blob : BlobError -> chars) (recs : list FileRecord) (msg : chars) : Prop :=
  ∃ r e, r ∈ recs ∧ e <> NotFound ∧ msg = str "failed to read blob '" ++ fr_blob_key r ++ str "': " ++ show_blob e.

Lemma fetch_files_read {S W} show_blob (rows : list FileRecord) (pages : list PageInput) (s : Sys B S W) :
  (∀ k d d', valid k d -> valid k d' -> d = d') -> inv (sy_blob s) ->
  Forall2 (λ r pg, fr_page_label r = pg_label pg ∧ fr_path r = pg_path pg ∧ key (key_string (fr_blob_key r)) ∧
    valid (key_string (fr_blob_key r)) (pg_bytes pg) ∧ has (sy_blob s) (key_string (fr_blob_key r))) rows pages ->
  (∃ s', fetch_files show_blob rows s = (Ok (page_file <$> pages), s')) ∨
  (∃ msg s', fetch_files show_blob rows s = (Err msg, s') ∧ read_failure show_blob rows msg).
Proof.
  intros Hdet Hi Hf. revert pages s Hi Hf. induction rows as [|r rows IH]; intros pages s Hi Hf; inversion Hf as [|? pg ? pages' Hr Hrest]; subst.
  { left. by exists s. }
  destruct Hr as (Hl & Hp & Hk & Hv & Hh). cbn [fetch_files]. unfold mbind, work_bind, work_blob.
  destruct (blob_get _ (sy_blob s)) as [[d|e] b] eqn:E; destruct (get_law _ _ _ _ Hi Hk E) as (Hi' & Hhas & Hd & Hnf).
  - assert (d = pg_bytes pg) as -> by (eapply Hdet; [by apply Hd|done]).
    set (s1 := mkSys b _ _ _ _). destruct (IH pages' s1) as [(s' & ->)|(msg & s' & -> & Hm)]; [done| |left|right].
    + eapply Forall2_impl; [done|]. intros r' pg' (? & ? & ? & ? & ?). split_and!; try done. by apply Hhas.
    + exists s'. simpl. by rewrite Hl, Hp.
    + exists msg, s'. split; [done|]. destruct Hm as (r' & e & ? & ? & ?). exists r', e. split; [by right|done].
  - right. eexists _, _. split; [done|]. exists r, e. split; [by left|]. split; [|done]. intros ->. by apply Hnf.
Qed.

(** *** The records of an upload *)

Lemma records_ok t files : (∀ b, length (sha256 b) = 32%nat) ->
  Forall rec_ok (imap (file_record tree_magic sha256 now t) (pages_of files)).
Proof using Type.
  intros Hsha. apply Forall_forall. intros r (i & pg & -> & _)%elem_of_lookup_imap. apply Hsha.
Qed.

Lemma records_nodup t files : NoDup ((λ f, sha256 (if_bytes f)) <$> files) ->
  NoDup (fr_sha256 <$> imap (file_record tree_magic sha256 now t) (pages_of files)).
Proof using Type. by rewrite (record_field tree_magic sha256 now t files fr_sha256 sha256). Qed.

Lemma imap_sorted {A} (f : nat -> A -> FileRecord) (l : list A) n :
  (∀ i a, fr_page_no (f i a) = wrap i32 (Z.of_nat (i + 1))) -> Z.of_nat (n + length l) <= ity_max i32 ->
  StronglySorted (λ a b, fr_page_no a < fr_page_no b) (imap (f ∘ (λ i, n + i)%nat) l).
Proof using Type.
  intros Hf. revert n. induction l as [|a l IH]; intros n Hl; [constructor|]. simpl in *.
  assert (Hw : ∀ i, (i <= n + length l)%nat -> wrap i32 (Z.of_nat (i + 1)) = Z.of_nat (i + 1)).
  { intros i Hi. apply wrap_id. unfold in_ty, i32 in *. simpl in *. lia. }
  constructor.
  - erewrite imap_ext; [apply (IH (S n)); lia|]. intros i x _. simpl. f_equal. lia.
  - apply Forall_forall. intros r (i & x & -> & Hi)%elem_of_lookup_imap. apply lookup_lt_Some in Hi. simpl.
    rewrite !Hf, !Hw by lia. lia.
Qed.

Lemma records_sorted t files : Z.of_nat (length files) <= ity_max i32 ->
  StronglySorted (λ a b, fr_page_no a < fr_page_no b) (imap (file_record tree_magic sha256 now t) (pages_of files)).
Proof using Type. intros Hl. apply (imap_sorted (file_record tree_magic sha256 now t) _ 0); [done|]. by rewrite pages_of_length. Qed.

(** The rows of a staged upload are those of its pages. *)
Lemma staged_pages t did fids (pages : list PageInput) (P : FileRecord -> PageInput -> Prop) :
  length fids = length pages ->
  (∀ i fid pg, pg ∈ pages -> P (staged_file did fid (file_record tree_magic sha256 now t i pg)) pg) ->
  Forall2 P (zip_with (staged_file did) fids (imap (file_record tree_magic sha256 now t) pages)) pages.
Proof using Type.
  intros Hl HP. apply Forall2_same_length_lookup. split; [rewrite length_zip_with, length_imap; lia|].
  intros i r pg (fid & rec & -> & _ & (pg' & Hi & ->)%list_lookup_imap_Some)%lookup_zip_with_Some Hpg.
  assert (pg' = pg) as -> by congruence. apply HP. by eapply list_elem_of_lookup_2.
Qed.

(** *** An accepted upload *)

(** The worker loads the upload, or fails to read a blob that is there. *)
Definition worker_loads (t : Z) (pages : list PageInput) (note : option chars) (lo : bool) (r : QueuedIngestResult) (s : Desk (B:=B)) : Prop :=
  ∀ S (names : Embedder) (w : S) (usage : list UsageEvent) (show_blob : BlobError -> chars) (show_db : DbError -> chars) user plan,
    let run := load_queued_ingest_inputs (QueuedIngestStore0 := pg_queued_store) show_blob show_db
      (upload_job jnow (qr_job_id r) t user (qr_document_id r)) plan (mkSys (dk_blob s) (dk_store s) names w usage) in
    (∃ s', run = (Ok (mkInputs (qr_document_id r) (page_file <$> pages) note (lo || plan) false), s')) ∨
    (∃ msg s' k e, run = (Err msg, s') ∧ e <> NotFound ∧ msg = str "failed to read blob '" ++ k ++ str "': " ++ show_blob e).

Record request_accepted (cap_tenant cap_global t : Z) (user : option Z) (parsed : ParsedUpload) (lo : bool) (s : Desk)
    (r : QueuedIngestResult) (s' : Desk (B:=B)) : Prop := {
  ac_valid : Forall valid_upload (pu_files parsed);
  ac_room : (count_pending_ingest_jobs t (dk_jobs s)).1 < cap_tenant ∧ (count_pending_ingest_jobs t (dk_jobs s)).2 < cap_global;
  ac_pending : count_pending_ingest_jobs t (dk_jobs s') =
    ((count_pending_ingest_jobs t (dk_jobs s)).1 + 1, (count_pending_ingest_jobs t (dk_jobs s)).2 + 1);
  ac_job : jobs (dk_jobs s) !! qr_job_id r = None ∧
    jobs (dk_jobs s') = <[qr_job_id r := mkJobRow (upload_job jnow (qr_job_id r) t user (qr_document_id r)) None None]> (jobs (dk_jobs s));
  ac_store : db_ok (st_db (dk_store s')) ∧ own_files t (st_db (dk_store s')) ∧ frame t (st_db (dk_store s)) (st_db (dk_store s'));
  ac_blobs : inv (dk_blob s') ∧ ∀ k, key k -> has (dk_blob s') k <->
    k ∈ ((λ f, blob_key sha256 t (if_bytes f)) <$> pu_files parsed) ∨ has (dk_blob s) k;
  ac_work : worker_loads t (pages_of (pu_files parsed)) (pu_user_note parsed ≫= bound_note) lo r s';
}.

(** The document and the records a request builds. *)
Lemma build_records t files note :
  (build tree_magic sha256 now t (sanitize <$> files) note).2 = imap (file_record tree_magic sha256 now t) (pages_of files) ∧
  doc_tenant (build tree_magic sha256 now t (sanitize <$> files) note).1 = t ∧
  doc_user_note (build tree_magic sha256 now t (sanitize <$> files) note).1 = note.
Proof using Type. by rewrite build_pages. Qed.

Lemma staged_worker_loads t files note lo doc p id st (s' : Desk (B:=B)) :
  (∀ k d d', valid k d -> valid k d' -> d = d') ->
  Forall (λ f, key (blob_key sha256 t (if_bytes f)) ∧ valid (blob_key sha256 t (if_bytes f)) (if_bytes f)) files ->
  files <> [] -> doc_tenant doc = t -> doc_user_note doc = note -> doc_local_only doc = lo ->
  staging_done doc (imap (file_record tree_magic sha256 now t) (pages_of files)) st p (dk_store s') ->
  inv (dk_blob s') -> Forall (λ f, has (dk_blob s') (blob_key sha256 t (if_bytes f))) files ->
  worker_loads t (pages_of files) note lo (mkQueued id (document_id p)) s'.
Proof.
  intros Hdet Hkeys Hne Ht Hn Hl Hdone Hi Hhas S names w usage show_blob show_db user plan. cbv zeta. destruct Hdone.
  destruct sd_document as (d & s'' & Hg & (_ & _ & Hs & Hn' & Hl') & Hf). rewrite Ht in Hg, Hf. rewrite length_imap in sd_length.
  assert (Hall : Forall (λ pg, key (blob_key sha256 t (pg_bytes pg)) ∧ valid (blob_key sha256 t (pg_bytes pg)) (pg_bytes pg) ∧
    has (dk_blob s') (blob_key sha256 t (pg_bytes pg))) (pages_of files)).
  { apply (Forall_fmap pg_bytes (λ b, key (blob_key sha256 t b) ∧ valid (blob_key sha256 t b) b ∧ has (dk_blob s') (blob_key sha256 t b))).
    rewrite pages_of_bytes. apply Forall_fmap. apply Forall_forall. intros f Hf'. rewrite Forall_forall in Hkeys, Hhas.
    destruct (Hkeys f Hf'). split_and!; [done|done|by apply Hhas]. }
  set (rows := zip_with _ _ _) in Hf. set (sys := mkSys (dk_blob s') s'' names w usage).
  assert (Hrows : rows <> []).
  { intros E. apply (f_equal length) in E. unfold rows in E. rewrite length_zip_with, length_imap, sd_length, pages_of_length in E.
    destruct files; [done|]. simpl in E. lia. }
  unfold load_queued_ingest_inputs. cbn [upload_job j_document_id j_tenant_id qr_document_id]. unfold mbind, work_bind, work_store.
  cbn [sy_store qs_get_document qs_get_files_for_document pg_queued_store]. rewrite Hg. rewrite Hs. cbn [bool_decide decide_rel].
  rewrite bool_decide_eq_false_2 by done. cbn [sy_store sy_blob sy_names sy_models sy_usage]. rewrite Hf.
  change (mkSys (dk_blob s') s'' names w usage) with sys.
  destruct (fetch_files_read show_blob rows (pages_of files) sys Hdet Hi) as [(s2 & E)|(msg & s2 & E & r & e & _ & He & Hm)].
  { apply staged_pages; [done|]. intros i fid pg Hpg. rewrite Forall_forall in Hall. by destruct (Hall pg Hpg) as (? & ? & ?). }
  - left. destruct rows; [done|]. rewrite E. eexists. cbn. rewrite Hn', Hl', Hn, Hl. done.
  - right. destruct rows; [done|]. rewrite E. by eexists _, _, _, _.
Qed.

Lemma bound_note_str note n : is_str note -> bound_note note = Some n -> is_str n.
Proof using Type.
  intros Hs%strip_control_str. unfold bound_note.
  destruct (truncate_to_char_boundary_spec (strip_control_chars note) MAX_USER_NOTE_BYTES Hs) as (j & -> & _).
  destruct (_ <? _)%nat; intros [= <-]; [by apply is_str_take|done].
Qed.

(** The run of a successful request, step by step. *)
Lemma upload_run cap_tenant cap_global t user parsed lo (s s' : Desk (B:=B)) r :
  process_upload_queued tree_magic sha256 now jnow cap_tenant cap_global t user parsed lo s = (Ok r, s') ->
  let note := pu_user_note parsed ≫= bound_note in
  let doc := set_local_only lo (build tree_magic sha256 now t (sanitize <$> pu_files parsed) note).1 in
  let recs := imap (file_record tree_magic sha256 now t) (pages_of (pu_files parsed)) in
  ∃ s1 s2 p, Forall valid_upload (pu_files parsed) ∧
    (count_pending_ingest_jobs t (dk_jobs s)).1 < cap_tenant ∧ (count_pending_ingest_jobs t (dk_jobs s)).2 < cap_global ∧
    store_blobs (zip recs (sanitize <$> pu_files parsed)) s = (Ok tt, s1) ∧
    upl_store (create_pending_ingest now doc recs) s1 = (Ok p, s2) ∧
    enqueue_ingest jnow t user (document_id p) s2 = (Ok (qr_job_id r), s') ∧ r = mkQueued (qr_job_id r) (document_id p).
Proof using Type.
  unfold process_upload_queued. intros (u & s0 & [-> Hv]%validate_all_ok & E)%upl_bind_ok. cbv zeta.
  apply upl_bind_ok in E as (n & s0 & [-> ->]%pending_jobs_ok & E). destruct (_ || _) eqn:Hc; [done|].
  apply orb_false_iff in Hc as [Hc1%Z.leb_gt Hc2%Z.leb_gt]. apply upl_bind_ok in E as (un & s0 & Hn & E).
  assert (s0 = s ∧ un = pu_user_note parsed ≫= bound_note) as [-> ->].
  { destruct (pu_user_note parsed) as [note|]; simpl; [|by injection Hn as <- <-].
    destruct (bound_note note); [|done]. by injection Hn as <- <-. }
  destruct (build_records t (pu_files parsed) (pu_user_note parsed ≫= bound_note)) as (Hr & _ & _).
  destruct (build _ _ _ _ _ _) as [doc recs]. simpl in Hr. subst recs.
  apply upl_bind_ok in E as ([] & s1 & Hput & E). apply upl_bind_ok in E as (p & s2 & Hst%or_cleanup_ok & E).
  apply upl_bind_ok in E as (job & s3 & Hq%or_cleanup_ok & [= <- <-]). by exists s1, s2, p.
Qed.

(** Storing the blobs of an upload adds its keys. *)
Lemma store_upload_blobs t files (s s1 : Desk (B:=B)) :
  store_blobs (zip (imap (file_record tree_magic sha256 now t) (pages_of files)) (sanitize <$> files)) s = (Ok tt, s1) ->
  inv (dk_blob s) ->
  Forall (λ f, key (blob_key sha256 t (if_bytes f)) ∧ valid (blob_key sha256 t (if_bytes f)) (if_bytes f)) files ->
  inv (dk_blob s1) ∧ dk_store s1 = dk_store s ∧ dk_jobs s1 = dk_jobs s ∧
  ∀ k, key k -> has (dk_blob s1) k <-> k ∈ ((λ f, blob_key sha256 t (if_bytes f)) <$> files) ∨ has (dk_blob s) k.
Proof.
  intros Hput Hi Hkeys. apply store_blobs_ok in Hput as (Hi1 & Hs1 & Hj1 & _ & Hhas); [|done|].
  2:{ apply (Forall_fmap (λ fi, (key_string (fr_blob_key fi.1), if_bytes fi.2)) (λ kb : string * bytes, key kb.1 ∧ valid kb.1 kb.2)).
      rewrite put_pairs. by apply Forall_fmap. }
  split_and!; try done. intros k Hk. rewrite Hhas by done.
  change (λ fi : FileRecord * IngestFile, key_string (fr_blob_key fi.1))
    with (fst ∘ (λ fi : FileRecord * IngestFile, (key_string (fr_blob_key fi.1), if_bytes fi.2))).
  by rewrite list_fmap_compose, put_pairs, <- list_fmap_compose.
Qed.

(** C10. An accepted upload of files with different contents is complete:
    [process_upload_queued] succeeds only when every file passes the guards and
    both queue caps leave room; then exactly one job was added, an ingest of
    the staged document by the uploader, so the caps still hold; the blobs of
    the files, and no others, were added; no other tenant's rows changed; and
    the worker that runs the job loads exactly the upload (the bytes, sanitized
    names, bounded note and routing choice) unless a blob read fails, and then
    not because the blob is missing. *)
Theorem upload_accepted q cap_tenant cap_global t user parsed lo (s s' : Desk (B:=B)) r :
  (∀ b, length (sha256 b) = 32%nat) -> (∀ k d d', valid k d -> valid k d' -> d = d') ->
  Z.of_nat (length (pu_files parsed)) <= ity_max i32 -> NoDup ((λ f, sha256 (if_bytes f)) <$> pu_files parsed) ->
  from_option (λ n, is_str n) True (pu_user_note parsed) ->
  Forall (λ f, key (blob_key sha256 t (if_bytes f)) ∧ valid (blob_key sha256 t (if_bytes f)) (if_bytes f)) (pu_files parsed) ->
  inv (dk_blob s) -> db_ok (st_db (dk_store s)) -> own_files t (st_db (dk_store s)) -> jobs_ok q (dk_jobs s) ->
  process_upload_queued tree_magic sha256 now jnow cap_tenant cap_global t user parsed lo s = (Ok r, s') ->
  request_accepted cap_tenant cap_global t user parsed lo s r s'.
Proof.
  intros Hsha Hdet Hlen Hnd Hnote Hkeys Hi Hok Hown Hjobs Hrun. remember (pu_files parsed) as fs eqn:Efs in *.
  apply upload_run in Hrun as (s1 & s2 & p & Hv & Hc1 & Hc2 & Hput & Hst & Hq & Hr). rewrite <- Efs in Hv, Hput, Hst.
  apply store_upload_blobs in Hput as (Hi1 & Hs1 & Hj1 & Hhas); [|done..].
  apply upl_store_ok in Hst as (Hst & Hb2 & Hj2 & Hu2). rewrite Hs1 in Hst.
  destruct (build_records t fs (pu_user_note parsed ≫= bound_note)) as (_ & Ht & Hn). 
  set (doc := set_local_only lo (build _ _ _ _ _ _).1) in *.
  assert (Hdone : staging_done doc (imap (file_record tree_magic sha256 now t) (pages_of fs)) (dk_store s) p (dk_store s2)).
  { eapply create_pending_done; [exact Hok| |by apply records_ok|by apply records_nodup|by apply records_sorted| |exact Hst].
    - unfold doc. cbn [set_local_only doc_tenant]. by rewrite Ht.
    - unfold doc. cbn [set_local_only doc_user_note]. rewrite Hn. destruct (pu_user_note parsed) as [note|]; [|done].
      simpl. destruct (bound_note note) eqn:E; [|done]. simpl in *. by eapply bound_note_str. }
  apply enqueue_ingest_ok in Hq as (Hid & Hb & Hst3 & Hj). rewrite Hj2, Hj1 in Hid, Hj.
  assert (Htd : doc_tenant doc = t) by done.
  rewrite <- Hb2, <- Hb in Hi1, Hhas.
  split; rewrite <- ?Efs.
  - done.
  - done.
  - rewrite Hj. unfold enqueue, count_pending_ingest_jobs. cbn [snd]. rewrite !count_jobs_enqueue by (by eapply fresh_job).
    unfold owed. cbn. rewrite Z.eqb_refl. done.
  - rewrite Hj, Hid. split; [by eapply fresh_job|]. rewrite Hr. done.
  - rewrite Hst3. destruct Hdone. rewrite Htd in *. done.
  - done.
  - rewrite Hr. eapply staged_worker_loads; try done.
    + intros E. apply create_pending_ok in Hst as (Hne & _); [|done|by apply records_ok|by apply records_nodup].
      apply Hne. by rewrite E.
    + by rewrite Hst3.
    + apply Forall_forall. intros f Hf. rewrite Forall_forall in Hkeys. apply Hhas; [by apply Hkeys|]. left.
      apply list_elem_of_fmap. by exists f.
Qed.

(** *** A refused upload *)

Lemma staging_fails_clean now' doc recs : fails_clean (create_pending_ingest now' doc recs).
Proof using Type.
  unfold create_pending_ingest. do 2 (apply fails_clean_bind; [by unfold guard_ok; case_match|intros _]).
  repeat (apply fails_clean_bind; [auto using keeps_write_dek, keeps_encrypt_field|intros ?]). apply fails_clean_tx.
Qed.

(** The deletion of a key was answered by an error. *)
Definition undeletable (k : string) : Prop := ∃ b e b', blob_delete k b = (Err e, b').

(** A clean-up takes the listed keys away, except those the store would not
    delete, and leaves all others. *)
Lemma delete_blobs_ok seen recs b : inv b -> Forall (λ r, key (key_string (fr_blob_key r))) recs ->
  inv (delete_blobs seen recs b) ∧ ∀ k, key k ->
    (has (delete_blobs seen recs b) k -> has b k) ∧
    ((∀ r, r ∈ recs -> fr_blob_key r ∉ seen -> k <> key_string (fr_blob_key r)) -> has b k -> has (delete_blobs seen recs b) k) ∧
    (∀ r, r ∈ recs -> fr_blob_key r ∉ seen -> k = key_string (fr_blob_key r) -> has (delete_blobs seen recs b) k -> undeletable k).
Proof.
  revert seen b. induction recs as [|r recs IH]; intros seen b Hi Hk; cbn [delete_blobs].
  { split; [done|]. intros k _. split_and!; [done|done|]. by intros r Hr%elem_of_nil. }
  apply Forall_cons in Hk as [Hk Hks]. case_bool_decide as Hseen.
  - destruct (IH seen b Hi Hks) as [Hi' Hhas]. split; [done|]. intros k Hkk. destruct (Hhas k Hkk) as (Hx1 & Hx2 & Hx3).
    split_and!; [done|intros Hall; apply Hx2; set_solver|]. intros r' [->|Hr']%elem_of_cons Hns; [done|by apply Hx3].
  - destruct (blob_delete _ b) as [res b1] eqn:E.
    destruct (delete_law _ _ _ _ Hi Hk E) as [Hi1 Hd].
    destruct (IH (fr_blob_key r :: seen) b1 Hi1 Hks) as [Hi' Hhas]. split; [done|]. intros k Hkk.
    destruct (Hhas k Hkk) as (Hx1 & Hx2 & Hx3). cbn [snd].
    assert (Hb1 : has b1 k -> has b k) by (destruct Hd as [Hd|[Hd _]]; rewrite Hd by done; tauto).
    split_and!; [auto| |].
    + intros Hall Hh. apply Hx2; [intros r' Hr' Hns; apply Hall; set_solver|].
      destruct Hd as [Hd|[Hd _]]; rewrite Hd by done; [|done]. split; [|done]. by apply Hall; [left|].
    + intros r' Hr' Hns -> Hh. destruct (decide (fr_blob_key r' = fr_blob_key r)) as [Ek|Hne].
      * rewrite Ek in *. destruct Hd as [Hd|[_ Hbad]]; [by apply Hx1, Hd in Hh as [? _]|].
        destruct res as [[]|e]; [done|]. by exists b, e, b1.
      * apply (Hx3 r'); [|set_solver|done|done]. by apply elem_of_cons in Hr' as [->|].
Qed.

Lemma record_keys t files (P : string -> Prop) : Forall (λ f, P (blob_key sha256 t (if_bytes f))) files <->
  Forall (λ r, P (key_string (fr_blob_key r))) (imap (file_record tree_magic sha256 now t) (pages_of files)).
Proof using Type.
  rewrite <- (Forall_fmap (λ r, key_string (fr_blob_key r)) P), <- (Forall_fmap (λ f, blob_key sha256 t (if_bytes f)) P).
  by rewrite <- (record_field tree_magic sha256 now t files (λ r, key_string (fr_blob_key r)) (blob_key sha256 t)).
Qed.

(** What a refused request has changed. *)
Definition request_refused (cap_tenant cap_global t : Z) (parsed : ParsedUpload) (lo : bool) (s : Desk) (e : UploadError) (s' : Desk (B:=B)) : Prop :=
  let recs := imap (file_record tree_magic sha256 now t) (pages_of (pu_files parsed)) in
  let doc := set_local_only lo (build tree_magic sha256 now t (sanitize <$> pu_files parsed) (pu_user_note parsed ≫= bound_note)).1 in
  let stored := zip recs (sanitize <$> pu_files parsed) in
  match e with
  | Rejected e' => s' = s ∧ ∃ f, f ∈ pu_files parsed ∧
      validate_upload tree_magic (if_bytes f) (if_path f) MAX_INDIVIDUAL_FILE_BYTES = Err e'
  | QueueFull tp ct gp cg => s' = s ∧ (tp, gp) = count_pending_ingest_jobs t (dk_jobs s) ∧ (ct, cg) = (cap_tenant, cap_global) ∧
      (cap_tenant <= tp ∨ cap_global <= gp)
  | UploadBlob k _ => dk_store s' = dk_store s ∧ store_blobs stored s = (Err e, s')
  | UploadDb _ => (s' = s ∧ st_connected (dk_store s) = false) ∨
      (StoreIngest.content (dk_store s') = StoreIngest.content (dk_store s) ∧
       ∃ s1, store_blobs stored s = (Ok tt, s1) ∧ dk_blob s' = delete_blobs [] recs (dk_blob s1))
  | UploadQueue => ∃ s1 s2 p, store_blobs stored s = (Ok tt, s1) ∧
      upl_store (create_pending_ingest now doc recs) s1 = (Ok p, s2) ∧ dk_store s' = dk_store s2 ∧
      dk_blob s' = delete_blobs [] recs (dk_blob s1)
  | UploadPanic => from_option (λ n, ~ is_str n) False (pu_user_note parsed)
  | DocumentMissing _ | PipelineFailed _ => False
  end.

Lemma validate_all_err fs (s s' : Desk (B:=B)) e : validate_all tree_magic fs s = (Err e, s') ->
  s' = s ∧ ∃ f e', f ∈ fs ∧ e = Rejected e' ∧ validate_upload tree_magic (if_bytes f) (if_path f) MAX_INDIVIDUAL_FILE_BYTES = Err e'.
Proof using Type.
  unfold validate_all. destruct (validate_files tree_magic fs) as [|e'] eqn:E; [done|]. intros [= <- <-]. split; [done|].
  revert E. induction fs as [|f fs IH]; cbn [validate_files]; [done|].
  destruct (validate_upload _ _ _ _) as [u|e1] eqn:E.
  - intros (f' & e2 & Hf & He)%IH. exists f', e2. split; [by right|done].
  - intros [= ->]. exists f, e'. split_and!; [by left|done|done].
Qed.

Lemma upl_bind_err {A C} (m : upl A) (k : A -> upl C) s e s' : (m ≫= k) s = (Err e, s') ->
  m s = (Err e, s') ∨ ∃ a s1, m s = (Ok a, s1) ∧ k a s1 = (Err e, s').
Proof using Type. unfold mbind, upl_bind. destruct (m s) as [[a|e0] s1]; [right; eauto|intros [= -> ->]; by left]. Qed.

Lemma store_blobs_keep l (s s' : Desk (B:=B)) r : store_blobs l s = (r, s') ->
  dk_store s' = dk_store s ∧ dk_jobs s' = dk_jobs s ∧ dk_queue_up s' = dk_queue_up s ∧
  (∀ e, r = Err e -> ∃ k e', e = UploadBlob k e').
Proof using Type.
  revert s. induction l as [|[rec f] l IH]; intros s; cbn [store_blobs]; [by intros [= <- <-]|].
  unfold mbind, upl_bind, upl_blob. destruct (blob_put _ _ _) as [[u|e'] b].
  - by intros (Hs & Hj & Hu & He)%IH.
  - intros [= <- <-]. split_and!; try done. intros e [= <-]. eauto.
Qed.

Lemma bound_note_total note : is_str note -> ∃ n, bound_note note = Some n.
Proof using Type.
  intros Hs%strip_control_str. unfold bound_note.
  destruct (truncate_to_char_boundary_spec (strip_control_chars note) MAX_USER_NOTE_BYTES Hs) as (j & -> & _).
  destruct (_ <? _)%nat; eauto.
Qed.

(** A failure past the blobs: the staging's, or the queue's after it. *)
Lemma stage_and_queue_err t user doc recs (s1 s' : Desk (B:=B)) e :
  (p ← or_cleanup recs (upl_store (create_pending_ingest now doc recs));
   job ← or_cleanup recs (enqueue_ingest jnow t user (document_id p));
   mret (mkQueued job (document_id p))) s1 = (Err e, s') ->
  dk_jobs s' = dk_jobs s1 ∧ dk_blob s' = delete_blobs [] recs (dk_blob s1) ∧
  ((∃ ed, e = UploadDb ed ∧ StoreIngest.content (dk_store s') = StoreIngest.content (dk_store s1)) ∨
   (e = UploadQueue ∧ ∃ s2 p, upl_store (create_pending_ingest now doc recs) s1 = (Ok p, s2) ∧ dk_store s' = dk_store s2)).
Proof using Type.
  intros [E|(p & s2 & Hst%or_cleanup_ok & E)]%upl_bind_err.
  - unfold or_cleanup in E. destruct (upl_store _ s1) as [[p|e1] s2] eqn:Est; [done|]. injection E as <- <-. unfold upl_store in Est.
    pose proof (staging_fails_clean now doc recs (dk_store s1)) as Hcl.
    destruct (create_pending_ingest _ _ _ (dk_store s1)) as [[p|ed] st]; [done|]. injection Est as <- <-. simpl in *.
    split_and!; [done|done|]. left. exists ed. split; [done|by apply Hcl].
  - apply upl_bind_err in E as [E|(job & s3 & _ & E)]; [|done].
    unfold or_cleanup, enqueue_ingest in E. destruct (dk_queue_up s2) eqn:Hup; [done|]. injection E as <- <-.
    pose proof (upl_store_ok _ _ _ _ Hst) as (_ & Hb2 & Hj2 & _). simpl. split; [done|]. split; [by rewrite Hb2|].
    right. split; [done|]. by exists s2, p.
Qed.

Lemma upload_refused cap_tenant cap_global t user parsed lo (s s' : Desk (B:=B)) e :
  process_upload_queued tree_magic sha256 now jnow cap_tenant cap_global t user parsed lo s = (Err e, s') ->
  dk_jobs s' = dk_jobs s ∧ request_refused cap_tenant cap_global t parsed lo s e s'.
Proof using Type.
  unfold process_upload_queued.
  intros [(-> & f & e' & Hf & -> & He)%validate_all_err|(u & s0 & [-> _]%validate_all_ok & E)]%upl_bind_err.
  { split; [done|]. split; [done|]. by exists f. }
  apply upl_bind_err in E as [E|(n & s0 & [-> ->]%pending_jobs_ok & E)].
  { unfold pending_jobs in E. apply upl_bind_err in E as [E|(u' & s1 & _ & E)]; [|done]. unfold upl_store, admin_pool in E.
    destruct (st_connected (dk_store s)) eqn:Hc; [done|]. injection E as <- <-. destruct s. split; [done|]. by left. }
  destruct (_ || _) eqn:Hcap.
  { injection E as <- <-. split; [done|]. apply orb_true_iff in Hcap. rewrite !Z.leb_le in Hcap. split; [done|]. split; [|done].
    symmetry. apply surjective_pairing. }
  apply upl_bind_err in E as [E|(un & s0 & Hn & E)].
  { destruct (pu_user_note parsed) as [note|] eqn:En; [|done]. destruct (bound_note note) eqn:Eb; [done|].
    injection E as <- <-. split; [done|]. unfold request_refused. rewrite En. simpl. intros Hs%bound_note_total. destruct Hs as [? Hs]. congruence. }
  assert (s0 = s ∧ un = pu_user_note parsed ≫= bound_note) as [-> ->].
  { destruct (pu_user_note parsed) as [note|]; simpl; [|by injection Hn as <- <-].
    destruct (bound_note note); [|done]. by injection Hn as <- <-. }
  destruct (build_records t (pu_files parsed) (pu_user_note parsed ≫= bound_note)) as (Hr & _ & _).
  unfold request_refused. destruct (build _ _ _ _ _ _) as [doc recs]. simpl in Hr. subst recs. cbn [fst].
  apply upl_bind_err in E as [E|([] & s1 & Hput & E)].
  { pose proof (store_blobs_keep _ _ _ _ E) as (Hs & Hj & _ & He). destruct (He e eq_refl) as (k & e' & ->). by split_and!. }
  pose proof (store_blobs_keep _ _ _ _ Hput) as (Hs1 & Hj1 & _).
  apply stage_and_queue_err in E as (Hj & Hb & [(ed & -> & Hc)|(-> & s2 & p & Hst & Hs)]); (split; [congruence|]).
  - right. rewrite Hc, Hs1. split; [done|]. by exists s1.
  - by exists s1, s2, p.
Qed.

End Accepted.

(** ** The form, read *)

Definition total_bytes (fs : list IngestFile) : Z := sum_Z ((λ f, Z.of_nat (length (if_bytes f))) <$> fs).

Lemma parse_parts_ok max total acc parts r : 0 <= max < ity_max u64 -> 0 <= total ->
  total = total_bytes (pu_files acc) -> total <= max -> parse_parts max total acc parts = Ok r ->
  total_bytes (pu_files r) <= max ∧ Forall (λ f, if_page_label f = if_path f) (drop (length (pu_files acc)) (pu_files r)) ∧
  pu_files acc `prefix_of` pu_files r ∧ (pu_user_note r = Some [] -> pu_user_note acc = Some []).
Proof.
  intros Hmax. revert total acc. induction parts as [|part parts IH]; intros total acc H0 Ht Hle; cbn [parse_parts].
  { intros [= <-]. rewrite drop_all. by split_and!; [lia|constructor| |]. }
  destruct (read_part part) as [f|]; [|done]. cbn [result_bind]. destruct (bool_decide (default [] (fd_name f) = str "files")).
  - destruct (read_part (fd_bytes f)) as [b|]; [|done]. cbn [result_bind]. destruct (Z.ltb_spec max (saturating_add u64 total (Z.of_nat (length b)))) as [|Hb]; [done|].
    assert (Hs : saturating_add u64 total (Z.of_nat (length b)) = total + Z.of_nat (length b)).
    { unfold saturating_add, saturate in *. change (ity_min u64) with 0 in *. lia. }
    rewrite Hs in *. intros Hp%IH; [|lia| |done].
    + simpl in Hp. destruct Hp as (H1 & H2 & [l Hl] & H4). split_and!; [done| |by exists (mkIngestFile b (fd_file_name f) (fd_file_name f) :: l); rewrite Hl, <- app_assoc|done].
      rewrite Hl, drop_app_length in H2. rewrite Hl, <- app_assoc, drop_app_length. by constructor.
    + simpl. unfold total_bytes in *. rewrite fmap_app, sum_Z_app. csimpl. lia.
  - destruct (bool_decide (default [] (fd_name f) = str "user_note")).
    { destruct (read_part (fd_text f)) as [x|]; [|done]. cbn [result_bind]. intros (H1 & H2 & H3 & H4)%IH; [|done..]. split_and!; try done.
      intros Hn%H4. simpl in Hn. destruct x; [done|by injection Hn]. }
    destruct (bool_decide (default [] (fd_name f) = str "group_as_document")).
    { destruct (read_part (fd_text f)) as [x|]; [|done]. cbn [result_bind]. intros Hp%IH; done. }
    destruct (bool_decide (default [] (fd_name f) = str "csrf_token")); [|by apply IH]. destruct (read_part (fd_text f)) as [x|]; [|done]. cbn [result_bind]. intros Hp%IH; done.
Qed.

(** A form that is read holds no more bytes than the limit, every file is
    labelled with its name, and a note is not empty. *)
Lemma parse_multipart_bounded max parts r : 0 <= max < ity_max u64 -> parse_multipart max parts = Ok r ->
  total_bytes (pu_files r) <= max ∧ Forall (λ f, if_page_label f = if_path f) (pu_files r) ∧ pu_user_note r <> Some [].
Proof.
  intros Hm Hp. apply parse_parts_ok in Hp as (Hb & Hl & _ & Hn); [|done|lia|done|lia]. split; [done|]. split; [done|].
  intros Hr%Hn. done.
Qed.

(** ** The synchronous path *)

Record InlineIngestResult := mkInline {
  ir_job_id : Z;
  ir_document_id : option Z;
  ir_file_count : nat;
}.

Section Inline.
Context {B S W : Type} `{!Blob B} `{!TagStore S} `{!IngestStore S} `{!Unicode}.
Context (tree_magic : bytes -> chars) (sha256 : bytes -> bytes) (now : Z).
Context (p : IngestPipeline W).

Definition compute_blob_key (b : bytes) : chars := hex_encode (sha256 b).

Fixpoint put_plain (fs : list IngestFile) (b : B) : result (list chars) UploadError * B :=
  match fs with
  | [] => (Ok [], b)
  | f :: fs' =>
      let k := compute_blob_key (if_bytes f) in
      match blob_put (key_string k) (if_bytes f) b with
      | (Ok _, b') => match put_plain fs' b' with
                      | (Ok ks, b'') => (Ok (k :: ks), b'')
                      | (Err e, b'') => (Err e, b'')
                      end
      | (Err e, b') => (Err (UploadBlob k e), b')
      end
  end.
Definition delete_keys (ks : list chars) (b : B) : B := foldl (λ b k, (blob_delete (key_string k) b).2) b ks.

Definition process_upload_inline (t : Z) (user : option Z) (parsed : ParsedUpload) (local_only : bool) (s : Sys B S W)
    : result InlineIngestResult UploadError * Sys B S W :=
  let with_blob b s := mkSys b (sy_store s) (sy_names s) (sy_models s) (sy_usage s) in
  match validate_files tree_magic (pu_files parsed) with
  | Err e => (Err (Rejected e), s)
  | Ok _ =>
      match put_plain (pu_files parsed) (sy_blob s) with
      | (Err e, b) => (Err e, with_blob b s)
      | (Ok keys, b) =>
          match ingest tree_magic sha256 now p t user (pu_files parsed) (pu_user_note parsed) local_only (with_blob b s) with
          | (Ok out, s') => (Ok (mkInline 0 (Some (io_document_id out)) (length (pu_files parsed))), s')
          | (Err e, s') => (Err (PipelineFailed e), with_blob (delete_keys keys (sy_blob s')) s')
          end
      end
  end.
End Inline.

Section InlineFailure.
Context `{!Aead} `{!QueryBuilder} `{!Unicode} {B W : Type} `{!Blob B}.
Context (tree_magic : bytes -> chars) (sha256 : bytes -> bytes) (now : Z) (p : IngestPipeline W).
#[local] Instance inline_ingest_store : IngestStore Store := pg_ingest_store now.

(** A refused synchronous upload leaves documents, files and chunks alone, and
    is answered 503 exactly when no model backend was available. *)
Lemma inline_refused t user parsed lo (s s' : Sys B Store W) e :
  process_upload_inline tree_magic sha256 now p t user parsed lo s = (Err e, s') ->
  StoreIngest.content (sy_store s') = StoreIngest.content (sy_store s) ∧
  ((map_ingest_error e).1 = 503 <-> ∃ te, e = PipelineFailed (BackendUnavailable te)).
Proof.
  intros Hrun. assert (Hcode : (map_ingest_error e).1 = 503 <-> ∃ te, e = PipelineFailed (BackendUnavailable te)).
  { destruct e as [| | | | | |[]|]; simpl; split; try done; try (by intros [? [=]]); by eexists. }
  split; [|exact Hcode]. unfold process_upload_inline in Hrun. destruct (validate_files _ _); [|by injection Hrun as _ <-].
  destruct (put_plain _ _ _) as [[keys|e1] b]; [|by injection Hrun as _ <-].
  destruct (ingest _ _ _ _ _ _ _ _ _ _) as [[out|e1] s1] eqn:E; [done|]. injection Hrun as _ <-. cbn [sy_store].
  unfold ingest in E. apply (ingest_inner_clean content_kept tree_magic sha256 now p t user) in E. exact E.
Qed.
End InlineFailure.

(** ** Concrete runs *)

(** Blobs in memory under any naming scheme. *)
#[local] Existing Instance mem_blob.
Lemma mem_blob_named (valid : string -> bytes -> Prop) :
  BlobLaws (gmap string bytes) (λ _, True) valid (λ s, ∀ k d, s !! k = Some d -> valid k d) (λ s k, is_Some (s !! k)).
Proof.
  split.
  - intros k d s r s' Hi _ Hv [= <- <-]. split.
    + intros k' d' [[<- <-]|[_ Hk]]%lookup_insert_Some; auto.
    + left. intros k' _. rewrite lookup_insert_is_Some'. split; intros [|]; auto.
  - intros k s r s' Hi _ [= <- <-]. split_and!; [done|done| |].
    + intros d Hd. destruct (s !! k) as [d'|] eqn:E; [|done]. injection Hd as ->. by apply Hi.
    + intros Hn [d Hd]. by rewrite Hd in Hn.
  - intros k a b s r s' Hi _ _ [= <- <-]. split_and!; [done|done| |].
    + intros x. destruct (s !! k) as [d|] eqn:E; [|done]. intros [= <-]. exists d. by split; [apply Hi|].
    + intros Hn [d Hd]. by rewrite Hd in Hn.
  - intros k s r s' Hi _ [= <- <-]. split_and!; [done|done|]. intros b [= <-]. by rewrite bool_decide_eq_true.
  - intros k s r s' Hi _ [= <- <-]. split; [intros k' d' [_ Hk]%lookup_delete_Some; by apply Hi|]. left. intros k' _.
    rewrite lookup_delete_is_Some. split; intros [Hne Hs]; by split.
Qed.

(** A mail is known by its first letter. *)
Definition mail_magic (b : bytes) : chars := if has_prefix (lit "F") b then str "message/rfc822" else str "text/plain".
Definition text_file : IngestFile := mkIngestFile (lit "hello") (Some (str "a.txt")) (Some (str "a.txt")).
Definition mail_file : IngestFile := mkIngestFile (lit "From: x") (Some (str "b.eml")) (Some (str "b.eml")).
Definition form (files : list IngestFile) (note : string) : ParsedUpload := mkParsed files (Some (str note)) false [].
Definition no_jobs : JobDb := mkJobDb ∅ 1 ∅ ∅ [].
Definition upload_queue : JobQueue := queue_new 1000 5 "w".
Definition demo_desk : Desk (B:=gmap string bytes) := mkDesk ∅ demo_store no_jobs true.
Definition demo_accept (files : list IngestFile) (s : Desk) : result QueuedIngestResult UploadError * Desk :=
  @process_upload_queued (gmap string bytes) mem_blob plain_aead mail_magic demo_sha 7 9 50 1000 1 (Some 4)
    (form files "my note") true s.
Definition first_desk : Desk := (demo_accept [text_file; mail_file] demo_desk).2.

Lemma first_accepted : demo_accept [text_file; mail_file] demo_desk = (Ok (mkQueued 1 1), first_desk).
Proof.
  assert ((demo_accept [text_file; mail_file] demo_desk).1 = Ok (mkQueued 1 1)) as <- by (vm_compute; reflexivity).
  exact (surjective_pairing _).
Qed.

(** A mail uploaded with a text is accepted as a document of both; uploaded
    again alone, it is refused (no document of kind email is stored), and the
    clean-up deletes the blob that the first document still lists. *)
Lemma refused_upload_deletes_referenced_blob :
  let r := demo_accept [mail_file] first_desk in
  let k := blob_key demo_sha 1 (if_bytes mail_file) in
  r.1 = Err (UploadDb CheckViolation) ∧ is_Some (dk_blob first_desk !! k) ∧ dk_blob r.2 !! k = None ∧
  (λ f, key_string (f_blob_key f)) <$> files (st_db (dk_store r.2)) !! 2 = Some k ∧ map_ingest_error (UploadDb CheckViolation) = (500, "internal_error"%string).
Proof. vm_compute. split_and!; try done. by eexists. Qed.

(** When the queue does not answer, an upload of what is staged already is
    refused, and the first upload's job finds its blobs gone. *)
Lemma queue_outage_deletes_staged_blobs :
  let down := mkDesk (dk_blob first_desk) (dk_store first_desk) (dk_jobs first_desk) false in
  let r := demo_accept [text_file; mail_file] down in
  r.1 = Err UploadQueue ∧ dk_blob r.2 = ∅ ∧
  (@load_queued_ingest_inputs (λ _, str "gone") (λ _, []) _ Store unit mem_blob (@pg_queued_store plain_aead)
     (upload_job 9 1 1 (Some 4) 1) false (mkSys (dk_blob r.2) (dk_store r.2) (mkEmbedder [] true []) tt [])).1
  = Err (str "failed to read blob '" ++ str "1/" ++ hex_encode (demo_sha (lit "hello")) ++ str "': gone").
Proof. vm_compute. done. Qed.

(** A page that the document has already is moved to the end, and the next
    page gets the same number. *)
Definition demo_add (f : IngestFile) (s : Desk) : result (Z * Z) UploadError * Desk :=
  @process_add_page_queued (gmap string bytes) mem_blob plain_aead mail_magic demo_sha 8 10 1 (Some 4) 1 (form [f] "") s.
Definition page_numbers (s : Desk (B:=gmap string bytes)) : list (Z * Z) :=
  (λ kr, (kr.1, f_page_no kr.2)) <$> live_files (st_db (dk_store s)) 1 1.

Lemma added_pages_collide :
  let s2 := (demo_add text_file first_desk).2 in
  let s3 := (demo_add (mkIngestFile (lit "third") (Some (str "c.txt")) (Some (str "c.txt"))) s2).2 in
  page_numbers first_desk = [(1, 1); (2, 2)] ∧ page_numbers s2 = [(2, 2); (1, 3)] ∧ (1, 3) ∈ page_numbers s3 ∧ (4, 3) ∈ page_numbers s3.
Proof. split_and!; [vm_compute; done..| |]; apply (bool_decide_unpack _); vm_compute; done. Qed.

(** What the two files of the examples are called. *)
Definition demo_named (k : string) (d : bytes) : Prop :=
  (k = blob_key demo_sha 1 (lit "hello") ∧ d = lit "hello") ∨ (k = blob_key demo_sha 1 (lit "From: x") ∧ d = lit "From: x").
Lemma demo_named_det k d d' : demo_named k d -> demo_named k d' -> d = d'.
Proof. intros [[-> ->]|[-> ->]] [[E ->]|[E ->]]; try done; by vm_compute in E. Qed.
Lemma demo_keys_ok : Forall (λ f, True ∧ demo_named (blob_key demo_sha 1 (if_bytes f)) (if_bytes f)) [text_file; mail_file].
Proof. constructor; [split; [done|by left]|constructor; [split; [done|by right]|constructor]]. Qed.

Lemma upload_accepted_witness :
  count_pending_ingest_jobs 1 (dk_jobs first_desk) = (1, 1) ∧
  @worker_loads _ mem_blob plain_aead 9 1 (pages_of [text_file; mail_file]) (Some (str "my note")) true (mkQueued 1 1) first_desk.
Proof.
  destruct (@upload_accepted (gmap string bytes) mem_blob plain_aead plain_aead_laws (λ _, True) demo_named
    (λ s, ∀ k d, s !! k = Some d -> demo_named k d) (λ s k, is_Some (s !! k)) (mem_blob_named demo_named)
    mail_magic demo_sha 7 9 upload_queue 50 1000 1 (Some 4) (form [text_file; mail_file] "my note") true demo_desk first_desk (mkQueued 1 1))
    as [_ _ Hp _ _ _ Hw].
  - reflexivity.
  - exact demo_named_det.
  - vm_compute. discriminate.
  - apply (bool_decide_unpack _). vm_compute. exact I.
  - repeat constructor.
  - exact demo_keys_ok.
  - intros k d Hk. simpl in Hk. rewrite lookup_empty in Hk. discriminate.
  - exact empty_db_ok.
  - exact empty_own_files.
  - apply map_Forall_empty.
  - exact first_accepted.
  - split; [rewrite Hp; reflexivity|exact Hw].
Defined.

