(* ===== verification/Retrieval.v ===== *)
(** * Answering a search
      (pipeline/src/retrieval.rs, llm/src/reranker.rs, api/src/handlers/search.rs)

    From the query string of a request to the ranked hits: the request is
    parsed, the tenant's budget and plan decide how, the query is embedded
    through a cache, the store is searched on both paths, a cross-encoder
    rescores the hits, and a search falls back to keywords alone when the
    models are away.  The embedding model and the cross-encoder are functions
    of a state of their own, as in [Ingest]; a call of the cache reads a clock,
    in nanoseconds. *)

From stdpp Require Import base gmap list sets strings sorting.
From Stdlib Require Import ZArith Lia Strings.Byte SpecFloat.
From S2P Require Import Prelude StableSort FloatModel Text Json Role Quota RequestGate Blob Envelope ColumnCrypt Schema PgStore StoreIngest.
From S2P Require Import Search Tags DocBuilder IngestText Ingest.
Open Scope Z_scope.

(** ** Results of a search *)

Inductive SearchMode := Hybrid | Keyword.
Definition mode_str (m : SearchMode) : string := match m with Hybrid => "hybrid" | Keyword => "keyword" end.

(** The step of the full path that failed. *)
Inductive RetrieveError :=
| EmbedStep (e : IngestFailure)
| SearchStep (e : DbError)
| RerankStep (e : TagError)
| ScoreCount (scores hits : nat).

(** The cause in the error chain decides. *)
Definition llm_unavailable (e : TagError) : bool :=
  match te_llm e with
  | Some LScheduler | Some LAllFailed | Some LHttp | Some LAllCooldown => true
  | _ => false
  end.
Definition backend_unavailable (e : RetrieveError) : bool :=
  match e with
  | EmbedStep (EmbedFailed (BatchFailed cause)) => llm_unavailable cause
  | RerankStep cause => llm_unavailable cause
  | _ => false
  end.

(** ** The cache of query embeddings *)

Notation EmbedCache := (gmap chars (list f32 * Z)).
Definition CACHE_TTL : Z := 60 * SECOND.
Definition CACHE_SIZE : nat := 256.
(** [at.elapsed() < 60 s]; an instant in the future has elapsed 0. *)
Definition fresh_at (now at_ : Z) : bool := Z.max 0 (now - at_) <? CACHE_TTL.

Definition cached_embed (now : Z) (key : chars) (c : EmbedCache) : option (list f32) :=
  e ← c !! key; if fresh_at now e.2 then Some e.1 else None.
Definition cache_embed (now : Z) (key : chars) (embedding : list f32) (c : EmbedCache) : EmbedCache :=
  let c := if (CACHE_SIZE <=? size c)%nat then filter (λ ke, fresh_at now ke.2.2 = true) c else c in
  <[key := (embedding, now)]> c.

(** ** The cross-encoder *)

Record RerankResp := mkRerankResp {
  rr_results : list (Z * f32);
  rr_usage : option (Z * Z);
}.
Record LlamaReranker (W : Type) := mkReranker {
  rk_post : chars -> list chars -> bool -> Z -> W -> result RerankResp TagError * W;
  rk_recorder : bool;
}.
Arguments mkReranker {W}.
Arguments rk_post {W}.
Arguments rk_recorder {W}.
Record RerankUsage := mkRerankUsage {
  ru_tenant : Z;
  ru_user : option Z;
  ru_prompt_tokens : option Z;
  ru_completion_tokens : option Z;
}.

Definition MAX_RERANK_DOC_CHARS : nat := Z.to_nat 4096.
Definition MAX_RERANK_QUERY_CHARS : nat := Z.to_nat 512.
Definition truncate_chars (s : chars) (max_chars : nat) : chars := take max_chars s.

(** ** Scores *)

Definition set_score (x : f32) (h : Hit) : Hit :=
  mkHit (h_document_id h) x (h_title h) (h_snippet h) (h_file_id h) (h_page_no h) (h_ts_offset h) (h_kind h).
(** 0.2 *)
Definition RRF_BLEND_WEIGHT : f32 := f32_div (f32_of_Z 1) (f32_of_Z 5).
Definition score_norm (hits : list Hit) : f32 :=
  let max_rrf := foldl f_max (f32_of_Z 0) (h_score <$> hits) in
  if f_lt (f32_of_Z 0) max_rrf then f32_div (f32_of_Z 1) max_rrf else f32_of_Z 1.
Definition blend (norm : f32) (h : Hit) (rerank_score : f32) : Hit :=
  let norm_rrf := f32_mul (h_score h) norm in
  set_score (f32_add (f32_mul RRF_BLEND_WEIGHT norm_rrf)
               (f32_mul (f32_sub (f32_of_Z 1) RRF_BLEND_WEIGHT) rerank_score)) h.
(** [b.partial_cmp(&a).unwrap_or(Equal)] is not [Greater]. *)
Definition rescored_leb (a b : Hit) : bool :=
  match partial_cmp (h_score b) (h_score a) with Some Gt => false | _ => true end.
Definition rerank_hits (top_k : Z) (hits : list Hit) (scores : list f32) : list Hit :=
  take (Z.to_nat top_k) (sort_by rescored_leb (zip_with (blend (score_norm hits)) hits scores)).

(** ** The request *)

Record SearchParams := mkParams {
  sp_q : chars;
  sp_kind : option chars;
  sp_tag : option chars;
  sp_limit : Z;
}.
Definition MAX_LIMIT : Z := 100.
(** The non-empty trimmed parts between commas. *)
Definition comma_list (s : option chars) : list chars :=
  match s with
  | None => []
  | Some s => List.filter (λ p, negb (bool_decide (p = []))) (trim <$> split_char 44 s)
  end.
Definition kind_of (k : chars) : option DocKind := List.find (λ v, bool_decide (str (as_str v) = k)) (all DocKind).
(** [collect] into a [Result]: the first unknown kind is the error. *)
Fixpoint parse_kinds (ks : list chars) : result (list DocKind) chars :=
  match ks with
  | [] => Ok []
  | k :: ks' =>
      match kind_of k with
      | None => Err (str "unknown document kind: '" ++ k ++ str "'")
      | Some v => let? vs := parse_kinds ks' in Ok (v :: vs)
      end
  end.

Inductive SearchReply :=
| SearchOk (hits : list Hit) (query : chars) (count : Z) (mode : SearchMode)
| InvalidKind (msg : chars)
| SearchError.

(** The budget check; [None] is an error that is not a quota's. *)
Definition budget_check (plans : Plans) (t : Z) : result unit (option QuotaError) :=
  match plans with
  | None => Err None
  | Some d =>
      match check_plan_token_budget_rollup d t with
      | Ok u => Ok u
      | Err (Quota.Quota e) => Err (Some e)
      | Err _ => Err None
      end
  end.
Definition budget_check_forces_degrade (budget : result unit (option QuotaError)) : bool :=
  match budget with Err (Some _) => true | _ => false end.
Definition local_only_for_plan (remote_allowed : bool) : bool := negb remote_allowed.
Definition resolve_local_only (now : Z) (plans : Plans) (t : Z) (billing : gmap Z Entry) : bool :=
  local_only_for_plan (is_remote_models_allowed_cached now plans t billing).

Section Retrieval.
Context {B W : Type} `{!Unicode} `{!Aead} `{!HashOrder} `{!SearchIndex}.
Context (p : IngestPipeline W) (k : LlamaReranker W).

(** What a search may change. *)
Record RSys := mkRSys {
  rs_sys : Sys B Store W;
  rs_cache : EmbedCache;
  rs_rerank_usage : list RerankUsage;
}.
Definition rs_store (s : RSys) : Store := sy_store (rs_sys s).

Definition ret (A : Type) : Type := RSys -> result A RetrieveError * RSys.
#[local] Instance ret_ret : MRet ret := λ A a s, (Ok a, s).
#[local] Instance ret_bind : MBind ret := λ A C f m s,
  match m s with
  | (Ok a, s') => f a s'
  | (Err e, s') => (Err e, s')
  end.
Definition ret_fail {A} (e : RetrieveError) : ret A := λ s, (Err e, s).
Definition ret_embed {A} (m : ing (B:=B) (S:=Store) (W:=W) A) : ret A := λ s,
  let (r, y) := m (rs_sys s) in
  (match r with Ok a => Ok a | Err e => Err (EmbedStep e) end, mkRSys y (rs_cache s) (rs_rerank_usage s)).
Definition ret_store {A} (m : dbm A) : ret A := λ s,
  let (r, st) := m (rs_store s) in
  let y := rs_sys s in
  (match r with Ok a => Ok a | Err e => Err (SearchStep e) end,
   mkRSys (mkSys (sy_blob y) st (sy_names y) (sy_models y) (sy_usage y)) (rs_cache s) (rs_rerank_usage s)).
Definition ret_rerank {A} (m : W -> result A TagError * W) : ret A := λ s,
  let y := rs_sys s in
  let (r, w) := m (sy_models y) in
  (match r with Ok a => Ok a | Err e => Err (RerankStep e) end,
   mkRSys (mkSys (sy_blob y) (sy_store y) (sy_names y) w (sy_usage y)) (rs_cache s) (rs_rerank_usage s)).
Definition ret_cache {A} (f : EmbedCache -> A * EmbedCache) : ret A := λ s,
  let (a, c) := f (rs_cache s) in (Ok a, mkRSys (rs_sys s) c (rs_rerank_usage s)).

(** ** Reranking *)

Definition client_rerank (query : chars) (docs : list chars) (local_only : bool) (priority : Z)
    : ret (list f32 * option (Z * Z)) :=
  raw ← ret_rerank (rk_post k query docs local_only priority);
  if negb (length (rr_results raw) =? length docs)%nat
  then ret_fail (RerankStep (mkTagError
         (str "deserialize: rerank response length mismatch: got " ++ show_int (Z.of_nat (length (rr_results raw))) ++
          str " results, expected " ++ show_int (Z.of_nat (length docs))) (Some LDeserialize)))
  else mret ((sort_by (λ a b, a.1 <=? b.1) (rr_results raw)).*2, rr_usage raw).

Definition meter_rerank (t : Z) (user : option Z) (usage : option (Z * Z)) : ret unit := λ s,
  (Ok tt,
   if rk_recorder k
   then mkRSys (rs_sys s) (rs_cache s) (rs_rerank_usage s ++
          [mkRerankUsage t user (wrap i32 ∘ fst <$> usage) (wrap i32 ∘ snd <$> usage)])
   else s).

Definition rerank (query : chars) (docs : list chars) (local_only : bool) (priority t : Z) (user : option Z)
    : ret (list f32) :=
  su ← client_rerank (truncate_chars query MAX_RERANK_QUERY_CHARS)
         ((λ d, truncate_chars d MAX_RERANK_DOC_CHARS) <$> docs) local_only priority;
  meter_rerank t user su.2;;
  mret su.1.

(** ** The two paths *)

Definition query_key (q : Query) : chars := to_lowercase (trim (q_text q)).

(** The embedding of a query, looked up at [t0] or computed and kept at [t1]. *)
Definition query_embedding (t0 t1 t : Z) (user : option Z) (q : Query) (local_only : bool) : ret (list f32) :=
  cached ← ret_cache (λ c, (cached_embed t0 (query_key q) c, c));
  match cached with
  | Some v => mret v
  | None =>
      vec ← ret_embed (embed_query p (q_text q) t user local_only);
      ret_cache (λ c, (tt, cache_embed t1 (query_key q) vec c));;
      mret vec
  end.

Definition run_hybrid (t0 t1 t : Z) (user : option Z) (q : Query) (local_only : bool) : ret (list Hit) :=
  embedding ← query_embedding t0 t1 t user q local_only;
  hits ← ret_store (run_hybrid_search t q embedding);
  match hits with
  | [] => mret []
  | _ =>
      scores ← rerank (q_text q) (h_snippet <$> hits) local_only 0 t user;
      if negb (length scores =? length hits)%nat then ret_fail (ScoreCount (length scores) (length hits))
      else mret (rerank_hits (q_top_k q) hits scores)
  end.

Definition keyword_path (t : Z) (q : Query) : ret (list Hit * SearchMode) :=
  hits ← ret_store (run_keyword_search t q);
  mret (hits, Keyword).

Definition retrieve (t0 t1 t : Z) (user : option Z) (q : Query) (local_only degrade : bool)
    : ret (list Hit * SearchMode) :=
  if degrade then keyword_path t q
  else λ s,
    match run_hybrid t0 t1 t user q local_only s with
    | (Ok hits, s') => (Ok (hits, Hybrid), s')
    | (Err e, s') => if backend_unavailable e then keyword_path t q s' else (Err e, s')
    end.

(** [GET /api/search], for [user] of tenant [t]. *)
Definition search (configured : bool) (now t0 t1 : Z) (plans : Plans) (billing : gmap Z Entry) (t user : Z)
    (params : SearchParams) : RSys -> SearchReply * RSys := λ s,
  if bool_decide (trim (sp_q params) = []) then (SearchOk [] (sp_q params) 0 Hybrid, s)
  else
    let limit := Z.min (sp_limit params) MAX_LIMIT in
    match parse_kinds (comma_list (sp_kind params)) with
    | Err msg => (InvalidKind msg, s)
    | Ok kinds =>
        if negb configured then (SearchError, s)
        else
          let degrade := budget_check_forces_degrade (budget_check plans t) in
          let local_only := resolve_local_only now plans t billing in
          let q := mkQuery (sp_q params) (mkFilters kinds (comma_list (sp_tag params)) None None) limit in
          match retrieve t0 t1 t (Some user) q local_only degrade s with
          | (Ok (hits, mode), s') => (SearchOk hits (sp_q params) (Z.of_nat (length hits)) mode, s')
          | (Err _, s') => (SearchError, s')
          end
    end.
End Retrieval.
Arguments RSys : clear implicits.
Arguments mkRSys {B W}.

(** ** Searching leaves the documents alone *)

Section Reading.
Context `{!Aead} `{!HashOrder} `{!SearchIndex} `{!SearchIndexLaws}.

Lemma keeps_tx {A} (body : dbm A) : keeps body -> keeps (tx body).
Proof.
  intros Hb s. unfold tx. destruct (st_connected s); simpl; [|done]. specialize (Hb s).
  destruct (body s) as [[a|e] s1]; simpl in *; [done|]. destruct Hb as ((?&?&?&?)&?&?&?). by split_and!.
Qed.

Lemma keeps_tried {A} (m : dbm A) : keeps m -> keeps (tried m).
Proof. intros Hm s. unfold tried. specialize (Hm s). by destruct (m s). Qed.

Lemma keeps_tags t q : keeps (resolve_tags t q).
Proof. intros s. unfold resolve_tags. by destruct (qf_tags (q_filters q)). Qed.

Lemma keeps_vector t q e ids : keeps (execute_vector_query t q e ids).
Proof. intros s. unfold execute_vector_query, mbind, dbm_bind, asks, of_res. by destruct (vector_rank _ _ _ _). Qed.

Lemma keeps_keyword t q ids : keeps (execute_keyword_query t q ids).
Proof. intros s. by rewrite keyword_arm. Qed.

Lemma keeps_rollup t ranked m : keeps (ranked_rows_to_chunk_hits t ranked m).
Proof. apply tx_keeps_bind; [apply keeps_tried, keeps_dek|done]. Qed.

#[local] Hint Resolve keeps_tags keeps_vector keeps_keyword keeps_rollup tx_keeps_ret : store.

Lemma keeps_hybrid_search t q e : keeps (run_hybrid_search t q e).
Proof.
  unfold run_hybrid_search. case_match; [done|]. apply tx_keeps_bind; [apply keeps_tx|].
  - apply tx_keeps_bind; [auto with store|intros ids]. case_match; [done|].
    repeat (apply tx_keeps_bind; [auto with store|intros ?]). done.
  - intros [[vec kw]|]; [|done]. apply tx_keeps_bind; [auto with store|done].
Qed.

Lemma keeps_keyword_search t q : keeps (run_keyword_search t q).
Proof.
  unfold run_keyword_search. case_match; [done|]. apply tx_keeps_bind; [apply keeps_tx|].
  - apply tx_keeps_bind; [auto with store|intros ids]. case_match; [done|].
    apply tx_keeps_bind; [auto with store|done].
  - intros [kw|]; [|done]. apply tx_keeps_bind; [auto with store|done].
Qed.

(** Which hits are right depends on the documents, tags and chunks only. *)
Lemma results_ok_core t q s s' hits :
  core_same s s' -> results_ok (st_db s') t q hits -> results_ok (st_db s) t q hits.
Proof.
  intros ((Hd & _ & Hdt & Ht) & Hc & _) [Hl Hs Hn Hf]. split; [done..|].
  eapply Forall_impl; [exact Hf|]. intros h (dek & row & x & -> & c & r & Hrow).
  exists dek, row, x. split; [done|]. exists c, r. rewrite <-Hc, <-Hd.
  destruct Hrow as (?&?&?&?&?&?&?&?&?&?& []). split_and!; try done. split; [done..|].
  intros tag row'. rewrite <-Ht, <-Hdt. eauto.
Qed.

Lemma rollup_nil hits : document_rollup hits = [] <-> hits = [].
Proof.
  assert (Hnil : document_rollup hits = [] <-> foldl keep_best ∅ hits = ∅).
  { rewrite <-!length_zero_iff_nil. unfold document_rollup. rewrite sort_scores_perm, length_fmap, hash_iter_perm.
    rewrite length_zero_iff_nil, map_to_list_empty_iff. done. }
  rewrite Hnil. destruct hits as [|ch hits _] using rev_ind; [done|]. rewrite foldl_snoc. simpl. unfold keep_best at 1.
  split; [intros Hm; by apply insert_non_empty in Hm|intros Hm; by apply app_eq_nil in Hm as [_ ?]].
Qed.

Lemma chunk_map_is_Some rows id : id ∈ cr_chunk_id <$> rows -> is_Some (chunk_map rows !! id).
Proof.
  induction rows as [|c rows IH] using rev_ind; [set_solver|]. rewrite fmap_app, chunk_map_snoc, lookup_insert_is_Some.
  intros [?|Hc%list_elem_of_singleton]%elem_of_app; [|by left]. destruct (decide (cr_chunk_id c = id)); auto.
Qed.

(** A connected store answers a keyword search. *)
Lemma keyword_search_answers t q s :
  st_connected s = true -> ∃ hits s', run_keyword_search t q s = (Ok hits, s').
Proof.
  intros Hc. unfold run_keyword_search. destruct (q_top_k q =? 0); [by eexists _, _|].
  destruct (resolve_tags_ok t q s) as (ids & Hr & _). unfold mbind, dbm_bind, tx. rewrite Hc. simpl. rewrite Hr.
  destruct (no_tag_resolved q ids); [by eexists _, _|]. rewrite keyword_arm. simpl.
  match goal with |- context [ranked_rows_to_chunk_hits t ?r ?m s] =>
    destruct (ranked_hits t r m s) as (s2 & ->) end. by eexists _, _.
Qed.

Lemma dek_connected t s : st_connected (get_or_create_tenant_dek t s).2 = st_connected s.
Proof.
  unfold get_or_create_tenant_dek, unwrap_tenant_dek, insert_decrypt_audit_event, admin_pool, mbind, dbm_bind, asks.
  destruct (st_kek s) as [kek|]; [|done]. destruct (st_connected s) eqn:Hc; simpl; [|done].
  assert (Hun : ∀ dk s1, st_connected s1 = true ->
    st_connected (unwrap_tenant_dek kek t dk s1).2 = true).
  { intros dk s1 Hs1. unfold unwrap_tenant_dek, insert_decrypt_audit_event, admin_pool, mbind, dbm_bind. rewrite Hs1. simpl.
    destruct (kek_unwrap _ _); [|done]. by case_match. }
  destruct (data_keys (st_db s) !! t) as [dk|]; [by apply Hun|]. unfold keyed.
  destruct (generate _ _ _) as [[dk|e] en]; [|done]. unfold stmt. case_decide; [|done]. by apply Hun.
Qed.

(** A connected store whose vector index answers answers a hybrid search. *)
Lemma hybrid_search_answers t q e s :
  st_connected s = true -> (∀ n rows, ∃ l, vector_rank (st_db s) e n rows = Ok l) ->
  ∃ hits s', run_hybrid_search t q e s = (Ok hits, s') ∧ st_connected s' = true.
Proof.
  intros Hc Hv. unfold run_hybrid_search. destruct (q_top_k q =? 0); [by eexists _, _|].
  destruct (resolve_tags_ok t q s) as (ids & Hr & _). unfold mbind, dbm_bind, tx. rewrite Hc. simpl. rewrite Hr.
  destruct (no_tag_resolved q ids); [by eexists _, _|]. unfold execute_vector_query, asks, of_res, mbind, dbm_bind.
  destruct (Hv (overscan_limit (q_top_k q)) (build_base_select (st_db s) t (q_filters q) ids)) as [l ->].
  unfold mret, dbm_ret. cbn beta iota. rewrite keyword_arm. simpl. unfold ranked_rows_to_chunk_hits, tried, mbind, dbm_bind.
  pose proof (dek_connected t s) as Hd. destruct (get_or_create_tenant_dek t s) as [r s1]. simpl in *.
  eexists _, _. split; [done|congruence].
Qed.
End Reading.

(** ** The cache *)

(** A cached embedding is the last one kept for its key, for a minute;
    dropping old entries to make room never loses one that is still fresh. *)
Lemma cached_after_keep (t0 t1 : Z) (key key' : chars) (v : list f32) (c : EmbedCache) :
  t1 <= t0 ->
  cached_embed t0 key (cache_embed t1 key' v c) =
    if decide (key = key') then (if t0 - t1 <? CACHE_TTL then Some v else None) else cached_embed t0 key c.
Proof.
  intros Ht. unfold cached_embed, cache_embed. case_decide as Hk.
  - subst. rewrite lookup_insert_eq. simpl. unfold fresh_at. by rewrite Z.max_r by lia.
  - rewrite lookup_insert_ne by done. case_match; [|done].
    destruct (c !! key) as [[v0 at0]|] eqn:E; simpl.
    + destruct (fresh_at t0 at0) eqn:Ef.
      * rewrite (map_lookup_filter_Some_2 _ _ _ (v0, at0)); simpl; [by rewrite Ef|done|].
        unfold fresh_at in *. apply Z.ltb_lt in Ef. apply Z.ltb_lt. lia.
      * destruct (filter _ c !! key) as [[v1 at1]|] eqn:E1; [|done]. simpl.
        apply map_lookup_filter_Some in E1 as [E1 _]. rewrite E in E1. injection E1 as <- <-. by rewrite Ef.
    + by rewrite map_lookup_filter, E.
Qed.

(** ** Reranking permutes the hits *)

Lemma set_score_id x y h : set_score x (set_score y h) = set_score x h.
Proof. done. Qed.
Lemma set_own_score h : set_score (h_score h) h = h.
Proof. by destruct h. Qed.

Lemma blended_ids norm hits scores :
  length scores = length hits -> h_document_id <$> zip_with (blend norm) hits scores = h_document_id <$> hits.
Proof.
  revert scores. induction hits as [|h hits IH]; intros [|x scores] Hl; csimpl in *; try done.
  f_equal. apply IH. lia.
Qed.

Lemma rerank_hits_all top_k hits scores :
  length scores = length hits -> Z.of_nat (length hits) <= top_k ->
  rerank_hits top_k hits scores = sort_by rescored_leb (zip_with (blend (score_norm hits)) hits scores).
Proof.
  intros Hl Hk. unfold rerank_hits. apply take_ge. rewrite sort_by_length, length_zip_with. lia.
Qed.

Definition f_ge (a b : Hit) : Prop := f_le (h_score b) (h_score a) = true.

Lemma better_f_ge a b : better h_score h_document_id a b -> f_ge a b.
Proof.
  unfold better, f_ge, f_lt, f_le, f_eq, SFltb, SFleb, SFeqb. destruct (SFcompare _ _) as [[]|]; naive_solver.
Qed.

(** Away from NaN the comparator is the order of the scores. *)
Definition key_ge (a b : Hit) : bool :=
  match lex3 (f_key (h_score b)) (f_key (h_score a)) with Gt => false | _ => true end.

Lemma key_ge_total a b : key_ge a b = true ∨ key_ge b a = true.
Proof. unfold key_ge. rewrite (lex3_antisym (f_key (h_score a))). destruct (lex3 _ _); auto. Qed.

Lemma key_ge_trans a b c : key_ge a b = true -> key_ge b c = true -> key_ge a c = true.
Proof.
  unfold key_ge. intros Hab Hbc.
  destruct (lex3 (f_key (h_score b)) (f_key (h_score a))) eqn:E1; try done;
  destruct (lex3 (f_key (h_score c)) (f_key (h_score b))) eqn:E2; try done.
  - apply lex3_eq in E1, E2. by rewrite E2, E1, lex3_refl.
  - apply lex3_eq in E1. by rewrite <-E1, E2.
  - apply lex3_eq in E2. by rewrite E2, E1.
  - by rewrite (lex3_lt_trans _ _ _ E2 E1).
Qed.

Definition hit_scored (h : Hit) : Prop := h_score h <> S754_nan.

Lemma rescored_key a b : hit_scored a -> hit_scored b -> rescored_leb a b = key_ge a b.
Proof. intros. unfold rescored_leb, key_ge, partial_cmp. by rewrite SFcompare_key. Qed.

Lemma rescored_sorted l : Forall hit_scored l -> StronglySorted f_ge (sort_by rescored_leb l).
Proof.
  intros Hl. rewrite (sort_by_ext _ key_ge); [|intros x y Hx Hy; rewrite Forall_forall in Hl; apply rescored_key; auto].
  assert (Hs : StronglySorted (λ x y, key_ge x y = true) (sort_by key_ge l))
    by (apply sort_by_ordered; [apply key_ge_total|apply key_ge_trans]).
  rewrite <-(sort_by_perm key_ge l) in Hl. revert Hl.
  induction Hs as [|x xs Hs IH Hx]; intros Hl; [constructor|]. apply Forall_cons in Hl as [Hlx Hl].
  constructor; [by apply IH|]. rewrite Forall_forall in *. intros y Hy. specialize (Hx y Hy).
  unfold key_ge, f_ge, f_le, SFleb in *. rewrite SFcompare_key by (apply Hl, Hy || exact Hlx). by destruct (lex3 _ _).
Qed.

(** ** What each step changes *)

Section Steps.
Context {B W : Type} `{!Unicode} `{!Aead} `{!HashOrder} `{!SearchIndex}.
Context (p : IngestPipeline W) (k : LlamaReranker W).
#[local] Existing Instances ret_ret ret_bind ing_ret ing_bind.

Lemma ret_bind_ok {A C} (m : ret (B:=B) (W:=W) A) (f : A -> ret C) s c s' :
  (m ≫= f) s = (Ok c, s') -> ∃ a s1, m s = (Ok a, s1) ∧ f a s1 = (Ok c, s').
Proof. unfold mbind, ret_bind. destruct (m s) as [[a|e] s1]; [eauto|done]. Qed.

(** The steps that leave the store to others. *)
Definition keeps_store {A} (m : ret (B:=B) (W:=W) A) : Prop := ∀ s, rs_store (m s).2 = rs_store s.

Lemma ks_bind {A C} (m : ret A) (f : A -> ret C) : keeps_store m -> (∀ a, keeps_store (f a)) -> keeps_store (m ≫= f).
Proof.
  intros Hm Hf s. unfold mbind, ret_bind. specialize (Hm s). destruct (m s) as [[a|e] s1]; simpl in *; [|done].
  by rewrite Hf.
Qed.
Lemma ks_rerank {A} (m : W -> result A TagError * W) : keeps_store (ret_rerank m).
Proof. intros s. unfold ret_rerank. by destruct (m _). Qed.
Lemma ks_cache {A} (f : EmbedCache -> A * EmbedCache) : keeps_store (ret_cache f).
Proof. intros s. unfold ret_cache. by destruct (f _). Qed.

Lemma mo_query text t user lo : models_only (B:=B) (S:=Store) (embed_query p text t user lo).
Proof.
  unfold embed_query, batch_embed. apply mo_bind; [apply mo_bind; [apply mo_send|intros rs; apply mo_gather]|].
  intros vs. apply mo_bind; [apply mo_ensure|done].
Qed.

Lemma ks_embed text t user lo : keeps_store (ret_embed (embed_query p text t user lo)).
Proof.
  intros s. unfold ret_embed, rs_store. destruct (mo_query text t user lo (rs_sys s)) as (_ & Hs & _).
  by destruct (embed_query _ _ _ _ _ _).
Qed.

Lemma ks_query_embedding t0 t1 t user q lo : keeps_store (query_embedding p t0 t1 t user q lo).
Proof.
  apply ks_bind; [apply ks_cache|]. intros [v|]; [done|].
  apply ks_bind; [apply ks_embed|intros v]. by apply ks_bind; [apply ks_cache|].
Qed.

Lemma ks_reranking query docs lo prio t user : keeps_store (rerank k query docs lo prio t user).
Proof.
  apply ks_bind.
  - apply ks_bind; [apply ks_rerank|intros raw]. by case_match.
  - intros su. apply ks_bind; [|done]. intros s. unfold meter_rerank. simpl. by destruct (rk_recorder k).
Qed.

Lemma ret_store_ok {A} (m : dbm A) (s : RSys B W) a s' :
  ret_store m s = (Ok a, s') -> m (rs_store s) = (Ok a, rs_store s').
Proof. unfold ret_store. destruct (m (rs_store s)) as [[x|e] st]; [|done]. by intros [= <- <-]. Qed.

Lemma ret_store_core {A} (m : dbm A) (s : RSys B W) :
  keeps m -> core_same (rs_store s) (rs_store (ret_store m s).2).
Proof. intros Hm. specialize (Hm (rs_store s)). unfold ret_store. by destruct (m (rs_store s)). Qed.

(** The full path leaves the documents alone, whether it succeeds or not. *)
Lemma run_hybrid_core `{!SearchIndexLaws} t0 t1 t user q lo (s : RSys B W) :
  core_same (rs_store s) (rs_store (run_hybrid p k t0 t1 t user q lo s).2).
Proof.
  unfold run_hybrid, mbind, ret_bind. pose proof (ks_query_embedding t0 t1 t user q lo s) as Hk1.
  destruct (query_embedding _ _ _ _ _ _ _ s) as [[v|e] s1]; simpl in *; [|by rewrite Hk1].
  rewrite <-Hk1. pose proof (ret_store_core (run_hybrid_search t q v) s1 (keeps_hybrid_search t q v)) as Hk2.
  destruct (ret_store _ s1) as [[[|h hs]|e] s2]; simpl in *; [done| |done].
  pose proof (ks_reranking (q_text q) (h_snippet h :: (h_snippet <$> hs)) lo 0 t user s2) as Hk3.
  destruct (rerank _ _ _ _ _ _ _ s2) as [[scores|e] s3]; simpl in *; [|by rewrite Hk3].
  case_match; simpl; by rewrite Hk3.
Qed.

(** How the full path succeeds. *)
Lemma run_hybrid_ok t0 t1 t user q lo (s s' : RSys B W) hits :
  run_hybrid p k t0 t1 t user q lo s = (Ok hits, s') ->
  ∃ e found, (∃ st, run_hybrid_search t q e (rs_store s) = (Ok found, st)) ∧
    (found = [] ∧ hits = [] ∨
     ∃ scores, length scores = length found ∧ hits = rerank_hits (q_top_k q) found scores).
Proof.
  intros (e & s1 & He & (found & s2 & Hf & Hr)%ret_bind_ok)%ret_bind_ok. exists e, found.
  pose proof (ks_query_embedding t0 t1 t user q lo s) as Hk1. rewrite He in Hk1. simpl in Hk1.
  apply ret_store_ok in Hf. rewrite Hk1 in Hf. split; [by eexists|].
  destruct found as [|h hs]; [left; by injection Hr as <- _|right].
  apply ret_bind_ok in Hr as (scores & s3 & _ & Hr). exists scores.
  destruct (Nat.eqb_spec (length scores) (length (h :: hs))) as [Hl|]; simpl in Hr; [|done].
  by injection Hr as <- _.
Qed.
End Steps.

(** ** What a search answers *)

Section Answers.
Context {B W : Type} `{!Unicode} `{!Aead} `{!HashOrder} `{!SearchIndex} `{!SearchIndexLaws}.
Context (p : IngestPipeline W) (k : LlamaReranker W).
#[local] Existing Instances ret_ret ret_bind ing_ret ing_bind.
Notation RSys := (RSys B W).

(** The right documents, once each, in order of score. *)
Record search_answer (db : Db) (t : Z) (q : Query) (hits : list Hit) : Prop := {
  sa_length : Z.of_nat (length hits) <= q_top_k q;
  sa_distinct : NoDup (h_document_id <$> hits);
  sa_sound : Forall (λ h, ∃ x, hit_sound db t (q_filters q) (set_score x h)) hits;
  sa_sorted : Forall hit_scored hits -> StronglySorted f_ge hits;
}.

Lemma answer_nil db t q : 0 <= q_top_k q -> search_answer db t q [].
Proof. intros. split; [simpl; lia|constructor|constructor|constructor]. Qed.

Lemma answer_store db t q hits : results_ok db t q hits -> search_answer db t q hits.
Proof.
  intros [Hl Hs Hd Hf]. split; [done|done| |].
  - eapply Forall_impl; [exact Hf|]. intros h Hh. exists (h_score h). by rewrite set_own_score.
  - intros _. clear -Hs. induction Hs as [|x xs Hs IH Hx]; constructor; [done|].
    eapply Forall_impl; [exact Hx|]. apply better_f_ge.
Qed.

Lemma answer_reranked db t q found scores :
  length scores = length found -> results_ok db t q found ->
  search_answer db t q (rerank_hits (q_top_k q) found scores).
Proof.
  intros Hl [Hk _ Hd Hf]. rewrite rerank_hits_all by done. set (l := zip_with _ found scores).
  assert (Hlen : length l = length found) by (unfold l; rewrite length_zip_with; lia). split.
  - by rewrite sort_by_length, Hlen.
  - rewrite sort_by_perm. unfold l. by rewrite blended_ids.
  - rewrite sort_by_perm. apply Forall_lookup_2. intros i h Hi. unfold l in Hi.
    apply lookup_zip_with_Some in Hi as (h0 & x & -> & Hh & _). exists (h_score h0).
    unfold blend. rewrite set_score_id, set_own_score. by apply (Forall_lookup_1 _ _ _ _ Hf Hh).
  - intros Hs. rewrite sort_by_perm in Hs. by apply rescored_sorted.
Qed.

Lemma keyword_path_ok t q (s s' : RSys) hits mode :
  keyword_path t q s = (Ok (hits, mode), s') ->
  mode = Keyword ∧ run_keyword_search t q (rs_store s) = (Ok hits, rs_store s') ∧
  s' = mkRSys (mkSys (sy_blob (rs_sys s)) (rs_store s') (sy_names (rs_sys s)) (sy_models (rs_sys s)) (sy_usage (rs_sys s)))
         (rs_cache s) (rs_rerank_usage s).
Proof.
  intros (hs & s1 & Hs & Hm)%ret_bind_ok. injection Hm as <- <- <-. pose proof Hs as Hr. apply ret_store_ok in Hr.
  split_and!; [done|done|]. unfold ret_store in Hs. destruct (run_keyword_search _ _ _) as [[x|e] st]; [|done].
  by injection Hs as <- <-.
Qed.

(** The path a search took. *)
Lemma retrieve_cases t0 t1 t user q lo degrade (s s' : RSys) hits mode :
  retrieve p k t0 t1 t user q lo degrade s = (Ok (hits, mode), s') ->
  core_same (rs_store s) (rs_store s') ∧
  (mode = Keyword ∧ (∃ s1, core_same (rs_store s) (rs_store s1) ∧ keyword_path t q s1 = (Ok (hits, mode), s') ∧
     (degrade = true -> s1 = s))
   ∨ mode = Hybrid ∧ degrade = false ∧ run_hybrid p k t0 t1 t user q lo s = (Ok hits, s')).
Proof.
  assert (Hkw : ∀ s1, core_same (rs_store s) (rs_store s1) -> keyword_path t q s1 = (Ok (hits, mode), s') ->
            core_same (rs_store s) (rs_store s') ∧ mode = Keyword).
  { intros s1 Hc Hk. apply keyword_path_ok in Hk as (-> & Hk & _). split; [|done].
    eapply core_same_trans; [exact Hc|]. by eapply keeps_ok; [apply keeps_keyword_search|]. }
  unfold retrieve. destruct degrade.
  - intros Hr. destruct (Hkw s (core_same_refl _) Hr) as [? ->]. split; [done|]. left. split; [done|]. by exists s.
  - pose proof (run_hybrid_core p k t0 t1 t user q lo s) as Hc.
    destruct (run_hybrid _ _ _ _ _ _ _ _ s) as [[hs|e] s1] eqn:E; simpl in Hc.
    + intros [= -> <- <-]. split; [done|by right].
    + destruct (backend_unavailable e); [|done]. intros Hr. destruct (Hkw s1 Hc Hr) as [? ->].
      split; [done|]. left. split; [done|]. by exists s1.
Qed.

(** Whatever path a search takes, full, forced to keywords or fallen back
    to keywords, what it returns is right for the documents as they were: every
    hit is of a live chunk of the calling tenant, in a document of the tenant
    that passes the filters, there is one hit per document and at most [top_k],
    in descending order of the score shown (reranked or not) as long as no
    score is NaN; and the search changes no document, tag, chunk or file. *)
Theorem retrieve_sound (t0 t1 t : Z) (user : option Z) (q : Query) (local_only degrade : bool) (s s' : RSys)
    (hits : list Hit) (mode : SearchMode) :
  0 <= q_top_k q ->
  retrieve p k t0 t1 t user q local_only degrade s = (Ok (hits, mode), s') ->
  search_answer (st_db (rs_store s)) t q hits ∧ core_same (rs_store s) (rs_store s').
Proof.
  intros Hk (Hc & [(_ & s1 & Hc1 & (_ & Hr & _)%keyword_path_ok & _)|(_ & _ & Hr)])%retrieve_cases; (split; [|done]).
  - apply answer_store. eapply results_ok_core; [exact Hc1|].
    eapply (search_results_ok t q []); [exact Hk|right; exact Hr].
  - apply run_hybrid_ok in Hr as (e & found & (st & Hf) & [[_ ->]|(scores & Hl & ->)]); [by apply answer_nil|].
    apply answer_reranked; [done|]. eapply (search_results_ok t q e); [exact Hk|left; exact Hf].
Qed.

(** *** When the models are away *)

(** A search that finds no document by vector or keyword finds none by keyword. *)
Lemma hybrid_nil_keyword t q e s st :
  0 <= q_top_k q -> run_hybrid_search t q e s = (Ok [], st) -> ∃ s', run_keyword_search t q s = (Ok [], s').
Proof.
  intros Hk. unfold run_hybrid_search, run_keyword_search. destruct (Z.eqb_spec (q_top_k q) 0) as [|Hk0]; [by eauto|].
  intros (arms & s1 & [Hcon Harms]%tx_ok & Hrun)%dbind_ok. unfold mbind, dbm_bind, tx. rewrite Hcon. simpl.
  apply dbind_ok in Harms as (ids & s2 & Hr' & Harms). destruct (resolve_tags_ok t q s) as (tag_ids & Hr & Ht).
  rewrite Hr in Hr' |- *. injection Hr' as <- <-. destruct (no_tag_resolved q tag_ids); [by eauto|].
  apply dbind_ok in Harms as (vec & s3 & Hv & Harms). apply vector_arm in Hv as [-> _]; [|done].
  apply dbind_ok in Harms as (kw & s4 & Hw & Harms). rewrite keyword_arm in Hw |- *. injection Hw as <- <-.
  injection Harms as <- <-. set (kw := dedup_best_chunk_per_document _ _) in *. simpl.
  apply dbind_ok in Hrun as (hs & s5 & Hh & [= Hnil <-]).
  destruct (ranked_hits t (rrf_fuse (cr_chunk_id <$> vec) (cr_chunk_id <$> kw) RRF_K) (chunk_map (vec ++ kw)) s) as (s6 & E).
  rewrite E in Hh. injection Hh as Hh _. destruct kw as [|row kw].
  - simpl. destruct (ranked_hits t [] (chunk_map []) s) as (s7 & ->). eexists. simpl.
    by rewrite (proj2 (rollup_nil []) eq_refl), take_nil.
  - exfalso. assert (document_rollup hs = []) as Hl%rollup_nil.
    { destruct (document_rollup hs); [done|]. by destruct (Z.to_nat (q_top_k q)) eqn:E'; [lia|]. }
    subst hs. destruct (chunk_map_is_Some (vec ++ row :: kw) (cr_chunk_id row)) as [r Hr']; [set_solver|].
    set (x := rrf_score (cr_chunk_id <$> vec) (cr_chunk_id <$> row :: kw) RRF_K (cr_chunk_id row)).
    eapply (not_elem_of_nil (chunk_hit (key_in_use t s) r x)). rewrite <-Hl. apply list_elem_of_omap.
    exists (cr_chunk_id row, x). split; [apply rrf_fuse_elem; [done|split; [right; set_solver|done]]|].
    simpl. by rewrite Hr'.
Qed.

(** Every call of either model fails for want of a backend. *)
Definition models_away : Prop :=
  (∀ texts lo w, ∃ e w', ip_llm_embed p texts lo w = (Err e, w') ∧ llm_unavailable e = true) ∧
  (∀ query docs lo prio w, ∃ e w', rk_post k query docs lo prio w = (Err e, w') ∧ llm_unavailable e = true).

Lemma away_embed text t user lo (y : Sys B Store W) :
  models_away -> ∃ e y', embed_query p text t user lo y = (Err (EmbedFailed (BatchFailed e)), y') ∧ llm_unavailable e = true.
Proof.
  intros [He _]. unfold embed_query, batch_embed, mbind, ing_bind. cbn [fmap list_fmap].
  change (batches MAX_EMBED_BATCH_SIZE [EMBED_QUERY_PREFIX ++ text]) with [[EMBED_QUERY_PREFIX ++ text]].
  cbn [send_all]. unfold mbind, ing_bind, on_models.
  destruct (He [EMBED_QUERY_PREFIX ++ text] lo (sy_models y)) as (e & w' & -> & Hu). simpl. by eexists _, _.
Qed.

Lemma away_rerank query docs lo prio t user (s : RSys) :
  models_away -> ∃ e s', rerank k query docs lo prio t user s = (Err (RerankStep e), s') ∧ llm_unavailable e = true.
Proof.
  intros [_ Hr]. unfold rerank, client_rerank, mbind, ret_bind, ret_rerank.
  match goal with |- context [rk_post k ?a ?b ?c ?d ?w] => destruct (Hr a b c d w) as (e & w' & -> & Hu) end.
  simpl. by eexists _, _.
Qed.

(** With the models away the full path ends empty or as unavailable, in a
    store that still answers. *)
Lemma away_hybrid t0 t1 t user q lo (s : RSys) :
  models_away -> (∀ db e n rows, ∃ l, vector_rank db e n rows = Ok l) -> st_connected (rs_store s) = true ->
  ∃ r s1, run_hybrid p k t0 t1 t user q lo s = (r, s1) ∧ st_connected (rs_store s1) = true ∧
    match r with
    | Ok hits => hits = [] ∧ ∃ e st, run_hybrid_search t q e (rs_store s) = (Ok [], st)
    | Err e => backend_unavailable e = true
    end.
Proof.
  intros Ha Hv Hc. unfold run_hybrid, query_embedding, mbind, ret_bind, ret_cache.
  destruct (cached_embed t0 (query_key q) (rs_cache s)) as [v|]; simpl.
  - destruct (hybrid_search_answers t q v (rs_store s) Hc ltac:(done)) as (hits & st & Hh & Hc').
    unfold ret_store at 1, rs_store at 1. simpl. unfold rs_store in Hh. rewrite Hh. destruct hits as [|h hs].
    + eexists _, _. split; [done|]. simpl. eauto.
    + match goal with |- context [rerank k ?a ?b ?c ?d ?x ?u ?s1] =>
        destruct (away_rerank a b c d x u s1 Ha) as (e & s2 & Hr & Hu);
        pose proof (ks_reranking k a b c d x u s1) as Hk; rewrite Hr in Hk |- * end.
      eexists _, _. split; [done|]. simpl in *. by rewrite Hk.
  - unfold ret_embed. simpl. destruct (away_embed (q_text q) t user lo (rs_sys s) Ha) as (e & y' & He & Hu).
    destruct (mo_query p (q_text q) t user lo (rs_sys s)) as (_ & Hs & _). rewrite He in Hs |- *. simpl in *.
    eexists _, _. split; [done|]. unfold rs_store in *. simpl. by rewrite Hs.
Qed.

(** Search stays up when the models are down: if every call of the
    embedding model and of the cross-encoder fails for want of a backend, a
    search on a connected store still answers, whatever is in the cache of
    embeddings, and answers exactly what the keyword search of the store
    answers over the same documents, tags and chunks. *)
Theorem search_survives_outage (t0 t1 t : Z) (user : option Z) (q : Query) (local_only : bool) (s : RSys) :
  0 <= q_top_k q -> st_connected (rs_store s) = true ->
  (∀ db e n rows, ∃ l, vector_rank db e n rows = Ok l) -> models_away ->
  ∃ hits mode s' st, retrieve p k t0 t1 t user q local_only false s = (Ok (hits, mode), s') ∧
    core_same (rs_store s) st ∧ (run_keyword_search t q st).1 = Ok hits.
Proof.
  intros Hk Hc Hv Ha. destruct (away_hybrid t0 t1 t user q local_only s Ha Hv Hc) as (r & s1 & Hr & Hc1 & Hout).
  pose proof (run_hybrid_core p k t0 t1 t user q local_only s) as Hcore. unfold retrieve. rewrite Hr in Hcore |- *. simpl in Hcore.
  destruct r as [hits|e].
  - destruct Hout as [-> (e & st & Hh)]. apply hybrid_nil_keyword in Hh as (s' & Hs'); [|done].
    exists [], Hybrid, s1, (rs_store s). by rewrite Hs'.
  - rewrite Hout. destruct (keyword_search_answers t q (rs_store s1) Hc1) as (hits & st & Hs).
    unfold keyword_path, mbind, ret_bind, ret_store. rewrite Hs. eexists hits, Keyword, _, (rs_store s1).
    by rewrite Hs.
Qed.

(** *** Over the budget *)

(** A tenant over its monthly token budget is never refused a search: a
    well-formed request on a connected store is answered from keywords alone,
    with the results the search of the store gives for that query, capped at
    100, and the answer costs nothing: no model is called, no usage is
    recorded and the cache of embeddings is not consulted. *)
Theorem over_budget_search (now t0 t1 t user : Z) (d : Quota.db) (billing : gmap Z Entry) (params : SearchParams)
    (kinds : list DocKind) (e : QuotaError) (s : RSys) :
  check_plan_token_budget_rollup d t = Err (Quota.Quota e) ->
  trim (sp_q params) <> [] -> parse_kinds (comma_list (sp_kind params)) = Ok kinds -> 0 <= sp_limit params ->
  st_connected (rs_store s) = true ->
  let q := mkQuery (sp_q params) (mkFilters kinds (comma_list (sp_tag params)) None None) (Z.min (sp_limit params) 100) in
  ∃ hits st, run_keyword_search t q (rs_store s) = (Ok hits, st) ∧ search_answer (st_db (rs_store s)) t q hits ∧
    search p k true now t0 t1 (Some d) billing t user params s =
      (SearchOk hits (sp_q params) (Z.of_nat (length hits)) Keyword,
       mkRSys (mkSys (sy_blob (rs_sys s)) st (sy_names (rs_sys s)) (sy_models (rs_sys s)) (sy_usage (rs_sys s)))
         (rs_cache s) (rs_rerank_usage s)).
Proof.
  intros Hb Hq Hkinds Hlim Hc q. destruct (keyword_search_answers t q (rs_store s) Hc) as (hits & st & Hs).
  exists hits, st. split; [done|]. split.
  - apply answer_store. eapply (search_results_ok t q []); [simpl; lia|right; exact Hs].
  - unfold search. rewrite bool_decide_eq_false_2 by done. rewrite Hkinds. simpl. unfold budget_check. rewrite Hb. simpl.
    unfold keyword_path, mbind, ret_bind, ret_store. fold q. change MAX_LIMIT with 100. fold q. by rewrite Hs.
Qed.

(** A search never answers out of the request's own limits. *)
Lemma search_bounded configured now t0 t1 plans billing t user params (s s' : RSys) hits query count mode :
  0 <= sp_limit params ->
  search p k configured now t0 t1 plans billing t user params s = (SearchOk hits query count mode, s') ->
  query = sp_q params ∧ count = Z.of_nat (length hits) ∧ 0 <= count <= Z.min (sp_limit params) 100.
Proof.
  intros Hl. unfold search. case_bool_decide; [intros [= <- <- <- <- <-]; split_and!; simpl; lia || done|].
  destruct (parse_kinds _) as [kinds|]; [|done]. destruct configured; [|done]. simpl.
  destruct (retrieve _ _ _ _ _ _ _ _ _ s) as [[[hs m]|e] s1] eqn:E; [|done]. intros [= -> <- <- -> ->].
  apply retrieve_sound in E as [[Hlen _ _ _] _]; simpl in *; [|unfold MAX_LIMIT; lia].
  unfold MAX_LIMIT in *. split_and!; lia || done.
Qed.
End Answers.

(** ** Plans without remote models *)

(** Two sets of models that differ in what their remote calls do. *)
Record same_local {W} (p p' : IngestPipeline W) (k k' : LlamaReranker W) : Prop := {
  sl_embed texts w : ip_llm_embed p texts true w = ip_llm_embed p' texts true w;
  sl_dim : ip_expected_dim p = ip_expected_dim p';
  sl_recorder : ip_recorder p = ip_recorder p';
  sl_rerank query docs prio w : rk_post k query docs true prio w = rk_post k' query docs true prio w;
  sl_rerank_recorder : rk_recorder k = rk_recorder k';
}.

Section Local.
Context {B W : Type} `{!Unicode} `{!Aead} `{!HashOrder} `{!SearchIndex}.
Context (p p' : IngestPipeline W) (k k' : LlamaReranker W) (Hl : same_local p p' k k').
#[local] Existing Instances ret_ret ret_bind ing_ret ing_bind.

Lemma local_send bs (y : Sys B Store W) : send_all p bs true y = send_all p' bs true y.
Proof using Hl.
  revert y. induction bs as [|b bs IH]; intros y; [done|]. cbn [send_all]. unfold mbind, ing_bind, on_models.
  rewrite (sl_embed _ _ _ _ Hl). destruct (ip_llm_embed p' b true (sy_models y)) as [r w]. by rewrite IH.
Qed.

Lemma local_dims i vs : check_dims p i vs = check_dims p' i vs.
Proof using Hl.
  revert i. induction vs as [|v vs IH]; intros i; [done|]. cbn [check_dims]. by rewrite IH, (sl_dim _ _ _ _ Hl).
Qed.

Lemma local_gather t user rs (y : Sys B Store W) : gather p t user rs y = gather p' t user rs y.
Proof using Hl.
  assert (Hm : ∀ r t (y : Sys B Store W), meter p t user r y = meter p' t user r y) by (intros; unfold meter; by rewrite (sl_recorder _ _ _ _ Hl)).
  revert y. induction rs as [|[r|e] rs IH]; intros y; [done| |done]. cbn [gather]. unfold mbind, ing_bind.
  rewrite local_dims. destruct t as [t|]; [rewrite Hm; destruct (meter p' t user r y) as [[[]|e] y1]; [|done]|simpl];
    (destruct (check_dims p' 0 (er_vectors r)); [|done]; by rewrite IH).
Qed.

Lemma local_embed_query text t user (y : Sys B Store W) : embed_query p text t user true y = embed_query p' text t user true y.
Proof using Hl.
  unfold embed_query, batch_embed, mbind, ing_bind. rewrite local_send.
  destruct (send_all p' _ true y) as [[rs|e] y1]; [|done]. by rewrite local_gather.
Qed.

Lemma local_rerank query docs prio t user (s : RSys B W) :
  rerank k query docs true prio t user s = rerank k' query docs true prio t user s.
Proof using Hl.
  unfold rerank, client_rerank, mbind, ret_bind, ret_rerank. rewrite (sl_rerank _ _ _ _ Hl).
  destruct (rk_post k' _ _ true prio _) as [[raw|e] w]; [|done]. simpl. destruct (negb _); [done|]. simpl.
  unfold meter_rerank. by rewrite (sl_rerank_recorder _ _ _ _ Hl).
Qed.

Lemma local_retrieve t0 t1 t user q degrade (s : RSys B W) :
  retrieve p k t0 t1 t user q true degrade s = retrieve p' k' t0 t1 t user q true degrade s.
Proof using Hl.
  unfold retrieve. destruct degrade; [done|]. enough (Hr : run_hybrid p k t0 t1 t user q true s = run_hybrid p' k' t0 t1 t user q true s)
    by (by rewrite Hr).
  unfold run_hybrid, query_embedding, mbind, ret_bind, ret_cache. destruct (cached_embed _ _ _) as [v|].
  - simpl. destruct (ret_store _ _) as [[[|h hs]|e] s1]; [done| |done]. by rewrite local_rerank.
  - unfold ret_embed. simpl. rewrite local_embed_query. destruct (embed_query p' _ _ _ _ _) as [[v|e] y]; [|done]. simpl.
    destruct (ret_store _ _) as [[[|h hs]|e] s1]; [done| |done]. by rewrite local_rerank.
Qed.

(** A plan without remote models never reaches one: for a tenant whose
    plan excludes them, or whose plan cannot be read and is not in the cache,
    a search answers, records and leaves behind the same whatever the models
    would do with a call that may leave the premises. *)
Theorem free_plan_stays_local (configured : bool) (now t0 t1 t user : Z) (plans : Plans) (billing : gmap Z Entry)
    (params : SearchParams) (s : RSys B W) :
  is_remote_models_allowed_cached now plans t billing = false ->
  search p k configured now t0 t1 plans billing t user params s =
  search p' k' configured now t0 t1 plans billing t user params s.
Proof using Hl.
  intros Ha. unfold search, resolve_local_only, local_only_for_plan. rewrite Ha. simpl.
  case_bool_decide; [done|]. destruct (parse_kinds _); [|done]. destruct configured; [|done]. simpl. by rewrite local_retrieve.
Qed.
End Local.

(** ** Alignment of the scores *)

Lemma seqZ_sorted m n : StronglySorted Z.le (seqZ m n).
Proof.
  destruct (decide (n <= 0)) as [|Hn]; [rewrite seqZ_nil by done; constructor|].
  rewrite <-(Z2Nat.id n) by lia. clear Hn. generalize (Z.to_nat n) as k. intros k. revert m.
  induction k as [|k IH]; intros m; [constructor|]. rewrite seqZ_cons by lia.
  replace (Z.pred (Z.of_nat (S k))) with (Z.of_nat k) by lia. constructor; [apply IH|].
  apply Forall_forall. intros x Hx%elem_of_seqZ. lia.
Qed.

Lemma index_sorted (results : list (Z * f32)) (n : Z) :
  results.*1 ≡ₚ seqZ 0 n -> (sort_by (λ a b : Z * f32, a.1 <=? b.1) results).*1 = seqZ 0 n.
Proof.
  intros Hp. apply (StronglySorted_unique_strong Z.le).
  - intros x y _ _. lia.
  - assert (Hs : ordered (λ a b : Z * f32, a.1 <=? b.1) (sort_by (λ a b : Z * f32, a.1 <=? b.1) results))
      by (apply sort_by_ordered; intros; rewrite ?Z.leb_le in *; lia).
    induction Hs as [|x l Hs IH Hx]; csimpl; constructor; [done|]. apply Forall_fmap. eapply Forall_impl; [exact Hx|].
    intros y Hy. by apply Z.leb_le.
  - apply seqZ_sorted.
  - by rewrite sort_by_perm.
Qed.

(** A reply that names every document once gives each its own score. *)
Lemma scores_aligned (results : list (Z * f32)) (i : nat) (x : f32) :
  results.*1 ≡ₚ seqZ 0 (Z.of_nat (length results)) -> (Z.of_nat i, x) ∈ results ->
  (sort_by (λ a b : Z * f32, a.1 <=? b.1) results).*2 !! i = Some x.
Proof.
  intros Hp Hin. pose proof (index_sorted _ _ Hp) as Hs.
  rewrite <-(sort_by_elem_of (λ a b : Z * f32, a.1 <=? b.1)) in Hin. apply list_elem_of_lookup in Hin as [j Hj].
  assert (Hi : (sort_by (λ a b : Z * f32, a.1 <=? b.1) results).*1 !! j = Some (Z.of_nat i))
    by (rewrite list_lookup_fmap, Hj; done).
  rewrite Hs in Hi. apply lookup_seqZ in Hi as [Hi _]. assert (j = i) as -> by lia. by rewrite list_lookup_fmap, Hj.
Qed.

(** ** The cache is shared *)

Section Shared.
Context {B W : Type} `{!Unicode}.
Context (p : IngestPipeline W).
#[local] Existing Instances ret_ret ret_bind.

(** The embedding computed for one tenant's query answers, for a minute, every
    query of the same trimmed lower-case text: of another tenant, and of a
    plan that excludes the model that computed it. *)
Lemma cached_across_tenants t0 t1 t2 t3 t t' user user' q q' lo lo' (s s' : RSys B W) v :
  query_key q' = query_key q -> cached_embed t0 (query_key q) (rs_cache s) = None ->
  t1 <= t2 -> t2 - t1 < CACHE_TTL ->
  query_embedding p t0 t1 t user q lo s = (Ok v, s') ->
  query_embedding p t2 t3 t' user' q' lo' s' = (Ok v, s').
Proof.
  intros Hk Hn Ht Hf. unfold query_embedding, mbind, ret_bind, ret_cache. rewrite Hn, Hk. simpl.
  destruct (ret_embed _ _) as [[v'|e] s1]; [|done]. simpl. intros [= -> <-]. simpl.
  rewrite cached_after_keep by done. rewrite decide_True by done.
  assert (t2 - t1 <? CACHE_TTL = true) as -> by (apply Z.ltb_lt; lia). by destruct s1.
Qed.
End Shared.

(** ** Concrete searches *)

Section Demo.
#[local] Existing Instances plain_aead demo_hash demo_index demo_index_laws ascii_unicode.

(** The last document scores best. *)
Definition demo_reranker : LlamaReranker unit :=
  mkReranker (λ _ docs _ _ w, (Ok (mkRerankResp (imap (λ i _, (Z.of_nat i, f32_of_Z (Z.of_nat i))) docs) None), w)) true.
Definition demo_rsys : RSys unit unit := mkRSys (mkSys tt searched_store (mkEmbedder [] true []) tt []) ∅ [].
Definition demo_retrieve (degrade : bool) : result (list Hit * SearchMode) RetrieveError * RSys unit unit :=
  retrieve demo_pipeline demo_reranker 0 0 1 None demo_query false degrade demo_rsys.

Lemma retrieve_sound_witness :
  match (demo_retrieve false).1 with Ok (hits, m) => (h_document_id <$> hits, m) | Err _ => ([], Keyword) end = ([1], Hybrid) ∧
  ∀ hits mode s', demo_retrieve false = (Ok (hits, mode), s') ->
    search_answer (st_db searched_store) 1 demo_query hits ∧ core_same searched_store (rs_store s').
Proof.
  split; [vm_compute; reflexivity|]. intros hits mode s' E.
  exact (retrieve_sound demo_pipeline demo_reranker 0 0 1 None demo_query false false demo_rsys s' hits mode ltac:(done) E).
Defined.

Definition away_error : TagError := mkTagError (str "no healthy backend") (Some LScheduler).
Definition away_pipeline : IngestPipeline unit :=
  mkPipeline (ip_extractors demo_pipeline) (ip_tag demo_pipeline) None (f32_of_Z 1) (λ _ _ w, (Err away_error, w)) 2560 true None.
Definition away_reranker : LlamaReranker unit := mkReranker (λ _ _ _ _ w, (Err away_error, w)) true.

Lemma search_survives_outage_witness :
  ∃ hits mode s' st,
    retrieve away_pipeline away_reranker 0 0 1 None demo_query false false demo_rsys = (Ok (hits, mode), s') ∧
    core_same searched_store st ∧ (run_keyword_search 1 demo_query st).1 = Ok hits.
Proof.
  apply (search_survives_outage away_pipeline away_reranker 0 0 1 None demo_query false demo_rsys).
  - done.
  - vm_compute. reflexivity.
  - intros db e n rows. by exists (take (Z.to_nat n) rows).
  - split; intros; by exists away_error, w.
Defined.

Definition spent_db : Quota.db :=
  {| Quota.plans := [sample_free; sample_pro]; Quota.tenants := {[1 := sample_row]};
     Quota.storage_usage := λ _, 990; Quota.token_usage := λ _, 50; Quota.month_token_rollup := λ _, 50;
     Quota.user_count := λ _, 2; Quota.monthly_cost := λ _, 0 |}.
Definition demo_params : SearchParams := mkParams (str "text") (Some (str " document, ")) (Some (str "invoice")) 500.

Lemma over_budget_search_witness :
  ∃ hits st, run_keyword_search 1 (mkQuery (str "text") (mkFilters [KDocument] [str "invoice"] None None) 100)
      (rs_store demo_rsys) = (Ok hits, st) ∧
    search_answer (st_db (rs_store demo_rsys)) 1 (mkQuery (str "text") (mkFilters [KDocument] [str "invoice"] None None) 100) hits ∧
    search demo_pipeline demo_reranker true 0 0 0 (Some spent_db) ∅ 1 5 demo_params demo_rsys =
      (SearchOk hits (str "text") (Z.of_nat (length hits)) Keyword,
       mkRSys (mkSys tt st (mkEmbedder [] true []) tt []) ∅ []).
Proof.
  assert (Hb : ∃ e, check_plan_token_budget_rollup spent_db 1 = Err (Quota.Quota e)).
  { vm_compute. eexists. reflexivity. }
  destruct Hb as [e Hb].
  apply (over_budget_search demo_pipeline demo_reranker 0 0 0 1 5 spent_db ∅ demo_params [KDocument] e demo_rsys Hb).
  - by vm_compute.
  - vm_compute. reflexivity.
  - done.
  - vm_compute. reflexivity.
Defined.

(** Its remote calls answer nonsense. *)
Definition rogue_pipeline : IngestPipeline unit :=
  mkPipeline (ip_extractors demo_pipeline) (ip_tag demo_pipeline) None (f32_of_Z 1)
    (λ texts lo w, if lo then ip_llm_embed demo_pipeline texts lo w else (Err away_error, w)) 2560 true None.

Lemma free_plan_stays_local_witness :
  search demo_pipeline demo_reranker true 0 0 0 None ∅ 1 5 demo_params demo_rsys =
  search rogue_pipeline demo_reranker true 0 0 0 None ∅ 1 5 demo_params demo_rsys.
Proof.
  apply (free_plan_stays_local demo_pipeline rogue_pipeline demo_reranker demo_reranker).
  - by split.
  - done.
Defined.

(** A reply that names one document twice passes the length check. *)
Lemma duplicate_indices_accepted :
  (client_rerank (B:=unit) (mkReranker (λ _ _ _ _ w, (Ok (mkRerankResp [(1, f32_of_Z 7); (1, f32_of_Z 3)] None), w)) true)
     (str "q") [str "a"; str "b"] false 0 demo_rsys).1 = Ok ([f32_of_Z 7; f32_of_Z 3], None).
Proof. vm_compute. reflexivity. Qed.
End Demo.
