(* ===== verification/Maintenance.v ===== *)
(** * Maintenance of the stores
      (pipeline/src/maintenance.rs, pipeline/src/orphan_gc.rs, pipeline/src/integrity_scan.rs)

    A scheduler that runs the recurring tasks of a process, the collection of
    blobs without a row, and the re-hashing of a sample of the blobs.  A
    handler or runner is a function of a state of its own; the clock and the
    calendar are arguments: instants of the scheduler in nanoseconds, dates in
    seconds since the epoch. *)

From stdpp Require Import base gmap list sets strings.
From Stdlib Require Import ZArith Lia Strings.Byte.
From S2P Require Import Prelude Text Blob RequestGate DocBuilder.
Open Scope Z_scope.

(** ** The scheduler *)

Module Scheduler.
Inductive Schedule :=
| Interval (d : Z)
| Daily (hour minute : Z).

Definition DAYISH : Z := 84600 * SECOND.
(** [now.duration_since(t)] saturates at zero. *)
Definition duration_since (now t : Z) : Z := Z.max 0 (now - t).
Definition is_due (schedule : Schedule) (last_run : option Z) (now : Z) : bool :=
  match schedule with
  | Interval d => match last_run with Some t => d <=? duration_since now t | None => true end
  | Daily _ _ => match last_run with None => true | Some t => DAYISH <=? duration_since now t end
  end.

Inductive MaintenanceJobKind := Vacuum | LogPrune | BlobCacheEviction | B2Lifecycle | ReembedCheck.
Definition kind_str (k : MaintenanceJobKind) : string :=
  match k with
  | Vacuum => "vacuum"
  | LogPrune => "log_prune"
  | BlobCacheEviction => "blob_cache_eviction"
  | B2Lifecycle => "b2_lifecycle"
  | ReembedCheck => "reembed_check"
  end.

Record ScheduledJob (W : Type) := mkScheduled {
  sj_kind : MaintenanceJobKind;
  sj_schedule : Schedule;
  sj_run : W -> result unit chars * W;
  sj_last_run : option Z;
}.
Arguments mkScheduled {W}.
Arguments sj_kind {W}.
Arguments sj_schedule {W}.
Arguments sj_run {W}.
Arguments sj_last_run {W}.

(** One attempt: when, the job by its place, its label and its outcome. *)
Record Attempt := mkAttempt { at_time : Z; at_job : nat; at_label : string; at_ok : bool }.

Section Jobs.
Context {W : Type}.
Notation ScheduledJob := (ScheduledJob W).

Definition add_job (kind : MaintenanceJobKind) (schedule : Schedule) (run : W -> result unit chars * W)
    (jobs : list ScheduledJob) : list ScheduledJob := jobs ++ [mkScheduled kind schedule run None].

(** The jobs from place [i] on. *)
Fixpoint run_due_from (now : Z) (i : nat) (jobs : list ScheduledJob) (w : W) : list ScheduledJob * list Attempt * W :=
  match jobs with
  | [] => ([], [], w)
  | job :: jobs =>
      if negb (is_due (sj_schedule job) (sj_last_run job) now)
      then let '(rest, log, w) := run_due_from now (S i) jobs w in (job :: rest, log, w)
      else
        let (r, w) := sj_run job w in
        let job' := mkScheduled (sj_kind job) (sj_schedule job) (sj_run job) (Some now) in
        let '(rest, log, w) := run_due_from now (S i) jobs w in
        (job' :: rest, mkAttempt now i (kind_str (sj_kind job)) (match r with Ok _ => true | Err _ => false end) :: log, w)
  end.
Definition run_due_jobs (now : Z) (jobs : list ScheduledJob) (w : W) : list ScheduledJob * list Attempt * W :=
  run_due_from now 0 jobs w.

(** The loop of the background task, up to the shutdown signal. *)
Fixpoint run_ticks (ticks : list Z) (jobs : list ScheduledJob) (w : W) : list ScheduledJob * list Attempt * W :=
  match ticks with
  | [] => (jobs, [], w)
  | now :: ticks =>
      let '(jobs, log, w) := run_due_jobs now jobs w in
      let '(jobs, log', w) := run_ticks ticks jobs w in
      (jobs, log ++ log', w)
  end.

(** *** What the schedule promises *)

(** The ticks at which a job is due, each moving the last run to itself. *)
Fixpoint due_times (schedule : Schedule) (last_run : option Z) (ticks : list Z) : list Z :=
  match ticks with
  | [] => []
  | now :: ticks =>
      if is_due schedule last_run now then now :: due_times schedule (Some now) ticks
      else due_times schedule last_run ticks
  end.
Definition period (schedule : Schedule) : Z := match schedule with Interval d => d | Daily _ _ => DAYISH end.
(** Every attempt is a period after the one before. *)
Fixpoint spaced (d : Z) (l : list Z) : Prop :=
  match l with
  | a :: ((b :: _) as l') => a + d <= b ∧ spaced d l'
  | _ => True
  end.

Definition attempts_of (i : nat) (log : list Attempt) : list Z :=
  at_time <$> List.filter (λ a, (at_job a =? i)%nat) log.

Lemma attempts_app i l1 l2 : attempts_of i (l1 ++ l2) = attempts_of i l1 ++ attempts_of i l2.
Proof. unfold attempts_of. by rewrite List.filter_app, fmap_app. Qed.

(** What a tick makes of a job, its handler apart. *)
Definition after_tick (now : Z) (job : ScheduledJob) : ScheduledJob :=
  if is_due (sj_schedule job) (sj_last_run job) now
  then mkScheduled (sj_kind job) (sj_schedule job) (sj_run job) (Some now) else job.

Lemma run_due_spec now i jobs w jobs' log w' :
  run_due_from now i jobs w = (jobs', log, w') ->
  jobs' = after_tick now <$> jobs ∧
  ∀ j, attempts_of j log =
    match jobs !! (j - i)%nat with
    | Some job => if (i <=? j)%nat && is_due (sj_schedule job) (sj_last_run job) now then [now] else []
    | None => []
    end.
Proof.
  revert i w jobs' log w'. induction jobs as [|job jobs IH]; intros i w jobs' log w'; cbn [run_due_from].
  { intros [= <- <- <-]. split; [done|]. intros j. by rewrite lookup_nil. }
  assert (Htail : ∀ rest l w1 w2, run_due_from now (S i) jobs w1 = (rest, l, w2) ->
    rest = after_tick now <$> jobs ∧ attempts_of i l = [] ∧
    ∀ j, j ≠ i -> attempts_of j l = match (job :: jobs) !! (j - i)%nat with
      | Some job => if (i <=? j)%nat && is_due (sj_schedule job) (sj_last_run job) now then [now] else [] | None => [] end).
  { intros rest l w1 w2 E. apply IH in E as [-> Hl]. split_and!; [done| |].
    - rewrite Hl. rewrite (proj2 (Nat.leb_gt (S i) i)) by lia. simpl. by destruct (jobs !! _).
    - intros j Hj. rewrite Hl. destruct (decide (i < j)%nat) as [Hlt|Hge].
      + replace (j - i)%nat with (S (j - S i)) by lia. cbn [lookup list_lookup]. destruct (jobs !! (j - S i)%nat); [|done].
        by rewrite (proj2 (Nat.leb_le (S i) j)), (proj2 (Nat.leb_le i j)) by lia.
      + rewrite (proj2 (Nat.leb_gt (S i) j)) by lia. rewrite (proj2 (Nat.leb_gt i j)) by lia. simpl.
        by destruct (jobs !! _), ((job :: jobs) !! _). }
  destruct (is_due (sj_schedule job) (sj_last_run job) now) eqn:Ed; simpl negb; cbn iota.
  - destruct (sj_run job w) as [r w1]. destruct (run_due_from now (S i) jobs w1) as [[rest l] w2] eqn:E.
    intros [= <- <- <-]. apply Htail in E as (-> & Hi & Hj). split; [csimpl; unfold after_tick; by rewrite Ed|].
    intros j. destruct (decide (j = i)) as [->|Hne].
    + rewrite Nat.sub_diag. cbn [lookup list_lookup]. rewrite Ed, (proj2 (Nat.leb_le i i)) by lia.
      unfold attempts_of. cbn [List.filter at_job]. rewrite Nat.eqb_refl. csimpl. f_equal. exact Hi.
    + rewrite <-Hj by done. unfold attempts_of. cbn [List.filter at_job].
      by rewrite (proj2 (Nat.eqb_neq i j)) by done.
  - destruct (run_due_from now (S i) jobs w) as [[rest l] w2] eqn:E. intros [= <- <- <-].
    apply Htail in E as (-> & Hi & Hj). split; [csimpl; unfold after_tick; by rewrite Ed|].
    intros j. destruct (decide (j = i)) as [->|Hne]; [|by apply Hj].
    rewrite Nat.sub_diag. cbn [lookup list_lookup]. by rewrite Ed, andb_false_r.
Qed.

Lemma run_ticks_due ticks jobs w jobs' log w' i job :
  run_ticks ticks jobs w = (jobs', log, w') -> jobs !! i = Some job ->
  attempts_of i log = due_times (sj_schedule job) (sj_last_run job) ticks.
Proof.
  revert jobs w jobs' log w' job. induction ticks as [|now ticks IH]; intros jobs w jobs' log w' job; cbn [run_ticks].
  { by intros [= <- <- <-] _. }
  destruct (run_due_jobs now jobs w) as [[jobs1 log1] w1] eqn:E1.
  destruct (run_ticks ticks jobs1 w1) as [[jobs2 log2] w2] eqn:E2. intros [= <- <- <-] Hj.
  apply run_due_spec in E1 as [-> Hl]. rewrite attempts_app, Hl, Nat.sub_0_r, Hj. simpl.
  rewrite (IH _ _ _ _ _ (after_tick now job) E2) by (by rewrite list_lookup_fmap, Hj).
  unfold after_tick. by destruct (is_due _ _ now).
Qed.

Lemma due_spaced schedule last ticks :
  0 < period schedule -> spaced (period schedule) (due_times schedule (Some last) ticks) ∧
  match due_times schedule (Some last) ticks with [] => True | a :: _ => last + period schedule <= a end.
Proof.
  intros Hp. revert last. induction ticks as [|now ticks IH]; intros last; [done|]. cbn [due_times].
  destruct (is_due schedule (Some last) now) eqn:Ed; [|apply IH]. specialize (IH now) as [Hs Hh].
  assert (Hd : last + period schedule <= now)
    by (destruct schedule; simpl in *; unfold duration_since in Ed; apply Z.leb_le in Ed; lia).
  split; [|done]. destruct (due_times schedule (Some now) ticks); [done|]. by split.
Qed.

(** Whatever the handlers do, a maintenance job is attempted exactly at
    the ticks at which its own schedule says it is due: the failures of a job
    or of another one neither stop it nor bring it forward, and two attempts
    are never closer than the job's period, which for a daily job is 23.5
    hours. *)
Theorem maintenance_on_schedule (ticks : list Z) (jobs jobs' : list ScheduledJob) (w w' : W) (log : list Attempt)
    (i : nat) (job : ScheduledJob) :
  run_ticks ticks jobs w = (jobs', log, w') -> jobs !! i = Some job -> 0 < period (sj_schedule job) ->
  attempts_of i log = due_times (sj_schedule job) (sj_last_run job) ticks ∧
  spaced (period (sj_schedule job)) (attempts_of i log) ∧
  (sj_last_run job = None -> head (attempts_of i log) = head ticks).
Proof.
  intros Hr Hj Hp. rewrite (run_ticks_due _ _ _ _ _ _ _ _ Hr Hj). split; [done|].
  destruct (sj_last_run job) as [last|]; [split; [by apply due_spaced|done]|].
  destruct ticks as [|now ticks]; [done|]. cbn [due_times].
  assert (is_due (sj_schedule job) None now = true) as -> by (by destruct (sj_schedule job)).
  split; [|done]. destruct (due_spaced (sj_schedule job) now ticks Hp) as [Hs Hh].
  destruct (due_times _ _ ticks); [done|]. by split.
Qed.
End Jobs.

(** The hour of a daily job plays no part, and two runs may fall on one day:
    started at midnight, it runs at 00:00 and at 23:30. *)
Lemma daily_twice_a_day hour minute :
  due_times (Daily hour minute) None [0; 84600 * SECOND] = [0; 84600 * SECOND].
Proof. reflexivity. Qed.

Definition failing_job : ScheduledJob nat := mkScheduled Vacuum (Interval 10) (λ w, (Err (str "down"), S w)) None.
Lemma maintenance_on_schedule_witness :
  attempts_of 0 (run_ticks [0; 4; 11; 12; 30] [failing_job; failing_job] 0%nat).1.2 = [0; 11; 30] ∧
  spaced 10 (attempts_of 0 (run_ticks [0; 4; 11; 12; 30] [failing_job; failing_job] 0%nat).1.2).
Proof.
  split; [reflexivity|].
  refine (proj1 (proj2 (maintenance_on_schedule [0; 4; 11; 12; 30] [failing_job; failing_job] _ 0%nat _ _ 0 failing_job _ _ _)));
    [symmetry; reflexivity || reflexivity|reflexivity|done].
Defined.
End Scheduler.

(** ** Blobs without a row *)

Module OrphanGc.
Record DbBlobRecord := mkDbBlob { blob_key : chars; created_at : Z }.
Record OrphanGcConfig := mkGcConfig {
  gc_enabled : bool;
  schedule_hour : Z;
  schedule_minute : Z;
  grace_hours : Z;
}.

(** The stores behind the collector; an error is its message. *)
Class OrphanGcRunner (W : Type) := {
  list_blob_keys : Z -> W -> result (list chars) chars * W;
  list_db_records : Z -> W -> result (list DbBlobRecord) chars * W;
  delete_blob : chars -> W -> result unit chars * W;
}.
(** [has t k w]: the blob [k] of tenant [t] is stored; [row t k w]: a file row
    names it.  Listings are complete, and a deletion touches one blob. *)
Class OrphanGcLaws (W : Type) `{OrphanGcRunner W} (has row : Z -> chars -> W -> Prop) : Prop := {
  gl_blobs t w l w' : list_blob_keys t w = (Ok l, w') -> w' = w ∧ ∀ k, k ∈ l <-> has t k w;
  gl_rows t w l w' : list_db_records t w = (Ok l, w') -> w' = w ∧ ∀ k, k ∈ blob_key <$> l <-> row t k w;
  gl_delete_other k w t' k' : k' <> k -> has t' k' (delete_blob k w).2 <-> has t' k' w;
  gl_delete_row k w t' k' : row t' k' (delete_blob k w).2 <-> row t' k' w;
  gl_delete_ok k w w' t : delete_blob k w = (Ok tt, w') -> ~ has t k w';
  gl_delete_less k w t' k' : has t' k' (delete_blob k w).2 -> has t' k' w;
}.

Definition find_orphan_blobs (store_keys db_keys : list chars) : list chars :=
  List.filter (λ k, negb (bool_decide (k ∈ db_keys))) store_keys.
Definition find_missing_db_blobs (db_records : list DbBlobRecord) (store_keys : list chars) : list chars :=
  blob_key <$> List.filter (λ r, negb (bool_decide (blob_key r ∈ store_keys))) db_records.
Definition filter_by_grace_period (orphans : list chars) (db_records : list DbBlobRecord) (grace_hours now : Z)
    : list chars :=
  let cutoff := now - grace_hours * 3600 in
  let created_map := blob_key <$> List.filter (λ r, cutoff <? created_at r) db_records in
  List.filter (λ k, negb (bool_decide (k ∈ created_map))) orphans.

(** The hour and minute of a date; the last run was 23 hours ago. *)
Definition minute_of_day (now : Z) : Z := now / 60 mod 1440.
Definition scheduled_now (enabled : bool) (hour minute : Z) (last_run : option Z) (now : Z) : bool :=
  enabled && (hour * 60 + minute <=? minute_of_day now) &&
  match last_run with Some last => 23 * 3600 <=? now - last | None => true end.
Definition should_run_now (c : OrphanGcConfig) (last_run : option Z) (now : Z) : bool :=
  scheduled_now (gc_enabled c) (schedule_hour c) (schedule_minute c) last_run now.

(** What is reported to the metrics. *)
Record GcReport := mkGcReport { orphans_found : nat; deleted : nat; missing_rows : nat }.

Section Run.
Context {W : Type} `{!OrphanGcRunner W}.

(** A failed deletion does not stop the others. *)
Fixpoint delete_all (keys : list chars) (w : W) : nat * W :=
  match keys with
  | [] => (O, w)
  | k :: keys =>
      let (r, w) := delete_blob k w in
      let (n, w) := delete_all keys w in
      (match r with Ok _ => S n | Err _ => n end, w)
  end.

Definition run_orphan_gc (c : OrphanGcConfig) (t now : Z) (w : W) : result GcReport chars * W :=
  match list_blob_keys t w with
  | (Err e, w) => (Err (str "orphan-gc: failed to list blob keys: " ++ e), w)
  | (Ok store_keys, w) =>
      match list_db_records t w with
      | (Err e, w) => (Err (str "orphan-gc: failed to list DB records: " ++ e), w)
      | (Ok db_records, w) =>
          let orphans := find_orphan_blobs store_keys (blob_key <$> db_records) in
          let eligible := filter_by_grace_period orphans db_records (grace_hours c) now in
          let (n, w) := delete_all eligible w in
          let missing := find_missing_db_blobs db_records store_keys in
          (Ok (mkGcReport (length orphans) n (length missing)), w)
      end
  end.
Definition process_orphan_gc_job (c : OrphanGcConfig) (job_tenant now : Z) (w : W) : result unit chars * W :=
  let (r, w) := run_orphan_gc c job_tenant now w in
  (match r with Ok _ => Ok tt | Err e => Err e end, w).

(** The grace period spares no orphan: it looks for the dates of blobs in the
    rows, and an orphan is a blob without one. *)
Lemma grace_period_vacuous (store_keys : list chars) (db_records : list DbBlobRecord) (grace now : Z) :
  filter_by_grace_period (find_orphan_blobs store_keys (blob_key <$> db_records)) db_records grace now =
  find_orphan_blobs store_keys (blob_key <$> db_records).
Proof.
  unfold filter_by_grace_period, find_orphan_blobs. set (recent := blob_key <$> List.filter _ db_records).
  assert (Hsub : ∀ k, k ∈ recent -> k ∈ blob_key <$> db_records).
  { intros k (r & -> & Hr)%list_elem_of_fmap. apply list_elem_of_fmap_2. apply list_elem_of_In in Hr.
    apply List.filter_In in Hr as [Hr _]. by apply list_elem_of_In. }
  induction store_keys as [|k ks IH]; simpl; [done|]. case_bool_decide as Hk; simpl; [done|].
  rewrite bool_decide_eq_false_2 by auto. simpl. by rewrite IH.
Qed.

Context (has row : Z -> chars -> W -> Prop) `{!OrphanGcLaws W has row}.

Lemma delete_all_spec keys w n w' :
  delete_all keys w = (n, w') ->
  (∀ t k, k ∉ keys -> has t k w' <-> has t k w) ∧ (∀ t k, has t k w' -> has t k w) ∧
  (∀ t k, row t k w' <-> row t k w) ∧ (n <= length keys)%nat ∧
  (n = length keys -> ∀ t k, k ∈ keys -> ~ has t k w').
Proof.
  revert w n w'. induction keys as [|k ks IH]; intros w n w'; cbn [delete_all].
  { intros [= <- <-]. split_and!; [done..|intros _ t k Hk; set_solver]. }
  pose proof (gl_delete_other k w) as Ho. pose proof (gl_delete_row k w) as Hr. pose proof (gl_delete_less k w) as Hs.
  pose proof (gl_delete_ok k w) as Hd. destruct (delete_blob k w) as [r w1]. simpl in *.
  destruct (delete_all ks w1) as [m w2] eqn:E. apply IH in E as (Ho2 & Hs2 & Hr2 & Hl & Hd2). intros [= <- <-].
  split_and!.
  - intros t k' Hk'. rewrite Ho2 by set_solver. apply Ho. set_solver.
  - eauto.
  - intros t k'. by rewrite Hr2.
  - destruct r; simpl; lia.
  - intros Hn t k' Hk'. destruct r as [[]|]; simpl in *; [|lia].
    destruct (decide (k' ∈ ks)) as [Hin|Hin]; [apply Hd2; [lia|done]|].
    apply elem_of_cons in Hk' as [->|?]; [|done]. rewrite Ho2 by done. by apply (Hd w1).
Qed.

(** The collection deletes orphans and nothing else: a run that answers
    leaves every blob that a row of the tenant names, counts the orphans and
    the rows whose blob is missing as they were, changes no row, and when as
    many deletions succeeded as orphans were found, none is left. *)
Theorem orphan_gc_exact (c : OrphanGcConfig) (t now : Z) (w w' : W) (report : GcReport) :
  run_orphan_gc c t now w = (Ok report, w') ->
  (∀ k, row t k w -> has t k w' <-> has t k w) ∧
  (∀ u k, has u k w' -> has u k w) ∧ (∀ u k, row u k w' <-> row u k w) ∧
  (∀ u k, ~ has t k w -> has u k w' <-> has u k w) ∧
  (deleted report = orphans_found report -> ∀ k, has t k w' -> row t k w') ∧
  (orphans_found report = 0%nat <-> ∀ k, has t k w -> row t k w) ∧
  (missing_rows report = 0%nat <-> ∀ k, row t k w -> has t k w).
Proof.
  unfold run_orphan_gc. destruct (list_blob_keys t w) as [[ks|e] w1] eqn:Ek; [|done].
  apply gl_blobs in Ek as [-> Hk]. destruct (list_db_records t w) as [[rs|e] w1] eqn:Er; [|done].
  apply gl_rows in Er as [-> Hr]. rewrite grace_period_vacuous. set (orphans := find_orphan_blobs _ _).
  assert (Hor : ∀ k, k ∈ orphans <-> has t k w ∧ ~ row t k w).
  { intros k. unfold orphans, find_orphan_blobs. rewrite list_elem_of_In, List.filter_In, <-list_elem_of_In, Hk, <-Hr.
    by rewrite negb_true_iff, bool_decide_eq_false. }
  destruct (delete_all orphans w) as [n w2] eqn:Ed. apply delete_all_spec in Ed as (Ho & Hs & Hrow & Hl & Hd).
  intros [= <- <-]. cbn [orphans_found deleted missing_rows]. split_and!; [|done|done| | | |].
  - intros k Hrk. apply Ho. rewrite Hor. naive_solver.
  - intros u k Hn. apply Ho. rewrite Hor. naive_solver.
  - intros Hn k Hh. rewrite Hrow. destruct (decide (k ∈ orphans)) as [Hin|Hin]; [by apply (Hd Hn t) in Hin|].
    rewrite Ho in Hh by done. rewrite <-Hr. destruct (decide (k ∈ blob_key <$> rs)); [done|].
    exfalso. apply Hin, Hor. by rewrite <-Hr.
  - rewrite length_zero_iff_nil. split.
    + intros E k Hh. rewrite <-Hr. destruct (decide (k ∈ blob_key <$> rs)) as [|Hn]; [done|].
      rewrite Hr in Hn. exfalso. apply (not_elem_of_nil k). rewrite <-E. by apply Hor.
    + intros Hall. apply elem_of_nil_inv. intros k [Hh Hn]%Hor. by apply Hn, Hall.
  - unfold find_missing_db_blobs. rewrite length_fmap, length_zero_iff_nil. split.
    + intros E k Hrk. apply Hr, list_elem_of_fmap in Hrk as (r & -> & Hin). apply Hk.
      destruct (decide (blob_key r ∈ ks)) as [|Hn]; [done|]. exfalso. apply (not_elem_of_nil r). rewrite <-E.
      apply list_elem_of_In, List.filter_In. rewrite <-list_elem_of_In, negb_true_iff, bool_decide_eq_false. done.
    + intros Hall. apply elem_of_nil_inv. intros r Hin. apply list_elem_of_In, List.filter_In in Hin as [Hin Hb].
      rewrite negb_true_iff, bool_decide_eq_false in Hb. apply Hb, Hk, Hall, Hr. apply list_elem_of_fmap_2.
      by apply list_elem_of_In.
Qed.
End Run.
Arguments run_orphan_gc {W _}.

(** *** A concrete pair of stores *)

Record GcDemo := mkGcDemo { gd_blobs : gset (Z * chars); gd_rows : list (Z * DbBlobRecord) }.
#[local] Instance demo_runner : OrphanGcRunner GcDemo := {|
  list_blob_keys t w := (Ok (snd <$> List.filter (λ b, b.1 =? t) (elements (gd_blobs w))), w);
  list_db_records t w := (Ok (snd <$> List.filter (λ r, r.1 =? t) (gd_rows w)), w);
  delete_blob k w := (Ok tt, mkGcDemo (filter (λ b, b.2 <> k) (gd_blobs w)) (gd_rows w));
|}.
Definition demo_has (t : Z) (k : chars) (w : GcDemo) : Prop := (t, k) ∈ gd_blobs w.
Definition demo_row (t : Z) (k : chars) (w : GcDemo) : Prop := ∃ r, (t, r) ∈ gd_rows w ∧ blob_key r = k.
#[local] Instance demo_laws : OrphanGcLaws GcDemo demo_has demo_row.
Proof.
  split; unfold demo_has, demo_row; simpl.
  - intros t w l w' [= <- <-]. split; [done|]. intros k. rewrite list_elem_of_fmap. setoid_rewrite list_elem_of_In.
    setoid_rewrite List.filter_In. setoid_rewrite <-list_elem_of_In. setoid_rewrite elem_of_elements. split.
    + intros ([u k'] & -> & Hin & Hu). simpl in *. apply Z.eqb_eq in Hu as ->. done.
    + intros Hin. exists (t, k). by rewrite Z.eqb_refl.
  - intros t w l w' [= <- <-]. split; [done|]. intros k. rewrite list_elem_of_fmap. split.
    + intros (r & -> & ([u r'] & -> & Hin)%list_elem_of_fmap). apply list_elem_of_In, List.filter_In in Hin as [Hin Hu].
      simpl in *. apply Z.eqb_eq in Hu as ->. exists r'. by rewrite list_elem_of_In.
    + intros (r & Hin & <-). exists r. split; [done|]. apply list_elem_of_fmap. exists (t, r). split; [done|].
      apply list_elem_of_In, List.filter_In. rewrite <-list_elem_of_In. simpl. by rewrite Z.eqb_refl.
  - set_solver.
  - done.
  - intros k w w' t [= <-]. simpl. set_solver.
  - set_solver.
Qed.

Definition demo_config : OrphanGcConfig := mkGcConfig true 2 0 24.
(** A row names "1/a"; "1/b" was written a moment ago by an upload that has
    not inserted its rows yet. *)
Definition demo_stores : GcDemo := mkGcDemo {[(1, str "1/a"); (1, str "1/b")]} [(1, mkDbBlob (str "1/a") 100)].

Definition demo_collected : GcDemo := (run_orphan_gc demo_config 1 1000 demo_stores).2.
Lemma orphan_gc_exact_witness :
  run_orphan_gc demo_config 1 1000 demo_stores = (Ok (mkGcReport 1 1 0), demo_collected) ∧
  demo_has 1 (str "1/a") demo_collected.
Proof.
  assert (Hrun : run_orphan_gc demo_config 1 1000 demo_stores = (Ok (mkGcReport 1 1 0), demo_collected))
    by (vm_compute; reflexivity).
  split; [exact Hrun|].
  apply (proj1 (orphan_gc_exact demo_has demo_row demo_config 1 1000 demo_stores _ _ Hrun)).
  - exists (mkDbBlob (str "1/a") 100). split; [|done]. apply list_elem_of_In. simpl. auto.
  - unfold demo_has, demo_stores. set_solver.
Defined.

(** The upload in flight loses its blob, whatever the grace period. *)
Lemma upload_in_flight_collected hours :
  ¬ demo_has 1 (str "1/b") (run_orphan_gc (mkGcConfig true 2 0 hours) 1 1000 demo_stores).2.
Proof.
  unfold run_orphan_gc. cbn [list_blob_keys list_db_records demo_runner]. rewrite grace_period_vacuous.
  vm_compute. intros H. done.
Qed.
End OrphanGc.

(** ** Re-hashing a sample *)

Module IntegrityScan.
Record FileShaRecord := mkFileSha { blob_key : chars; sha256 : bytes }.
Record IntegrityScanConfig := mkScanConfig {
  is_enabled : bool;
  schedule_hour : Z;
  schedule_minute : Z;
  sample_pct : nat;
}.
Class IntegrityScanRunner (W : Type) := {
  list_file_records : Z -> W -> result (list FileShaRecord) chars * W;
  get_blob_bytes : chars -> W -> result bytes chars * W;
}.

Definition rotate_left {A} (k : nat) (l : list A) : list A := drop k l ++ take k l.
Definition sample_size (n pct : nat) : nat := ((n * pct + 99) / 100)%nat.
(** The places looked at on a day of the year, counted from 0. *)
Definition sample_indices (day n pct : nat) : list nat :=
  take (sample_size n (pct `min` 100)) (rotate_left (day mod n) (seq 0 n)).
Definition select_sample (day : nat) (records : list FileShaRecord) (pct : nat) : list FileShaRecord :=
  if (length records =? 0)%nat || (pct =? 0)%nat then []
  else omap (λ i, records !! i) (sample_indices day (length records) pct).

Definition should_run_now (c : IntegrityScanConfig) (last_run : option Z) (now : Z) : bool :=
  OrphanGc.scheduled_now (is_enabled c) (schedule_hour c) (schedule_minute c) last_run now.

Record Tally := mkTally { verified : nat; failed : nat; skipped : nat }.

Section Scan.
Context {W : Type} `{!IntegrityScanRunner W} (sha : bytes -> bytes).

Definition verify_hash (data expected : bytes) : bool := bool_decide (sha data = expected).

Fixpoint scan_all (sample : list FileShaRecord) (n : Tally) (w : W) : Tally * W :=
  match sample with
  | [] => (n, w)
  | rec :: sample =>
      let (r, w) := get_blob_bytes (blob_key rec) w in
      let n := match r with
               | Ok data =>
                   if verify_hash data (sha256 rec) then mkTally (S (verified n)) (failed n) (skipped n)
                   else mkTally (verified n) (S (failed n)) (skipped n)
               | Err _ => mkTally (verified n) (failed n) (S (skipped n))
               end in
      scan_all sample n w
  end.

(** With the pair of counts reported to the metrics. *)
Definition run_integrity_scan (c : IntegrityScanConfig) (day : nat) (t : Z) (w : W)
    : result unit chars * option (nat * nat) * W :=
  match list_file_records t w with
  | (Err e, w) => (Err (str "integrity-scan: failed to list file records: " ++ e), None, w)
  | (Ok records, w) =>
      if (length records =? 0)%nat then (Ok tt, Some (O, O), w)
      else
        let sample := select_sample day records (sample_pct c) in
        let (n, w) := scan_all sample (mkTally 0 0 0) w in
        ((if (0 <? failed n)%nat
          then Err (str "integrity-scan: " ++ show_int (Z.of_nat (failed n)) ++ str " of " ++
                    show_int (Z.of_nat (length sample)) ++ str " blobs failed hash verification")
          else Ok tt), Some (verified n, failed n), w)
  end.
Definition process_integrity_scan_job (c : IntegrityScanConfig) (day : nat) (job_tenant : Z) (w : W)
    : result unit chars * W :=
  let '(r, _, w) := run_integrity_scan c day job_tenant w in (r, w).
End Scan.

(** *** Which blobs are looked at *)

Lemma rotate_seq d n : (d < n)%nat -> rotate_left d (seq 0 n) = (λ j, (d + j) mod n)%nat <$> seq 0 n.
Proof.
  intros Hd. apply list_eq. intros j. unfold rotate_left. rewrite list_lookup_fmap, lookup_app, lookup_drop.
  destruct (decide (j < n)%nat) as [Hj|Hj].
  - rewrite (lookup_seq_lt 0 n j) by done. simpl. destruct (decide (d + j < n)%nat).
    + rewrite lookup_seq_lt by done. by rewrite Nat.mod_small.
    + rewrite lookup_seq_ge by lia. rewrite length_drop, length_seq, lookup_take_lt, lookup_seq_lt by lia.
      f_equal. simpl. apply (Nat.mod_unique _ _ 1); lia.
  - rewrite !lookup_seq_ge by lia. simpl. apply lookup_ge_None_2. rewrite length_take, length_drop, length_seq. lia.
Qed.

Lemma sample_index day n pct i : (0 < n)%nat ->
  i ∈ sample_indices day n pct <->
  ∃ j, (j < sample_size n (pct `min` 100))%nat ∧ (j < n)%nat ∧ i = ((day + j) mod n)%nat.
Proof.
  intros Hn. unfold sample_indices. rewrite rotate_seq by (apply Nat.mod_upper_bound; lia).
  rewrite <-fmap_take, list_elem_of_fmap. setoid_rewrite elem_of_take. split.
  - intros (j & -> & k & [-> Hk]%lookup_seq & Hs). exists k. by rewrite Nat.Div0.add_mod_idemp_l.
  - intros (j & Hs & Hj & ->). exists j. rewrite Nat.Div0.add_mod_idemp_l. split; [done|]. exists j. by rewrite lookup_seq.
Qed.

(** A day looks at as many blobs as were asked for, rounded up, each once. *)
Lemma sample_length day records pct :
  length (select_sample day records pct) = ((length records * (pct `min` 100) + 99) / 100)%nat ∨ records = [] ∨ pct = 0%nat.
Proof.
  destruct records as [|r rs]; [by auto|]. set (records := r :: rs). destruct pct as [|pct]; [by auto|]. left.
  unfold select_sample. set (n := length records). assert (Hn : (0 < n)%nat) by (unfold n; simpl; lia).
  rewrite (proj2 (Nat.eqb_neq n 0)) by lia. simpl orb. cbn iota.
  assert (Hall : ∀ l, Forall (λ i, i < n)%nat l -> length (omap (λ i, records !! i) l) = length l).
  { intros l. induction 1 as [|i l Hi _ IH]; [done|]. csimpl. destruct (lookup_lt_is_Some_2 records i Hi) as [x ->].
    simpl. by rewrite IH. }
  rewrite Hall.
  - unfold sample_indices. rewrite length_take. unfold rotate_left. rewrite length_app, length_drop, length_take, length_seq.
    pose proof (Nat.mod_upper_bound day n ltac:(lia)). unfold sample_size.
    assert ((n * (S pct `min` 100) + 99) / 100 < S n)%nat by (apply Nat.Div0.div_lt_upper_bound; nia). lia.
  - apply Forall_forall. intros i (j & _ & Hj & ->)%sample_index; [|done]. apply Nat.mod_upper_bound. lia.
Qed.

(** Past the first year's worth of places nothing is ever looked at: the
    window starts at the day of the year. *)
Lemma never_sampled day n pct i :
  (day <= 365)%nat -> (365 + sample_size n (pct `min` 100) <= i < n)%nat -> i ∉ sample_indices day n pct.
Proof.
  intros Hd [Hi Hn] (j & Hs & Hj & E)%sample_index; [|lia]. rewrite Nat.mod_eq in E by lia.
  rewrite Nat.div_small in E by lia. lia.
Qed.

(** What was looked at one day is looked at again the next, but for one blob. *)
Lemma sampled_again day n pct i :
  (0 < n)%nat -> i ∈ sample_indices day n pct -> i <> (day mod n)%nat -> i ∈ sample_indices (S day) n pct.
Proof.
  intros Hn (j & Hs & Hj & ->)%sample_index Hne; [|done]. apply sample_index; [done|].
  destruct j as [|j]; [by rewrite Nat.add_0_r in Hne|]. exists j. split_and!; [lia|lia|]. f_equal. lia.
Qed.

(** *** What a scan tells *)

Section Told.
Context {W : Type} `{!IntegrityScanRunner W} (sha : bytes -> bytes).
(** Reading a blob changes nothing. *)
Hypothesis reads : ∀ k w, (get_blob_bytes k w).2 = w.

Definition corrupt (w : W) (rec : FileShaRecord) : Prop :=
  ∃ data, (get_blob_bytes (blob_key rec) w).1 = Ok data ∧ sha data <> sha256 rec.
Definition intact (w : W) (rec : FileShaRecord) : Prop :=
  ∃ data, (get_blob_bytes (blob_key rec) w).1 = Ok data ∧ sha data = sha256 rec.

Lemma scan_all_spec sample n w :
  (scan_all sha sample n w).2 = w ∧
  let n' := (scan_all sha sample n w).1 in
  (verified n' + failed n' + skipped n' = verified n + failed n + skipped n + length sample)%nat ∧
  (failed n <= failed n')%nat ∧ (failed n' = failed n <-> Forall (λ r, ~ corrupt w r) sample) ∧
  (verified n' = verified n + length sample -> Forall (intact w) sample)%nat ∧ (verified n' <= verified n + length sample)%nat.
Proof using reads.
  revert n. induction sample as [|rec sample IH]; intros n; cbn [scan_all].
  { simpl. split_and!; [done|lia|lia| |constructor|lia]. split; [constructor|done]. }
  pose proof (reads (blob_key rec) w) as Hw. destruct (get_blob_bytes (blob_key rec) w) as [r w1] eqn:Eg. simpl in Hw. subst w1. cbn beta iota zeta.
  match goal with |- context [scan_all sha sample ?m w] => destruct (IH m) as (H2 & Hsum & Hle & Hf & Hv & Hvl); set (n1 := m) in * end.
  split; [done|]. cbn zeta. set (n' := (scan_all sha sample n1 w).1) in *. clearbody n'. rewrite !Forall_cons. cbn [length].
  assert (Hc : corrupt w rec <-> match r with Ok data => sha data <> sha256 rec | Err _ => False end).
  { unfold corrupt. rewrite Eg. simpl. destruct r; naive_solver. }
  assert (Hi : intact w rec <-> match r with Ok data => sha data = sha256 rec | Err _ => False end).
  { unfold intact. rewrite Eg. simpl. destruct r; naive_solver. }
  rewrite Hc, Hi. clear Hc Hi. subst n1. unfold verify_hash in *.
  destruct r as [data|e]; [destruct (bool_decide_reflect (sha data = sha256 rec))|]; cbn [verified failed skipped] in *.
  - split_and!; [lia|lia|rewrite Hf; naive_solver| |lia]. intros E. split; [done|apply Hv; lia].
  - split_and!; [lia|lia|split; [lia|naive_solver]|lia|lia].
  - split_and!; [lia|lia|rewrite Hf; naive_solver|lia|lia].
Qed.

(** A scan that finds its records fails exactly when one of the blobs in
    the day's sample can be read and does not hash to what its row says; the
    counts it reports never exceed the sample, a blob that cannot be read
    counts as neither, nothing is changed, and a scan whose verified count is
    the size of the sample vouches for every blob of it. *)
Theorem integrity_scan_exact (c : IntegrityScanConfig) (day : nat) (t : Z) (records : list FileShaRecord) (w w' : W)
    (r : result unit chars) (m : option (nat * nat)) :
  list_file_records t w = (Ok records, w) ->
  run_integrity_scan sha c day t w = (r, m, w') ->
  let sample := select_sample day records (sample_pct c) in
  w' = w ∧ (r = Ok tt <-> Forall (λ rec, ~ corrupt w rec) sample) ∧
  ∃ ok bad, m = Some (ok, bad) ∧ (ok + bad <= length sample)%nat ∧ (bad = 0%nat <-> r = Ok tt) ∧
    (ok = length sample -> Forall (intact w) sample).
Proof using reads.
  intros Hl. unfold run_integrity_scan. rewrite Hl. destruct records as [|r0 rs].
  { intros [= <- <- <-]. simpl. split_and!; [done|split; [constructor|done]|]. exists 0%nat, 0%nat. by split_and!; try constructor. }
  cbn [length Nat.eqb]. set (sample := select_sample _ _ _). pose proof (scan_all_spec sample (mkTally 0 0 0) w) as Hs.
  destruct (scan_all sha sample (mkTally 0 0 0) w) as [n w1]. simpl in Hs. destruct Hs as (-> & Hsum & _ & Hf & Hv & Hvl).
  intros [= <- <- <-]. split; [done|]. destruct (Nat.ltb_spec 0 (failed n)) as [Hlt|Hge].
  - split; [split; [done|intros Hall; apply Hf in Hall; lia]|]. exists (verified n), (failed n).
    split_and!; [done|lia|split; [lia|done]|by intros; apply Hv].
  - assert (failed n = 0%nat) as H0 by lia. split; [split; [by intros _; apply Hf|done]|]. exists (verified n), (failed n).
    split_and!; [done|lia|by rewrite H0|by intros; apply Hv].
Qed.
End Told.

(** *** A concrete scan *)

Definition demo_sha (b : bytes) : bytes := replicate 32 (default x00 (head b)).
Definition demo_records : list FileShaRecord :=
  [mkFileSha (str "1/a") (replicate 32 x61); mkFileSha (str "1/b") (replicate 32 x62); mkFileSha (str "1/c") (replicate 32 x63)].
(** The second blob has rotted. *)
#[local] Instance demo_scan : IntegrityScanRunner unit := {|
  list_file_records _ w := (Ok demo_records, w);
  get_blob_bytes k w := (if bool_decide (k = str "1/a") then Ok [x61] else if bool_decide (k = str "1/b") then Ok [x7a] else Err (str "gone"), w);
|}.
Definition demo_scan_config : IntegrityScanConfig := mkScanConfig true 4 0 50.

Lemma integrity_scan_exact_witness :
  (run_integrity_scan demo_sha demo_scan_config 0 1 tt).1.1 <> Ok tt ∧
  (run_integrity_scan demo_sha demo_scan_config 2 1 tt).1 = (Ok tt, Some (1, 0)%nat) ∧
  ¬ Forall (λ rec, ¬ corrupt demo_sha tt rec) (select_sample 0 demo_records 50).
Proof.
  split; [vm_compute; done|]. split; [vm_compute; reflexivity|]. intros Hall.
  assert (Hrun : run_integrity_scan demo_sha demo_scan_config 0 1 tt =
    ((run_integrity_scan demo_sha demo_scan_config 0 1 tt).1.1, Some (1, 1)%nat, tt)) by (vm_compute; reflexivity).
  assert (Hreads : ∀ k (w : unit), (get_blob_bytes k w).2 = w) by done.
  destruct (integrity_scan_exact demo_sha Hreads demo_scan_config 0 1 demo_records tt tt _ _ eq_refl Hrun) as (_ & Hr & _).
  apply Hr in Hall. revert Hall. vm_compute. done.
Defined.
End IntegrityScan.
